(* ===== verification/_CoqProject ===== *)
-Q . S2P
Prelude.v
Hoare.v
Interleave.v
GoMap.v
Config.v
Hex.v
Chord.v
Routing.v
Lookup.v
Cluster.v
RoutingInv.v
Stable.v
Sha1.v
Identity.v
Records.v
TestCodec.v
RecordStore.v
RecordNet.v
StoreKeys.v
StoreDeps.v
NetworkStore.v
BlockStore.v
Cache.v
Roots.v
LocalGC.v
RingIndex.v
NetworkGC.v
StoreCounters.v
RingAccounting.v
StoreRestart.v
BlockNode.v
BlockNet.v
BlockPlacement.v
BlockSurvival.v
RingTransfer.v
BlockHandover.v
Auth.v
Addr.v
RpcWire.v
RpcPool.v
Groups.v
GroupUpdates.v
KeyFiles.v
Fetch.v
RingManager.v
