(* ===== verification/Prelude.v ===== *)
(** * Data rings: a verification development

    This library models the data-rings program under src/ and proves what makes it correct. It
    is a shallow embedding: Go functions are functions on explicit states, errors are values,
    calls to other machines and to third-party packages are operations of an environment that
    the theorems quantify over, and goroutines are steps that run in any order.

    ** The program

    A daemon belongs to a public ring and to private ones. A ring is a Chord overlay
    (src/dht/chord.go, node.go, stabilize.go): nodes and contents have 160-bit identifiers on a
    circle, each node keeps its successor, some backups, its predecessors and a table of
    fingers, and a lookup walks the fingers to the node responsible for an identifier. On top
    of it nodes store records about peers, groups and providers of content (records.go,
    node.go, public.go), which are signed, versioned and expire, and blocks, which are put at
    their owner and replicated to its successors. Nodes talk over net/rpc (rpc.go); in a private
    ring every connection starts with a handshake over the key of the group (auth.go,
    private.go). The blocks of all rings live in one store per node
    (src/store/network_block_store.go) that keeps an index of the roots each ring wants to keep,
    counts bytes per ring and in all, and collects what no root needs; the blocks a user tracks
    are in a local store with a quota, a cache and a registry of roots (src/store). Trees of
    blocks are fetched and shared by pipelines of workers (fetch.go). The daemon remembers the
    rings it joined in a file and joins them again when it starts (src/cmd/drings-daemon).

    ** Files

    Foundations.
    - [Prelude]: bytes, 64-bit wrap-around, Go errors with their sentinels, results, and the
      monad [M S A] of handlers that read and change a state and may fail.
    - [Hoare]: triples for that monad: [triple], invariants ([keeps]), total correctness
      ([succeeds]), handlers without error results ([never_fails]), and their tactics.
    - [GoMap]: loops over Go maps, in any order.
    - [Config]: the node configuration and its defaults (src/dht/dht.go).
    - [Hex]: hexadecimal and little-endian codecs.

    The ring.
    - [Chord]: identifiers, interval tests, finger starts (src/dht/chord.go).
    - [Routing]: the state [Routing] of a node and its handlers (node.go, stabilize.go). The
      class [NodeEnv] is the transport: an operation on another node is a state change of
      the whole world.
    - [Lookup]: lookups over any environment that answers like a stabilized ring
      ([StabilizedNet]).
    - [Cluster]: many nodes connected by the in-process transport (src/dht/local.go), with
      partitions and crashes; it is an instance of [NodeEnv].
    - [RoutingInv]: the well-formedness of routing states is kept by every handler, under
      any interference the transport calls allow, and by every event of a cluster.
    - [Stable]: the ideal ring is kept by maintenance, joins link the new node, failures move
      to the next backup, and notifications hand keys over.

    Identities and records.
    - [Sha1]: executable SHA-1, with which identifiers are computed.
    - [Identity], [Records]: keys, key files, signed records (identity.go, records.go), over
      classes for Ed25519 and the CBOR and protobuf codecs. [TestCodec] has instances.
    - [RecordStore]: the records a node holds. [RecordNet]: routed puts and gets in a cluster.

    Stores (src/store).
    - [StoreKeys], [StoreDeps]: the string keys of the metadata datastore, and the packages
      under the stores as a class with the laws of maps.
    - [NetworkStore]: the network block store, operation by operation. [StoreCounters]: its
      totals through any run. [StoreRestart]: closing and opening it.
    - [RingIndex], [NetworkGC], [RingAccounting]: the metadata of the rings as a map with typed
      keys, the collection, and the accounts of rings and roots through any run.
    - [BlockStore]: the interface of block stores as a class with laws ([BlockStoreLaws]), the
      disk store and the quota (blockstore.go, quota.go). [Cache]: the cache (cache.go).
    - [Roots]: the registry of roots (roots.go). [LocalGC]: the collection of local blocks
      (store.go, gc.go).

    Blocks in a ring.
    - [BlockNode]: what a node does with blocks, over the class [BlockEnv] (node.go,
      stabilize.go). [BlockNet]: the nodes of a cluster as an instance (local.go).
    - [BlockPlacement], [BlockSurvival], [BlockHandover]: where blocks are found, which losses
      they survive, and how they move when a node joins or leaves.
    - [Fetch]: the pipelines that fetch and share trees, as step relations over an interface
      [DagEnv] with laws [DagLaws] (fetch.go).

    The network.
    - [Auth]: the handshake of private rings (auth.go). [Addr]: multiaddrs (chord.go).
    - [RpcWire]: the messages, handlers and stubs of the RPC layer (rpc.go, private.go).
    - [RpcPool]: the connections of both transports, and that a remote call does what the
      in-process call does.

    Groups and the daemon.
    - [Groups]: publication and look-up of peers, groups and providers, updates of group records,
      joining through the public ring (public.go, private.go).
    - [KeyFiles]: the vault of keys and the groups file (vault.go, groupconfig.go).
    - [RingManager]: the private rings of a daemon, over an interface [RingEnv]
      (private_manager.go, gc_prune.go, replication_drain.go, the start loop of main.go).

    ** What is shown

    Routing. Lookups return the responsible node ([FindSuccessor_correct]); routing states stay
    well formed through any sequence of events ([routing_invariant]); maintenance keeps a right
    ring right and joins link the new node ([ideal_ring_kept], [join_links_new_node]).

    Records. They are accepted only when authentic and newer, versions never go back, and a
    published record is found at every member ([signed_put_checked],
    [version_never_regresses], [published_record_is_found]). Concurrent updates of a group
    record lose no member, and an update is seen by all ([concurrent_updates_keep_members],
    [group_update_is_visible]).

    Stores. Counters are exact and limits are never exceeded ([storage_accounting],
    [ring_accounting]); a clean restart loses nothing ([clean_restart]); cache, quota, disk and
    registry refine maps ([lru_refinement], [layered_store_refines_map],
    [registry_refines_map]); both collections keep exactly what they should
    ([local_gc_exact], [network_gc_exact]).

    Blocks. What is put is found, replicated to exactly the holders, and survives the loss of
    fewer members than the replication factor ([stored_block_is_found],
    [replication_completes], [replica_targets_are_holders], [block_survives_losses]); pruning
    and hand-over lose nothing that is held ([prune_keeps_held_blocks],
    [handover_moves_blocks], [leave_keeps_blocks]). Fetching and sharing move the whole tree and end
    ([fetched_tree_is_local], [shared_tree_is_put], [fetch_terminates]).

    Network. The handshake completes between holders of the key, and a server accepts a client
    only on a code made for that session ([handshake_completes], [server_agreement]); remote
    calls refine in-process ones ([remote_block_calls], [private_routing_calls]); only verified
    peers are talked to ([private_peers_are_verified]).

    Daemon. The vault refines a map ([vault_refines_map]), a daemon that restarts is in the
    rings it had joined ([restart_rejoins]), and a reference to a ring is never dangling when
    operations run one after the other ([resolved_ring_is_live]).

    Some theorems state behaviours that are not what the code means to do. Among the main ones:
    [unclean_restart], [server_code_replayed], [foreign_record_is_returned],
    [cancelled_pipelines_succeed] and [concurrent_joins_dangle]; also [gc_codec_confusion],
    [deleted_record_comes_back], [purged_list_loses_ages],
    [raw_provider_push_drops_list], [forgotten_ring_keeps_counters],
    [full_joiner_loses_block], [failing_calls_leak] and [join_discards_unreadable_file].

    ** Bounds

    A lookup is a loop of at most [maxLookupHops] = 160 rounds, as in the code, and
    [FindSuccessor_correct] shows it ends within them in a stabilized ring. The update of a
    group record tries [maxGroupRecordRetries] = 5 times, as in the code. The walk over a tree
    in [LocalGC] has fuel, and [local_gc_exact] shows that one call per local block and one more
    is enough; the walk of a deletion in [BlockNode] has fuel in the same way and is not the
    subject of a theorem. Cutting a list into chunks has the length of the list as fuel. A fetch
    takes at most two steps per block of the tree and one for a cancellation. Sizes and counters
    are 64-bit with wrap-around written out; the theorems about counters assume that the sums on
    disk stay below 2^63.

    ** What is not modelled

    Locks: each critical section or store operation is one step. Time-outs and the timing of
    loops that run in the background: the theorems are about every order of their rounds.
    Third-party packages (datastore, blockstore, CID, CBOR, protobuf, multiaddr, dag-pb,
    Ed25519, HMAC), gob and JSON are parameters with the laws the code relies on. Not modelled
    because they are input and output around the operations above: TCP listeners, the HTTP API
    and the command line (src/api, src/cmd/drings), flags and servers of the daemon, the TOML
    configuration, the FUSE view, metrics and event logs. Importing files is wiring of the boxo
    packages; deployment, the test rig and generated code are not part of the running
    program. *)

From stdpp Require Import base gmap sets list strings fin_maps.
From Stdlib Require Import ZArith Lia Strings.Byte Ascii.

Set Default Goal Selector "!".

(** ** Bytes, byte slices and machine integers *)

(** A Go [[]byte]. *)
Abbreviation bytes := (list byte).

#[global] Instance byte_eq_decision : EqDecision byte := Byte.byte_eq_dec.

#[global] Program Instance byte_countable : Countable byte :=
  inj_countable Byte.to_N Byte.of_N _.
Next Obligation. intros b. apply Byte.of_to_N. Qed.

Declare Scope go_scope.
Delimit Scope go_scope with go.

Section Integers.
Local Open Scope Z_scope.

(** The unsigned value of a byte, and the conversion [byte(z)], which keeps the
    low eight bits. *)
Definition byte_val (b : byte) : Z := Z.of_N (Byte.to_N b).

Definition byte_of_Z (z : Z) : byte :=
  default x00 (Byte.of_N (Z.to_N (z mod 256))).

(** Two's complement conversion to a Go [int64] and to a [uint64]. *)
Definition wrap64 (z : Z) : Z := (z + 2 ^ 63) mod 2 ^ 64 - 2 ^ 63.

Definition wrapU64 (z : Z) : Z := z mod 2 ^ 64.

Definition in_int64 (z : Z) : Prop := - 2 ^ 63 <= z < 2 ^ 63.

(** [time.Time] is kept as its number of nanoseconds from the Unix epoch;
    [t.Sub(u)] saturates at the bounds of [time.Duration], an [int64]. *)
Definition time_sub (t u : Z) : Z :=
  Z.max (- 2 ^ 63) (Z.min (2 ^ 63 - 1) (t - u)).

End Integers.

(** ** Errors *)

(** The sentinel errors that [errors.Is] is asked for. *)
Inductive sentinel :=
  | ErrStorageFull
  | ErrVersionConflict
  | ErrAlreadyTracked
  | ErrNotFound
  | ErrDatastoreNotFound
  | ErrShutdown.

#[global] Instance sentinel_eq_decision : EqDecision sentinel.
Proof. solve_decision. Defined.

(** A Go [error]: the sentinels on its [Unwrap] chain and its message. *)
Record error := mkError { err_chain : list sentinel; err_text : string }.

#[global] Instance error_eq_decision : EqDecision error.
Proof. solve_decision. Defined.

(** [errors.Is], [errors.New]/[fmt.Errorf] without [%w], [fmt.Errorf] with one
    [%w] between [pre] and [post], and what is left of an error that crosses
    [net/rpc], which sends the message only. *)
Definition errors_Is (e : error) (s : sentinel) : bool := bool_decide (s ∈ err_chain e).

Definition errorf (msg : string) : error := mkError [] msg.

(** A name printed with [%q], for printable names without quotes and backslashes. *)
Definition quoted (s : string) : string := String (Ascii.ascii_of_nat 34) (s +:+ String (Ascii.ascii_of_nat 34) "").

Definition errorf_w (pre : string) (e : error) (post : string) : error :=
  mkError (err_chain e) (pre +:+ err_text e +:+ post).

Definition rpc_error (e : error) : error := errorf (err_text e).

(** [strings.HasPrefix] and [strings.Contains]. *)
Fixpoint has_prefix (p s : string) : bool :=
  match p, s with
  | EmptyString, _ => true
  | String _ _, EmptyString => false
  | String a p', String b s' => bool_decide (a = b) && has_prefix p' s'
  end.

Fixpoint contains (sub s : string) : bool :=
  has_prefix sub s ||
  match s with
  | EmptyString => false
  | String _ s' => contains sub s'
  end.

(** ** Results and the state-and-error monad *)

Inductive result (A : Type) := Ok (a : A) | Err (e : error).
Arguments Ok {A} a.
Arguments Err {A} e.

#[global] Instance result_ret : MRet result := @Ok.
#[global] Instance result_bind : MBind result := fun A B f r =>
  match r with Ok a => f a | Err e => Err e end.

Definition is_ok {A} (r : result A) : bool :=
  match r with Ok _ => true | Err _ => false end.

(** Code that threads a state of type [S] and can fail: the state survives an
    error, as the fields of a Go receiver do. *)
Definition M (S A : Type) : Type := S -> S * result A.

Section StateError.
Context {S : Type}.

Definition m_ret {A} (a : A) : M S A := fun s => (s, Ok a).
Definition m_err {A} (e : error) : M S A := fun s => (s, Err e).
Definition m_bind {A B} (m : M S A) (k : A -> M S B) : M S B := fun s =>
  match m s with
  | (s', Ok a) => k a s'
  | (s', Err e) => (s', Err e)
  end.
Definition m_get : M S S := fun s => (s, Ok s).
Definition m_modify (f : S -> S) : M S unit := fun s => (f s, Ok tt).

(** [v, err := m()]: the caller inspects the error itself. *)
Definition m_try {A} (m : M S A) : M S (result A) := fun s =>
  let '(s', r) := m s in (s', Ok r).

(** [_ = m()]. *)
Definition m_ignore {A} (m : M S A) : M S unit := fun s => ((m s).1, Ok tt).

Definition m_lift {A} (r : result A) : M S A := fun s => (s, r).

(** [for _, x := range xs { ... }] where the body may return an error. *)
Fixpoint m_forM {A} (xs : list A) (body : A -> M S unit) : M S unit :=
  match xs with
  | [] => m_ret tt
  | x :: xs' => m_bind (body x) (fun _ => m_forM xs' body)
  end.

End StateError.

(** stdpp's notation [x ← m; k] for the monad. *)
#[global] Instance M_ret S : MRet (M S) := fun A a => m_ret a.
#[global] Instance M_bind S : MBind (M S) := fun A B k m => m_bind m k.

(** ** Slices *)

(** The idiom [out := xs[:0]; for _, e := range xs { if keep(e) { out = append(out, e) } }]
    writes into the array it reads: [i] is the index read next and [w] the number of
    elements written. *)
Fixpoint compact {A} (keep : A -> bool) (arr : list A) (i w n : nat) : list A * nat :=
  match n with
  | O => (arr, w)
  | S n' =>
      match arr !! i with
      | Some e =>
          if keep e then compact keep (<[w := e]> arr) (S i) (S w) n'
          else compact keep arr (S i) w n'
      | None => (arr, w)
      end
  end.

Definition filter_in_place {A} (keep : A -> bool) (xs : list A) : list A :=
  let '(arr, w) := compact keep xs 0 0 (length xs) in take w arr.

(** A bool-valued filter, for the [append] loops over a fresh slice. *)
Definition filterb {A} (keep : A -> bool) (xs : list A) : list A := filter (fun x => Is_true (keep x)) xs.

(** ** Reflexive and transitive closure of a step relation *)

Section Star.
Context {A : Type} (R : A -> A -> Prop).

Inductive star : A -> A -> Prop :=
  | star_refl a : star a a
  | star_step a b c : R a b -> star b c -> star a c.

(** An invariant of the steps holds along every run. *)
Lemma star_invariant (I : A -> Prop) :
  (forall a b, I a -> R a b -> I b) -> forall a b, star a b -> I a -> I b.
Proof. intros Hstep a b Hab. induction Hab; eauto. Qed.

Lemma star_trans a b c : star a b -> star b c -> star a c.
Proof. induction 1; eauto using star. Qed.

End Star.

(** ** Automation *)

Create HintDb go discriminated.

(** Case analysis on the boolean tests and matches that guard a handler's branches. *)
Ltac go_case :=
  match goal with
  | H : context [bool_decide ?P] |- _ => destruct (bool_decide_reflect P)
  | |- context [bool_decide ?P] => destruct (bool_decide_reflect P)
  | H : context [match ?x with _ => _ end] |- _ =>
      lazymatch x with context [match _ with _ => _ end] => fail | _ => destruct x eqn:? end
  | |- context [match ?x with _ => _ end] =>
      lazymatch x with context [match _ with _ => _ end] => fail | _ => destruct x eqn:? end
  end.

Ltac go_cases := repeat (go_case; simplify_eq/=).

(** Turns the boolean comparisons on integers in the context into propositions. *)
Ltac go_bool :=
  repeat match goal with
  | H : (_ && _) = true |- _ => apply andb_true_iff in H as [? ?]
  | H : (_ || _) = false |- _ => apply orb_false_iff in H as [? ?]
  | H : negb _ = true |- _ => apply negb_true_iff in H
  | H : negb _ = false |- _ => apply negb_false_iff in H
  | H : (_ <? _)%Z = true |- _ => apply Z.ltb_lt in H
  | H : (_ <? _)%Z = false |- _ => apply Z.ltb_ge in H
  | H : (_ <=? _)%Z = true |- _ => apply Z.leb_le in H
  | H : (_ <=? _)%Z = false |- _ => apply Z.leb_gt in H
  | H : (_ =? _)%Z = true |- _ => apply Z.eqb_eq in H
  | H : (_ =? _)%Z = false |- _ => apply Z.eqb_neq in H
  end.

(** ** Shared lemmas *)

Lemma filter_all {A} (P : A -> Prop) `{!forall x, Decision (P x)} (l : list A) :
  (forall x, x ∈ l -> P x) -> filter P l = l.
Proof.
  induction l as [|x l IH]; intros Hl; [done|]. rewrite filter_cons, decide_True by (apply Hl, list_elem_of_here).
  rewrite IH; [done|]. intros y Hy. by apply Hl, list_elem_of_further.
Qed.

Section IntegerFacts.
Local Open Scope Z_scope.

Lemma byte_val_range b : 0 <= byte_val b < 256.
Proof. unfold byte_val. pose proof (Byte.to_N_bounded b). lia. Qed.

Lemma byte_val_of_Z z : byte_val (byte_of_Z z) = z mod 256.
Proof.
  unfold byte_val, byte_of_Z. pose proof (Z.mod_pos_bound z 256 ltac:(lia)).
  destruct (Byte.of_N (Z.to_N (z mod 256))) as [b|] eqn:E.
  - apply Byte.to_of_N in E. simpl. rewrite E. lia.
  - apply Byte.of_N_None_iff in E. lia.
Qed.

Lemma byte_val_inj a b : byte_val a = byte_val b -> a = b.
Proof.
  unfold byte_val. intros H%N2Z.inj.
  pose proof (Byte.of_to_N a). pose proof (Byte.of_to_N b). congruence.
Qed.

Lemma byte_of_Z_val b : byte_of_Z (byte_val b) = b.
Proof.
  apply byte_val_inj. rewrite byte_val_of_Z.
  apply Z.mod_small, byte_val_range.
Qed.

Lemma wrap64_small z : in_int64 z -> wrap64 z = z.
Proof. unfold in_int64, wrap64. intros H. rewrite Z.mod_small; lia. Qed.

Lemma wrap64_range z : in_int64 (wrap64 z).
Proof. unfold in_int64, wrap64. pose proof (Z.mod_pos_bound (z + 2 ^ 63) (2 ^ 64)). lia. Qed.

Lemma time_sub_gt t u d :
  - 2 ^ 63 <= d < 2 ^ 63 - 1 -> (d < time_sub t u <-> d < t - u).
Proof. unfold time_sub. lia. Qed.

End IntegerFacts.

#[export] Hint Resolve byte_val_range wrap64_range : go.

Section SliceFacts.
Context {A : Type} (keep : A -> bool).

Lemma filterb_cons x xs :
  filterb keep (x :: xs) = if keep x then x :: filterb keep xs else filterb keep xs.
Proof. unfold filterb. rewrite filter_cons. by destruct (keep x). Qed.

Lemma filterb_app xs ys : filterb keep (xs ++ ys) = filterb keep xs ++ filterb keep ys.
Proof. apply filter_app. Qed.

Lemma elem_of_filterb x xs : x ∈ filterb keep xs <-> keep x = true /\ x ∈ xs.
Proof. unfold filterb. rewrite list_elem_of_filter, Is_true_true. done. Qed.

Lemma compact_spec n arr i w arr' w' :
  w <= i -> i + n = length arr -> compact keep arr i w n = (arr', w') ->
  take w' arr' = take w arr ++ filterb keep (drop i arr).
Proof.
  revert arr i w. induction n as [|n IH]; intros arr i w Hwi Hn Hc; simpl in Hc.
  - simplify_eq. rewrite drop_ge by lia. by rewrite app_nil_r.
  - destruct (lookup_lt_is_Some_2 arr i) as [e He]; [lia|].
    rewrite He in Hc. rewrite (drop_S _ _ _ He), filterb_cons.
    destruct (keep e).
    + apply IH in Hc; [|lia|rewrite length_insert; lia]. rewrite Hc.
      rewrite drop_insert_lt by lia.
      rewrite (take_S_r _ _ e) by (apply list_lookup_insert_eq; lia).
      rewrite take_insert_ge by lia. by rewrite <- app_assoc.
    + apply IH in Hc; [done|lia|lia].
Qed.

(** Filtering in place gives the elements kept, in order: every element is read
    before its slot is overwritten. *)
Lemma filter_in_place_spec xs : filter_in_place keep xs = filterb keep xs.
Proof.
  unfold filter_in_place. destruct (compact keep xs 0 0 (length xs)) as [arr w] eqn:E.
  apply compact_spec in E; [|lia..]. by rewrite E.
Qed.

Lemma length_filterb xs : length (filterb keep xs) <= length xs.
Proof. apply length_filter. Qed.

End SliceFacts.

Lemma NoDup_filterb_fmap {A B} (f : A -> B) (keep : A -> bool) (l : list A) :
  NoDup (f <$> l) -> NoDup (f <$> filterb keep l).
Proof.
  induction l as [|e l IH]; [done|]. rewrite fmap_cons, NoDup_cons, filterb_cons.
  intros [Hn Hnd]. destruct (keep e); [|auto]. rewrite fmap_cons, NoDup_cons. split; [|auto].
  intros (e' & He & [_ Hin]%elem_of_filterb)%list_elem_of_fmap. apply Hn, list_elem_of_fmap. eauto.
Qed.

Lemma filterb_ext {A} (f g : A -> bool) (l : list A) : (forall x, x ∈ l -> f x = g x) -> filterb f l = filterb g l.
Proof.
  intros Hfg. induction l as [|x l IH]; [done|]. rewrite !filterb_cons.
  rewrite (Hfg x) by apply list_elem_of_here. rewrite IH; [done|]. intros y Hy. by apply Hfg, list_elem_of_further.
Qed.



Section StringFacts.

Lemma string_app_cons c (a b : string) : String c a +:+ b = String c (a +:+ b).
Proof. reflexivity. Qed.

Lemma string_app_nil_l (a : string) : "" +:+ a = a.
Proof. reflexivity. Qed.

Lemma string_app_assoc (a b c : string) : (a +:+ b) +:+ c = a +:+ (b +:+ c).
Proof. induction a as [|x a IH]; [done|]. rewrite !string_app_cons. by rewrite IH. Qed.

Lemma string_app_nil_r (a : string) : a +:+ "" = a.
Proof. induction a as [|x a IH]; [done|]. rewrite string_app_cons. by rewrite IH. Qed.

Lemma has_prefix_spec p s : has_prefix p s = true <-> exists t, s = p +:+ t.
Proof.
  revert s. induction p as [|a p IH]; intros [|b s]; simpl.
  - split; [by exists ""|done].
  - split; [by eexists|done].
  - split; [done|]. by intros [t Ht].
  - rewrite andb_true_iff, bool_decide_eq_true, IH. split.
    + intros [-> [t ->]]. by exists t.
    + intros [t Ht]. rewrite string_app_cons in Ht. simplify_eq. eauto.
Qed.

Lemma contains_cons sub c s : contains sub s = true -> contains sub (String c s) = true.
Proof. simpl. intros ->. apply orb_true_r. Qed.

Lemma contains_prefix sub s : has_prefix sub s = true -> contains sub s = true.
Proof. destruct s; simpl; intros ->; done. Qed.

Lemma contains_spec sub s : contains sub s = true <-> exists a b, s = a +:+ sub +:+ b.
Proof.
  split.
  - induction s as [|c s IH]; simpl; rewrite orb_true_iff, has_prefix_spec.
    + intros [[t ->]|]; [by exists "", t|done].
    + intros [[t ->]|H]; [by exists "", t|].
      destruct (IH H) as (a & b & ->). by exists (String c a), b.
  - intros (a & b & ->). induction a as [|c a IH].
    + apply contains_prefix, has_prefix_spec. eauto.
    + rewrite string_app_cons. by apply contains_cons.
Qed.

Lemma contains_wrap sub pre s post :
  contains sub s = true -> contains sub (pre +:+ s +:+ post) = true.
Proof.
  rewrite !contains_spec. intros (a & b & ->).
  exists (pre +:+ a), (b +:+ post). by rewrite !string_app_assoc.
Qed.

End StringFacts.

#[export] Hint Resolve contains_wrap : go.
