(* ===== verification/Hoare.v ===== *)
(** * Hoare triples for the state-and-error monad

    [triple P m Q E]: from a state satisfying [P], [m] ends in a state satisfying [Q a] if
    it returns [a] and [E] if it fails. [keeps I m Q] is the case of an invariant [I] that
    holds whatever the outcome, with a fact [Q] about the value returned. *)

From stdpp Require Import base list sets.
From S2P Require Import Prelude.

Set Default Goal Selector "!".

Definition triple {S A} (P : S -> Prop) (m : M S A) (Q : A -> S -> Prop) (E : S -> Prop) : Prop :=
  forall s, P s -> match m s with (s', Ok a) => Q a s' | (s', Err _) => E s' end.

Definition keeps {S A} (I : S -> Prop) (m : M S A) (Q : A -> Prop) : Prop :=
  triple I m (fun a s => I s /\ Q a) I.

Section Keeps.
Context {S : Type} (I : S -> Prop).

Lemma keeps_ret {A} (a : A) (Q : A -> Prop) : Q a -> keeps I (m_ret a) Q.
Proof. intros Ha s Hs. simpl. auto. Qed.

Lemma keeps_err {A} e (Q : A -> Prop) : keeps I (m_err e) Q.
Proof. intros s Hs. done. Qed.

Lemma keeps_bind {A B} (m : M S A) (k : A -> M S B) Q1 Q2 :
  keeps I m Q1 -> (forall a, Q1 a -> keeps I (k a) Q2) -> keeps I (mbind k m) Q2.
Proof.
  intros Hm Hk s Hs. unfold mbind, M_bind, m_bind. specialize (Hm s Hs).
  destruct (m s) as [s' [a|e]]; [|done]. destruct Hm. by apply Hk.
Qed.

Lemma keeps_try {A} (m : M S A) Q :
  keeps I m Q -> keeps I (m_try m) (fun r => forall a, r = Ok a -> Q a).
Proof.
  intros Hm s Hs. unfold m_try. specialize (Hm s Hs).
  destruct (m s) as [s' [a|e]]; (split; [naive_solver|]); intros ? ?; naive_solver.
Qed.

Lemma keeps_ignore {A} (m : M S A) Q : keeps I m Q -> keeps I (m_ignore m) (fun _ => True).
Proof.
  intros Hm s Hs. unfold m_ignore. specialize (Hm s Hs).
  destruct (m s) as [s' [a|e]]; naive_solver.
Qed.

Lemma keeps_get : keeps I m_get I.
Proof. intros s Hs. done. Qed.

Lemma keeps_weaken {A} (m : M S A) (Q Q' : A -> Prop) :
  keeps I m Q -> (forall a, Q a -> Q' a) -> keeps I m Q'.
Proof.
  intros Hm HQ s Hs. specialize (Hm s Hs). destruct (m s) as [s' [a|e]]; naive_solver.
Qed.

Lemma keeps_true {A} (m : M S A) Q : keeps I m Q -> keeps I m (fun _ => True).
Proof. intros Hm. by eapply keeps_weaken. Qed.

Lemma keeps_forM {A} (xs : list A) (body : A -> M S unit) Q :
  (forall x, x ∈ xs -> keeps I (body x) Q) -> keeps I (m_forM xs body) (fun _ => True).
Proof.
  induction xs as [|x xs IH]; intros Hb; cbn [m_forM].
  - by apply keeps_ret.
  - eapply keeps_bind; [apply Hb; set_solver|]. intros _ _. apply IH. set_solver.
Qed.

(** What an invariant gives about the state after the run. *)
Lemma keeps_final {A} (m : M S A) Q s : keeps I m Q -> I s -> I (m s).1.
Proof.
  intros Hm Hs. specialize (Hm s Hs). destruct (m s) as [s' [a|e]]; [by destruct Hm|done].
Qed.

End Keeps.

Create HintDb keeps discriminated.
#[export] Hint Resolve keeps_err keeps_get : keeps.

(** Decomposes a goal [keeps I m Q] along the structure of [m]; what is left are the
    steps of the handler, closed from the hint base when they are known. *)
Ltac keeps_step :=
  lazymatch goal with
  | |- keeps _ (mbind _ _) _ => eapply keeps_bind; [|intros ? ?]
  | |- keeps _ (m_try _) _ => eapply keeps_try
  | |- keeps _ (m_ignore _) _ => eapply keeps_ignore
  | |- keeps _ (m_ret _) _ => apply keeps_ret
  | |- keeps _ (m_err _) _ => apply keeps_err
  | |- keeps _ (match ?x with _ => _ end) _ => destruct x eqn:?
  | |- keeps _ (let _ := _ in _) _ => cbv zeta
  end.

Ltac keeps_auto := repeat (keeps_step || solve [eauto with keeps]).

(** ** Triples whose assertions change along the run *)

Section Triples.
Context {S : Type}.

Lemma triple_ret {A} (P : S -> Prop) (a : A) Q E : (forall s, P s -> Q a s) -> triple P (m_ret a) Q E.
Proof. intros H s Hs. by apply H. Qed.

Lemma triple_err {A} (P : S -> Prop) e (Q : A -> S -> Prop) (E : S -> Prop) :
  (forall s, P s -> E s) -> triple P (m_err e) Q E.
Proof. intros H s Hs. by apply H. Qed.

Lemma triple_bind {A B} P (m : M S A) (k : A -> M S B) Q1 Q2 E :
  triple P m Q1 E -> (forall a, triple (Q1 a) (k a) Q2 E) -> triple P (mbind k m) Q2 E.
Proof.
  intros Hm Hk s Hs. unfold mbind, M_bind, m_bind. specialize (Hm s Hs).
  destruct (m s) as [s' [a|e]]; [|done]. by apply Hk.
Qed.

Lemma triple_try {A} P (m : M S A) Q (E : S -> Prop) (E' : S -> Prop) :
  triple P m Q E ->
  triple P (m_try m) (fun r s => match r with Ok a => Q a s | Err _ => E s end) E'.
Proof. intros Hm s Hs. unfold m_try. specialize (Hm s Hs). by destruct (m s) as [s' [a|e]]. Qed.

Lemma triple_weaken {A} (P P' : S -> Prop) (m : M S A) (Q Q' : A -> S -> Prop) (E E' : S -> Prop) :
  triple P' m Q' E' -> (forall s, P s -> P' s) -> (forall a s, Q' a s -> Q a s) -> (forall s, E' s -> E s) ->
  triple P m Q E.
Proof.
  intros Hm HP HQ HE s Hs. specialize (Hm s (HP s Hs)). destruct (m s) as [s' [a|e]]; auto.
Qed.

(** A step that keeps [P] inside a longer run that must end in [E] when it fails. *)
Lemma triple_keeps_bind {A B} (P : S -> Prop) (m : M S A) (k : A -> M S B) F Q2 (E : S -> Prop) :
  keeps P m F -> (forall s, P s -> E s) -> (forall a, F a -> triple P (k a) Q2 E) ->
  triple P (mbind k m) Q2 E.
Proof.
  intros Hm HE Hk s Hs. unfold mbind, M_bind, m_bind. specialize (Hm s Hs).
  destruct (m s) as [s' [a|e]]; [|auto]. destruct Hm as [Hs' Ha]. by apply Hk.
Qed.

End Triples.

(** ** Total correctness: the run succeeds *)

Definition succeeds {S A} (P : S -> Prop) (m : M S A) (Q : A -> S -> Prop) : Prop :=
  triple P m Q (fun _ => False).

Section Succeeds.
Context {S : Type}.

Lemma succeeds_ret {A} (P : S -> Prop) (a : A) (Q : A -> S -> Prop) :
  (forall s, P s -> Q a s) -> succeeds P (m_ret a) Q.
Proof. intros H s Hs. by apply H. Qed.

Lemma succeeds_bind {A B} P (m : M S A) (k : A -> M S B) Q1 Q2 :
  succeeds P m Q1 -> (forall a, succeeds (Q1 a) (k a) Q2) -> succeeds P (mbind k m) Q2.
Proof.
  intros Hm Hk s Hs. unfold mbind, M_bind, m_bind. specialize (Hm s Hs).
  destruct (m s) as [s' [a|e]]; [|done]. by apply Hk.
Qed.

(** A step that returns a value of which [F] is known. *)
Lemma succeeds_bind_fact {A B} (P Q : S -> Prop) (F : A -> Prop) (m : M S A) (k : A -> M S B) Q2 :
  succeeds P m (fun a s => Q s /\ F a) -> (forall a, F a -> succeeds Q (k a) Q2) ->
  succeeds P (mbind k m) Q2.
Proof.
  intros Hm Hk. eapply succeeds_bind; [exact Hm|]. intros a s [Hs Ha]. by apply Hk.
Qed.

Lemma succeeds_try {A} P (m : M S A) Q :
  succeeds P m Q -> succeeds P (m_try m) (fun r s => exists a, r = Ok a /\ Q a s).
Proof.
  intros Hm s Hs. unfold m_try. specialize (Hm s Hs). destruct (m s) as [s' [a|e]]; [|done].
  by exists a.
Qed.

Lemma succeeds_ignore {A} P (m : M S A) Q :
  succeeds P m (fun _ => Q) -> succeeds P (m_ignore m) (fun _ => Q).
Proof.
  intros Hm s Hs. unfold m_ignore. specialize (Hm s Hs). by destruct (m s) as [s' [a|e]].
Qed.

Lemma succeeds_weaken {A} P P' (m : M S A) (Q Q' : A -> S -> Prop) :
  succeeds P' m Q' -> (forall s, P s -> P' s) -> (forall a s, Q' a s -> Q a s) -> succeeds P m Q.
Proof.
  intros Hm HP HQ s Hs. specialize (Hm s (HP s Hs)). destruct (m s) as [s' [a|e]]; auto.
Qed.

Lemma succeeds_keeps {A} (I : S -> Prop) (m : M S A) Q :
  keeps I m Q -> (forall s, I s -> exists a, (m s).2 = Ok a) ->
  succeeds I m (fun a s => I s /\ Q a).
Proof.
  intros Hm Hok s Hs. specialize (Hm s Hs). destruct (Hok s Hs) as [a Ha].
  destruct (m s) as [s' [a'|e]]; [done|by simplify_eq/=].
Qed.

Lemma succeeds_intro {A} P (m : M S A) Q :
  (forall s, P s -> exists a s', m s = (s', Ok a) /\ Q a s') -> succeeds P m Q.
Proof. intros Hm s Hs. destruct (Hm s Hs) as (a & s' & -> & HQ). done. Qed.

Lemma succeeds_final {A} P (m : M S A) Q s :
  succeeds P m Q -> P s -> exists a s', m s = (s', Ok a) /\ Q a s'.
Proof.
  intros Hm Hs. specialize (Hm s Hs). destruct (m s) as [s' [a|e]]; [|done]. by exists a, s'.
Qed.

(** A loop, with an invariant over the elements done so far. *)
Lemma succeeds_forM {A} (Inv : list A -> S -> Prop) (xs : list A) (f : A -> M S unit) :
  (forall l x r, xs = l ++ x :: r -> succeeds (Inv l) (f x) (fun _ => Inv (l ++ [x]))) ->
  succeeds (Inv []) (m_forM xs f) (fun _ => Inv xs).
Proof.
  intros Hstep. assert (forall r l, xs = l ++ r -> succeeds (Inv l) (m_forM r f) (fun _ => Inv xs)) as Hrest.
  { induction r as [|x r IH]; intros l Hl; cbn [m_forM].
    - rewrite app_nil_r in Hl. subst l. by apply succeeds_ret.
    - eapply succeeds_bind; [by apply (Hstep l x r)|]. intros ?. apply IH. by rewrite <- app_assoc. }
  by apply (Hrest xs []).
Qed.

End Succeeds.

(** ** Handlers without an error result *)

Definition never_fails {S A} (m : M S A) : Prop := forall s, exists a, (m s).2 = Ok a.

Section NeverFails.
Context {S : Type}.

Lemma never_ret {A} (a : A) : never_fails (m_ret a : M S A).
Proof. intros s. by exists a. Qed.

Lemma never_get : never_fails (m_get : M S S).
Proof. intros s. by exists s. Qed.

Lemma never_modify (f : S -> S) : never_fails (m_modify f).
Proof. intros s. by exists tt. Qed.

Lemma never_try {A} (m : M S A) : never_fails (m_try m).
Proof. intros s. unfold m_try. destruct (m s). eauto. Qed.

Lemma never_ignore {A} (m : M S A) : never_fails (m_ignore m).
Proof. intros s. by exists tt. Qed.

Lemma never_bind {A B} (m : M S A) (k : A -> M S B) :
  never_fails m -> (forall a, never_fails (k a)) -> never_fails (mbind k m).
Proof.
  intros Hm Hk s. unfold mbind, M_bind, m_bind. destruct (Hm s) as [a Ha].
  destruct (m s) as [s' r]. simplify_eq/=. apply Hk.
Qed.

Lemma never_forM {A} (xs : list A) (body : A -> M S unit) :
  (forall x, never_fails (body x)) -> never_fails (m_forM xs body).
Proof.
  intros Hb. induction xs as [|x xs IH]; cbn [m_forM]; [apply never_ret|].
  apply never_bind; [done|]. intros ?. exact IH.
Qed.

(** A step that cannot fail, inside a run that must end in [E] when it fails. *)
Lemma triple_never_bind {A B} (P : S -> Prop) (m : M S A) (k : A -> M S B) F Q2 (E : S -> Prop) :
  keeps P m F -> never_fails m -> (forall a, F a -> triple P (k a) Q2 E) ->
  triple P (mbind k m) Q2 E.
Proof.
  intros Hm Hn Hk s Hs. unfold mbind, M_bind, m_bind. specialize (Hm s Hs). destruct (Hn s) as [a Ha].
  destruct (m s) as [s' r]. simplify_eq/=. destruct Hm as [Hs' HF]. by apply Hk.
Qed.

End NeverFails.

Create HintDb never discriminated.
#[export] Hint Resolve never_ret never_get never_modify never_try never_ignore : never.

Ltac never_step :=
  lazymatch goal with
  | |- never_fails (mbind _ _) => apply never_bind; [|intros ?]
  | |- never_fails (m_forM _ _) => apply never_forM; intros ?
  | |- never_fails (match ?x with _ => _ end) => destruct x eqn:?
  | |- never_fails (let _ := _ in _) => cbv zeta
  end.

Ltac never_auto := repeat (never_step || solve [eauto with never]).

(** Running the first step of a sequence. *)
Lemma run_bind {S A B} (m : M S A) (k : A -> M S B) s s' a :
  m s = (s', Ok a) -> mbind k m s = k a s'.
Proof. intros Hm. unfold mbind, M_bind, m_bind. by rewrite Hm. Qed.
