(* ===== verification/Interleave.v ===== *)
(** * Programs that run between others

    A program is a tree of atomic actions on a state; [run] runs it alone. In a pool, each of
    several threads runs programs on a state shared by all and a part of its own, one action at a time
    and in any order. [safe] says that a program does what it promises between the actions of others:
    whatever they do within [rely], each action of its own is within [guar]. [pool_steps_ok] puts the
    threads of a pool together. *)

From stdpp Require Import base gmap.
From S2P Require Import Prelude Hoare.

Set Default Goal Selector "!".

Inductive prog (S A : Type) : Type :=
  | Done (r : result A)
  | Act (B : Type) (m : M S B) (k : result B -> prog S A).
Arguments Done {S A} r.
Arguments Act {S A B} m k.

Section Programs.
Context {S : Type}.

Fixpoint run {A} (p : prog S A) : M S A := fun s =>
  match p with
  | Done r => (s, r)
  | Act m k => let '(s', r) := m s in run (k r) s'
  end.

Definition atomic {A} (m : M S A) : prog S A := Act m Done.

Fixpoint p_bind {A B} (p : prog S A) (k : A -> prog S B) : prog S B :=
  match p with
  | Done (Ok a) => k a
  | Done (Err e) => Done (Err e)
  | Act m k' => Act m (fun r => p_bind (k' r) k)
  end.

End Programs.

#[global] Instance prog_bind S : MBind (prog S) := fun A B k p => p_bind p k.

(** Alone, a program is the handler it would be without the marks between its actions. *)
Lemma run_p_bind {S A B} (p : prog S A) (k : A -> prog S B) s : run (p_bind p k) s = m_bind (run p) (fun a => run (k a)) s.
Proof.
  revert s. induction p as [[a|e]|C m k' IH]; intros s; cbn [p_bind run]; [done..|].
  unfold m_bind. cbn [run]. destruct (m s) as [s' r]. apply IH.
Qed.

Lemma run_atomic {S A} (m : M S A) s : run (atomic m) s = m s.
Proof. unfold atomic. cbn. by destruct (m s). Qed.

(** ** One program *)

Section Safe.
Context {S : Type} (rely guar : S -> S -> Prop).

Fixpoint safe {A} (p : prog S A) (Q : result A -> S -> Prop) (s : S) : Prop :=
  match p with
  | Done r => forall s', rely s s' -> Q r s'
  | Act m k => forall s', rely s s' -> guar s' (m s').1 /\ safe (k (m s').2) Q (m s').1
  end.

Context (rely_refl : forall s, rely s s) (rely_trans : forall s1 s2 s3, rely s1 s2 -> rely s2 s3 -> rely s1 s3).

Lemma safe_rely {A} (p : prog S A) Q s s' : safe p Q s -> rely s s' -> safe p Q s'.
Proof. destruct p; cbn [safe]; eauto. Qed.

Lemma safe_mono {A} (p : prog S A) (Q Q' : result A -> S -> Prop) s : (forall r s, Q r s -> Q' r s) -> safe p Q s -> safe p Q' s.
Proof.
  intros HQ. revert s. induction p as [r|C m k IH]; intros s; cbn [safe]; [by auto|].
  intros Hs s' Hs'. destruct (Hs s' Hs') as [Hg Hk]. split; [done|]. by apply IH.
Qed.

Lemma safe_bind {A B} (p : prog S A) (k : A -> prog S B) Q s :
  safe p (fun r s => match r with Ok a => safe (k a) Q s | Err e => safe (Done (Err e)) Q s end) s -> safe (p_bind p k) Q s.
Proof.
  revert s. induction p as [[a|e]|C m k' IH]; intros s; cbn [safe p_bind].
  - intros Hs. by apply Hs.
  - intros Hs s' Hs'. by apply (Hs s' Hs').
  - intros Hs s' Hs'. destruct (Hs s' Hs') as [Hg Hk]. split; [done|]. by apply IH.
Qed.

Lemma safe_atomic {A} (m : M S A) Q s :
  (forall s', rely s s' -> guar s' (m s').1 /\ forall s'', rely (m s').1 s'' -> Q (m s').2 s'') -> safe (atomic m) Q s.
Proof. intros Hm s' Hs'. exact (Hm s' Hs'). Qed.

End Safe.

(** ** A pool *)

Section Pool.
Context {I : Type} `{Countable I} {G L A Op X : Type}.

(** What thread [i] runs for an operation; what is known of a thread after its operations have
    returned; and the steps the shared state makes on its own. *)
Context (start : I -> Op -> prog (G * L) A) (next : Op -> X -> result A -> X) (env : G -> G -> Prop) (may_run : I -> Prop).

Record pool := mkPool {
  pl_shared : G;
  pl_local : I -> L;
  pl_running : gmap I (Op * prog (G * L) A);
  pl_known : I -> X
}.

Definition set_at {Y} (i : I) (y : Y) (f : I -> Y) : I -> Y := fun j => if decide (j = i) then y else f j.

Inductive pool_step : pool -> pool -> Prop :=
  | PEnv g l ps x g' : env g g' -> pool_step (mkPool g l ps x) (mkPool g' l ps x)
  | PStart i op g l ps x : may_run i -> ps !! i = None -> pool_step (mkPool g l ps x) (mkPool g l (<[i := (op, start i op)]> ps) x)
  | PAct i op B (m : M (G * L) B) k g l ps x g' li r : ps !! i = Some (op, Act m k) -> m (g, l i) = ((g', li), r) ->
      pool_step (mkPool g l ps x) (mkPool g' (set_at i li l) (<[i := (op, k r)]> ps) x)
  | PReturn i op r g l ps x : ps !! i = Some (op, Done r) ->
      pool_step (mkPool g l ps x) (mkPool g l (delete i ps) (set_at i (next op (x i) r) x)).

(** A thread may run its program to the end while the others wait. *)
Lemma pool_runs_alone i op p g l ps x g' li r :
  ps !! i = Some (op, p) -> run p (g, l i) = ((g', li), r) ->
  exists l' ps', star pool_step (mkPool g l ps x) (mkPool g' l' ps' (set_at i (next op (x i) r) x)) /\
    l' i = li /\ ps' !! i = None /\ forall j, j <> i -> l' j = l j /\ ps' !! j = ps !! j.
Proof.
  revert g l ps. induction p as [r0|B m k IH]; intros g l ps Hps Hrun; cbn [run] in Hrun.
  - injection Hrun as <- <- <-. exists l, (delete i ps). split_and!; [|done|apply lookup_delete_eq|].
    + eapply star_step; [by eapply PReturn|apply star_refl].
    + intros j Hj. split; [done|]. by apply lookup_delete_ne.
  - destruct (m (g, l i)) as [[g1 l1] b] eqn:Hm.
    destruct (IH b g1 (set_at i l1 l) (<[i := (op, k b)]> ps)) as (l' & ps' & Hsteps & Hi & Hps' & Hother).
    { apply lookup_insert_eq. }
    { unfold set_at. by rewrite decide_True. }
    exists l', ps'. split_and!; [|done|done|].
    + eapply star_step; [by eapply PAct|exact Hsteps].
    + intros j Hj. destruct (Hother j Hj) as [-> ->]. unfold set_at. rewrite decide_False by done. split; [done|].
      by apply lookup_insert_ne.
Qed.

Context (rely guar : I -> G * L -> G * L -> Prop) (J : I -> X -> G * L -> Prop).
Context (rely_refl : forall i s, rely i s s) (rely_trans : forall i s1 s2 s3, rely i s1 s2 -> rely i s2 s3 -> rely i s1 s3).
Context (J_rely : forall i x s s', J i x s -> rely i s s' -> J i x s').
Context (J_start : forall i op x s, may_run i -> J i x s -> safe (rely i) (guar i) (start i op) (fun r => J i (next op x r)) s).
Context (guar_rely : forall i j g l g' l' lj, guar i (g, l) (g', l') -> j <> i -> rely j (g, lj) (g', lj)).
Context (env_rely : forall j g g' lj, env g g' -> rely j (g, lj) (g', lj)).

Definition thread_ok (i : I) (p : option (Op * prog (G * L) A)) (x : X) (s : G * L) : Prop :=
  match p with
  | None => J i x s
  | Some (op, p) => safe (rely i) (guar i) p (fun r => J i (next op x r)) s
  end.

Definition pool_ok (P : pool) : Prop := forall i, thread_ok i (P.(pl_running) !! i) (P.(pl_known) i) (P.(pl_shared), P.(pl_local) i).

Lemma thread_rely i p x s s' : thread_ok i p x s -> rely i s s' -> thread_ok i p x s'.
Proof. destruct p as [[op p]|]; cbn [thread_ok]; [|by eauto]. intros Hs Hr. eapply safe_rely; eauto. Qed.

Lemma pool_step_ok P P' : pool_ok P -> pool_step P P' -> pool_ok P'.
Proof.
  intros Hok Hstep. destruct Hstep as [g l ps x g' He|i op g l ps x Hi Hps|i op B m k g l ps x g' li r Hps Hm|i op r g l ps x Hps];
    intros j; specialize (Hok j) as Hj; cbn [pl_running pl_known pl_shared pl_local] in *.
  - eapply thread_rely; [exact Hj|]. by apply env_rely.
  - destruct (decide (j = i)) as [->|Hne]; [|by rewrite lookup_insert_ne].
    rewrite lookup_insert_eq. rewrite Hps in Hj. by apply J_start.
  - unfold set_at. case_decide as Hji.
    + subst j. rewrite Hps in Hj. rewrite lookup_insert_eq. cbn [thread_ok safe] in *.
      destruct (Hj _ (rely_refl _ _)) as [_ Hk]. by rewrite Hm in Hk.
    + rewrite lookup_insert_ne by done. eapply thread_rely; [exact Hj|].
      specialize (Hok i). cbn [pl_running] in Hok. rewrite Hps in Hok. cbn [thread_ok safe] in Hok.
      destruct (Hok _ (rely_refl _ _)) as [Hg _]. cbn [pl_shared pl_local] in Hg. rewrite Hm in Hg. by eapply guar_rely.
  - unfold set_at. case_decide as Hji.
    + subst j. rewrite Hps in Hj. rewrite lookup_delete_eq. cbn [thread_ok safe] in *. by apply Hj.
    + by rewrite lookup_delete_ne by done.
Qed.

Lemma pool_steps_ok P P' : pool_ok P -> star pool_step P P' -> pool_ok P'.
Proof. intros Hok Hrun. eapply (star_invariant pool_step pool_ok pool_step_ok); [exact Hrun|done]. Qed.

(** What every promise keeps of the shared state stays true, also while all threads run. *)
Lemma pool_steps_inv (Inv : G -> Prop) P P' :
  (forall g g', env g g' -> Inv g -> Inv g') -> (forall i s s', guar i s s' -> Inv s.1 -> Inv s'.1) ->
  pool_ok P -> Inv P.(pl_shared) -> star pool_step P P' -> Inv P'.(pl_shared).
Proof.
  intros Henv Hguar Hok HI Hrun.
  apply (star_invariant pool_step (fun P => pool_ok P /\ Inv P.(pl_shared))) in Hrun; [apply Hrun| |done].
  intros P1 P2 [Hok1 HI1] Hstep. split; [by eapply pool_step_ok|].
  destruct Hstep as [g l ps x g' He|i op g l ps x Hi Hps|i op B m k g l ps x g' li r Hps Hm|i op r g l ps x Hps];
    cbn [pl_shared] in *; [by eauto|done| |done].
  specialize (Hok1 i). cbn [pl_running pl_shared pl_local] in Hok1. rewrite Hps in Hok1. cbn [thread_ok safe] in Hok1.
  destruct (Hok1 _ (rely_refl _ _)) as [Hg _]. rewrite Hm in Hg. by apply (Hguar _ _ _ Hg).
Qed.

End Pool.
