(* ===== verification/GoMap.v ===== *)
(** * Loops over Go maps

    [for k, v := range m] visits the entries of [m] in an unspecified order. When the body
    for a key only touches what belongs to that key, every order gives the same result,
    and what it gives at a key is one run of the body. *)

From stdpp Require Import base gmap list.
From S2P Require Import Prelude.

Set Default Goal Selector "!".

Section KeyedLoop.
Context {S X V : Type} {K : Type} `{Countable K}.

(** [view s k] is what belongs to [k]; [body] runs for one entry; [effect] is what it does
    to the view of its own key, in states that satisfy [Inv]. *)
Context (view : S -> K -> X) (body : S -> K * V -> S) (effect : K -> V -> X -> X) (Inv : S -> Prop).
Context (body_inv : forall s kv, Inv s -> Inv (body s kv)).
Context (body_own : forall s k v, Inv s -> view (body s (k, v)) k = effect k v (view s k)).
Context (body_other : forall s k v k', Inv s -> k' <> k -> view (body s (k, v)) k' = view s k').

Lemma keyed_inv l s : Inv s -> Inv (foldl body s l).
Proof. revert s. induction l as [|kv l IH]; intros s Hs; cbn [foldl]; auto. Qed.

Lemma keyed_absent l s k : Inv s -> k ∉ l.*1 -> view (foldl body s l) k = view s k.
Proof.
  revert s. induction l as [|[k' v] l IH]; intros s Hs Hk; cbn [foldl]; [done|].
  rewrite fmap_cons, not_elem_of_cons in Hk. destruct Hk as [Hne Hk].
  rewrite IH by auto. by apply body_other.
Qed.

Lemma keyed_present l s k v :
  Inv s -> NoDup l.*1 -> (k, v) ∈ l -> view (foldl body s l) k = effect k v (view s k).
Proof.
  revert s. induction l as [|[k' v'] l IH]; intros s Hs Hnd Hin; [by apply elem_of_nil in Hin|].
  rewrite fmap_cons, NoDup_cons in Hnd. destruct Hnd as [Hk' Hnd]. cbn [foldl].
  apply elem_of_cons in Hin as [[= -> ->]|Hin].
  - rewrite keyed_absent by auto. by apply body_own.
  - rewrite IH by auto. f_equal. apply body_other; [done|]. intros ->.
    apply Hk', list_elem_of_fmap. by exists (k', v).
Qed.

(** In whatever order the entries come. *)
Lemma keyed_loop (m : gmap K V) l s k :
  Inv s -> l ≡ₚ map_to_list m ->
  view (foldl body s l) k =
    match m !! k with Some v => effect k v (view s k) | None => view s k end.
Proof.
  intros Hs Hl. assert (NoDup l.*1) as Hnd. { rewrite Hl. apply NoDup_fst_map_to_list. }
  destruct (m !! k) as [v|] eqn:Hk.
  - apply keyed_present; [done..|]. rewrite Hl. by apply elem_of_map_to_list.
  - apply keyed_absent; [done|]. rewrite Hl. intros ([k' v] & -> & Hin)%list_elem_of_fmap.
    apply elem_of_map_to_list in Hin. cbn [fst] in Hk. by rewrite Hin in Hk.
Qed.

End KeyedLoop.
