(* ===== verification/Config.v ===== *)
(** * Configuration of a DHT node (src/dht/dht.go)

    The fields of [Config] and the accessors that replace an unset field by its default.
    Durations are nanoseconds, as [time.Duration]. *)

From Stdlib Require Import ZArith Lia.
From stdpp Require Import base strings.
From S2P Require Import Prelude.

Set Default Goal Selector "!".
Local Open Scope Z_scope.

Definition Millisecond : Z := 1000000.
Definition Second : Z := 1000 * Millisecond.
Definition Minute : Z := 60 * Second.

Record Config := mkConfig {
  ListenAddr : string;
  AdvertiseAddr : string;
  Replication : Z;
  SuccessorListSize : Z;
  StabilizeInterval : Z;
  FixFingersInterval : Z;
  CheckPredInterval : Z;
  PeerRecordTTL : Z;
  GroupRecordTTL : Z;
  ProviderRecordTTL : Z;
  RecordPurgePeriod : Z;
  PeerRepublishInterval : Z;
  ProviderRepublishInterval : Z
}.

(** [Config{Replication: r}]: every other field has its zero value. *)
Definition config_with_replication (r : Z) : Config :=
  mkConfig "" "" r 0 0 0 0 0 0 0 0 0 0.

Definition positive_or (x d : Z) : Z := if 0 <? x then x else d.

Definition stabilizeInterval (c : Config) : Z := positive_or c.(StabilizeInterval) (500 * Millisecond).
Definition fixFingersInterval (c : Config) : Z := positive_or c.(FixFingersInterval) (300 * Millisecond).
Definition checkPredInterval (c : Config) : Z := positive_or c.(CheckPredInterval) Second.
Definition replication (c : Config) : Z := positive_or c.(Replication) 3.

Definition successorListSize (c : Config) : Z :=
  if 0 <? c.(SuccessorListSize) then c.(SuccessorListSize)
  else
    let r := replication c in
    if r <? 5 then 5 else r.

Definition peerRecordTTL (c : Config) : Z := positive_or c.(PeerRecordTTL) (20 * Minute).
Definition groupRecordTTL (c : Config) : Z := positive_or c.(GroupRecordTTL) (20 * Minute).
Definition providerRecordTTL (c : Config) : Z := positive_or c.(ProviderRecordTTL) (70 * Minute).

(** A negative period turns purging off. *)
Definition recordPurgePeriod (c : Config) : Z :=
  if c.(RecordPurgePeriod) <? 0 then 0
  else if 0 <? c.(RecordPurgePeriod) then c.(RecordPurgePeriod)
  else 5 * Minute.

Definition peerRepublishInterval (c : Config) : Z :=
  positive_or c.(PeerRepublishInterval) (15 * Minute).
Definition providerRepublishInterval (c : Config) : Z :=
  positive_or c.(ProviderRepublishInterval) (60 * Minute).

Lemma positive_or_pos x d : 0 < d -> 0 < positive_or x d.
Proof. unfold positive_or. destruct (Z.ltb_spec 0 x); lia. Qed.

Lemma replication_pos c : 0 < replication c.
Proof. apply positive_or_pos. lia. Qed.

Lemma successorListSize_pos c : 1 <= successorListSize c.
Proof.
  unfold successorListSize. destruct (Z.ltb_spec 0 (SuccessorListSize c)); [lia|].
  cbv zeta. destruct (Z.ltb_spec (replication c) 5); lia.
Qed.

#[export] Hint Resolve replication_pos successorListSize_pos : go.
