(* ===== verification/Hex.v ===== *)
(** * Hexadecimal and little-endian encodings

    [encoding/hex] as the repository uses it, the decoder [decodeHex] and
    [hexNibble] that src/store/network_block_store.go writes by hand to read a
    multihash back from a datastore key, and the eight-byte little-endian form
    [encodeInt64LE]/[decodeInt64LE] in which the counters are stored. *)

From stdpp Require Import base list strings.
From Stdlib Require Import ZArith Lia Strings.Byte Ascii.
From S2P Require Import Prelude.

Set Default Goal Selector "!".
Local Open Scope Z_scope.

(** ** Encodings *)

(** The character of a nibble, in the lower case of [hex.EncodeToString]. *)
Definition hex_digit (n : Z) : ascii :=
  ascii_of_N (Z.to_N (if n <? 10 then 48 + n else 87 + n)).

Fixpoint hex_encode (bs : bytes) : string :=
  match bs with
  | [] => ""
  | b :: bs' =>
      String (hex_digit (byte_val b / 16))
        (String (hex_digit (byte_val b mod 16)) (hex_encode bs'))
  end.

(** [hexNibble]: the three ranges of the [switch], in the order of the code. *)
Definition hexNibble (c : ascii) : result Z :=
  let b := Z.of_N (N_of_ascii c) in
  if (48 <=? b) && (b <=? 57) then Ok (b - 48)
  else if (97 <=? b) && (b <=? 102) then Ok (b - 97 + 10)
  else if (65 <=? b) && (b <=? 70) then Ok (b - 65 + 10)
  else Err (errorf "invalid hex character").

(** The loop of [decodeHex] over pairs of characters; [out[i] = (hi << 4) | lo]. *)
Fixpoint decodeHex_pairs (s : string) : result bytes :=
  match s with
  | String c1 (String c2 s') =>
      hi ← hexNibble c1;
      lo ← hexNibble c2;
      rest ← decodeHex_pairs s';
      Ok (byte_of_Z (Z.lor (Z.shiftl hi 4) lo) :: rest)
  | _ => Ok []
  end.

Definition decodeHex (s : string) : result bytes :=
  if negb (Nat.eqb (Nat.modulo (String.length s) 2) 0)
  then Err (errorf "odd-length hex string")
  else decodeHex_pairs s.

(** [hex.DecodeString]: characters are checked before the length, so the error of
    an odd-length string with a bad character differs from [decodeHex]'s. *)
Fixpoint hex_DecodeString (s : string) : result bytes :=
  match s with
  | EmptyString => Ok []
  | String c1 EmptyString =>
      _ ← hexNibble c1;
      Err (errorf "encoding/hex: odd length hex string")
  | String c1 (String c2 s') =>
      hi ← hexNibble c1;
      lo ← hexNibble c2;
      rest ← hex_DecodeString s';
      Ok (byte_of_Z (Z.lor (Z.shiftl hi 4) lo) :: rest)
  end.

(** Lower-casing, to state what the decoder accepts. *)
Definition lower_ascii (c : ascii) : ascii :=
  let n := N_of_ascii c in
  if ((65 <=? n) && (n <=? 90))%N then ascii_of_N (n + 32) else c.

Fixpoint lower (s : string) : string :=
  match s with
  | EmptyString => EmptyString
  | String c s' => String (lower_ascii c) (lower s')
  end.

(** [data[i] = byte(v >> (i * 8))] for [i] from 0 to 7. *)
Definition encodeInt64LE (v : Z) : bytes :=
  (fun i : nat => byte_of_Z (Z.shiftr v (Z.of_nat i * 8))) <$> seq 0 8.

(** [v |= int64(data[i]) << (i * 8)]; the shift of the top byte wraps. The code
    only calls it on slices of length 8. *)
Definition decodeInt64LE (data : bytes) : Z :=
  foldl (fun v i => Z.lor v (wrap64 (Z.shiftl (byte_val (nth i data x00)) (Z.of_nat i * 8))))
    0 (seq 0 8).

(** ** Round trips *)

Lemma hexNibble_digit n : 0 <= n < 16 -> hexNibble (hex_digit n) = Ok n.
Proof.
  intros Hn.
  assert (Forall (fun m => hexNibble (hex_digit (Z.of_nat m)) = Ok (Z.of_nat m)) (seq 0 16)) as Hall
    by (repeat constructor).
  rewrite Forall_forall in Hall. specialize (Hall (Z.to_nat n)).
  rewrite Z2Nat.id in Hall by lia. apply Hall, elem_of_seq. lia.
Qed.

Lemma nibbles_join b :
  byte_of_Z (Z.lor (Z.shiftl (byte_val b / 16) 4) (byte_val b mod 16)) = b.
Proof. destruct b; vm_compute; reflexivity. Qed.

Lemma hexNibble_hi b : hexNibble (hex_digit (byte_val b / 16)) = Ok (byte_val b / 16).
Proof.
  apply hexNibble_digit. pose proof (byte_val_range b).
  split; [apply Z.div_pos; lia|apply Z.div_lt_upper_bound; lia].
Qed.

Lemma hexNibble_lo b : hexNibble (hex_digit (byte_val b mod 16)) = Ok (byte_val b mod 16).
Proof. apply hexNibble_digit, Z.mod_pos_bound. lia. Qed.

Lemma hex_DecodeString_encode bs : hex_DecodeString (hex_encode bs) = Ok bs.
Proof.
  induction bs as [|b bs IH]; [done|].
  cbn [hex_encode hex_DecodeString]. unfold mbind, result_bind.
  by rewrite hexNibble_hi, hexNibble_lo, IH, nibbles_join.
Qed.

Lemma length_hex_encode bs : String.length (hex_encode bs) = (2 * length bs)%nat.
Proof. induction bs as [|b bs IH]; [done|]. simpl. rewrite IH. lia. Qed.

Lemma decodeHex_encode bs : decodeHex (hex_encode bs) = Ok bs.
Proof.
  unfold decodeHex. rewrite length_hex_encode, Nat.mul_comm, Nat.Div0.mod_mul. simpl.
  induction bs as [|b bs IH]; [done|].
  cbn [hex_encode decodeHex_pairs]. unfold mbind, result_bind.
  by rewrite hexNibble_hi, hexNibble_lo, IH, nibbles_join.
Qed.

Lemma hex_encode_inj a b : hex_encode a = hex_encode b -> a = b.
Proof.
  intros H. pose proof (hex_DecodeString_encode a) as Ha.
  rewrite H, hex_DecodeString_encode in Ha. by simplify_eq.
Qed.

Lemma lor_shifted a b n :
  0 <= n -> 0 <= a < 2 ^ n -> Z.lor a (Z.shiftl b n) = a + Z.shiftl b n.
Proof.
  intros Hn Ha.
  assert (Z.land a (Z.shiftl b n) = 0) as Hland.
  { apply Z.bits_inj'. intros i Hi. rewrite Z.land_spec, Z.bits_0, Z.shiftl_spec by lia.
    destruct (Z.ltb_spec i n).
    - rewrite (Z.testbit_neg_r b) by lia. apply andb_false_r.
    - destruct (Z.eq_dec a 0) as [->|]; [by rewrite Z.bits_0|].
      rewrite Z.bits_above_log2; [done|lia|].
      apply Z.log2_lt_pow2; [lia|]. apply Z.lt_le_trans with (2 ^ n); [lia|].
      apply Z.pow_le_mono_r; lia. }
  rewrite Z.add_nocarry_lxor, Z.lxor_lor; done.
Qed.

(** One step of the decoder: the [k]-th byte goes above the [8k] bits read so far. *)
Lemma lor_byte acc q k :
  0 <= k <= 6 -> 0 <= acc < 2 ^ (k * 8) -> 0 <= q < 256 ->
  Z.lor acc (wrap64 (Z.shiftl q (k * 8))) = acc + q * 2 ^ (k * 8).
Proof.
  intros Hk Hacc Hq. rewrite wrap64_small, lor_shifted, Z.shiftl_mul_pow2; [done|lia..|].
  rewrite Z.shiftl_mul_pow2 by lia. unfold in_int64.
  assert (2 ^ (k * 8) <= 2 ^ 48) by (apply Z.pow_le_mono_r; lia).
  assert (0 <= q * 2 ^ (k * 8) < 256 * 2 ^ 48); [|lia]. split; [lia|].
  apply Z.le_lt_trans with (q * 2 ^ 48); [apply Z.mul_le_mono_nonneg_l; lia|lia].
Qed.

(** The top byte carries the sign. *)
Lemma lor_top_byte acc q :
  0 <= acc < 2 ^ 56 -> 0 <= q < 256 ->
  Z.lor acc (wrap64 (Z.shiftl q 56)) = acc + (if q <? 128 then q else q - 256) * 2 ^ 56.
Proof.
  intros Hacc Hq.
  assert (wrap64 (Z.shiftl q 56) = Z.shiftl (if q <? 128 then q else q - 256) 56) as ->.
  { rewrite !Z.shiftl_mul_pow2 by lia. unfold wrap64. destruct (Z.ltb_spec q 128).
    - rewrite Z.mod_small; lia.
    - replace (q * 2 ^ 56 + 2 ^ 63) with ((q - 128) * 2 ^ 56 + 1 * 2 ^ 64) by lia.
      rewrite Z.mod_add, Z.mod_small; lia. }
  rewrite lor_shifted, Z.shiftl_mul_pow2; lia.
Qed.

Lemma decode_encodeInt64LE v : in_int64 v -> decodeInt64LE (encodeInt64LE v) = v.
Proof.
  intros Hv. unfold decodeInt64LE, encodeInt64LE. cbn [seq foldl fmap list_fmap nth].
  change (Z.of_nat 0 * 8) with (0 * 8). change (Z.of_nat 1 * 8) with (1 * 8).
  change (Z.of_nat 2 * 8) with (2 * 8). change (Z.of_nat 3 * 8) with (3 * 8).
  change (Z.of_nat 4 * 8) with (4 * 8). change (Z.of_nat 5 * 8) with (5 * 8).
  change (Z.of_nat 6 * 8) with (6 * 8). change (Z.of_nat 7 * 8) with 56.
  rewrite !byte_val_of_Z, !Z.shiftr_div_pow2 by lia.
  assert (forall q, 0 <= q mod 256 < 256) as Hb by (intros; apply Z.mod_pos_bound; lia).
  pose proof (Hb (v / 2 ^ (0 * 8))) as H0. pose proof (Hb (v / 2 ^ (1 * 8))) as H1.
  pose proof (Hb (v / 2 ^ (2 * 8))) as H2. pose proof (Hb (v / 2 ^ (3 * 8))) as H3.
  pose proof (Hb (v / 2 ^ (4 * 8))) as H4. pose proof (Hb (v / 2 ^ (5 * 8))) as H5.
  pose proof (Hb (v / 2 ^ (6 * 8))) as H6. pose proof (Hb (v / 2 ^ 56)) as H7.
  rewrite (lor_byte 0 _ 0), (lor_byte _ _ 1), (lor_byte _ _ 2), (lor_byte _ _ 3),
    (lor_byte _ _ 4), (lor_byte _ _ 5), (lor_byte _ _ 6), lor_top_byte by lia.
  unfold in_int64 in Hv. destruct (Z.ltb_spec ((v / 2 ^ 56) mod 256) 128);
    Z.div_mod_to_equations; lia.
Qed.

(** ** The decoder as an inverse *)

Lemma hexNibble_lower c : hexNibble (lower_ascii c) = hexNibble c.
Proof. destruct c as [[] [] [] [] [] [] [] []]; reflexivity. Qed.

Lemma hexNibble_Ok c n : hexNibble c = Ok n -> 0 <= n < 16 /\ hex_digit n = lower_ascii c.
Proof.
  destruct c as [[] [] [] [] [] [] [] []]; intros H; vm_compute in H; simplify_eq;
    (split; [lia|reflexivity]).
Qed.

Lemma length_lower s : String.length (lower s) = String.length s.
Proof. induction s as [|c s IH]; [done|]. simpl. by rewrite IH. Qed.

(** Induction over a string two characters at a time. *)
Lemma string_pair_ind (P : string -> Prop) :
  P "" -> (forall c, P (String c "")) ->
  (forall c1 c2 s, P s -> P (String c1 (String c2 s))) -> forall s, P s.
Proof.
  intros H0 H1 H2 s. enough (P s /\ forall c, P (String c s)) as [? _]; [done|].
  induction s as [|c s [IH1 IH2]]; split; eauto.
Qed.

Lemma decodeHex_pairs_lower s : decodeHex_pairs (lower s) = decodeHex_pairs s.
Proof.
  induction s as [| |c1 c2 s IH] using string_pair_ind; [done..|].
  cbn [lower decodeHex_pairs]. by rewrite !hexNibble_lower, IH.
Qed.

Lemma nibbles_split hi lo :
  0 <= hi < 16 -> 0 <= lo < 16 ->
  byte_val (byte_of_Z (Z.lor (Z.shiftl hi 4) lo)) = hi * 16 + lo.
Proof.
  intros Hh Hl. rewrite Z.lor_comm, lor_shifted, byte_val_of_Z, Z.shiftl_mul_pow2 by lia.
  rewrite Z.mod_small; lia.
Qed.

Lemma decodeHex_pairs_Ok s bs :
  Nat.modulo (String.length s) 2 = 0%nat -> decodeHex_pairs s = Ok bs -> hex_encode bs = lower s.
Proof.
  revert bs. induction s as [| |c1 c2 s IH] using string_pair_ind; intros bs Hlen Hd.
  - by simplify_eq/=.
  - by vm_compute in Hlen.
  - cbn [decodeHex_pairs] in Hd. unfold mbind, result_bind in Hd.
    destruct (hexNibble c1) as [hi|] eqn:E1; [|done].
    destruct (hexNibble c2) as [lo|] eqn:E2; [|done].
    destruct (decodeHex_pairs s) as [rest|]; [|done].
    apply hexNibble_Ok in E1 as [Hh E1], E2 as [Hl E2]. simplify_eq.
    cbn [hex_encode lower]. rewrite nibbles_split by done.
    rewrite Z.div_add_l, Z.div_small, Z.add_0_r by lia.
    rewrite Z.add_comm, Z.mod_add, Z.mod_small by lia.
    rewrite E1, E2. do 2 f_equal. apply IH; [|done].
    simpl String.length in Hlen.
    by replace (S (S (String.length s))) with (String.length s + 1 * 2)%nat in Hlen by lia;
      rewrite Nat.Div0.mod_add in Hlen.
Qed.

(** ** Properties *)

(** [decodeHex] is exactly the inverse of the lower-case hexadecimal encoding
    up to letter case: it returns [bs] when the string, lower-cased, is the encoding
    of [bs], and in no other case (so it rejects every odd-length or non-hex string). *)
Theorem decodeHex_spec (s : string) (bs : bytes) :
  decodeHex s = Ok bs <-> hex_encode bs = lower s.
Proof.
  split.
  - unfold decodeHex. destruct (Nat.eqb_spec (Nat.modulo (String.length s) 2) 0); [|done].
    by apply decodeHex_pairs_Ok.
  - intros H. rewrite <- (decodeHex_encode bs), H. unfold decodeHex.
    by rewrite length_lower, decodeHex_pairs_lower.
Qed.

(** The persisted form of a counter is eight bytes and [decodeInt64LE] reads
    back every [int64] that [encodeInt64LE] wrote, negative values included. *)
Theorem int64LE_roundtrip (v : Z) :
  in_int64 v ->
  length (encodeInt64LE v) = 8%nat /\ decodeInt64LE (encodeInt64LE v) = v.
Proof. split; [reflexivity|]. by apply decode_encodeInt64LE. Qed.

Lemma int64LE_roundtrip_witness :
  in_int64 (-2) /\ length (encodeInt64LE (-2)) = 8%nat /\
  decodeInt64LE (encodeInt64LE (-2)) = -2.
Proof.
  assert (in_int64 (-2)) as H by (unfold in_int64; lia).
  split; [exact H|]. apply (int64LE_roundtrip (-2) H).
Defined.
