(* ===== verification/Chord.v ===== *)
(** * Identifiers on the Chord ring (src/dht/chord.go)

    A [NodeID] is an array of 20 bytes read as a big-endian 160-bit integer. The
    file defines the comparisons and interval tests of the code on the bytes, and
    shows that they are the interval tests of the circle of 2^160 points. *)

From stdpp Require Import base gmap list strings.
From Stdlib Require Import ZArith Lia Strings.Byte.
From S2P Require Import Prelude Hex.

Set Default Goal Selector "!".
Local Open Scope Z_scope.

(** ** [type NodeID [20]byte] *)

Record NodeID := mkNodeID {
  nid_bytes : bytes;
  nid_len : Is_true (Nat.eqb (length nid_bytes) 20)
}.

Lemma NodeID_eq (a b : NodeID) : nid_bytes a = nid_bytes b -> a = b.
Proof.
  destruct a as [la Ha], b as [lb Hb]. simpl. intros ->. f_equal. apply proof_irrel.
Qed.

#[global] Instance NodeID_eq_decision : EqDecision NodeID.
Proof.
  intros a b. destruct (decide (nid_bytes a = nid_bytes b)) as [E|E].
  - left. by apply NodeID_eq.
  - right. congruence.
Defined.

Definition copy20 (b : bytes) : bytes := take 20 (b ++ replicate 20 x00).

Lemma copy20_len (b : bytes) : Is_true (Nat.eqb (length (copy20 b)) 20).
Proof.
  apply Is_true_true, Nat.eqb_eq. unfold copy20.
  rewrite length_take, length_app, length_replicate. lia.
Qed.

(** [var id NodeID; copy(id[:], b)]: at most 20 bytes are copied, the rest is zero. *)
Definition NodeID_copy (b : bytes) : NodeID := mkNodeID (copy20 b) (copy20_len b).

Definition zeroID : NodeID := NodeID_copy [].

Lemma nid_length (id : NodeID) : length (nid_bytes id) = 20%nat.
Proof. apply Nat.eqb_eq, Is_true_true, nid_len. Qed.

Lemma NodeID_copy_bytes (id : NodeID) : NodeID_copy (nid_bytes id) = id.
Proof.
  apply NodeID_eq. simpl. unfold copy20.
  rewrite take_app_le by (rewrite nid_length; lia).
  apply take_ge. rewrite nid_length. lia.
Qed.

#[global] Program Instance NodeID_countable : Countable NodeID :=
  inj_countable nid_bytes (fun b => Some (NodeID_copy b)) _.
Next Obligation. intros id. simpl. by rewrite NodeID_copy_bytes. Qed.

#[global] Instance NodeID_inhabited : Inhabited NodeID := populate zeroID.

(** [type NodeAddr struct] of src/dht/dht.go. *)
Record NodeAddr := mkNodeAddr { na_id : NodeID; na_addr : string }.

#[global] Instance NodeAddr_eq_decision : EqDecision NodeAddr.
Proof. solve_decision. Defined.

#[global] Instance NodeAddr_inhabited : Inhabited NodeAddr := populate (mkNodeAddr zeroID "").

(** ** Comparisons *)

Definition Equal (id other : NodeID) : bool := bool_decide (id = other).

(** The loop of [Less]: the first byte that differs decides. *)
Fixpoint less_bytes (a b : bytes) : bool :=
  match a, b with
  | x :: a', y :: b' =>
      if bool_decide (x = y) then less_bytes a' b' else byte_val x <? byte_val y
  | _, _ => false
  end.

Definition Less (id other : NodeID) : bool := less_bytes (nid_bytes id) (nid_bytes other).

Definition BetweenExclusive (id lo hi : NodeID) : bool :=
  if Equal lo hi then negb (Equal id lo)
  else if Less lo hi then Less lo id && Less id hi
  else Less lo id || Less id hi.

Definition BetweenRightInclusive (id lo hi : NodeID) : bool :=
  Equal id hi || BetweenExclusive id lo hi.

(** [fmt.Sprintf("%x", id[:])]. *)
Definition NodeID_String (id : NodeID) : string := hex_encode (nid_bytes id).

(** The hexadecimal part of [UnmarshalJSON], shared with the code that parses a
    [NodeID] given by a user ([hex.DecodeString], then [len(b) != 20]). *)
Definition NodeID_of_hex (s : string) : result NodeID :=
  b ← hex_DecodeString s;
  if negb (Nat.eqb (length b) 20) then Err (errorf "NodeID: expected 20 bytes")
  else Ok (NodeID_copy b).

(** ** Finger table starts *)

Definition ringSize : Z := Z.shiftl 1 160.

(** [new(big.Int).SetBytes]. *)
Fixpoint be_val (b : bytes) : Z :=
  match b with
  | [] => 0
  | x :: b' => byte_val x * 256 ^ Z.of_nat (length b') + be_val b'
  end.

Definition id_val (id : NodeID) : Z := be_val (nid_bytes id).

(** [big.Int.Bytes]: the shortest big-endian form of a non-negative integer. The
    fuel bounds the number of digits by the number of bits. *)
Fixpoint le_digits (fuel : nat) (z : Z) : bytes :=
  match fuel with
  | O => []
  | S fuel' => if z =? 0 then [] else byte_of_Z z :: le_digits fuel' (z / 256)
  end.

Definition big_bytes (z : Z) : bytes := rev (le_digits (S (Z.to_nat (Z.log2 z))) z).

Definition fingerStart (id : NodeID) (i : nat) : NodeID :=
  let n := id_val id in
  let pow := Z.shiftl 1 (Z.of_nat i) in
  let res := (n + pow) mod ringSize in
  let b := big_bytes res in
  if (length b <=? 20)%nat then NodeID_copy (replicate (20 - length b) x00 ++ b)
  else NodeID_copy [].

(** ** The circle *)

(** Clockwise distance from [a] to [b]; [gap lo hi] is the length of the interval
    that starts at [lo] and ends at [hi], the whole circle when they coincide. *)
Definition dist (a b : NodeID) : Z := (id_val b - id_val a) mod 2 ^ 160.

Definition gap (lo hi : NodeID) : Z := if decide (lo = hi) then 2 ^ 160 else dist lo hi.

(** ** The bytes as an integer *)

Lemma be_val_range b : 0 <= be_val b < 256 ^ Z.of_nat (length b).
Proof.
  induction b as [|x b IH]; cbn [be_val length]; [lia|].
  rewrite Nat2Z.inj_succ, Z.pow_succ_r by lia. pose proof (byte_val_range x). nia.
Qed.

Lemma less_bytes_spec a b :
  length a = length b -> less_bytes a b = (be_val a <? be_val b).
Proof.
  revert b. induction a as [|x a IH]; intros [|y b] Hlen; try done.
  injection Hlen as Hlen. cbn [less_bytes be_val].
  pose proof (be_val_range a). pose proof (be_val_range b). rewrite <- Hlen in *.
  case_bool_decide as E.
  - subst. rewrite IH by done. destruct (Z.ltb_spec (be_val a) (be_val b)); symmetry;
      [apply Z.ltb_lt|apply Z.ltb_ge]; lia.
  - assert (byte_val x <> byte_val y) by (by intros ?%byte_val_inj).
    destruct (Z.ltb_spec (byte_val x) (byte_val y)); symmetry;
      [apply Z.ltb_lt|apply Z.ltb_ge]; nia.
Qed.

Lemma be_val_inj a b : length a = length b -> be_val a = be_val b -> a = b.
Proof.
  revert b. induction a as [|x a IH]; intros [|y b] Hlen Hv; try done.
  injection Hlen as Hlen. cbn [be_val] in Hv.
  pose proof (be_val_range a). pose proof (be_val_range b). rewrite <- Hlen in *.
  assert (byte_val x = byte_val y) as ?%byte_val_inj by nia. subst.
  f_equal. apply IH; [done|lia].
Qed.

Lemma id_val_range id : 0 <= id_val id < 2 ^ 160.
Proof.
  unfold id_val. pose proof (be_val_range (nid_bytes id)) as H.
  by rewrite nid_length in H.
Qed.

Lemma id_val_inj a b : id_val a = id_val b -> a = b.
Proof. intros H. apply NodeID_eq, be_val_inj; [by rewrite !nid_length|done]. Qed.

Lemma Less_spec a b : Less a b = (id_val a <? id_val b).
Proof. apply less_bytes_spec. by rewrite !nid_length. Qed.

Lemma Equal_spec a b : Equal a b = (id_val a =? id_val b).
Proof.
  unfold Equal. case_bool_decide; [subst; by rewrite Z.eqb_refl|].
  symmetry. apply Z.eqb_neq. by intros ?%id_val_inj.
Qed.

Lemma Equal_true a b : Equal a b = true <-> a = b.
Proof. apply bool_decide_eq_true. Qed.

Lemma Equal_false a b : Equal a b = false <-> a <> b.
Proof. apply bool_decide_eq_false. Qed.

Lemma Equal_refl a : Equal a a = true.
Proof. by apply Equal_true. Qed.

(** ** Clockwise order from a point *)

Lemma gap_mod a b : gap a b = (id_val b - id_val a - 1) mod 2 ^ 160 + 1.
Proof.
  unfold gap, dist. pose proof (id_val_range a). pose proof (id_val_range b).
  destruct (decide (a = b)) as [->|Hne].
  - replace (id_val b - id_val b - 1) with (2 ^ 160 - 1 + (-1) * 2 ^ 160) by lia.
    rewrite Z.mod_add, Z.mod_small; lia.
  - assert (id_val a <> id_val b) by (by intros ?%id_val_inj).
    destruct (Z.lt_ge_cases (id_val a) (id_val b)).
    + rewrite !Z.mod_small; lia.
    + rewrite <- (Z.mod_add (id_val b - id_val a) 1), <- (Z.mod_add (_ - 1) 1) by lia.
      rewrite !Z.mod_small; lia.
Qed.

Lemma gap_range a b : 0 < gap a b <= 2 ^ 160.
Proof.
  rewrite gap_mod. pose proof (Z.mod_pos_bound (id_val b - id_val a - 1) (2 ^ 160)). lia.
Qed.

(** [gap] without the modulus, so that [lia] decides the statements below. *)
Lemma gap_cases a b :
  gap a b = id_val b - id_val a + (if id_val a <? id_val b then 0 else 2 ^ 160).
Proof.
  rewrite gap_mod. pose proof (id_val_range a). pose proof (id_val_range b).
  destruct (Z.ltb_spec (id_val a) (id_val b)).
  - rewrite Z.mod_small; lia.
  - rewrite <- (Z.mod_add (_ - 1) 1), Z.mod_small by lia. lia.
Qed.

Ltac gap_lia :=
  repeat match goal with
  | H : context [gap ?a ?b] |- _ => rewrite (gap_cases a b) in H
  | |- context [gap ?a ?b] => rewrite (gap_cases a b)
  end;
  repeat match goal with
  | id : NodeID |- _ =>
      lazymatch goal with
      | H : 0 <= id_val id < 2 ^ 160 |- _ => fail
      | _ => pose proof (id_val_range id)
      end
  end;
  repeat match goal with
  | H : context [?a <? ?b] |- _ => destruct (Z.ltb_spec a b)
  | |- context [?a <? ?b] => destruct (Z.ltb_spec a b)
  end; try lia.

Lemma gap_self a : gap a a = 2 ^ 160.
Proof. gap_lia. Qed.

Lemma gap_full a b : gap a b = 2 ^ 160 -> a = b.
Proof. intros H. apply id_val_inj. gap_lia. Qed.

Lemma gap_inj lo a b : gap lo a = gap lo b -> a = b.
Proof. intros H. apply id_val_inj. gap_lia. Qed.

(** Moving the origin forward to [mid] shortens the gaps of the points beyond it. *)
Lemma gap_shift lo mid x :
  gap mid x = gap lo x - gap lo mid + (if gap lo mid <? gap lo x then 0 else 2 ^ 160).
Proof. gap_lia. Qed.

Lemma gap_sub lo mid x : gap lo mid < gap lo x -> gap mid x = gap lo x - gap lo mid.
Proof. intros H. rewrite (gap_shift lo). apply Z.ltb_lt in H. rewrite H. lia. Qed.

(** The two interval tests compare gaps. *)
Lemma BetweenExclusive_gap id lo hi : BetweenExclusive id lo hi = (gap lo id <? gap lo hi).
Proof.
  unfold BetweenExclusive. rewrite !Equal_spec, !Less_spec, !gap_cases.
  pose proof (id_val_range id). pose proof (id_val_range lo). pose proof (id_val_range hi).
  repeat match goal with
  | |- context [?a =? ?b] => destruct (Z.eqb_spec a b)
  | |- context [if ?a <? ?b then _ else _] => destruct (Z.ltb_spec a b)
  end; simpl; repeat match goal with
  | |- context [?a <? ?b] => destruct (Z.ltb_spec a b)
  end; simpl; lia.
Qed.

Lemma BetweenRightInclusive_gap id lo hi :
  BetweenRightInclusive id lo hi = (gap lo id <=? gap lo hi).
Proof.
  unfold BetweenRightInclusive. rewrite BetweenExclusive_gap.
  destruct (Equal id hi) eqn:E; simpl.
  - apply Equal_true in E as ->. by rewrite Z.leb_refl.
  - apply Equal_false in E. assert (gap lo id <> gap lo hi) by (by intros ?%gap_inj).
    destruct (Z.ltb_spec (gap lo id) (gap lo hi)); symmetry;
      [apply Z.leb_le|apply Z.leb_gt]; lia.
Qed.

Lemma BetweenExclusive_true id lo hi : BetweenExclusive id lo hi = true <-> gap lo id < gap lo hi.
Proof. rewrite BetweenExclusive_gap. apply Z.ltb_lt. Qed.

Lemma BetweenExclusive_false id lo hi : BetweenExclusive id lo hi = false <-> gap lo hi <= gap lo id.
Proof. rewrite BetweenExclusive_gap. apply Z.ltb_ge. Qed.

Lemma BetweenRightInclusive_true id lo hi :
  BetweenRightInclusive id lo hi = true <-> gap lo id <= gap lo hi.
Proof. rewrite BetweenRightInclusive_gap. apply Z.leb_le. Qed.

Lemma BetweenRightInclusive_false id lo hi :
  BetweenRightInclusive id lo hi = false <-> gap lo hi < gap lo id.
Proof. rewrite BetweenRightInclusive_gap. apply Z.leb_gt. Qed.

(** ** Finger starts *)

Lemma be_val_app a b : be_val (a ++ b) = be_val a * 256 ^ Z.of_nat (length b) + be_val b.
Proof.
  induction a as [|x a IH]; cbn [app be_val]; [lia|].
  rewrite IH, length_app, Nat2Z.inj_add, Z.pow_add_r by lia. lia.
Qed.

Lemma be_val_zeros n : be_val (replicate n x00) = 0.
Proof. induction n as [|n IH]; [done|]. cbn [replicate be_val]. rewrite IH. reflexivity. Qed.

Lemma le_digits_val fuel z :
  0 <= z < 2 ^ Z.of_nat fuel -> be_val (rev (le_digits fuel z)) = z.
Proof.
  revert z. induction fuel as [|fuel IH]; intros z Hz; [cbn in *; lia|].
  cbn [le_digits]. destruct (Z.eqb_spec z 0) as [->|]; [done|].
  cbn [rev]. rewrite be_val_app, IH.
  - cbn [be_val length]. rewrite byte_val_of_Z. pose proof (Z.div_mod z 256). lia.
  - rewrite Nat2Z.inj_succ, Z.pow_succ_r in Hz by lia.
    split; [apply Z.div_pos; lia|apply Z.div_lt_upper_bound; lia].
Qed.

Lemma length_le_digits fuel n z :
  0 <= z < 256 ^ Z.of_nat n -> (length (le_digits fuel z) <= n)%nat.
Proof.
  revert n z. induction fuel as [|fuel IH]; intros n z Hz; cbn [le_digits length]; [lia|].
  destruct (Z.eqb_spec z 0) as [->|]; [cbn [length]; lia|].
  destruct n as [|n]; [cbn in Hz; lia|]. cbn [length]. apply le_n_S, IH.
  rewrite Nat2Z.inj_succ, Z.pow_succ_r in Hz by lia.
  split; [apply Z.div_pos; lia|apply Z.div_lt_upper_bound; lia].
Qed.

Lemma be_val_big_bytes z : 0 <= z -> be_val (big_bytes z) = z.
Proof.
  intros Hz. apply le_digits_val. split; [lia|].
  rewrite Nat2Z.inj_succ, Z2Nat.id by apply Z.log2_nonneg.
  destruct (Z.eq_dec z 0) as [->|]; [done|].
  apply Z.log2_spec. lia.
Qed.

Lemma length_big_bytes z : 0 <= z < 2 ^ 160 -> (length (big_bytes z) <= 20)%nat.
Proof. intros Hz. unfold big_bytes. rewrite length_rev. by apply length_le_digits. Qed.

Lemma id_val_copy b : length b = 20%nat -> id_val (NodeID_copy b) = be_val b.
Proof.
  intros Hb. unfold id_val. simpl. unfold copy20.
  rewrite take_app_le by lia. by rewrite take_ge by lia.
Qed.

Lemma id_val_fingerStart id i : id_val (fingerStart id i) = (id_val id + 2 ^ Z.of_nat i) mod 2 ^ 160.
Proof.
  unfold fingerStart. change ringSize with (2 ^ 160). rewrite Z.shiftl_1_l.
  pose proof (Z.mod_pos_bound (id_val id + 2 ^ Z.of_nat i) (2 ^ 160)) as Hr.
  set (r := (_ + _) mod _) in *.
  pose proof (length_big_bytes r) as Hlen. rewrite (proj2 (Nat.leb_le _ _)) by lia.
  rewrite id_val_copy by (rewrite length_app, length_replicate; lia).
  rewrite be_val_app, be_val_zeros, be_val_big_bytes; lia.
Qed.

Lemma NodeID_of_hex_String id : NodeID_of_hex (NodeID_String id) = Ok id.
Proof.
  unfold NodeID_of_hex, NodeID_String. rewrite hex_DecodeString_encode.
  unfold mbind, result_bind. rewrite nid_length. simpl. by rewrite NodeID_copy_bytes.
Qed.

Lemma NodeID_String_inj a b : NodeID_String a = NodeID_String b -> a = b.
Proof. intros H%hex_encode_inj. by apply NodeID_eq. Qed.

(** ** Rings: the specification of responsibility *)

(** [R] is the set of the identifiers of the members. A key belongs to the first
    member met clockwise from it, the key's own position included; a member's
    successor and predecessor are the nearest other members, or itself if alone. *)
Definition key_owner (R : gset NodeID) (k s : NodeID) : Prop :=
  s ∈ R /\ forall y, y ∈ R -> dist k s <= dist k y.

Definition ring_succ (R : gset NodeID) (n s : NodeID) : Prop :=
  s ∈ R /\ forall y, y ∈ R -> gap n s <= gap n y.

Definition ring_pred (R : gset NodeID) (n p : NodeID) : Prop :=
  p ∈ R /\ forall y, y ∈ R -> gap p n <= gap y n.

Lemma dist_cases a b :
  dist a b = id_val b - id_val a + (if id_val a <=? id_val b then 0 else 2 ^ 160).
Proof.
  unfold dist. pose proof (id_val_range a). pose proof (id_val_range b).
  destruct (Z.leb_spec (id_val a) (id_val b)).
  - rewrite Z.mod_small; lia.
  - rewrite <- (Z.mod_add _ 1), Z.mod_small by lia. lia.
Qed.

Ltac ring_lia :=
  repeat match goal with
  | H : context [dist ?a ?b] |- _ => rewrite (dist_cases a b) in H
  | |- context [dist ?a ?b] => rewrite (dist_cases a b)
  end;
  repeat match goal with
  | H : context [?a <=? ?b] |- _ => destruct (Z.leb_spec a b)
  | |- context [?a <=? ?b] => destruct (Z.leb_spec a b)
  end; gap_lia.

Lemma dist_range a b : 0 <= dist a b < 2 ^ 160.
Proof. ring_lia. Qed.

Lemma dist_inj k a b : dist k a = dist k b -> a = b.
Proof. intros H. apply id_val_inj. ring_lia. Qed.

Lemma dist_gap a b : a <> b -> dist a b = gap a b.
Proof. unfold gap. by destruct (decide (a = b)). Qed.

Lemma dist_self a : dist a a = 0.
Proof. ring_lia. Qed.

Lemma argmin_exists (f : NodeID -> Z) (R : gset NodeID) :
  R <> ∅ -> exists s, s ∈ R /\ forall y, y ∈ R -> f s <= f y.
Proof.
  induction R as [|x R Hx IH] using set_ind_L; [done|]. intros _.
  destruct (decide (R = ∅)) as [->|HR].
  - exists x. set_solver by lia.
  - destruct (IH HR) as (s & Hs & Hmin). destruct (Z.le_gt_cases (f x) (f s)).
    + exists x. split; [set_solver|]. intros y [->%elem_of_singleton|Hy]%elem_of_union; [lia|].
      specialize (Hmin y Hy). lia.
    + exists s. split; [set_solver|]. intros y [->%elem_of_singleton|Hy]%elem_of_union; [lia|].
      auto.
Qed.

Lemma key_owner_unique R k s s' : key_owner R k s -> key_owner R k s' -> s = s'.
Proof.
  intros [Hs Hmin] [Hs' Hmin']. apply (dist_inj k).
  specialize (Hmin _ Hs'). specialize (Hmin' _ Hs). lia.
Qed.

(** A key between a member and its successor is owned by the successor. *)
Lemma ring_succ_owner R p s k :
  ring_succ R p s -> BetweenRightInclusive k p s = true -> key_owner R k s.
Proof.
  intros [Hs Hmin] Hk%BetweenRightInclusive_true. split; [done|].
  intros y Hy. specialize (Hmin y Hy). ring_lia.
Qed.

Lemma ring_pred_owner R n p k :
  n ∈ R -> ring_pred R n p -> (BetweenRightInclusive k p n = true <-> key_owner R k n).
Proof.
  intros Hn [Hp Hmin]. rewrite BetweenRightInclusive_true. split.
  - intros Hk. split; [done|]. intros y Hy. specialize (Hmin y Hy). ring_lia.
  - intros [_ Hown]. specialize (Hown p Hp). ring_lia.
Qed.

(** A member that joins strictly between [p] and [n] takes over the first part of the
    keys of [n] and nothing else. *)
Lemma interval_split p new n k :
  BetweenExclusive new p n = true ->
  BetweenRightInclusive k p n = BetweenRightInclusive k p new || BetweenRightInclusive k new n /\
  BetweenRightInclusive k p new && BetweenRightInclusive k new n = false.
Proof.
  rewrite BetweenExclusive_true, !BetweenRightInclusive_gap. intros H.
  split.
  - apply eq_bool_prop_intro. rewrite orb_True, !Is_true_true, !Z.leb_le. gap_lia.
  - apply not_true_is_false. rewrite andb_true_iff, !Z.leb_le. gap_lia.
Qed.

(** ** Properties *)

(** On the circle of 2^160 points, [BetweenExclusive] holds exactly for the points
    met strictly between [lo] and [hi] going clockwise, where equal ends mean every point
    but the end; [BetweenRightInclusive] adds the end [hi], and equal ends mean the whole
    circle. *)
Theorem between_circle (id lo hi : NodeID) :
  (BetweenExclusive id lo hi = true <-> id <> lo /\ (lo = hi \/ dist lo id < dist lo hi)) /\
  (BetweenRightInclusive id lo hi = true <-> lo = hi \/ id <> lo /\ dist lo id <= dist lo hi).
Proof.
  rewrite BetweenExclusive_true, BetweenRightInclusive_true.
  pose proof (dist_range lo id). pose proof (dist_range lo hi).
  unfold gap. destruct (decide (lo = id)), (decide (lo = hi)); subst; naive_solver lia.
Qed.

(** In a ring of any non-empty set of members, every key has exactly one member
    [n] whose interval [(pred(n), n]] contains it by the code's test. *)
Theorem responsible_unique (R : gset NodeID) (k : NodeID) :
  R <> ∅ ->
  exists n, n ∈ R /\
    (forall p, ring_pred R n p -> BetweenRightInclusive k p n = true) /\
    (forall n' p', n' ∈ R -> ring_pred R n' p' -> BetweenRightInclusive k p' n' = true -> n' = n).
Proof.
  intros HR. destruct (argmin_exists (dist k) R HR) as (n & Hn & Hmin).
  assert (key_owner R k n) as Hown by done.
  exists n. split; [done|]. split.
  - intros p Hp. by eapply ring_pred_owner.
  - intros n' p' Hn' Hp' Hk. eapply key_owner_unique; [|exact Hown].
    by eapply ring_pred_owner.
Qed.

Definition test_id (pos : byte) : NodeID := NodeID_copy [pos].

Lemma responsible_unique_witness :
  exists n, n ∈ ({[test_id x0a; test_id xc8]} : gset NodeID) /\
    (forall p, ring_pred {[test_id x0a; test_id xc8]} n p ->
       BetweenRightInclusive (test_id xff) p n = true).
Proof.
  destruct (responsible_unique {[test_id x0a; test_id xc8]} (test_id xff)) as (n & H1 & H2 & _);
    [set_solver|]. exists n. split; [exact H1|exact H2].
Defined.

(** The start of finger [i] is the point [2^i] past the node on the circle of
    2^160 points: the conversion through [big.Int] neither loses nor misplaces bytes. *)
Theorem fingerStart_spec (id : NodeID) (i : nat) :
  id_val (fingerStart id i) = (id_val id + 2 ^ Z.of_nat i) mod 2 ^ 160.
Proof. apply id_val_fingerStart. Qed.

(** Printing a [NodeID] with [String] and parsing the text back gives the same
    identifier, so two nodes or groups never share a printed name. *)
Theorem NodeID_hex_roundtrip (id other : NodeID) :
  NodeID_of_hex (NodeID_String id) = Ok id /\
  (NodeID_String id = NodeID_String other -> id = other).
Proof. split; [apply NodeID_of_hex_String|apply NodeID_String_inj]. Qed.
