(* ===== verification/Routing.v ===== *)
(** * Routing state of a Chord node (src/dht/node.go, src/dht/stabilize.go)

    The part of [Node] that [n.mu] guards, and the handlers that read and write it:
    lookup, notification, eviction, stabilization, failure handling and leaving. A
    handler runs over a world [W] that holds the node's own state and gives it the
    transport; a transport call may change anything in the world, the caller's own
    state included, which is how concurrent handlers and calls to oneself show up. *)

From stdpp Require Import base gmap list strings.
From Stdlib Require Import ZArith Lia.
From S2P Require Import Prelude Config Chord.

Set Default Goal Selector "!".
Local Open Scope Z_scope.

(** ** State *)

Definition fingerCount : nat := 160.

Definition maxLookupHops : nat := 160.

(** The fields of [Node] under [n.mu], the sizes fixed by the configuration, and the
    one-slot channel [replicateToSuccessorsSlot] with the count of dropped rounds. *)
Record Routing := mkRouting {
  r_id : NodeID;
  r_addr : string;
  r_successor : NodeAddr;
  r_successorList : list NodeAddr;
  r_predecessor : option NodeAddr;
  r_predecessorList : list NodeAddr;
  r_prevPredID : NodeID;
  r_fingers : list NodeAddr;
  r_nextFinger : nat;
  r_replication : Z;
  r_successorListSize : Z;
  r_slotBusy : bool;
  r_slotDropped : Z
}.

Definition set_addr (x : string) (r : Routing) : Routing :=
  mkRouting r.(r_id) x r.(r_successor) r.(r_successorList) r.(r_predecessor) r.(r_predecessorList)
    r.(r_prevPredID) r.(r_fingers) r.(r_nextFinger) r.(r_replication) r.(r_successorListSize) r.(r_slotBusy) r.(r_slotDropped).

Definition set_successor (x : NodeAddr) (r : Routing) : Routing :=
  mkRouting r.(r_id) r.(r_addr) x r.(r_successorList) r.(r_predecessor) r.(r_predecessorList)
    r.(r_prevPredID) r.(r_fingers) r.(r_nextFinger) r.(r_replication) r.(r_successorListSize) r.(r_slotBusy) r.(r_slotDropped).

Definition set_successorList (x : list NodeAddr) (r : Routing) : Routing :=
  mkRouting r.(r_id) r.(r_addr) r.(r_successor) x r.(r_predecessor) r.(r_predecessorList)
    r.(r_prevPredID) r.(r_fingers) r.(r_nextFinger) r.(r_replication) r.(r_successorListSize) r.(r_slotBusy) r.(r_slotDropped).

Definition set_predecessor (x : option NodeAddr) (r : Routing) : Routing :=
  mkRouting r.(r_id) r.(r_addr) r.(r_successor) r.(r_successorList) x r.(r_predecessorList)
    r.(r_prevPredID) r.(r_fingers) r.(r_nextFinger) r.(r_replication) r.(r_successorListSize) r.(r_slotBusy) r.(r_slotDropped).

Definition set_predecessorList (x : list NodeAddr) (r : Routing) : Routing :=
  mkRouting r.(r_id) r.(r_addr) r.(r_successor) r.(r_successorList) r.(r_predecessor) x
    r.(r_prevPredID) r.(r_fingers) r.(r_nextFinger) r.(r_replication) r.(r_successorListSize) r.(r_slotBusy) r.(r_slotDropped).

Definition set_prevPredID (x : NodeID) (r : Routing) : Routing :=
  mkRouting r.(r_id) r.(r_addr) r.(r_successor) r.(r_successorList) r.(r_predecessor) r.(r_predecessorList)
    x r.(r_fingers) r.(r_nextFinger) r.(r_replication) r.(r_successorListSize) r.(r_slotBusy) r.(r_slotDropped).

Definition set_fingers (x : list NodeAddr) (r : Routing) : Routing :=
  mkRouting r.(r_id) r.(r_addr) r.(r_successor) r.(r_successorList) r.(r_predecessor) r.(r_predecessorList)
    r.(r_prevPredID) x r.(r_nextFinger) r.(r_replication) r.(r_successorListSize) r.(r_slotBusy) r.(r_slotDropped).

Definition set_nextFinger (x : nat) (r : Routing) : Routing :=
  mkRouting r.(r_id) r.(r_addr) r.(r_successor) r.(r_successorList) r.(r_predecessor) r.(r_predecessorList)
    r.(r_prevPredID) r.(r_fingers) x r.(r_replication) r.(r_successorListSize) r.(r_slotBusy) r.(r_slotDropped).

Definition set_slotBusy (x : bool) (r : Routing) : Routing :=
  mkRouting r.(r_id) r.(r_addr) r.(r_successor) r.(r_successorList) r.(r_predecessor) r.(r_predecessorList)
    r.(r_prevPredID) r.(r_fingers) r.(r_nextFinger) r.(r_replication) r.(r_successorListSize) x r.(r_slotDropped).

Definition set_slotDropped (x : Z) (r : Routing) : Routing :=
  mkRouting r.(r_id) r.(r_addr) r.(r_successor) r.(r_successorList) r.(r_predecessor) r.(r_predecessorList)
    r.(r_prevPredID) r.(r_fingers) r.(r_nextFinger) r.(r_replication) r.(r_successorListSize) r.(r_slotBusy) x.

Definition selfAddr (r : Routing) : NodeAddr := mkNodeAddr r.(r_id) r.(r_addr).

(** The goroutines that routing handlers start. *)
Inductive task :=
  | TReplicateToNewSuccessors (oldList newList : list NodeAddr)
  | TTransferKeysRange (target : NodeAddr) (from to : NodeID)
  | TTransferRecordsRange (target : NodeAddr) (from to : NodeID).

(** What a handler sees of the world: its own routing state, the [go] statement, the
    routing part of the [Transport] interface of src/dht/dht.go, and the callback
    [addrRefresher] ([None] when the field is nil). *)
Class NodeEnv (W : Type) := {
  ne_routing : W -> Routing;
  ne_set_routing : Routing -> W -> W;
  ne_spawn : task -> W -> W;
  tr_FindSuccessor : NodeAddr -> NodeID -> M W NodeAddr;
  tr_ClosestPrecedingNode : NodeAddr -> NodeID -> M W (NodeAddr * NodeAddr);
  tr_GetPredecessor : NodeAddr -> M W (option NodeAddr);
  tr_GetSuccessorList : NodeAddr -> M W (list NodeAddr);
  tr_Notify : NodeAddr -> NodeAddr -> M W unit;
  tr_NotifyLeave : NodeAddr -> NodeAddr -> NodeAddr -> NodeAddr -> M W unit;
  tr_Ping : NodeAddr -> M W unit;
  ne_addrRefresher : W -> option (NodeID -> string)
}.

(** [context.Context]: when [ctx.Err()] is not nil. *)
Definition context (W : Type) : Type := W -> option error.

Definition Background {W} : context W := fun _ => None.

(** ** Pure steps on the state *)

(** [NewNode], for the routing fields. *)
Definition NewRouting (id : NodeID) (addr : string) (cfg : Config) : Routing :=
  let self := mkNodeAddr id addr in
  mkRouting id addr self [self] None [] zeroID
    (replicate fingerCount self) 0 (replication cfg) (successorListSize cfg) false 0.

Definition Create (r : Routing) : Routing :=
  let self := selfAddr r in
  set_fingers (replicate fingerCount self)
    (set_predecessor None (set_successorList [self] (set_successor self r))).

(** The scan of the fingers from the highest index down, with its [break]. *)
Fixpoint scan_fingers (self id : NodeID) (fingersFromTop : list NodeAddr) : option NodeAddr :=
  match fingersFromTop with
  | [] => None
  | f :: fs =>
      if BetweenExclusive f.(na_id) self id then Some f else scan_fingers self id fs
  end.

Definition closer_successor (self id : NodeID) (best s : NodeAddr) : NodeAddr :=
  if BetweenExclusive s.(na_id) self id then
    if Equal best.(na_id) self || BetweenExclusive s.(na_id) best.(na_id) id then s else best
  else best.

Definition closestPrecedingNode (r : Routing) (id : NodeID) : NodeAddr :=
  let best := default (selfAddr r) (scan_fingers r.(r_id) id (rev r.(r_fingers))) in
  foldl (closer_successor r.(r_id) id) best r.(r_successorList).

(** [triggerReplicateToNewSuccessors]: the slot admits one round at a time. The second
    component is the goroutine to start. *)
Definition triggerReplicate (oldList newList : list NodeAddr) (r : Routing)
    : Routing * list task :=
  if r.(r_slotBusy) then (set_slotDropped (r.(r_slotDropped) + 1) r, [])
  else (set_slotBusy true r, [TReplicateToNewSuccessors oldList newList]).

(** [evictNode]: the state after the critical section and the trigger. *)
Definition evictNode (dead : NodeID) (r : Routing) : Routing * list task :=
  let self := selfAddr r in
  let fingers := (fun f => if Equal f.(na_id) dead then self else f) <$> r.(r_fingers) in
  let oldList := r.(r_successorList) in
  let newList := filterb (fun s => negb (Equal s.(na_id) dead)) oldList in
  let r' := set_successorList newList (set_fingers fingers r) in
  if negb (Nat.eqb (length oldList) (length newList))
  then triggerReplicate oldList newList r'
  else (r', []).

(** [acceptPredecessor]: the new predecessor is recorded, and the keys and records it
    now owns are transferred unless the range is empty. *)
Definition acceptPredecessor (caller : NodeAddr) (r : Routing) : Routing * list task :=
  let oldPred := r.(r_predecessor) in
  let r' := set_predecessor (Some caller) r in
  if Equal caller.(na_id) r.(r_id) then (r', [])
  else
    let tasks from :=
      [TTransferKeysRange caller from caller.(na_id);
       TTransferRecordsRange caller from caller.(na_id)] in
    match oldPred with
    | Some p => if Equal caller.(na_id) p.(na_id) then (r', []) else (r', tasks p.(na_id))
    | None => (r', tasks r.(r_id))
    end.

Definition handleNotifyLeave (leaver successor predecessor : NodeAddr) (r : Routing) : Routing :=
  let r1 :=
    if Equal r.(r_successor).(na_id) leaver.(na_id) then
      let newList :=
        foldl (fun acc s =>
          if negb (Equal s.(na_id) leaver.(na_id)) && negb (Equal s.(na_id) successor.(na_id))
             && (Z.of_nat (length acc) <? r.(r_successorListSize))
          then acc ++ [s] else acc) [successor] r.(r_successorList) in
      set_successorList newList (set_successor successor r)
    else r in
  match r1.(r_predecessor) with
  | Some p =>
      if Equal p.(na_id) leaver.(na_id) then
        if Equal predecessor.(na_id) leaver.(na_id) then set_predecessor None r1
        else set_predecessor (Some predecessor) r1
      else r1
  | None => r1
  end.

(** [setAddr]: every reference to the node under its old address follows. *)
Definition setAddr (addr : string) (r : Routing) : Routing :=
  let oldSelf := selfAddr r in
  let newSelf := mkNodeAddr r.(r_id) addr in
  let subst x := if bool_decide (x = oldSelf) then newSelf else x in
  set_predecessor (subst <$> r.(r_predecessor))
    (set_fingers (subst <$> r.(r_fingers))
      (set_successorList (subst <$> r.(r_successorList))
        (set_successor (subst r.(r_successor)) (set_addr addr r)))).

(** ** Handlers *)

Section Handlers.
Context {W : Type} `{NodeEnv W}.

Definition getRouting : M W Routing := fun w => (w, Ok (ne_routing w)).

Definition modifyRouting (f : Routing -> Routing) : M W unit := fun w =>
  (ne_set_routing (f (ne_routing w)) w, Ok tt).

(** A critical section that also starts goroutines once the lock is released. *)
Definition modifySpawn (f : Routing -> Routing * list task) : M W unit := fun w =>
  let '(r, ts) := f (ne_routing w) in
  (foldl (fun w t => ne_spawn t w) (ne_set_routing r w) ts, Ok tt).

Definition getSuccessor : M W NodeAddr := r ← getRouting; m_ret r.(r_successor).

Definition getPredecessor : M W (option NodeAddr) := r ← getRouting; m_ret r.(r_predecessor).

(** The hop loop of [FindSuccessor]; [hops] counts down from [maxLookupHops]. *)
Fixpoint lookup_loop (ctx : context W) (self : NodeAddr) (id : NodeID) (hops : nat)
    (candidate : NodeAddr) : M W NodeAddr :=
  match hops with
  | O => m_ret candidate
  | S hops' =>
      w ← m_get;
      match ctx w with
      | Some e => m_err e
      | None =>
          res ← m_try (tr_ClosestPrecedingNode candidate id);
          match res with
          | Err _ =>
              _ ← modifySpawn (evictNode candidate.(na_id));
              r ← getRouting;
              let candidate' := closestPrecedingNode r id in
              if Equal candidate'.(na_id) r.(r_id) then m_ret self
              else lookup_loop ctx self id hops' candidate'
          | Ok (cpn, cSucc) =>
              if BetweenRightInclusive id candidate.(na_id) cSucc.(na_id) then m_ret cSucc
              else if Equal cpn.(na_id) candidate.(na_id) then m_ret cSucc
              else lookup_loop ctx self id hops' cpn
          end
      end
  end.

Definition FindSuccessor (ctx : context W) (id : NodeID) : M W NodeAddr :=
  r ← getRouting;
  let self := selfAddr r in
  let succ := r.(r_successor) in
  if BetweenRightInclusive id r.(r_id) succ.(na_id) then m_ret succ
  else
    let candidate := closestPrecedingNode r id in
    if Equal candidate.(na_id) r.(r_id) then m_ret self
    else lookup_loop ctx self id maxLookupHops candidate.

(** [notify]: the caller is accepted if it is closer than the predecessor, or if the
    predecessor does not answer a ping. *)
Definition closer_predecessor (caller : NodeAddr) (r : Routing) : bool :=
  match r.(r_predecessor) with
  | None => true
  | Some p => BetweenExclusive caller.(na_id) p.(na_id) r.(r_id)
  end.

Definition notify (caller : NodeAddr) : M W unit :=
  r ← getRouting;
  match r.(r_predecessor) with
  | None => modifySpawn (acceptPredecessor caller)
  | Some stalePred =>
      if BetweenExclusive caller.(na_id) stalePred.(na_id) r.(r_id)
      then modifySpawn (acceptPredecessor caller)
      else
        res ← m_try (tr_Ping stalePred);
        match res with
        | Ok _ => m_ret tt
        | Err _ =>
            modifySpawn (fun r1 =>
              let r2 :=
                match r1.(r_predecessor) with
                | Some p => if Equal p.(na_id) stalePred.(na_id) then set_predecessor None r1 else r1
                | None => r1
                end in
              if closer_predecessor caller r2 then acceptPredecessor caller r2 else (r2, []))
        end
  end.

(** The walk of [refreshPredecessorList] from predecessor to predecessor; [n] is the
    number of iterations left. *)
Fixpoint walk_predecessors (self : NodeID) (n : nat) (acc : list NodeAddr) (cur : NodeAddr)
    : M W (list NodeAddr) :=
  match n with
  | O => m_ret acc
  | S n' =>
      if Equal cur.(na_id) self then m_ret acc
      else
        res ← m_try (tr_GetPredecessor cur);
        match res with
        | Ok (Some nextPred) =>
            if Equal nextPred.(na_id) self then m_ret acc
            else if existsb (fun e => Equal e.(na_id) nextPred.(na_id)) acc then m_ret acc
            else walk_predecessors self n' (acc ++ [nextPred]) nextPred
        | _ => m_ret acc
        end
  end.

Definition refreshPredecessorList : M W unit :=
  r ← getRouting;
  match r.(r_predecessor) with
  | None => modifyRouting (set_predecessorList [])
  | Some pred =>
      acc ← walk_predecessors r.(r_id) (Z.to_nat (r.(r_successorListSize) - 1)) [pred] pred;
      modifyRouting (set_predecessorList acc)
  end.

(** The loop that fills the new successor list stops at [successorListSize]. *)
Fixpoint extend_list (size : Z) (acc : list NodeAddr) (succList : list NodeAddr) : list NodeAddr :=
  match succList with
  | [] => acc
  | s :: ss => if size <=? Z.of_nat (length acc) then acc else extend_list size (acc ++ [s]) ss
  end.

Definition refreshSuccessorListAndReplicate (succ : NodeAddr) (oldList : list NodeAddr) : M W unit :=
  res ← m_try (tr_GetSuccessorList succ);
  match res with
  | Err _ => m_ret tt
  | Ok succList =>
      _ ← modifySpawn (fun r =>
            let newList := extend_list r.(r_successorListSize) [succ] succList in
            triggerReplicate oldList newList (set_successorList newList r));
      refreshPredecessorList
  end.

(** The pings of [handleSuccessorFailure], in the order of the list: the suffix that
    starts with the first other node that answers. *)
Fixpoint first_alive (self : NodeID) (succs : list NodeAddr) : M W (option (NodeAddr * list NodeAddr)) :=
  match succs with
  | [] => m_ret None
  | s :: ss =>
      if Equal s.(na_id) self then first_alive self ss
      else
        res ← m_try (tr_Ping s);
        match res with
        | Ok _ => m_ret (Some (s, s :: ss))
        | Err _ => first_alive self ss
        end
  end.

Definition handleSuccessorFailure : M W unit :=
  r ← getRouting;
  found ← first_alive r.(r_id) r.(r_successorList);
  match found with
  | Some (s, suffix) =>
      modifyRouting (fun r1 => set_successorList suffix (set_successor s r1))
  | None =>
      let self := selfAddr r in
      let newList := self :: filterb (fun s => negb (Equal s.(na_id) r.(r_id))) r.(r_successorList) in
      modifyRouting (fun r1 => set_successorList newList (set_successor self r1))
  end.

(** The loop of [tryReconnect] over a snapshot of the list. *)
Fixpoint reconnect_loop (self : NodeID) (refresh : option (NodeID -> string))
    (succs : list NodeAddr) : M W bool :=
  match succs with
  | [] => m_ret false
  | s :: ss =>
      if Equal s.(na_id) self then reconnect_loop self refresh ss
      else
        res ← m_try (tr_Ping s);
        match res with
        | Ok _ =>
            _ ← modifyRouting (fun r => set_successorList [s] (set_successor s r));
            m_ret true
        | Err _ =>
            match refresh with
            | None => reconnect_loop self refresh ss
            | Some f =>
                let newAddr := f s.(na_id) in
                if bool_decide (newAddr = "") || bool_decide (newAddr = s.(na_addr))
                then reconnect_loop self refresh ss
                else
                  let updated := mkNodeAddr s.(na_id) newAddr in
                  res2 ← m_try (tr_Ping updated);
                  match res2 with
                  | Ok _ =>
                      _ ← modifyRouting (fun r => set_successorList [updated] (set_successor updated r));
                      m_ret true
                  | Err _ => reconnect_loop self refresh ss
                  end
            end
        end
  end.

Definition tryReconnect : M W bool :=
  r ← getRouting;
  w ← m_get;
  reconnect_loop r.(r_id) (ne_addrRefresher w) r.(r_successorList).

Definition stabilize : M W unit :=
  r ← getRouting;
  let succ := r.(r_successor) in
  let savedOldList := r.(r_successorList) in
  res ← m_try (tr_GetPredecessor succ);
  match res with
  | Err _ =>
      _ ← handleSuccessorFailure;
      succ' ← getSuccessor;
      if Equal succ'.(na_id) r.(r_id) then m_ret tt
      else refreshSuccessorListAndReplicate succ' savedOldList
  | Ok pred =>
      succ' ←
        match pred with
        | Some p =>
            if BetweenExclusive p.(na_id) r.(r_id) succ.(na_id) then
              res2 ← m_try (tr_Ping p);
              match res2 with
              | Ok _ => _ ← modifyRouting (set_successor p); m_ret p
              | Err _ => m_ret succ
              end
            else m_ret succ
        | None => m_ret succ
        end;
      _ ← m_ignore (tr_Notify succ' (selfAddr r));
      if Equal succ'.(na_id) r.(r_id) then
        _ ← tryReconnect; m_ret tt
      else refreshSuccessorListAndReplicate succ' savedOldList
  end.

(** [fixFinger]: one entry of the table per call, round robin. *)
Definition fixFinger : M W unit :=
  r ← getRouting;
  let i := r.(r_nextFinger) in
  _ ← modifyRouting (fun r1 => set_nextFinger (Nat.modulo (S r1.(r_nextFinger)) fingerCount) r1);
  res ← m_try (FindSuccessor Background (fingerStart r.(r_id) i));
  match res with
  | Err _ => m_ret tt
  | Ok succ => modifyRouting (fun r1 => set_fingers (<[i := succ]> r1.(r_fingers)) r1)
  end.

Definition FixAllFingers : M W unit := m_forM (seq 0 fingerCount) (fun _ => fixFinger).

Definition checkPredecessor : M W unit :=
  r ← getRouting;
  match r.(r_predecessor) with
  | None => m_ret tt
  | Some pred =>
      res ← m_try (tr_Ping pred);
      match res with
      | Ok _ => m_ret tt
      | Err _ => modifyRouting (set_predecessor None)
      end
  end.

Definition StabilizeFull : M W unit :=
  _ ← checkPredecessor; _ ← stabilize; FixAllFingers.

(** [RingBlockRange]: [Some (low, high)] is the [ok] case. *)
Fixpoint walk_low (n : nat) (low : NodeID) (current : NodeAddr) : M W (option NodeID) :=
  match n with
  | O => m_ret (Some low)
  | S n' =>
      res ← m_try (tr_GetPredecessor current);
      match res with
      | Ok (Some prevPred) => walk_low n' prevPred.(na_id) prevPred
      | _ => m_ret None
      end
  end.

Definition RingBlockRange : M W (option (NodeID * NodeID)) :=
  r ← getRouting;
  match r.(r_predecessor) with
  | None => m_ret None
  | Some pred =>
      res ← m_try (tr_Ping pred);
      match res with
      | Err _ =>
          _ ← modifyRouting (fun r1 =>
                match r1.(r_predecessor) with
                | Some p => if Equal p.(na_id) pred.(na_id) then set_predecessor None r1 else r1
                | None => r1
                end);
          m_ret None
      | Ok _ =>
          low ← walk_low (Z.to_nat (r.(r_replication) - 1)) pred.(na_id) pred;
          m_ret ((fun l => (l, r.(r_id))) <$> low)
      end
  end.

(** [Join], up to the transfer of keys and records: the successor comes from the
    bootstrap node; [Some (succ, from)] says the keys in (from, n.id] are then pulled from
    [succ]. *)
Definition Join_routing (bootstrap : NodeAddr) : M W (option (NodeAddr * NodeID)) :=
  r ← getRouting;
  res ← m_try (tr_FindSuccessor bootstrap r.(r_id));
  match res with
  | Err e => m_err (errorf_w "find successor: " e "")
  | Ok succ =>
      _ ← modifyRouting (fun r1 => set_successorList [succ] (set_successor succ r1));
      pres ← m_try (tr_GetPredecessor succ);
      match pres with
      | Ok (Some pred) =>
          if Equal pred.(na_id) r.(r_id) then m_ret None else m_ret (Some (succ, pred.(na_id)))
      | _ => m_ret None
      end
  end.

(** [Leave], after the blocks and records were pushed to the successor: both neighbours
    are told. *)
Definition Leave_routing : M W unit :=
  r ← getRouting;
  let succ := r.(r_successor) in
  let pred := r.(r_predecessor) in
  let self := selfAddr r in
  if Equal succ.(na_id) r.(r_id) then m_ret tt
  else
    let predAddr := default self pred in
    _ ← m_ignore (tr_NotifyLeave succ self succ predAddr);
    match pred with
    | Some p =>
        if Equal p.(na_id) r.(r_id) then m_ret tt
        else m_ignore (tr_NotifyLeave p self succ predAddr)
    | None => m_ret tt
    end.

End Handlers.
