(* ===== verification/Lookup.v ===== *)
(** * Lookup in a stabilized ring

    [FindSuccessor] of src/dht/node.go, run against a transport that answers as the
    members of a stabilized ring answer. The specification is [key_owner] of Chord.v.
    The main lemma is Chord's halving argument for this code: the closest preceding
    finger at least halves the distance to the predecessor of the key, so the 160 hops
    of [maxLookupHops] are enough for every ring. *)

From stdpp Require Import base gmap list strings.
From Stdlib Require Import ZArith Lia.
From S2P Require Import Prelude Chord Routing.

Set Default Goal Selector "!".
Local Open Scope Z_scope.

(** ** Stabilized routing tables *)

(** What the state [r] of member [n] must be in a stabilized ring of members [R]: its
    successor is the next member, the backups are members, and finger [i] is the owner
    of the point [2^i] past [n]. *)
Record stabilized (R : gset NodeID) (n : NodeID) (r : Routing) : Prop := {
  st_id : r.(r_id) = n;
  st_successor : ring_succ R n r.(r_successor).(na_id);
  st_successorList : Forall (fun s => s.(na_id) ∈ R) r.(r_successorList);
  st_fingers : forall i : nat, (i < fingerCount)%nat ->
    exists f, r.(r_fingers) !! i = Some f /\ key_owner R (fingerStart n i) f.(na_id);
  st_fingers_length : length r.(r_fingers) = fingerCount
}.

(** ** Positions relative to a member *)

Lemma finger_dist R n f (j : nat) :
  (j < 160)%nat -> n ∈ R -> key_owner R (fingerStart n j) f -> f <> n ->
  2 ^ Z.of_nat j <= dist n f.
Proof.
  intros Hj Hn [Hf Hmin] Hne. specialize (Hmin n Hn).
  assert (2 ^ Z.of_nat j < 2 ^ 160) by (apply Z.pow_lt_mono_r; lia).
  assert (0 < 2 ^ Z.of_nat j) by (apply Z.pow_pos_nonneg; lia).
  assert (id_val f <> id_val n) by (by intros ?%id_val_inj).
  pose proof (id_val_fingerStart n j) as Hs.
  set (s := fingerStart n j) in *. clearbody s. set (d := 2 ^ Z.of_nat j) in *. clearbody d.
  pose proof (id_val_range n). pose proof (id_val_range f). pose proof (id_val_range s).
  assert (id_val s = id_val n + d \/ id_val s = id_val n + d - 2 ^ 160) as Hs'.
  { rewrite Hs. destruct (Z.lt_ge_cases (id_val n + d) (2 ^ 160)).
    - left. apply Z.mod_small. lia.
    - right. rewrite <- (Z.mod_add _ (-1)), Z.mod_small; lia. }
  ring_lia.
Qed.

(** The finger that starts no further than member [p] points no further than [p]. *)
Lemma finger_before R n f p (i : nat) :
  (i < 160)%nat -> p ∈ R -> key_owner R (fingerStart n i) f ->
  2 ^ Z.of_nat i <= dist n p -> f <> n /\ dist n f <= dist n p.
Proof.
  intros Hi Hp [Hf Hmin] Hd. specialize (Hmin p Hp).
  assert (0 < 2 ^ Z.of_nat i) by (apply Z.pow_pos_nonneg; lia).
  assert (2 ^ Z.of_nat i < 2 ^ 160) by (apply Z.pow_lt_mono_r; lia).
  pose proof (id_val_fingerStart n i) as Hs.
  set (s := fingerStart n i) in *. clearbody s. set (d := 2 ^ Z.of_nat i) in *. clearbody d.
  pose proof (id_val_range n). pose proof (id_val_range f). pose proof (id_val_range s).
  assert (id_val s = id_val n + d \/ id_val s = id_val n + d - 2 ^ 160) as Hs'.
  { rewrite Hs. destruct (Z.lt_ge_cases (id_val n + d) (2 ^ 160)).
    - left. apply Z.mod_small. lia.
    - right. rewrite <- (Z.mod_add _ (-1)), Z.mod_small; lia. }
  split; [intros ->|]; ring_lia.
Qed.

Lemma dist_lt_gap n x id : x <> n -> dist n x < gap n id <-> gap n x < gap n id.
Proof. intros H. by rewrite dist_gap. Qed.

(** ** [closestPrecedingNode] *)

Lemma scan_fingers_Some self id fs f :
  scan_fingers self id (rev fs) = Some f ->
  exists j, fs !! j = Some f /\ BetweenExclusive f.(na_id) self id = true /\
    forall j' f', (j < j')%nat -> fs !! j' = Some f' -> BetweenExclusive f'.(na_id) self id = false.
Proof.
  induction fs as [|x fs IH] using rev_ind; [done|].
  rewrite rev_app_distr. cbn [rev app scan_fingers].
  destruct (BetweenExclusive x.(na_id) self id) eqn:E; intros Hs; simplify_eq.
  - exists (length fs). rewrite list_lookup_middle by done. split_and!; [done..|].
    intros j' f' Hj Hl. apply lookup_lt_Some in Hl. rewrite length_app in Hl. cbn in Hl. lia.
  - destruct (IH Hs) as (j & Hj & Hf & Hmax). exists j.
    pose proof (lookup_lt_Some _ _ _ Hj). split_and!; [by rewrite lookup_app_l|done|].
    intros j' f' Hlt Hl. apply lookup_app_Some in Hl as [Hl|[Hge Hl]]; [by eapply Hmax|].
    apply list_lookup_singleton_Some in Hl as [_ <-]. done.
Qed.

Lemma scan_fingers_None self id fs :
  scan_fingers self id (rev fs) = None ->
  forall f, f ∈ fs -> BetweenExclusive f.(na_id) self id = false.
Proof.
  intros Hs f Hf. rewrite <- (rev_involutive fs) in Hf. apply list_elem_of_In in Hf.
  apply in_rev in Hf. apply list_elem_of_In in Hf.
  revert Hs Hf. induction (rev fs) as [|x l IH]; cbn [scan_fingers]; intros Hs Hf.
  - by apply elem_of_nil in Hf.
  - destruct (BetweenExclusive x.(na_id) self id) eqn:E; [done|].
    apply elem_of_cons in Hf as [->|Hf]; auto.
Qed.

Section ClosestPreceding.
Context (R : gset NodeID) (n : NodeID) (r : Routing).
Hypothesis Hn : n ∈ R.
Hypothesis Hst : stabilized R n r.

(** A candidate is the member itself or a member strictly before the key. *)
Definition candidate_ok (id : NodeID) (b : NodeAddr) : Prop :=
  b.(na_id) ∈ R /\ (b.(na_id) = n \/ gap n b.(na_id) < gap n id).

Lemma closer_successor_ok id b s :
  s.(na_id) ∈ R -> candidate_ok id b ->
  candidate_ok id (closer_successor n id b s) /\
  dist n b.(na_id) <= dist n (closer_successor n id b s).(na_id).
Proof.
  intros Hs [Hb Hpos]. unfold closer_successor.
  destruct (BetweenExclusive s.(na_id) n id) eqn:E1; [|split; [done|lia]].
  apply BetweenExclusive_true in E1.
  destruct (Equal b.(na_id) n || BetweenExclusive s.(na_id) b.(na_id) id) eqn:E2;
    [|split; [done|lia]].
  split; [split; [done|by right]|].
  apply orb_true_iff in E2 as [E2|E2].
  - apply Equal_true in E2 as ->. rewrite dist_self. apply dist_range.
  - apply BetweenExclusive_true in E2. destruct Hpos as [->|Hpos].
    + rewrite dist_self. apply dist_range.
    + set (x := s.(na_id)) in *. set (y := b.(na_id)) in *. clearbody x y. ring_lia.
Qed.

Lemma closer_successors_ok id l b :
  Forall (fun s => s.(na_id) ∈ R) l -> candidate_ok id b ->
  candidate_ok id (foldl (closer_successor n id) b l) /\
  dist n b.(na_id) <= dist n (foldl (closer_successor n id) b l).(na_id).
Proof.
  revert b. induction l as [|s l IH]; intros b Hl Hb; cbn [foldl]; [split; [done|lia]|].
  apply Forall_cons in Hl as [Hs Hl].
  destruct (closer_successor_ok id b s Hs Hb) as [Hb' Hd].
  destruct (IH _ Hl Hb') as [Hb'' Hd']. split; [done|lia].
Qed.

Lemma first_candidate_ok id :
  candidate_ok id (default (selfAddr r) (scan_fingers n id (rev r.(r_fingers)))).
Proof.
  destruct (scan_fingers n id (rev r.(r_fingers))) as [f|] eqn:E; simpl default.
  - apply scan_fingers_Some in E as (j & Hj & Hf & _).
    apply BetweenExclusive_true in Hf. split; [|by right].
    pose proof (lookup_lt_Some _ _ _ Hj) as Hlt. rewrite (st_fingers_length _ _ _ Hst) in Hlt.
    destruct (st_fingers _ _ _ Hst j Hlt) as (f' & Hf' & Hown & _). by simplify_eq.
  - unfold candidate_ok, selfAddr. cbn [na_id]. rewrite (st_id _ _ _ Hst). auto.
Qed.

(** The halving step: past any power of two that a preceding member is past. *)
Lemma closestPrecedingNode_ok id :
  candidate_ok id (closestPrecedingNode r id) /\
  forall p (i : nat), (i < 160)%nat -> p ∈ R -> gap n p < gap n id ->
    2 ^ Z.of_nat i <= dist n p -> 2 ^ Z.of_nat i <= dist n (closestPrecedingNode r id).(na_id).
Proof.
  unfold closestPrecedingNode. rewrite (st_id _ _ _ Hst).
  destruct (closer_successors_ok id r.(r_successorList) _
    (st_successorList _ _ _ Hst) (first_candidate_ok id)) as [Hok Hd].
  split; [done|]. intros p i Hi Hp Hgap Hpow. eapply Z.le_trans; [|exact Hd].
  destruct (st_fingers _ _ _ Hst i Hi) as (f & Hf & Hown).
  destruct (finger_before _ _ _ _ _ Hi Hp Hown Hpow) as [Hfn Hle].
  assert (p <> n) as Hpn.
  { intros ->. rewrite dist_self in Hle.
    pose proof (Z.pow_pos_nonneg 2 (Z.of_nat i)). rewrite dist_self in Hpow. lia. }
  assert (BetweenExclusive f.(na_id) n id = true) as Hbe.
  { apply BetweenExclusive_true. rewrite !dist_gap in Hle by done. lia. }
  destruct (scan_fingers n id (rev r.(r_fingers))) as [g|] eqn:E; simpl default.
  - apply scan_fingers_Some in E as (j & Hj & Hg & Hmax).
    destruct (Nat.lt_ge_cases j i) as [Hlt|Hge].
    { rewrite (Hmax i f Hlt Hf) in Hbe. done. }
    pose proof (lookup_lt_Some _ _ _ Hj) as Hltj. rewrite (st_fingers_length _ _ _ Hst) in Hltj.
    destruct (st_fingers _ _ _ Hst j Hltj) as (g' & Hg' & Hown'). simplify_eq.
    eapply Z.le_trans; [apply (Z.pow_le_mono_r 2 (Z.of_nat i) (Z.of_nat j)); lia|].
    eapply finger_dist; [done..|]. intros Heq. rewrite Heq in Hg.
    apply BetweenExclusive_true in Hg. rewrite gap_self in Hg. pose proof (gap_range n id). lia.
  - rewrite (scan_fingers_None _ _ _ E f) in Hbe; [done|].
    apply list_elem_of_lookup. eauto.
Qed.

End ClosestPreceding.

(** ** The hop loop *)

(** The member that precedes the key, seen from another member [c]. *)
Lemma pred_between R id p c :
  ring_pred R id p -> c ∈ R -> c <> p -> gap c p < gap c id.
Proof.
  intros [Hp Hmin] Hc Hne. specialize (Hmin c Hc).
  assert (id_val c <> id_val p) by (by intros ?%id_val_inj). gap_lia.
Qed.

Lemma pred_owner_succ R id p s :
  ring_pred R id p -> ring_succ R p s -> BetweenRightInclusive id p s = true.
Proof.
  intros [Hp Hmin] [Hs Hmin']. apply BetweenRightInclusive_true.
  specialize (Hmin s Hs). specialize (Hmin' p Hp). gap_lia.
Qed.

(** Distance left to the preceding member after one hop. *)
Lemma hop_progress R id p c b (h : nat) :
  ring_pred R id p -> b ∈ R -> gap c b < gap c id -> 0 < dist c p ->
  2 ^ Z.log2 (dist c p) <= dist c b -> dist c p < 2 ^ Z.of_nat (S h) ->
  dist b p < 2 ^ Z.of_nat h.
Proof.
  intros [Hp Hmin] Hb Hgap Hpos Hlog Hbound. specialize (Hmin b Hb).
  pose proof (Z.log2_spec _ Hpos) as [Hlo Hhi].
  assert (Z.log2 (dist c p) < Z.of_nat (S h)) as Hlt by (apply Z.log2_lt_pow2; lia).
  assert (2 ^ Z.log2 (dist c p) <= 2 ^ Z.of_nat h) by (apply Z.pow_le_mono_r; lia).
  rewrite Z.pow_succ_r in Hhi by apply Z.log2_nonneg.
  assert (0 < 2 ^ Z.log2 (dist c p)) as Hpow by (apply Z.pow_pos_nonneg; [lia|apply Z.log2_nonneg]).
  enough (dist b p = dist c p - dist c b) by lia.
  clear - Hmin Hgap Hpos Hlog Hpow. set (q := 2 ^ _) in *. clearbody q. ring_lia.
Qed.

(** The lemmas' view of a world [w]: the transport answers for each member from its table
    and changes nothing. *)
Class StabilizedNet {W : Type} `{NodeEnv W} (R : gset NodeID) (tables : NodeID -> Routing) (w : W) := {
  sn_stabilized : forall n, n ∈ R -> stabilized R n (tables n);
  sn_answer : forall t id, t.(na_id) ∈ R ->
    tr_ClosestPrecedingNode t id w =
      (w, Ok (closestPrecedingNode (tables t.(na_id)) id, (tables t.(na_id)).(r_successor)))
}.

Section LookupLoop.
Context {W : Type} `{NodeEnv W} (R : gset NodeID) (tables : NodeID -> Routing) (w : W).
Context `{!StabilizedNet R tables w}.

(** What one member does with a key it does not hand to its own successor: its closest
    preceding node is another member, half as far from the key's predecessor. *)
Lemma hop_ok id p c (h : nat) :
  c ∈ R -> ring_pred R id p ->
  BetweenRightInclusive id c (tables c).(r_successor).(na_id) = false ->
  dist c p < 2 ^ Z.of_nat h -> (h <= 160)%nat ->
  exists h', h = S h' /\ (closestPrecedingNode (tables c) id).(na_id) ∈ R /\
    (closestPrecedingNode (tables c) id).(na_id) <> c /\
    dist (closestPrecedingNode (tables c) id).(na_id) p < 2 ^ Z.of_nat h'.
Proof.
  intros Hc Hp Hri Hd Hh. pose proof (sn_stabilized c Hc) as Hst.
  assert (c <> p) as Hne.
  { intros ->. rewrite (pred_owner_succ _ _ _ _ Hp (st_successor _ _ _ Hst)) in Hri. done. }
  pose proof (pred_between _ _ _ _ Hp Hc Hne) as Hgap.
  assert (0 < dist c p) as Hpos.
  { pose proof (dist_range c p). enough (dist c p <> 0) by lia.
    rewrite <- (dist_self c). by intros ?%dist_inj. }
  destruct (closestPrecedingNode_ok R c (tables c) Hc Hst id) as [[HbR Hb] Hhalf].
  set (b := (closestPrecedingNode (tables c) id).(na_id)) in *.
  assert (Z.log2 (dist c p) < 160).
  { apply Z.log2_lt_pow2; [done|]. pose proof (dist_range c p). lia. }
  assert (2 ^ Z.log2 (dist c p) <= dist c b) as Hlog.
  { specialize (Hhalf p (Z.to_nat (Z.log2 (dist c p)))).
    rewrite Z2Nat.id in Hhalf by apply Z.log2_nonneg.
    apply Hhalf; [lia|apply Hp|done|]. by apply Z.log2_spec. }
  assert (b <> c) as Hbc.
  { intros E. rewrite E, dist_self in Hlog.
    pose proof (Z.pow_pos_nonneg 2 (Z.log2 (dist c p)) ltac:(lia) (Z.log2_nonneg _)). lia. }
  destruct h as [|h']; [rewrite Z.pow_0_r in Hd; lia|].
  exists h'. split_and!; [done..|].
  eapply hop_progress; [done..| |done|done|done]. by destruct Hb.
Qed.

Lemma lookup_loop_ok ctx self id p (h : nat) c :
  ctx w = None -> c.(na_id) ∈ R -> ring_pred R id p -> (h <= 160)%nat ->
  dist c.(na_id) p < 2 ^ Z.of_nat h ->
  exists a, lookup_loop ctx self id (S h) c w = (w, Ok a) /\ key_owner R id a.(na_id).
Proof.
  intros Hctx Hc Hp. revert c Hc.
  induction h as [|h IH]; intros c Hc Hh Hd; cbn [lookup_loop];
    unfold mbind, M_bind, m_bind, m_get, m_try, m_ret; rewrite Hctx, sn_answer by done;
    destruct (BetweenRightInclusive id _ _) eqn:E;
    try (eexists; split; [done|]; eapply ring_succ_owner; [|exact E];
         apply (st_successor _ _ _ (sn_stabilized _ Hc)));
    destruct (hop_ok id p _ _ Hc Hp E Hd) as (h' & ? & Hb & Hne & Hd'); [done|lia|lia|].
  simplify_eq. rewrite (proj2 (Equal_false _ _) Hne). apply IH; [done|lia|done].
Qed.

Lemma FindSuccessor_ok ctx self id :
  ctx w = None -> self ∈ R -> ne_routing w = tables self ->
  exists a, FindSuccessor ctx id w = (w, Ok a) /\ key_owner R id a.(na_id).
Proof.
  intros Hctx Hself Hr. unfold FindSuccessor, getRouting, mbind, M_bind, m_bind.
  rewrite Hr, (st_id _ _ _ (sn_stabilized _ Hself)).
  destruct (BetweenRightInclusive id self _) eqn:E.
  - eexists. split; [done|]. eapply ring_succ_owner; [|exact E].
    apply (st_successor _ _ _ (sn_stabilized _ Hself)).
  - destruct (argmin_exists (fun x => gap x id) R) as (p & Hp & Hmin); [set_solver|].
    destruct (hop_ok id p self 160 Hself (conj Hp Hmin) E) as (h' & ? & Hb & Hne & Hd');
      [apply dist_range|lia|].
    rewrite (proj2 (Equal_false _ _) Hne). simplify_eq.
    apply (lookup_loop_ok _ _ _ p 159); [done..|lia|done].
Qed.

End LookupLoop.
