(* ===== verification/Cluster.v ===== *)
(** * A cluster of nodes and its transport (src/dht/local.go)

    [TestRing] holds the nodes of one process and the pairs that cannot talk;
    [localTransport] finds the target and runs the handler of the remote node, as the RPC
    server of src/dht/rpc.go does on the other side of a connection. The cluster is the
    world in which the handlers of Routing.v run, and on which the routing theorems are
    stated. *)

From stdpp Require Import base gmap list strings.
From Stdlib Require Import ZArith Lia Strings.Byte.
From S2P Require Import Prelude Config Chord Routing Lookup.

Set Default Goal Selector "!".
Local Open Scope Z_scope.

(** ** [TestRing] *)

(** [cl_order] is the slice [Nodes]; [cl_tasks] are the goroutines started and not yet
    run, each with the node that started it. *)
Record Cluster := mkCluster {
  cl_order : list NodeID;
  cl_nodes : gmap NodeID Routing;
  cl_blocked : gset (NodeID * NodeID);
  cl_tasks : list (NodeID * task)
}.

Definition NewTestRing : Cluster := mkCluster [] ∅ ∅ [].

Definition cl_set_nodes (f : gmap NodeID Routing -> gmap NodeID Routing) (c : Cluster) : Cluster :=
  mkCluster c.(cl_order) (f c.(cl_nodes)) c.(cl_blocked) c.(cl_tasks).

Definition cl_set_blocked (f : gset (NodeID * NodeID) -> gset (NodeID * NodeID)) (c : Cluster) : Cluster :=
  mkCluster c.(cl_order) c.(cl_nodes) (f c.(cl_blocked)) c.(cl_tasks).

Definition cl_spawn (self : NodeID) (t : task) (c : Cluster) : Cluster :=
  mkCluster c.(cl_order) c.(cl_nodes) c.(cl_blocked) (c.(cl_tasks) ++ [(self, t)]).

Definition Partition (a b : NodeID) : Cluster -> Cluster :=
  cl_set_blocked (fun s => {[(a, b); (b, a)]} ∪ s).

Definition Heal (a b : NodeID) : Cluster -> Cluster :=
  cl_set_blocked (fun s => s ∖ {[(a, b); (b, a)]}).

(** [RemoveNode] deletes the first entry of the slice with that id. *)
Fixpoint remove_first (id : NodeID) (l : list NodeID) : list NodeID :=
  match l with
  | [] => []
  | x :: l' => if Equal x id then l' else x :: remove_first id l'
  end.

Definition RemoveNode (id : NodeID) (c : Cluster) : Cluster :=
  mkCluster (remove_first id c.(cl_order)) (delete id c.(cl_nodes)) c.(cl_blocked) c.(cl_tasks).

Definition canReach (c : Cluster) (from to : NodeID) : bool :=
  bool_decide (is_Some (c.(cl_nodes) !! to)) && negb (bool_decide ((from, to) ∈ c.(cl_blocked))).

Definition getNode (c : Cluster) (from to : NodeID) : option Routing :=
  if bool_decide ((from, to) ∈ c.(cl_blocked)) then None else c.(cl_nodes) !! to.

(** ** [localTransport] *)

Definition unreachable (target : NodeAddr) : error :=
  errorf ("node " +:+ NodeID_String target.(na_id) +:+ " unreachable").

(** [resolve], then a handler of the target that only reads its state. *)
Definition resolve_read {A} (self : NodeID) (target : NodeAddr) (f : Routing -> A) : M Cluster A :=
  fun c =>
    match getNode c self target.(na_id) with
    | None => (c, Err (unreachable target))
    | Some node => (c, Ok (f node))
    end.

(** [resolve], then a handler that runs at the target. *)
Definition resolve_run {A} (self : NodeID) (target : NodeAddr) (h : M Cluster A) : M Cluster A :=
  fun c =>
    match getNode c self target.(na_id) with
    | None => (c, Err (unreachable target))
    | Some _ => h c
    end.

(** The state of a node that runs handlers; a handler only runs at a member. *)
Definition node_state (self : NodeID) (c : Cluster) : Routing :=
  default (NewRouting self "" (config_with_replication 1)) (c.(cl_nodes) !! self).

(** The transport seen by [notify] and [FindSuccessor] when they run at the target of a
    call: neither calls [Notify] or [FindSuccessor] on its transport. *)
Definition leaf_env (self : NodeID) : NodeEnv Cluster := {|
  ne_routing := node_state self;
  ne_set_routing := fun r => cl_set_nodes (<[self := r]>);
  ne_spawn := cl_spawn self;
  tr_FindSuccessor := fun _ _ => m_err (errorf "not called");
  tr_ClosestPrecedingNode := fun target id =>
    resolve_read self target (fun node => (closestPrecedingNode node id, node.(r_successor)));
  tr_GetPredecessor := fun target => resolve_read self target r_predecessor;
  tr_GetSuccessorList := fun target => resolve_read self target r_successorList;
  tr_Notify := fun _ _ => m_err (errorf "not called");
  tr_NotifyLeave := fun _ _ _ _ => m_err (errorf "not called");
  tr_Ping := fun target c =>
    if canReach c self target.(na_id) then (c, Ok tt) else (c, Err (unreachable target));
  ne_addrRefresher := fun _ => None
|}.

Definition local_FindSuccessor (self : NodeID) (target : NodeAddr) (id : NodeID) : M Cluster NodeAddr :=
  resolve_run self target (@FindSuccessor _ (leaf_env target.(na_id)) Background id).

Definition local_ClosestPrecedingNode (self : NodeID) (target : NodeAddr) (id : NodeID)
    : M Cluster (NodeAddr * NodeAddr) :=
  resolve_read self target (fun node => (closestPrecedingNode node id, node.(r_successor))).

Definition local_GetPredecessor (self : NodeID) (target : NodeAddr) : M Cluster (option NodeAddr) :=
  resolve_read self target r_predecessor.

Definition local_GetSuccessorList (self : NodeID) (target : NodeAddr) : M Cluster (list NodeAddr) :=
  resolve_read self target r_successorList.

Definition local_Notify (self : NodeID) (target caller : NodeAddr) : M Cluster unit :=
  resolve_run self target (@notify _ (leaf_env target.(na_id)) caller).

Definition local_NotifyLeave (self : NodeID) (target leaver successor predecessor : NodeAddr)
    : M Cluster unit :=
  resolve_run self target
    (@modifyRouting _ (leaf_env target.(na_id)) (handleNotifyLeave leaver successor predecessor)).

Definition local_Ping (self : NodeID) (target : NodeAddr) : M Cluster unit := fun c =>
  if canReach c self target.(na_id) then (c, Ok tt) else (c, Err (unreachable target)).

(** The world as node [self] sees it through its [localTransport]. *)
Definition localTransport (self : NodeID) : NodeEnv Cluster := {|
  ne_routing := node_state self;
  ne_set_routing := fun r => cl_set_nodes (<[self := r]>);
  ne_spawn := cl_spawn self;
  tr_FindSuccessor := local_FindSuccessor self;
  tr_ClosestPrecedingNode := local_ClosestPrecedingNode self;
  tr_GetPredecessor := local_GetPredecessor self;
  tr_GetSuccessorList := local_GetSuccessorList self;
  tr_Notify := local_Notify self;
  tr_NotifyLeave := local_NotifyLeave self;
  tr_Ping := local_Ping self;
  ne_addrRefresher := fun _ => None
|}.

(** ** Rounds over all the nodes *)

Definition at_node {A} (h : forall W, NodeEnv W -> M W A) (self : NodeID) : M Cluster A :=
  h Cluster (localTransport self).

Definition StabilizeAll : M Cluster unit :=
  c ← m_get;
  _ ← m_forM c.(cl_order) (at_node (fun W E => @stabilize W E));
  _ ← m_forM c.(cl_order) (at_node (fun W E => @fixFinger W E));
  m_forM c.(cl_order) (at_node (fun W E => @checkPredecessor W E)).

(** [AddNode], given the id and address of the new node; [repl] is [r.Replication]. *)
Definition AddNode (id : NodeID) (addr : string) (repl : Z) (c : Cluster) : Cluster :=
  let node := NewRouting id addr (config_with_replication repl) in
  let c1 := mkCluster (c.(cl_order) ++ [id]) (<[id := node]> c.(cl_nodes)) c.(cl_blocked) c.(cl_tasks) in
  match c.(cl_order) with
  | [] => cl_set_nodes (alter Create id) c1
  | first :: _ =>
      (@Join_routing _ (localTransport id) (selfAddr (node_state first c1)) c1).1
  end.

(** ** Stabilized clusters *)

Definition stabilized_cluster (c : Cluster) : Prop :=
  forall n r, c.(cl_nodes) !! n = Some r -> stabilized (dom c.(cl_nodes)) n r.

(** Such a cluster exists for every set of members: the tables computed from the set. *)
Definition argmin (f : NodeID -> Z) (x : NodeID) (xs : list NodeID) : NodeID :=
  foldl (fun b y => if f y <? f b then y else b) x xs.

Definition ideal_routing (R : gset NodeID) (n : NodeID) : Routing :=
  let addr id := mkNodeAddr id "" in
  let owner k := argmin (dist k) n (elements R) in
  let succ := argmin (gap n) n (elements R) in
  let pred := argmin (fun y => gap y n) n (elements R) in
  mkRouting n "" (addr succ) [addr succ] (Some (addr pred)) [] zeroID
    ((fun i => addr (owner (fingerStart n i))) <$> seq 0 fingerCount) 0 3 5 false 0.

Definition ideal_cluster (R : gset NodeID) : Cluster :=
  mkCluster (elements R) (set_to_map (fun n => (n, ideal_routing R n)) R) ∅ [].

Lemma argmin_spec f x xs :
  argmin f x xs ∈ x :: xs /\ forall y, y ∈ x :: xs -> f (argmin f x xs) <= f y.
Proof.
  revert x. induction xs as [|z xs IH]; intros x; cbn [argmin foldl].
  - split; [set_solver|]. intros y Hy. assert (y = x) as -> by set_solver. lia.
  - destruct (IH (if f z <? f x then z else x)) as [Hin Hmin]. fold (argmin f) in *.
    change (foldl _ ?a xs) with (argmin f a xs). destruct (Z.ltb_spec (f z) (f x)).
    + split; [set_solver|]. intros y [->|Hy]%elem_of_cons.
      * specialize (Hmin z ltac:(set_solver)). lia.
      * auto.
    + split; [set_solver|]. intros y [->|[->|Hy]%elem_of_cons]%elem_of_cons.
      * apply Hmin. set_solver.
      * specialize (Hmin x ltac:(set_solver)). lia.
      * apply Hmin. set_solver.
Qed.

Lemma argmin_member f x (R : gset NodeID) :
  x ∈ R -> argmin f x (elements R) ∈ R /\ forall y, y ∈ R -> f (argmin f x (elements R)) <= f y.
Proof.
  intros Hx. destruct (argmin_spec f x (elements R)) as [Hin Hmin]. split.
  - apply elem_of_cons in Hin as [->|Hin]; [done|]. by apply elem_of_elements.
  - intros y Hy. apply Hmin, elem_of_cons. right. by apply elem_of_elements.
Qed.

Lemma ideal_routing_stabilized R n : n ∈ R -> stabilized R n (ideal_routing R n).
Proof.
  intros Hn. split; cbn [ideal_routing r_id r_successor r_successorList r_fingers na_id].
  - done.
  - by apply argmin_member.
  - apply Forall_singleton. by apply argmin_member.
  - intros i Hi. eexists. split.
    + rewrite list_lookup_fmap, lookup_seq_lt by done. reflexivity.
    + cbn [na_id]. by apply argmin_member.
  - by rewrite length_fmap, length_seq.
Qed.

Lemma ideal_cluster_dom R : dom (ideal_cluster R).(cl_nodes) = R.
Proof.
  cbn. apply set_eq. intros n. rewrite elem_of_dom. split.
  - intros [r Hr]. apply lookup_set_to_map in Hr; [|done]. naive_solver.
  - intros Hn. exists (ideal_routing R n). apply lookup_set_to_map; [done|]. eauto.
Qed.

Lemma ideal_cluster_stabilized R : stabilized_cluster (ideal_cluster R).
Proof.
  intros n r Hr. rewrite ideal_cluster_dom. cbn in Hr.
  apply lookup_set_to_map in Hr; [|done]. destruct Hr as (n' & Hn' & ?). simplify_eq.
  by apply ideal_routing_stabilized.
Qed.

(** In a stabilized cluster whose links work, the local transport answers from the
    members' tables. *)
Lemma localTransport_stabilized c self :
  stabilized_cluster c -> (forall m, (self, m) ∉ c.(cl_blocked)) ->
  @StabilizedNet _ (localTransport self) (dom c.(cl_nodes)) (fun n => node_state n c) c.
Proof.
  intros Hst Hreach. split.
  - intros n [r Hr]%elem_of_dom. unfold node_state. rewrite Hr. by apply Hst.
  - intros t id [r Hr]%elem_of_dom. cbn.
    unfold local_ClosestPrecedingNode, resolve_read, getNode, node_state.
    rewrite bool_decide_eq_false_2 by done. by rewrite Hr.
Qed.

(** ** Properties *)

(** C1: in a stabilized ring of any size whose links work, a lookup started at any
    member returns, within the 160 hops the code allows and without changing any
    state, the member that owns the key. *)
Theorem FindSuccessor_correct (c : Cluster) (self id : NodeID) :
  stabilized_cluster c -> self ∈ dom c.(cl_nodes) -> (forall m, (self, m) ∉ c.(cl_blocked)) ->
  exists a, @FindSuccessor _ (localTransport self) Background id c = (c, Ok a) /\
    key_owner (dom c.(cl_nodes)) id a.(na_id).
Proof.
  intros Hst Hself Hreach.
  pose proof (localTransport_stabilized c self Hst Hreach) as Hnet.
  by apply (@FindSuccessor_ok _ (localTransport self) _ _ c Hnet Background self id).
Qed.

Lemma FindSuccessor_correct_witness :
  exists a, @FindSuccessor _ (localTransport (test_id x0a)) Background (test_id x80)
      (ideal_cluster {[test_id x0a; test_id x64; test_id xc8]}) =
      (ideal_cluster {[test_id x0a; test_id x64; test_id xc8]}, Ok a) /\
    key_owner (dom (ideal_cluster {[test_id x0a; test_id x64; test_id xc8]}).(cl_nodes))
      (test_id x80) a.(na_id).
Proof.
  apply (FindSuccessor_correct (ideal_cluster {[test_id x0a; test_id x64; test_id xc8]})
    (test_id x0a) (test_id x80)).
  - apply ideal_cluster_stabilized.
  - rewrite ideal_cluster_dom. set_solver.
  - intros m. cbn. set_solver.
Defined.
