(* ===== verification/RoutingInv.v ===== *)
(** * Well-formedness of the routing state, and that every handler keeps it

    The invariant of the fields under [n.mu]: the finger table has its 160 entries and a
    valid cursor, the successor list never grows past [successorListSize] entries besides
    the node itself, and the predecessor list is a chain of distinct other nodes. It is
    proved for each handler against any transport that keeps it for the caller, and then
    for every reachable state of a cluster. *)

From stdpp Require Import base gmap list strings sets.
From Stdlib Require Import ZArith Lia Strings.Byte.
From S2P Require Import Prelude Hoare Config Chord Routing Lookup Cluster.

Set Default Goal Selector "!".
Local Open Scope Z_scope.

(** ** The invariant *)

Definition others (self : NodeID) (l : list NodeAddr) : list NodeAddr :=
  filterb (fun s => negb (Equal s.(na_id) self)) l.

Definition succs_ok (self : NodeID) (size : Z) (l : list NodeAddr) : Prop :=
  Z.of_nat (length (others self l)) <= size /\ Z.of_nat (length l) <= size + 1.

(** A chain of predecessors: no node twice, and the node itself only when alone. *)
Definition preds_ok (self : NodeID) (size : Z) (l : list NodeAddr) : Prop :=
  NoDup (na_id <$> l) /\ (self ∈ na_id <$> l -> length l = 1%nat) /\ Z.of_nat (length l) <= size.

Record routing_wf (self : NodeID) (size : Z) (r : Routing) : Prop := {
  wf_id : r.(r_id) = self;
  wf_size : r.(r_successorListSize) = size;
  wf_size_pos : 1 <= size;
  wf_fingers : length r.(r_fingers) = fingerCount;
  wf_next : (r.(r_nextFinger) < fingerCount)%nat;
  wf_succs : succs_ok self size r.(r_successorList);
  wf_preds : preds_ok self size r.(r_predecessorList)
}.

(** ** Pure steps *)

Lemma length_others self l : (length (others self l) <= length l)%nat.
Proof. apply length_filterb. Qed.

Lemma succs_ok_short self size l : Z.of_nat (length l) <= size -> succs_ok self size l.
Proof. intros H. pose proof (length_others self l). split; lia. Qed.

Lemma succs_ok_filter self size keep l : succs_ok self size l -> succs_ok self size (filterb keep l).
Proof.
  intros [H1 H2]. unfold succs_ok. pose proof (length_filterb keep l).
  enough (length (others self (filterb keep l)) <= length (others self l))%nat by (split; lia).
  clear. induction l as [|x l IH]; [done|].
  unfold others in *. rewrite !filterb_cons. destruct (keep x); rewrite ?filterb_cons;
    destruct (negb _); cbn [length]; lia.
Qed.

Lemma succs_ok_suffix self size l1 l2 : succs_ok self size (l1 ++ l2) -> succs_ok self size l2.
Proof.
  unfold succs_ok, others. rewrite filterb_app, !length_app. lia.
Qed.

Lemma succs_ok_self self size s l :
  s.(na_id) = self -> succs_ok self size l -> succs_ok self size (s :: others self l).
Proof.
  intros Hs [H1 H2]. unfold succs_ok, others in *. rewrite filterb_cons.
  rewrite (proj2 (Equal_true _ _) Hs). cbn [negb length].
  pose proof (length_filterb (fun s => negb (Equal s.(na_id) self))
    (filterb (fun s => negb (Equal s.(na_id) self)) l)). lia.
Qed.

Lemma succs_ok_fmap self size f l :
  (forall s, (f s).(na_id) = s.(na_id)) -> succs_ok self size l -> succs_ok self size (f <$> l).
Proof.
  intros Hf [H1 H2]. unfold succs_ok. rewrite length_fmap. split; [|done].
  enough (length (others self (f <$> l)) = length (others self l)) by lia.
  clear - Hf. induction l as [|x l IH]; [done|].
  unfold others in *. rewrite fmap_cons, !filterb_cons, Hf. destruct (negb _); cbn [length]; lia.
Qed.

Lemma length_extend_list size acc l :
  Z.of_nat (length acc) <= size -> Z.of_nat (length (extend_list size acc l)) <= size.
Proof.
  revert acc. induction l as [|s l IH]; intros acc Hacc; cbn [extend_list]; [done|].
  destruct (Z.leb_spec size (Z.of_nat (length acc))); [done|].
  apply IH. rewrite length_app. cbn [length]. lia.
Qed.

#[export] Hint Resolve succs_ok_filter succs_ok_self : go.

Ltac wf_solve :=
  lazymatch goal with
  | H : routing_wf _ _ ?r |- routing_wf _ _ _ =>
      destruct H; split; cbn -[Nat.modulo]; auto
  end.

Section PureSteps.
Context (self : NodeID) (size : Z).

Lemma NewRouting_wf id addr cfg :
  routing_wf id (successorListSize cfg) (NewRouting id addr cfg).
Proof.
  pose proof (successorListSize_pos cfg). split; try done.
  - cbn. unfold fingerCount. lia.
  - apply succs_ok_short. cbn. lia.
  - split_and!; [constructor|by intros ?%elem_of_nil|cbn; lia].
Qed.

Lemma Create_wf r : routing_wf self size r -> routing_wf self size (Create r).
Proof. intros H. wf_solve. apply succs_ok_short. cbn. lia. Qed.

Lemma triggerReplicate_wf o n r :
  routing_wf self size r -> routing_wf self size (triggerReplicate o n r).1.
Proof. intros H. unfold triggerReplicate. destruct (r_slotBusy r); cbn [fst]; wf_solve. Qed.

Lemma evictNode_wf dead r :
  routing_wf self size r -> routing_wf self size (evictNode dead r).1.
Proof.
  intros H. unfold evictNode. cbv zeta.
  match goal with |- context [triggerReplicate _ _ ?r'] =>
    assert (routing_wf self size r') as Hr' end.
  { wf_solve; [by rewrite length_fmap|by apply succs_ok_filter]. }
  destruct (negb _); [by apply triggerReplicate_wf|done].
Qed.

Lemma set_predecessor_wf p r :
  routing_wf self size r -> routing_wf self size (set_predecessor p r).
Proof. intros H. wf_solve. Qed.

Lemma acceptPredecessor_wf caller r :
  routing_wf self size r -> routing_wf self size (acceptPredecessor caller r).1.
Proof.
  intros H. apply (set_predecessor_wf (Some caller)) in H. unfold acceptPredecessor.
  destruct (Equal _ _); [done|]. destruct (r_predecessor r); [|done]. by destruct (Equal _ _).
Qed.

Lemma notifyLeave_list_short leaver succ l acc :
  1 <= size -> Z.of_nat (length acc) <= size ->
  Z.of_nat (length (foldl (fun acc s =>
    if negb (Equal s.(na_id) leaver) && negb (Equal s.(na_id) succ)
       && (Z.of_nat (length acc) <? size)
    then acc ++ [s] else acc) acc l)) <= size.
Proof.
  intros Hs. revert acc. induction l as [|x l IH]; intros acc Hacc; cbn [foldl]; [done|].
  apply IH. destruct (negb _ && negb _); cbn [andb]; [|done].
  destruct (Z.ltb_spec (Z.of_nat (length acc)) size); [|done].
  rewrite length_app. cbn [length]. lia.
Qed.

Lemma handleNotifyLeave_wf leaver succ pred r :
  routing_wf self size r -> routing_wf self size (handleNotifyLeave leaver succ pred r).
Proof.
  intros H. unfold handleNotifyLeave. cbv zeta.
  match goal with |- context [match r_predecessor ?r1 with _ => _ end] =>
    assert (routing_wf self size r1) as H1 end.
  { destruct (Equal _ _); [|done]. wf_solve. apply succs_ok_short.
    rewrite wf_size0. apply notifyLeave_list_short; cbn [length]; lia. }
  destruct (r_predecessor _); [|done].
  repeat destruct (Equal _ _); auto using set_predecessor_wf.
Qed.

Lemma setAddr_wf addr r : routing_wf self size r -> routing_wf self size (setAddr addr r).
Proof.
  intros H. wf_solve; [by rewrite length_fmap|]. apply succs_ok_fmap; [|done].
  intros s. case_bool_decide; subst; done.
Qed.

End PureSteps.

(** ** Handlers *)

(** The invariant [I] of a world that a handler of [self] may rely on and must keep. *)
Class RoutingInv {W} (E : NodeEnv W) (self : NodeID) (size : Z) (I : W -> Prop) : Prop := {
  ri_wf w : I w -> routing_wf self size (ne_routing w);
  ri_set w r : I w -> routing_wf self size r -> I (ne_set_routing r w);
  ri_spawn w t : I w -> I (ne_spawn t w);
  ri_ClosestPrecedingNode t id : keeps I (tr_ClosestPrecedingNode t id) (fun _ => True);
  ri_GetPredecessor t : keeps I (tr_GetPredecessor t) (fun _ => True);
  ri_GetSuccessorList t : keeps I (tr_GetSuccessorList t) (fun _ => True);
  ri_Notify t caller : keeps I (tr_Notify t caller) (fun _ => True);
  ri_NotifyLeave t l s p : keeps I (tr_NotifyLeave t l s p) (fun _ => True);
  ri_FindSuccessor t id : keeps I (tr_FindSuccessor t id) (fun _ => True);
  ri_Ping t : keeps I (tr_Ping t) (fun _ => True)
}.

#[export] Hint Resolve ri_ClosestPrecedingNode ri_GetPredecessor ri_GetSuccessorList
  ri_Notify ri_NotifyLeave ri_FindSuccessor ri_Ping : keeps.

Section HandlersKeep.
Context {W} {E : NodeEnv W} {self : NodeID} {size : Z} {I : W -> Prop}
  {RI : RoutingInv E self size I}.

Lemma keeps_getRouting : keeps I getRouting (routing_wf self size).
Proof. intros w Hw. split; [done|]. by apply ri_wf. Qed.

Lemma keeps_modifyRouting f :
  (forall r, routing_wf self size r -> routing_wf self size (f r)) ->
  keeps I (modifyRouting f) (fun _ => True).
Proof. intros Hf w Hw. split; [|done]. apply ri_set; [done|]. by apply Hf, ri_wf. Qed.

Lemma keeps_modifySpawn f :
  (forall r, routing_wf self size r -> routing_wf self size (f r).1) ->
  keeps I (modifySpawn f) (fun _ => True).
Proof.
  intros Hf w Hw. unfold modifySpawn. specialize (Hf _ (ri_wf w Hw)).
  destruct (f (ne_routing w)) as [r ts]. split; [|done]. apply (ri_set w) in Hf; [|done].
  cbn [fst] in Hf. revert Hf. generalize (ne_set_routing r w). clear w Hw.
  induction ts as [|t ts IH]; intros w Hw; cbn [foldl]; [done|]. by apply IH, ri_spawn.
Qed.

Lemma keeps_getSuccessor : keeps I getSuccessor (fun _ => True).
Proof. eapply keeps_bind; [apply keeps_getRouting|]. intros r _. by apply keeps_ret. Qed.

Hint Resolve keeps_getRouting keeps_getSuccessor : keeps.

Lemma keeps_lookup_loop ctx s id hops cand : keeps I (lookup_loop ctx s id hops cand) (fun _ => True).
Proof.
  revert cand. induction hops as [|hops IH]; intros cand; cbn [lookup_loop];
    keeps_auto; auto.
  apply keeps_modifySpawn; intros; by apply evictNode_wf.
Qed.

Lemma keeps_FindSuccessor ctx id : keeps I (FindSuccessor ctx id) (fun _ => True).
Proof. unfold FindSuccessor. keeps_auto; auto using keeps_lookup_loop. Qed.

Lemma keeps_notify caller : keeps I (notify caller) (fun _ => True).
Proof.
  unfold notify. keeps_auto; auto.
  all: apply keeps_modifySpawn; intros r1 Hr1; try by apply acceptPredecessor_wf.
  cbv zeta. destruct (closer_predecessor _ _); [apply acceptPredecessor_wf|cbn [fst]];
    (destruct (r_predecessor r1); [destruct (Equal _ _)|]); auto using set_predecessor_wf.
Qed.

(** The walk keeps a chain of distinct nodes. *)
Lemma keeps_walk_predecessors n acc cur :
  NoDup (na_id <$> acc) -> (self ∉ na_id <$> acc \/ acc = [cur] /\ na_id cur = self) ->
  keeps I (walk_predecessors self n acc cur)
    (fun l => NoDup (na_id <$> l) /\ (self ∈ na_id <$> l -> length l = 1%nat) /\
              (length l <= length acc + n)%nat).
Proof.
  revert acc cur. induction n as [|n IH]; intros acc cur Hnd Hself; cbn [walk_predecessors].
  { apply keeps_ret. split_and!; [done|naive_solver|lia]. }
  destruct (Equal (na_id cur) self) eqn:Hcur.
  { apply keeps_ret. split_and!; [done|naive_solver|lia]. }
  apply not_true_iff_false in Hcur. rewrite Equal_true in Hcur.
  assert (self ∉ na_id <$> acc) as Hs by naive_solver. clear Hself.
  eapply keeps_bind; [apply keeps_try, ri_GetPredecessor|]. intros [[next|]|e] _.
  2,3: apply keeps_ret; split_and!; [done|naive_solver|lia].
  destruct (Equal (na_id next) self) eqn:Hnext.
  { apply keeps_ret. split_and!; [done|naive_solver|lia]. }
  destruct (existsb _ acc) eqn:Hex.
  { apply keeps_ret. split_and!; [done|naive_solver|lia]. }
  eapply keeps_weaken; [apply IH|].
  - rewrite fmap_app. apply NoDup_app. split_and!; [done| |apply NoDup_singleton].
    intros x Hx ->%list_elem_of_singleton. apply list_elem_of_fmap in Hx as (y & Hy & Hin).
    apply not_true_iff_false in Hex. apply Hex, existsb_exists. exists y.
    rewrite <- list_elem_of_In, Equal_true. done.
  - left. apply not_true_iff_false in Hnext. rewrite Equal_true in Hnext.
    rewrite fmap_app. set_solver.
  - cbn beta. rewrite length_app. cbn [length]. naive_solver lia.
Qed.

Lemma keeps_refreshPredecessorList : keeps I refreshPredecessorList (fun _ => True).
Proof.
  unfold refreshPredecessorList. eapply keeps_bind; [apply keeps_getRouting|]. intros r Hr.
  destruct (r_predecessor r) as [p|].
  - rewrite (wf_id _ _ _ Hr), (wf_size _ _ _ Hr). eapply keeps_bind.
    + apply keeps_walk_predecessors; [apply NoDup_singleton|].
      destruct (decide (na_id p = self)); [by right|left]. cbn. set_solver.
    + intros l (Hnd & Hself & Hlen). apply keeps_modifyRouting. intros r1 Hr1. wf_solve.
      split_and!; [done..|]. cbn [length] in Hlen. lia.
  - apply keeps_modifyRouting. intros r1 Hr1. wf_solve.
    split_and!; [constructor|by intros ?%elem_of_nil|cbn; lia].
Qed.

Lemma keeps_refreshSuccessorList succ old :
  keeps I (refreshSuccessorListAndReplicate succ old) (fun _ => True).
Proof.
  unfold refreshSuccessorListAndReplicate. keeps_auto; auto using keeps_refreshPredecessorList.
  apply keeps_modifySpawn. intros r Hr. cbv zeta. apply triggerReplicate_wf. wf_solve.
  apply succs_ok_short. rewrite wf_size0. apply length_extend_list. cbn. lia.
Qed.

Lemma keeps_first_alive l :
  keeps I (first_alive self l) (fun found => forall s l2, found = Some (s, l2) -> exists l1, l = l1 ++ l2).
Proof.
  induction l as [|s l IH]; cbn [first_alive]; [by apply keeps_ret|].
  assert (keeps I (first_alive self l)
    (fun found => forall s' l2, found = Some (s', l2) -> exists l1, s :: l = l1 ++ l2)) as IH'.
  { eapply keeps_weaken; [apply IH|]. intros found Hf s' l2 Hs.
    destruct (Hf s' l2 Hs) as [l1 ->]. by exists (s :: l1). }
  keeps_auto; try done. intros s' l2 [= <- <-]. by exists [].
Qed.

Lemma keeps_handleSuccessorFailure : keeps I handleSuccessorFailure (fun _ => True).
Proof.
  unfold handleSuccessorFailure. eapply keeps_bind; [apply keeps_getRouting|]. intros r Hr.
  rewrite (wf_id _ _ _ Hr). eapply keeps_bind; [apply keeps_first_alive|].
  pose proof (wf_succs _ _ _ Hr) as Hsuccs.
  intros [[s l2]|] Hf; apply keeps_modifyRouting; intros r1 Hr1; wf_solve.
  - destruct (Hf s l2 eq_refl) as [l1 Hl]. rewrite Hl in Hsuccs. by eapply succs_ok_suffix.
  - apply succs_ok_self; [apply Hr|done].
Qed.

Lemma keeps_single_successor s :
  keeps I (modifyRouting (fun r => set_successorList [s] (set_successor s r))) (fun _ => True).
Proof.
  apply keeps_modifyRouting. intros r Hr. wf_solve. apply succs_ok_short. cbn. lia.
Qed.
Hint Resolve keeps_single_successor : keeps.

Lemma keeps_reconnect_loop refresh l : keeps I (reconnect_loop self refresh l) (fun _ => True).
Proof. induction l as [|s l IH]; cbn [reconnect_loop]; keeps_auto; auto. Qed.

Lemma keeps_tryReconnect : keeps I tryReconnect (fun _ => True).
Proof.
  unfold tryReconnect. eapply keeps_bind; [apply keeps_getRouting|]. intros r Hr.
  rewrite (wf_id _ _ _ Hr). keeps_auto. apply keeps_reconnect_loop.
Qed.

Lemma keeps_stabilize : keeps I stabilize (fun _ => True).
Proof.
  assert (forall p, keeps I (modifyRouting (set_successor p)) (fun _ => True)) as Hset.
  { intros p. apply keeps_modifyRouting. intros r Hr. wf_solve. }
  unfold stabilize. eapply keeps_bind; [apply keeps_getRouting|]. intros r Hr. cbv zeta.
  eapply keeps_bind; [apply keeps_try, ri_GetPredecessor|]. intros [pred|e] _.
  - eapply (keeps_bind _ _ _ (fun _ => True)); [keeps_auto; auto|]. intros succ' _.
    keeps_auto; auto using keeps_tryReconnect, keeps_refreshSuccessorList.
  - keeps_auto; auto using keeps_handleSuccessorFailure, keeps_refreshSuccessorList.
Qed.

Lemma keeps_fixFinger : keeps I fixFinger (fun _ => True).
Proof.
  unfold fixFinger. eapply keeps_bind; [apply keeps_getRouting|]. intros r Hr. cbv zeta.
  eapply keeps_bind.
  { apply keeps_modifyRouting. intros r1 Hr1. wf_solve.
    apply Nat.mod_upper_bound. unfold fingerCount. lia. }
  intros _ _. eapply keeps_bind; [apply keeps_try, keeps_FindSuccessor|].
  intros [succ|e] _; [|by apply keeps_ret].
  apply keeps_modifyRouting. intros r1 Hr1. wf_solve. by rewrite length_insert.
Qed.

Lemma keeps_checkPredecessor : keeps I checkPredecessor (fun _ => True).
Proof.
  unfold checkPredecessor. keeps_auto; auto.
  apply keeps_modifyRouting. intros. by apply set_predecessor_wf.
Qed.

Lemma keeps_walk_low n low cur : keeps I (walk_low n low cur) (fun _ => True).
Proof. revert low cur. induction n as [|n IH]; intros low cur; cbn [walk_low]; keeps_auto; auto. Qed.

Lemma keeps_RingBlockRange : keeps I RingBlockRange (fun _ => True).
Proof.
  unfold RingBlockRange. keeps_auto; auto using keeps_walk_low.
  apply keeps_modifyRouting. intros r1 Hr1.
  destruct (r_predecessor r1); [destruct (Equal _ _)|]; auto using set_predecessor_wf.
Qed.

Lemma keeps_Join bootstrap : keeps I (Join_routing bootstrap) (fun _ => True).
Proof. unfold Join_routing. keeps_auto; auto. Qed.

Lemma keeps_Leave : keeps I Leave_routing (fun _ => True).
Proof. unfold Leave_routing. keeps_auto; auto. Qed.

End HandlersKeep.

(** ** Clusters *)

Section ClusterInv.
Context (size : NodeID -> Z).

Definition cluster_wf (c : Cluster) : Prop :=
  forall n r, c.(cl_nodes) !! n = Some r -> routing_wf n (size n) r.

(** The states in which the nodes of [D] run handlers: they are members. *)
Definition cluster_inv (D : gset NodeID) (c : Cluster) : Prop :=
  D ⊆ dom c.(cl_nodes) /\ cluster_wf c.

Lemma cluster_inv_state D c n :
  cluster_inv D c -> n ∈ D -> routing_wf n (size n) (node_state n c).
Proof.
  intros [HD Hc] Hn. unfold node_state.
  destruct (cl_nodes c !! n) as [r|] eqn:Hr; [by apply Hc|].
  apply not_elem_of_dom in Hr. set_solver.
Qed.

Lemma cluster_inv_set D c n r :
  cluster_inv D c -> routing_wf n (size n) r -> cluster_inv D (cl_set_nodes <[n := r]> c).
Proof.
  intros [HD Hc] Hr. unfold cluster_inv, cluster_wf. cbn [cl_set_nodes cl_nodes]. split.
  - rewrite dom_insert_L. set_solver.
  - intros m r'. rewrite lookup_insert_Some. naive_solver.
Qed.

Lemma resolve_read_keeps {A} I self target (f : Routing -> A) :
  keeps I (resolve_read self target f) (fun _ => True).
Proof. intros c Hc. unfold resolve_read. by destruct (getNode _ _ _). Qed.

Lemma resolve_run_keeps {A} D self target (h : M Cluster A) :
  keeps (cluster_inv ({[target.(na_id)]} ∪ D)) h (fun _ => True) ->
  keeps (cluster_inv D) (resolve_run self target h) (fun _ => True).
Proof.
  intros Hh c [HD Hc]. unfold resolve_run, getNode.
  destruct (bool_decide _); [done|]. destruct (cl_nodes c !! _) as [r|] eqn:Hr; [|done].
  assert (cluster_inv ({[target.(na_id)]} ∪ D) c) as Hc'.
  { split; [|done]. apply elem_of_dom_2 in Hr. set_solver. }
  specialize (Hh c Hc'). destruct (h c) as [c' [a|e]].
  - destruct Hh as [[HD' ?] _]. split; [split|]; [set_solver|done..].
  - destruct Hh as [HD' ?]. split; [set_solver|done].
Qed.

Lemma leaf_env_inv n D : n ∈ D -> RoutingInv (leaf_env n) n (size n) (cluster_inv D).
Proof.
  intros Hn. split; simpl; unfold local_ClosestPrecedingNode, local_GetPredecessor, local_GetSuccessorList; eauto using resolve_read_keeps, keeps_err, cluster_inv_set.
  - intros w. eauto using cluster_inv_state.
  - intros t c Hc. by destruct (canReach _ _ _).
Qed.

Lemma localTransport_inv n D :
  n ∈ D -> RoutingInv (localTransport n) n (size n) (cluster_inv D).
Proof.
  intros Hn.
  assert (forall t, RoutingInv (leaf_env t) t (size t) (cluster_inv ({[t]} ∪ D))) as Hleaf.
  { intros t. apply leaf_env_inv. set_solver. }
  split; simpl; unfold local_ClosestPrecedingNode, local_GetPredecessor, local_GetSuccessorList,
    local_NotifyLeave, local_Notify, local_FindSuccessor;
    eauto using resolve_read_keeps, cluster_inv_set, cluster_inv_state.
  - intros t caller. apply resolve_run_keeps. by apply keeps_notify.
  - intros t l s p. apply resolve_run_keeps. apply keeps_modifyRouting.
    intros. by apply handleNotifyLeave_wf.
  - intros t id. apply resolve_run_keeps. by apply keeps_FindSuccessor.
  - intros t c Hc. unfold local_Ping. by destruct (canReach _ _ _).
Qed.

End ClusterInv.

(** ** Runs of a cluster *)

(** What happens at a node: the ticks of [stabilizeLoop], the calls of the API and of the
    peers, and the end of a replication goroutine, which frees its slot. *)
Inductive event :=
  | EvStabilize
  | EvFixFinger
  | EvCheckPredecessor
  | EvFindSuccessor (id : NodeID)
  | EvRingBlockRange
  | EvJoin (bootstrap : NodeAddr)
  | EvLeave
  | EvNotify (caller : NodeAddr)
  | EvNotifyLeave (leaver successor predecessor : NodeAddr)
  | EvSetAddr (addr : string)
  | EvReplicationDone.

Definition run_event {W} `{NodeEnv W} (ev : event) : M W unit :=
  match ev with
  | EvStabilize => stabilize
  | EvFixFinger => fixFinger
  | EvCheckPredecessor => checkPredecessor
  | EvFindSuccessor id => m_ignore (FindSuccessor Background id)
  | EvRingBlockRange => m_ignore RingBlockRange
  | EvJoin b => m_ignore (Join_routing b)
  | EvLeave => Leave_routing
  | EvNotify caller => notify caller
  | EvNotifyLeave l s p => modifyRouting (handleNotifyLeave l s p)
  | EvSetAddr addr => modifyRouting (setAddr addr)
  | EvReplicationDone => modifyRouting (set_slotBusy false)
  end.

Inductive cluster_step : Cluster -> Cluster -> Prop :=
  | step_event c n ev :
      n ∈ dom c.(cl_nodes) -> cluster_step c (@run_event _ (localTransport n) ev c).1
  | step_add c id addr repl : cluster_step c (AddNode id addr repl c)
  | step_remove c id : cluster_step c (RemoveNode id c)
  | step_partition c a b : cluster_step c (Partition a b c)
  | step_heal c a b : cluster_step c (Heal a b c).

Definition cluster_ok (c : Cluster) : Prop :=
  forall n r, c.(cl_nodes) !! n = Some r -> routing_wf n r.(r_successorListSize) r.

Lemma keeps_run_event {W} (E : NodeEnv W) self size I ev :
  RoutingInv E self size I -> keeps I (run_event ev) (fun _ => True).
Proof.
  intros RI. destruct ev; cbn [run_event];
    try (eapply keeps_ignore);
    eauto using keeps_stabilize, keeps_fixFinger, keeps_checkPredecessor, keeps_FindSuccessor,
      keeps_RingBlockRange, keeps_Join, keeps_Leave, keeps_notify.
  all: apply keeps_modifyRouting; eauto using handleNotifyLeave_wf, setAddr_wf.
  intros r Hr. wf_solve.
Qed.

Definition sizes (c : Cluster) (n : NodeID) : Z := (node_state n c).(r_successorListSize).

Lemma cluster_ok_wf c : cluster_ok c <-> cluster_wf (sizes c) c.
Proof.
  unfold cluster_ok, cluster_wf, sizes, node_state.
  split; intros Hc n r Hr; specialize (Hc n r Hr); by rewrite Hr in *.
Qed.

Lemma cluster_wf_ok size c : cluster_wf size c -> cluster_ok c.
Proof. intros Hc n r Hr. specialize (Hc n r Hr). by rewrite (wf_size _ _ _ Hc). Qed.

Lemma handler_ok {A} (h : M Cluster A) n c :
  (forall size D, n ∈ D -> keeps (cluster_inv size D) h (fun _ => True)) ->
  n ∈ dom c.(cl_nodes) -> cluster_ok c -> cluster_ok (h c).1.
Proof.
  intros Hh Hn Hc%cluster_ok_wf.
  destruct (keeps_final _ _ _ c (Hh (sizes c) {[n]} ltac:(set_solver))) as [_ Hwf].
  - split; [set_solver|done].
  - by eapply cluster_wf_ok.
Qed.

Lemma AddNode_ok id addr repl c : cluster_ok c -> cluster_ok (AddNode id addr repl c).
Proof.
  intros Hc. unfold AddNode. cbv zeta. set (c1 := mkCluster _ _ _ _).
  assert (cluster_ok c1) as H1.
  { intros n r. unfold c1. cbn [cl_nodes]. rewrite lookup_insert_Some.
    intros [[<- <-]|[_ Hr]]; [|by apply Hc]. apply NewRouting_wf. }
  destruct (cl_order c) as [|first rest].
  - intros n r. cbn [cl_set_nodes cl_nodes]. rewrite lookup_alter_Some.
    intros [(<- & r' & Hr & ->)|[_ Hr]]; [|by apply H1].
    specialize (H1 _ _ Hr). by apply Create_wf in H1.
  - apply (handler_ok _ id); [|unfold c1; cbn [cl_nodes]; set_solver|done].
    intros size D Hid. pose proof (localTransport_inv size id D Hid). apply keeps_Join.
Qed.

Lemma cluster_step_ok c c' : cluster_step c c' -> cluster_ok c -> cluster_ok c'.
Proof.
  intros [] Hc; try done.
  - apply (handler_ok _ n); [|done..]. intros size D Hn. eapply keeps_run_event.
    by apply localTransport_inv.
  - by apply AddNode_ok.
  - intros n r. cbn [RemoveNode cl_nodes]. rewrite lookup_delete_Some. naive_solver.
Qed.

(** C2: in every state a cluster reaches from nothing, through any sequence of joins,
    leaves, crashes, partitions, stabilization ticks, lookups and notifications, each node
    keeps the identity it is registered under, a finger table of exactly 160 entries with a
    cursor inside it, a successor list of at most [successorListSize] nodes other than
    itself (and at most one entry more in all), and a predecessor list of distinct other
    nodes no longer than [successorListSize] (or itself alone). *)
Theorem routing_invariant (c : Cluster) (n : NodeID) (r : Routing) :
  star cluster_step NewTestRing c -> c.(cl_nodes) !! n = Some r ->
  routing_wf n r.(r_successorListSize) r.
Proof.
  intros Hstar. revert n r. change (cluster_ok c).
  eapply (star_invariant cluster_step cluster_ok); [|apply Hstar|by intros n r].
  intros a b Ha Hab. by eapply cluster_step_ok.
Qed.

(** Two nodes join, and the first one stabilizes. *)
Definition two_nodes : Cluster :=
  let a := test_id x0a in
  let c := AddNode (test_id xc8) "test-200" 1 (AddNode a "test-10" 1 NewTestRing) in
  (@run_event _ (localTransport a) EvStabilize c).1.

Lemma routing_invariant_witness :
  exists r, two_nodes.(cl_nodes) !! test_id x0a = Some r /\
    routing_wf (test_id x0a) r.(r_successorListSize) r.
Proof.
  destruct (two_nodes.(cl_nodes) !! test_id x0a) as [r|] eqn:Hr.
  - exists r. split; [done|]. apply (routing_invariant two_nodes); [|exact Hr].
    unfold two_nodes. eapply star_step; [apply step_add|].
    eapply star_step; [apply step_add|]. eapply star_step; [|apply star_refl].
    apply step_event. vm_compute. done.
  - exfalso. revert Hr. vm_compute. done.
Defined.
