(* ===== verification/Stable.v ===== *)
(** * Stabilization reaches and keeps the ideal ring

    The Chord argument for src/dht/stabilize.go and src/dht/node.go on a cluster whose
    links work: in a ring whose pointers are right, the periodic tasks and the lookups
    leave them right; and a node that joins is linked in by one [stabilize] of its own
    and one of its predecessor. The pointers of a cluster are its [ring_view]; the lists,
    tasks and counters that the handlers also touch are outside the view. *)

From stdpp Require Import base gmap list strings sets.
From Stdlib Require Import ZArith Lia Strings.Byte.
From S2P Require Import Prelude Hoare Config Chord Routing Lookup Cluster RoutingInv.

Set Default Goal Selector "!".
Local Open Scope Z_scope.

(** ** The pointers of a cluster *)

Record ptrs := mkPtrs {
  p_self : NodeAddr;
  p_succ : NodeAddr;
  p_pred : option NodeAddr;
  p_fingers : list NodeAddr
}.

Definition p_id (p : ptrs) : NodeID := p.(p_self).(na_id).

Definition routing_ptrs (r : Routing) : ptrs :=
  mkPtrs (selfAddr r) r.(r_successor) r.(r_predecessor) r.(r_fingers).

Definition ring_view (c : Cluster) : gmap NodeID ptrs := routing_ptrs <$> c.(cl_nodes).

Definition connected (c : Cluster) : Prop := forall a b, (a, b) ∉ c.(cl_blocked).

(** The backups of every node are members. *)
Definition lists_in (R : gset NodeID) (c : Cluster) : Prop :=
  forall n r, c.(cl_nodes) !! n = Some r -> Forall (fun s => s.(na_id) ∈ R) r.(r_successorList).

Record viewed (v : gmap NodeID ptrs) (c : Cluster) : Prop := {
  vw_view : ring_view c = v;
  vw_connected : connected c;
  vw_lists : lists_in (dom v) c
}.

(** The pointers every node must have when [R] are the members. *)
Definition linked (R : gset NodeID) (v : gmap NodeID ptrs) : Prop :=
  dom v = R /\ forall n p, v !! n = Some p ->
    p_id p = n /\ ring_succ R n p.(p_succ).(na_id) /\
    exists q, p.(p_pred) = Some q /\ ring_pred R n q.(na_id).

Definition fingers_right (R : gset NodeID) (v : gmap NodeID ptrs) : Prop :=
  forall n p, v !! n = Some p ->
    length p.(p_fingers) = fingerCount /\
    forall i f, p.(p_fingers) !! i = Some f -> key_owner R (fingerStart n i) f.(na_id).

(** The ideal ring. *)
Definition ideal (c : Cluster) : Prop :=
  linked (dom c.(cl_nodes)) (ring_view c) /\ fingers_right (dom c.(cl_nodes)) (ring_view c) /\
  connected c /\ lists_in (dom c.(cl_nodes)) c.

(** [notify] on the pointers. *)
Definition accepts (t : NodeID) (caller : NodeAddr) (p : ptrs) : bool :=
  match p.(p_pred) with
  | None => true
  | Some q => BetweenExclusive caller.(na_id) q.(na_id) t
  end.

Definition notify_view (t : NodeID) (caller : NodeAddr) (v : gmap NodeID ptrs) : gmap NodeID ptrs :=
  alter (fun p => if accepts t caller p then mkPtrs p.(p_self) p.(p_succ) (Some caller) p.(p_fingers)
                  else p) t v.

(** ** Views and handlers *)

Lemma dom_ring_view c : dom (ring_view c) = dom c.(cl_nodes).
Proof. apply dom_fmap_L. Qed.

Lemma viewed_member v c n p :
  viewed v c -> v !! n = Some p ->
  exists r, c.(cl_nodes) !! n = Some r /\ node_state n c = r /\ routing_ptrs r = p.
Proof.
  intros [<- _ _] Hn. unfold ring_view in Hn. rewrite lookup_fmap in Hn.
  destruct (cl_nodes c !! n) as [r|] eqn:Hr; [|done].
  exists r. unfold node_state. rewrite Hr. naive_solver.
Qed.

Lemma viewed_getNode v c a n p :
  viewed v c -> v !! n = Some p -> exists r, getNode c a n = Some r /\ routing_ptrs r = p /\
    c.(cl_nodes) !! n = Some r.
Proof.
  intros Hv Hn. destruct (viewed_member _ _ _ _ Hv Hn) as (r & Hr & _ & Hp).
  exists r. unfold getNode. by rewrite (bool_decide_eq_false_2 _ (vw_connected _ _ Hv a n)).
Qed.

Lemma viewed_canReach v c a n p : viewed v c -> v !! n = Some p -> canReach c a n = true.
Proof.
  intros Hv Hn. destruct (viewed_member _ _ _ _ Hv Hn) as (r & Hr & _).
  unfold canReach. rewrite (bool_decide_eq_false_2 _ (vw_connected _ _ Hv a n)).
  by rewrite bool_decide_eq_true_2 by eauto.
Qed.

Lemma viewed_ping v c a t p :
  viewed v c -> v !! t.(na_id) = Some p -> local_Ping a t c = (c, Ok tt).
Proof. intros Hv Hn. unfold local_Ping. by erewrite viewed_canReach. Qed.

Lemma viewed_getPredecessor v c a t p :
  viewed v c -> v !! t.(na_id) = Some p -> local_GetPredecessor a t c = (c, Ok p.(p_pred)).
Proof.
  intros Hv Hn. destruct (viewed_getNode _ _ a _ _ Hv Hn) as (r & Hr & <- & _).
  unfold local_GetPredecessor, resolve_read. by rewrite Hr.
Qed.

(** Writing a node's state: the view changes at that node, if at all. *)
Lemma viewed_set v c n r p :
  viewed v c -> v !! n = Some p -> Forall (fun s => s.(na_id) ∈ dom v) r.(r_successorList) ->
  viewed (<[n := routing_ptrs r]> v) (cl_set_nodes <[n := r]> c).
Proof.
  intros [Hv Hc Hl] Hn Hr. split; [|done|].
  - unfold ring_view in *. cbn [cl_set_nodes cl_nodes]. by rewrite fmap_insert, Hv.
  - rewrite dom_insert_lookup_L by eauto. intros m r'. cbn [cl_set_nodes cl_nodes].
    rewrite lookup_insert_Some. intros [[<- <-]|[_ Hr']]; [done|by eapply Hl].
Qed.

Lemma viewed_spawn v c n t : viewed v c -> viewed v (cl_spawn n t c).
Proof. by intros []. Qed.

Lemma viewed_spawns v c n ts : viewed v c -> viewed v (foldl (fun c t => cl_spawn n t c) c ts).
Proof. revert c. induction ts as [|t ts IH]; intros c Hv; cbn [foldl]; auto using viewed_spawn. Qed.

(** A state whose pointers are [p] and whose backups are in [R]. *)
Definition node_at (R : gset NodeID) (p : ptrs) (r : Routing) : Prop :=
  routing_ptrs r = p /\ Forall (fun s => s.(na_id) ∈ R) r.(r_successorList).

Lemma viewed_node v c n p : viewed v c -> v !! n = Some p -> node_at (dom v) p (node_state n c).
Proof.
  intros Hv Hn. destruct (viewed_member _ _ _ _ Hv Hn) as (r & Hr & -> & Hp).
  split; [done|]. by eapply vw_lists.
Qed.

Section AtNode.
Context (v : gmap NodeID ptrs) (n : NodeID) (p : ptrs) (Hn : v !! n = Some p).

Lemma getRouting_at :
  succeeds (viewed v) (@getRouting _ (localTransport n)) (fun r c => viewed v c /\ node_at (dom v) p r).
Proof. intros c Hc. split; [done|]. by apply (viewed_node v c n). Qed.

Lemma modifySpawn_at f p' :
  (forall r, node_at (dom v) p r -> node_at (dom v) p' (f r).1) ->
  succeeds (viewed v) (@modifySpawn _ (localTransport n) f) (fun _ => viewed (<[n := p']> v)).
Proof.
  intros Hf c Hc. unfold modifySpawn. cbn [localTransport ne_routing ne_set_routing ne_spawn].
  specialize (Hf _ (viewed_node v c n p Hc Hn)).
  destruct (f (node_state n c)) as [r ts]. destruct Hf as [<- Hl].
  apply viewed_spawns. by eapply viewed_set.
Qed.

Lemma modifyRouting_at f p' :
  (forall r, node_at (dom v) p r -> node_at (dom v) p' (f r)) ->
  succeeds (viewed v) (@modifyRouting _ (localTransport n) f) (fun _ => viewed (<[n := p']> v)).
Proof.
  intros Hf. apply (modifySpawn_at (fun r => (f r, []))). exact Hf.
Qed.

(** A change outside the view. *)
Lemma modifyRouting_outside f :
  (forall r, node_at (dom v) p r -> node_at (dom v) p (f r)) ->
  succeeds (viewed v) (@modifyRouting _ (localTransport n) f) (fun _ => viewed v).
Proof.
  intros Hf. eapply succeeds_weaken; [by apply (modifyRouting_at _ p)|done|].
  intros a c. by rewrite insert_id.
Qed.

Lemma modifySpawn_outside f :
  (forall r, node_at (dom v) p r -> node_at (dom v) p (f r).1) ->
  succeeds (viewed v) (@modifySpawn _ (localTransport n) f) (fun _ => viewed v).
Proof.
  intros Hf. eapply succeeds_weaken; [by apply (modifySpawn_at _ p)|done|].
  intros a c. by rewrite insert_id.
Qed.

(** [notify] at a node whose predecessor is a member. *)
Lemma notify_at caller :
  (forall q, p.(p_pred) = Some q -> is_Some (v !! q.(na_id))) -> p_id p = n ->
  succeeds (viewed v) (@notify _ (leaf_env n) caller) (fun _ => viewed (notify_view n caller v)).
Proof.
  intros Hq Hid. unfold notify.
  assert (forall r, node_at (dom v) p r -> node_at (dom v)
    (mkPtrs p.(p_self) p.(p_succ) (Some caller) p.(p_fingers)) (acceptPredecessor caller r).1) as Hacc.
  { intros r [<- Hl]. unfold acceptPredecessor. destruct (Equal _ _); [done|].
    destruct (r_predecessor r); [destruct (Equal _ _)|]; done. }
  eapply succeeds_bind_fact; [apply getRouting_at|]. intros r [Hp Hl].
  assert (notify_view n caller v = <[n := if accepts n caller p
    then mkPtrs p.(p_self) p.(p_succ) (Some caller) p.(p_fingers) else p]> v) as ->.
  { unfold notify_view. apply map_eq. intros i.
    destruct (decide (n = i)) as [<-|Hne]; by simplify_map_eq. }
  replace (r_predecessor r) with (p_pred p) by (by subst p).
  replace (r_id r) with n by (by subst p).
  unfold accepts. destruct (p_pred p) as [q|]; [|by apply modifySpawn_at].
  destruct (BetweenExclusive _ _ _); [by apply modifySpawn_at|].
  rewrite insert_id by done. destruct (Hq q eq_refl) as [p2 Hp2]. intros c Hc.
  unfold mbind, M_bind, m_bind, m_try. cbn [leaf_env tr_Ping].
  by rewrite (viewed_canReach v c n (na_id q) p2).
Qed.

Lemma walk_predecessors_at self k acc cur :
  succeeds (viewed v) (@walk_predecessors _ (localTransport n) self k acc cur) (fun _ => viewed v).
Proof.
  revert acc cur. induction k as [|k IH]; intros acc cur; cbn [walk_predecessors].
  { by apply succeeds_ret. }
  destruct (Equal _ _); [by apply succeeds_ret|].
  eapply (succeeds_bind_fact _ (viewed v) (fun _ => True)).
  { intros c Hc. unfold m_try. cbn [localTransport tr_GetPredecessor].
    unfold local_GetPredecessor, resolve_read. by destruct (getNode _ _ _). }
  intros [[q|]|e] _; [|by apply succeeds_ret..].
  destruct (Equal _ _); [by apply succeeds_ret|].
  destruct (existsb _ _); [by apply succeeds_ret|]. apply IH.
Qed.

Lemma refreshPredecessorList_at :
  succeeds (viewed v) (@refreshPredecessorList _ (localTransport n)) (fun _ => viewed v).
Proof.
  unfold refreshPredecessorList. eapply succeeds_bind_fact; [apply getRouting_at|]. intros r _.
  destruct (r_predecessor r) as [q|].
  - eapply succeeds_bind; [apply walk_predecessors_at|]. intros acc.
    by apply modifyRouting_outside.
  - by apply modifyRouting_outside.
Qed.

Lemma extend_list_in (R : gset NodeID) size acc l :
  Forall (fun s => s.(na_id) ∈ R) acc -> Forall (fun s => s.(na_id) ∈ R) l ->
  Forall (fun s => s.(na_id) ∈ R) (extend_list size acc l).
Proof.
  intros Ha Hl. revert acc Ha. induction Hl as [|s l Hs Hl IH]; intros acc Ha; cbn [extend_list]; [done|].
  destruct (_ <=? _); [done|]. apply IH, Forall_app. by repeat constructor.
Qed.

Lemma triggerReplicate_at R q o l r :
  node_at R q r -> node_at R q (triggerReplicate o l r).1.
Proof. intros Hr. unfold triggerReplicate. by destruct (r_slotBusy r). Qed.

Lemma refreshSuccessorList_at succ old :
  is_Some (v !! succ.(na_id)) ->
  succeeds (viewed v) (@refreshSuccessorListAndReplicate _ (localTransport n) succ old)
    (fun _ => viewed v).
Proof.
  intros [ps Hs]. unfold refreshSuccessorListAndReplicate.
  eapply (succeeds_bind_fact _ (viewed v) (fun res => exists l, res = Ok l /\
    Forall (fun s => s.(na_id) ∈ dom v) l)).
  { intros c Hc. unfold m_try. cbn [localTransport tr_GetSuccessorList].
    unfold local_GetSuccessorList, resolve_read.
    destruct (viewed_getNode _ _ n _ _ Hc Hs) as (r & -> & _ & Hr).
    split; [done|]. eexists. split; [done|]. by eapply vw_lists. }
  intros ? (l & -> & Hl). eapply succeeds_bind; [|intros ?; apply refreshPredecessorList_at].
  apply modifySpawn_outside. intros r [Hp _]. cbv zeta. apply triggerReplicate_at.
  split; [done|]. cbn. apply extend_list_in; [|done].
  apply Forall_singleton. by apply elem_of_dom.
Qed.

(** [tryReconnect] has nobody else to try. *)
Lemma tryReconnect_at :
  dom v = {[n]} -> p_id p = n ->
  succeeds (viewed v) (@tryReconnect _ (localTransport n)) (fun _ => viewed v).
Proof.
  intros Hdom Hid. unfold tryReconnect. eapply succeeds_bind_fact; [apply getRouting_at|].
  intros r [Hp Hl]. replace (r_id r) with n by (by subst p). rewrite Hdom in Hl.
  assert (forall o, succeeds (viewed v) (@reconnect_loop _ (localTransport n) n o (r_successorList r))
    (fun _ => viewed v)) as Hloop.
  { intros o. induction Hl as [|s l Hs Hl IH]; cbn [reconnect_loop]; [by apply succeeds_ret|].
    apply elem_of_singleton in Hs. by rewrite (proj2 (Equal_true _ _) Hs). }
  intros c Hc. apply Hloop. exact Hc.
Qed.

End AtNode.

(** ** [stabilize] *)

(** The successor [stabilize] settles on, given the predecessor of the present one. *)
Definition next_successor (n : NodeID) (succ : NodeAddr) (q : option NodeAddr) : NodeAddr :=
  match q with
  | Some x => if BetweenExclusive x.(na_id) n succ.(na_id) then x else succ
  | None => succ
  end.

Definition set_succ_view (s : NodeAddr) (p : ptrs) : ptrs :=
  mkPtrs p.(p_self) s p.(p_pred) p.(p_fingers).

Lemma set_succ_id p : set_succ_view p.(p_succ) p = p.
Proof. by destruct p. Qed.

Section Stabilize.
Context (v : gmap NodeID ptrs) (n : NodeID) (p ps : ptrs).
Context (Hn : v !! n = Some p) (Hid : p_id p = n) (Hs : v !! p.(p_succ).(na_id) = Some ps).

Let succ' := next_successor n p.(p_succ) ps.(p_pred).
Let v1 := <[n := set_succ_view succ' p]> v.

(** The first half of [stabilize]: adopting the successor's predecessor. *)
Lemma adopt_at :
  is_Some (v !! succ'.(na_id)) ->
  succeeds (viewed v)
    (match ps.(p_pred) with
     | Some x =>
         if BetweenExclusive x.(na_id) n p.(p_succ).(na_id) then
           res2 ← m_try (@tr_Ping _ (localTransport n) x);
           match res2 with
           | Ok _ => _ ← @modifyRouting _ (localTransport n) (set_successor x); m_ret x
           | Err _ => m_ret p.(p_succ)
           end
         else m_ret p.(p_succ)
     | None => m_ret p.(p_succ)
     end)
    (fun s c => viewed v1 c /\ s = succ').
Proof.
  intros [p' Hp']. unfold v1. unfold succ', next_successor in *.
  assert (<[n := set_succ_view p.(p_succ) p]> v = v) as Hsame.
  { by rewrite set_succ_id, insert_id. }
  destruct (p_pred ps) as [x|]; [|apply succeeds_ret; by rewrite Hsame].
  destruct (BetweenExclusive _ _ _); [|apply succeeds_ret; by rewrite Hsame].
  eapply (succeeds_bind_fact _ (viewed v) (fun res => res = Ok tt)).
  { intros c Hc. unfold m_try. cbn [localTransport tr_Ping].
    by rewrite (viewed_ping v c n x p' Hc Hp'). }
  intros ? ->. eapply succeeds_bind.
  { apply (modifyRouting_at v n p Hn _ (set_succ_view x p)). by intros r [<- Hl]. }
  intros []. by apply succeeds_ret.
Qed.

Lemma getRouting_local :
  succeeds (viewed v) (@getRouting _ (localTransport n))
    (fun r c => viewed v c /\ (selfAddr r = p.(p_self) /\ r_successor r = p.(p_succ) /\ r_id r = n)).
Proof.
  eapply succeeds_weaken; [by apply getRouting_at|done|].
  intros r c [Hc [<- Hl]]. done.
Qed.

(** [stabilize] at a node whose successor answers. *)
Lemma stabilize_at p' :
  v1 !! succ'.(na_id) = Some p' -> p_id p' = succ'.(na_id) ->
  (forall q, p'.(p_pred) = Some q -> is_Some (v !! q.(na_id))) ->
  (succ'.(na_id) = n -> dom v = {[n]}) ->
  succeeds (viewed v) (@stabilize _ (localTransport n))
    (fun _ => viewed (notify_view succ'.(na_id) p.(p_self) v1)).
Proof.
  intros Hp' Hid' Hq Hsingle.
  assert (dom v1 = dom v) as Hdom. { unfold v1. by rewrite dom_insert_lookup_L. }
  assert (forall m, is_Some (v1 !! m) <-> is_Some (v !! m)) as Hmem.
  { intros m. by rewrite <- !elem_of_dom, Hdom. }
  assert (dom (notify_view succ'.(na_id) p.(p_self) v1) = dom v) as Hdom2.
  { unfold notify_view. by rewrite dom_alter_L. }
  unfold stabilize. eapply succeeds_bind_fact; [apply getRouting_local|].
  intros r (Hself & Hsucc & Hrid). rewrite Hself, Hsucc, Hrid. cbv zeta.
  eapply (succeeds_bind_fact _ (viewed v) (fun res => res = Ok ps.(p_pred))).
  { intros c Hc. unfold m_try. cbn [localTransport tr_GetPredecessor].
    by rewrite (viewed_getPredecessor v c n _ ps Hc Hs). }
  intros ? ->. eapply succeeds_bind_fact; [apply adopt_at; naive_solver|].
  intros ? ->. eapply succeeds_bind.
  { apply succeeds_ignore. cbn [localTransport tr_Notify]. unfold local_Notify, resolve_run.
    intros c Hc. destruct (viewed_getNode _ _ n _ _ Hc Hp') as (r' & -> & _).
    eapply (notify_at v1 _ p'); naive_solver. }
  intros []. set (v2 := notify_view _ _ _) in *.
  assert (exists p2, v2 !! n = Some p2 /\ p_id p2 = n) as (p2 & Hp2 & Hid2).
  { unfold v2, notify_view. destruct (decide (succ'.(na_id) = n)) as [Heq|Hne].
    - rewrite Heq in *. rewrite lookup_alter_eq, Hp'. eexists. split; [done|]. by destruct (accepts _ _ _).
    - rewrite lookup_alter_ne by done. unfold v1. rewrite lookup_insert_eq. by eexists. }
  destruct (Equal (na_id succ') n) eqn:Heq.
  - apply Equal_true in Heq. eapply succeeds_bind.
    { eapply tryReconnect_at; [done|rewrite Hdom2; auto|done]. }
    intros b. by apply succeeds_ret.
  - eapply refreshSuccessorList_at; [done|]. apply elem_of_dom. rewrite Hdom2.
    apply elem_of_dom. naive_solver.
Qed.

End Stabilize.

(** ** The ideal ring is kept *)

Lemma pred_of_succ R n s q : n ∈ R -> ring_succ R n s -> ring_pred R s q -> q = n.
Proof.
  intros Hn [Hs Hmin] [Hq Hmin']. specialize (Hmin q Hq). specialize (Hmin' n Hn).
  apply id_val_inj. gap_lia.
Qed.

Lemma own_successor R n : n ∈ R -> ring_succ R n n -> R = {[n]}.
Proof.
  intros Hn [_ Hmin]. apply set_eq. intros y. rewrite elem_of_singleton. split; [|by intros ->].
  intros Hy. specialize (Hmin y Hy). rewrite gap_self in Hmin. pose proof (gap_range n y).
  symmetry. apply gap_full. lia.
Qed.

Lemma not_between_self n s : BetweenExclusive n n s = false.
Proof. apply BetweenExclusive_false. rewrite gap_self. pose proof (gap_range n s). lia. Qed.

Lemma ideal_viewed c : ideal c -> viewed (ring_view c) c.
Proof. intros (Hl & _ & Hc & Hin). split; [done..|]. by rewrite dom_ring_view. Qed.

Lemma viewed_ideal v c :
  viewed v c -> linked (dom v) v -> fingers_right (dom v) v -> ideal c.
Proof. intros [<- Hc Hl]. rewrite dom_ring_view in *. done. Qed.

Lemma ideal_stabilized c : ideal c -> stabilized_cluster c.
Proof.
  intros (Hl & Hf & _ & Hin) n r Hr.
  assert (ring_view c !! n = Some (routing_ptrs r)) as Hv.
  { unfold ring_view. by rewrite lookup_fmap, Hr. }
  destruct Hl as [_ Hl]. destruct (Hl _ _ Hv) as (Hid & Hsucc & _).
  destruct (Hf _ _ Hv) as (Hlen & Hfin). split; [done..|by eapply Hin| |done].
  intros i Hi. cbn in Hlen, Hfin. destruct (lookup_lt_is_Some_2 (r_fingers r) i) as [f Hfi]; [lia|].
  eauto.
Qed.

Lemma linked_member R v n : linked R v -> n ∈ R -> is_Some (v !! n).
Proof. intros [<- _]. apply elem_of_dom. Qed.

(** [notify] by the predecessor itself changes nothing. *)
Lemma notify_view_same t caller v p q :
  v !! t = Some p -> p.(p_pred) = Some q -> q.(na_id) = caller.(na_id) ->
  notify_view t caller v = v.
Proof.
  intros Ht Hq Heq. unfold notify_view. apply map_eq. intros i.
  destruct (decide (t = i)) as [<-|Hne]; [|by rewrite lookup_alter_ne].
  rewrite lookup_alter_eq, Ht. cbn. unfold accepts. rewrite Hq, Heq.
  by rewrite not_between_self.
Qed.

Lemma stabilize_ideal v n :
  linked (dom v) v -> n ∈ dom v ->
  succeeds (viewed v) (@stabilize _ (localTransport n)) (fun _ => viewed v).
Proof.
  intros Hl HnR. destruct (linked_member _ _ _ Hl HnR) as [p Hp].
  destruct (proj2 Hl _ _ Hp) as (Hid & Hsucc & _).
  destruct (linked_member _ _ p.(p_succ).(na_id) Hl) as [ps Hps]; [apply Hsucc|].
  destruct (proj2 Hl _ _ Hps) as (Hids & _ & q & Hq & Hpred).
  pose proof (pred_of_succ _ _ _ _ HnR Hsucc Hpred) as Hqn.
  assert (next_successor n p.(p_succ) ps.(p_pred) = p.(p_succ)) as Hnext.
  { unfold next_successor. rewrite Hq, Hqn. by rewrite not_between_self. }
  pose proof (stabilize_at v n p ps Hp Hid Hps) as Hst. rewrite Hnext in Hst.
  rewrite set_succ_id, insert_id in Hst by done.
  rewrite (notify_view_same _ _ _ ps q) in Hst by (done || by rewrite Hqn).
  apply (Hst ps); [done..| |].
  - intros q' Hq'. rewrite Hq in Hq'. injection Hq' as <-.
    exact (linked_member _ _ _ Hl (proj1 Hpred)).
  - intros Heq. apply own_successor; [done|]. by rewrite Heq in Hsucc.
Qed.

Lemma checkPredecessor_ideal v n :
  linked (dom v) v -> n ∈ dom v ->
  succeeds (viewed v) (@checkPredecessor _ (localTransport n)) (fun _ => viewed v).
Proof.
  intros Hl HnR. destruct (linked_member _ _ _ Hl HnR) as [p Hp].
  destruct (proj2 Hl _ _ Hp) as (Hid & _ & q & Hq & [Hpred _]). apply elem_of_dom in Hpred as [pq Hpq].
  intros c Hc. unfold checkPredecessor, getRouting, mbind, M_bind, m_bind.
  cbn [localTransport ne_routing]. destruct (viewed_node _ _ _ _ Hc Hp) as [Hptrs _].
  replace (r_predecessor (node_state n c)) with (Some q) by (by subst p).
  unfold m_try. cbn [localTransport tr_Ping]. by rewrite (viewed_ping v c n q pq).
Qed.

Lemma FindSuccessor_ideal v n id :
  linked (dom v) v -> fingers_right (dom v) v -> n ∈ dom v ->
  succeeds (viewed v) (@FindSuccessor _ (localTransport n) Background id)
    (fun a c => viewed v c /\ key_owner (dom v) id a.(na_id)).
Proof.
  intros Hl Hf Hn c Hc. pose proof (viewed_ideal v c Hc Hl Hf) as Hideal.
  assert (dom (cl_nodes c) = dom v) as Hdom. { by rewrite <- dom_ring_view, (vw_view _ _ Hc). }
  pose proof (localTransport_stabilized c n (ideal_stabilized c Hideal)
    (vw_connected _ _ Hc n)) as Hnet. rewrite Hdom in Hnet.
  destruct (@FindSuccessor_ok _ (localTransport n) _ _ c Hnet Background n id) as (a & -> & Ha); done.
Qed.

Definition set_finger_view (i : nat) (a : NodeAddr) (p : ptrs) : ptrs :=
  mkPtrs p.(p_self) p.(p_succ) p.(p_pred) (<[i := a]> p.(p_fingers)).

Lemma fixFinger_ideal v n :
  linked (dom v) v -> fingers_right (dom v) v -> n ∈ dom v ->
  succeeds (viewed v) (@fixFinger _ (localTransport n))
    (fun _ c => exists v', viewed v' c /\ linked (dom v) v' /\ fingers_right (dom v) v').
Proof.
  intros Hl Hf HnR. destruct (linked_member _ _ _ Hl HnR) as [p Hp].
  destruct (proj2 Hl _ _ Hp) as (Hid & Hsucc & Hpred). destruct (Hf _ _ Hp) as [Hlen Hfin].
  unfold fixFinger. eapply succeeds_bind_fact; [by apply getRouting_at|]. intros r [Hr _]. cbv zeta.
  eapply succeeds_bind. { eapply modifyRouting_outside; [done|]. by intros r1 [<- Hr1]. }
  intros []. eapply succeeds_bind; [eapply succeeds_try, FindSuccessor_ideal; done|].
  intros res c (a & -> & Hc & Ha). replace (r_id r) with n in Ha by (by subst p).
  set (i := r_nextFinger r) in *.
  pose proof (modifyRouting_at v n p Hp (fun r1 => set_fingers (<[i := a]> r1.(r_fingers)) r1)
    (set_finger_view i a p)) as Hset.
  specialize (Hset ltac:(by intros r1 [<- Hr1]) c Hc).
  destruct (@modifyRouting _ (localTransport n) _ c) as [c' [[]|e]]; [|done].
  eexists. split; [exact Hset|]. split; [split|].
  - rewrite dom_insert_lookup_L; eauto.
  - intros m pm. rewrite lookup_insert_Some. intros [[<- <-]|[_ Hm]]; [done|by apply Hl].
  - intros m pm. rewrite lookup_insert_Some. intros [[<- <-]|[_ Hm]]; [|by apply Hf].
    cbn [set_finger_view p_fingers]. rewrite length_insert. split; [done|].
    intros j f. rewrite list_lookup_insert_Some. intros [(<- & <- & _)|[_ Hj]]; eauto.
Qed.

Lemma RingBlockRange_ideal v n :
  linked (dom v) v -> n ∈ dom v ->
  succeeds (viewed v) (@RingBlockRange _ (localTransport n)) (fun _ => viewed v).
Proof.
  intros Hl HnR. destruct (linked_member _ _ _ Hl HnR) as [p Hp].
  destruct (proj2 Hl _ _ Hp) as (Hid & _ & q & Hq & [Hpred _]). apply elem_of_dom in Hpred as [pq Hpq].
  unfold RingBlockRange. eapply succeeds_bind_fact; [by apply getRouting_at|]. intros r [Hr _].
  replace (r_predecessor r) with (Some q) by (by subst p).
  eapply (succeeds_bind_fact _ (viewed v) (fun res => res = Ok tt)).
  { intros c Hc. unfold m_try. cbn [localTransport tr_Ping]. by rewrite (viewed_ping v c n q pq). }
  intros ? ->. eapply (succeeds_bind _ _ _ (fun _ => viewed v)); [|intros l; by apply succeeds_ret].
  generalize (Z.to_nat (r_replication r - 1)). intros k. clear Hq Hpq.
  revert q. induction k as [|k IH]; intros cur; cbn [walk_low]; [by apply succeeds_ret|].
  eapply (succeeds_bind_fact _ (viewed v) (fun _ => True)).
  { intros c Hc. unfold m_try. cbn [localTransport tr_GetPredecessor].
    unfold local_GetPredecessor, resolve_read. by destruct (getNode _ _ _). }
  intros [[x|]|e] _; [apply IH|by apply succeeds_ret..].
Qed.

(** The work a node does in a ring nobody enters or leaves. *)
Definition maintenance (ev : event) : bool :=
  match ev with
  | EvStabilize | EvFixFinger | EvCheckPredecessor | EvFindSuccessor _ | EvRingBlockRange
  | EvReplicationDone => true
  | _ => false
  end.

Lemma maintenance_ideal v n ev :
  linked (dom v) v -> fingers_right (dom v) v -> n ∈ dom v -> maintenance ev = true ->
  succeeds (viewed v) (@run_event _ (localTransport n) ev)
    (fun _ c => exists v', viewed v' c /\ linked (dom v) v' /\ fingers_right (dom v) v').
Proof.
  intros Hl Hf Hn Hev.
  assert (forall (m : M Cluster unit), succeeds (viewed v) m (fun _ => viewed v) ->
    succeeds (viewed v) m (fun _ c => exists v', viewed v' c /\ linked (dom v) v' /\
      fingers_right (dom v) v')) as Hsame.
  { intros m Hm. eapply succeeds_weaken; [exact Hm|done|].
    intros a c Hc. by exists v. }
  destruct ev; try done; cbn [run_event].
  - apply Hsame. by apply stabilize_ideal.
  - by apply fixFinger_ideal.
  - apply Hsame. by apply checkPredecessor_ideal.
  - apply Hsame, succeeds_ignore. eapply succeeds_weaken; [by apply FindSuccessor_ideal|done|].
    by intros a c [? _].
  - apply Hsame, succeeds_ignore. by apply RingBlockRange_ideal.
  - apply Hsame. destruct (linked_member _ _ _ Hl Hn) as [p Hp].
    eapply modifyRouting_outside; [done|]. by intros r [<- Hr].
Qed.

(** ** A new member *)

Section NewMember.
Context (R : gset NodeID) (id p s : NodeID) (Hid : id ∉ R).
Context (Hp : ring_pred R id p) (Hs : key_owner R id s).

Lemma new_succ_eq x : ring_succ R p x -> x = s.
Proof.
  intros Hx. eapply key_owner_unique; [|exact Hs].
  eapply ring_succ_owner; [exact Hx|]. by eapply pred_owner_succ.
Qed.

Lemma new_gap y : y ∈ R -> gap id s <= gap id y.
Proof.
  intros Hy. destruct Hs as [HsR Hmin]. specialize (Hmin y Hy).
  rewrite !dist_gap in Hmin by set_solver. done.
Qed.

Lemma new_between : BetweenExclusive id p s = true.
Proof.
  destruct Hs as [HsR _]. pose proof (new_gap p (proj1 Hp)) as H1.
  pose proof (proj2 Hp s HsR) as H2. apply BetweenExclusive_true.
  assert (id_val id <> id_val s) by (intros ?%id_val_inj; set_solver).
  assert (id_val id <> id_val p) by (intros ?%id_val_inj; destruct Hp; set_solver). gap_lia.
Qed.

Lemma new_succ_new : ring_succ ({[id]} ∪ R) id s.
Proof.
  split; [destruct Hs; set_solver|]. intros y [->%elem_of_singleton|Hy]%elem_of_union.
  - rewrite gap_self. apply gap_range.
  - by apply new_gap.
Qed.

Lemma new_pred_new : ring_pred ({[id]} ∪ R) id p.
Proof.
  destruct Hp as [HpR Hmin]. split; [set_solver|].
  intros y [->%elem_of_singleton|Hy]%elem_of_union; [|auto]. rewrite gap_self. apply gap_range.
Qed.

Lemma new_succ_pred : ring_succ R p s -> ring_succ ({[id]} ∪ R) p id.
Proof.
  intros [_ Hmin]. pose proof new_between as Hb%BetweenExclusive_true. split; [set_solver|].
  intros y [->%elem_of_singleton|Hy]%elem_of_union; [done|]. specialize (Hmin y Hy). lia.
Qed.

Lemma new_pred_succ : ring_pred R s p -> ring_pred ({[id]} ∪ R) s id.
Proof.
  intros [_ Hmin]. pose proof new_between as Hb%BetweenExclusive_true. split; [set_solver|].
  intros y [->%elem_of_singleton|Hy]%elem_of_union; [done|]. specialize (Hmin y Hy). gap_lia.
Qed.

Lemma new_succ_other m x : m ∈ R -> m <> p -> ring_succ R m x -> ring_succ ({[id]} ∪ R) m x.
Proof.
  intros Hm Hne [Hx Hmin]. split; [set_solver|].
  intros y [->%elem_of_singleton|Hy]%elem_of_union; [|auto].
  pose proof (pred_between _ _ _ _ Hp Hm Hne). specialize (Hmin p (proj1 Hp)). lia.
Qed.

Lemma new_pred_other m x : m ∈ R -> m <> s -> ring_pred R m x -> ring_pred ({[id]} ∪ R) m x.
Proof.
  intros Hm Hne [Hx Hmin]. split; [set_solver|].
  intros y [->%elem_of_singleton|Hy]%elem_of_union; [|auto].
  specialize (Hmin s (proj1 Hs)). pose proof (new_gap m Hm) as Hg.
  assert (id_val m <> id_val s) by (by intros ?%id_val_inj). gap_lia.
Qed.

End NewMember.

Section Join.
Context (c : Cluster) (id : NodeID) (addr : string) (repl : Z) (b : NodeID) (rest : list NodeID).
Context (Hideal : ideal c) (Hid : id ∉ dom c.(cl_nodes)).
Context (Horder : c.(cl_order) = b :: rest) (Hb : b ∈ dom c.(cl_nodes)).

Let v := ring_view c.
Let node := NewRouting id addr (config_with_replication repl).
Let c0 := mkCluster (c.(cl_order) ++ [id]) (<[id := node]> c.(cl_nodes)) c.(cl_blocked) c.(cl_tasks).

Lemma old_state m : m ∈ dom c.(cl_nodes) -> node_state m c0 = node_state m c.
Proof.
  intros Hm. unfold node_state, c0. cbn [cl_nodes]. by rewrite lookup_insert_ne by set_solver.
Qed.

(** The members answer the lookup as if the new node were not there. *)
Lemma join_lookup :
  exists a, @FindSuccessor _ (leaf_env b) Background id c0 = (c0, Ok a) /\
    key_owner (dom c.(cl_nodes)) id a.(na_id).
Proof.
  assert (@StabilizedNet _ (leaf_env b) (dom c.(cl_nodes)) (fun n => node_state n c0) c0) as Hnet.
  { pose proof (ideal_stabilized c Hideal) as Hst. split.
    - intros m Hm. rewrite old_state by done. apply elem_of_dom in Hm as [r Hr].
      unfold node_state. rewrite Hr. by apply Hst.
    - intros t k Ht. cbn [leaf_env tr_ClosestPrecedingNode]. unfold resolve_read, getNode.
      rewrite bool_decide_eq_false_2 by apply Hideal. rewrite old_state by done.
      unfold c0 at 1. cbn [cl_nodes]. rewrite lookup_insert_ne by set_solver.
      apply elem_of_dom in Ht as [r Hr]. unfold node_state. by rewrite Hr. }
  by apply (@FindSuccessor_ok _ (leaf_env b) _ _ c0 Hnet Background b id).
Qed.

Definition joined_ptrs (a : NodeAddr) : ptrs :=
  mkPtrs (mkNodeAddr id addr) a None (replicate fingerCount (mkNodeAddr id addr)).

Lemma join_at :
  exists a, key_owner (dom c.(cl_nodes)) id a.(na_id) /\
    viewed (<[id := joined_ptrs a]> v) (AddNode id addr repl c).
Proof.
  destruct join_lookup as (a & Hfind & Ha). exists a. split; [done|].
  assert (selfAddr (node_state b c0) = mkNodeAddr b (r_addr (node_state b c))) as Hself.
  { rewrite old_state by done. unfold selfAddr. f_equal.
    apply elem_of_dom in Hb as [r Hr]. unfold node_state. rewrite Hr.
    by apply (ideal_stabilized c Hideal). }
  assert (getNode c0 id b <> None) as Hget.
  { unfold getNode. rewrite bool_decide_eq_false_2 by apply Hideal.
    unfold c0. cbn [cl_nodes]. rewrite lookup_insert_ne by set_solver.
    apply elem_of_dom in Hb as [r Hr]. by rewrite Hr. }
  unfold AddNode. cbv zeta. fold node. fold c0. rewrite Horder, Hself.
  unfold Join_routing, getRouting, mbind, M_bind, m_bind, m_try.
  cbn [localTransport ne_routing tr_FindSuccessor]. unfold local_FindSuccessor, resolve_run.
  cbn [na_id]. destruct (getNode c0 id b) as [rb|]; [|done].
  assert (r_id (node_state id c0) = id) as ->.
  { unfold node_state, c0. cbn [cl_nodes]. by rewrite lookup_insert_eq. }
  rewrite Hfind. unfold modifyRouting. cbn [localTransport ne_routing ne_set_routing tr_GetPredecessor].
  unfold local_GetPredecessor, resolve_read. set (c1 := cl_set_nodes _ c0).
  assert (viewed (<[id := joined_ptrs a]> v) c1) as Hc1.
  { split; [| apply Hideal |].
    - unfold ring_view, c1, c0. cbn [cl_set_nodes cl_nodes]. rewrite !fmap_insert, insert_insert_eq.
      f_equal. unfold node_state. cbn [cl_nodes]. by rewrite lookup_insert_eq.
    - rewrite dom_insert_L. unfold v. rewrite dom_ring_view. intros m r. unfold c1, c0.
      cbn [cl_set_nodes cl_nodes]. rewrite insert_insert_eq, lookup_insert_Some.
      intros [[<- <-]|[_ Hr]].
      + cbn. apply Forall_singleton. destruct Ha. set_solver.
      + destruct Hideal as (_ & _ & _ & Hl). eapply Forall_impl; [by eapply Hl|]. set_solver. }
  destruct (getNode c1 id (na_id a)) as [ra|]; cbn; [|done].
  destruct (r_predecessor ra); [|done]. by destruct (Equal _ _).
Qed.

End Join.

Definition set_pred_view (q : NodeAddr) (p : ptrs) : ptrs :=
  mkPtrs p.(p_self) p.(p_succ) (Some q) p.(p_fingers).

Lemma lookup_alter_if (f : ptrs -> ptrs) i j (m : gmap NodeID ptrs) :
  alter f i m !! j = (if decide (j = i) then f else fun x => x) <$> m !! j.
Proof.
  destruct (decide (j = i)) as [->|Hne]; [apply lookup_alter_eq|].
  rewrite lookup_alter_ne by done. by destruct (m !! j).
Qed.

Section Linking.
Context (R : gset NodeID) (v : gmap NodeID ptrs) (Hl : linked R v).
Context (id p : NodeID) (addr : string) (a : NodeAddr) (Hid : id ∉ R).
Context (Hp : ring_pred R id p) (Ha : key_owner R id a.(na_id)).

Let new := mkNodeAddr id addr.
Let v1 := <[id := joined_ptrs id addr a]> v.
Let v2 := alter (set_pred_view new) a.(na_id) v1.
Let v3 := alter (fun q => set_succ_view new q) p v2.

(** The two neighbours of the new node. *)
Lemma neighbours :
  exists pp ps, v !! p = Some pp /\ v !! a.(na_id) = Some ps /\ p_id pp = p /\
    pp.(p_succ).(na_id) = a.(na_id) /\ p_id ps = a.(na_id) /\
    (exists q, ps.(p_pred) = Some q /\ q.(na_id) = p) /\ id <> p /\ id <> a.(na_id).
Proof.
  destruct (linked_member _ _ p Hl) as [pp Hpp]; [apply Hp|].
  destruct (linked_member _ _ a.(na_id) Hl) as [ps Hps]; [apply Ha|].
  destruct (proj2 Hl _ _ Hpp) as (Hidp & Hsucc & _).
  destruct (proj2 Hl _ _ Hps) as (Hids & _ & q & Hq & Hpred).
  pose proof (new_succ_eq R id p _ Hp Ha _ Hsucc) as Heq.
  assert (na_id q = p) as Hqp.
  { rewrite <- Heq in Hpred. by apply (pred_of_succ R p _ _ (proj1 Hp) Hsucc). }
  exists pp, ps. split_and!; eauto; intros ->; [by destruct Hp|by destruct Ha].
Qed.

Lemma first_stabilize :
  succeeds (viewed v1) (@stabilize _ (localTransport id)) (fun _ => viewed v2).
Proof.
  destruct neighbours as (pp & ps & Hpp & Hps & Hidp & Hsuccp & Hids & (q & Hq & Hqp) & Hnp & Hna).
  assert (v1 !! id = Some (joined_ptrs id addr a)) as Hv1 by (unfold v1; by simplify_map_eq).
  assert (v1 !! a.(na_id) = Some ps) as Hv1a by (unfold v1; by simplify_map_eq).
  assert (next_successor id a (p_pred ps) = a) as Hnext.
  { unfold next_successor. rewrite Hq, Hqp. rewrite (proj2 (BetweenExclusive_false _ _ _)); [done|].
    apply (new_gap R id p); [done..|]. apply Hp. }
  pose proof (stabilize_at v1 id (joined_ptrs id addr a) ps Hv1 eq_refl Hv1a) as Hst.
  cbn [joined_ptrs p_succ p_self] in Hst. rewrite Hnext in Hst.
  change (set_succ_view a (joined_ptrs id addr a)) with (joined_ptrs id addr a) in Hst.
  rewrite insert_id in Hst by done. eapply succeeds_weaken; [apply (Hst ps)|done|]; [done..| | |].
  - intros q' Hq'. rewrite Hq in Hq'. injection Hq' as <-. rewrite Hqp.
    unfold v1. rewrite lookup_insert_ne by done. eauto.
  - intros Heq. by destruct Hna.
  - intros [] c. enough (notify_view a.(na_id) (mkNodeAddr id addr) v1 = v2) as -> by done.
    apply map_eq. intros i. unfold notify_view, v2.
    destruct (decide (a.(na_id) = i)) as [<-|Hne]; [|by rewrite !lookup_alter_ne].
    rewrite !lookup_alter_eq, Hv1a. cbn. unfold accepts. rewrite Hq, Hqp.
    by rewrite (new_between R).
Qed.

Lemma second_stabilize :
  succeeds (viewed v2) (@stabilize _ (localTransport p))
    (fun _ c => exists q, q.(na_id) = p /\ viewed (alter (set_pred_view q) id v3) c).
Proof.
  destruct neighbours as (pp & ps & Hpp & Hps & Hidp & Hsuccp & Hids & (q & Hq & Hqp) & Hnp & Hna).
  assert (exists pp2, v2 !! p = Some pp2 /\ p_id pp2 = p /\ p_succ pp2 = p_succ pp) as (pp2 & Hpp2 & Hid2 & Hs2).
  { unfold v2, v1. destruct (decide (p = a.(na_id))) as [->|Hne]; simplify_map_eq; eauto. }
  assert (v2 !! pp2.(p_succ).(na_id) = Some (set_pred_view new ps)) as Hv2s.
  { rewrite Hs2, Hsuccp. unfold v2, v1. by simplify_map_eq. }
  assert (next_successor p (p_succ pp2) (Some new) = new) as Hnext.
  { unfold next_successor. rewrite Hs2, Hsuccp. cbn [na_id new]. by rewrite (new_between R). }
  pose proof (stabilize_at v2 p pp2 (set_pred_view new ps) Hpp2 Hid2 Hv2s) as Hst.
  cbn [set_pred_view p_pred] in Hst. rewrite Hnext in Hst.
  assert (v2 !! id = Some (joined_ptrs id addr a)) as Hv2id by (unfold v2, v1; by simplify_map_eq).
  eapply succeeds_weaken; [apply (Hst (joined_ptrs id addr a))|done|]; try done.
  - cbn [na_id new]. by rewrite lookup_insert_ne by done.
  - intros [] c Hc. exists (p_self pp2). split; [done|].
    enough (notify_view id (p_self pp2) (<[p := set_succ_view new pp2]> v2) =
      alter (set_pred_view (p_self pp2)) id v3) as Heq by (rewrite <- Heq; exact Hc).
    unfold notify_view, v3. apply map_eq. intros i.
    destruct (decide (id = i)) as [<-|Hne1].
    + rewrite !lookup_alter_eq, lookup_insert_ne, lookup_alter_ne, Hv2id by done. done.
    + rewrite !(lookup_alter_ne _ _ id i) by done.
      destruct (decide (p = i)) as [<-|Hne2]; by simplify_map_eq.
Qed.

Lemma linked_new q : q.(na_id) = p -> linked ({[id]} ∪ R) (alter (set_pred_view q) id v3).
Proof.
  intros Hqp. split.
  { rewrite dom_alter_L. unfold v3, v2, v1. rewrite !dom_alter_L, dom_insert_L.
    by destruct Hl as [-> _]. }
  destruct neighbours as (pp & ps & Hpp & Hps & Hidp & Hsuccp & Hids & (q' & Hq' & Hqp') & Hnp & Hna).
  intros m pm. destruct (decide (m = id)) as [->|Hmid].
  - rewrite lookup_alter_eq. unfold v3, v2, v1.
    rewrite !lookup_alter_ne, lookup_insert_eq by done. intros [= <-]. split; [done|]. split.
    + by apply (new_succ_new R id p).
    + exists q. split; [done|]. rewrite Hqp. by apply (new_pred_new R id p (na_id a)).
  - rewrite lookup_alter_ne by done. unfold v3, v2.
    intros Hm.
    assert (exists pm0, v !! m = Some pm0 /\
      pm = (if decide (m = p) then set_succ_view new else fun x => x)
           ((if decide (m = a.(na_id)) then set_pred_view new else fun x => x) pm0)) as (pm0 & Hm0 & ->).
    { unfold v1 in Hm. rewrite !lookup_alter_if, lookup_insert_ne in Hm by done.
      destruct (v !! m) as [pm0|]; [|done]. exists pm0. split; [done|]. by injection Hm as <-. }
    assert (m ∈ R) as HmR. { destruct Hl as [<- _]. by apply elem_of_dom. }
    destruct (proj2 Hl _ _ Hm0) as (Hidm & Hsucc & qm & Hqm & Hpred).
    split_and!.
    + by destruct (decide _), (decide _).
    + destruct (decide (m = p)) as [->|Hmp].
      * rewrite (new_succ_eq R id p _ Hp Ha _ Hsucc) in Hsucc.
        destruct (decide _); by eapply new_succ_pred.
      * destruct (decide _); by eapply new_succ_other.
    + destruct (decide (m = a.(na_id))) as [->|Hma].
      * exists new. split; [by destruct (decide _)|]. apply (new_pred_succ R id p); [done..|].
        assert (na_id qm = p) as <-; [|done]. congruence.
      * exists qm. split; [by destruct (decide _)|]. by eapply new_pred_other.
Qed.

End Linking.

(** ** Lost successors *)

Definition alive_suffix (c : Cluster) (n : NodeID) : list NodeAddr -> option (NodeAddr * list NodeAddr) :=
  fix go l :=
    match l with
    | [] => None
    | s :: l' =>
        if negb (Equal s.(na_id) n) && canReach c n s.(na_id) then Some (s, s :: l') else go l'
    end.

Lemma first_alive_cluster c n l :
  @first_alive _ (localTransport n) n l c = (c, Ok (alive_suffix c n l)).
Proof.
  induction l as [|s l IH]; cbn [first_alive alive_suffix]; [done|].
  destruct (Equal _ _); cbn [negb andb]; [exact IH|].
  unfold mbind, M_bind, m_bind, m_try. cbn [localTransport tr_Ping]. unfold local_Ping.
  by destruct (canReach c n (na_id s)).
Qed.

Lemma alive_suffix_Some c n l s l2 :
  alive_suffix c n l = Some (s, l2) ->
  exists l1 l3, l = l1 ++ s :: l3 /\ l2 = s :: l3 /\ s.(na_id) <> n /\ canReach c n s.(na_id) = true /\
    forall x, x ∈ l1 -> x.(na_id) = n \/ canReach c n x.(na_id) = false.
Proof.
  induction l as [|x l IH]; cbn [alive_suffix]; [done|].
  destruct (negb _ && canReach c n (na_id x)) eqn:Hx.
  - intros [= <- <-]. apply andb_true_iff in Hx as [Hx1 Hx2].
    apply negb_true_iff, Equal_false in Hx1. exists [], l. split_and!; try done.
    by intros y ?%elem_of_nil.
  - intros (l1 & l3 & -> & -> & Hs & Hr & Hl1)%IH. exists (x :: l1), l3. split_and!; try done.
    intros y [->|Hy]%elem_of_cons; [|auto]. apply andb_false_iff in Hx as [Hx|Hx]; [left|by right].
    by apply negb_false_iff, Equal_true in Hx.
Qed.

Lemma alive_suffix_None c n l :
  alive_suffix c n l = None -> forall x, x ∈ l -> x.(na_id) = n \/ canReach c n x.(na_id) = false.
Proof.
  induction l as [|x l IH]; cbn [alive_suffix]; [by intros _ y ?%elem_of_nil|].
  destruct (negb _ && canReach c n (na_id x)) eqn:Hx; [done|].
  intros Hl y [->|Hy]%elem_of_cons; [|auto]. apply andb_false_iff in Hx as [Hx|Hx]; [left|by right].
  by apply negb_false_iff, Equal_true in Hx.
Qed.

(** ** Ideal rings exist, for every set of members *)

Lemma ideal_cluster_ideal R : ideal (ideal_cluster R).
Proof.
  assert (forall n r, cl_nodes (ideal_cluster R) !! n = Some r -> n ∈ R /\ r = ideal_routing R n) as Hlk.
  { intros n r Hr. cbn in Hr. apply lookup_set_to_map in Hr; [|done].
    destruct Hr as (n' & Hn' & ?). by simplify_eq. }
  unfold ideal. rewrite ideal_cluster_dom. split_and!.
  - split; [by rewrite dom_ring_view, ideal_cluster_dom|]. intros n p. unfold ring_view.
    rewrite lookup_fmap_Some. intros (r & <- & [Hn ->]%Hlk). cbn. split_and!; [done|by apply argmin_member|].
    eexists. split; [done|]. by apply (argmin_member (fun y => gap y n)).
  - intros n p. unfold ring_view. rewrite lookup_fmap_Some. intros (r & <- & [Hn ->]%Hlk).
    destruct (ideal_routing_stabilized R n Hn) as [_ _ _ Hf Hlen]. split; [done|].
    intros i f Hi. destruct (Hf i) as (f' & Hf' & Hown).
    + rewrite <- Hlen. by apply lookup_lt_Some in Hi.
    + cbn in Hi, Hf'. by simplify_eq.
  - intros a b. cbn. set_solver.
  - intros n r [Hn ->]%Hlk. by apply ideal_routing_stabilized.
Qed.

Lemma ideal_cluster_lookup (R : gset NodeID) n :
  n ∈ R -> cl_nodes (ideal_cluster R) !! n = Some (ideal_routing R n).
Proof. intros Hn. cbn. apply lookup_set_to_map; [done|]. by exists n. Qed.

(** ** Properties *)

(** C3: the ideal ring is a fixed point: with every pointer and finger right and all
    links working, any round of [stabilize], [fixFinger], [checkPredecessor], lookups
    or [RingBlockRange] at any member succeeds, and leaves the same members with every
    successor, predecessor and finger still right. *)
Theorem ideal_ring_kept (c : Cluster) (n : NodeID) (ev : event) :
  ideal c -> n ∈ dom c.(cl_nodes) -> maintenance ev = true ->
  exists c', @run_event _ (localTransport n) ev c = (c', Ok tt) /\ ideal c' /\
    dom c'.(cl_nodes) = dom c.(cl_nodes).
Proof.
  intros Hideal Hn Hev. pose proof (ideal_viewed c Hideal) as Hv.
  destruct Hideal as (Hl & Hf & _ & _). rewrite <- dom_ring_view in *.
  destruct (succeeds_final _ _ _ c (maintenance_ideal _ n ev Hl Hf Hn Hev) Hv)
    as ([] & c' & Hrun & v' & Hv' & Hl' & Hf').
  assert (dom v' = dom (ring_view c)) as Hdom by apply Hl'.
  exists c'. split; [done|]. split.
  - eapply viewed_ideal; by rewrite ?Hdom.
  - by rewrite <- (dom_ring_view c'), (vw_view _ _ Hv').
Qed.

(** C4: a node that joins an ideal ring of any size through any member is linked in
    after one [stabilize] of its own and one of its predecessor: every member's successor
    and predecessor pointers, the new node's included, are then those of the ring with
    the new node. *)
Theorem join_links_new_node (c : Cluster) (id p b : NodeID) (rest : list NodeID) (addr : string) (repl : Z) :
  ideal c -> id ∉ dom c.(cl_nodes) -> c.(cl_order) = b :: rest -> b ∈ dom c.(cl_nodes) ->
  ring_pred (dom c.(cl_nodes)) id p ->
  let c1 := AddNode id addr repl c in
  let c2 := (@stabilize _ (localTransport id) c1).1 in
  let c3 := (@stabilize _ (localTransport p) c2).1 in
  linked ({[id]} ∪ dom c.(cl_nodes)) (ring_view c3).
Proof.
  intros Hideal Hid Horder Hb Hp c1 c2 c3.
  destruct (join_at c id addr repl b rest Hideal Hid Horder Hb) as (a & Ha & Hv1).
  destruct Hideal as (Hl & _).
  destruct (succeeds_final _ _ _ c1 (first_stabilize _ _ Hl id p addr a Hid Hp Ha) Hv1)
    as (? & c2' & Hrun2 & Hv2).
  assert (c2 = c2') as -> by (unfold c2; by rewrite Hrun2).
  destruct (succeeds_final _ _ _ c2' (second_stabilize _ _ Hl id p addr a Hid Hp Ha) Hv2)
    as (? & c3' & Hrun3 & q & Hq & Hv3).
  unfold c3. rewrite Hrun3. cbn [fst]. rewrite (vw_view _ _ Hv3). by apply linked_new.
Qed.

(** When the successor is lost, [handleSuccessorFailure] moves to the first backup
    that answers a ping, keeps the backups after it, and only when no backup answers
    falls back to the node itself while remembering them all; no other node's state
    changes, and neither do the predecessor and the fingers. *)
Theorem handleSuccessorFailure_spec (c : Cluster) (n : NodeID) (r : Routing) :
  c.(cl_nodes) !! n = Some r -> r.(r_id) = n ->
  exists succ l,
    @handleSuccessorFailure _ (localTransport n) c =
      (cl_set_nodes <[n := set_successorList l (set_successor succ r)]> c, Ok tt) /\
    ((exists l1 l3, r.(r_successorList) = l1 ++ succ :: l3 /\ l = succ :: l3 /\
        succ.(na_id) <> n /\ canReach c n succ.(na_id) = true /\
        forall x, x ∈ l1 -> x.(na_id) = n \/ canReach c n x.(na_id) = false) \/
     ((forall x, x ∈ r.(r_successorList) -> x.(na_id) = n \/ canReach c n x.(na_id) = false) /\
        succ = selfAddr r /\ l = selfAddr r :: others n r.(r_successorList))).
Proof.
  intros Hr Hid.
  assert (node_state n c = r) as Hst by (unfold node_state; by rewrite Hr).
  unfold handleSuccessorFailure, getRouting, mbind, M_bind, m_bind.
  cbn [localTransport ne_routing]. rewrite Hst, Hid, first_alive_cluster.
  destruct (alive_suffix c n (r_successorList r)) as [[s l2]|] eqn:Hal.
  - exists s, l2. unfold modifyRouting. cbn [localTransport ne_routing ne_set_routing]. rewrite Hst.
    split; [done|]. left. by apply alive_suffix_Some.
  - eexists _, _. unfold modifyRouting. cbn [localTransport ne_routing ne_set_routing]. rewrite Hst.
    split; [done|]. right. split; [by apply alive_suffix_None|done].
Qed.

(** A node accepts the caller of [Notify] as its predecessor exactly when it has
    none, when the caller is closer, or when the present one does not answer; it then
    hands over the keys and records from the old predecessor (or from itself, if it had
    none or lost it) up to the caller, and keeps exactly the rest: every key it was
    responsible for goes to one of the two. *)
Theorem notify_hands_over (c : Cluster) (n : NodeID) (r : Routing) (p caller : NodeAddr) :
  c.(cl_nodes) !! n = Some r -> r.(r_id) = n -> r.(r_predecessor) = Some p ->
  caller.(na_id) <> n -> caller.(na_id) <> p.(na_id) ->
  let closer := BetweenExclusive caller.(na_id) p.(na_id) n in
  let lost := negb (canReach c n p.(na_id)) in
  let from := if closer then p.(na_id) else n in
  @notify _ (localTransport n) caller c =
    (if closer || lost then
       cl_spawn n (TTransferRecordsRange caller from caller.(na_id))
         (cl_spawn n (TTransferKeysRange caller from caller.(na_id))
           (cl_set_nodes <[n := set_predecessor (Some caller) r]> c))
     else c, Ok tt) /\
  (forall k, closer = true -> BetweenRightInclusive k p.(na_id) n = true ->
     (BetweenRightInclusive k from caller.(na_id) = true <->
      BetweenRightInclusive k caller.(na_id) n = false)).
Proof.
  intros Hr Hid Hp Hn Hne closer lost from. split.
  - assert (node_state n c = r) as Hst by (unfold node_state; by rewrite Hr).
    apply Equal_false in Hn. apply Equal_false in Hne.
    unfold notify, getRouting, mbind, M_bind, m_bind. cbn [localTransport ne_routing].
    rewrite Hst, Hp, Hid. fold closer.
    assert (forall r', @modifySpawn _ (localTransport n) r' c =
      (foldl (fun w t => cl_spawn n t w) (cl_set_nodes <[n := (r' r).1]> c) (r' r).2, Ok tt)) as Hmod.
    { intros f. unfold modifySpawn. cbn [localTransport ne_routing ne_set_routing ne_spawn].
      rewrite Hst. by destruct (f r). }
    subst from. destruct closer; cbn [orb].
    { rewrite Hmod. unfold acceptPredecessor. by rewrite Hid, Hn, Hp, Hne. }
    unfold m_try, lost. cbn [localTransport tr_Ping]. unfold local_Ping.
    destruct (canReach c n (na_id p)); cbn [negb]; [done|].
    rewrite Hmod, Hp, Equal_refl. cbn [closer_predecessor set_predecessor r_predecessor].
    unfold acceptPredecessor. cbn [set_predecessor r_predecessor r_id]. by rewrite Hid, Hn.
  - intros k Hc Hk. unfold from. rewrite Hc. apply (interval_split _ _ _ k) in Hc as [Ho Ha].
    rewrite Hk in Ho. destruct (BetweenRightInclusive k (na_id p) _), (BetweenRightInclusive k _ n);
      naive_solver.
Qed.

(** ** The properties apply *)

Definition three_nodes : gset NodeID := {[test_id x0a; test_id x64; test_id xc8]}.

Lemma ideal_ring_kept_witness :
  exists c', @run_event _ (localTransport (test_id x64)) EvStabilize (ideal_cluster three_nodes) = (c', Ok tt) /\
    ideal c' /\ dom c'.(cl_nodes) = dom (ideal_cluster three_nodes).(cl_nodes).
Proof.
  apply (ideal_ring_kept (ideal_cluster three_nodes) (test_id x64) EvStabilize).
  - apply ideal_cluster_ideal.
  - rewrite ideal_cluster_dom. unfold three_nodes. set_solver.
  - reflexivity.
Defined.

Lemma join_links_new_node_witness :
  let c := ideal_cluster {[test_id x0a]} in
  let c1 := AddNode (test_id x80) "test-128" 1 c in
  let c2 := (@stabilize _ (localTransport (test_id x80)) c1).1 in
  let c3 := (@stabilize _ (localTransport (test_id x0a)) c2).1 in
  linked ({[test_id x80]} ∪ dom c.(cl_nodes)) (ring_view c3).
Proof.
  apply (join_links_new_node (ideal_cluster {[test_id x0a]}) (test_id x80) (test_id x0a) (test_id x0a) []).
  - apply ideal_cluster_ideal.
  - rewrite ideal_cluster_dom. rewrite not_elem_of_singleton. vm_compute. intros H. discriminate H.
  - cbn [ideal_cluster cl_order]. apply elements_singleton.
  - rewrite ideal_cluster_dom. set_solver.
  - rewrite ideal_cluster_dom. split; [set_solver|]. intros y ->%elem_of_singleton. done.
Defined.

Lemma handleSuccessorFailure_spec_witness :
  let c := Partition (test_id x0a) (test_id x64) (ideal_cluster three_nodes) in
  let r := ideal_routing three_nodes (test_id x0a) in
  exists succ l,
    @handleSuccessorFailure _ (localTransport (test_id x0a)) c =
      (cl_set_nodes <[test_id x0a := set_successorList l (set_successor succ r)]> c, Ok tt).
Proof.
  intros c r.
  destruct (handleSuccessorFailure_spec c (test_id x0a) r) as (succ & l & Hrun & _).
  - apply ideal_cluster_lookup. unfold three_nodes. set_solver.
  - reflexivity.
  - exists succ, l. exact Hrun.
Defined.

Lemma notify_hands_over_witness :
  let c := ideal_cluster three_nodes in
  let r := ideal_routing three_nodes (test_id x64) in
  let caller := mkNodeAddr (test_id x32) "test-50" in
  let p := mkNodeAddr (test_id x0a) "" in
  @notify _ (localTransport (test_id x64)) caller c =
    (cl_spawn (test_id x64) (TTransferRecordsRange caller (test_id x0a) (test_id x32))
      (cl_spawn (test_id x64) (TTransferKeysRange caller (test_id x0a) (test_id x32))
        (cl_set_nodes <[test_id x64 := set_predecessor (Some caller) r]> c)), Ok tt).
Proof.
  intros c r caller p.
  destruct (notify_hands_over c (test_id x64) r p caller) as [Hrun _].
  - apply ideal_cluster_lookup. unfold three_nodes. set_solver.
  - reflexivity.
  - unfold r, p. cbn [ideal_routing r_predecessor]. do 2 f_equal.
    apply NodeID_eq. vm_compute. reflexivity.
  - vm_compute. intros H. discriminate H.
  - vm_compute. intros H. discriminate H.
  - rewrite Hrun. vm_compute (BetweenExclusive _ _ _). reflexivity.
Defined.
