(* ===== verification/Sha1.v ===== *)
(** * SHA-1 and the ids derived from it

    [crypto/sha1.Sum], executable on bytes, and the three uses of it: the id of a public
    key (src/dht/identity.go), of a content identifier and of an address
    (src/dht/chord.go). The test vectors of the standard check the transcription. *)

From stdpp Require Import base list strings.
From Stdlib Require Import ZArith Lia Strings.Byte.
From S2P Require Import Prelude Hex Chord.

Set Default Goal Selector "!".
Local Open Scope Z_scope.

Definition w32 (x : Z) : Z := x mod 2 ^ 32.

Definition rotl (n x : Z) : Z := w32 (Z.lor (Z.shiftl x n) (Z.shiftr x (32 - n))).

Definition not32 (x : Z) : Z := Z.lxor x (2 ^ 32 - 1).

(** Big-endian bytes of the low [8 * n] bits. *)
Fixpoint be_bytes (n : nat) (z : Z) : bytes :=
  match n with
  | O => []
  | S n' => byte_of_Z (Z.shiftr z (8 * Z.of_nat n')) :: be_bytes n' z
  end.

(** The message, a bit set, zeros up to 56 modulo 64, and the length in bits. *)
Definition sha1_pad (msg : bytes) : bytes :=
  let n := length msg in
  let zeros := ((119 - n mod 64) mod 64)%nat in
  msg ++ [x80] ++ replicate zeros x00 ++ be_bytes 8 (8 * Z.of_nat n).

Fixpoint words (n : nat) (b : bytes) : list Z :=
  match n with
  | O => []
  | S n' => be_val (take 4 b) :: words n' (drop 4 b)
  end.

(** The schedule is kept newest first: word [i] needs words [i-3], [i-8], [i-14], [i-16]. *)
Definition next_word (ws : list Z) : Z :=
  rotl 1 (Z.lxor (Z.lxor (nth 2 ws 0) (nth 7 ws 0)) (Z.lxor (nth 13 ws 0) (nth 15 ws 0))).

Definition schedule (block : bytes) : list Z :=
  rev (Nat.iter 64 (fun ws => next_word ws :: ws) (rev (words 16 block))).

Definition sha1_round (st : Z * Z * Z * Z * Z) (iw : nat * Z) : Z * Z * Z * Z * Z :=
  let '(a, b, c, d, e) := st in
  let '(i, w) := iw in
  let '(f, k) :=
    if (i <? 20)%nat then (Z.lor (Z.land b c) (Z.land (not32 b) d), 0x5a827999)
    else if (i <? 40)%nat then (Z.lxor (Z.lxor b c) d, 0x6ed9eba1)
    else if (i <? 60)%nat then (Z.lor (Z.lor (Z.land b c) (Z.land b d)) (Z.land c d), 0x8f1bbcdc)
    else (Z.lxor (Z.lxor b c) d, 0xca62c1d6) in
  (w32 (rotl 5 a + f + e + k + w), a, rotl 30 b, c, d).

Definition sha1_block (st : Z * Z * Z * Z * Z) (block : bytes) : Z * Z * Z * Z * Z :=
  let '(h0, h1, h2, h3, h4) := st in
  let '(a, b, c, d, e) := foldl sha1_round st (zip (seq 0 80) (schedule block)) in
  (w32 (h0 + a), w32 (h1 + b), w32 (h2 + c), w32 (h3 + d), w32 (h4 + e)).

Fixpoint sha1_blocks (n : nat) (st : Z * Z * Z * Z * Z) (b : bytes) : Z * Z * Z * Z * Z :=
  match n with
  | O => st
  | S n' => sha1_blocks n' (sha1_block st (take 64 b)) (drop 64 b)
  end.

Definition sha1_init : Z * Z * Z * Z * Z :=
  (0x67452301, 0xefcdab89, 0x98badcfe, 0x10325476, 0xc3d2e1f0).

Definition sha1_Sum (msg : bytes) : bytes :=
  let p := sha1_pad msg in
  let '(h0, h1, h2, h3, h4) := sha1_blocks (length p / 64) sha1_init p in
  be_bytes 4 h0 ++ be_bytes 4 h1 ++ be_bytes 4 h2 ++ be_bytes 4 h3 ++ be_bytes 4 h4.

Definition bytes_of_string (s : string) : bytes := String.list_byte_of_string s.

(** [AddrToNodeID] *)
Definition AddrToNodeID (addr : string) : NodeID := NodeID_copy (sha1_Sum (bytes_of_string addr)).

(** [CIDToNodeID], given the multihash [c.Hash()] of the identifier. *)
Definition CIDToNodeID (hash : bytes) : NodeID := NodeID_copy (sha1_Sum hash).

Definition PubKeyToNodeID (pub : bytes) : NodeID := NodeID_copy (sha1_Sum pub).

(** ** Facts *)

Lemma length_be_bytes n z : length (be_bytes n z) = n.
Proof. induction n as [|n IH]; cbn; congruence. Qed.

Lemma length_sha1_Sum msg : length (sha1_Sum msg) = 20%nat.
Proof.
  unfold sha1_Sum. cbv zeta. destruct (sha1_blocks _ _ _) as [[[[h0 h1] h2] h3] h4].
  by rewrite !length_app, !length_be_bytes.
Qed.

Example sha1_abc : hex_encode (sha1_Sum (bytes_of_string "abc")) = "a9993e364706816aba3e25717850c26c9cd0d89d".
Proof. vm_compute. reflexivity. Qed.

Example sha1_two_blocks :
  hex_encode (sha1_Sum (bytes_of_string "abcdbcdecdefdefgefghfghighijhijkijkljklmklmnlmnomnopnopq")) =
    "84983e441c3bd26ebaae4aa1f95129e5e54670f1".
Proof. vm_compute. reflexivity. Qed.
