(* ===== verification/Identity.v ===== *)
(** * Keys and identities (src/dht/identity.go, the group keys of src/dht/records.go)

    ed25519 is a parameter with the two facts the code relies on; a private key holds the
    public key in its second half, as the package documents. The identity file lives in a
    file system that is a map from paths to contents. *)

From stdpp Require Import base gmap list strings.
From Stdlib Require Import ZArith Lia Strings.Byte Ascii.
From S2P Require Import Prelude Hex Chord Sha1.

Set Default Goal Selector "!".
Local Open Scope Z_scope.

Definition PrivateKeySize : nat := 64.
Definition PublicKeySize : nat := 32.

Class Ed25519 := {
  ed_Sign : bytes -> bytes -> bytes;
  ed_Verify : bytes -> bytes -> bytes -> bool
}.

(** [priv.Public()] *)
Definition ed_Public (priv : bytes) : bytes := drop 32 priv.

(** A signature made with a private key verifies under its public key. *)
Class Ed25519Laws `{Ed25519} : Prop := {
  ed_Verify_Sign priv msg :
    length priv = PrivateKeySize -> ed_Verify (ed_Public priv) msg (ed_Sign priv msg) = true
}.

Record Identity := mkIdentity {
  PrivKey : bytes;
  PubKey : bytes;
  ID : NodeID
}.

Definition IdentityFromKey (priv : bytes) : Identity :=
  let pub := ed_Public priv in
  mkIdentity priv pub (PubKeyToNodeID pub).

(** [trimNewlines] *)
Definition is_newline (c : ascii) : bool :=
  bool_decide (c = "010"%char) || bool_decide (c = "013"%char).

Fixpoint trim_rev (s : list ascii) : list ascii :=
  match s with
  | c :: s' => if is_newline c then trim_rev s' else s
  | [] => []
  end.

Definition trimNewlines (s : string) : string :=
  String.string_of_list_ascii (rev (trim_rev (rev (String.list_ascii_of_string s)))).

Definition newline : string := String "010"%char EmptyString.

(** The files, the paths the process may not read, and those it cannot create. *)
Record FileSystem := mkFileSystem {
  fs_files : gmap string string;
  fs_denied : gset string;
  fs_unwritable : gset string
}.

(** [LoadOrCreateIdentity]; [generate] is what [GenerateIdentity] returns. *)
Definition LoadOrCreateIdentity (generate : result Identity) (path : string) : M FileSystem Identity :=
  fun fs =>
    if decide (path ∈ fs.(fs_denied)) then (fs, Err (errorf "read identity file: permission denied"))
    else
      match fs.(fs_files) !! path with
      | Some raw =>
          match hex_DecodeString (trimNewlines raw) with
          | Ok b =>
              if Nat.eqb (length b) PrivateKeySize then (fs, Ok (IdentityFromKey b))
              else (fs, Err (errorf ("identity file " +:+ path +:+ " is malformed")))
          | Err _ => (fs, Err (errorf ("identity file " +:+ path +:+ " is malformed")))
          end
      | None =>
          match generate with
          | Err e => (fs, Err e)
          | Ok ident =>
              let encoded := hex_encode ident.(PrivKey) in
              if decide (path ∈ fs.(fs_unwritable)) then (fs, Err (errorf "write identity file: denied"))
              else (mkFileSystem (<[path := encoded +:+ newline]> fs.(fs_files))
                      fs.(fs_denied) fs.(fs_unwritable), Ok ident)
          end
      end.

(** ** Groups *)

Record GroupIdentity := mkGroupIdentity {
  g_PrivKey : bytes;
  g_PubKey : bytes;
  g_GroupID : NodeID;
  g_PSK : bytes
}.

(** [DerivePSK] is HMAC-SHA256, here [hmac key msg]. *)
Definition DerivePSK (hmac : bytes -> bytes -> bytes) (priv : bytes) : bytes :=
  hmac priv (bytes_of_string "psk").

Definition NewGroupIdentity (hmac : bytes -> bytes -> bytes) (priv : bytes) : GroupIdentity :=
  let pub := ed_Public priv in
  mkGroupIdentity priv pub (PubKeyToNodeID pub) (DerivePSK hmac priv).

Definition GroupIdentityFromHex (hmac : bytes -> bytes -> bytes) (hexKey : string) : result GroupIdentity :=
  match hex_DecodeString hexKey with
  | Err e => Err (errorf_w "decode hex key: " e "")
  | Ok b =>
      if Nat.eqb (length b) PrivateKeySize then Ok (NewGroupIdentity hmac b)
      else Err (errorf "invalid key length")
  end.

Definition PrivKeyHex (g : GroupIdentity) : string := hex_encode g.(g_PrivKey).

(** ** Round trips *)

Lemma list_ascii_app a b :
  String.list_ascii_of_string (a +:+ b) =
    String.list_ascii_of_string a ++ String.list_ascii_of_string b.
Proof. induction a as [|c a IH]; [done|]. rewrite string_app_cons. cbn. by rewrite IH. Qed.

Lemma hex_encode_no_newline bs :
  Forall (fun c => is_newline c = false) (String.list_ascii_of_string (hex_encode bs)).
Proof.
  induction bs as [|b bs IH]; cbn [hex_encode String.list_ascii_of_string]; [constructor|].
  repeat constructor; [destruct b; reflexivity..|done].
Qed.

Lemma trim_rev_none l : Forall (fun c => is_newline c = false) l -> trim_rev l = l.
Proof. intros [|c l' Hc _]; cbn [trim_rev]; [done|]. by rewrite Hc. Qed.

Lemma trimNewlines_hex bs : trimNewlines (hex_encode bs +:+ newline) = hex_encode bs.
Proof.
  unfold trimNewlines. rewrite list_ascii_app, rev_app_distr. cbn [newline String.list_ascii_of_string rev app trim_rev].
  change (is_newline "010") with true. cbn iota. rewrite trim_rev_none.
  - rewrite rev_involutive. apply String.string_of_list_ascii_of_string.
  - apply Forall_rev, hex_encode_no_newline.
Qed.

(** An identity created on the first start is the one every later start loads: the
    key written to the identity file decodes to the same private key, public key and
    node id, and loading leaves the file as it is. *)
Theorem identity_file_roundtrip (priv : bytes) (path : string) (fs fs' : FileSystem) (ident : Identity) :
  length priv = PrivateKeySize -> fs.(fs_files) !! path = None ->
  LoadOrCreateIdentity (Ok (IdentityFromKey priv)) path fs = (fs', Ok ident) ->
  ident = IdentityFromKey priv /\
  forall generate, LoadOrCreateIdentity generate path fs' = (fs', Ok ident).
Proof.
  intros Hlen Hnone. unfold LoadOrCreateIdentity.
  destruct (decide (path ∈ fs_denied fs)) as [|Hden]; [done|]. rewrite Hnone.
  destruct (decide (path ∈ fs_unwritable fs)) as [|_]; [done|].
  intros [= <- <-]. split; [done|]. intros generate. cbn [fs_files fs_denied].
  rewrite decide_False by done. rewrite lookup_insert_eq. cbn [IdentityFromKey PrivKey].
  rewrite trimNewlines_hex, hex_DecodeString_encode, Hlen. done.
Qed.

Definition test_key : bytes := replicate 32 x01 ++ replicate 32 x02.

Lemma identity_file_roundtrip_witness :
  let fs := mkFileSystem ∅ ∅ ∅ in
  let out := LoadOrCreateIdentity (Ok (IdentityFromKey test_key)) "id.key" fs in
  LoadOrCreateIdentity (Err (errorf "no entropy")) "id.key" out.1 = (out.1, Ok (IdentityFromKey test_key)).
Proof.
  intros fs out.
  destruct (identity_file_roundtrip test_key "id.key" fs out.1 (IdentityFromKey test_key)) as [_ H].
  - reflexivity.
  - reflexivity.
  - reflexivity.
  - apply H.
Defined.

(** The hex form of a group's private key, in which invitations carry it, gives back
    the same group: keys, group id and pre-shared key. *)
Theorem group_key_roundtrip (hmac : bytes -> bytes -> bytes) (priv : bytes) :
  length priv = PrivateKeySize ->
  GroupIdentityFromHex hmac (PrivKeyHex (NewGroupIdentity hmac priv)) = Ok (NewGroupIdentity hmac priv).
Proof.
  intros Hlen. unfold GroupIdentityFromHex, PrivKeyHex. cbn [NewGroupIdentity g_PrivKey].
  by rewrite hex_DecodeString_encode, Hlen.
Qed.

Lemma group_key_roundtrip_witness :
  GroupIdentityFromHex (fun k m => sha1_Sum (k ++ m))
    (PrivKeyHex (NewGroupIdentity (fun k m => sha1_Sum (k ++ m)) test_key)) =
  Ok (NewGroupIdentity (fun k m => sha1_Sum (k ++ m)) test_key).
Proof. apply (group_key_roundtrip (fun k m => sha1_Sum (k ++ m)) test_key). reflexivity. Defined.
