(* ===== verification/Records.v ===== *)
(** * DHT records (src/dht/records.go, the messages of src/dht/dhtpb)

    The three kinds of records, their signing, verification and encodings. Protocol
    buffers and CBOR are third-party code: [WireCodec] holds their entry points for the
    messages in use, and [WireCodecLaws] what their documentation promises: decoding an
    encoding gives the message back, and no bytes decode to the empty message. *)

From stdpp Require Import base gmap list strings.
From Stdlib Require Import ZArith Lia Strings.Byte.
From S2P Require Import Prelude Hex Chord Sha1 Identity.

Set Default Goal Selector "!".
Local Open Scope Z_scope.

(** ** Messages of dht.proto *)

Record pbSignedRecord := mkSigned { sr_Data : bytes; sr_Pubkey : bytes; sr_Signature : bytes }.
Record pbProviderRecord := mkPbProvider { pr_ContentHash : bytes; pr_Provider : bytes }.
Record pbProviderRecordList := mkPbProviderList {
  prl_Providers : list pbProviderRecord;
  prl_Timestamps : list Z
}.

(** ** Data signed by peers and groups *)

Record PeerIdentityData := mkPeerData {
  pd_PeerID : NodeID;
  pd_Version : Z;
  pd_Address : string;
  pd_GroupAddrs : gmap string string
}.

Record GroupIdentityData := mkGroupData {
  gd_GroupID : NodeID;
  gd_Version : Z;
  gd_Peers : list NodeID
}.

Class WireCodec := {
  marshalSigned : pbSignedRecord -> result bytes;
  unmarshalSigned : bytes -> result pbSignedRecord;
  marshalProvider : pbProviderRecord -> result bytes;
  unmarshalProvider : bytes -> result pbProviderRecord;
  marshalProviderList : pbProviderRecordList -> result bytes;
  unmarshalProviderList : bytes -> result pbProviderRecordList;
  cborMarshalPeer : PeerIdentityData -> result bytes;
  cborUnmarshalPeer : bytes -> result PeerIdentityData;
  cborMarshalGroup : GroupIdentityData -> result bytes;
  cborUnmarshalGroup : bytes -> result GroupIdentityData
}.

(** The round trips of protobuf and CBOR. CBOR text is UTF-8: the library gives the law for
    peers for records whose strings are, as addresses (multiaddrs) and printed identifiers are. *)
Class WireCodecLaws `{WireCodec} : Prop := {
  signed_roundtrip m b : marshalSigned m = Ok b -> unmarshalSigned b = Ok m;
  provider_roundtrip m b : marshalProvider m = Ok b -> unmarshalProvider b = Ok m;
  provider_list_roundtrip m b : marshalProviderList m = Ok b -> unmarshalProviderList b = Ok m;
  provider_list_empty : unmarshalProviderList [] = Ok (mkPbProviderList [] []);
  cbor_peer_roundtrip d b : cborMarshalPeer d = Ok b -> cborUnmarshalPeer b = Ok d;
  cbor_group_roundtrip d b : cborMarshalGroup d = Ok b -> cborUnmarshalGroup b = Ok d
}.

Record PeerIdentityRecord := mkPeerRecord {
  pir_Data : PeerIdentityData;
  pir_PubKey : bytes;
  pir_Signature : bytes
}.

Record GroupIdentityRecord := mkGroupRecord {
  gir_Data : GroupIdentityData;
  gir_PubKey : bytes;
  gir_Signature : bytes
}.

Record ProviderRecord := mkProviderRecord { ContentHash : NodeID; Provider : NodeID }.

#[export] Instance ProviderRecord_eq_dec : EqDecision ProviderRecord.
Proof. solve_decision. Defined.

Definition peerRecordPrefix : string := "drings-peer:".
Definition groupRecordPrefix : string := "drings-group:".

(** [cborSignPayload], after [cborEncMode.Marshal]. *)
Definition cborSignPayload (prefix : string) (inner : result bytes) : result bytes :=
  b ← inner; Ok (bytes_of_string prefix ++ b).

Section Codec.
Context `{WireCodec} `{Ed25519}.

(** ** Peers *)

Definition PeerIdentityRecord_sign (priv : bytes) (r : PeerIdentityRecord) : result PeerIdentityRecord :=
  match cborSignPayload peerRecordPrefix (cborMarshalPeer r.(pir_Data)) with
  | Err e => Err (errorf_w "encode peer identity data: " e "")
  | Ok payload => Ok (mkPeerRecord r.(pir_Data) r.(pir_PubKey) (ed_Sign priv payload))
  end.

Definition NewPeerIdentityRecord (ident : Identity) (version : Z) (address : string)
    (groupAddrs : gmap string string) : result PeerIdentityRecord :=
  let r := mkPeerRecord (mkPeerData ident.(ID) version address groupAddrs) ident.(PubKey) [] in
  PeerIdentityRecord_sign ident.(PrivKey) r.

Definition PeerIdentityRecord_Verify (r : PeerIdentityRecord) : result unit :=
  let pub := r.(pir_PubKey) in
  if negb (Nat.eqb (length pub) PublicKeySize) then Err (errorf "invalid public key length")
  else if negb (Equal (PubKeyToNodeID pub) r.(pir_Data).(pd_PeerID))
  then Err (errorf "peer_id does not match hash of public key")
  else
    match cborSignPayload peerRecordPrefix (cborMarshalPeer r.(pir_Data)) with
    | Err e => Err (errorf_w "encode peer identity data: " e "")
    | Ok payload =>
        if ed_Verify pub payload r.(pir_Signature) then Ok tt
        else Err (errorf "signature verification failed")
    end.

Definition PeerIdentityRecord_Encode (r : PeerIdentityRecord) : result bytes :=
  match cborMarshalPeer r.(pir_Data) with
  | Err e => Err (errorf_w "cbor encode peer identity data: " e "")
  | Ok inner => marshalSigned (mkSigned inner r.(pir_PubKey) r.(pir_Signature))
  end.

Definition DecodePeerIdentityRecord (data : bytes) : result PeerIdentityRecord :=
  match unmarshalSigned data with
  | Err e => Err (errorf_w "decode peer identity record (proto): " e "")
  | Ok pb =>
      match cborUnmarshalPeer pb.(sr_Data) with
      | Err e => Err (errorf_w "decode peer identity record (cbor): " e "")
      | Ok d => Ok (mkPeerRecord d pb.(sr_Pubkey) pb.(sr_Signature))
      end
  end.

(** ** Groups *)

Definition GroupIdentityRecord_sign (priv : bytes) (r : GroupIdentityRecord) : result GroupIdentityRecord :=
  match cborSignPayload groupRecordPrefix (cborMarshalGroup r.(gir_Data)) with
  | Err e => Err (errorf_w "encode group identity data: " e "")
  | Ok payload => Ok (mkGroupRecord r.(gir_Data) r.(gir_PubKey) (ed_Sign priv payload))
  end.

Definition NewGroupIdentityRecord (grp : GroupIdentity) (version : Z) (peers : list NodeID)
    : result GroupIdentityRecord :=
  let r := mkGroupRecord (mkGroupData grp.(g_GroupID) version peers) grp.(g_PubKey) [] in
  GroupIdentityRecord_sign grp.(g_PrivKey) r.

Definition GroupIdentityRecord_Verify (r : GroupIdentityRecord) : result unit :=
  let pub := r.(gir_PubKey) in
  if negb (Nat.eqb (length pub) PublicKeySize) then Err (errorf "invalid public key length")
  else if negb (Equal (PubKeyToNodeID pub) r.(gir_Data).(gd_GroupID))
  then Err (errorf "group_id does not match hash of public key")
  else
    match cborSignPayload groupRecordPrefix (cborMarshalGroup r.(gir_Data)) with
    | Err e => Err (errorf_w "encode group identity data: " e "")
    | Ok payload =>
        if ed_Verify pub payload r.(gir_Signature) then Ok tt
        else Err (errorf "signature verification failed")
    end.

Definition GroupIdentityRecord_Encode (r : GroupIdentityRecord) : result bytes :=
  match cborMarshalGroup r.(gir_Data) with
  | Err e => Err (errorf_w "cbor encode group identity data: " e "")
  | Ok inner => marshalSigned (mkSigned inner r.(gir_PubKey) r.(gir_Signature))
  end.

Definition DecodeGroupIdentityRecord (data : bytes) : result GroupIdentityRecord :=
  match unmarshalSigned data with
  | Err e => Err (errorf_w "decode group identity record (proto): " e "")
  | Ok pb =>
      match cborUnmarshalGroup pb.(sr_Data) with
      | Err e => Err (errorf_w "decode group identity record (cbor): " e "")
      | Ok d => Ok (mkGroupRecord d pb.(sr_Pubkey) pb.(sr_Signature))
      end
  end.

(** ** Providers *)

Definition pb_of_provider (r : ProviderRecord) : pbProviderRecord :=
  mkPbProvider (nid_bytes r.(ContentHash)) (nid_bytes r.(Provider)).

Definition provider_of_pb (p : pbProviderRecord) : ProviderRecord :=
  mkProviderRecord (NodeID_copy p.(pr_ContentHash)) (NodeID_copy p.(pr_Provider)).

Definition ProviderRecord_Encode (r : ProviderRecord) : result bytes :=
  marshalProvider (pb_of_provider r).

Fixpoint decode_providers (ps : list pbProviderRecord) : result (list ProviderRecord) :=
  match ps with
  | [] => Ok []
  | p :: ps' =>
      if negb (Nat.eqb (length p.(pr_ContentHash)) 20) || negb (Nat.eqb (length p.(pr_Provider)) 20)
      then Err (errorf "provider record has invalid field lengths")
      else rest ← decode_providers ps'; Ok (provider_of_pb p :: rest)
  end.

Definition DecodeProviderRecords (data : bytes) : result (list ProviderRecord) :=
  match unmarshalProviderList data with
  | Err e => Err (errorf_w "decode provider record list: " e "")
  | Ok list => decode_providers list.(prl_Providers)
  end.

Definition encodeProviderRecordList (rs : list ProviderRecord) : result bytes :=
  marshalProviderList (mkPbProviderList (pb_of_provider <$> rs) []).

(** [wall] is [time.Now()], used for a provider without an entry in [times]. *)
Definition encodeProviderRecordListWithTimestamps (wall : Z) (rs : list ProviderRecord)
    (times : gmap NodeID Z) : result bytes :=
  marshalProviderList (mkPbProviderList (pb_of_provider <$> rs)
    ((fun r => wrap64 (default wall (times !! r.(Provider)))) <$> rs)).

End Codec.

(** ** Encodings give back what they encode *)

Section CodecLemmas.
Context `{HW : WireCodec} `{HE : Ed25519} `{!WireCodecLaws}.

Lemma provider_of_pb_of r : provider_of_pb (pb_of_provider r) = r.
Proof.
  destruct r as [h p]. unfold provider_of_pb, pb_of_provider. cbn [pr_ContentHash pr_Provider ContentHash Provider].
  by rewrite !NodeID_copy_bytes.
Qed.

Lemma decode_providers_of rs : decode_providers (pb_of_provider <$> rs) = Ok rs.
Proof.
  induction rs as [|r rs IH]; [done|]. rewrite fmap_cons. cbn [decode_providers].
  cbn [pb_of_provider pr_ContentHash pr_Provider]. rewrite !nid_length. cbn [Nat.eqb negb orb].
  rewrite IH. unfold mbind, result_bind. by rewrite provider_of_pb_of.
Qed.

Lemma DecodeProviderRecords_list rs b :
  encodeProviderRecordList rs = Ok b -> DecodeProviderRecords b = Ok rs.
Proof.
  intros Hb%provider_list_roundtrip. unfold DecodeProviderRecords. rewrite Hb. apply decode_providers_of.
Qed.

Lemma DecodeProviderRecords_timed wall rs times b :
  encodeProviderRecordListWithTimestamps wall rs times = Ok b -> DecodeProviderRecords b = Ok rs.
Proof.
  intros Hb%provider_list_roundtrip. unfold DecodeProviderRecords. rewrite Hb. apply decode_providers_of.
Qed.

Lemma DecodeProviderRecords_nil : DecodeProviderRecords [] = Ok [].
Proof. unfold DecodeProviderRecords. by rewrite provider_list_empty. Qed.

Lemma DecodePeer_Encode r b : PeerIdentityRecord_Encode r = Ok b -> DecodePeerIdentityRecord b = Ok r.
Proof.
  unfold PeerIdentityRecord_Encode, DecodePeerIdentityRecord. destruct r as [d pub sig]. cbn [pir_Data].
  destruct (cborMarshalPeer d) as [inner|e] eqn:Hd; [|done]. intros Hb%signed_roundtrip. rewrite Hb.
  cbn [sr_Data]. by rewrite (cbor_peer_roundtrip _ _ Hd).
Qed.

Lemma DecodeGroup_Encode r b : GroupIdentityRecord_Encode r = Ok b -> DecodeGroupIdentityRecord b = Ok r.
Proof.
  unfold GroupIdentityRecord_Encode, DecodeGroupIdentityRecord. destruct r as [d pub sig]. cbn [gir_Data].
  destruct (cborMarshalGroup d) as [inner|e] eqn:Hd; [|done]. intros Hb%signed_roundtrip. rewrite Hb.
  cbn [sr_Data]. by rewrite (cbor_group_roundtrip _ _ Hd).
Qed.

Lemma length_ed_Public priv : length priv = PrivateKeySize -> length (ed_Public priv) = PublicKeySize.
Proof. unfold ed_Public. rewrite length_drop. unfold PrivateKeySize, PublicKeySize. lia. Qed.

(** A record a peer signs for itself survives the wire: what other nodes decode from
    its encoding is the record that was made, it carries the peer's id and version, and
    it passes verification. *)
Theorem peer_record_verifies `{!Ed25519Laws} (priv : bytes) (version : Z) (address : string)
    (groups : gmap string string) (r : PeerIdentityRecord) (b : bytes) :
  length priv = PrivateKeySize ->
  NewPeerIdentityRecord (IdentityFromKey priv) version address groups = Ok r ->
  PeerIdentityRecord_Encode r = Ok b ->
  DecodePeerIdentityRecord b = Ok r /\ PeerIdentityRecord_Verify r = Ok tt /\
  r.(pir_Data) = mkPeerData (PubKeyToNodeID (ed_Public priv)) version address groups.
Proof.
  intros Hlen Hnew Henc. split; [by apply DecodePeer_Encode|]. revert Hnew.
  unfold NewPeerIdentityRecord, PeerIdentityRecord_sign. cbn [IdentityFromKey pir_Data pir_PubKey PubKey PrivKey ID].
  destruct (cborSignPayload _ _) as [payload|e] eqn:Hpay; [|done]. intros [= <-]. split; [|done].
  unfold PeerIdentityRecord_Verify. cbn [pir_Data pir_PubKey pir_Signature pd_PeerID].
  rewrite length_ed_Public, Nat.eqb_refl, Equal_refl, Hpay by done. cbn [negb].
  by rewrite ed_Verify_Sign.
Qed.

(** The same for the record a group's key holder signs for its member list. *)
Theorem group_record_verifies `{!Ed25519Laws} (hmac : bytes -> bytes -> bytes) (priv : bytes)
    (version : Z) (peers : list NodeID) (r : GroupIdentityRecord) (b : bytes) :
  length priv = PrivateKeySize ->
  NewGroupIdentityRecord (NewGroupIdentity hmac priv) version peers = Ok r ->
  GroupIdentityRecord_Encode r = Ok b ->
  DecodeGroupIdentityRecord b = Ok r /\ GroupIdentityRecord_Verify r = Ok tt /\
  r.(gir_Data) = mkGroupData (PubKeyToNodeID (ed_Public priv)) version peers.
Proof.
  intros Hlen Hnew Henc. split; [by apply DecodeGroup_Encode|]. revert Hnew.
  unfold NewGroupIdentityRecord, GroupIdentityRecord_sign.
  cbn [NewGroupIdentity gir_Data gir_PubKey g_PubKey g_PrivKey g_GroupID].
  destruct (cborSignPayload _ _) as [payload|e] eqn:Hpay; [|done]. intros [= <-]. split; [|done].
  unfold GroupIdentityRecord_Verify. cbn [gir_Data gir_PubKey gir_Signature gd_GroupID].
  rewrite length_ed_Public, Nat.eqb_refl, Equal_refl, Hpay by done. cbn [negb].
  by rewrite ed_Verify_Sign.
Qed.

Lemma PeerIdentityRecord_Verify_Ok r :
  PeerIdentityRecord_Verify r = Ok tt <->
  length r.(pir_PubKey) = PublicKeySize /\ r.(pir_Data).(pd_PeerID) = PubKeyToNodeID r.(pir_PubKey) /\
  exists payload, cborSignPayload peerRecordPrefix (cborMarshalPeer r.(pir_Data)) = Ok payload /\
    ed_Verify r.(pir_PubKey) payload r.(pir_Signature) = true.
Proof.
  unfold PeerIdentityRecord_Verify. cbv zeta.
  destruct (Nat.eqb_spec (length (pir_PubKey r)) PublicKeySize); cbn [negb];
    [|by split; [|intros (? & _)]].
  destruct (Equal _ _) eqn:Heq; cbn [negb].
  - apply Equal_true in Heq. destruct (cborSignPayload _ _) as [payload|er];
      [|by split; [|intros (_ & _ & ? & ? & _)]].
    destruct (ed_Verify _ _ _) eqn:Hv.
    + split; [|done]. intros _. split_and!; [done..|]. by exists payload.
    + split; [done|]. intros (_ & _ & p & [= <-] & Hp). by rewrite Hp in Hv.
  - apply Equal_false in Heq. split; [done|]. intros (_ & ? & _). congruence.
Qed.

Lemma GroupIdentityRecord_Verify_Ok r :
  GroupIdentityRecord_Verify r = Ok tt <->
  length r.(gir_PubKey) = PublicKeySize /\ r.(gir_Data).(gd_GroupID) = PubKeyToNodeID r.(gir_PubKey) /\
  exists payload, cborSignPayload groupRecordPrefix (cborMarshalGroup r.(gir_Data)) = Ok payload /\
    ed_Verify r.(gir_PubKey) payload r.(gir_Signature) = true.
Proof.
  unfold GroupIdentityRecord_Verify. cbv zeta.
  destruct (Nat.eqb_spec (length (gir_PubKey r)) PublicKeySize); cbn [negb];
    [|by split; [|intros (? & _)]].
  destruct (Equal _ _) eqn:Heq; cbn [negb].
  - apply Equal_true in Heq. destruct (cborSignPayload _ _) as [payload|er];
      [|by split; [|intros (_ & _ & ? & ? & _)]].
    destruct (ed_Verify _ _ _) eqn:Hv.
    + split; [|done]. intros _. split_and!; [done..|]. by exists payload.
    + split; [done|]. intros (_ & _ & p & [= <-] & Hp). by rewrite Hp in Hv.
  - apply Equal_false in Heq. split; [done|]. intros (_ & ? & _). congruence.
Qed.

End CodecLemmas.

(** The payloads of peers and groups differ whatever they hold. *)
Lemma payload_domains i1 i2 b1 b2 :
  cborSignPayload peerRecordPrefix i1 = Ok b1 -> cborSignPayload groupRecordPrefix i2 = Ok b2 -> b1 <> b2.
Proof.
  unfold cborSignPayload, mbind, result_bind. destruct i1, i2; try done. by intros [= <-] [= <-].
Qed.
