(* ===== verification/TestCodec.v ===== *)
(** * Concrete codecs and signatures

    Instances of the third-party interfaces on which the theorems are applied: a codec
    that serializes a message behind a byte for its kind, and a toy
    signature scheme that satisfies the one law the development assumes. *)

From stdpp Require Import base gmap list strings.
From Stdlib Require Import ZArith Lia Strings.Byte.
From S2P Require Import Prelude Chord Sha1 Identity Records.

Set Default Goal Selector "!".

(** ** A serializer *)

(** [get] reads back what [put] wrote, whatever follows. *)
Class Wire (A : Type) := {
  put : A -> bytes;
  get : bytes -> option (A * bytes);
  get_put a rest : get (put a ++ rest) = Some (a, rest)
}.

#[export, refine] Instance byte_wire : Wire byte := {|
  put b := [b];
  get l := match l with b :: l' => Some (b, l') | [] => None end
|}.
Proof. done. Defined.

(** Numbers in unary, and integers as a sign and the bits of their absolute value. *)
Fixpoint put_nat (n : nat) : bytes := match n with O => [x00] | S n' => x01 :: put_nat n' end.

Fixpoint get_nat (l : bytes) : option (nat * bytes) :=
  match l with
  | x00 :: l' => Some (O, l')
  | x01 :: l' => match get_nat l' with Some (n, l'') => Some (S n, l'') | None => None end
  | _ => None
  end.

Fixpoint put_pos (p : positive) : bytes :=
  match p with xH => [x02] | xO p' => x00 :: put_pos p' | xI p' => x01 :: put_pos p' end.

Fixpoint get_pos (l : bytes) : option (positive * bytes) :=
  match l with
  | x00 :: l' => match get_pos l' with Some (p, l'') => Some (xO p, l'') | None => None end
  | x01 :: l' => match get_pos l' with Some (p, l'') => Some (xI p, l'') | None => None end
  | x02 :: l' => Some (xH, l')
  | _ => None
  end.

Lemma get_put_pos p rest : get_pos (put_pos p ++ rest) = Some (p, rest).
Proof. induction p as [p IH|p IH|]; cbn; by rewrite ?IH. Qed.

#[export, refine] Instance nat_wire : Wire nat := {| put := put_nat; get := get_nat |}.
Proof. intros n rest. induction n as [|n IH]; cbn; by rewrite ?IH. Defined.

#[export, refine] Instance Z_wire : Wire Z := {|
  put z := match z with Z0 => [x00] | Zpos p => x01 :: put_pos p | Zneg p => x02 :: put_pos p end;
  get l := match l with
    | x00 :: l' => Some (0%Z, l')
    | x01 :: l' => match get_pos l' with Some (p, l'') => Some (Zpos p, l'') | None => None end
    | x02 :: l' => match get_pos l' with Some (p, l'') => Some (Zneg p, l'') | None => None end
    | _ => None
    end
|}.
Proof. intros [|p|p] rest; cbn; by rewrite ?get_put_pos. Defined.

Section Containers.
Context {A B : Type} `{Wire A} `{Wire B}.

Fixpoint get_n (n : nat) (l : bytes) : option (list A * bytes) :=
  match n with
  | O => Some ([], l)
  | S n' =>
      match get l with
      | Some (a, l') => match get_n n' l' with Some (xs, l'') => Some (a :: xs, l'') | None => None end
      | None => None
      end
  end.

Lemma get_n_put xs rest : get_n (length xs) (concat (put <$> xs) ++ rest) = Some (xs, rest).
Proof.
  induction xs as [|x xs IH]; [done|]. rewrite fmap_cons. cbn [length get_n concat].
  by rewrite <- app_assoc, get_put, IH.
Qed.

#[export, refine] Instance list_wire : Wire (list A) := {|
  put xs := put (length xs) ++ concat (put <$> xs);
  get l := match get l with Some (n, l') => get_n n l' | None => None end
|}.
Proof. intros xs rest. rewrite <- app_assoc, get_put. apply get_n_put. Defined.

#[export, refine] Instance prod_wire : Wire (A * B) := {|
  put x := put x.1 ++ put x.2;
  get l := match get l with
    | Some (a, l') => match get l' with Some (b, l'') => Some ((a, b), l'') | None => None end
    | None => None
    end
|}.
Proof. intros [a b] rest. cbn. by rewrite <- app_assoc, !get_put. Defined.

(** A type with a view in one that has a serializer. *)
Definition view_wire {C} (view : C -> A) (back : A -> C) (Hview : forall c, back (view c) = c) : Wire C.
Proof.
  refine {|
    put c := put (view c);
    get l := match get l with Some (a, l') => Some (back a, l') | None => None end
  |}.
  intros c rest. by rewrite get_put, Hview.
Defined.

End Containers.

#[export] Instance string_wire : Wire string :=
  view_wire String.list_byte_of_string String.string_of_list_byte String.string_of_list_byte_of_string.

#[export] Instance NodeID_wire : Wire NodeID := view_wire nid_bytes NodeID_copy NodeID_copy_bytes.

#[export] Instance map_wire : Wire (gmap string string) :=
  view_wire map_to_list list_to_map (list_to_map_to_list (M := gmap string)).

#[export, refine] Instance pbSigned_wire : Wire pbSignedRecord :=
  view_wire (fun m => (sr_Data m, sr_Pubkey m, sr_Signature m)) (fun t => mkSigned t.1.1 t.1.2 t.2) _.
Proof. by intros []. Defined.

#[export, refine] Instance pbProvider_wire : Wire pbProviderRecord :=
  view_wire (fun m => (pr_ContentHash m, pr_Provider m)) (fun t => mkPbProvider t.1 t.2) _.
Proof. by intros []. Defined.

#[export, refine] Instance pbProviderList_wire : Wire pbProviderRecordList :=
  view_wire (fun m => (prl_Providers m, prl_Timestamps m)) (fun t => mkPbProviderList t.1 t.2) _.
Proof. by intros []. Defined.

#[export, refine] Instance PeerData_wire : Wire PeerIdentityData :=
  view_wire (fun d => (pd_PeerID d, pd_Version d, pd_Address d, pd_GroupAddrs d))
    (fun t => mkPeerData t.1.1.1 t.1.1.2 t.1.2 t.2) _.
Proof. by intros []. Defined.

#[export, refine] Instance GroupData_wire : Wire GroupIdentityData :=
  view_wire (fun d => (gd_GroupID d, gd_Version d, gd_Peers d)) (fun t => mkGroupData t.1.1 t.1.2 t.2) _.
Proof. by intros []. Defined.

(** ** Messages *)

Definition put_message {A} `{Wire A} (kind : byte) (m : A) : result bytes := Ok (kind :: put m).

Definition get_message {A} `{Wire A} (kind : byte) (b : bytes) : result A :=
  match b with
  | k :: b' =>
      if bool_decide (k = kind) then
        match get b' with Some (m, []) => Ok m | _ => Err (errorf "malformed message") end
      else Err (errorf "unexpected message")
  | [] => Err (errorf "empty message")
  end.

Lemma get_put_message {A} `{Wire A} kind (m : A) b :
  put_message kind m = Ok b -> get_message kind b = Ok m.
Proof.
  intros [= <-]. cbn [get_message]. rewrite bool_decide_eq_true_2 by done.
  pose proof (get_put m []) as Hm. rewrite app_nil_r in Hm. by rewrite Hm.
Qed.

#[export] Instance test_codec : WireCodec := {|
  marshalSigned := put_message x01;
  unmarshalSigned := get_message x01;
  marshalProvider := put_message x02;
  unmarshalProvider := get_message x02;
  marshalProviderList := put_message x03;
  unmarshalProviderList := fun b =>
    if bool_decide (b = []) then Ok (mkPbProviderList [] []) else get_message x03 b;
  cborMarshalPeer := put_message x04;
  cborUnmarshalPeer := get_message x04;
  cborMarshalGroup := put_message x05;
  cborUnmarshalGroup := get_message x05
|}.

#[export] Instance test_codec_laws : WireCodecLaws.
Proof.
  split; cbn [marshalSigned unmarshalSigned marshalProvider unmarshalProvider marshalProviderList
    unmarshalProviderList cborMarshalPeer cborUnmarshalPeer cborMarshalGroup cborUnmarshalGroup test_codec];
    intros; try by apply get_put_message.
  - rewrite bool_decide_eq_false_2; [by apply get_put_message|]. unfold put_message in *. congruence.
  - by rewrite bool_decide_eq_true_2.
Qed.

(** ** A signature scheme that anyone can forge *)

#[export] Instance test_ed25519 : Ed25519 := {|
  ed_Sign := fun priv msg => ed_Public priv ++ sha1_Sum msg ++ replicate 12 x00;
  ed_Verify := fun pub msg sig => bool_decide (sig = pub ++ sha1_Sum msg ++ replicate 12 x00)
|}.

#[export] Instance test_ed25519_laws : Ed25519Laws.
Proof. split. intros priv msg _. by apply bool_decide_eq_true_2. Qed.

Definition test_peer : Identity := IdentityFromKey test_key.

Definition test_peer_record (version : Z) : PeerIdentityRecord :=
  match NewPeerIdentityRecord test_peer version "/ip4/127.0.0.1/tcp/4001" ∅ with
  | Ok r => r
  | Err _ => mkPeerRecord (mkPeerData zeroID 0 "" ∅) [] []
  end.

Definition test_peer_bytes (version : Z) : bytes :=
  match PeerIdentityRecord_Encode (test_peer_record version) with Ok b => b | Err _ => [] end.

(** ** The properties of Records.v apply *)

Lemma peer_record_verifies_witness :
  DecodePeerIdentityRecord (test_peer_bytes 7) = Ok (test_peer_record 7) /\
  PeerIdentityRecord_Verify (test_peer_record 7) = Ok tt.
Proof.
  destruct (peer_record_verifies test_key 7 "/ip4/127.0.0.1/tcp/4001" ∅ (test_peer_record 7)
    (test_peer_bytes 7)) as (H1 & H2 & _).
  - reflexivity.
  - reflexivity.
  - reflexivity.
  - split; [exact H1|exact H2].
Defined.

Definition test_hmac (k m : bytes) : bytes := sha1_Sum (k ++ m).

Definition test_group : GroupIdentity := NewGroupIdentity test_hmac test_key.

Definition test_group_record (version : Z) : GroupIdentityRecord :=
  match NewGroupIdentityRecord test_group version [test_id x0a] with
  | Ok r => r
  | Err _ => mkGroupRecord (mkGroupData zeroID 0 []) [] []
  end.

Definition test_group_bytes (version : Z) : bytes :=
  match GroupIdentityRecord_Encode (test_group_record version) with Ok b => b | Err _ => [] end.

Lemma group_record_verifies_witness :
  DecodeGroupIdentityRecord (test_group_bytes 3) = Ok (test_group_record 3) /\
  GroupIdentityRecord_Verify (test_group_record 3) = Ok tt.
Proof.
  destruct (group_record_verifies test_hmac test_key 3 [test_id x0a] (test_group_record 3)
    (test_group_bytes 3)) as (H1 & H2 & _).
  - reflexivity.
  - reflexivity.
  - reflexivity.
  - split; [exact H1|exact H2].
Defined.
