(* ===== verification/RecordStore.v ===== *)
(** * The records a node holds (src/dht/node.go, src/dht/stabilize.go)

    The fields under [n.recordsMu] and every operation on them: the checks of a put that
    is routed to the node, the unchecked put of replicas and transfers, reads, range
    queries, deletion and the purge of what has expired. Times are passed in: [clk_now]
    is [n.now()] and [clk_wall] is [time.Now()]. *)

From stdpp Require Import base gmap list strings pretty.
From Stdlib Require Import ZArith Lia Strings.Byte.
From S2P Require Import Prelude GoMap Hex Config Chord Sha1 Identity Records TestCodec.

Set Default Goal Selector "!".
Local Open Scope Z_scope.

Inductive recType := recUnknown | recPeer | recGroup | recProvider.

#[export] Instance recType_eq_dec : EqDecision recType.
Proof. solve_decision. Defined.

Record recordMeta := mkMeta { storedAt : Z; ttl : Z; typ : recType }.

(** The zero value a map lookup gives for a missing key. *)
Definition zeroMeta : recordMeta := mkMeta (- 62135596800 * 1000000000) 0 recUnknown.

Definition isExpiredAt (m : recordMeta) (now : Z) : bool :=
  (0 <? m.(ttl)) && (m.(ttl) <? time_sub now m.(storedAt)).

Definition version_conflict_text : string :=
  "record version conflict: stored version is newer, refetch and retry".

Definition versionConflictPrefix : string := "record version conflict".

Definition isVersionConflict (e : error) : bool :=
  errors_Is e ErrVersionConflict || contains versionConflictPrefix e.(err_text).

Record clock := mkClock { clk_now : Z; clk_wall : Z }.

Record RecordState := mkRecords {
  records : gmap NodeID bytes;
  recordsMeta : gmap NodeID recordMeta;
  providerEntryTimes : gmap NodeID (gmap NodeID Z);
  rs_peerTTL : Z;
  rs_groupTTL : Z;
  rs_providerTTL : Z
}.

(** [NewNode], for the fields of records. *)
Definition NewRecords (cfg : Config) : RecordState :=
  mkRecords ∅ ∅ ∅ (peerRecordTTL cfg) (groupRecordTTL cfg) (providerRecordTTL cfg).

Definition upd_records (f : gmap NodeID bytes -> gmap NodeID bytes)
    (g : gmap NodeID recordMeta -> gmap NodeID recordMeta)
    (h : gmap NodeID (gmap NodeID Z) -> gmap NodeID (gmap NodeID Z)) (st : RecordState) : RecordState :=
  mkRecords (f st.(records)) (g st.(recordsMeta)) (h st.(providerEntryTimes))
    st.(rs_peerTTL) st.(rs_groupTTL) st.(rs_providerTTL).

(** [n.records[key] = data; n.recordsMeta[key] = meta] *)
Definition put_record (key : NodeID) (data : bytes) (m : recordMeta) : RecordState -> RecordState :=
  upd_records <[key := data]> <[key := m]> (fun t => t).

Definition set_entry_times (key : NodeID) (times : gmap NodeID Z) : RecordState -> RecordState :=
  upd_records (fun r => r) (fun m => m) <[key := times]>.

Definition meta_of (st : RecordState) (key : NodeID) : recordMeta :=
  default zeroMeta (st.(recordsMeta) !! key).

Definition times_of (st : RecordState) (key : NodeID) : gmap NodeID Z :=
  default ∅ (st.(providerEntryTimes) !! key).

Section Store.
Context `{WireCodec} `{Ed25519}.

(** [extractRecordVersion] *)
Definition extractRecordVersion (data : bytes) : Z :=
  let group :=
    match DecodeGroupIdentityRecord data with
    | Ok gir => if Equal gir.(gir_Data).(gd_GroupID) zeroID then 0 else gir.(gir_Data).(gd_Version)
    | Err _ => 0
    end in
  match DecodePeerIdentityRecord data with
  | Ok pir => if Equal pir.(pir_Data).(pd_PeerID) zeroID then group else pir.(pir_Data).(pd_Version)
  | Err _ => group
  end.

Definition is_provider (data : bytes) : bool :=
  match unmarshalProvider data with
  | Ok pb => Nat.eqb (length pb.(pr_ContentHash)) 20 && Nat.eqb (length pb.(pr_Provider)) 20
  | Err _ => false
  end.

Definition is_provider_list (data : bytes) : bool :=
  match unmarshalProviderList data with
  | Ok l =>
      match l.(prl_Providers) with
      | p :: _ => Nat.eqb (length p.(pr_ContentHash)) 20 && Nat.eqb (length p.(pr_Provider)) 20
      | [] => false
      end
  | Err _ => false
  end.

Definition classifyRecord (data : bytes) : recType :=
  if is_provider data then recProvider
  else if is_provider_list data then recProvider
  else
    match unmarshalSigned data with
    | Ok pb =>
        if Nat.eqb (length pb.(sr_Pubkey)) 32 && Nat.eqb (length pb.(sr_Signature)) 64
           && negb (Nat.eqb (length pb.(sr_Data)) 0)
        then
          match cborUnmarshalPeer pb.(sr_Data) with
          | Ok d => if Equal d.(pd_PeerID) zeroID then recGroup else recPeer
          | Err _ => recGroup
          end
        else recUnknown
    | Err _ => recUnknown
    end.

Definition ttlForType (st : RecordState) (t : recType) : Z :=
  match t with
  | recPeer => st.(rs_peerTTL)
  | recGroup => st.(rs_groupTTL)
  | recProvider => 0
  | recUnknown => 0
  end.

(** ** Replicas and transfers: [localRecordPut] *)

(** The loop over the providers of a list; [ts] holds a time per provider when [timed]. *)
Fixpoint add_entries (now pttl : Z) (timed : bool) (ps : list pbProviderRecord) (ts : list Z)
    (times : gmap NodeID Z) : gmap NodeID Z :=
  match ps with
  | [] => times
  | p :: ps' =>
      let times' :=
        if negb (Nat.eqb (length p.(pr_Provider)) 20) then times
        else
          let provID := NodeID_copy p.(pr_Provider) in
          let t := hd 0 ts in
          let entryTime := if timed && (0 <? t) then t else now in
          if (0 <? pttl) && (pttl <? time_sub now entryTime) then times
          else <[provID := entryTime]> times in
      add_entries now pttl timed ps' (tl ts) times'
  end.

Definition add_provider_entries (now : Z) (key : NodeID) (data : bytes) (st : RecordState) : RecordState :=
  match unmarshalProviderList data with
  | Ok l =>
      match l.(prl_Providers) with
      | [] => st
      | ps =>
          let timed := Nat.eqb (length l.(prl_Timestamps)) (length ps) in
          set_entry_times key
            (add_entries now st.(rs_providerTTL) timed ps l.(prl_Timestamps) (times_of st key)) st
      end
  | Err _ => st
  end.

(** A stored version, not expired, at least as new as [incoming]. *)
Definition newer_stored (now : Z) (key : NodeID) (incoming : Z) (st : RecordState) : option Z :=
  match st.(records) !! key with
  | Some raw =>
      if isExpiredAt (meta_of st key) now then None
      else
        let storedVer := extractRecordVersion raw in
        if incoming <=? storedVer then Some storedVer else None
  | None => None
  end.

Definition localRecordPut (clk : clock) (key : NodeID) (data : bytes) (st : RecordState) : RecordState :=
  let incomingVer := extractRecordVersion data in
  let now := clk.(clk_now) in
  let stale := if 0 <? incomingVer then newer_stored now key incomingVer st else None in
  match stale with
  | Some _ => st
  | None =>
      let t := classifyRecord data in
      add_provider_entries now key data
        (put_record key data (mkMeta now (ttlForType st t) t) st)
  end.

(** ** Checked puts: [storeRecord] *)

Definition live (now pttl : Z) (times : gmap NodeID Z) (e : ProviderRecord) : bool :=
  match times !! e.(Provider) with
  | Some t => time_sub now t <=? pttl
  | None => false
  end.

Definition storeProviderRecord (clk : clock) (key : NodeID) (data : bytes) (callerID : NodeID)
    : M RecordState unit := fun st =>
  match unmarshalProvider data with
  | Err e => (st, Err (errorf_w "decode provider record: " e ""))
  | Ok raw =>
      let pr := provider_of_pb raw in
      if negb (Equal callerID pr.(Provider)) then
        (st, Err (errorf ("provider record rejected: caller " +:+ NodeID_String callerID +:+
                    " does not match advertised provider " +:+ NodeID_String pr.(Provider))))
      else
        let now := clk.(clk_now) in
        let existing :=
          match st.(records) !! key with
          | Some d =>
              let all := match DecodeProviderRecords d with Ok l => l | Err _ => [] end in
              filterb (live now st.(rs_providerTTL) (times_of st key)) all
          | None => []
          end in
        let out := filter_in_place (fun e => negb (Equal e.(Provider) pr.(Provider))) existing ++ [pr] in
        let times := <[pr.(Provider) := now]> (times_of st key) in
        let st1 := set_entry_times key times st in
        match encodeProviderRecordListWithTimestamps clk.(clk_wall) out times with
        | Err e => (st1, Err (errorf_w "encode provider record list: " e ""))
        | Ok merged => (put_record key merged (mkMeta now 0 recProvider) st1, Ok tt)
        end
  end.

(** The decoding and verification at the start of [storeSignedRecord]. *)
Definition checked_version (data : bytes) (t : recType) : result Z :=
  match t with
  | recPeer =>
      match DecodePeerIdentityRecord data with
      | Err e => Err (errorf_w "decode peer identity record: " e "")
      | Ok pir =>
          match PeerIdentityRecord_Verify pir with
          | Err e => Err (errorf_w "peer identity record rejected: " e "")
          | Ok _ => Ok pir.(pir_Data).(pd_Version)
          end
      end
  | _ =>
      match DecodeGroupIdentityRecord data with
      | Err e => Err (errorf_w "decode group identity record: " e "")
      | Ok gir =>
          match GroupIdentityRecord_Verify gir with
          | Err e => Err (errorf_w "group identity record rejected: " e "")
          | Ok _ => Ok gir.(gir_Data).(gd_Version)
          end
      end
  end.

Definition version_conflict (storedVer incomingVersion : Z) : error :=
  mkError [ErrVersionConflict]
    (version_conflict_text +:+ ": stored version " +:+ pretty storedVer +:+
     ", incoming version " +:+ pretty incomingVersion).

Definition storeSignedRecord (clk : clock) (key : NodeID) (data : bytes) (t : recType)
    : M RecordState unit := fun st =>
  match checked_version data t with
  | Err e => (st, Err e)
  | Ok incomingVersion =>
      let now := clk.(clk_now) in
      match newer_stored now key incomingVersion st with
      | Some storedVer => (st, Err (version_conflict storedVer incomingVersion))
      | None => (put_record key data (mkMeta now (ttlForType st t) t) st, Ok tt)
      end
  end.

Definition storeRecord (clk : clock) (key : NodeID) (data : bytes) (callerID : NodeID)
    : M RecordState unit :=
  let t := classifyRecord data in
  match t with
  | recProvider => storeProviderRecord clk key data callerID
  | recPeer | recGroup => storeSignedRecord clk key data t
  | recUnknown => fun st => (localRecordPut clk key data st, Ok tt)
  end.

(** ** Reads *)

Definition not_found (key : NodeID) : error := errorf ("record not found at " +:+ NodeID_String key).

Definition localRecordGet (clk : clock) (key : NodeID) (st : RecordState) : result bytes :=
  let now := clk.(clk_now) in
  match st.(records) !! key with
  | None => Err (not_found key)
  | Some data =>
      match st.(providerEntryTimes) !! key with
      | None =>
          if isExpiredAt (meta_of st key) now
          then Err (errorf ("record at " +:+ NodeID_String key +:+ " has expired"))
          else Ok data
      | Some entryTimes =>
          match DecodeProviderRecords data with
          | Err e => Err (errorf_w ("decode provider records at " +:+ NodeID_String key +:+ ": ") e "")
          | Ok all =>
              let alive := filterb (live now st.(rs_providerTTL) entryTimes) all in
              match alive with
              | [] => Err (not_found key)
              | _ => encodeProviderRecordList alive
              end
          end
      end
  end.

Definition getRecordsInRange (from to : NodeID) (st : RecordState) : list (NodeID * bytes) :=
  filterb (fun kv => BetweenRightInclusive kv.1 from to) (map_to_list st.(records)).

Definition RecordKeys (st : RecordState) : list string := NodeID_String <$> (map_to_list st.(records)).*1.

(** The key of an API request. *)
Definition parse_key (keyHex : string) : option NodeID :=
  match hex_DecodeString keyHex with
  | Ok b => if Nat.eqb (length b) 20 then Some (NodeID_copy b) else None
  | Err _ => None
  end.

Definition HasRecord (keyHex : string) (st : RecordState) : bool :=
  match parse_key keyHex with
  | Some id => bool_decide (is_Some (st.(records) !! id))
  | None => false
  end.

Definition DeleteRecord (keyHex : string) (st : RecordState) : RecordState * bool :=
  match parse_key keyHex with
  | None => (st, false)
  | Some id =>
      if bool_decide (is_Some (st.(records) !! id))
      then (upd_records (delete id) (delete id) (fun t => t) st, true)
      else (st, false)
  end.

(** ** Purging *)

Definition purge_signed (now : Z) (st : RecordState) (km : NodeID * recordMeta) : RecordState :=
  let '(key, m) := km in
  if bool_decide (m.(typ) = recProvider) then st
  else if isExpiredAt m now then upd_records (delete key) (delete key) (fun t => t) st
  else st.

Definition purge_provider (now : Z) (st : RecordState) (kt : NodeID * gmap NodeID Z) : RecordState :=
  let '(key, entryTimes0) := kt in
  let entryTimes := filter (fun pt => Is_true (negb (st.(rs_providerTTL) <? time_sub now pt.2))) entryTimes0 in
  if bool_decide (entryTimes = ∅)
  then upd_records (delete key) (delete key) (delete key) st
  else
    let st1 := set_entry_times key entryTimes st in
    match DecodeProviderRecords (default [] (st1.(records) !! key)) with
    | Err _ => st1
    | Ok existing =>
        let survivors := filterb (fun e => bool_decide (is_Some (entryTimes !! e.(Provider)))) existing in
        match encodeProviderRecordList survivors with
        | Ok merged => upd_records <[key := merged]> (fun m => m) (fun t => t) st1
        | Err _ => st1
        end
    end.

Definition purgeExpiredRecords (clk : clock) (st : RecordState) : RecordState :=
  let now := clk.(clk_now) in
  let st1 := foldl (purge_signed now) st (map_to_list st.(recordsMeta)) in
  foldl (purge_provider now) st1 (map_to_list st1.(providerEntryTimes)).

End Store.

(** ** Checked puts of signed records *)

Section SignedPuts.
Context `{HW : WireCodec} `{HE : Ed25519}.

Lemma newer_stored_None now key v st :
  newer_stored now key v st = None <->
  forall raw, st.(records) !! key = Some raw -> isExpiredAt (meta_of st key) now = false ->
    extractRecordVersion raw < v.
Proof.
  unfold newer_stored. destruct (records st !! key) as [raw|]; [|naive_solver].
  destruct (isExpiredAt _ _); [split; [|done]; intros _ raw' [= <-]; done|].
  destruct (Z.leb_spec v (extractRecordVersion raw)) as [Hle|Hlt].
  - split; [done|]. intros Hall. specialize (Hall raw eq_refl eq_refl). lia.
  - split; [|done]. intros _ raw' [= <-] _. lia.
Qed.

Lemma newer_stored_Some now key v st sv :
  newer_stored now key v st = Some sv ->
  exists raw, st.(records) !! key = Some raw /\ isExpiredAt (meta_of st key) now = false /\
    extractRecordVersion raw = sv /\ v <= sv.
Proof.
  unfold newer_stored. destruct (records st !! key) as [raw|]; [|done].
  destruct (isExpiredAt _ _) eqn:He; [done|].
  destruct (Z.leb_spec v (extractRecordVersion raw)); [|done]. intros [= <-]. by exists raw.
Qed.

(** [id] is the hash of the public key [pub], under which [sig] signs the encoding [inner] with
    the prefix of its kind. *)
Definition signed_by (prefix : string) (id : NodeID) (pub sig inner : bytes) : Prop :=
  length pub = 32%nat /\ id = PubKeyToNodeID pub /\ ed_Verify pub (bytes_of_string prefix ++ inner) sig = true.

(** The bytes are a record of type [t] and this version, signed by the peer or group it is about. *)
Definition authentic (t : recType) (data : bytes) (version : Z) : Prop :=
  match t with
  | recPeer => exists pir inner, DecodePeerIdentityRecord data = Ok pir /\ cborMarshalPeer pir.(pir_Data) = Ok inner /\
      signed_by "drings-peer:" pir.(pir_Data).(pd_PeerID) pir.(pir_PubKey) pir.(pir_Signature) inner /\
      version = pir.(pir_Data).(pd_Version)
  | _ => exists gir inner, DecodeGroupIdentityRecord data = Ok gir /\ cborMarshalGroup gir.(gir_Data) = Ok inner /\
      signed_by "drings-group:" gir.(gir_Data).(gd_GroupID) gir.(gir_PubKey) gir.(gir_Signature) inner /\
      version = gir.(gir_Data).(gd_Version)
  end.

Lemma payload_Ok prefix (inner : result bytes) payload :
  cborSignPayload prefix inner = Ok payload <-> exists b, inner = Ok b /\ payload = bytes_of_string prefix ++ b.
Proof. unfold cborSignPayload, mbind, result_bind. destruct inner; naive_solver. Qed.

Lemma verified_peer r :
  PeerIdentityRecord_Verify r = Ok tt <-> exists inner, cborMarshalPeer r.(pir_Data) = Ok inner /\
    signed_by "drings-peer:" r.(pir_Data).(pd_PeerID) r.(pir_PubKey) r.(pir_Signature) inner.
Proof.
  rewrite PeerIdentityRecord_Verify_Ok. unfold signed_by. setoid_rewrite payload_Ok. naive_solver.
Qed.

Lemma verified_group r :
  GroupIdentityRecord_Verify r = Ok tt <-> exists inner, cborMarshalGroup r.(gir_Data) = Ok inner /\
    signed_by "drings-group:" r.(gir_Data).(gd_GroupID) r.(gir_PubKey) r.(gir_Signature) inner.
Proof.
  rewrite GroupIdentityRecord_Verify_Ok. unfold signed_by. setoid_rewrite payload_Ok. naive_solver.
Qed.

Lemma checked_version_Ok data t v :
  checked_version data t = Ok v <-> authentic t data v.
Proof.
  unfold checked_version, authentic. destruct t.
  2: { destruct (DecodePeerIdentityRecord data) as [pir|e]; [|naive_solver]. pose proof (verified_peer pir) as Hok.
       destruct (PeerIdentityRecord_Verify pir) as [[]|e]; naive_solver. }
  all: destruct (DecodeGroupIdentityRecord data) as [gir|e]; [|naive_solver]; pose proof (verified_group gir) as Hok;
    destruct (GroupIdentityRecord_Verify gir) as [[]|e]; naive_solver.
Qed.

Lemma authentic_peer data r d :
  DecodePeerIdentityRecord data = Ok r -> PeerIdentityRecord_Verify r = Ok tt -> r.(pir_Data) = d -> authentic recPeer data d.(pd_Version).
Proof. intros Hd (inner & Hi & Hs)%verified_peer <-. by exists r, inner. Qed.

Lemma authentic_group data r d :
  DecodeGroupIdentityRecord data = Ok r -> GroupIdentityRecord_Verify r = Ok tt -> r.(gir_Data) = d -> authentic recGroup data d.(gd_Version).
Proof. intros Hd (inner & Hi & Hs)%verified_group <-. by exists r, inner. Qed.

Definition is_signed (t : recType) : bool :=
  match t with recPeer | recGroup => true | _ => false end.

Lemma storeRecord_signed clk key data caller :
  is_signed (classifyRecord data) = true ->
  storeRecord clk key data caller = storeSignedRecord clk key data (classifyRecord data).
Proof. unfold storeRecord. by destruct (classifyRecord data). Qed.

(** C5: a node accepts a peer's or group's record only if the record's id is the hash
    of its public key, the signature over its data verifies under that key, and every
    record it holds at the key, unless expired, has a smaller version; it then holds
    exactly that record, stamped with the time and the TTL of its kind. It reports an error
    and keeps its records as they are only if the record is not authentic, or if it holds one that
    has not expired and whose version is not smaller. *)
Theorem signed_put_checked (clk : clock) (key : NodeID) (data : bytes) (caller : NodeID)
    (st st' : RecordState) (r : result unit) :
  is_signed (classifyRecord data) = true ->
  storeRecord clk key data caller st = (st', r) ->
  match r with
  | Ok _ => exists v, authentic (classifyRecord data) data v /\
      (forall raw, st.(records) !! key = Some raw -> isExpiredAt (meta_of st key) clk.(clk_now) = false ->
         extractRecordVersion raw < v) /\
      st' = put_record key data
              (mkMeta clk.(clk_now) (ttlForType st (classifyRecord data)) (classifyRecord data)) st
  | Err _ => st' = st /\ forall v, authentic (classifyRecord data) data v ->
      exists raw, st.(records) !! key = Some raw /\ isExpiredAt (meta_of st key) clk.(clk_now) = false /\
        v <= extractRecordVersion raw
  end.
Proof.
  intros Hs. rewrite storeRecord_signed by done. unfold storeSignedRecord.
  destruct (checked_version _ _) as [v|e] eqn:Hv.
  2: { intros [= <- <-]. split; [done|]. intros v Ha%checked_version_Ok. congruence. }
  destruct (newer_stored _ _ _ _) as [sv|] eqn:Hn; intros [= <- <-].
  - split; [done|]. intros v' Ha%checked_version_Ok. rewrite Hv in Ha. injection Ha as <-.
    apply newer_stored_Some in Hn as (raw & H1 & H2 & <- & H3). by exists raw.
  - exists v. split; [by apply checked_version_Ok|]. split; [|done]. by apply newer_stored_None.
Qed.

Lemma put_conflicts (clk : clock) (key : NodeID) (data : bytes) (caller : NodeID)
    (st : RecordState) (raw : bytes) (v : Z) :
  is_signed (classifyRecord data) = true -> checked_version data (classifyRecord data) = Ok v ->
  st.(records) !! key = Some raw -> isExpiredAt (meta_of st key) clk.(clk_now) = false ->
  v <= extractRecordVersion raw ->
  exists e, storeRecord clk key data caller st = (st, Err e) /\
    isVersionConflict e = true /\ isVersionConflict (rpc_error e) = true.
Proof.
  intros Hs Hv Hraw He Hle. rewrite storeRecord_signed by done. unfold storeSignedRecord. rewrite Hv.
  unfold newer_stored. rewrite Hraw, He. apply Z.leb_le in Hle. rewrite Hle.
  eexists. split; [done|]. split; [done|].
  unfold isVersionConflict. apply orb_true_iff. right. cbn [rpc_error errorf version_conflict err_text].
  unfold version_conflict_text. by rewrite !string_app_cons.
Qed.

(** A put that loses against a stored version fails with an error the publisher
    recognises as a version conflict, also after the error crossed the RPC layer, which
    keeps only its text. *)
Theorem version_conflict_reported (clk : clock) (key : NodeID) (data : bytes) (caller : NodeID)
    (st : RecordState) (raw : bytes) (v : Z) :
  is_signed (classifyRecord data) = true -> checked_version data (classifyRecord data) = Ok v ->
  st.(records) !! key = Some raw -> isExpiredAt (meta_of st key) clk.(clk_now) = false ->
  v <= extractRecordVersion raw ->
  exists e, storeRecord clk key data caller st = (st, Err e) /\
    isVersionConflict e = true /\ isVersionConflict (rpc_error e) = true.
Proof. exact (put_conflicts clk key data caller st raw v). Qed.

End SignedPuts.

(** ** Providers *)

Section Providers.
Context `{HW : WireCodec} `{HE : Ed25519} `{!WireCodecLaws}.

(** The list a key holds: what a stored value decodes to, or nothing. *)
Definition stored_providers (st : RecordState) (key : NodeID) : list ProviderRecord :=
  match st.(records) !! key with
  | Some d => match DecodeProviderRecords d with Ok l => l | Err _ => [] end
  | None => []
  end.

(** The providers of a key that have not expired. *)
Definition live_providers (now : Z) (st : RecordState) (key : NodeID) : list ProviderRecord :=
  filterb (live now st.(rs_providerTTL) (times_of st key)) (stored_providers st key).

Definition without (p : NodeID) (l : list ProviderRecord) : list ProviderRecord :=
  filterb (fun e => negb (Equal e.(Provider) p)) l.

Lemma storeProviderRecord_eq clk key data caller st raw :
  unmarshalProvider data = Ok raw -> NodeID_copy raw.(pr_Provider) = caller ->
  let pr := provider_of_pb raw in
  let out := without caller (live_providers clk.(clk_now) st key) ++ [pr] in
  let times := <[caller := clk.(clk_now)]> (times_of st key) in
  storeProviderRecord clk key data caller st =
    match encodeProviderRecordListWithTimestamps clk.(clk_wall) out times with
    | Err e => (set_entry_times key times st, Err (errorf_w "encode provider record list: " e ""))
    | Ok merged => (put_record key merged (mkMeta clk.(clk_now) 0 recProvider)
                      (set_entry_times key times st), Ok tt)
    end.
Proof.
  intros Hraw Hcaller pr out times. unfold storeProviderRecord. rewrite Hraw. cbv zeta. fold pr.
  assert (Provider pr = caller) as -> by done. rewrite Equal_refl. cbn [negb].
  rewrite filter_in_place_spec. fold times. unfold out, live_providers, stored_providers, without.
  by destruct (records st !! key).
Qed.

Lemma stored_providers_put key merged m st l :
  DecodeProviderRecords merged = Ok l -> stored_providers (put_record key merged m st) key = l.
Proof.
  intros Hd. unfold stored_providers. cbn [put_record upd_records records].
  by rewrite lookup_insert_eq, Hd.
Qed.

Lemma times_of_set key times st : times_of (set_entry_times key times st) key = times.
Proof. unfold times_of. cbn [set_entry_times upd_records providerEntryTimes]. by rewrite lookup_insert_eq. Qed.

Lemma without_not_in p l e : e ∈ without p l -> Provider e <> p.
Proof. unfold without. rewrite elem_of_filterb, negb_true_iff, Equal_false. tauto. Qed.

(** Reading a key that has provider entries. *)
Lemma localRecordGet_providers clk key st data times l :
  st.(records) !! key = Some data -> st.(providerEntryTimes) !! key = Some times ->
  DecodeProviderRecords data = Ok l ->
  localRecordGet clk key st =
    match live_providers clk.(clk_now) st key with
    | [] => Err (not_found key)
    | alive => encodeProviderRecordList alive
    end.
Proof.
  intros Hd Ht Hl. unfold localRecordGet, live_providers, stored_providers, times_of.
  rewrite Hd, Ht, Hl. cbn [from_option default]. by destruct (filterb _ l).
Qed.

(** The only way a put of a provider succeeds. *)
Lemma storeRecord_provider_Ok clk key data caller st st' :
  classifyRecord data = recProvider -> storeRecord clk key data caller st = (st', Ok tt) ->
  exists h merged, unmarshalProvider data = Ok h /\ NodeID_copy h.(pr_Provider) = caller /\
    let out := without caller (live_providers clk.(clk_now) st key) ++ [provider_of_pb h] in
    let times := <[caller := clk.(clk_now)]> (times_of st key) in
    encodeProviderRecordListWithTimestamps clk.(clk_wall) out times = Ok merged /\
    st' = put_record key merged (mkMeta clk.(clk_now) 0 recProvider) (set_entry_times key times st).
Proof.
  intros Hclass. unfold storeRecord. rewrite Hclass. intros Hput.
  destruct (unmarshalProvider data) as [raw|e] eqn:Hraw;
    [|unfold storeProviderRecord in Hput; by rewrite Hraw in Hput].
  destruct (decide (NodeID_copy raw.(pr_Provider) = caller)) as [Hcaller|Hcaller].
  - rewrite (storeProviderRecord_eq _ _ _ _ _ raw) in Hput by done. cbv zeta in Hput.
    destruct (encodeProviderRecordListWithTimestamps _ _ _) as [merged|e] eqn:Henc; [|done].
    injection Hput as <-. by exists raw, merged.
  - unfold storeProviderRecord in Hput. rewrite Hraw in Hput. cbn [provider_of_pb Provider] in Hput.
    rewrite (proj2 (Equal_false _ _)) in Hput by done. done.
Qed.

(** A node adds a provider of a key only on that provider's own behalf. A put that
    succeeds was sent by the provider it names; afterwards the key lists the providers
    that were live, each unchanged, with the caller once at the end, and its entry time
    is the present. The other keys are untouched. *)
Theorem provider_put_checked (clk : clock) (key : NodeID) (data : bytes) (caller : NodeID)
    (st st' : RecordState) :
  classifyRecord data = recProvider ->
  storeRecord clk key data caller st = (st', Ok tt) ->
  exists h, unmarshalProvider data = Ok h /\ NodeID_copy h.(pr_Provider) = caller /\
    stored_providers st' key =
      without caller (live_providers clk.(clk_now) st key) ++ [provider_of_pb h] /\
    times_of st' key = <[caller := clk.(clk_now)]> (times_of st key) /\
    (NoDup (Provider <$> stored_providers st key) -> NoDup (Provider <$> stored_providers st' key)) /\
    forall key', key' <> key -> st'.(records) !! key' = st.(records) !! key' /\
      st'.(providerEntryTimes) !! key' = st.(providerEntryTimes) !! key'.
Proof.
  intros Hclass Hput.
  destruct (storeRecord_provider_Ok _ _ _ _ _ _ Hclass Hput) as (raw & merged & Hraw & Hcaller & Henc & ->).
  pose proof (DecodeProviderRecords_timed _ _ _ _ Henc) as Hdec.
  exists raw. rewrite (stored_providers_put _ _ _ _ _ Hdec). split_and!; try done.
  - apply times_of_set.
  - intros Hnd. rewrite fmap_app. apply NoDup_app. split_and!.
    + by apply NoDup_filterb_fmap, NoDup_filterb_fmap.
    + intros x (e & -> & He)%list_elem_of_fmap. apply without_not_in in He. cbn. set_solver.
    + apply NoDup_singleton.
  - intros key' Hne. cbn. by rewrite !lookup_insert_ne by done.
Qed.

(** ** Purging *)

(** What the maps hold at a key. *)
Definition key_view (st : RecordState) (key : NodeID)
    : option bytes * option recordMeta * option (gmap NodeID Z) :=
  (st.(records) !! key, st.(recordsMeta) !! key, st.(providerEntryTimes) !! key).

Definition signed_effect (now : Z) (m : recordMeta) (x : option bytes * option recordMeta * option (gmap NodeID Z)) :=
  if negb (bool_decide (m.(typ) = recProvider)) && isExpiredAt m now then (None, None, x.2) else x.

Definition still_live (now pttl : Z) (times : gmap NodeID Z) : gmap NodeID Z :=
  filter (fun pt => Is_true (negb (pttl <? time_sub now pt.2))) times.

Definition provider_effect (now pttl : Z) (times : gmap NodeID Z)
    (x : option bytes * option recordMeta * option (gmap NodeID Z)) :=
  let times' := still_live now pttl times in
  if bool_decide (times' = ∅) then (None, None, None)
  else
    let rec :=
      match DecodeProviderRecords (default [] x.1.1) with
      | Err _ => x.1.1
      | Ok l =>
          match encodeProviderRecordList (filterb (fun e => bool_decide (is_Some (times' !! e.(Provider)))) l) with
          | Ok merged => Some merged
          | Err _ => x.1.1
          end
      end in
    (rec, x.1.2, Some times').

Definition same_ttls (st st' : RecordState) : Prop :=
  st'.(rs_peerTTL) = st.(rs_peerTTL) /\ st'.(rs_groupTTL) = st.(rs_groupTTL) /\
  st'.(rs_providerTTL) = st.(rs_providerTTL).

Lemma purge_provider_ttls now st0 st kt : same_ttls st0 st -> same_ttls st0 (purge_provider now st kt).
Proof.
  intros Hs. destruct kt as [key times]. unfold purge_provider. cbv zeta.
  destruct (bool_decide _); [done|]. destruct (DecodeProviderRecords _); [|done].
  by destruct (encodeProviderRecordList _).
Qed.

Lemma purge_signed_ttls now st0 st km : same_ttls st0 st -> same_ttls st0 (purge_signed now st km).
Proof.
  intros Hs. destruct km as [key m]. unfold purge_signed.
  destruct (bool_decide _); [done|]. by destruct (isExpiredAt _ _).
Qed.

Lemma purge_signed_view now st key m :
  key_view (purge_signed now st (key, m)) key = signed_effect now m (key_view st key).
Proof.
  unfold purge_signed, signed_effect. destruct (bool_decide _); cbn [negb andb]; [done|].
  destruct (isExpiredAt _ _); [|done]. unfold key_view. cbn. by rewrite !lookup_delete_eq.
Qed.

Lemma purge_signed_other now st key m key' :
  key' <> key -> key_view (purge_signed now st (key, m)) key' = key_view st key'.
Proof.
  intros Hne. unfold purge_signed. destruct (bool_decide _); [done|].
  destruct (isExpiredAt _ _); [|done]. unfold key_view. cbn. by rewrite !lookup_delete_ne by done.
Qed.

Lemma purge_provider_view now st0 st key times :
  same_ttls st0 st ->
  key_view (purge_provider now st (key, times)) key =
    provider_effect now st0.(rs_providerTTL) times (key_view st key).
Proof.
  intros (_ & _ & Hp). unfold purge_provider, provider_effect, still_live. cbv zeta. rewrite Hp.
  destruct (bool_decide _).
  { unfold key_view. cbn. by rewrite !lookup_delete_eq. }
  unfold key_view. cbn [set_entry_times upd_records records fst].
  destruct (DecodeProviderRecords _) as [l|e]; [|cbn; by rewrite lookup_insert_eq].
  destruct (encodeProviderRecordList _); cbn; by rewrite !lookup_insert_eq.
Qed.

Lemma purge_provider_other now st key times key' :
  key' <> key -> key_view (purge_provider now st (key, times)) key' = key_view st key'.
Proof.
  intros Hne. unfold purge_provider, key_view. cbv zeta. destruct (bool_decide _).
  { cbn. by rewrite !lookup_delete_ne by done. }
  destruct (DecodeProviderRecords _) as [l|e]; [|cbn; by rewrite lookup_insert_ne].
  destruct (encodeProviderRecordList _); cbn; by rewrite !lookup_insert_ne by done.
Qed.

(** What a purge leaves at a key, in whatever order the maps are walked. *)
Definition purge_effect (now pttl : Z) (x : option bytes * option recordMeta * option (gmap NodeID Z)) :=
  let x1 := match x.1.2 with Some m => signed_effect now m x | None => x end in
  match x1.2 with Some times => provider_effect now pttl times x1 | None => x1 end.

Lemma purge_view clk st key :
  key_view (purgeExpiredRecords clk st) key =
    purge_effect clk.(clk_now) st.(rs_providerTTL) (key_view st key) /\
  same_ttls st (purgeExpiredRecords clk st).
Proof.
  unfold purgeExpiredRecords. set (now := clk_now clk). cbv zeta.
  set (st1 := foldl (purge_signed now) st (map_to_list (recordsMeta st))).
  assert (same_ttls st st1) as Hs1.
  { apply (keyed_inv (purge_signed now) (same_ttls st)); [|done]. intros. by apply purge_signed_ttls. }
  assert (key_view st1 key = match recordsMeta st !! key with
    Some m => signed_effect now m (key_view st key) | None => key_view st key end) as Hv1.
  { apply (keyed_loop key_view (purge_signed now) (fun _ => signed_effect now) (same_ttls st)); try done;
      intros; auto using purge_signed_ttls, purge_signed_view, purge_signed_other. }
  split.
  - rewrite (keyed_loop key_view (purge_provider now) (fun _ => provider_effect now (rs_providerTTL st))
      (same_ttls st) ltac:(intros; by apply purge_provider_ttls)
      ltac:(intros; by apply purge_provider_view) ltac:(intros; by apply purge_provider_other)
      (providerEntryTimes st1)) by done.
    unfold purge_effect. change ((key_view st key).1.2) with (recordsMeta st !! key). rewrite <- Hv1. done.
  - apply (keyed_inv (purge_provider now) (same_ttls st)); [|done]. intros. by apply purge_provider_ttls.
Qed.

Lemma time_sub_mono t t' u : t <= t' -> time_sub t u <= time_sub t' u.
Proof. unfold time_sub. lia. Qed.

Lemma isExpiredAt_mono m now now' : now <= now' -> isExpiredAt m now = true -> isExpiredAt m now' = true.
Proof.
  unfold isExpiredAt. intros Hle. rewrite !andb_true_iff, !Z.ltb_lt. intros [H1 H2]. split; [done|].
  pose proof (time_sub_mono now now' (storedAt m) Hle). lia.
Qed.

Lemma still_live_lookup now pttl times p t :
  still_live now pttl times !! p = Some t <-> times !! p = Some t /\ time_sub now t <= pttl.
Proof.
  unfold still_live. rewrite map_lookup_filter_Some. cbn [snd].
  rewrite Is_true_true, negb_true_iff, Z.ltb_ge. done.
Qed.

(** Entries dropped by a purge were not live, then or later. *)
Lemma live_still_live now now' pttl times e :
  now <= now' -> live now' pttl (still_live now pttl times) e = live now' pttl times e.
Proof.
  intros Hle. unfold live. destruct (times !! Provider e) as [t|] eqn:Ht.
  - destruct (still_live now pttl times !! Provider e) as [t'|] eqn:Ht'.
    + apply still_live_lookup in Ht' as [Ht' _]. by simplify_eq.
    + symmetry. apply Z.leb_gt. pose proof (time_sub_mono now now' t Hle).
      destruct (Z.le_gt_cases (time_sub now t) pttl) as [Hl|]; [|lia].
      assert (still_live now pttl times !! Provider e = Some t) by (by apply still_live_lookup).
      congruence.
  - destruct (still_live now pttl times !! Provider e) as [t'|] eqn:Ht'; [|done].
    apply still_live_lookup in Ht' as [Ht' _]. congruence.
Qed.

Lemma live_alive now pttl times e : live now pttl times e = true -> is_Some (times !! Provider e).
Proof. unfold live. by destruct (times !! Provider e). Qed.

Lemma filterb_filterb {A} (f g : A -> bool) l :
  (forall x, f x = true -> g x = true) -> filterb f (filterb g l) = filterb f l.
Proof.
  intros Hfg. induction l as [|x l IH]; [done|]. rewrite !(filterb_cons _ x).
  specialize (Hfg x). destruct (g x); rewrite ?filterb_cons, IH; [done|]. destruct (f x); [|done].
  by specialize (Hfg eq_refl).
Qed.

(** A read is a function of what the maps hold at the key. *)
Definition read_view (key : NodeID) (now pttl : Z)
    (x : option bytes * option recordMeta * option (gmap NodeID Z)) : result bytes :=
  match x.1.1 with
  | None => Err (not_found key)
  | Some data =>
      match x.2 with
      | None =>
          if isExpiredAt (default zeroMeta x.1.2) now
          then Err (errorf ("record at " +:+ NodeID_String key +:+ " has expired"))
          else Ok data
      | Some times =>
          match DecodeProviderRecords data with
          | Err e => Err (errorf_w ("decode provider records at " +:+ NodeID_String key +:+ ": ") e "")
          | Ok all =>
              match filterb (live now pttl times) all with
              | [] => Err (not_found key)
              | alive => encodeProviderRecordList alive
              end
          end
      end
  end.

Lemma localRecordGet_view clk key st :
  localRecordGet clk key st = read_view key clk.(clk_now) st.(rs_providerTTL) (key_view st key).
Proof.
  unfold localRecordGet, read_view, key_view. cbn [fst snd]. destruct (records st !! key); [|done].
  destruct (providerEntryTimes st !! key) as [times|]; [|done].
  destruct (DecodeProviderRecords _) as [all|]; [|done]. by destruct (filterb _ all).
Qed.

(** Two reads that give the same bytes, or both fail. *)
Definition same_read (a b : result bytes) : Prop :=
  match a, b with Ok x, Ok y => x = y | Err _, Err _ => True | _, _ => False end.

Lemma same_read_refl a : same_read a a.
Proof. by destruct a. Qed.

Lemma read_provider_effect key now now' pttl times d m :
  now <= now' ->
  same_read (read_view key now' pttl (provider_effect now pttl times (d, m, Some times)))
            (read_view key now' pttl (d, m, Some times)).
Proof.
  intros Hle. unfold provider_effect. cbv zeta. cbn [fst snd].
  set (times' := still_live now pttl times).
  assert (forall l, filterb (live now' pttl times') l = filterb (live now' pttl times) l) as Hlive.
  { intros l. apply filterb_ext. intros e _. by apply live_still_live. }
  destruct (bool_decide_reflect (times' = ∅)) as [Hempty|Hne].
  - unfold read_view at 2. cbn [fst snd]. destruct d as [data|]; [|done].
    destruct (DecodeProviderRecords data) as [l|]; [|done]. rewrite <- Hlive.
    destruct (filterb (live now' pttl times') l) as [|e l'] eqn:Hl; [done|].
    assert (e ∈ filterb (live now' pttl times') l) as He by (rewrite Hl; set_solver).
    apply elem_of_filterb in He as [He%live_alive _]. rewrite Hempty, lookup_empty in He.
    by destruct He.
  - assert (forall l, filterb (live now' pttl times')
      (filterb (fun e => bool_decide (is_Some (times' !! Provider e))) l) = filterb (live now' pttl times) l) as Hsurv.
    { intros l. rewrite filterb_filterb; [apply Hlive|]. intros e He.
      by apply bool_decide_eq_true_2, (live_alive now' pttl). }
    destruct d as [data|]; simpl default.
    + destruct (DecodeProviderRecords data) as [l|e] eqn:Hd.
      * destruct (encodeProviderRecordList _) as [merged|e] eqn:Henc.
        -- unfold read_view. cbn [fst snd]. rewrite Hd, (DecodeProviderRecords_list _ _ Henc), Hsurv.
           apply same_read_refl.
        -- unfold read_view. cbn [fst snd]. rewrite Hd, Hlive. apply same_read_refl.
      * unfold read_view. cbn [fst snd]. by rewrite Hd.
    + rewrite DecodeProviderRecords_nil. cbn [filterb].
      destruct (encodeProviderRecordList _) as [merged|e] eqn:Henc; [|done].
      unfold read_view. cbn [fst snd]. by rewrite (DecodeProviderRecords_list _ _ Henc).
Qed.

(** Purging is invisible to readers: at the time of the purge and at any later time,
    every key whose provider entries belong to a provider record reads the same as if
    the purge had not run (a read that fails may fail with another message). *)
Theorem purge_unobservable (clk clk' : clock) (key : NodeID) (st : RecordState) :
  clk.(clk_now) <= clk'.(clk_now) ->
  (is_Some (st.(providerEntryTimes) !! key) -> (meta_of st key).(typ) = recProvider) ->
  same_read (localRecordGet clk' key (purgeExpiredRecords clk st)) (localRecordGet clk' key st).
Proof.
  intros Hle Htyp. rewrite !localRecordGet_view.
  destruct (purge_view clk st key) as [-> (_ & _ & ->)].
  set (pttl := rs_providerTTL st). unfold meta_of in Htyp. unfold key_view.
  destruct (providerEntryTimes st !! key) as [times|] eqn:Ht.
  - unfold purge_effect. cbn [fst snd]. destruct (recordsMeta st !! key) as [m|] eqn:Hm.
    + unfold signed_effect. simpl default in Htyp.
      rewrite bool_decide_eq_true_2 by (apply Htyp; eauto). cbn [negb andb snd].
      by apply read_provider_effect.
    + cbn [snd]. by apply read_provider_effect.
  - unfold purge_effect. cbn [fst snd]. destruct (recordsMeta st !! key) as [m|] eqn:Hm;
      [|apply same_read_refl].
    unfold signed_effect. destruct (negb _); cbn [andb]; [|apply same_read_refl].
    destruct (isExpiredAt m (clk_now clk)) eqn:He; [|apply same_read_refl].
    cbn [snd]. unfold read_view. cbn [fst snd]. destruct (records st !! key); [|done].
    simpl default. by rewrite (isExpiredAt_mono m _ _ Hle He).
Qed.

(** After a purge no record of a peer or group past its TTL is left, and no entry of a
    provider past the provider TTL; keys whose providers are all gone are gone. *)
Theorem purge_removes_expired (clk : clock) (key : NodeID) (st : RecordState) :
  let st' := purgeExpiredRecords clk st in
  (forall m, st'.(recordsMeta) !! key = Some m -> m.(typ) <> recProvider ->
     isExpiredAt m clk.(clk_now) = false) /\
  (forall times, st'.(providerEntryTimes) !! key = Some times ->
     times <> ∅ /\ forall p t, times !! p = Some t -> time_sub clk.(clk_now) t <= st.(rs_providerTTL)).
Proof.
  intros st'. destruct (purge_view clk st key) as [Hv _]. fold st' in Hv.
  unfold key_view in Hv. unfold purge_effect in Hv. cbn [fst snd] in Hv.
  assert (forall x m, snd (fst (match recordsMeta st !! key with
      Some m => signed_effect (clk_now clk) m x | None => x end)) = Some m ->
    snd (fst x) = recordsMeta st !! key -> typ m <> recProvider -> isExpiredAt m (clk_now clk) = false) as Hsigned.
  { intros x m. destruct (recordsMeta st !! key) as [m0|]; [|congruence]. unfold signed_effect.
    destruct (bool_decide_reflect (typ m0 = recProvider)); cbn [negb andb]; [congruence|].
    destruct (isExpiredAt m0 _) eqn:He; [done|]. intros Hx1 Hx2 _. congruence. }
  set (x1 := match recordsMeta st !! key with Some m => _ | None => _ end) in Hv.
  split.
  - intros m Hm Htyp. apply (Hsigned (records st !! key, recordsMeta st !! key, providerEntryTimes st !! key) m); [|done..].
    fold x1. destruct (x1.2) as [times|] eqn:Ht.
    + unfold provider_effect in Hv. destruct (bool_decide _); [congruence|]. injection Hv as _ Hv2 _. congruence.
    + destruct x1 as [[r1 m1] t1]. cbn in Ht |- *. congruence.
  - intros times Ht. destruct (x1.2) as [times0|] eqn:Ht0.
    + unfold provider_effect in Hv. destruct (bool_decide_reflect (still_live (clk_now clk) (rs_providerTTL st) times0 = ∅));
        [congruence|]. injection Hv as _ _ Hv. rewrite Ht in Hv. injection Hv as ->.
      split; [done|]. intros p t Hp. apply still_live_lookup in Hp as [_ Hp]. exact Hp.
    + destruct x1 as [[r1 m1] t1]. cbn in Ht0. congruence.
Qed.

(** ** Transfers of provider lists *)

Definition entry_of (now pttl : Z) (t : Z) : option Z :=
  if (0 <? pttl) && (pttl <? time_sub now t) then None else Some t.

(** Every provider listed with a positive time gets that time, unless it has expired. *)
Lemma add_entries_timed now pttl (T : NodeID -> Z) rs times p t :
  (forall r, r ∈ rs -> 0 < T r.(Provider)) -> T p = t -> entry_of now pttl t = Some t ->
  (times !! p = Some t \/ p ∈ Provider <$> rs) ->
  add_entries now pttl true (pb_of_provider <$> rs) ((fun r => T r.(Provider)) <$> rs) times !! p = Some t.
Proof.
  intros Hpos Hp Hent. revert times. induction rs as [|r rs IH]; intros times Hin.
  { destruct Hin as [?|Hin]; [done|]. by apply elem_of_nil in Hin. }
  rewrite !fmap_cons. cbn [add_entries hd tl]. cbn [pb_of_provider pr_Provider pr_ContentHash].
  rewrite nid_length, NodeID_copy_bytes. cbn [Nat.eqb negb].
  assert ((0 <? T (Provider r)) = true) as -> by (apply Z.ltb_lt, Hpos; set_solver). cbn [andb].
  apply IH; [intros; apply Hpos; set_solver|].
  destruct (decide (Provider r = p)) as [<-|Hne].
  - left. unfold entry_of in Hent. rewrite Hp. destruct (_ && _); [done|]. by rewrite lookup_insert_eq.
  - destruct Hin as [Hin|Hin].
    + left. destruct (_ && _); [done|]. by rewrite lookup_insert_ne.
    + right. rewrite fmap_cons in Hin. set_solver.
Qed.

Lemma localRecordPut_list clk key data st l :
  extractRecordVersion data = 0 -> unmarshalProviderList data = Ok l -> l.(prl_Providers) <> [] ->
  localRecordPut clk key data st =
    set_entry_times key
      (add_entries clk.(clk_now) st.(rs_providerTTL)
         (Nat.eqb (length l.(prl_Timestamps)) (length l.(prl_Providers))) l.(prl_Providers) l.(prl_Timestamps)
         (times_of st key))
      (put_record key data (mkMeta clk.(clk_now) (ttlForType st (classifyRecord data)) (classifyRecord data)) st).
Proof.
  intros Hv Hl Hne. unfold localRecordPut. rewrite Hv. change (0 <? 0) with false. cbv iota zeta.
  unfold add_provider_entries. rewrite Hl. by destruct (prl_Providers l).
Qed.

Lemma wrap64_pos t : 0 < t < 2 ^ 63 -> wrap64 t = t.
Proof. intros Ht. apply wrap64_small. unfold in_int64. lia. Qed.

(** Handing a key's providers to another node keeps their ages: the list a node builds
    from a put carries each provider's own time, so the receiver, whenever it gets the
    list, holds the same providers with the same times for every one that has not
    expired; a transfer does not extend anybody's lifetime. *)
Theorem provider_transfer_keeps_age (clkA clkB : clock) (key : NodeID) (data raw : bytes) (caller : NodeID)
    (stA stA' stB : RecordState) :
  classifyRecord data = recProvider ->
  storeRecord clkA key data caller stA = (stA', Ok tt) ->
  stA'.(records) !! key = Some raw -> extractRecordVersion raw = 0 ->
  (forall p t, times_of stA' key !! p = Some t -> 0 < t < 2 ^ 63) ->
  let stB' := localRecordPut clkB key raw stB in
  stored_providers stB' key = stored_providers stA' key /\
  forall e t, e ∈ stored_providers stA' key -> times_of stA' key !! e.(Provider) = Some t ->
    entry_of clkB.(clk_now) stB.(rs_providerTTL) t = Some t ->
    times_of stB' key !! e.(Provider) = Some t.
Proof.
  intros Hclass Hput Hraw Hver Htimes stB'.
  destruct (storeRecord_provider_Ok _ _ _ _ _ _ Hclass Hput) as (m & merged & Hm & Hcaller & Henc & ->).
  clear Hput. cbv zeta in Henc. set (out := without _ _ ++ [_]) in Henc. set (T := <[caller := _]> _) in *.
  assert (raw = merged) as ->.
  { revert Hraw. cbn [put_record upd_records records]. rewrite lookup_insert_eq. congruence. }
  pose proof (DecodeProviderRecords_timed _ _ _ _ Henc) as Hdec.
  rewrite (stored_providers_put _ _ _ _ _ Hdec). split.
  { unfold stB'. apply provider_list_roundtrip in Henc.
    rewrite (localRecordPut_list _ _ _ _ _ Hver Henc)
      by (cbn [prl_Providers]; unfold out; rewrite fmap_app; by destruct (_ <$> without _ _)).
    unfold stored_providers. cbn [set_entry_times put_record upd_records records].
    by rewrite lookup_insert_eq, Hdec. }
  assert (times_of (put_record key merged (mkMeta (clk_now clkA) 0 recProvider) (set_entry_times key T stA)) key = T)
    as HT by apply times_of_set.
  rewrite HT in *. intros e t He Ht Hent. unfold stB'. apply provider_list_roundtrip in Henc.
  rewrite (localRecordPut_list _ _ _ _ _ Hver Henc)
    by (cbn [prl_Providers]; unfold out; rewrite fmap_app; by destruct (_ <$> without _ _)).
  rewrite times_of_set. cbn [prl_Providers prl_Timestamps]. rewrite !length_fmap, Nat.eqb_refl.
  assert (forall r, r ∈ out -> exists t, T !! r.(Provider) = Some t /\ 0 < t < 2 ^ 63) as Hall.
  { intros r Hr. assert (is_Some (T !! Provider r)) as [t' Ht'].
    - unfold out in Hr. apply elem_of_app in Hr as [Hr|Hr%list_elem_of_singleton].
      + unfold without, live_providers in Hr. rewrite !elem_of_filterb in Hr. destruct Hr as (_ & Hr%live_alive & _).
        unfold T. rewrite lookup_insert_is_Some'. by right.
      + subst r. cbn [provider_of_pb Provider]. rewrite Hcaller. unfold T. rewrite lookup_insert_eq. eauto.
    - exists t'. split; [done|]. by apply (Htimes (Provider r)). }
  apply (add_entries_timed _ _ (fun p => wrap64 (default (clk_wall clkA) (T !! p)))).
  - intros r (t' & -> & Hpos)%Hall. simpl default. rewrite wrap64_pos by done. lia.
  - rewrite Ht. simpl default. apply wrap64_pos. by apply (Htimes (Provider e)).
  - done.
  - right. by apply list_elem_of_fmap_2.
Qed.

End Providers.

(** ** Runs of a node's record operations *)

Section Runs.
Context `{HW : WireCodec} `{HE : Ed25519} `{!WireCodecLaws}.

Inductive record_op :=
  | OpPut (key : NodeID) (data : bytes) (caller : NodeID)
  | OpPush (key : NodeID) (data : bytes)
  | OpDelete (keyHex : string)
  | OpPurge.

Definition apply_op (st : RecordState) (o : clock * record_op) : RecordState :=
  let '(clk, op) := o in
  match op with
  | OpPut key data caller => (storeRecord clk key data caller st).1
  | OpPush key data => localRecordPut clk key data st
  | OpDelete keyHex => (DeleteRecord keyHex st).1
  | OpPurge => purgeExpiredRecords clk st
  end.

(** A signed record with a version, that does not pass for a provider list. *)
Definition versioned (data : bytes) : Prop :=
  is_signed (classifyRecord data) = true /\ 0 < extractRecordVersion data /\
  match unmarshalProviderList data with Ok l => l.(prl_Providers) = [] | Err _ => True end.

(** What is put at [key] is versioned, and nobody deletes it. *)
Definition respects (key : NodeID) (op : record_op) : Prop :=
  match op with
  | OpPut k data _ | OpPush k data => k = key -> versioned data
  | OpDelete keyHex => parse_key keyHex <> Some key
  | OpPurge => True
  end.

(** At [key]: a signed record of version [v] or more, stored at [t0] or later. *)
Record holds_version (key : NodeID) (t0 window v : Z) (st : RecordState) : Prop := {
  hv_raw : exists raw m, st.(records) !! key = Some raw /\ st.(recordsMeta) !! key = Some m /\
    v <= extractRecordVersion raw /\ is_signed m.(typ) = true /\ t0 <= m.(storedAt) /\ window <= m.(ttl);
  hv_entries : st.(providerEntryTimes) !! key = None;
  hv_ttl : window <= st.(rs_peerTTL) /\ window <= st.(rs_groupTTL)
}.

Lemma not_expired m now t0 window :
  t0 <= m.(storedAt) -> window <= m.(ttl) -> 0 <= window -> t0 <= now <= t0 + window -> window < 2 ^ 63 ->
  isExpiredAt m now = false.
Proof.
  intros Hs Ht Hw Hnow Hmax. unfold isExpiredAt. apply andb_false_iff. right. apply Z.ltb_ge.
  unfold time_sub. lia.
Qed.

(** The version the checks read is the one a later put is compared with. *)
Lemma authentic_version data v :
  is_signed (classifyRecord data) = true -> 0 < extractRecordVersion data ->
  authentic (classifyRecord data) data v -> extractRecordVersion data = v.
Proof.
  intros Hs Hpos Ha. unfold authentic in Ha. unfold extractRecordVersion in *.
  unfold classifyRecord in *. destruct (is_provider data); [done|]. destruct (is_provider_list data); [done|].
  destruct (unmarshalSigned data) as [pb|e] eqn:Hpb; [|done].
  destruct (_ && _); [|done].
  destruct (cborUnmarshalPeer (sr_Data pb)) as [d|e] eqn:Hd.
  - destruct (Equal (pd_PeerID d) zeroID) eqn:Hz.
    + destruct Ha as (gir & inner & Hg & _ & _ & ->). unfold DecodePeerIdentityRecord in *. rewrite Hpb, Hd in *.
      cbn [pir_Data] in *. rewrite Hz, Hg in *. by destruct (Equal (gd_GroupID _) zeroID).
    + destruct Ha as (pir & inner & Hp & _ & _ & ->). rewrite Hp in *. unfold DecodePeerIdentityRecord in Hp.
      rewrite Hpb, Hd in Hp. injection Hp as <-. cbn [pir_Data]. by rewrite Hz.
  - destruct Ha as (gir & inner & Hg & _ & _ & ->). unfold DecodePeerIdentityRecord in *. rewrite Hpb, Hd in *.
    rewrite Hg in *. by destruct (Equal (gd_GroupID _) zeroID).
Qed.

Lemma ttlForType_window st window t :
  window <= st.(rs_peerTTL) /\ window <= st.(rs_groupTTL) -> is_signed t = true -> window <= ttlForType st t.
Proof. intros [H1 H2]. by destruct t. Qed.

(** Replacing the record at [key] by a versioned one of version [v] or more. *)
Lemma holds_put key t0 window v st data now :
  holds_version key t0 window v st -> is_signed (classifyRecord data) = true ->
  v <= extractRecordVersion data -> t0 <= now ->
  holds_version key t0 window v
    (put_record key data (mkMeta now (ttlForType st (classifyRecord data)) (classifyRecord data)) st).
Proof.
  intros [_ He Ht] Hs Hv Hnow. split; [|done..]. exists data. eexists. cbn.
  rewrite !lookup_insert_eq. split_and!; try done. by apply ttlForType_window.
Qed.

Lemma holds_other key t0 window v st st' :
  key_view st' key = key_view st key -> same_ttls st st' ->
  holds_version key t0 window v st -> holds_version key t0 window v st'.
Proof.
  intros Hkv (Hp & Hg & _) [Hr He Ht]. unfold key_view in Hkv. injection Hkv as H1 H2 H3.
  split; [by rewrite H1, H2|by rewrite H3|by rewrite Hp, Hg].
Qed.

Lemma add_provider_entries_plain now key data st :
  match unmarshalProviderList data with Ok l => l.(prl_Providers) = [] | Err _ => True end ->
  add_provider_entries now key data st = st.
Proof. unfold add_provider_entries. destruct (unmarshalProviderList data) as [l|]; [|done]. by intros ->. Qed.

Lemma add_provider_entries_other now key data st key' :
  key' <> key -> key_view (add_provider_entries now key data st) key' = key_view st key' /\
    same_ttls st (add_provider_entries now key data st).
Proof.
  intros Hne. unfold add_provider_entries. destruct (unmarshalProviderList data) as [l|]; [|done].
  destruct (prl_Providers l); [done|]. split; [|done]. unfold key_view. cbn. by rewrite lookup_insert_ne.
Qed.

Lemma put_record_other key data m st key' :
  key' <> key -> key_view (put_record key data m st) key' = key_view st key' /\ same_ttls st (put_record key data m st).
Proof. intros Hne. split; [|done]. unfold key_view. cbn. by rewrite !lookup_insert_ne by done. Qed.

Lemma set_entry_times_other key times st key' :
  key' <> key -> key_view (set_entry_times key times st) key' = key_view st key' /\
    same_ttls st (set_entry_times key times st).
Proof. intros Hne. split; [|done]. unfold key_view. cbn. by rewrite !lookup_insert_ne by done. Qed.

Lemma localRecordPut_other clk key data st key' :
  key' <> key -> key_view (localRecordPut clk key data st) key' = key_view st key' /\
    same_ttls st (localRecordPut clk key data st).
Proof.
  intros Hne. unfold localRecordPut. cbv zeta.
  destruct (0 <? _); [destruct (newer_stored _ _ _ _); [done|]|].
  all: match goal with |- context [add_provider_entries ?n ?k ?d ?s] =>
    destruct (add_provider_entries_other n k d s key' Hne) as [-> Hs] end;
    (split; [|exact Hs]); by apply put_record_other.
Qed.

Lemma storeRecord_other clk key data caller st key' :
  key' <> key -> key_view (storeRecord clk key data caller st).1 key' = key_view st key' /\
    same_ttls st (storeRecord clk key data caller st).1.
Proof.
  intros Hne. unfold storeRecord.
  destruct (classifyRecord data); cbn [fst]; [by apply localRecordPut_other|..].
  1,2: unfold storeSignedRecord; destruct (checked_version _ _); [|done];
    destruct (newer_stored _ _ _ _); [done|]; by apply put_record_other.
  unfold storeProviderRecord. destruct (unmarshalProvider data); [|done].
  destruct (negb _); [done|]. cbv zeta. destruct (encodeProviderRecordListWithTimestamps _ _ _); cbn [fst].
  - split; [|done]. rewrite (proj1 (put_record_other _ _ _ _ _ Hne)). by apply set_entry_times_other.
  - by apply set_entry_times_other.
Qed.

Lemma holds_step key t0 window v st clk op :
  0 <= window < 2 ^ 63 -> t0 <= clk.(clk_now) <= t0 + window -> respects key op ->
  holds_version key t0 window v st -> holds_version key t0 window v (apply_op st (clk, op)).
Proof.
  intros Hw Hnow Hop Hst. pose proof Hst as [(raw & m & Hraw & Hm & Hv & Hsm & Hs0 & Httl) He Ht].
  assert (isExpiredAt (meta_of st key) clk.(clk_now) = false) as Hexp.
  { unfold meta_of. rewrite Hm. simpl default. apply (not_expired m _ t0 window); lia. }
  destruct op as [k data caller|k data|keyHex|]; cbn [apply_op respects] in *.
  - destruct (decide (k = key)) as [->|Hne].
    + destruct (Hop eq_refl) as (Hs & Hpos & _). rewrite storeRecord_signed by done.
      unfold storeSignedRecord. destruct (checked_version _ _) as [iv|e] eqn:Hc; [|done].
      destruct (newer_stored _ _ _ _) as [sv|] eqn:Hn; [done|]. cbn [fst].
      apply holds_put; [done..| |lia]. apply checked_version_Ok in Hc.
      rewrite (authentic_version _ _ Hs Hpos Hc).
      pose proof (proj1 (newer_stored_None _ _ _ _) Hn raw Hraw Hexp). lia.
    + destruct (storeRecord_other clk k data caller st key) as [H1 H2]; [done|]. by eapply holds_other.
  - destruct (decide (k = key)) as [->|Hne].
    + destruct (Hop eq_refl) as (Hs & Hpos & Hplain). unfold localRecordPut. cbv zeta.
      rewrite (proj2 (Z.ltb_lt _ _) Hpos). destruct (newer_stored _ _ _ _) as [sv|] eqn:Hn; [done|].
      rewrite add_provider_entries_plain by done. apply holds_put; [done..| |lia].
      pose proof (proj1 (newer_stored_None _ _ _ _) Hn raw Hraw Hexp). lia.
    + destruct (localRecordPut_other clk k data st key) as [H1 H2]; [done|]. by eapply holds_other.
  - unfold DeleteRecord. destruct (parse_key keyHex) as [id|] eqn:Hid; [|done].
    destruct (bool_decide _); [|done]. eapply holds_other; [| |done]; [|done].
    unfold key_view. cbn. by rewrite !lookup_delete_ne by congruence.
  - destruct (purge_view clk st key) as [Hkv Hs]. eapply holds_other; [|exact Hs|done].
    rewrite Hkv. unfold purge_effect, key_view. cbn [fst snd]. rewrite Hm, He, Hraw.
    unfold signed_effect. unfold meta_of in Hexp. rewrite Hm in Hexp. simpl default in Hexp.
    by rewrite Hexp, andb_false_r.
Qed.

(** A put where there is no record. *)
Lemma put_afresh clk key data caller v st :
  is_signed (classifyRecord data) = true -> authentic (classifyRecord data) data v -> st.(records) !! key = None ->
  (storeRecord clk key data caller st).2 = Ok tt.
Proof.
  intros Hs Ha%checked_version_Ok Hnone. rewrite storeRecord_signed by done. unfold storeSignedRecord, newer_stored.
  by rewrite Ha, Hnone.
Qed.


End Runs.

(** ** Where deletion, purging and replication fall short *)

Section Shortcomings.
Context `{HW : WireCodec} `{HE : Ed25519} `{!WireCodecLaws}.

(** Deleting a provider record does not last: [DeleteRecord] leaves the entry times of
    the key, and as long as one of them is live the next purge writes a record (an empty
    list) back under the deleted key. *)
Theorem deleted_record_comes_back (clk : clock) (keyHex : string) (key : NodeID) (times : gmap NodeID Z)
    (st : RecordState) (empty : bytes) :
  parse_key keyHex = Some key -> HasRecord keyHex st = true ->
  st.(providerEntryTimes) !! key = Some times ->
  still_live clk.(clk_now) st.(rs_providerTTL) times <> ∅ ->
  encodeProviderRecordList [] = Ok empty ->
  HasRecord keyHex (DeleteRecord keyHex st).1 = false /\
  HasRecord keyHex (purgeExpiredRecords clk (DeleteRecord keyHex st).1) = true.
Proof.
  intros Hkey Hhas Ht Hlive Hempty. unfold HasRecord, DeleteRecord in *. rewrite Hkey in *.
  rewrite Hhas. cbn [fst]. set (st1 := upd_records _ _ _ st).
  assert (records st1 !! key = None) as Hnone by (cbn; by rewrite lookup_delete_eq).
  split; [by rewrite Hnone|]. apply bool_decide_eq_true_2.
  destruct (purge_view clk st1 key) as [Hv _]. unfold key_view, purge_effect in Hv. cbn [fst snd] in Hv.
  change (providerEntryTimes st1) with (providerEntryTimes st) in Hv.
  assert (recordsMeta st1 !! key = None) as Hm by (cbn; by rewrite lookup_delete_eq).
  rewrite Hnone, Hm, Ht in Hv. unfold provider_effect in Hv. cbn [fst snd] in Hv.
  change (rs_providerTTL st1) with (rs_providerTTL st) in Hv.
  rewrite bool_decide_eq_false_2 in Hv by done. simpl default in Hv.
  rewrite DecodeProviderRecords_nil in Hv. unfold filterb in Hv. cbn [filter list_filter] in Hv.
  rewrite Hempty in Hv. injection Hv as -> _ _. by eexists.
Qed.

Lemma add_entries_untimed now pttl rs times p :
  (0 <? pttl) && (pttl <? time_sub now now) = false ->
  p ∈ (Provider <$> rs) \/ times !! p = Some now ->
  add_entries now pttl false (pb_of_provider <$> rs) [] times !! p = Some now.
Proof.
  intros Hexp. revert times. induction rs as [|r rs IH]; intros times Hin.
  { destruct Hin as [Hin|?]; [|done]. by apply elem_of_nil in Hin. }
  rewrite !fmap_cons. cbn [add_entries hd tl]. cbn [pb_of_provider pr_Provider pr_ContentHash].
  rewrite nid_length, NodeID_copy_bytes. cbn [Nat.eqb negb andb]. rewrite Hexp.
  apply IH. destruct (decide (Provider r = p)) as [<-|Hne].
  - right. by rewrite lookup_insert_eq.
  - rewrite lookup_insert_ne by done. rewrite fmap_cons in Hin. set_solver.
Qed.

(** A purge loses the ages of the providers it keeps: it writes the list back without
    times, so a node that receives the list afterwards gives every provider the time of
    the transfer, whatever its age was. *)
Theorem purged_list_loses_ages (clkB : clock) (key : NodeID) (survivors : list ProviderRecord) (raw : bytes)
    (stB : RecordState) (e : ProviderRecord) :
  encodeProviderRecordList survivors = Ok raw -> extractRecordVersion raw = 0 -> e ∈ survivors ->
  0 <= stB.(rs_providerTTL) ->
  times_of (localRecordPut clkB key raw stB) key !! e.(Provider) = Some clkB.(clk_now).
Proof.
  intros Henc%provider_list_roundtrip Hver He Hpos.
  rewrite (localRecordPut_list _ _ _ _ _ Hver Henc) by (cbn; by destruct survivors; [apply elem_of_nil in He|]).
  rewrite times_of_set. cbn [prl_Providers prl_Timestamps]. rewrite length_fmap.
  replace (Nat.eqb (length []) (length survivors)) with false
    by (by destruct survivors; [apply elem_of_nil in He|]).
  apply add_entries_untimed.
  - apply andb_false_iff. right. apply Z.ltb_ge. unfold time_sub. lia.
  - left. by apply list_elem_of_fmap_2.
Qed.

(** A provider put that reaches a replica in the form the publisher sent (the single
    record, not the merged list) replaces the replica's list for the key: the replica
    then knows none of the key's providers, and if it had no entry times for the key it
    returns those bytes for ever, as they have no TTL. *)
Theorem raw_provider_push_drops_list (clk : clock) (key : NodeID) (data : bytes) (e : error) (st : RecordState) :
  is_provider data = true -> extractRecordVersion data = 0 -> unmarshalProviderList data = Err e ->
  let st' := localRecordPut clk key data st in
  stored_providers st' key = [] /\
  (st.(providerEntryTimes) !! key = None -> forall clk', localRecordGet clk' key st' = Ok data) /\
  (is_Some (st.(providerEntryTimes) !! key) -> forall clk', exists e', localRecordGet clk' key st' = Err e').
Proof.
  intros Hp Hv He st'.
  assert (DecodeProviderRecords data = Err (errorf_w "decode provider record list: " e "")) as Hd.
  { unfold DecodeProviderRecords. by rewrite He. }
  assert (st' = put_record key data (mkMeta clk.(clk_now) 0 recProvider) st) as ->.
  { unfold st', localRecordPut. rewrite Hv. change (0 <? 0) with false. cbv iota zeta.
    unfold add_provider_entries. rewrite He. unfold classifyRecord. by rewrite Hp. }
  split_and!.
  - unfold stored_providers. cbn [put_record upd_records records]. by rewrite lookup_insert_eq, Hd.
  - intros Hnone clk'. unfold localRecordGet. cbn [put_record upd_records records providerEntryTimes].
    rewrite lookup_insert_eq, Hnone. unfold meta_of. cbn [upd_records recordsMeta put_record].
    by rewrite lookup_insert_eq.
  - intros [times Ht] clk'. unfold localRecordGet. cbn [put_record upd_records records providerEntryTimes].
    rewrite lookup_insert_eq, Ht, Hd. by eexists.
Qed.

End Shortcomings.

(** ** The properties apply *)

Definition test_config : Config := config_with_replication 1.
Definition test_store : RecordState := NewRecords test_config.
Definition test_clock (t : Z) : clock := mkClock t t.
Definition test_store7 : RecordState :=
  (storeRecord (test_clock 100) (ID test_peer) (test_peer_bytes 7) zeroID test_store).1.

Definition test_provider : ProviderRecord := mkProviderRecord (test_id x64) (test_id x0a).
Definition test_provider_bytes : bytes :=
  match ProviderRecord_Encode test_provider with Ok b => b | Err _ => [] end.
Definition test_store_p : RecordState :=
  (storeRecord (test_clock 100) (test_id x64) test_provider_bytes (test_id x0a) test_store).1.

Lemma signed_put_checked_witness :
  exists v, authentic recPeer (test_peer_bytes 7) v /\
    (forall raw, test_store.(records) !! ID test_peer = Some raw ->
       isExpiredAt (meta_of test_store (ID test_peer)) 100 = false -> extractRecordVersion raw < v).
Proof.
  assert (classifyRecord (test_peer_bytes 7) = recPeer) as Hc by (vm_compute; reflexivity).
  pose proof (signed_put_checked (test_clock 100) (ID test_peer) (test_peer_bytes 7) zeroID test_store
    (storeRecord (test_clock 100) (ID test_peer) (test_peer_bytes 7) zeroID test_store).1
    (storeRecord (test_clock 100) (ID test_peer) (test_peer_bytes 7) zeroID test_store).2) as H.
  rewrite Hc in H. specialize (H eq_refl (surjective_pairing _)).
  assert ((storeRecord (test_clock 100) (ID test_peer) (test_peer_bytes 7) zeroID test_store).2 = Ok tt) as Hr
    by (vm_compute; reflexivity).
  rewrite Hr in H. destruct H as (v & H1 & H2 & _). exists v. split; [exact H1|exact H2].
Defined.

Lemma version_conflict_reported_witness :
  exists e, storeRecord (test_clock 200) (ID test_peer) (test_peer_bytes 6) zeroID test_store7 =
      (test_store7, Err e) /\
    isVersionConflict e = true /\ isVersionConflict (rpc_error e) = true.
Proof.
  apply (version_conflict_reported (test_clock 200) (ID test_peer) (test_peer_bytes 6) zeroID test_store7
    (test_peer_bytes 7) 6).
  - vm_compute. reflexivity.
  - vm_compute. reflexivity.
  - vm_compute. reflexivity.
  - vm_compute. reflexivity.
  - vm_compute. discriminate.
Defined.

Lemma provider_put_checked_witness :
  stored_providers test_store_p (test_id x64) =
    without (test_id x0a) (live_providers 100 test_store (test_id x64)) ++ [test_provider].
Proof.
  destruct (provider_put_checked (test_clock 100) (test_id x64) test_provider_bytes (test_id x0a)
    test_store test_store_p) as (h & Hh & _ & Hp & _).
  - vm_compute. reflexivity.
  - apply injective_projections; [reflexivity|vm_compute; reflexivity].
  - change (clk_now (test_clock 100)) with 100 in Hp. rewrite Hp. do 2 f_equal.
    assert (unmarshalProvider test_provider_bytes = Ok (pb_of_provider test_provider)) as Hu
      by (apply provider_roundtrip; reflexivity).
    rewrite Hu in Hh. injection Hh as <-. apply provider_of_pb_of.
Defined.

Lemma purge_unobservable_witness :
  same_read (localRecordGet (test_clock 300) (test_id x64) (purgeExpiredRecords (test_clock 200) test_store_p))
            (localRecordGet (test_clock 300) (test_id x64) test_store_p).
Proof.
  apply (purge_unobservable (test_clock 200) (test_clock 300) (test_id x64) test_store_p).
  - cbn. lia.
  - intros _. vm_compute. reflexivity.
Defined.


Lemma test_store_p_times :
  providerEntryTimes test_store_p !! test_id x64 = Some (<[test_id x0a := 100]> ∅).
Proof.
  destruct (storeRecord_provider_Ok (test_clock 100) (test_id x64) test_provider_bytes (test_id x0a)
    test_store test_store_p) as (h & merged & _ & _ & _ & ->).
  - vm_compute. reflexivity.
  - apply injective_projections; [reflexivity|vm_compute; reflexivity].
  - cbn [put_record set_entry_times upd_records providerEntryTimes]. by rewrite lookup_insert_eq.
Qed.

Lemma test_store_p_list : stored_providers test_store_p (test_id x64) = [test_provider].
Proof.
  destruct (storeRecord_provider_Ok (test_clock 100) (test_id x64) test_provider_bytes (test_id x0a)
    test_store test_store_p) as (h & merged & Hh & _ & Henc & ->).
  - vm_compute. reflexivity.
  - apply injective_projections; [reflexivity|vm_compute; reflexivity].
  - rewrite (stored_providers_put _ _ _ _ _ (DecodeProviderRecords_timed _ _ _ _ Henc)).
    assert (unmarshalProvider test_provider_bytes = Ok (pb_of_provider test_provider)) as Hu
      by (apply provider_roundtrip; reflexivity).
    rewrite Hu in Hh. injection Hh as <-. by rewrite provider_of_pb_of.
Qed.

Lemma provider_transfer_keeps_age_witness :
  exists raw, test_store_p.(records) !! test_id x64 = Some raw /\
    times_of (localRecordPut (test_clock 900) (test_id x64) raw test_store) (test_id x64) !! test_id x0a = Some 100.
Proof.
  destruct (test_store_p.(records) !! test_id x64) as [raw|] eqn:Hraw.
  2: { exfalso. revert Hraw. vm_compute. discriminate. }
  exists raw. split; [reflexivity|].
  destruct (provider_transfer_keeps_age (test_clock 100) (test_clock 900) (test_id x64) test_provider_bytes raw
    (test_id x0a) test_store test_store_p test_store) as [_ H].
  - vm_compute. reflexivity.
  - apply injective_projections; [reflexivity|vm_compute; reflexivity].
  - exact Hraw.
  - revert Hraw. vm_compute. intros [= <-]. vm_compute. reflexivity.
  - intros p t. unfold times_of. rewrite test_store_p_times. simpl default.
    rewrite lookup_insert_Some, lookup_empty. intros [[_ <-]|[_ ?]]; [lia|done].
  - apply (H test_provider).
    + rewrite test_store_p_list. by apply list_elem_of_singleton.
    + vm_compute. reflexivity.
    + vm_compute. reflexivity.
Defined.

Definition test_key_hex : string := NodeID_String (test_id x64).

Lemma test_entry_live (p : NodeID) :
  still_live (test_clock 200).(clk_now) test_store_p.(rs_providerTTL) (<[p := 100]> ∅) !! p <> None.
Proof.
  unfold still_live. intros Hnone. apply map_lookup_filter_None in Hnone as [Hnone|Hnone].
  - by rewrite lookup_insert_eq in Hnone.
  - apply (Hnone 100); [apply lookup_insert_eq|]. vm_compute. exact I.
Qed.

Lemma deleted_record_comes_back_witness :
  HasRecord test_key_hex (DeleteRecord test_key_hex test_store_p).1 = false /\
  HasRecord test_key_hex (purgeExpiredRecords (test_clock 200) (DeleteRecord test_key_hex test_store_p).1) = true.
Proof.
  apply (deleted_record_comes_back (test_clock 200) test_key_hex (test_id x64) (<[test_id x0a := 100]> ∅) test_store_p
    (x03 :: put (mkPbProviderList [] []))).
  - unfold parse_key, test_key_hex, NodeID_String. rewrite hex_DecodeString_encode, nid_length.
    cbn [Nat.eqb]. by rewrite NodeID_copy_bytes.
  - vm_compute. reflexivity.
  - apply test_store_p_times.
  - intros Hempty. apply (test_entry_live (test_id x0a)). rewrite Hempty. reflexivity.
  - reflexivity.
Defined.

Definition test_list_bytes : bytes := x03 :: put (mkPbProviderList [pb_of_provider test_provider] []).

Lemma purged_list_loses_ages_witness :
  times_of (localRecordPut (test_clock 900) (test_id x64) test_list_bytes test_store) (test_id x64) !! test_id x0a =
    Some 900.
Proof.
  apply (purged_list_loses_ages (test_clock 900) (test_id x64) [test_provider] test_list_bytes test_store test_provider).
  - reflexivity.
  - vm_compute. reflexivity.
  - by apply list_elem_of_singleton.
  - vm_compute. discriminate.
Defined.

Lemma raw_provider_push_drops_list_witness :
  stored_providers (localRecordPut (test_clock 200) (test_id x64) test_provider_bytes test_store_p) (test_id x64) = [].
Proof.
  apply (raw_provider_push_drops_list (test_clock 200) (test_id x64) test_provider_bytes
    (errorf "unexpected message") test_store_p).
  - vm_compute. reflexivity.
  - vm_compute. reflexivity.
  - vm_compute. reflexivity.
Defined.
