(* ===== verification/RecordNet.v ===== *)
(** * Records over the network (src/dht/node.go, the [RecordTransport] of src/dht/local.go)

    Routed puts and gets, best-effort replication, and the transfer of records to a new
    predecessor. A handler sees its own records, its clock and the record calls of its
    transport through [RecordEnv]; [RecordWorld] is a cluster whose nodes hold records,
    with the in-process transport. *)

From stdpp Require Import base gmap list strings.
From Stdlib Require Import ZArith Lia Strings.Byte.
From S2P Require Import Prelude Hoare Config Chord Routing Lookup Cluster Sha1 Identity Records TestCodec RecordStore.

Set Default Goal Selector "!".
Local Open Scope Z_scope.

(** ** Handlers *)

(** [re_supported]: the transport implements [RecordTransport]. *)
Class RecordEnv (W : Type) := {
  re_state : W -> RecordState;
  re_set_state : RecordState -> W -> W;
  re_clock : W -> clock;
  re_supported : bool;
  rt_PutRecord : NodeAddr -> NodeID -> bytes -> NodeID -> M W unit;
  rt_GetRecord : NodeAddr -> NodeID -> M W bytes;
  rt_PushRecords : NodeAddr -> list (NodeID * bytes) -> M W unit
}.

Section Handlers.
Context `{WireCodec} `{Ed25519} {W : Type} `{NodeEnv W} `{RecordEnv W}.

(** An operation on the node's own records. *)
Definition onRecords {A} (f : clock -> M RecordState A) : M W A := fun w =>
  let '(st, r) := f (re_clock w) (re_state w) in (re_set_state st w, r).

Definition readRecords {A} (f : clock -> RecordState -> result A) : M W A := fun w =>
  (w, f (re_clock w) (re_state w)).

Definition no_record_transport : error := errorf "transport does not support record operations".

(** The loop pushes to the first [replication - 1] entries of the successor list. *)
Definition replicateRecordBestEffort (key : NodeID) (data : bytes) : M W unit :=
  r ← getRouting;
  if r.(r_replication) <=? 1 then m_ret tt
  else if negb re_supported then m_ret tt
  else
    m_forM (take (Z.to_nat (r.(r_replication) - 1)) r.(r_successorList)) (fun succ =>
      if Equal succ.(na_id) r.(r_id) then m_ret tt
      else m_ignore (rt_PushRecords succ [(key, data)])).

Definition RecordPut (ctx : context W) (key : NodeID) (data : bytes) : M W unit :=
  r ← getRouting;
  res ← m_try (FindSuccessor ctx key);
  match res with
  | Err e => m_err (errorf_w "route record put: " e "")
  | Ok responsible =>
      if Equal responsible.(na_id) r.(r_id) then
        _ ← onRecords (fun clk => storeRecord clk key data r.(r_id));
        replicateRecordBestEffort key data
      else if negb re_supported then m_err no_record_transport
      else rt_PutRecord responsible key data r.(r_id)
  end.

Definition RecordGet (ctx : context W) (key : NodeID) : M W bytes :=
  r ← getRouting;
  res ← m_try (FindSuccessor ctx key);
  match res with
  | Err e => m_err (errorf_w "route record get: " e "")
  | Ok responsible =>
      if Equal responsible.(na_id) r.(r_id) then
        readRecords (fun clk => localRecordGet clk key)
      else if negb re_supported then m_err no_record_transport
      else rt_GetRecord responsible key
  end.

(** [transferRecordsRange], started when a predecessor is accepted. *)
Definition transferRecordsRange (target : NodeAddr) (from to : NodeID) : M W unit := fun w =>
  if negb re_supported then (w, Ok tt)
  else
    match getRecordsInRange from to (re_state w) with
    | [] => (w, Ok tt)
    | kvs => m_ignore (rt_PushRecords target kvs) w
    end.

End Handlers.

(** ** A cluster with records *)

Record RecordWorld := mkWorld {
  rw_cluster : Cluster;
  rw_records : gmap NodeID RecordState;
  rw_clock : clock
}.

Definition rw_set_cluster (c : Cluster) (w : RecordWorld) : RecordWorld :=
  mkWorld c w.(rw_records) w.(rw_clock).

Definition rw_set_records (n : NodeID) (st : RecordState) (w : RecordWorld) : RecordWorld :=
  mkWorld w.(rw_cluster) (<[n := st]> w.(rw_records)) w.(rw_clock).

Definition rw_set_clock (clk : clock) (w : RecordWorld) : RecordWorld :=
  mkWorld w.(rw_cluster) w.(rw_records) clk.

Definition on_cluster {A} (m : M Cluster A) : M RecordWorld A := fun w =>
  let '(c, r) := m w.(rw_cluster) in (rw_set_cluster c w, r).

Definition record_state (n : NodeID) (w : RecordWorld) : RecordState :=
  default (NewRecords (config_with_replication 1)) (w.(rw_records) !! n).

Definition world_env (self : NodeID) : NodeEnv RecordWorld :=
  let E := localTransport self in {|
    ne_routing := fun w => @ne_routing _ E w.(rw_cluster);
    ne_set_routing := fun r w => rw_set_cluster (@ne_set_routing _ E r w.(rw_cluster)) w;
    ne_spawn := fun t w => rw_set_cluster (@ne_spawn _ E t w.(rw_cluster)) w;
    tr_FindSuccessor := fun t id => on_cluster (@tr_FindSuccessor _ E t id);
    tr_ClosestPrecedingNode := fun t id => on_cluster (@tr_ClosestPrecedingNode _ E t id);
    tr_GetPredecessor := fun t => on_cluster (@tr_GetPredecessor _ E t);
    tr_GetSuccessorList := fun t => on_cluster (@tr_GetSuccessorList _ E t);
    tr_Notify := fun t caller => on_cluster (@tr_Notify _ E t caller);
    tr_NotifyLeave := fun t l s p => on_cluster (@tr_NotifyLeave _ E t l s p);
    tr_Ping := fun t => on_cluster (@tr_Ping _ E t);
    ne_addrRefresher := fun w => @ne_addrRefresher _ E w.(rw_cluster)
  |}.

Section Transport.
Context `{WireCodec} `{Ed25519}.

(** [resolve], then an operation at the target. *)
Definition at_target {A} (self : NodeID) (target : NodeAddr) (h : M RecordWorld A) : M RecordWorld A :=
  fun w =>
    match getNode w.(rw_cluster) self target.(na_id) with
    | None => (w, Err (unreachable target))
    | Some _ => h w
    end.

Definition local_PushRecords (self : NodeID) (target : NodeAddr) (kvs : list (NodeID * bytes))
    : M RecordWorld unit :=
  at_target self target (fun w =>
    (rw_set_records target.(na_id)
       (foldl (fun st kv => localRecordPut w.(rw_clock) kv.1 kv.2 st) (record_state target.(na_id) w) kvs) w,
     Ok tt)).

Definition local_GetRecord (self : NodeID) (target : NodeAddr) (key : NodeID) : M RecordWorld bytes :=
  at_target self target (fun w =>
    (w, localRecordGet w.(rw_clock) key (record_state target.(na_id) w))).

Definition local_TransferRecords (self : NodeID) (target : NodeAddr) (from to : NodeID)
    : M RecordWorld (list (NodeID * bytes)) :=
  at_target self target (fun w => (w, Ok (getRecordsInRange from to (record_state target.(na_id) w)))).

(** The records of a node that serves a put: it only pushes. *)
Definition serving_env (self : NodeID) : RecordEnv RecordWorld := {|
  re_state := record_state self;
  re_set_state := rw_set_records self;
  re_clock := rw_clock;
  re_supported := true;
  rt_PutRecord := fun _ _ _ _ => m_err (errorf "not called");
  rt_GetRecord := fun _ _ => m_err (errorf "not called");
  rt_PushRecords := local_PushRecords self
|}.

Definition local_PutRecord (self : NodeID) (target : NodeAddr) (key : NodeID) (data : bytes) (callerID : NodeID)
    : M RecordWorld unit :=
  at_target self target (
    _ ← @onRecords _ (serving_env target.(na_id)) _ (fun clk => storeRecord clk key data callerID);
    @replicateRecordBestEffort _ (world_env target.(na_id)) (serving_env target.(na_id)) key data).

Definition record_env (self : NodeID) : RecordEnv RecordWorld := {|
  re_state := record_state self;
  re_set_state := rw_set_records self;
  re_clock := rw_clock;
  re_supported := true;
  rt_PutRecord := local_PutRecord self;
  rt_GetRecord := local_GetRecord self;
  rt_PushRecords := local_PushRecords self
|}.

End Transport.

(** ** Routing in a world with records *)

Section Published.
Context `{HW : WireCodec} `{HE : Ed25519}.

Lemma world_stabilized w self :
  stabilized_cluster w.(rw_cluster) -> (forall m, (self, m) ∉ w.(rw_cluster).(cl_blocked)) ->
  @StabilizedNet _ (world_env self) (dom w.(rw_cluster).(cl_nodes)) (fun n => node_state n w.(rw_cluster)) w.
Proof.
  intros Hst Hreach. destruct (localTransport_stabilized _ self Hst Hreach) as [H1 H2]. split; [done|].
  intros t id Ht. cbn [world_env tr_ClosestPrecedingNode]. unfold on_cluster. rewrite H2 by done.
  by destruct w.
Qed.

Lemma world_FindSuccessor w self key :
  stabilized_cluster w.(rw_cluster) -> (forall m, (self, m) ∉ w.(rw_cluster).(cl_blocked)) ->
  self ∈ dom w.(rw_cluster).(cl_nodes) ->
  exists a, @FindSuccessor _ (world_env self) Background key w = (w, Ok a) /\
    key_owner (dom w.(rw_cluster).(cl_nodes)) key a.(na_id).
Proof.
  intros Hst Hreach Hself. pose proof (world_stabilized w self Hst Hreach) as Hnet.
  by apply (@FindSuccessor_ok _ (world_env self) _ _ w Hnet Background self key).
Qed.

(** A world with cluster [c] and clock [clk] in which [o] holds the records [st]. *)
Definition owner_holds (c : Cluster) (o : NodeID) (st : RecordState) (clk : clock) (w : RecordWorld) : Prop :=
  w.(rw_cluster) = c /\ record_state o w = st /\ w.(rw_clock) = clk.

(** Replication leaves the owner's records alone. *)
Lemma replicate_keeps_owner c o st clk key data (R : RecordEnv RecordWorld) :
  (@rt_PushRecords _ R = local_PushRecords o) ->
  (node_state o c).(r_id) = o ->
  succeeds (owner_holds c o st clk) (@replicateRecordBestEffort _ (world_env o) R key data)
    (fun _ => owner_holds c o st clk).
Proof.
  intros Hpush Hid. unfold replicateRecordBestEffort.
  eapply (succeeds_bind_fact _ (owner_holds c o st clk) (fun r => r = node_state o c)).
  { intros w Hw. split; [done|]. destruct Hw as [<- _]. done. }
  intros r ->. rewrite Hid. destruct (_ <=? 1); [by apply succeeds_ret|].
  destruct (negb _); [by apply succeeds_ret|].
  generalize (take (Z.to_nat (r_replication (node_state o c) - 1)) (r_successorList (node_state o c))).
  intros l. induction l as [|s l IH]; cbn [m_forM]; [by apply succeeds_ret|].
  eapply (succeeds_bind _ _ _ (fun _ => owner_holds c o st clk)); [|intros []; exact IH].
  destruct (Equal (na_id s) o) eqn:Heq; [by apply succeeds_ret|]. apply Equal_false in Heq.
  intros w Hw. unfold m_ignore. rewrite Hpush. unfold local_PushRecords, at_target.
  destruct (getNode _ _ _); [|done]. destruct Hw as (Hc & Hs & Hk). unfold owner_holds, record_state in *.
  cbn [fst rw_set_records rw_cluster rw_records rw_clock]. by rewrite lookup_insert_ne.
Qed.

(** What a put does at the owner decides the outcome of [RecordPut] at any member. *)
Lemma RecordPut_owner w self o key data st' :
  stabilized_cluster w.(rw_cluster) -> (forall a b, (a, b) ∉ w.(rw_cluster).(cl_blocked)) ->
  self ∈ dom w.(rw_cluster).(cl_nodes) -> key_owner (dom w.(rw_cluster).(cl_nodes)) key o ->
  storeRecord w.(rw_clock) key data self (record_state o w) = (st', Ok tt) ->
  exists w', @RecordPut _ _ _ (world_env self) (record_env self) Background key data w = (w', Ok tt) /\
    owner_holds w.(rw_cluster) o st' w.(rw_clock) w'.
Proof.
  intros Hst Hreach Hself Ho Hstore.
  destruct (world_FindSuccessor w self key Hst (Hreach self) Hself) as (a & Hfind & Ha).
  pose proof (key_owner_unique _ _ _ _ Ha Ho) as Hao.
  assert (forall n, n ∈ dom w.(rw_cluster).(cl_nodes) -> r_id (node_state n w.(rw_cluster)) = n) as Hids.
  { intros n [r Hr]%elem_of_dom. unfold node_state. rewrite Hr. by apply Hst. }
  assert (owner_holds w.(rw_cluster) o st' w.(rw_clock) (rw_set_records o st' w)) as Hown.
  { split_and!; [done| |done]. unfold record_state. cbn [rw_set_records rw_records]. by rewrite lookup_insert_eq. }
  unfold RecordPut, getRouting, mbind, M_bind, m_bind, m_try. rewrite Hfind.
  cbn [world_env localTransport ne_routing]. rewrite (Hids self Hself).
  destruct (Equal (na_id a) self) eqn:Heq.
  - apply Equal_true in Heq. assert (o = self) as -> by congruence.
    unfold onRecords. cbn [record_env re_clock re_state re_set_state]. rewrite Hstore.
    destruct (succeeds_final _ _ _ _ (replicate_keeps_owner _ self st' _ key data (record_env self) eq_refl
      (Hids self Hself)) Hown) as ([] & w' & -> & Hw'). by exists w'.
  - cbn [record_env re_supported negb rt_PutRecord]. unfold local_PutRecord, at_target.
    assert (o ∈ dom w.(rw_cluster).(cl_nodes)) as HoR by apply Ho. rewrite Hao.
    unfold getNode. rewrite bool_decide_eq_false_2 by done.
    pose proof HoR as [ro Hro]%elem_of_dom. rewrite Hro.
    unfold mbind, M_bind, m_bind, onRecords. cbn [serving_env re_clock re_state re_set_state]. rewrite Hstore.
    destruct (succeeds_final _ _ _ _ (replicate_keeps_owner _ o st' _ key data (serving_env o) eq_refl
      (Hids o HoR)) Hown) as ([] & w' & -> & Hw'). by exists w'.
Qed.

Lemma RecordGet_owner w reader o key :
  stabilized_cluster w.(rw_cluster) -> (forall a b, (a, b) ∉ w.(rw_cluster).(cl_blocked)) ->
  reader ∈ dom w.(rw_cluster).(cl_nodes) -> key_owner (dom w.(rw_cluster).(cl_nodes)) key o ->
  @RecordGet _ _ (world_env reader) (record_env reader) Background key w =
    (w, localRecordGet w.(rw_clock) key (record_state o w)).
Proof.
  intros Hst Hreach Hself Ho.
  destruct (world_FindSuccessor w reader key Hst (Hreach reader) Hself) as (a & Hfind & Ha).
  pose proof (key_owner_unique _ _ _ _ Ha Ho) as Hao.
  unfold RecordGet, getRouting, mbind, M_bind, m_bind, m_try. rewrite Hfind.
  cbn [world_env localTransport ne_routing].
  assert (r_id (node_state reader w.(rw_cluster)) = reader) as ->.
  { apply elem_of_dom in Hself as [r Hr]. unfold node_state. rewrite Hr. by apply Hst. }
  destruct (Equal (na_id a) reader) eqn:Heq.
  - apply Equal_true in Heq. by assert (o = reader) as -> by congruence.
  - cbn [record_env re_supported negb rt_GetRecord]. unfold local_GetRecord, at_target. rewrite Hao.
    assert (o ∈ dom w.(rw_cluster).(cl_nodes)) as [ro Hro]%elem_of_dom by apply Ho.
    unfold getNode. rewrite bool_decide_eq_false_2 by done. by rewrite Hro.
Qed.

(** A put the owner refuses fails with its error, and changes no record there. *)
Lemma RecordPut_refused w self o key data e :
  stabilized_cluster w.(rw_cluster) -> (forall a b, (a, b) ∉ w.(rw_cluster).(cl_blocked)) ->
  self ∈ dom w.(rw_cluster).(cl_nodes) -> key_owner (dom w.(rw_cluster).(cl_nodes)) key o ->
  storeRecord w.(rw_clock) key data self (record_state o w) = (record_state o w, Err e) ->
  exists w', @RecordPut _ _ _ (world_env self) (record_env self) Background key data w = (w', Err e) /\
    owner_holds w.(rw_cluster) o (record_state o w) w.(rw_clock) w'.
Proof.
  intros Hst Hreach Hself Ho Hstore.
  destruct (world_FindSuccessor w self key Hst (Hreach self) Hself) as (a & Hfind & Ha).
  pose proof (key_owner_unique _ _ _ _ Ha Ho) as Hao.
  assert (r_id (node_state self w.(rw_cluster)) = self) as Hid.
  { apply elem_of_dom in Hself as [r Hr]. unfold node_state. rewrite Hr. by apply Hst. }
  assert (owner_holds w.(rw_cluster) o (record_state o w) w.(rw_clock) (rw_set_records o (record_state o w) w)) as Hown.
  { split_and!; [done| |done]. unfold record_state. cbn [rw_set_records rw_records]. by rewrite lookup_insert_eq. }
  unfold RecordPut, getRouting, mbind, M_bind, m_bind, m_try. rewrite Hfind.
  cbn [world_env localTransport ne_routing]. rewrite Hid.
  destruct (Equal (na_id a) self) eqn:Heq.
  - apply Equal_true in Heq. assert (o = self) as -> by congruence.
    unfold onRecords. cbn [record_env re_clock re_state re_set_state]. rewrite Hstore. by eexists.
  - cbn [record_env re_supported negb rt_PutRecord]. unfold local_PutRecord, at_target.
    assert (o ∈ dom w.(rw_cluster).(cl_nodes)) as HoR by apply Ho. rewrite Hao.
    unfold getNode. rewrite bool_decide_eq_false_2 by done.
    pose proof HoR as [ro Hro]%elem_of_dom. rewrite Hro.
    unfold mbind, M_bind, m_bind, onRecords. cbn [serving_env re_clock re_state re_set_state]. rewrite Hstore. by eexists.
Qed.

(** A signed record that is newer than what its owner holds is stored there. *)
Lemma published_stored (w : RecordWorld) (self o key : NodeID) (data : bytes) (v : Z) :
  stabilized_cluster w.(rw_cluster) -> (forall a b, (a, b) ∉ w.(rw_cluster).(cl_blocked)) ->
  self ∈ dom w.(rw_cluster).(cl_nodes) -> key_owner (dom w.(rw_cluster).(cl_nodes)) key o ->
  is_signed (classifyRecord data) = true -> authentic (classifyRecord data) data v ->
  newer_stored w.(rw_clock).(clk_now) key v (record_state o w) = None ->
  exists w', @RecordPut _ _ _ (world_env self) (record_env self) Background key data w = (w', Ok tt) /\
    forall reader clk', reader ∈ dom w.(rw_cluster).(cl_nodes) ->
      @RecordGet _ _ (world_env reader) (record_env reader) Background key (rw_set_clock clk' w') =
        (rw_set_clock clk' w', localRecordGet clk' key (put_record key data (mkMeta w.(rw_clock).(clk_now)
           (ttlForType (record_state o w) (classifyRecord data)) (classifyRecord data)) (record_state o w))).
Proof.
  intros Hst Hreach Hself Ho Hs Hauth Hnew. set (st := record_state o w) in *. set (st' := put_record key data _ st).
  destruct (RecordPut_owner w self o key data st') as (w' & Hput & Hc & Hrec & Hclk); [done..| |].
  { rewrite storeRecord_signed by done. unfold storeSignedRecord. apply checked_version_Ok in Hauth.
    fold st. by rewrite Hauth, Hnew. }
  exists w'. split; [done|]. intros reader clk' Hreader.
  rewrite (RecordGet_owner (rw_set_clock clk' w') reader o) by (cbn [rw_set_clock rw_cluster]; by rewrite ?Hc).
  change (record_state o (rw_set_clock clk' w')) with (record_state o w'). by rewrite Hrec.
Qed.

(** What a node returns of a record it has just stored. *)
Lemma read_back clk' key data now t st :
  match st.(providerEntryTimes) !! key with
  | None => time_sub clk'.(clk_now) now <= ttlForType st t ->
      localRecordGet clk' key (put_record key data (mkMeta now (ttlForType st t) t) st) = Ok data
  | Some _ => forall e, DecodeProviderRecords data = Err e ->
      exists e', localRecordGet clk' key (put_record key data (mkMeta now (ttlForType st t) t) st) = Err e'
  end.
Proof.
  unfold localRecordGet. cbn [put_record upd_records records providerEntryTimes]. rewrite lookup_insert_eq.
  destruct (providerEntryTimes st !! key) as [times|]; [intros e ->; by eexists|]. intros Hage.
  unfold meta_of. cbn [upd_records recordsMeta put_record]. rewrite lookup_insert_eq. simpl default.
  apply Z.ltb_ge in Hage. unfold isExpiredAt. cbn [ttl storedAt]. by rewrite Hage, andb_false_r.
Qed.

Lemma published_found (w : RecordWorld) (self o key : NodeID) (data : bytes) (v : Z) :
  stabilized_cluster w.(rw_cluster) -> (forall a b, (a, b) ∉ w.(rw_cluster).(cl_blocked)) ->
  self ∈ dom w.(rw_cluster).(cl_nodes) -> key_owner (dom w.(rw_cluster).(cl_nodes)) key o ->
  is_signed (classifyRecord data) = true -> authentic (classifyRecord data) data v ->
  newer_stored w.(rw_clock).(clk_now) key v (record_state o w) = None ->
  (record_state o w).(providerEntryTimes) !! key = None ->
  exists w', @RecordPut _ _ _ (world_env self) (record_env self) Background key data w = (w', Ok tt) /\
    forall reader clk', reader ∈ dom w.(rw_cluster).(cl_nodes) ->
      time_sub clk'.(clk_now) w.(rw_clock).(clk_now) <= ttlForType (record_state o w) (classifyRecord data) ->
      @RecordGet _ _ (world_env reader) (record_env reader) Background key (rw_set_clock clk' w') =
        (rw_set_clock clk' w', Ok data).
Proof.
  intros Hst Hreach Hself Ho Hs Hauth Hnew Hnone.
  destruct (published_stored w self o key data v Hst Hreach Hself Ho Hs Hauth Hnew) as (w' & Hput & Hget).
  exists w'. split; [done|]. intros reader clk' Hreader Hage. rewrite Hget by done. f_equal.
  pose proof (read_back clk' key data w.(rw_clock).(clk_now) (classifyRecord data) (record_state o w)) as H.
  rewrite Hnone in H. by apply H.
Qed.

(** C7: in a stabilized ring whose links work, an authentic signed record that is newer than what
    its owner holds can be published at any member. If the owner has no provider entries at the key,
    a get at any member returns the record unchanged until the TTL of its kind has passed: routing brings
    the put and the gets to the same node, and replication does not disturb what was stored there. If it
    has such entries, the put succeeds as well, but every get takes the record for a list of
    providers and fails when it is not one. *)
Theorem published_record_is_found (w : RecordWorld) (self o key : NodeID) (data : bytes) (v : Z) :
  stabilized_cluster w.(rw_cluster) -> (forall a b, (a, b) ∉ w.(rw_cluster).(cl_blocked)) ->
  self ∈ dom w.(rw_cluster).(cl_nodes) -> key_owner (dom w.(rw_cluster).(cl_nodes)) key o ->
  is_signed (classifyRecord data) = true -> authentic (classifyRecord data) data v ->
  newer_stored w.(rw_clock).(clk_now) key v (record_state o w) = None ->
  exists w', @RecordPut _ _ _ (world_env self) (record_env self) Background key data w = (w', Ok tt) /\
    forall reader clk', reader ∈ dom w.(rw_cluster).(cl_nodes) ->
      let got := @RecordGet _ _ (world_env reader) (record_env reader) Background key (rw_set_clock clk' w') in
      match (record_state o w).(providerEntryTimes) !! key with
      | None => time_sub clk'.(clk_now) w.(rw_clock).(clk_now) <= ttlForType (record_state o w) (classifyRecord data) ->
          got = (rw_set_clock clk' w', Ok data)
      | Some _ => forall e, DecodeProviderRecords data = Err e -> exists e', got = (rw_set_clock clk' w', Err e')
      end.
Proof.
  intros Hst Hreach Hself Ho Hs Hauth Hnew.
  destruct (published_stored w self o key data v Hst Hreach Hself Ho Hs Hauth Hnew) as (w' & Hput & Hget).
  exists w'. split; [done|]. intros reader clk' Hreader got. subst got. rewrite Hget by done.
  pose proof (read_back clk' key data w.(rw_clock).(clk_now) (classifyRecord data) (record_state o w)) as H.
  destruct (providerEntryTimes _ !! key) as [times|].
  - intros e He. destruct (H e He) as [e' ->]. by exists e'.
  - intros Hage. by rewrite H.
Qed.

End Published.

(** ** The property applies *)

Definition test_members : gset NodeID := {[test_id x0a; test_id x64; test_id xc8]}.

Definition test_world : RecordWorld := mkWorld (ideal_cluster test_members) ∅ (test_clock 100).

Lemma test_members_in : test_id x0a ∈ test_members /\ test_id x64 ∈ test_members.
Proof. unfold test_members. set_solver. Qed.

Lemma test_world_owner k : exists o, key_owner test_members k o /\ record_state o test_world = test_store.
Proof.
  destruct (argmin_exists (dist k) test_members) as (o & Ho).
  - intros H. pose proof (proj1 test_members_in) as Hin. rewrite H in Hin. by apply not_elem_of_empty in Hin.
  - exists o. split; [exact Ho|]. unfold record_state. cbn [test_world rw_records]. by rewrite lookup_empty.
Qed.

Lemma published_record_is_found_witness :
  exists w', @RecordPut _ _ _ (world_env (test_id x0a)) (record_env (test_id x0a)) Background (ID test_peer)
      (test_peer_bytes 7) test_world = (w', Ok tt) /\
    @RecordGet _ _ (world_env (test_id x64)) (record_env (test_id x64)) Background (ID test_peer)
      (rw_set_clock (test_clock 5000) w') = (rw_set_clock (test_clock 5000) w', Ok (test_peer_bytes 7)).
Proof.
  pose proof (ideal_cluster_dom test_members) as Hdom. change (ideal_cluster test_members) with (rw_cluster test_world) in Hdom.
  destruct (test_world_owner (ID test_peer)) as (o & Ho & Hrs).
  destruct (published_record_is_found test_world (test_id x0a) o (ID test_peer) (test_peer_bytes 7) 7)
    as (w' & Hput & Hget).
  - apply ideal_cluster_stabilized.
  - intros a b. apply not_elem_of_empty.
  - rewrite Hdom. apply test_members_in.
  - rewrite Hdom. exact Ho.
  - vm_compute. reflexivity.
  - refine (proj1 (checked_version_Ok (test_peer_bytes 7) (classifyRecord (test_peer_bytes 7)) 7) _).
    vm_compute. reflexivity.
  - refine (eq_ind_r (fun st => newer_stored 100 (ID test_peer) 7 st = None) _ Hrs). vm_compute. reflexivity.
  - exists w'. split; [exact Hput|]. specialize (Hget (test_id x64) (test_clock 5000)). cbv zeta in Hget.
    assert (providerEntryTimes (record_state o test_world) !! ID test_peer = None) as Hnone
      by (refine (eq_ind_r (fun st => providerEntryTimes st !! ID test_peer = None) _ Hrs); vm_compute; reflexivity).
    rewrite Hnone in Hget. apply Hget.
    + rewrite Hdom. apply test_members_in.
    + refine (eq_ind_r (fun st => time_sub 5000 100 <= ttlForType st (classifyRecord (test_peer_bytes 7))) _ Hrs).
      vm_compute. discriminate.
Defined.
