(* ===== verification/StoreKeys.v ===== *)
(** * Keys of the metadata datastore (src/store/network_block_store.go)

    The store keeps its metadata under path-like string keys. [nbkey] is the schema of those
    keys and [render] the strings the code builds. Segments hold no slash, so different
    keys are different strings and each prefix query of the code selects exactly the keys
    it means. *)

From stdpp Require Import base gmap list strings.
From Stdlib Require Import ZArith Lia Ascii Eqdep_dec.
From S2P Require Import Prelude.

Set Default Goal Selector "!".

(** ** Strings and slashes *)

Definition slash : ascii := "/".

Fixpoint slash_free (s : string) : bool :=
  match s with
  | EmptyString => true
  | String c s' => negb (bool_decide (c = slash)) && slash_free s'
  end.

(** [s[n:]] *)
Fixpoint str_drop (n : nat) (s : string) : string :=
  match n, s with
  | O, _ => s
  | S n', String _ s' => str_drop n' s'
  | S _, EmptyString => EmptyString
  end.

(** [strings.IndexByte(s, '/')], and [s[:i]] for the index found. *)
Fixpoint before_slash (s : string) : option string :=
  match s with
  | EmptyString => None
  | String c s' =>
      if bool_decide (c = slash) then Some EmptyString
      else String c <$> before_slash s'
  end.

Lemma str_drop_app p s : str_drop (String.length p) (p +:+ s) = s.
Proof. induction p as [|c p IH]; [by destruct s|]. rewrite string_app_cons. cbn. apply IH. Qed.

Lemma has_prefix_app p s : has_prefix p (p +:+ s) = true.
Proof. apply has_prefix_spec. eauto. Qed.

Lemma string_app_inj p a b : p +:+ a = p +:+ b -> a = b.
Proof. induction p as [|c p IH]; [done|]. rewrite !string_app_cons. intros [= H]. auto. Qed.

Lemma slash_free_app a b : slash_free (a +:+ b) = slash_free a && slash_free b.
Proof.
  induction a as [|c a IH]; [done|]. rewrite string_app_cons. cbn [slash_free]. rewrite IH.
  by rewrite andb_assoc.
Qed.

(** The first slash ends the first segment. *)
Lemma segment_split a b x y :
  slash_free a = true -> slash_free b = true ->
  a +:+ String slash x = b +:+ String slash y -> a = b /\ x = y.
Proof.
  revert b. induction a as [|c a IH]; intros [|d b] Ha Hb; rewrite ?string_app_cons, ?string_app_nil_l.
  - by intros [= ->].
  - intros [= <- _]. cbn in Hb. done.
  - intros [= -> _]. cbn in Ha. done.
  - intros [= -> H]. cbn [slash_free] in Ha, Hb. apply andb_true_iff in Ha as [_ Ha], Hb as [_ Hb].
    destruct (IH b Ha Hb H) as [-> ->]. done.
Qed.

Lemma segment_no_slash a b x : slash_free a = true -> a <> b +:+ String slash x.
Proof.
  intros Ha ->. rewrite slash_free_app in Ha. apply andb_true_iff in Ha as [_ Ha]. done.
Qed.

Lemma before_slash_app a x : slash_free a = true -> before_slash (a +:+ String slash x) = Some a.
Proof.
  induction a as [|c a IH]; intros Ha; [done|]. rewrite string_app_cons. cbn [slash_free before_slash] in *.
  apply andb_true_iff in Ha as [Hc Ha]. apply negb_true_iff in Hc. rewrite Hc, IH by done. done.
Qed.

(** ** Segments *)

(** What a datastore key may hold between two slashes without being rewritten when the
    path is cleaned. *)
Definition seg_ok (s : string) : bool :=
  slash_free s && negb (bool_decide (s = "")) && negb (bool_decide (s = ".")) && negb (bool_decide (s = "..")).

Record seg := mkSeg { seg_str : string; seg_wf : seg_ok seg_str = true }.

Lemma seg_eq a b : seg_str a = seg_str b -> a = b.
Proof.
  destruct a as [s Hs], b as [t Ht]. cbn. intros ->. f_equal.
  apply UIP_dec. intros x y. destruct x, y; auto.
Qed.

#[export] Instance seg_eq_dec : EqDecision seg.
Proof.
  intros a b. destruct (decide (seg_str a = seg_str b)) as [H|H]; [left; by apply seg_eq|right; congruence].
Defined.

Definition seg_of (s : string) : option seg :=
  match Bool.bool_dec (seg_ok s) true with
  | left H => Some (mkSeg s H)
  | right _ => None
  end.

Lemma seg_of_str a : seg_of (seg_str a) = Some a.
Proof.
  unfold seg_of. destruct (Bool.bool_dec _ _) as [H|H]; [|by destruct H; apply seg_wf].
  f_equal. by apply seg_eq.
Qed.

#[export] Instance seg_countable : Countable seg := inj_countable seg_str seg_of seg_of_str.

Lemma seg_slash_free a : slash_free (seg_str a) = true.
Proof. pose proof (seg_wf a) as H. unfold seg_ok in H.
  rewrite !andb_true_iff in H. apply H. Qed.

(** ** The schema *)

Inductive nbkey :=
  | KUsedBytes
  | KBlockCount
  | KPresence (ring : seg)
  | KRingUsed (ring : seg)
  | KRingCount (ring : seg)
  | KRingQuota (ring : seg)
  | KRoot (ring c : seg)
  | KBlockRoot (ring mh c : seg)
  | KCIDUsage (ring c : seg).

#[export] Instance nbkey_eq_dec : EqDecision nbkey.
Proof. solve_decision. Defined.

Definition nbKeyUsedBytes : string := "/meta/used_bytes".
Definition nbKeyBlockCount : string := "/meta/block_count".
Definition nbPrefixRings : string := "/rings/".
Definition nbPrefixRing : string := "/ring/".

Definition ring_base (ring : string) : string := nbPrefixRing +:+ ring +:+ "/".
Definition prefixRoots (ring : string) : string := ring_base ring +:+ "netroots/".
Definition prefixBlockRoots (ring : string) : string := ring_base ring +:+ "blockroots/".
Definition prefixCIDUsage (ring : string) : string := ring_base ring +:+ "cidusage/".
Definition prefixOfBlock (ring mh : string) : string := prefixBlockRoots ring +:+ mh +:+ "/".

Definition render (k : nbkey) : string :=
  match k with
  | KUsedBytes => nbKeyUsedBytes
  | KBlockCount => nbKeyBlockCount
  | KPresence r => nbPrefixRings +:+ seg_str r
  | KRingUsed r => ring_base (seg_str r) +:+ "usedbytes"
  | KRingCount r => ring_base (seg_str r) +:+ "blockcount"
  | KRingQuota r => ring_base (seg_str r) +:+ "quota"
  | KRoot r c => prefixRoots (seg_str r) +:+ seg_str c
  | KBlockRoot r mh c => prefixOfBlock (seg_str r) (seg_str mh) +:+ seg_str c
  | KCIDUsage r c => prefixCIDUsage (seg_str r) +:+ seg_str c
  end.

(** The segments of a key, first to last. *)
Definition segments (k : nbkey) : list string :=
  match k with
  | KUsedBytes => ["meta"; "used_bytes"]
  | KBlockCount => ["meta"; "block_count"]
  | KPresence r => ["rings"; seg_str r]
  | KRingUsed r => ["ring"; seg_str r; "usedbytes"]
  | KRingCount r => ["ring"; seg_str r; "blockcount"]
  | KRingQuota r => ["ring"; seg_str r; "quota"]
  | KRoot r c => ["ring"; seg_str r; "netroots"; seg_str c]
  | KBlockRoot r mh c => ["ring"; seg_str r; "blockroots"; seg_str mh; seg_str c]
  | KCIDUsage r c => ["ring"; seg_str r; "cidusage"; seg_str c]
  end.

(** [/a/b/c] *)
Fixpoint join (l : list string) : string :=
  match l with
  | [] => ""
  | s :: l' => String slash (s +:+ join l')
  end.

Lemma render_join k : render k = join (segments k).
Proof.
  destruct k; cbn [render segments join];
    unfold prefixOfBlock, prefixRoots, prefixBlockRoots, prefixCIDUsage, ring_base, nbPrefixRing, nbPrefixRings,
      nbKeyUsedBytes, nbKeyBlockCount;
    rewrite ?string_app_cons, ?string_app_nil_l, ?string_app_nil_r, ?string_app_assoc;
    rewrite ?string_app_cons, ?string_app_nil_l, ?string_app_nil_r, ?string_app_assoc;
    repeat (rewrite ?string_app_cons, ?string_app_nil_l); reflexivity.
Qed.

Lemma segments_slash_free k : Forall (fun s => slash_free s = true) (segments k).
Proof. destruct k; repeat constructor; auto using seg_slash_free. Qed.

Lemma segments_ok k : segments k <> [] /\ Forall (fun s => seg_ok s = true) (segments k).
Proof. destruct k; (split; [done|]); repeat constructor; auto using seg_wf. Qed.

Lemma join_app_head s l x :
  slash_free s = true -> exists y, s +:+ join l +:+ String slash x = s +:+ String slash y.
Proof. intros _. destruct l as [|t l]; cbn; [by exists x|]. by eexists. Qed.

(** A prefix query over joined segments looks at whole segments. *)
Lemma join_prefix l m :
  Forall (fun s => slash_free s = true) l -> Forall (fun s => slash_free s = true) m ->
  (has_prefix (join l +:+ "/") (join m) = true <-> exists s r, m = l ++ s :: r).
Proof.
  intros Hl Hm. rewrite has_prefix_spec. split.
  - intros [t Ht]. revert m Hm Ht. induction Hl as [|a l Ha Hl IH]; intros m Hm Ht.
    + destruct m as [|b m]; [done|]. by exists b, m.
    + destruct m as [|b m]; [done|]. apply Forall_cons in Hm as [Hb Hm].
      cbn [join] in Ht. rewrite !string_app_cons, !string_app_assoc in Ht. injection Ht as Ht.
      assert (exists y, join l +:+ "/" +:+ t = String slash y) as [y Hy].
      { destruct l; cbn [join]; [|rewrite string_app_cons]; eauto. }
      rewrite Hy in Ht. destruct m as [|c m].
      { cbn [join] in Ht. rewrite string_app_nil_r in Ht. by apply segment_no_slash in Ht. }
      cbn [join] in Ht. apply segment_split in Ht as [-> Hrest]; [|done..].
      destruct (IH (c :: m) Hm) as (s & r & ->); [|by exists s, r].
      cbn [join]. rewrite Hrest, <- Hy. by rewrite string_app_assoc.
  - intros (s & r & ->). clear. induction l as [|a l IH].
    + cbn [join app]. by exists (s +:+ join r).
    + destruct IH as [t Ht]. exists t. cbn [app join]. rewrite Ht.
      by rewrite !string_app_cons, !string_app_assoc.
Qed.

Lemma join_inj l m :
  Forall (fun s => slash_free s = true) l -> Forall (fun s => slash_free s = true) m ->
  join l = join m -> l = m.
Proof.
  intros Hl. revert m. induction Hl as [|a l Ha Hl IH]; intros m Hm H.
  { by destruct m. }
  destruct m as [|b m]; [done|]. apply Forall_cons in Hm as [Hb Hm]. cbn [join] in H. injection H as H.
  destruct l as [|a' l], m as [|b' m]; cbn [join] in H; rewrite ?string_app_nil_r in H.
  - by subst.
  - by apply segment_no_slash in H.
  - symmetry in H. by apply segment_no_slash in H.
  - apply segment_split in H as [-> H]; [|done..]. f_equal. apply IH; [done|]. cbn [join]. by rewrite H.
Qed.

Lemma segments_inj a b : segments a = segments b -> a = b.
Proof. destruct a, b; cbn; intros [=]; f_equal; by apply seg_eq. Qed.

#[export] Instance render_inj : Inj (=) (=) render.
Proof.
  intros a b. rewrite !render_join. intros H%join_inj; [|apply segments_slash_free..]. by apply segments_inj.
Qed.

Definition nbkey_code (k : nbkey) : nat * list seg :=
  match k with
  | KUsedBytes => (0, [])
  | KBlockCount => (1, [])
  | KPresence r => (2, [r])
  | KRingUsed r => (3, [r])
  | KRingCount r => (4, [r])
  | KRingQuota r => (5, [r])
  | KRoot r c => (6, [r; c])
  | KBlockRoot r mh c => (7, [r; mh; c])
  | KCIDUsage r c => (8, [r; c])
  end.

Definition nbkey_of_code (x : nat * list seg) : option nbkey :=
  match x with
  | (0, []) => Some KUsedBytes
  | (1, []) => Some KBlockCount
  | (2, [r]) => Some (KPresence r)
  | (3, [r]) => Some (KRingUsed r)
  | (4, [r]) => Some (KRingCount r)
  | (5, [r]) => Some (KRingQuota r)
  | (6, [r; c]) => Some (KRoot r c)
  | (7, [r; mh; c]) => Some (KBlockRoot r mh c)
  | (8, [r; c]) => Some (KCIDUsage r c)
  | _ => None
  end.

#[export] Instance nbkey_countable : Countable nbkey.
Proof. apply (inj_countable nbkey_code nbkey_of_code). by intros []. Defined.

(** ** The queries *)

Lemma prefix_join (l : list string) k :
  Forall (fun s => slash_free s = true) l ->
  (has_prefix (join l +:+ "/") (render k) = true <-> exists s r, segments k = l ++ s :: r).
Proof. intros Hl. rewrite render_join. apply join_prefix; [done|apply segments_slash_free]. Qed.

Ltac prefix_shape :=
  repeat (rewrite ?string_app_cons, ?string_app_nil_l, ?string_app_nil_r, ?string_app_assoc); reflexivity.

Lemma prefixRoots_join r : prefixRoots r = join ["ring"; r; "netroots"] +:+ "/".
Proof. unfold prefixRoots, ring_base, nbPrefixRing. cbn [join]. prefix_shape. Qed.

Lemma prefixBlockRoots_join r : prefixBlockRoots r = join ["ring"; r; "blockroots"] +:+ "/".
Proof. unfold prefixBlockRoots, ring_base, nbPrefixRing. cbn [join]. prefix_shape. Qed.

Lemma prefixCIDUsage_join r : prefixCIDUsage r = join ["ring"; r; "cidusage"] +:+ "/".
Proof. unfold prefixCIDUsage, ring_base, nbPrefixRing. cbn [join]. prefix_shape. Qed.

Lemma prefixOfBlock_join r mh : prefixOfBlock r mh = join ["ring"; r; "blockroots"; mh] +:+ "/".
Proof. unfold prefixOfBlock, prefixBlockRoots, ring_base, nbPrefixRing. cbn [join]. prefix_shape. Qed.

Lemma ring_base_join r : ring_base r = join ["ring"; r] +:+ "/".
Proof. unfold ring_base, nbPrefixRing. cbn [join]. prefix_shape. Qed.

Lemma prefixRings_join : nbPrefixRings = join ["rings"] +:+ "/".
Proof. reflexivity. Qed.

Ltac same_segs :=
  repeat match goal with H : seg_str _ = seg_str _ |- _ => apply seg_eq in H; subst end.

(** [Query] with each prefix of the code, on keys of the schema. *)
Lemma query_roots (r : seg) k :
  has_prefix (prefixRoots (seg_str r)) (render k) = true <-> exists c, k = KRoot r c.
Proof.
  rewrite prefixRoots_join, prefix_join by (repeat constructor; auto using seg_slash_free). split.
  - intros (s & t & H). destruct k; cbn in H; simplify_eq. same_segs. eauto.
  - intros [c ->]. cbn. eauto.
Qed.

Lemma query_blockroots (r : seg) k :
  has_prefix (prefixBlockRoots (seg_str r)) (render k) = true <-> exists mh c, k = KBlockRoot r mh c.
Proof.
  rewrite prefixBlockRoots_join, prefix_join by (repeat constructor; auto using seg_slash_free). split.
  - intros (s & t & H). destruct k; cbn in H; simplify_eq. same_segs. eauto.
  - intros (mh & c & ->). cbn. eauto.
Qed.

Lemma query_block (r mh : seg) k :
  has_prefix (prefixOfBlock (seg_str r) (seg_str mh)) (render k) = true <-> exists c, k = KBlockRoot r mh c.
Proof.
  rewrite prefixOfBlock_join, prefix_join by (repeat constructor; auto using seg_slash_free). split.
  - intros (s & t & H). destruct k; cbn in H; simplify_eq. same_segs. eauto.
  - intros [c ->]. cbn. eauto.
Qed.

Lemma query_cidusage (r : seg) k :
  has_prefix (prefixCIDUsage (seg_str r)) (render k) = true <-> exists c, k = KCIDUsage r c.
Proof.
  rewrite prefixCIDUsage_join, prefix_join by (repeat constructor; auto using seg_slash_free). split.
  - intros (s & t & H). destruct k; cbn in H; simplify_eq. same_segs. eauto.
  - intros [c ->]. cbn. eauto.
Qed.

Lemma query_rings k : has_prefix nbPrefixRings (render k) = true <-> exists r, k = KPresence r.
Proof.
  rewrite prefixRings_join, prefix_join by (repeat constructor; auto using seg_slash_free). split.
  - intros (s & t & H). destruct k; cbn in H; simplify_eq. eauto.
  - intros [c ->]. cbn. eauto.
Qed.

(** The ring a key belongs to, apart from its presence marker. *)
Definition key_ring (k : nbkey) : option seg :=
  match k with
  | KUsedBytes | KBlockCount | KPresence _ => None
  | KRingUsed r | KRingCount r | KRingQuota r | KRoot r _ | KBlockRoot r _ _ | KCIDUsage r _ => Some r
  end.

Lemma query_ring (r : seg) k :
  has_prefix (ring_base (seg_str r)) (render k) = true <-> key_ring k = Some r.
Proof.
  rewrite ring_base_join, prefix_join by (repeat constructor; auto using seg_slash_free). split.
  - intros (s & t & H). destruct k; cbn in H; simplify_eq; cbn; f_equal; by apply seg_eq.
  - destruct k; intros [= ->]; cbn; eauto.
Qed.
