(* ===== verification/StoreDeps.v ===== *)
(** * What the block store is built on

    The third-party packages under src/store/network_block_store.go: content identifiers
    (go-cid), the metadata datastore (go-datastore over leveldb), the block files (boxo
    blockstore over flatfs) and CBOR. [StoreDeps] holds their entry points and
    [StoreLaws] their documented behaviour when the disk works: a datastore is a map from
    keys to values, a blockstore a map from multihashes to data. [MemStore] is an instance. *)

From stdpp Require Import base gmap list strings.
From Stdlib Require Import ZArith Lia Strings.Byte Ascii.
From S2P Require Import Prelude Hex StoreKeys.

Set Default Goal Selector "!".
Local Open Scope Z_scope.

Class StoreDeps := {
  cid : Type;
  Hash : cid -> bytes;
  cid_String : cid -> string;
  cid_Defined : cid -> bool;
  cid_Parse : string -> result cid;
  NewCidV1Raw : bytes -> cid;
  NewBlockWithCid : bytes -> cid -> result unit;
  newKey : string -> string;
  dstore : Type;
  ds_Get : string -> dstore -> result bytes;
  ds_Has : string -> dstore -> result bool;
  ds_Put : string -> bytes -> dstore -> dstore * result unit;
  ds_Delete : string -> dstore -> dstore * result unit;
  ds_Query : string -> dstore -> result (list (string * bytes));
  (** [Batch], and [Commit] of the puts ([Some]) and deletions ([None]) collected in it. *)
  ds_Batch : dstore -> result unit;
  ds_Commit : list (string * option bytes) -> dstore -> dstore * result unit;
  bstore : Type;
  bs_Has : cid -> bstore -> result bool;
  bs_Get : cid -> bstore -> result bytes;
  bs_GetSize : cid -> bstore -> result Z;
  bs_Put : cid -> bytes -> bstore -> bstore * result unit;
  bs_DeleteBlock : cid -> bstore -> bstore * result unit;
  bs_AllKeys : bstore -> result (list cid);
  cborMarshalRoot : Z -> result bytes;
  cborUnmarshalRoot : bytes -> result Z
}.

(** [key.Hash().HexString()] *)
Definition HashHex `{StoreDeps} (c : cid) : string := hex_encode (Hash c).

Class StoreLaws `{StoreDeps} := {
  ds_view : dstore -> gmap string bytes;
  bs_view : bstore -> gmap bytes bytes;
  (** [NewKey] cleans a path: one made of proper segments stays as it is. *)
  newKey_join l : l <> [] -> Forall (fun s => seg_ok s = true) l -> newKey (join l) = join l;
  Hash_Raw h : Hash (NewCidV1Raw h) = h;
  cid_Parse_String c : cid_Defined c = true -> cid_Parse (cid_String c) = Ok c;
  cid_String_ok c : cid_Defined c = true -> seg_ok (cid_String c) = true;
  Hash_ok c : cid_Defined c = true -> Hash c <> [];
  NewBlockWithCid_ok data c : NewBlockWithCid data c = Ok tt;
  ds_Get_view k d v : ds_Get k d = Ok v <-> ds_view d !! k = Some v;
  ds_Get_missing k d e : ds_Get k d = Err e -> ds_view d !! k = None -> errors_Is e ErrDatastoreNotFound = true;
  ds_Has_view k d : ds_Has k d = Ok (bool_decide (is_Some (ds_view d !! k)));
  ds_Put_view k v d : ds_view (ds_Put k v d).1 = <[k := v]> (ds_view d);
  ds_Put_ok k v d : (ds_Put k v d).2 = Ok tt;
  ds_Delete_view k d : ds_view (ds_Delete k d).1 = delete k (ds_view d);
  ds_Delete_ok k d : (ds_Delete k d).2 = Ok tt;
  ds_Query_view p d : exists l, ds_Query p d = Ok l /\
    l ≡ₚ filterb (fun kv => has_prefix p kv.1) (map_to_list (ds_view d));
  ds_Batch_ok d : ds_Batch d = Ok tt;
  ds_Commit_view l d : ds_view (ds_Commit l d).1 = foldl (fun m kv => partial_alter (fun _ => kv.2) kv.1 m) (ds_view d) l;
  ds_Commit_ok l d : (ds_Commit l d).2 = Ok tt;
  bs_Has_view c b : bs_Has c b = Ok (bool_decide (is_Some (bs_view b !! Hash c)));
  bs_Get_view c b v : bs_Get c b = Ok v <-> bs_view b !! Hash c = Some v;
  bs_GetSize_view c b : bs_GetSize c b =
    match bs_view b !! Hash c with
    | Some data => Ok (Z.of_nat (length data))
    | None => Err (mkError [ErrNotFound] "block was not found")
    end;
  (** A block that is present is not written again. *)
  bs_Put_view c data b : bs_view b !! Hash c = None -> bs_view (bs_Put c data b).1 = <[Hash c := data]> (bs_view b);
  bs_Put_present c data b : is_Some (bs_view b !! Hash c) -> bs_view (bs_Put c data b).1 = bs_view b;
  bs_Put_ok c data b : (bs_Put c data b).2 = Ok tt;
  bs_Delete_view c b : bs_view (bs_DeleteBlock c b).1 = delete (Hash c) (bs_view b);
  bs_Delete_ok c b : (bs_DeleteBlock c b).2 = Ok tt;
  bs_AllKeys_view b : exists l, bs_AllKeys b = Ok l /\ Hash <$> l ≡ₚ (map_to_list (bs_view b)).*1;
  cbor_root_roundtrip e b : cborMarshalRoot e = Ok b -> cborUnmarshalRoot b = Ok e;
  cbor_root_ok e : in_int64 e -> exists b, cborMarshalRoot e = Ok b
}.

Lemma hex_encode_slash_free bs : slash_free (hex_encode bs) = true.
Proof.
  induction bs as [|b bs IH]; [done|]. cbn [hex_encode slash_free]. rewrite IH.
  by destruct b.
Qed.

(** The hex form of a hash is a segment. *)
Lemma hex_seg_ok bs : bs <> [] -> seg_ok (hex_encode bs) = true.
Proof.
  intros Hbs. unfold seg_ok. rewrite hex_encode_slash_free. destruct bs as [|b bs]; [done|].
  by destruct b.
Qed.

Lemma length_encodeInt64LE v : length (encodeInt64LE v) = 8%nat.
Proof. reflexivity. Qed.

Lemma newKey_clean `{StoreLaws} k : newKey (render k) = render k.
Proof. rewrite render_join. destruct (segments_ok k). by apply newKey_join. Qed.

(** ** Sums over the blocks *)

Definition total (b : gmap bytes bytes) : Z := map_fold (fun _ d acc => Z.of_nat (length d) + acc) 0 b.

Lemma total_empty : total ∅ = 0.
Proof. apply map_fold_empty. Qed.

Lemma total_insert (b : gmap bytes bytes) h d :
  b !! h = None -> total (<[h := d]> b) = Z.of_nat (length d) + total b.
Proof. intros Hh. unfold total. rewrite map_fold_insert_L; [done|lia|done]. Qed.

Lemma total_delete (b : gmap bytes bytes) h d :
  b !! h = Some d -> total b = Z.of_nat (length d) + total (delete h b).
Proof.
  intros Hh. rewrite <- (insert_delete_id b h d Hh) at 1. apply total_insert. apply lookup_delete_eq.
Qed.

Lemma total_nonneg b : 0 <= total b.
Proof.
  induction b as [|h d b Hh IH] using map_ind; [by rewrite total_empty|]. rewrite total_insert by done. lia.
Qed.

(** The keys of a map, in some order, and what a scan over them meets. *)
Lemma perm_lookup (b : gmap bytes bytes) h l :
  l ≡ₚ (map_to_list b).*1 -> h ∈ l -> exists d, b !! h = Some d.
Proof.
  intros Hl Hh. rewrite Hl in Hh. apply list_elem_of_fmap_1 in Hh as ([h' d] & -> & Hel).
  apply elem_of_map_to_list in Hel. eauto.
Qed.

Lemma perm_delete (b : gmap bytes bytes) h d l :
  b !! h = Some d -> h :: l ≡ₚ (map_to_list b).*1 -> l ≡ₚ (map_to_list (delete h b)).*1.
Proof.
  intros Hd Hl. apply (Permutation_cons_inv (a := h)). rewrite Hl.
  change h with ((h, d).1) at 1. rewrite <- fmap_cons. by rewrite map_to_list_delete.
Qed.

(** ** An instance in memory

    An identifier is a multihash and whether its codec is the raw one. *)

Module MemStore.

Definition not_found : error := mkError [ErrDatastoreNotFound] "datastore: key not found".

#[export] Instance deps : StoreDeps := {|
  cid := bool * bytes;
  Hash := snd;
  cid_String := fun c => String (Ascii.ascii_of_nat (if c.1 then 98 else 113)) (hex_encode c.2);
  cid_Defined := fun c => negb (bool_decide (c.2 = []));
  cid_Parse := fun s =>
    match s with
    | String k s' => match hex_DecodeString s' with Ok h => Ok (Ascii.eqb k (Ascii.ascii_of_nat 98), h) | Err e => Err e end
    | EmptyString => Err (errorf "cid too short")
    end;
  NewCidV1Raw := fun h => (true, h);
  NewBlockWithCid := fun _ _ => Ok tt;
  newKey := fun k => k;
  dstore := gmap string bytes;
  ds_Get := fun k d => match d !! k with Some v => Ok v | None => Err not_found end;
  ds_Has := fun k d => Ok (bool_decide (is_Some (d !! k)));
  ds_Put := fun k v d => (<[k := v]> d, Ok tt);
  ds_Delete := fun k d => (delete k d, Ok tt);
  ds_Query := fun p d => Ok (filterb (fun kv => has_prefix p kv.1) (map_to_list d));
  ds_Batch := fun _ => Ok tt;
  ds_Commit := fun l d => (foldl (fun m kv => partial_alter (fun _ => kv.2) kv.1 m) d l, Ok tt);
  bstore := gmap bytes bytes;
  bs_Has := fun c b => Ok (bool_decide (is_Some (b !! c.2)));
  bs_Get := fun c b => match b !! c.2 with Some v => Ok v | None => Err not_found end;
  bs_GetSize := fun c b =>
    match b !! c.2 with
    | Some data => Ok (Z.of_nat (length data))
    | None => Err (mkError [ErrNotFound] "block was not found")
    end;
  bs_Put := fun c data b => (match b !! c.2 with Some _ => b | None => <[c.2 := data]> b end, Ok tt);
  bs_DeleteBlock := fun c b => (delete c.2 b, Ok tt);
  bs_AllKeys := fun b => Ok (pair true <$> (map_to_list b).*1);
  cborMarshalRoot := fun e =>
    if (- 2 ^ 63 <=? e) && (e <? 2 ^ 63) then Ok (encodeInt64LE e) else Err (errorf "out of range");
  cborUnmarshalRoot := fun b =>
    if Nat.eqb (length b) 8 then Ok (decodeInt64LE b) else Err (errorf "unexpected length")
|}.

#[export] Instance laws : StoreLaws.
Proof.
  unshelve econstructor; [exact (fun d => d)|exact (fun b => b)|..];
    cbn [deps cid Hash cid_String cid_Defined cid_Parse NewCidV1Raw NewBlockWithCid newKey dstore ds_Get ds_Has ds_Put
      ds_Delete ds_Query ds_Batch ds_Commit bstore bs_Has bs_Get bs_GetSize bs_Put bs_DeleteBlock bs_AllKeys
      cborMarshalRoot cborUnmarshalRoot fst snd]; try done.
  - intros [[] h] _; cbn; by rewrite hex_DecodeString_encode.
  - intros [[] h] _; unfold seg_ok; cbn; by rewrite hex_encode_slash_free.
  - intros [k h] Hc Hh. cbn in *. by subst h.
  - intros k d v. destruct (d !! k); split; congruence.
  - intros k d e. destruct (d !! k); [done|]. by intros [= <-].
  - intros p d. by eexists.
  - intros c b v. destruct (b !! c.2); split; congruence.
  - intros c data b Hb. by rewrite Hb.
  - intros c data b [d Hd]. by rewrite Hd.
  - intros b. eexists. split; [done|]. rewrite <- list_fmap_compose. by rewrite list_fmap_id.
  - intros e b. destruct ((- 2 ^ 63 <=? e) && (e <? 2 ^ 63)) eqn:He; [|done]. intros [= <-].
    rewrite length_encodeInt64LE. cbn [Nat.eqb]. f_equal. apply decode_encodeInt64LE. unfold in_int64. lia.
  - intros e He. unfold in_int64 in He. eexists.
    by rewrite (proj2 (Z.leb_le _ _)), (proj2 (Z.ltb_lt _ _)) by lia.
Defined.

End MemStore.
