(* ===== verification/NetworkStore.v ===== *)
(** * The network block store (src/store/network_block_store.go)

    Blocks shared by all the rings a node belongs to, one copy each, with a counter of the
    bytes used and of the blocks held, and per ring the roots it keeps alive, the index from
    blocks to roots, and the ring's own counters and quota. Operations are state passing
    over [NBS]; a datastore error that the code ignores is ignored here. The lock shards
    serialize the operations on a block, so each is one step; [now] is
    [time.Now().UnixNano()]. *)

From stdpp Require Import base gmap list strings.
From Stdlib Require Import ZArith Lia Strings.Byte.
From S2P Require Import Prelude Hex StoreKeys StoreDeps.

Set Default Goal Selector "!".
Local Open Scope Z_scope.

Definition RingPublic : string := "public".

Record NetworkRootEntry := mkRootEntry { re_CID : string; re_ExpiresAt : Z }.

Record ringCounters := mkRC { rc_used : Z; rc_count : Z; rc_quota : Z }.

Definition errStorageFull : error := mkError [ErrStorageFull] "storage full: block store quota exceeded".

Section Store.
Context `{StoreDeps}.

Record NBS := mkNBS {
  nbs_ds : dstore;
  nbs_bs : bstore;
  nbs_maxBytes : Z;
  nbs_used : Z;
  nbs_count : Z;
  nbs_rings : gmap string ringCounters;
  nbs_known : gset string
}.

Definition set_ds (d : dstore) (s : NBS) : NBS :=
  mkNBS d s.(nbs_bs) s.(nbs_maxBytes) s.(nbs_used) s.(nbs_count) s.(nbs_rings) s.(nbs_known).
Definition set_bs (b : bstore) (s : NBS) : NBS :=
  mkNBS s.(nbs_ds) b s.(nbs_maxBytes) s.(nbs_used) s.(nbs_count) s.(nbs_rings) s.(nbs_known).
Definition set_used (u : Z) (s : NBS) : NBS :=
  mkNBS s.(nbs_ds) s.(nbs_bs) s.(nbs_maxBytes) u s.(nbs_count) s.(nbs_rings) s.(nbs_known).
Definition set_count (n : Z) (s : NBS) : NBS :=
  mkNBS s.(nbs_ds) s.(nbs_bs) s.(nbs_maxBytes) s.(nbs_used) n s.(nbs_rings) s.(nbs_known).
Definition set_rings (m : gmap string ringCounters) (s : NBS) : NBS :=
  mkNBS s.(nbs_ds) s.(nbs_bs) s.(nbs_maxBytes) s.(nbs_used) s.(nbs_count) m s.(nbs_known).
Definition set_known (k : gset string) (s : NBS) : NBS :=
  mkNBS s.(nbs_ds) s.(nbs_bs) s.(nbs_maxBytes) s.(nbs_used) s.(nbs_count) s.(nbs_rings) k.

(** ** The datastores *)

Definition dsRead {A} (f : dstore -> result A) : M NBS A := fun s => (s, f s.(nbs_ds)).
Definition dsWrite (f : dstore -> dstore * result unit) : M NBS unit := fun s =>
  let '(d, r) := f s.(nbs_ds) in (set_ds d s, r).
Definition bsRead {A} (f : bstore -> result A) : M NBS A := fun s => (s, f s.(nbs_bs)).
Definition bsWrite (f : bstore -> bstore * result unit) : M NBS unit := fun s =>
  let '(b, r) := f s.(nbs_bs) in (set_bs b s, r).

(** [_ = s.ds.Put(ctx, datastore.NewKey(k), v)] and [_ = s.ds.Delete(...)] *)
Definition dsPut_ (k : string) (v : bytes) : M NBS unit := m_ignore (dsWrite (ds_Put (newKey k) v)).
Definition dsDelete_ (k : string) : M NBS unit := m_ignore (dsWrite (ds_Delete (newKey k))).

(** The entries of a query, none if it fails. *)
Definition query_ (prefix : string) : M NBS (list (string * bytes)) :=
  res ← m_try (dsRead (ds_Query prefix));
  m_ret (match res with Ok l => l | Err _ => [] end).

(** A stored counter: eight bytes. *)
Definition read_counter (k : string) : M NBS (option Z) :=
  res ← m_try (dsRead (ds_Get (newKey k)));
  m_ret (match res with
         | Ok data => if Nat.eqb (length data) 8 then Some (decodeInt64LE data) else None
         | Err _ => None
         end).

(** ** Counters *)

(** One run of the compare-and-swap loop: nobody intervenes between the load and the swap. *)
Definition reserveAggBytes (size : Z) : M NBS bool := fun s =>
  if s.(nbs_maxBytes) <=? 0 then (set_used (wrap64 (s.(nbs_used) + size)) s, Ok true)
  else if s.(nbs_maxBytes) <? wrap64 (s.(nbs_used) + size) then (s, Ok false)
  else (set_used (wrap64 (s.(nbs_used) + size)) s, Ok true).

Definition applySignedDelta (cur delta : Z) : Z :=
  let next := wrap64 (cur + delta) in if next <? 0 then 0 else next.

Definition addAggDelta (bytesDelta blockDelta : Z) : M NBS unit := fun s =>
  let s1 := if bytesDelta =? 0 then s else set_used (applySignedDelta s.(nbs_used) bytesDelta) s in
  let s2 := if blockDelta =? 0 then s1 else set_count (applySignedDelta s1.(nbs_count) blockDelta) s1 in
  (s2, Ok tt).

(** [getRingCounters] loads a ring's counters on first use. The pointer it returns is the
    entry of the map: later changes go through [modifyRing]. *)
Definition getRingCounters (ring : string) : M NBS ringCounters :=
  s ← m_get;
  match s.(nbs_rings) !! ring with
  | Some rc => m_ret rc
  | None =>
      used ← read_counter (ring_base ring +:+ "usedbytes");
      count ← read_counter (ring_base ring +:+ "blockcount");
      quota ← read_counter (ring_base ring +:+ "quota");
      let rc := mkRC (default 0 used) (default 0 count) (default 0 quota) in
      _ ← m_modify (fun s => set_rings (<[ring := rc]> s.(nbs_rings)) s);
      m_ret rc
  end.

Definition modifyRing (ring : string) (f : ringCounters -> ringCounters) : M NBS unit :=
  m_modify (fun s => set_rings (alter f ring s.(nbs_rings)) s).

(** [rc.reserveBytes], again without interference. *)
Definition rc_reserve (size : Z) (rc : ringCounters) : option ringCounters :=
  let rc' := mkRC (wrap64 (rc.(rc_used) + size)) rc.(rc_count) rc.(rc_quota) in
  if 0 <? rc.(rc_quota) then
    if rc.(rc_quota) <? wrap64 (rc.(rc_used) + size) then None else Some rc'
  else Some rc'.

Definition reserveBytes (ring : string) (size : Z) : M NBS bool :=
  rc ← getRingCounters ring;
  match rc_reserve size rc with
  | None => m_ret false
  | Some rc' => _ ← modifyRing ring (fun _ => rc'); m_ret true
  end.

Definition usage_delta (bytesDelta blockDelta : Z) (rc : ringCounters) : ringCounters :=
  mkRC (if bytesDelta =? 0 then rc.(rc_used) else applySignedDelta rc.(rc_used) bytesDelta)
       (if blockDelta =? 0 then rc.(rc_count) else applySignedDelta rc.(rc_count) blockDelta)
       rc.(rc_quota).

Definition addUsageDelta (ring : string) (bytesDelta blockDelta : Z) : M NBS unit :=
  modifyRing ring (usage_delta bytesDelta blockDelta).

Definition writeAggCounters (bytes count : Z) : M NBS unit :=
  let b := encodeInt64LE (if bytes <? 0 then 0 else bytes) in
  let c := encodeInt64LE (if count <? 0 then 0 else count) in
  res ← m_try (dsRead ds_Batch);
  match res with
  | Err _ => _ ← dsPut_ nbKeyUsedBytes b; dsPut_ nbKeyBlockCount c
  | Ok _ => m_ignore (dsWrite (ds_Commit [(newKey nbKeyUsedBytes, Some b); (newKey nbKeyBlockCount, Some c)]))
  end.

Definition flushAggCounters : M NBS unit := s ← m_get; writeAggCounters s.(nbs_used) s.(nbs_count).

Definition flushRingCounters : M NBS unit :=
  s ← m_get;
  m_forM (map_to_list s.(nbs_rings)) (fun kv =>
    let '(ring, rc) := kv in
    _ ← dsPut_ (ring_base ring +:+ "usedbytes") (encodeInt64LE rc.(rc_used));
    _ ← dsPut_ (ring_base ring +:+ "blockcount") (encodeInt64LE rc.(rc_count));
    dsPut_ (ring_base ring +:+ "quota") (encodeInt64LE rc.(rc_quota))).

(** [Close], before the datastores are closed. *)
Definition Close : M NBS unit := _ ← flushAggCounters; flushRingCounters.

Definition blockSize (key : cid) : M NBS (result Z) := m_try (bsRead (bs_GetSize key)).

(** The scan of [loadCounters] when there are no stored counters. *)
Fixpoint sum_sizes (keys : list cid) (bytes count : Z) : M NBS (Z * Z) :=
  match keys with
  | [] => m_ret (bytes, count)
  | key :: keys' =>
      sz ← blockSize key;
      match sz with
      | Err _ => sum_sizes keys' bytes count
      | Ok n => sum_sizes keys' (wrap64 (bytes + n)) (wrap64 (count + 1))
      end
  end.

Definition loadCounters : M NBS unit :=
  bytes ← read_counter nbKeyUsedBytes;
  count ← read_counter nbKeyBlockCount;
  match bytes, count with
  | Some b, Some c => m_modify (fun s => set_count c (set_used b s))
  | _, _ =>
      keys ← bsRead bs_AllKeys;
      totals ← sum_sizes keys 0 0;
      let '(b, c) := totals in
      _ ← m_modify (fun s => set_count c (set_used b s));
      writeAggCounters b c
  end.

(** ** Rings *)

Definition markRingKnown (ring : string) : M NBS unit :=
  s ← m_get;
  if decide (ring ∈ s.(nbs_known)) then m_ret tt
  else
    _ ← m_modify (fun s => set_known ({[ring]} ∪ s.(nbs_known)) s);
    dsPut_ (nbPrefixRings +:+ ring) [].

Definition MarkRingKnown (ring : string) : M NBS unit :=
  if decide (ring = "") then m_ret tt else markRingKnown ring.

Definition RingsKnown : M NBS (list string) :=
  l ← query_ nbPrefixRings;
  m_ret ((fun kv => str_drop (String.length nbPrefixRings) kv.1) <$> l).

Definition ForgetRing (ring : string) : M NBS unit :=
  l ← query_ (ring_base ring);
  _ ← m_forM l (fun kv => dsDelete_ kv.1);
  _ ← dsDelete_ (nbPrefixRings +:+ ring);
  m_modify (fun s => set_known (s.(nbs_known) ∖ {[ring]}) s).

(** [OpenNetworkBlockStore], after the two datastores are open. *)
Definition OpenNetworkBlockStore (d : dstore) (b : bstore) (storageMax : Z) : result NBS :=
  let '(s, r) :=
    (_ ← loadCounters;
     rings ← RingsKnown;
     m_modify (fun s => set_known (list_to_set rings ∪ s.(nbs_known)) s))
    (mkNBS d b storageMax 0 0 ∅ ∅) in
  match r with Ok _ => Ok s | Err e => Err e end.

(** ** Blocks *)

Definition Put (key : cid) (data : bytes) : M NBS unit :=
  has ← bsRead (bs_Has key);
  if (has : bool) then m_ret tt
  else
    let size := Z.of_nat (length data) in
    ok ← reserveAggBytes size;
    if (ok : bool) then
      match NewBlockWithCid data key with
      | Err e => _ ← addAggDelta (- size) 0; m_err e
      | Ok _ =>
          res ← m_try (bsWrite (bs_Put key data));
          match res with
          | Err e => _ ← addAggDelta (- size) 0; m_err e
          | Ok _ => m_modify (fun s => set_count (wrap64 (s.(nbs_count) + 1)) s)
          end
      end
    else m_err errStorageFull.

Definition Get (key : cid) : M NBS bytes := bsRead (bs_Get key).
Definition Has (key : cid) : M NBS bool := bsRead (bs_Has key).

Definition ListBlockCIDs : M NBS (list string) :=
  keys ← bsRead bs_AllKeys;
  m_ret (cid_String <$> keys).

Definition StorageStatus : M NBS (option (Z * Z * Z)) :=
  s ← m_get;
  m_ret (if s.(nbs_maxBytes) =? 0 then None else Some (s.(nbs_used), s.(nbs_maxBytes), s.(nbs_count))).

Definition Delete (key : cid) : M NBS unit :=
  sz ← blockSize key;
  match sz with
  | Ok size =>
      res ← m_try (bsWrite (bs_DeleteBlock key));
      match res with
      | Err e => m_err e
      | Ok _ => addAggDelta (- size) (-1)
      end
  | Err _ => bsWrite (bs_DeleteBlock key)
  end.

(** ** Roots of a ring *)

Definition rootKey (ring c : string) : string := prefixRoots ring +:+ c.
Definition blockRootKey (ring mh c : string) : string := prefixOfBlock ring mh +:+ c.
Definition cidUsageKey (ring c : string) : string := prefixCIDUsage ring +:+ c.

Definition AddRootWithExpiry (ring c : string) (expiresAt : Z) : M NBS unit :=
  match cborMarshalRoot expiresAt with
  | Err _ => m_ret tt
  | Ok data =>
      res ← m_try (dsWrite (ds_Put (newKey (rootKey ring c)) data));
      match res with
      | Err _ => m_ret tt
      | Ok _ => markRingKnown ring
      end
  end.

Definition AddAllRootEntries (ring : string) (entries : list NetworkRootEntry) : M NBS unit :=
  m_forM entries (fun e => AddRootWithExpiry ring e.(re_CID) e.(re_ExpiresAt)).

Definition AddRootStr (ring c : string) : M NBS unit := AddRootWithExpiry ring c 0.
Definition AddRoot (ring : string) (c : cid) : M NBS unit := AddRootWithExpiry ring (cid_String c) 0.
Definition AddRootWithTTL (now : Z) (ring : string) (c : cid) (ttl : Z) : M NBS unit :=
  AddRootWithExpiry ring (cid_String c) (if 0 <? ttl then wrap64 (now + ttl) else 0).
Definition AddAllRoots (ring : string) (cids : list string) : M NBS unit :=
  m_forM cids (fun c => AddRootWithExpiry ring c 0).

(** A root record that has not expired. *)
Definition unexpired (now : Z) (data : bytes) : bool :=
  match cborUnmarshalRoot data with
  | Err _ => false
  | Ok e => negb ((0 <? e) && (e <? now))
  end.

Definition HasRootStr (now : Z) (ring c : string) : M NBS bool :=
  res ← m_try (dsRead (ds_Get (newKey (rootKey ring c))));
  m_ret (match res with Err _ => false | Ok data => unexpired now data end).

Definition HasRoot (now : Z) (ring : string) (c : cid) : M NBS bool := HasRootStr now ring (cid_String c).

Definition ListRoots (now : Z) (ring : string) : M NBS (list string) :=
  l ← query_ (prefixRoots ring);
  m_ret ((fun kv => str_drop (String.length (prefixRoots ring)) kv.1)
           <$> filterb (fun kv => unexpired now kv.2) l).

Definition ListRootEntries (now : Z) (ring : string) : M NBS (list NetworkRootEntry) :=
  l ← query_ (prefixRoots ring);
  m_ret (omap (fun kv =>
    match cborUnmarshalRoot kv.2 with
    | Err _ => None
    | Ok e => if (0 <? e) && (e <? now) then None
              else Some (mkRootEntry (str_drop (String.length (prefixRoots ring)) kv.1) e)
    end) l).

Definition RootCount (now : Z) (ring : string) : M NBS Z :=
  l ← ListRoots now ring; m_ret (Z.of_nat (length l)).

(** ** The index from blocks to roots *)

Definition ringHasBlock (ring mh : string) : M NBS bool :=
  l ← query_ (prefixOfBlock ring mh);
  m_ret (match l with [] => false | _ => true end).

Definition HasBlock (ring : string) (key : cid) : M NBS bool := ringHasBlock ring (HashHex key).

Definition RootsForBlock (ring : string) (key : cid) : M NBS (list string) :=
  let prefix := prefixOfBlock ring (HashHex key) in
  l ← query_ prefix;
  m_ret ((fun kv => str_drop (String.length prefix) kv.1) <$> l).

Fixpoint root_entries (ring : string) (cids : list string) : M NBS (list NetworkRootEntry) :=
  match cids with
  | [] => m_ret []
  | c :: cids' =>
      res ← m_try (dsRead (ds_Get (newKey (rootKey ring c))));
      rest ← root_entries ring cids';
      m_ret (match res with
             | Err _ => rest
             | Ok data =>
                 match cborUnmarshalRoot data with
                 | Err _ => rest
                 | Ok e => mkRootEntry c e :: rest
                 end
             end)
  end.

Definition RootsForBlockEntries (ring : string) (key : cid) : M NBS (list NetworkRootEntry) :=
  cids ← RootsForBlock ring key;
  root_entries ring cids.

Definition live_entry (now : Z) (e : NetworkRootEntry) : bool :=
  (e.(re_ExpiresAt) =? 0) || (now <=? e.(re_ExpiresAt)).

Definition BlockHasLiveRoot (now : Z) (ring : string) (key : cid) : M NBS bool :=
  entries ← RootsForBlockEntries ring key;
  m_ret (existsb (live_entry now) entries).

Definition lookupBlockCID (mh : string) : M NBS (option cid) :=
  match decodeHex mh with
  | Err _ => m_ret None
  | Ok mhBytes =>
      let c := NewCidV1Raw mhBytes in
      has ← m_try (bsRead (bs_Has c));
      match has with
      | Ok true => m_ret (Some c)
      | _ =>
          res ← m_try (bsRead bs_AllKeys);
          m_ret (match res with
                 | Err _ => None
                 | Ok keys => List.find (fun k => bool_decide (HashHex k = mh)) keys
                 end)
      end
  end.

Definition addCIDUsage (ring root : string) (delta : Z) : M NBS unit :=
  if delta =? 0 then m_ret tt
  else
    cur ← read_counter (cidUsageKey ring root);
    let next := wrap64 (default 0 cur + delta) in
    dsPut_ (cidUsageKey ring root) (encodeInt64LE (if next <? 0 then 0 else next)).

(** The body of the loop of [removeBlockRootEntries], for a key with the suffix. *)
Definition unindex (ring : string) (suffix : string) (kv : string * bytes) : M NBS unit :=
  let k := kv.1 in
  let n := String.length k in
  let m := String.length suffix in
  if (n <=? m)%nat || negb (bool_decide (str_drop (n - m) k = suffix)) then m_ret tt
  else
    let p := String.length (prefixBlockRoots ring) in
    let mh := String.substring p (n - m - p) k in
    _ ← dsDelete_ k;
    has ← ringHasBlock ring mh;
    if (has : bool) then m_ret tt
    else
      c ← lookupBlockCID mh;
      match c with
      | None => m_ret tt
      | Some c =>
          sz ← blockSize c;
          match sz with
          | Ok size => addUsageDelta ring (- size) (-1)
          | Err _ => m_ret tt
          end
      end.

Definition removeBlockRootEntries (ring root : string) : M NBS unit :=
  l ← query_ (prefixBlockRoots ring);
  _ ← getRingCounters ring;
  m_forM l (unindex ring (String slash root)).

Definition RemoveRootStr (ring c : string) : M NBS unit :=
  _ ← dsDelete_ (rootKey ring c);
  _ ← dsDelete_ (cidUsageKey ring c);
  removeBlockRootEntries ring c.

Definition RemoveRoot (ring : string) (c : cid) : M NBS unit := RemoveRootStr ring (cid_String c).

(** [now] is the time of the run: the source reads the clock anew for each ring; the runs here are
    those during which no root expires. *)
Definition PruneExpiredRoots (now : Z) (ring : string) : M NBS Z :=
  l ← query_ (prefixRoots ring);
  let expired := filterb (fun kv =>
    match cborUnmarshalRoot kv.2 with Err _ => false | Ok e => (0 <? e) && (e <? now) end) l in
  _ ← m_forM expired (fun kv => RemoveRootStr ring (str_drop (String.length (prefixRoots ring)) kv.1));
  m_ret (Z.of_nat (length expired)).

(** ** Writing blocks into a ring *)

(** The rollback of the reservations of a put that fails. *)
Definition unreserve (ring : string) (size : Z) (agg ringed : bool) : M NBS unit :=
  _ ← (if agg then addAggDelta (- size) 0 else m_ret tt);
  (if ringed then addUsageDelta ring (- size) 0 else m_ret tt).

(** The first half of [PutWithRoot]: [Some (agg, ringed)] says what was reserved. *)
Definition reserve_for (ring : string) (key : cid) (size : Z) (hasBlock rooted : bool)
    : M NBS (option (bool * bool)) :=
  agg ← (if hasBlock then m_ret (Some false)
         else ok ← reserveAggBytes size; m_ret (if (ok : bool) then Some true else None));
  match agg with
  | None => m_ret None
  | Some aggReserved =>
      _ ← getRingCounters ring;
      if (rooted : bool) then
        has ← ringHasBlock ring (HashHex key);
        if (has : bool) then m_ret (Some (aggReserved, false))
        else
          ok ← reserveBytes ring size;
          if (ok : bool) then m_ret (Some (aggReserved, true))
          else
            _ ← (if (aggReserved : bool) then addAggDelta (- size) 0 else m_ret tt);
            m_ret None
      else m_ret (Some (aggReserved, false))
  end.

(** The second half, for a defined root: the index entry, the usage of the root and the root. *)
Definition index_block (now : Z) (ring : string) (key : cid) (root : string) (size expiresAt : Z)
    (addingToRing : bool) : M NBS unit :=
  _ ← (if addingToRing then modifyRing ring (fun rc => mkRC rc.(rc_used) (wrap64 (rc.(rc_count) + 1)) rc.(rc_quota))
       else m_ret tt);
  let brKey := blockRootKey ring (HashHex key) root in
  res ← m_try (dsRead (ds_Has (newKey brKey)));
  _ ← (if match res with Ok true => true | _ => false end then m_ret tt else addCIDUsage ring root size);
  _ ← dsPut_ brKey [];
  hasRoot ← HasRootStr now ring root;
  _ ← (if (hasRoot : bool) then m_ret tt else AddRootWithExpiry ring root expiresAt);
  markRingKnown ring.

(** [PutWithRoot]; [root] is [None] for an undefined root CID. *)
Definition PutWithRoot (now : Z) (ring : string) (key : cid) (data : bytes) (root : option string) (expiresAt : Z)
    : M NBS unit :=
  hasBlock ← bsRead (bs_Has key);
  let size := Z.of_nat (length data) in
  reserved ← reserve_for ring key size hasBlock (bool_decide (is_Some root));
  match reserved with
  | None => m_err errStorageFull
  | Some (agg, ringed) =>
      _ ← (if (hasBlock : bool) then m_ret tt
           else
             match NewBlockWithCid data key with
             | Err e => _ ← unreserve ring size agg ringed; m_err e
             | Ok _ =>
                 res ← m_try (bsWrite (bs_Put key data));
                 match res with
                 | Err e => _ ← unreserve ring size agg ringed; m_err e
                 | Ok _ => m_modify (fun s => set_count (wrap64 (s.(nbs_count) + 1)) s)
                 end
             end);
      match root with
      | None => m_ret tt
      | Some r => index_block now ring key r size expiresAt ringed
      end
  end.

Definition AddBlockRootIndex (ring : string) (key : cid) (root : string) : M NBS unit :=
  let mh := HashHex key in
  let brKey := blockRootKey ring mh root in
  res ← m_try (dsRead (ds_Has (newKey brKey)));
  match res with
  | Ok true => m_ret tt
  | _ =>
      sz ← blockSize key;
      _ ← match sz with
          | Ok size =>
              if 0 <? size then
                has ← ringHasBlock ring mh;
                _ ← (if (has : bool) then m_ret tt
                     else _ ← getRingCounters ring; addUsageDelta ring size 1);
                addCIDUsage ring root size
              else m_ret tt
          | Err _ => m_ret tt
          end;
      _ ← dsPut_ brKey [];
      markRingKnown ring
  end.

Definition DropBlock (ring : string) (key : cid) : M NBS bool :=
  let prefix := prefixOfBlock ring (HashHex key) in
  l ← query_ prefix;
  _ ← m_forM l (fun kv =>
        _ ← dsDelete_ kv.1;
        sz ← blockSize key;
        match sz with
        | Ok size => if 0 <? size then addCIDUsage ring (str_drop (String.length prefix) kv.1) (- size) else m_ret tt
        | Err _ => m_ret tt
        end);
  match l with
  | [] => m_ret false
  | _ =>
      sz ← blockSize key;
      _ ← match sz with
          | Ok size =>
              if 0 <? size then _ ← getRingCounters ring; addUsageDelta ring (- size) (-1) else m_ret tt
          | Err _ => m_ret tt
          end;
      m_ret true
  end.

(** The loop of [Blocks] keeps the first CID it resolves for each multihash. *)
Fixpoint collect_blocks (prefix : string) (l : list (string * bytes)) (seen : gmap string cid)
    : M NBS (gmap string cid) :=
  match l with
  | [] => m_ret seen
  | kv :: l' =>
      match before_slash (str_drop (String.length prefix) kv.1) with
      | None => collect_blocks prefix l' seen
      | Some mh =>
          if decide (is_Some (seen !! mh)) then collect_blocks prefix l' seen
          else
            c ← lookupBlockCID mh;
            collect_blocks prefix l' (match c with Some c => <[mh := c]> seen | None => seen end)
      end
  end.

Definition Blocks (ring : string) : M NBS (list cid) :=
  l ← dsRead (ds_Query (prefixBlockRoots ring));
  seen ← collect_blocks (prefixBlockRoots ring) l ∅;
  m_ret (map_to_list seen).*2.

(** ** Usage and quota of a ring *)

Definition UsedBytes (ring : string) : M NBS Z := rc ← getRingCounters ring; m_ret rc.(rc_used).
Definition BlockCount (ring : string) : M NBS Z := rc ← getRingCounters ring; m_ret rc.(rc_count).
Definition Quota (ring : string) : M NBS Z := rc ← getRingCounters ring; m_ret rc.(rc_quota).

Definition SetQuota (ring : string) (max : Z) : M NBS unit :=
  if max <? 0 then m_err (errorf "quota must be non-negative")
  else
    rc ← getRingCounters ring;
    if (0 <? max) && (max <? rc.(rc_used)) then m_err (errorf "quota below current ring usage")
    else
      _ ← modifyRing ring (fun rc => mkRC rc.(rc_used) rc.(rc_count) max);
      _ ← dsWrite (ds_Put (newKey (ring_base ring +:+ "quota")) (encodeInt64LE max));
      markRingKnown ring.

Definition CIDUsage (ring : string) : M NBS (gmap string Z) :=
  l ← query_ (prefixCIDUsage ring);
  m_ret (foldl (fun out kv =>
    if Nat.eqb (length kv.2) 8 && (0 <? decodeInt64LE kv.2)
    then <[str_drop (String.length (prefixCIDUsage ring)) kv.1 := decodeInt64LE kv.2]> out
    else out) ∅ l).

(** ** All rings *)

Fixpoint any_ring (now : Z) (rings : list string) (key : cid) : M NBS bool :=
  match rings with
  | [] => m_ret false
  | ring :: rings' =>
      b ← BlockHasLiveRoot now ring key;
      if (b : bool) then m_ret true else any_ring now rings' key
  end.

Definition BlockHasLiveRootAnyRing (now : Z) (key : cid) : M NBS bool :=
  rings ← RingsKnown;
  any_ring now rings key.

Fixpoint prune_rings (now : Z) (rings : list string) : M NBS Z :=
  match rings with
  | [] => m_ret 0
  | ring :: rings' =>
      n ← PruneExpiredRoots now ring;
      m ← prune_rings now rings';
      m_ret (n + m)
  end.

Definition PruneAllExpiredRoots (now : Z) : M NBS Z :=
  rings ← RingsKnown;
  prune_rings now rings.

(** The maps of [CIDUsage] and [ListRootEntries] over all rings, ring by ring. *)
Fixpoint all_usage (rings : list string) (out : gmap string Z) : M NBS (gmap string Z) :=
  match rings with
  | [] => m_ret out
  | ring :: rings' =>
      usage ← CIDUsage ring;
      all_usage rings' (map_fold (fun c b acc => <[c := wrap64 (default 0 (acc !! c) + b)]> acc) out usage)
  end.

Definition AllCIDUsage : M NBS (gmap string Z) :=
  rings ← RingsKnown;
  all_usage rings ∅.

Definition latest_entry (seen : gmap string Z) (e : NetworkRootEntry) : gmap string Z :=
  match seen !! e.(re_CID) with
  | Some cur => if cur <? e.(re_ExpiresAt) then <[e.(re_CID) := e.(re_ExpiresAt)]> seen else seen
  | None => <[e.(re_CID) := e.(re_ExpiresAt)]> seen
  end.

Fixpoint all_entries (now : Z) (rings : list string) (seen : gmap string Z) : M NBS (gmap string Z) :=
  match rings with
  | [] => m_ret seen
  | ring :: rings' =>
      l ← ListRootEntries now ring;
      all_entries now rings' (foldl latest_entry seen l)
  end.

(** The entries, as a map from CID to expiry. *)
Definition AllRootEntries (now : Z) : M NBS (gmap string Z) :=
  rings ← RingsKnown;
  all_entries now rings ∅.

(** ** Garbage collection *)

Fixpoint live_roots (now : Z) (rings : list string) : M NBS (gset string) :=
  match rings with
  | [] => m_ret ∅
  | ring :: rings' =>
      l ← ListRoots now ring;
      rest ← live_roots now rings';
      m_ret (list_to_set l ∪ rest)
  end.

Fixpoint blockHasLiveRootInSet (rings : list string) (key : cid) (live : gset string) : M NBS bool :=
  match rings with
  | [] => m_ret false
  | ring :: rings' =>
      let prefix := prefixOfBlock ring (HashHex key) in
      l ← query_ prefix;
      if existsb (fun kv => bool_decide (str_drop (String.length prefix) kv.1 ∈ live)) l
      then m_ret true
      else blockHasLiveRootInSet rings' key live
  end.

Definition cleanupRingBlockIndex (ring mh : string) (size : Z) : M NBS unit :=
  let prefix := prefixOfBlock ring mh in
  l ← query_ prefix;
  _ ← m_forM l (fun kv =>
        _ ← dsDelete_ kv.1;
        addCIDUsage ring (str_drop (String.length prefix) kv.1) (- size));
  match l with
  | [] => m_ret tt
  | _ => _ ← getRingCounters ring; addUsageDelta ring (- size) (-1)
  end.

Record GCResult := mkGCResult { gc_removed : Z; gc_kept : Z }.

(** The loop over the blocks: the counts, and the bytes and blocks freed. *)
Fixpoint gc_loop (rings : list string) (live : gset string) (keys : list cid)
    (removed kept bytes blocks : Z) : M NBS (GCResult * (Z * Z)) :=
  match keys with
  | [] => m_ret (mkGCResult removed kept, (bytes, blocks))
  | c :: keys' =>
      hit ← blockHasLiveRootInSet rings c live;
      if (hit : bool) then gc_loop rings live keys' removed (kept + 1) bytes blocks
      else
        sz ← blockSize c;
        let size := match sz with Ok n => n | Err _ => 0 end in
        _ ← m_forM rings (fun ring => cleanupRingBlockIndex ring (HashHex c) size);
        res ← m_try (bsWrite (bs_DeleteBlock c));
        match res with
        | Err e => m_err (errorf_w ("delete block " +:+ cid_String c +:+ ": ") e "")
        | Ok _ => gc_loop rings live keys' (removed + 1) kept (wrap64 (bytes + size)) (wrap64 (blocks + 1))
        end
  end.

(** [ListRoots] over all rings, as a set; [RootCount] is its size. *)
Definition AllRoots (now : Z) : M NBS (gset string) :=
  rings ← RingsKnown;
  live_roots now rings.

Definition AllRootCount (now : Z) : M NBS Z := s ← AllRoots now; m_ret (Z.of_nat (size s)).

(** As for [PruneExpiredRoots], one reading [now] of the clock stands for those of the run. *)
Definition GC (now : Z) : M NBS GCResult :=
  _ ← PruneAllExpiredRoots now;
  rings ← RingsKnown;
  live ← live_roots now rings;
  res ← m_try (bsRead bs_AllKeys);
  match res with
  | Err e => m_err (errorf_w "enumerate blocks: " e "")
  | Ok keys =>
      out ← gc_loop rings live keys 0 0 0 0;
      let '(result, (bytes, blocks)) := out in
      _ ← (if 0 <? blocks then addAggDelta (- bytes) (- blocks) else m_ret tt);
      m_ret result
  end.

End Store.

(** The operations of the store itself on roots are those of the public ring. *)
Section Public.
Context `{StoreDeps}.

Definition public_AddRoot (c : cid) : M NBS unit := AddRoot RingPublic c.
Definition public_AddRootStr (c : string) : M NBS unit := AddRootStr RingPublic c.
Definition public_AddRootWithExpiry (c : string) (exp : Z) : M NBS unit := AddRootWithExpiry RingPublic c exp.
Definition public_AddRootWithTTL (now : Z) (c : cid) (ttl : Z) : M NBS unit :=
  AddRootWithTTL now RingPublic c ttl.
Definition public_RemoveRoot (c : cid) : M NBS unit := RemoveRoot RingPublic c.
Definition public_RemoveRootStr (c : string) : M NBS unit := RemoveRootStr RingPublic c.
Definition public_HasRoot (now : Z) (c : cid) : M NBS bool := HasRoot now RingPublic c.
Definition public_HasRootStr (now : Z) (c : string) : M NBS bool := HasRootStr now RingPublic c.
Definition public_AddAllRoots (cids : list string) : M NBS unit := AddAllRoots RingPublic cids.
Definition public_AddAllRootEntries (entries : list NetworkRootEntry) : M NBS unit :=
  AddAllRootEntries RingPublic entries.
Definition public_RootsForBlock (key : cid) : M NBS (list string) := RootsForBlock RingPublic key.
Definition public_RootsForBlockEntries (key : cid) : M NBS (list NetworkRootEntry) :=
  RootsForBlockEntries RingPublic key.
Definition public_AddBlockRootIndex (key : cid) (root : string) : M NBS unit :=
  AddBlockRootIndex RingPublic key root.
Definition public_PutWithRoot (now : Z) (key : cid) (data : bytes) (root : option string) (exp : Z) : M NBS unit :=
  PutWithRoot now RingPublic key data root exp.
Definition public_BlockHasLiveRoot (now : Z) (key : cid) : M NBS bool := BlockHasLiveRootAnyRing now key.

End Public.
