(* ===== verification/BlockStore.v ===== *)
(** * Block stores and their layers (src/store/blockstore.go, quota.go)

    The interface [BlockStore] of the source is a class here. [BlockStoreLaws] is what its
    users rely on: a store behaves like a map from multihashes to data, failed operations
    leave the map as it was. [localBlockStore] and [quotaBlockStore] implement it, the
    second over any other implementation. [StoreLimit] adds when a store may refuse: it has a
    limit on the sum of the sizes and refuses exactly the new blocks that would exceed it; such a
    store refines a map under that limit ([run_bops_refines]). *)

From stdpp Require Import base gmap list strings.
From Stdlib Require Import ZArith Lia Strings.Byte.
From S2P Require Import Prelude Hoare Hex StoreKeys StoreDeps.

Set Default Goal Selector "!".
Local Open Scope Z_scope.

(** ** The interface *)

Class BlockStore `{StoreDeps} (S : Type) := {
  st_Put : cid -> bytes -> M S unit;
  st_Get : cid -> M S bytes;
  st_Delete : cid -> M S unit;
  st_Has : cid -> M S bool;
  st_AllKeys : M S (list cid)
}.

(** Content addressing: the data a multihash stands for. *)
Class Addressing := {
  addressed : bytes -> bytes -> Prop;
  addressed_fun h d d' : addressed h d -> addressed h d' -> d = d'
}.

(** A block that is present is not replaced. *)
Definition insert_new (h d : bytes) (m : gmap bytes bytes) : gmap bytes bytes :=
  match m !! h with Some _ => m | None => <[h := d]> m end.

(** The disk has room: the sum of the sizes is a machine integer. *)
Definition has_room (d : bytes) (m : gmap bytes bytes) : Prop := total m + Z.of_nat (length d) < 2 ^ 63.

Class BlockStoreLaws `{StoreDeps} `{Addressing} (S : Type) `{!BlockStore S} := {
  st_ok : S -> Prop;
  contents : S -> gmap bytes bytes;
  st_Put_law c d m :
    addressed (Hash c) d -> has_room d m ->
    triple (fun s => st_ok s /\ contents s = m) (st_Put c d)
      (fun _ s => st_ok s /\ contents s = insert_new (Hash c) d m) (fun s => st_ok s /\ contents s = m);
  st_Get_law c m :
    triple (fun s => st_ok s /\ contents s = m) (st_Get c)
      (fun d s => (st_ok s /\ contents s = m) /\ m !! Hash c = Some d)
      (fun s => (st_ok s /\ contents s = m) /\ m !! Hash c = None);
  st_Delete_law c m :
    triple (fun s => st_ok s /\ contents s = m) (st_Delete c)
      (fun _ s => st_ok s /\ contents s = delete (Hash c) m) (fun s => st_ok s /\ contents s = m);
  st_Has_law c m :
    succeeds (fun s => st_ok s /\ contents s = m) (st_Has c)
      (fun b s => (st_ok s /\ contents s = m) /\ b = bool_decide (is_Some (m !! Hash c)));
  st_AllKeys_law m :
    succeeds (fun s => st_ok s /\ contents s = m) st_AllKeys
      (fun l s => (st_ok s /\ contents s = m) /\ Hash <$> l ≡ₚ (map_to_list m).*1)
}.

(** ** Refinement of the map *)

Section Refinement.
Context `{HD : StoreDeps} `{HA : Addressing}.

Inductive bop :=
  | BPut (c : cid) (d : bytes)
  | BGet (c : cid)
  | BDelete (c : cid)
  | BHas (c : cid)
  | BKeys.

Inductive outcome :=
  | ODone
  | OData (d : bytes)
  | OBool (b : bool)
  | OKeys (hs : list bytes)
  | OFail.

(** A new block would exceed the limit; there is no limit when it is not positive. *)
Definition full (limit : Z) (d : bytes) (m : gmap bytes bytes) : Prop := 0 < limit < total m + Z.of_nat (length d).

(** The answers of a map under a limit. A put fails, without effect, exactly when the block is
    absent and would exceed the limit; a get fails exactly when the block is absent; a deletion does
    not fail. Only the order of the keys is left open. *)
Inductive map_step (limit : Z) : gmap bytes bytes -> bop -> outcome -> gmap bytes bytes -> Prop :=
  | MPut m c d : is_Some (m !! Hash c) \/ ~ full limit d m -> map_step limit m (BPut c d) ODone (insert_new (Hash c) d m)
  | MPutFull m c d : m !! Hash c = None -> full limit d m -> map_step limit m (BPut c d) OFail m
  | MGet m c d : m !! Hash c = Some d -> map_step limit m (BGet c) (OData d) m
  | MGetFail m c : m !! Hash c = None -> map_step limit m (BGet c) OFail m
  | MDelete m c : map_step limit m (BDelete c) ODone (delete (Hash c) m)
  | MHas m c : map_step limit m (BHas c) (OBool (bool_decide (is_Some (m !! Hash c)))) m
  | MKeys m hs : hs ≡ₚ (map_to_list m).*1 -> map_step limit m BKeys (OKeys hs) m.

Inductive map_trace (limit : Z) : gmap bytes bytes -> list (bop * outcome) -> gmap bytes bytes -> Prop :=
  | MTnil m : map_trace limit m [] m
  | MTcons m o r m' t m'' : map_step limit m o r m' -> map_trace limit m' t m'' -> map_trace limit m ((o, r) :: t) m''.

Context {S : Type} `{!BlockStore S} `{!BlockStoreLaws S}.

Definition outcome_of {A} (f : A -> outcome) (r : result A) : outcome :=
  match r with Ok a => f a | Err _ => OFail end.

Definition run_bop (o : bop) (s : S) : S * outcome :=
  match o with
  | BPut c d => let '(s', r) := st_Put c d s in (s', outcome_of (fun _ => ODone) r)
  | BGet c => let '(s', r) := st_Get c s in (s', outcome_of OData r)
  | BDelete c => let '(s', r) := st_Delete c s in (s', outcome_of (fun _ => ODone) r)
  | BHas c => let '(s', r) := st_Has c s in (s', outcome_of OBool r)
  | BKeys => let '(s', r) := st_AllKeys s in (s', outcome_of (fun l => OKeys (Hash <$> l)) r)
  end.

Fixpoint run_bops (os : list bop) (s : S) : S * list (bop * outcome) :=
  match os with
  | [] => (s, [])
  | o :: os' =>
      let '(s1, r) := run_bop o s in
      let '(s2, t) := run_bops os' s1 in
      (s2, (o, r) :: t)
  end.

(** The data put is what its identifier stands for, and it fits on the disk. *)
Definition bop_ok (o : bop) (s : S) : Prop :=
  match o with BPut c d => addressed (Hash c) d /\ has_room d (contents s) | _ => True end.

Fixpoint bops_ok (os : list bop) (s : S) : Prop :=
  match os with
  | [] => True
  | o :: os' => bop_ok o s /\ bops_ok os' (run_bop o s).1
  end.

(** A store with a limit that no operation changes. *)
Class StoreLimit := {
  st_limit : S -> Z;
  st_limit_kept o s : st_limit (run_bop o s).1 = st_limit s;
  st_Put_exact c d s : st_ok s -> addressed (Hash c) d -> has_room d (contents s) ->
    match (st_Put c d s).2 with
    | Ok _ => is_Some (contents s !! Hash c) \/ ~ full (st_limit s) d (contents s)
    | Err _ => contents s !! Hash c = None /\ full (st_limit s) d (contents s)
    end;
  st_Delete_exact c s : st_ok s -> (st_Delete c s).2 = Ok tt
}.

(** A store without one. *)
Class Unlimited := {
  free_Put c d s : st_ok s -> (st_Put c d s).2 = Ok tt;
  free_Delete c s : st_ok s -> (st_Delete c s).2 = Ok tt
}.

Lemma run_bop_refines `{HLim : !StoreLimit} o s :
  st_ok s -> bop_ok o s ->
  let '(s', r) := run_bop o s in st_ok s' /\ map_step (st_limit s) (contents s) o r (contents s').
Proof.
  intros Hs Ho. set (m := contents s). assert (st_ok s /\ contents s = m) as Hm by done.
  destruct o as [c d|c|c|c|]; cbn [run_bop].
  - destruct Ho as [Ha Hr]. pose proof (st_Put_law c d m Ha Hr s Hm) as H. pose proof (st_Put_exact c d s Hs Ha Hr) as He.
    destruct (st_Put c d s) as [s' [[]|e]]; destruct H as [? ->]; (split; [done|]); [by constructor|].
    destruct He. by constructor.
  - pose proof (st_Get_law c m s Hm) as H.
    destruct (st_Get c s) as [s' [d|e]]; destruct H as [[? ->] ?]; (split; [done|by constructor]).
  - pose proof (st_Delete_law c m s Hm) as H. pose proof (st_Delete_exact c s Hs) as He.
    destruct (st_Delete c s) as [s' [[]|e]]; [|done]. destruct H as [? ->]. (split; [done|by constructor]).
  - pose proof (st_Has_law c m s Hm) as H.
    destruct (st_Has c s) as [s' [b|e]]; [|done]. destruct H as [[? ->] ->]. (split; [done|by constructor]).
  - pose proof (st_AllKeys_law m s Hm) as H.
    destruct (st_AllKeys s) as [s' [l|e]]; [|done]. destruct H as [[? ->] ?]. (split; [done|by constructor]).
Qed.

Lemma run_bops_refines `{HLim : !StoreLimit} os s :
  st_ok s -> bops_ok os s ->
  let '(s', t) := run_bops os s in st_ok s' /\ st_limit s' = st_limit s /\ map_trace (st_limit s) (contents s) t (contents s').
Proof.
  revert s. induction os as [|o os IH]; intros s Hs Hok; cbn [run_bops].
  { split; [done|]. split; [done|constructor]. }
  destruct Hok as [Ho Hok]. pose proof (run_bop_refines o s Hs Ho) as H. pose proof (st_limit_kept o s) as Hlim.
  destruct (run_bop o s) as [s1 r]. cbn [fst] in *. destruct H as [Hs1 Hstep]. specialize (IH s1 Hs1 Hok).
  destruct (run_bops os s1) as [s2 t]. destruct IH as (Hs2 & Hl & Ht). rewrite Hlim in *.
  split; [done|]. split; [done|]. by econstructor.
Qed.

End Refinement.
Arguments BPut {_} _ _.
Arguments BGet {_} _.
Arguments BDelete {_} _.
Arguments BHas {_} _.
Arguments BKeys {_}.
Arguments StoreLimit {_ _} S {_ _}.
Arguments Unlimited {_ _} S {_ _}.

(** ** localBlockStore *)

Section Local.
Context `{HD : StoreDeps}.

Definition local_Put (key : cid) (data : bytes) : M bstore unit :=
  match NewBlockWithCid data key with
  | Err e => m_err e
  | Ok _ => bs_Put key data
  end.

Definition local_Get (key : cid) : M bstore bytes := fun s => (s, bs_Get key s).
Definition local_Delete (key : cid) : M bstore unit := bs_DeleteBlock key.
Definition local_Has (key : cid) : M bstore bool := fun s => (s, bs_Has key s).
Definition local_AllKeysChan : M bstore (list cid) := fun s => (s, bs_AllKeys s).

#[export] Instance localBlockStore : BlockStore bstore := {|
  st_Put := local_Put; st_Get := local_Get; st_Delete := local_Delete;
  st_Has := local_Has; st_AllKeys := local_AllKeysChan |}.

Context `{HL : !StoreLaws} `{HA : Addressing}.

#[export] Program Instance localBlockStore_laws : BlockStoreLaws bstore := {|
  st_ok := fun _ => True; contents := bs_view |}.
Next Obligation.
  intros c d m _ _ s [_ <-]. cbn. unfold local_Put. rewrite NewBlockWithCid_ok.
  pose proof (bs_Put_ok c d s) as Hok. pose proof (bs_Put_view c d s) as Hv.
  pose proof (bs_Put_present c d s) as Hp. unfold insert_new.
  destruct (bs_Put c d s) as [s' r]. cbn in *. subst r.
  destruct (bs_view s !! Hash c) eqn:Hc; rewrite ?Hv, ?Hp by eauto; auto.
Qed.
Next Obligation.
  intros c m s [_ <-]. cbn. destruct (bs_Get c s) as [d|e] eqn:Hg.
  - apply bs_Get_view in Hg. auto.
  - destruct (bs_view s !! Hash c) as [d|] eqn:Hd; [|auto]. apply bs_Get_view in Hd. congruence.
Qed.
Next Obligation.
  intros c m s [_ <-]. cbn. unfold local_Delete.
  pose proof (bs_Delete_ok c s) as Hok. pose proof (bs_Delete_view c s) as Hv.
  destruct (bs_DeleteBlock c s) as [s' r]. cbn in *. subst r. auto.
Qed.
Next Obligation. intros c m s [_ <-]. cbn. rewrite bs_Has_view. auto. Qed.
Next Obligation. intros m s [_ <-]. cbn. destruct (bs_AllKeys_view s) as (l & -> & Hl). auto. Qed.

(** The disk takes every block. *)
#[export] Instance localBlockStore_free : Unlimited bstore.
Proof.
  split.
  - intros c d s _. cbn. unfold local_Put. rewrite NewBlockWithCid_ok. apply bs_Put_ok.
  - intros c s _. apply bs_Delete_ok.
Qed.

End Local.

(** ** quotaBlockStore *)

Record quotaBlockStore (S : Type) := mkQuota { q_inner : S; q_maxBytes : Z; q_usedBytes : Z }.
Arguments mkQuota {S} _ _ _.
Arguments q_inner {S} _.
Arguments q_maxBytes {S} _.
Arguments q_usedBytes {S} _.

Section Quota.
Context `{HD : StoreDeps} {S : Type} `{HB : !BlockStore S}.

Implicit Types q : quotaBlockStore S.

(** An operation of the inner store, and [q.usedBytes.Store]. *)
Definition q_lift {A} (m : M S A) : M (quotaBlockStore S) A := fun q =>
  let '(s, r) := m q.(q_inner) in (mkQuota s q.(q_maxBytes) q.(q_usedBytes), r).

Definition q_store (u : Z) : M (quotaBlockStore S) unit :=
  m_modify (fun q => mkQuota q.(q_inner) q.(q_maxBytes) u).

(** The loop of [computeUsage]. *)
Fixpoint sum_usage (keys : list cid) (sum : Z) : M (quotaBlockStore S) Z :=
  match keys with
  | [] => m_ret sum
  | key :: keys' =>
      res ← m_try (q_lift (st_Get key));
      match res with
      | Err _ => sum_usage keys' sum
      | Ok data => sum_usage keys' (wrap64 (sum + Z.of_nat (length data)))
      end
  end.

Definition computeUsage : M (quotaBlockStore S) unit :=
  keys ← q_lift st_AllKeys;
  u ← sum_usage keys 0;
  q_store u.

Definition newQuotaBlockStore (inner : S) (maxBytes : Z) : result (quotaBlockStore S) :=
  match computeUsage (mkQuota inner maxBytes 0) with
  | (q, Ok _) => Ok q
  | (_, Err e) => Err e
  end.

Definition quota_Put (key : cid) (data : bytes) : M (quotaBlockStore S) unit :=
  has ← q_lift (st_Has key);
  if (has : bool) then m_ret tt
  else
    q ← m_get;
    let size := Z.of_nat (length data) in
    if (0 <? q.(q_maxBytes)) && (q.(q_maxBytes) <? wrap64 (q.(q_usedBytes) + size))
    then m_err (mkError [ErrStorageFull] "storage full: block store quota exceeded")
    else
      _ ← q_lift (st_Put key data);
      q ← m_get;
      q_store (wrap64 (q.(q_usedBytes) + size)).

Definition quota_Get (key : cid) : M (quotaBlockStore S) bytes := q_lift (st_Get key).

Definition quota_Delete (key : cid) : M (quotaBlockStore S) unit :=
  res ← m_try (q_lift (st_Get key));
  match res with
  | Err _ => q_lift (st_Delete key)
  | Ok data =>
      _ ← q_lift (st_Delete key);
      q ← m_get;
      let newUsed := wrap64 (q.(q_usedBytes) - Z.of_nat (length data)) in
      q_store (if newUsed <? 0 then 0 else newUsed)
  end.

Definition quota_Has (key : cid) : M (quotaBlockStore S) bool := q_lift (st_Has key).
Definition quota_AllKeysChan : M (quotaBlockStore S) (list cid) := q_lift st_AllKeys.

#[export] Instance quotaBlockStore_ops : BlockStore (quotaBlockStore S) := {|
  st_Put := quota_Put; st_Get := quota_Get; st_Delete := quota_Delete;
  st_Has := quota_Has; st_AllKeys := quota_AllKeysChan |}.

End Quota.

Section QuotaLaws.
Context `{HD : StoreDeps} `{HA : Addressing} {S : Type} `{HB : !BlockStore S} `{HS : !BlockStoreLaws S}.

(** The state of the layer while one of its operations runs. *)
Definition q_at (m : gmap bytes bytes) (used max : Z) (q : quotaBlockStore S) : Prop :=
  (st_ok q.(q_inner) /\ contents q.(q_inner) = m) /\ q.(q_usedBytes) = used /\ q.(q_maxBytes) = max.

(** The counter is the sum of the sizes, within the limit if there is one. *)
Definition within (m : gmap bytes bytes) (used max : Z) : Prop :=
  used = total m /\ used < 2 ^ 63 /\ (0 < max -> used <= max).

Definition quota_ok (q : quotaBlockStore S) : Prop :=
  st_ok q.(q_inner) /\ within (contents q.(q_inner)) q.(q_usedBytes) q.(q_maxBytes).

Local Ltac lift_law L :=
  intros [s x0 u0] (Hs & Hu & Hx); cbn in *; subst u0 x0; unfold q_lift; cbn; pose proof (L s Hs) as Hlaw;
  lazymatch type of Hlaw with context [match ?r with _ => _ end] => destruct r as [s' [a|e]] end;
  unfold q_at; naive_solver.

Lemma q_Has_at c m u x :
  succeeds (q_at m u x) (q_lift (st_Has c))
    (fun b q => q_at m u x q /\ b = bool_decide (is_Some (m !! Hash c))).
Proof. lift_law (st_Has_law c m). Qed.

Lemma q_Get_at c m u x :
  triple (q_at m u x) (q_lift (st_Get c))
    (fun d q => q_at m u x q /\ m !! Hash c = Some d) (fun q => q_at m u x q /\ m !! Hash c = None).
Proof. lift_law (st_Get_law c m). Qed.

Lemma q_Put_at c d m u x :
  addressed (Hash c) d -> has_room d m ->
  triple (q_at m u x) (q_lift (st_Put c d)) (fun _ => q_at (insert_new (Hash c) d m) u x) (q_at m u x).
Proof. intros Ha Hr. lift_law (st_Put_law c d m Ha Hr). Qed.

Lemma q_Delete_at c m u x :
  triple (q_at m u x) (q_lift (st_Delete c)) (fun _ => q_at (delete (Hash c) m) u x) (q_at m u x).
Proof. lift_law (st_Delete_law c m). Qed.

Lemma q_AllKeys_at m u x :
  succeeds (q_at m u x) (q_lift st_AllKeys)
    (fun l q => q_at m u x q /\ Hash <$> l ≡ₚ (map_to_list m).*1).
Proof. lift_law (st_AllKeys_law m). Qed.

Lemma q_store_at m u x u' :
  succeeds (q_at m u x) (q_store u') (fun _ => q_at m u' x).
Proof. intros q (Hq & <- & <-). done. Qed.

Lemma q_at_ok m u x q : within m u x -> q_at m u x q -> quota_ok q /\ contents q.(q_inner) = m.
Proof. intros Hw ([Hs <-] & <- & <-). done. Qed.

Lemma q_get_at m u x {B} (k : quotaBlockStore S -> M (quotaBlockStore S) B) Q E :
  (forall q, q.(q_usedBytes) = u -> q.(q_maxBytes) = x -> triple (q_at m u x) (k q) Q E) ->
  triple (q_at m u x) (mbind k m_get) Q E.
Proof. intros Hk q Hq. destruct Hq as (? & ? & ?) eqn:Heq. by apply (Hk q). Qed.

Lemma wrap64_in z : - 2 ^ 63 <= z < 2 ^ 63 -> wrap64 z = z.
Proof. intros Hz. apply wrap64_small. exact Hz. Qed.

(** An operation of the layer may be shown with its state spelled out. *)
Lemma quota_triple {A} (op : M (quotaBlockStore S) A) (m : gmap bytes bytes)
    (Q : A -> quotaBlockStore S -> Prop) (E : quotaBlockStore S -> Prop) :
  (forall u x, within m u x -> triple (q_at m u x) op Q E) ->
  triple (fun q => quota_ok q /\ contents q.(q_inner) = m) op Q E.
Proof. intros Hop q [[Hs Hw] <-]. by apply (Hop _ _ Hw). Qed.

Lemma quota_Put_law c d m :
  addressed (Hash c) d -> has_room d m ->
  triple (fun q => quota_ok q /\ contents q.(q_inner) = m) (quota_Put c d)
    (fun _ q => quota_ok q /\ contents q.(q_inner) = insert_new (Hash c) d m)
    (fun q => quota_ok q /\ contents q.(q_inner) = m).
Proof.
  intros Ha Hr. apply quota_triple. intros u x Hw. pose proof Hw as (Hu & Hu63 & Hux).
  pose proof (total_nonneg m) as Hnn. unfold quota_Put. eapply triple_bind.
  { eapply triple_weaken; [apply q_Has_at|done..]. }
  intros has q [Hq ->]. revert q Hq. case_bool_decide as Hin.
  { apply triple_ret. unfold insert_new. destruct Hin as [d' ->]. intros q Hq. by apply (q_at_ok m u x). }
  apply eq_None_not_Some in Hin as Hnone.
  apply q_get_at. intros q0 Hu0 Hx0. cbv zeta. unfold has_room in Hr. rewrite Hu0, Hx0, wrap64_in by lia.
  destruct ((0 <? x) && (x <? u + Z.of_nat (length d))) eqn:Hfull.
  { apply triple_err. intros q Hq. by apply (q_at_ok m u x). }
  eapply triple_bind.
  { eapply triple_weaken; [by apply q_Put_at|done|done|]. intros q Hq. by apply (q_at_ok m u x). }
  intros []. unfold insert_new. rewrite Hnone.
  apply q_get_at. intros q1 Hu1 _. rewrite Hu1, wrap64_in by lia.
  eapply triple_weaken; [apply q_store_at|done| |done].
  intros [] q Hq. apply (q_at_ok _ _ _ _) in Hq; [done|].
  unfold within. rewrite total_insert by done. apply andb_false_iff in Hfull.
  split_and!; [lia..|]. intros Hx. destruct Hfull as [Hf|Hf]; go_bool; lia.
Qed.

Lemma quota_Delete_law c m :
  triple (fun q => quota_ok q /\ contents q.(q_inner) = m) (quota_Delete c)
    (fun _ q => quota_ok q /\ contents q.(q_inner) = delete (Hash c) m)
    (fun q => quota_ok q /\ contents q.(q_inner) = m).
Proof.
  apply quota_triple. intros u x Hw. pose proof Hw as (Hu & Hu63 & Hux). unfold quota_Delete.
  eapply triple_bind; [apply triple_try, q_Get_at|]. intros [d|e].
  - intros q [Hq Hd]. revert q Hq. pose proof (total_delete m (Hash c) d Hd).
    pose proof (total_nonneg (delete (Hash c) m)). eapply triple_bind.
    { eapply triple_weaken; [apply q_Delete_at|done|done|]. intros q Hq. by apply (q_at_ok m u x). }
    intros []. apply q_get_at. intros q1 Hu1 _. cbv zeta. rewrite Hu1, wrap64_in by lia.
    destruct (Z.ltb_spec (u - Z.of_nat (length d)) 0); [lia|].
    eapply triple_weaken; [apply q_store_at|done| |done].
    intros [] q Hq. apply (q_at_ok _ _ _ _) in Hq; [done|]. unfold within. split_and!; lia.
  - intros q [Hq Hd]. revert q Hq.
    eapply triple_weaken; [apply q_Delete_at|done| |].
    + intros [] q Hq. rewrite delete_id in Hq by done. rewrite delete_id by done. by apply (q_at_ok m u x).
    + intros q Hq. by apply (q_at_ok m u x).
Qed.

#[export] Program Instance quotaBlockStore_laws : BlockStoreLaws (quotaBlockStore S) := {|
  st_ok := quota_ok; contents := fun q => contents q.(q_inner) |}.
Next Obligation. intros c d m Ha Hr. by apply quota_Put_law. Qed.
Next Obligation.
  intros c m. apply quota_triple. intros u x Hw. eapply triple_weaken; [apply q_Get_at|done|..].
  - intros d q [Hq Hd]. split; [|done]. by apply (q_at_ok m u x).
  - intros q [Hq Hd]. split; [|done]. by apply (q_at_ok m u x).
Qed.
Next Obligation. intros c m. by apply quota_Delete_law. Qed.
Next Obligation.
  intros c m. apply quota_triple. intros u x Hw. eapply triple_weaken; [apply q_Has_at|done| |done].
  intros b q [Hq Hb]. split; [|done]. by apply (q_at_ok m u x).
Qed.
Next Obligation.
  intros m. apply quota_triple. intros u x Hw. eapply triple_weaken; [apply q_AllKeys_at|done| |done].
  intros l q [Hq Hl]. split; [|done]. by apply (q_at_ok m u x).
Qed.

Section QuotaLimit.
Context `{HF : !Unlimited S}.

Lemma q_lift_max {A} (op : M S A) (q : quotaBlockStore S) : (q_lift op q).1.(q_maxBytes) = q.(q_maxBytes).
Proof. unfold q_lift. by destruct (op (q_inner q)). Qed.

Lemma quota_max (o : bop) (q : quotaBlockStore S) : (run_bop o q).1.(q_maxBytes) = q.(q_maxBytes).
Proof.
  assert (forall {A} (op : M (quotaBlockStore S) A) f, keeps (fun q' => q'.(q_maxBytes) = q.(q_maxBytes)) op (fun _ => True) ->
    (let '(s', r) := op q in (s', outcome_of f r)).1.(q_maxBytes) = q.(q_maxBytes)) as Hout.
  { intros A op f Hk. pose proof (keeps_final _ _ _ q Hk eq_refl) as Hf. by destruct (op q). }
  assert (forall {A} (op : M S A), keeps (fun q' => q'.(q_maxBytes) = q.(q_maxBytes)) (q_lift op) (fun _ => True)) as Hlift.
  { intros A op q' Hq'. pose proof (q_lift_max op q') as Hm. destruct (q_lift op q') as [q2 [a|e]]; cbn in *; [split; [congruence|done]|congruence]. }
  assert (forall u, keeps (fun q' : quotaBlockStore S => q'.(q_maxBytes) = q.(q_maxBytes)) (q_store u) (fun _ => True)) as Hstore by (by intros u q' Hq').
  destruct o as [c d|c|c|c|]; cbn [run_bop st_Put st_Get st_Delete st_Has st_AllKeys quotaBlockStore_ops]; apply Hout;
    unfold quota_Put, quota_Get, quota_Delete, quota_Has, quota_AllKeysChan;
    repeat first [keeps_step | apply Hlift | apply Hstore | apply keeps_get]; try done.
Qed.

(** The limit is the one the layer was made with, and is compared with the sum of the sizes. *)
#[export] Program Instance quotaBlockStore_limit : StoreLimit (quotaBlockStore S) := {| st_limit := q_maxBytes |}.
Next Obligation. intros o q. apply quota_max. Qed.
Next Obligation.
  intros c d [s x u] [Hs (Hu & Hu63 & Hux)] Ha Hr. cbn in *. unfold quota_Put, has_room, full in *.
  pose proof (st_Has_law c (contents s) s (conj Hs eq_refl)) as Hhas. pose proof (total_nonneg (contents s)) as Hnn.
  unfold mbind, M_bind, m_bind, q_lift. cbn. destruct (st_Has c s) as [s1 [b|e]]; [|done]. destruct Hhas as [[Hs1 Hc1] ->].
  case_bool_decide as Hb; cbn; [by left|]. apply eq_None_not_Some in Hb. rewrite wrap64_in by lia.
  destruct (Z.ltb_spec 0 x), (Z.ltb_spec x (u + Z.of_nat (length d))); cbn [andb]; cbn;
    [split; [done|lia]|..]; pose proof (free_Put c d s1 Hs1) as Hf; destruct (st_Put c d s1) as [s2 r]; cbn in Hf; subst r; right; lia.
Qed.
Next Obligation.
  intros c [s x u] [Hs _]. cbn. unfold quota_Delete, mbind, M_bind, m_bind, m_try, q_lift. cbn.
  pose proof (st_Get_law c (contents s) s (conj Hs eq_refl)) as Hget.
  destruct (st_Get c s) as [s1 [d|e]]; destruct Hget as [[Hs1 _] _]; cbn; pose proof (free_Delete c s1 Hs1) as Hf;
    destruct (st_Delete c s1) as [s2 r]; cbn in Hf; by subst r.
Qed.

End QuotaLimit.

(** The scan when the layer is made. *)
Lemma sum_usage_spec keys m b0 x sum :
  NoDup (Hash <$> keys) -> Hash <$> keys ≡ₚ (map_to_list b0).*1 ->
  (forall h, h ∈ Hash <$> keys -> m !! h = b0 !! h) -> 0 <= sum -> sum + total b0 < 2 ^ 63 ->
  succeeds (q_at m 0 x) (sum_usage keys sum) (fun u q => q_at m 0 x q /\ u = sum + total b0).
Proof.
  revert b0 sum. induction keys as [|c keys IH]; intros b0 sum Hnd Hperm Hsame Hsum Hb; cbn [sum_usage].
  { apply succeeds_ret. intros q Hq. apply Permutation_nil_l in Hperm. symmetry in Hperm.
    apply fmap_nil_inv, map_to_list_empty_iff in Hperm as ->. rewrite total_empty. split; [done|lia]. }
  rewrite fmap_cons in Hnd, Hperm, Hsame. apply NoDup_cons in Hnd as [Hnot Hnd].
  assert (exists d, b0 !! Hash c = Some d) as [d Hd] by (apply (perm_lookup b0 (Hash c) _ Hperm), list_elem_of_here).
  pose proof (total_delete b0 (Hash c) d Hd) as Htot. pose proof (total_nonneg (delete (Hash c) b0)).
  eapply triple_bind; [apply triple_try, q_Get_at|].
  intros [d'|e] q [Hq Hd'].
  2: { rewrite (Hsame _ (list_elem_of_here _ _)) in Hd'. congruence. }
  rewrite (Hsame _ (list_elem_of_here _ _)) in Hd'. simplify_eq. revert q Hq. rewrite wrap64_in by lia.
  eapply triple_weaken; [apply (IH (delete (Hash c) b0))|done| |done].
  - done.
  - by apply perm_delete with d.
  - intros h Hh. rewrite lookup_delete_ne by (intros <-; done). apply Hsame. by apply list_elem_of_further.
  - lia.
  - lia.
  - intros u q [Hq ->]. split; [done|lia].
Qed.

Lemma newQuota_ok (inner : S) max :
  st_ok inner -> total (contents inner) < 2 ^ 63 -> (0 < max -> total (contents inner) <= max) ->
  exists q, newQuotaBlockStore inner max = Ok q /\ quota_ok q /\ contents q.(q_inner) = contents inner /\
    q.(q_maxBytes) = max.
Proof.
  intros Hs Ht Hmax. set (m := contents inner) in *.
  assert (q_at m 0 max (mkQuota inner max 0)) as Hq by done. pose proof (total_nonneg m).
  assert (succeeds (q_at m 0 max) computeUsage (fun _ => q_at m (total m) max)) as Hc.
  { unfold computeUsage. eapply succeeds_bind; [apply q_AllKeys_at|]. intros keys q0 [Hq0 Hk]. revert q0 Hq0.
    eapply succeeds_bind; [apply (sum_usage_spec keys m m max 0); [by rewrite Hk; apply NoDup_fst_map_to_list|done..]|].
    intros u q0 [Hq0 ->]. revert q0 Hq0. rewrite Z.add_0_l. apply q_store_at. }
  specialize (Hc _ Hq). unfold newQuotaBlockStore.
  destruct (computeUsage (mkQuota inner max 0)) as [q [[]|e]]; [|done].
  exists q. split; [done|]. pose proof Hc as (_ & _ & Hx).
  destruct (q_at_ok m (total m) max q) as [Hok Hcont]; [done|done|]. done.
Qed.

End QuotaLaws.

Definition storageFullPrefix : string := "storage full".

Definition IsStorageFull (e : error) : bool :=
  errors_Is e ErrStorageFull || contains storageFullPrefix (err_text e).
