(* ===== verification/Cache.v ===== *)
(** * The block cache (src/store/cache.go)

    [cachedBlockStore] keeps recently used blocks in memory: a map [items] from multihashes
    to elements of a linked list [order], most recent first, and a byte count. The list
    elements are pointers, so the model has a heap of entries. The cache implements a
    least-recently-used list ([lru_refinement]) that never holds more than its limit, and a
    store behind it still behaves like a map ([cached_store_refines_map]). *)

From stdpp Require Import base gmap list strings.
From Stdlib Require Import ZArith Lia Strings.Byte.
From S2P Require Import Prelude Hoare Hex StoreKeys StoreDeps BlockStore.

Set Default Goal Selector "!".
Local Open Scope Z_scope.

(** ** The data *)

(** A [*list.Element]. *)
Abbreviation element := nat.

Section Cache.
Context `{HD : StoreDeps}.

Record cacheEntry := mkEntry { ce_key : cid; ce_data : bytes }.

(** [c_curBytes] is an [int] in the source; it never exceeds the limit by more than one block, so its
    sums do not wrap. *)
Record cache := mkCache {
  c_heap : gmap element cacheEntry;
  c_next : element;
  c_items : gmap string element;
  c_order : list element;
  c_curBytes : Z;
  c_maxBytes : Z
}.

Definition DefaultMaxBytes : Z := Z.shiftl 64 20.

Definition newCache (maxBytes : Z) : cache :=
  mkCache ∅ O ∅ [] 0 (if maxBytes <=? 0 then DefaultMaxBytes else maxBytes).

Definition size_of (data : bytes) : Z := Z.of_nat (length data).

(** [c.order.Remove] and [c.order.MoveToFront]. *)
Definition list_remove (el : element) (order : list element) : list element :=
  filter (fun e => e <> el) order.

Definition move_to_front (el : element) (order : list element) : list element :=
  el :: list_remove el order.

Definition removeLocked (el : element) (c : cache) : cache :=
  match c.(c_heap) !! el with
  | None => c
  | Some entry =>
      mkCache (delete el c.(c_heap)) c.(c_next) (delete (HashHex entry.(ce_key)) c.(c_items))
        (list_remove el c.(c_order)) (c.(c_curBytes) - size_of entry.(ce_data)) c.(c_maxBytes)
  end.

(** The loop of [evictLocked]: [tails] is the list from its back. *)
Fixpoint evict_loop (tails : list element) (c : cache) : cache :=
  if c.(c_maxBytes) <? c.(c_curBytes) then
    match tails with
    | [] => c
    | tail :: tails' => evict_loop tails' (removeLocked tail c)
    end
  else c.

Definition evictLocked (c : cache) : cache := evict_loop (reverse c.(c_order)) c.

Definition evict (key : cid) (c : cache) : cache :=
  match c.(c_items) !! HashHex key with
  | Some el => removeLocked el c
  | None => c
  end.

Definition cache_put (key : cid) (data : bytes) (c : cache) : cache :=
  let size := size_of data in
  if c.(c_maxBytes) <? size then c
  else
    let mh := HashHex key in
    match c.(c_items) !! mh with
    | Some el =>
        match c.(c_heap) !! el with
        | None => c
        | Some old =>
            evictLocked
              (mkCache (<[el := mkEntry old.(ce_key) data]> c.(c_heap)) c.(c_next) c.(c_items)
                 (move_to_front el c.(c_order))
                 (c.(c_curBytes) + (size - size_of old.(ce_data))) c.(c_maxBytes))
        end
    | None =>
        let el := c.(c_next) in
        evictLocked
          (mkCache (<[el := mkEntry key data]> c.(c_heap)) (S el) (<[mh := el]> c.(c_items))
             (el :: c.(c_order)) (c.(c_curBytes) + size) c.(c_maxBytes))
    end.

(** The locked part of [Get]: the data of an entry, which becomes the most recent. *)
Definition cache_get (key : cid) (c : cache) : option (bytes * cache) :=
  match c.(c_items) !! HashHex key with
  | None => None
  | Some el =>
      match c.(c_heap) !! el with
      | None => None
      | Some entry =>
          Some (entry.(ce_data),
                mkCache c.(c_heap) c.(c_next) c.(c_items) (move_to_front el c.(c_order))
                  c.(c_curBytes) c.(c_maxBytes))
      end
  end.

Definition cache_has (key : cid) (c : cache) : bool := bool_decide (is_Some (c.(c_items) !! HashHex key)).

End Cache.

(** ** The store *)

Record cachedBlockStore `{StoreDeps} (S : Type) := mkCached { cs_inner : S; cs_cache : cache }.
Arguments mkCached {_ S} _ _.
Arguments cs_inner {_ S} _.
Arguments cs_cache {_ S} _.

Section CachedStore.
Context `{HD : StoreDeps} {S : Type} `{HB : !BlockStore S}.

Definition newCachedBlockStore (inner : S) (maxBytes : Z) : cachedBlockStore S :=
  mkCached inner (newCache maxBytes).

Definition cs_lift {A} (m : M S A) : M (cachedBlockStore S) A := fun c =>
  let '(s, r) := m c.(cs_inner) in (mkCached s c.(cs_cache), r).

Definition on_cache (f : cache -> cache) : M (cachedBlockStore S) unit :=
  m_modify (fun c => mkCached c.(cs_inner) (f c.(cs_cache))).

Definition cached_Get (key : cid) : M (cachedBlockStore S) bytes :=
  c ← m_get;
  match cache_get key c.(cs_cache) with
  | Some (data, cache') => _ ← on_cache (fun _ => cache'); m_ret data
  | None =>
      data ← cs_lift (st_Get key);
      _ ← on_cache (cache_put key data);
      m_ret data
  end.

Definition cached_Put (key : cid) (data : bytes) : M (cachedBlockStore S) unit :=
  _ ← cs_lift (st_Put key data);
  on_cache (cache_put key data).

Definition cached_Delete (key : cid) : M (cachedBlockStore S) unit :=
  _ ← on_cache (evict key);
  cs_lift (st_Delete key).

Definition cached_Has (key : cid) : M (cachedBlockStore S) bool :=
  c ← m_get;
  if cache_has key c.(cs_cache) then m_ret true else cs_lift (st_Has key).

Definition cached_AllKeysChan : M (cachedBlockStore S) (list cid) := cs_lift st_AllKeys.

#[export] Instance cachedBlockStore_ops : BlockStore (cachedBlockStore S) := {|
  st_Put := cached_Put; st_Get := cached_Get; st_Delete := cached_Delete;
  st_Has := cached_Has; st_AllKeys := cached_AllKeysChan |}.

End CachedStore.

(** ** The specification: a least-recently-used list *)

Abbreviation lru := (list (bytes * bytes)).

Definition lru_size (l : lru) : Z := foldr (fun e n => size_of e.2 + n) 0 l.

Definition lru_drop (h : bytes) (l : lru) : lru := filter (fun e => e.1 <> h) l.

(** The most recent entries that fit. *)
Fixpoint lru_fit (max : Z) (l : lru) : lru :=
  match l with
  | [] => []
  | e :: l' => if size_of e.2 <=? max then e :: lru_fit (max - size_of e.2) l' else []
  end.

Definition lru_find (h : bytes) (l : lru) : option bytes := snd <$> head (filter (fun e => e.1 = h) l).

Definition lru_put (max : Z) (h d : bytes) (l : lru) : lru :=
  if max <? size_of d then l else lru_fit max ((h, d) :: lru_drop h l).

Definition lru_get (h : bytes) (l : lru) : option (bytes * lru) :=
  d ← lru_find h l; Some (d, (h, d) :: lru_drop h l).

Lemma lru_size_nonneg l : 0 <= lru_size l.
Proof. unfold lru_size, size_of. induction l as [|e l IH]; cbn; lia. Qed.

Lemma lru_size_app l1 l2 : lru_size (l1 ++ l2) = lru_size l1 + lru_size l2.
Proof. unfold lru_size. induction l1 as [|e l1 IH]; cbn; [done|lia]. Qed.

Lemma lru_fit_all max l : lru_size l <= max -> lru_fit max l = l.
Proof.
  revert max. induction l as [|e l IH]; intros max Hl; [done|]. cbn in Hl. fold (lru_size l) in Hl.
  pose proof (lru_size_nonneg l). cbn [lru_fit]. rewrite (proj2 (Z.leb_le _ _)) by lia. rewrite IH by lia. done.
Qed.

(** Dropping the last entry of a list that is too big does not matter. *)
Lemma lru_fit_snoc max l e : max < lru_size (l ++ [e]) -> lru_fit max (l ++ [e]) = lru_fit max l.
Proof.
  revert max. induction l as [|e' l IH]; intros max Hl; cbn in Hl |- *.
  - rewrite Z.add_0_r in Hl. by rewrite (proj2 (Z.leb_gt _ _)).
  - fold (lru_size (l ++ [e])) in Hl. destruct (_ <=? _); [|done]. by rewrite IH by lia.
Qed.

Lemma lru_fit_size max l : 0 <= max -> lru_size (lru_fit max l) <= max.
Proof.
  revert max. induction l as [|e l IH]; intros max Hm; cbn; [done|].
  destruct (Z.leb_spec (size_of e.2) max); cbn; [|done].
  fold (lru_size (lru_fit (max - size_of e.2) l)). specialize (IH (max - size_of e.2)). lia.
Qed.

Lemma lru_fit_elem max l x : x ∈ lru_fit max l -> x ∈ l.
Proof.
  revert max. induction l as [|e l IH]; intros max; cbn; [done|].
  destruct (_ <=? _); [|by intros ?%elem_of_nil].
  intros [->|Hx]%elem_of_cons; [apply list_elem_of_here|by apply list_elem_of_further, (IH (max - size_of e.2))].
Qed.

Lemma lru_drop_absent h l : h ∉ l.*1 -> lru_drop h l = l.
Proof.
  intros Hh. apply filter_all. intros [h' d] Hin Heq. apply Hh, list_elem_of_fmap. by exists (h', d).
Qed.

Lemma lru_drop_notin h l : h ∉ (lru_drop h l).*1.
Proof.
  unfold lru_drop. intros ([h' d] & -> & Hin)%list_elem_of_fmap. cbn in Hin.
  apply list_elem_of_filter in Hin as [Hne _]. done.
Qed.

(** ** The cache implements it *)

Section Lru.
Context `{HD : StoreDeps}.

Implicit Types c : cache.

Definition entry_of (heap : gmap element cacheEntry) (el : element) : option (bytes * bytes) :=
  (fun e => (Hash e.(ce_key), e.(ce_data))) <$> heap !! el.

(** The entries of the cache, most recent first. *)
Definition abs (c : cache) : lru := omap (entry_of c.(c_heap)) c.(c_order).

Record cache_ok (c : cache) : Prop := {
  ok_nodup : NoDup c.(c_order);
  ok_order el : el ∈ c.(c_order) <-> is_Some (c.(c_heap) !! el);
  ok_items mh el :
    c.(c_items) !! mh = Some el <-> exists e, c.(c_heap) !! el = Some e /\ HashHex e.(ce_key) = mh;
  ok_next el : is_Some (c.(c_heap) !! el) -> (el < c.(c_next))%nat;
  ok_cur : c.(c_curBytes) = lru_size (abs c);
  ok_max : 0 <= c.(c_maxBytes)
}.

Lemma newCache_ok max : cache_ok (newCache max).
Proof.
  split; cbn.
  - constructor.
  - intros el. rewrite elem_of_nil, lookup_empty. split; [done|by intros []].
  - intros mh el. rewrite lookup_empty. split; [done|]. intros (e & He & _). by rewrite lookup_empty in He.
  - intros el. rewrite lookup_empty. by intros [].
  - done.
  - unfold DefaultMaxBytes. destruct (Z.leb_spec max 0); [done|lia].
Qed.

(** One element per multihash. *)
Lemma ok_unique c el el' e e' :
  cache_ok c -> c.(c_heap) !! el = Some e -> c.(c_heap) !! el' = Some e' ->
  Hash e.(ce_key) = Hash e'.(ce_key) -> el = el'.
Proof.
  intros Hc He He' Hh.
  assert (c.(c_items) !! HashHex e.(ce_key) = Some el) as H1 by (apply (ok_items c Hc); eauto).
  assert (c.(c_items) !! HashHex e.(ce_key) = Some el') as H2.
  { apply (ok_items c Hc). exists e'. split; [done|]. unfold HashHex. by rewrite Hh. }
  congruence.
Qed.

Lemma omap_drop (heap : gmap element cacheEntry) (o : list element) el e :
  heap !! el = Some e ->
  (forall el' e', el' ∈ o -> heap !! el' = Some e' -> Hash e'.(ce_key) = Hash e.(ce_key) -> el' = el) ->
  omap (entry_of heap) (filter (fun x => x <> el) o) = lru_drop (Hash e.(ce_key)) (omap (entry_of heap) o).
Proof.
  intros He Hu. induction o as [|x o IH]; [done|].
  assert (forall el' e', el' ∈ o -> heap !! el' = Some e' -> Hash e'.(ce_key) = Hash e.(ce_key) -> el' = el) as Hu'
    by (intros; eapply Hu; eauto; by apply list_elem_of_further).
  specialize (IH Hu'). rewrite filter_cons. cbn [omap list_omap].
  unfold entry_of at 2. destruct (heap !! x) as [ex|] eqn:Hx; cbn [fmap option_fmap option_map].
  - unfold lru_drop. rewrite filter_cons. cbn [fst]. destruct (decide (x <> el)) as [Hne|Heq].
    + rewrite decide_True. 2: { intros Hh. apply Hne. eapply Hu; eauto. apply list_elem_of_here. }
      cbn. unfold entry_of at 1. rewrite Hx. cbn. f_equal. exact IH.
    + apply dec_stable in Heq as ->. rewrite decide_False; [exact IH|]. intros Hh. apply Hh. congruence.
  - destruct (decide (x <> el)); [|congruence]. cbn. unfold entry_of at 1. rewrite Hx. cbn. exact IH.
Qed.

Lemma omap_ext_heap (h1 h2 : gmap element cacheEntry) (o : list element) :
  (forall el, el ∈ o -> h1 !! el = h2 !! el) -> omap (entry_of h1) o = omap (entry_of h2) o.
Proof.
  intros Heq. induction o as [|x o IH]; [done|]. cbn [omap list_omap].
  assert (entry_of h1 x = entry_of h2 x) as -> by (unfold entry_of; by rewrite (Heq x) by apply list_elem_of_here).
  assert (omap (entry_of h1) o = omap (entry_of h2) o) as IH' by (apply IH; intros; by apply Heq, list_elem_of_further).
  destruct (entry_of h2 x); [f_equal|]; exact IH'.
Qed.

Lemma entry_elem (heap : gmap element cacheEntry) (o : list element) x :
  x ∈ omap (entry_of heap) o <-> exists el e, el ∈ o /\ heap !! el = Some e /\ x = (Hash e.(ce_key), e.(ce_data)).
Proof.
  rewrite list_elem_of_omap. unfold entry_of. split.
  - intros (el & Hel & Hx). apply fmap_Some in Hx as (e & He & ->). eauto.
  - intros (el & e & Hel & He & ->). exists el. by rewrite He.
Qed.

Lemma abs_nodup c : cache_ok c -> NoDup (abs c).*1.
Proof.
  intros Hc. unfold abs. pose proof (ok_nodup c Hc) as Hnd.
  assert (forall el, el ∈ c.(c_order) -> is_Some (c.(c_heap) !! el)) as Hin by (intros el; apply (ok_order c Hc)).
  revert Hnd Hin. generalize c.(c_order) as o. intros o Hnd.
  induction Hnd as [|x o Hx Hnd IH]; intros Hin; [constructor|]. cbn [omap list_omap].
  destruct (Hin x) as [ex Hex]; [apply list_elem_of_here|]. unfold entry_of at 1. rewrite Hex. cbn.
  constructor; [|apply IH; intros el Hel; apply Hin; by apply list_elem_of_further].
  intros ([h d] & Heq & Hel)%list_elem_of_fmap. apply entry_elem in Hel as (el & e & Hel & He & [= -> ->]).
  cbn in Heq. apply Hx. replace x with el; [done|]. symmetry. by eapply (ok_unique c).
Qed.

Lemma lru_size_drop (l : lru) h d :
  NoDup l.*1 -> (h, d) ∈ l -> lru_size l = size_of d + lru_size (lru_drop h l).
Proof.
  induction l as [|[h' d'] l IH]; intros Hnd Hin; [by apply elem_of_nil in Hin|].
  cbn in Hnd. apply NoDup_cons in Hnd as [Hnot Hnd]. cbn [lru_size foldr snd]. fold (lru_size l).
  unfold lru_drop. rewrite filter_cons. cbn [fst]. apply elem_of_cons in Hin as [[= -> ->]|Hin].
  - rewrite decide_False by (intros Hne; done). fold (lru_drop h' l). by rewrite lru_drop_absent.
  - rewrite decide_True. 2: { intros ->. apply Hnot, list_elem_of_fmap. by exists (h, d). }
    cbn. fold (lru_size (filter (fun e : bytes * bytes => e.1 <> h) l)). rewrite (IH Hnd Hin). unfold lru_drop. lia.
Qed.

Lemma list_remove_elem (el x : element) o : x ∈ list_remove el o <-> x <> el /\ x ∈ o.
Proof. unfold list_remove. by rewrite list_elem_of_filter. Qed.

Lemma removeLocked_ok c el e :
  cache_ok c -> c.(c_heap) !! el = Some e ->
  cache_ok (removeLocked el c) /\ abs (removeLocked el c) = lru_drop (Hash e.(ce_key)) (abs c).
Proof.
  intros Hc He. unfold removeLocked. rewrite He.
  assert (abs (mkCache (delete el c.(c_heap)) c.(c_next) (delete (HashHex e.(ce_key)) c.(c_items))
    (list_remove el c.(c_order)) (c.(c_curBytes) - size_of e.(ce_data)) c.(c_maxBytes)) =
    lru_drop (Hash e.(ce_key)) (abs c)) as Habs.
  { unfold abs. cbn. rewrite (omap_ext_heap _ c.(c_heap)).
    - apply omap_drop; [done|]. intros el' e' _ He' Hh. by eapply ok_unique.
    - intros x [Hx _]%list_remove_elem. by rewrite lookup_delete_ne by congruence. }
  split; [|done]. pose proof Hc as [Hnd Hord Hit Hnx Hcur Hmax]. split; cbn.
  - by apply NoDup_filter.
  - intros x. rewrite list_remove_elem, Hord, lookup_delete_is_Some. naive_solver.
  - intros mh x. rewrite lookup_delete_Some, Hit. split.
    + intros [Hne (ex & Hx & <-)]. exists ex. split; [|done]. rewrite lookup_delete_ne; [done|]. intros ->. congruence.
    + intros (ex & Hx & <-). apply lookup_delete_Some in Hx as [Hne Hx]. split; [|eauto].
      intros Hh. apply Hne. apply (ok_unique c el x e ex); [done..|]. by apply hex_encode_inj.
  - intros x [ex Hx]. apply lookup_delete_Some in Hx as [_ Hx]. apply Hnx. eauto.
  - etrans; [|symmetry; exact (f_equal lru_size Habs)]. rewrite Hcur.
    rewrite (lru_size_drop (abs c) (Hash e.(ce_key)) e.(ce_data)); [lia|by apply abs_nodup|].
    apply entry_elem. exists el, e. split; [|done]. apply Hord. eauto.
  - done.
Qed.

Lemma reverse_snoc_inv {A} (l : list A) x t : reverse l = x :: t -> l = reverse t ++ [x].
Proof. intros H. by rewrite <- (reverse_involutive l), H, reverse_cons. Qed.

Lemma abs_tail c el e t :
  cache_ok c -> reverse c.(c_order) = el :: t -> c.(c_heap) !! el = Some e ->
  abs c = abs (removeLocked el c) ++ [(Hash e.(ce_key), e.(ce_data))] /\
  reverse (removeLocked el c).(c_order) = t.
Proof.
  intros Hc Hrev He. destruct (removeLocked_ok c el e Hc He) as [_ Habs]. rewrite Habs.
  apply reverse_snoc_inv in Hrev. pose proof (abs_nodup c Hc) as Hnd. pose proof (ok_nodup c Hc) as Hndo.
  split.
  - unfold abs in *. rewrite Hrev in *. rewrite omap_app in *. cbn in *. unfold entry_of at 2 in Hnd.
    unfold entry_of at 2 4. rewrite He in *. cbn in *. f_equal.
    unfold lru_drop. rewrite filter_app, filter_cons_False by (cbn; intros Hne; done). rewrite filter_nil, app_nil_r.
    symmetry. apply lru_drop_absent. rewrite fmap_app in Hnd. apply NoDup_app in Hnd as (_ & Hdis & _).
    intros Hin. apply (Hdis _ Hin). cbn. apply list_elem_of_here.
  - unfold removeLocked. rewrite He. cbn. unfold list_remove. rewrite Hrev in *.
    apply NoDup_app in Hndo as (_ & Hdis & _).
    rewrite filter_app, filter_cons_False by (intros Hne; done). rewrite filter_nil, app_nil_r.
    rewrite filter_all; [apply reverse_involutive|].
    intros x Hx ->. apply (Hdis _ Hx). apply list_elem_of_here.
Qed.

Lemma evict_loop_spec tails c :
  cache_ok c -> reverse c.(c_order) = tails ->
  cache_ok (evict_loop tails c) /\ abs (evict_loop tails c) = lru_fit c.(c_maxBytes) (abs c) /\
  (evict_loop tails c).(c_maxBytes) = c.(c_maxBytes).
Proof.
  revert c. induction tails as [|el t IH]; intros c Hc Hrev; cbn [evict_loop];
    destruct (Z.ltb_spec c.(c_maxBytes) c.(c_curBytes)) as [Hbig|Hsmall];
    try (split; [done|]; split; [|done]; symmetry; apply lru_fit_all; rewrite <- (ok_cur c Hc); done).
  - exfalso. pose proof (ok_cur c Hc) as Hcur. pose proof (ok_max c Hc).
    apply (f_equal reverse) in Hrev. rewrite reverse_involutive in Hrev.
    unfold abs in Hcur. rewrite Hrev in Hcur. cbn in Hcur. lia.
  - assert (el ∈ c.(c_order)) as Hel.
    { rewrite (reverse_snoc_inv _ _ _ Hrev). set_solver. }
    apply (ok_order c Hc) in Hel as [e He].
    destruct (abs_tail c el e t Hc Hrev He) as [Habs Hrev'].
    destruct (removeLocked_ok c el e Hc He) as [Hc' _].
    destruct (IH _ Hc' Hrev') as (Hok & Hab & Hmax).
    assert ((removeLocked el c).(c_maxBytes) = c.(c_maxBytes)) as Hm by (unfold removeLocked; by rewrite He).
    rewrite Hm in *. split; [done|]. split; [|done]. rewrite Hab, Habs. symmetry. apply lru_fit_snoc.
    rewrite <- Habs, <- (ok_cur c Hc). done.
Qed.

Lemma evictLocked_spec c :
  cache_ok c ->
  cache_ok (evictLocked c) /\ abs (evictLocked c) = lru_fit c.(c_maxBytes) (abs c) /\
  (evictLocked c).(c_maxBytes) = c.(c_maxBytes).
Proof. intros Hc. by apply evict_loop_spec. Qed.

Lemma items_entry c key el :
  cache_ok c -> c.(c_items) !! HashHex key = Some el ->
  exists e, c.(c_heap) !! el = Some e /\ Hash e.(ce_key) = Hash key.
Proof.
  intros Hc Hit. apply (ok_items c Hc) in Hit as (e & He & Hh). exists e. split; [done|]. by apply hex_encode_inj.
Qed.

Lemma items_absent c key : cache_ok c -> c.(c_items) !! HashHex key = None -> Hash key ∉ (abs c).*1.
Proof.
  intros Hc Hit ([h d] & Hh & Hin)%list_elem_of_fmap. cbn in Hh. subst h.
  apply entry_elem in Hin as (el & e & _ & He & [= Hh _]).
  assert (c.(c_items) !! HashHex key = Some el) as Hsome; [|congruence].
  apply (ok_items c Hc). exists e. split; [done|]. unfold HashHex. by rewrite Hh.
Qed.

(** An entry whose data is replaced and that becomes the most recent. *)
Definition touched (c : cache) (el : element) (e : cacheEntry) (data : bytes) : cache :=
  mkCache (<[el := mkEntry e.(ce_key) data]> c.(c_heap)) c.(c_next) c.(c_items) (move_to_front el c.(c_order))
    (c.(c_curBytes) + (size_of data - size_of e.(ce_data))) c.(c_maxBytes).

Lemma touched_ok c el e data :
  cache_ok c -> c.(c_heap) !! el = Some e ->
  cache_ok (touched c el e data) /\
  abs (touched c el e data) = (Hash e.(ce_key), data) :: lru_drop (Hash e.(ce_key)) (abs c).
Proof.
  intros Hc He.
  assert (abs (touched c el e data) = (Hash e.(ce_key), data) :: lru_drop (Hash e.(ce_key)) (abs c)) as Habs.
  { unfold abs, touched, move_to_front. cbn [c_heap c_order omap list_omap]. unfold entry_of at 1.
    rewrite lookup_insert_eq. cbn. f_equal. rewrite <- (omap_drop c.(c_heap) c.(c_order) el e He).
    - apply omap_ext_heap. intros x [Hx _]%list_remove_elem. by rewrite lookup_insert_ne by congruence.
    - intros el' e' _ He' Hh. by eapply ok_unique. }
  split; [|done]. pose proof Hc as [Hnd Hord Hit Hnx Hcur Hmax].
  assert (forall x, is_Some (<[el := mkEntry e.(ce_key) data]> c.(c_heap) !! x) <-> is_Some (c.(c_heap) !! x)) as Hdom.
  { intros x. rewrite lookup_insert_is_Some'. split; [intros [->|]; eauto|auto]. }
  split; cbn [c_order c_heap c_items c_next c_curBytes c_maxBytes touched].
  - constructor; [|by apply NoDup_filter]. by intros [? _]%list_remove_elem.
  - intros x. rewrite Hdom, <- Hord. unfold move_to_front. rewrite elem_of_cons, (list_remove_elem el x).
    destruct (decide (x = el)) as [->|]; [|naive_solver]. split; [intros _; apply Hord; eauto|auto].
  - intros mh x. rewrite Hit. destruct (decide (x = el)) as [->|Hne].
    + rewrite lookup_insert_eq, He. naive_solver.
    + by rewrite lookup_insert_ne.
  - intros x Hx. apply Hnx. by apply Hdom.
  - rewrite Habs, Hcur. cbn. fold (lru_size (lru_drop (Hash e.(ce_key)) (abs c))).
    rewrite (lru_size_drop (abs c) (Hash e.(ce_key)) e.(ce_data)); [unfold size_of; lia|by apply abs_nodup|].
    apply entry_elem. exists el, e. split; [|done]. apply Hord. eauto.
  - done.
Qed.

Definition added (c : cache) (key : cid) (data : bytes) : cache :=
  mkCache (<[c.(c_next) := mkEntry key data]> c.(c_heap)) (S c.(c_next)) (<[HashHex key := c.(c_next)]> c.(c_items))
    (c.(c_next) :: c.(c_order)) (c.(c_curBytes) + size_of data) c.(c_maxBytes).

Lemma added_ok c key data :
  cache_ok c -> c.(c_items) !! HashHex key = None ->
  cache_ok (added c key data) /\ abs (added c key data) = (Hash key, data) :: lru_drop (Hash key) (abs c).
Proof.
  intros Hc Hnone. pose proof Hc as [Hnd Hord Hit Hnx Hcur Hmax].
  assert (c.(c_heap) !! c.(c_next) = None) as Hfresh.
  { destruct (c.(c_heap) !! c.(c_next)) eqn:Hn; [|done]. pose proof (Hnx c.(c_next)). rewrite Hn in *.
    specialize (H ltac:(eauto)). lia. }
  assert (abs (added c key data) = (Hash key, data) :: abs c) as Habs.
  { unfold abs, added. cbn [c_heap c_order omap list_omap]. unfold entry_of at 1. rewrite lookup_insert_eq. cbn.
    f_equal. apply omap_ext_heap. intros x Hx. rewrite lookup_insert_ne; [done|]. intros <-.
    apply Hord in Hx. rewrite Hfresh in Hx. by destruct Hx. }
  rewrite lru_drop_absent by (by apply items_absent). split; [|done].
  split; cbn [c_order c_heap c_items c_next c_curBytes c_maxBytes added].
  - constructor; [|done]. intros Hin. apply Hord in Hin. rewrite Hfresh in Hin. by destruct Hin.
  - intros x. rewrite elem_of_cons, Hord, lookup_insert_is_Some'. naive_solver.
  - intros mh x. rewrite lookup_insert_Some, Hit. split.
    + intros [[<- <-]|[Hne (e & He & Hh)]].
      * exists (mkEntry key data). by rewrite lookup_insert_eq.
      * exists e. split; [|done]. rewrite lookup_insert_ne; [done|]. intros <-. congruence.
    + intros (e & He & Hh). apply lookup_insert_Some in He as [[<- <-]|[Hne He]]; [by left|].
      right. split; [|eauto]. intros <-. rewrite (proj2 (Hit (HashHex key) x)) in Hnone by eauto. done.
  - intros x Hx. apply lookup_insert_is_Some' in Hx as [<-|Hx]; [lia|]. apply Hnx in Hx. lia.
  - rewrite Habs, Hcur. cbn. fold (lru_size (abs c)). unfold size_of. lia.
  - done.
Qed.

Lemma cache_put_spec c key data :
  cache_ok c ->
  cache_ok (cache_put key data c) /\ (cache_put key data c).(c_maxBytes) = c.(c_maxBytes) /\
  abs (cache_put key data c) = lru_put c.(c_maxBytes) (Hash key) data (abs c).
Proof.
  intros Hc. unfold cache_put, lru_put. destruct (_ <? _); [done|].
  destruct (c.(c_items) !! HashHex key) as [el|] eqn:Hit.
  - destruct (items_entry c key el Hc Hit) as (e & He & Hh). rewrite He. fold (touched c el e data).
    destruct (touched_ok c el e data Hc He) as [Hok Habs]. destruct (evictLocked_spec _ Hok) as (? & -> & ->).
    rewrite Habs, Hh. done.
  - fold (added c key data). destruct (added_ok c key data Hc Hit) as [Hok Habs].
    destruct (evictLocked_spec _ Hok) as (? & -> & ->). by rewrite Habs.
Qed.

Lemma lru_find_elem h d (l : lru) : NoDup l.*1 -> (h, d) ∈ l -> lru_find h l = Some d.
Proof.
  unfold lru_find. induction l as [|[h' d'] l IH]; intros Hnd Hin; [by apply elem_of_nil in Hin|].
  cbn in Hnd. apply NoDup_cons in Hnd as [Hnot Hnd]. rewrite filter_cons. cbn [fst].
  apply elem_of_cons in Hin as [[= -> ->]|Hin]; [by rewrite decide_True|].
  rewrite decide_False; [auto|]. intros ->. apply Hnot, list_elem_of_fmap. by exists (h, d).
Qed.

Lemma lru_find_none h (l : lru) : h ∉ l.*1 -> lru_find h l = None.
Proof.
  unfold lru_find. intros Hh. destruct (filter _ l) as [|[h' d] l'] eqn:Hf; [done|].
  assert ((h', d) ∈ filter (fun e : bytes * bytes => e.1 = h) l) as Hin by (rewrite Hf; apply list_elem_of_here).
  apply list_elem_of_filter in Hin as [<- Hin]. destruct Hh. apply list_elem_of_fmap. by exists (h', d).
Qed.

Lemma lru_find_Some h d (l : lru) : lru_find h l = Some d -> (h, d) ∈ l.
Proof.
  unfold lru_find. destruct (filter _ l) as [|[h' d'] l'] eqn:Hf; [done|]. intros [= <-].
  assert ((h', d') ∈ filter (fun e : bytes * bytes => e.1 = h) l) as Hin by (rewrite Hf; apply list_elem_of_here).
  by apply list_elem_of_filter in Hin as [<- Hin].
Qed.

Lemma items_find c key el e :
  cache_ok c -> c.(c_items) !! HashHex key = Some el -> c.(c_heap) !! el = Some e ->
  Hash e.(ce_key) = Hash key -> lru_find (Hash key) (abs c) = Some e.(ce_data).
Proof.
  intros Hc Hit He Hh. apply lru_find_elem; [by apply abs_nodup|]. rewrite <- Hh. apply entry_elem.
  exists el, e. split; [|done]. apply (ok_order c Hc). eauto.
Qed.

Lemma cache_get_spec c key :
  cache_ok c ->
  match cache_get key c with
  | Some (d, c') => cache_ok c' /\ c'.(c_maxBytes) = c.(c_maxBytes) /\ lru_get (Hash key) (abs c) = Some (d, abs c')
  | None => lru_get (Hash key) (abs c) = None
  end.
Proof.
  intros Hc. unfold cache_get, lru_get. destruct (c.(c_items) !! HashHex key) as [el|] eqn:Hit.
  - destruct (items_entry c key el Hc Hit) as (e & He & Hh). rewrite He.
    rewrite (items_find c key el e Hc Hit He Hh). cbn [mbind option_bind].
    destruct (touched_ok c el e e.(ce_data) Hc He) as [Hok Habs]. unfold touched in Hok, Habs.
    replace (mkEntry e.(ce_key) e.(ce_data)) with e in Hok, Habs by (by destruct e).
    rewrite insert_id in Hok, Habs by done. rewrite Z.sub_diag, Z.add_0_r in Hok, Habs.
    rewrite Habs, Hh. done.
  - by rewrite lru_find_none by (by apply items_absent).
Qed.

Lemma evict_spec c key :
  cache_ok c ->
  cache_ok (evict key c) /\ (evict key c).(c_maxBytes) = c.(c_maxBytes) /\
  abs (evict key c) = lru_drop (Hash key) (abs c).
Proof.
  intros Hc. unfold evict. destruct (c.(c_items) !! HashHex key) as [el|] eqn:Hit.
  - destruct (items_entry c key el Hc Hit) as (e & He & Hh).
    destruct (removeLocked_ok c el e Hc He) as [Hok ->]. rewrite Hh. split; [done|]. split; [|done].
    unfold removeLocked. by rewrite He.
  - by rewrite lru_drop_absent by (by apply items_absent).
Qed.

Lemma cache_has_spec c key : cache_ok c -> cache_has key c = bool_decide (is_Some (lru_find (Hash key) (abs c))).
Proof.
  intros Hc. unfold cache_has. apply bool_decide_ext. destruct (c.(c_items) !! HashHex key) as [el|] eqn:Hit.
  - destruct (items_entry c key el Hc Hit) as (e & He & Hh). rewrite (items_find c key el e); eauto.
    by split; eauto.
  - by rewrite lru_find_none by (by apply items_absent).
Qed.

(** ** Runs of the cache *)

Inductive cop :=
  | CPut (key : cid) (data : bytes)
  | CGet (key : cid)
  | CHas (key : cid)
  | CEvict (key : cid).

(** One operation of the cache: what a get finds, or whether the block is there. *)
Definition cache_op (o : cop) (c : cache) : (option bytes + bool) * cache :=
  match o with
  | CPut key data => (inr true, cache_put key data c)
  | CGet key => match cache_get key c with Some (d, c') => (inl (Some d), c') | None => (inl None, c) end
  | CHas key => (inr (cache_has key c), c)
  | CEvict key => (inr true, evict key c)
  end.

Definition lru_op (max : Z) (o : cop) (l : lru) : (option bytes + bool) * lru :=
  match o with
  | CPut key data => (inr true, lru_put max (Hash key) data l)
  | CGet key => match lru_get (Hash key) l with Some (d, l') => (inl (Some d), l') | None => (inl None, l) end
  | CHas key => (inr (bool_decide (is_Some (lru_find (Hash key) l))), l)
  | CEvict key => (inr true, lru_drop (Hash key) l)
  end.

Fixpoint run_ops {A} (f : cop -> A -> (option bytes + bool) * A) (os : list cop) (a : A)
    : list (option bytes + bool) * A :=
  match os with
  | [] => ([], a)
  | o :: os' => let '(r, a') := f o a in let '(rs, a'') := run_ops f os' a' in (r :: rs, a'')
  end.

Lemma cache_op_spec o c :
  cache_ok c -> lru_size (abs c) <= c.(c_maxBytes) ->
  let '(r, c') := cache_op o c in
  cache_ok c' /\ c'.(c_maxBytes) = c.(c_maxBytes) /\ lru_size (abs c') <= c.(c_maxBytes) /\
  lru_op c.(c_maxBytes) o (abs c) = (r, abs c').
Proof.
  intros Hc Hsz. pose proof (ok_max c Hc). destruct o as [key data|key|key|key]; cbn [cache_op lru_op].
  - destruct (cache_put_spec c key data Hc) as (Hok & Hm & Habs). rewrite Habs. split_and!; [done..| |done].
    unfold lru_put. destruct (_ <? _); [done|]. by apply lru_fit_size.
  - pose proof (cache_get_spec c key Hc) as Hg. destruct (cache_get key c) as [[d c']|].
    + destruct Hg as (Hok & Hm & Hg). rewrite Hg. split_and!; [done..| |done].
      unfold lru_get in Hg. destruct (lru_find (Hash key) (abs c)) as [d'|] eqn:Hf; [|done].
      cbn in Hg. injection Hg as -> <-. cbn. fold (lru_size (lru_drop (Hash key) (abs c))).
      rewrite <- (lru_size_drop (abs c) (Hash key) d); [done|by apply abs_nodup|by apply lru_find_Some].
    + by rewrite Hg.
  - by rewrite cache_has_spec.
  - destruct (evict_spec c key Hc) as (Hok & Hm & Habs). rewrite Habs. split_and!; [done..| |done].
    destruct (lru_find (Hash key) (abs c)) as [d|] eqn:Hf.
    + rewrite (lru_size_drop (abs c) (Hash key) d) in Hsz; [unfold size_of in Hsz; lia|by apply abs_nodup|by apply lru_find_Some].
    + rewrite lru_drop_absent; [done|]. intros ([h d] & Heq & Hin)%list_elem_of_fmap. cbn in Heq. subst h.
      rewrite (lru_find_elem (Hash key) d) in Hf; [done|by apply abs_nodup|done].
Qed.

Lemma run_ops_spec os c :
  cache_ok c -> lru_size (abs c) <= c.(c_maxBytes) ->
  let '(rs, c') := run_ops cache_op os c in
  run_ops (lru_op c.(c_maxBytes)) os (abs c) = (rs, abs c') /\
  c'.(c_curBytes) = lru_size (abs c') /\ c'.(c_curBytes) <= c.(c_maxBytes).
Proof.
  revert c. induction os as [|o os IH]; intros c Hc Hsz; cbn [run_ops].
  { rewrite (ok_cur c Hc). done. }
  pose proof (cache_op_spec o c Hc Hsz) as Ho. destruct (cache_op o c) as [r c1].
  destruct Ho as (Hok & Hm & Hs & ->). rewrite <- Hm in Hs. specialize (IH c1 Hok Hs). rewrite Hm in IH.
  destruct (run_ops cache_op os c1) as [rs c2]. destruct IH as (-> & ? & ?). done.
Qed.

(** C11: The cache is a least-recently-used cache. From a new cache, any sequence of puts, gets,
    membership tests and evictions gives the answers of a plain list kept most recent
    first, cut after every put to the recent entries that fit the limit; the linked list,
    the map and the byte counter hold exactly that list, and the bytes held never exceed the
    limit. *)
Theorem lru_refinement (maxBytes : Z) (os : list cop) :
  let c := newCache maxBytes in
  let '(rs, c') := run_ops cache_op os c in
  run_ops (lru_op c.(c_maxBytes)) os [] = (rs, abs c') /\
  c'.(c_curBytes) = lru_size (abs c') /\ c'.(c_curBytes) <= c.(c_maxBytes).
Proof. apply (run_ops_spec os (newCache maxBytes)); [apply newCache_ok|]. apply (ok_max _ (newCache_ok maxBytes)). Qed.

End Lru.

(** ** A store behind the cache *)

Section CachedLaws.
Context `{HD : StoreDeps} `{HA : Addressing} {S : Type} `{HB : !BlockStore S} `{HS : !BlockStoreLaws S}.

Implicit Types cs : cachedBlockStore S.

(** What the cache holds is what the store holds. *)
Definition coherent (m : gmap bytes bytes) (c : cache) : Prop :=
  cache_ok c /\ forall h d, (h, d) ∈ abs c -> m !! h = Some d.

Definition all_addressed (m : gmap bytes bytes) : Prop := forall h d, m !! h = Some d -> addressed h d.

Definition cached_ok (cs : cachedBlockStore S) : Prop :=
  st_ok cs.(cs_inner) /\ all_addressed (contents cs.(cs_inner)) /\
  coherent (contents cs.(cs_inner)) cs.(cs_cache).

Lemma coherent_put m c key data :
  coherent m c -> m !! Hash key = Some data -> coherent m (cache_put key data c).
Proof.
  intros [Hc Hm] Hd. destruct (cache_put_spec c key data Hc) as (Hok & _ & Habs). split; [done|].
  intros h d Hin. rewrite Habs in Hin. unfold lru_put in Hin. destruct (_ <? _); [by apply Hm|].
  apply lru_fit_elem in Hin.
  apply elem_of_cons in Hin as [[= -> ->]|Hin]; [done|]. unfold lru_drop in Hin.
  apply list_elem_of_filter in Hin as [_ Hin]. by apply Hm.
Qed.

Lemma coherent_get m c key d c' :
  coherent m c -> cache_get key c = Some (d, c') -> coherent m c' /\ m !! Hash key = Some d.
Proof.
  intros [Hc Hm] Hg. pose proof (cache_get_spec c key Hc) as Hs. rewrite Hg in Hs.
  destruct Hs as (Hok & _ & Hl). unfold lru_get in Hl.
  destruct (lru_find (Hash key) (abs c)) as [d'|] eqn:Hf; [|done]. cbn in Hl. injection Hl as -> Habs.
  apply lru_find_Some in Hf. split; [|by apply Hm]. split; [done|]. intros h e Hin. rewrite <- Habs in Hin.
  apply elem_of_cons in Hin as [[= -> ->]|Hin]; [by apply Hm|]. unfold lru_drop in Hin.
  apply list_elem_of_filter in Hin as [_ Hin]. by apply Hm.
Qed.

Lemma coherent_evict m c key :
  coherent m c -> coherent m (evict key c) /\ coherent (delete (Hash key) m) (evict key c).
Proof.
  intros [Hc Hm]. destruct (evict_spec c key Hc) as (Hok & _ & Habs).
  assert (forall h d, (h, d) ∈ abs (evict key c) -> h <> Hash key /\ m !! h = Some d) as Hin.
  { intros h d Hin. rewrite Habs in Hin. unfold lru_drop in Hin. apply list_elem_of_filter in Hin as [Hne Hin].
    auto. }
  split; split; try done; intros h d Hd; apply Hin in Hd as [Hne Hd]; [done|]. by rewrite lookup_delete_ne.
Qed.

Lemma coherent_insert m c h d : coherent m c -> coherent (insert_new h d m) c.
Proof.
  intros [Hc Hm]. split; [done|]. intros h' d' Hin. apply Hm in Hin. unfold insert_new.
  destruct (m !! h) eqn:Hh; [done|]. rewrite lookup_insert_ne; [done|]. congruence.
Qed.

Lemma addressed_insert m h d : all_addressed m -> addressed h d -> all_addressed (insert_new h d m).
Proof.
  intros Hm Hd h' d'. unfold insert_new. destruct (m !! h); [apply Hm|].
  intros [[<- <-]|[_ Hh]]%lookup_insert_Some; [done|by apply Hm].
Qed.

(** What a put leaves at its key is the data put. *)
Lemma insert_new_data m h d : all_addressed m -> addressed h d -> insert_new h d m !! h = Some d.
Proof.
  intros Hm Hd. unfold insert_new. destruct (m !! h) as [d'|] eqn:Hh; [|by rewrite lookup_insert_eq].
  rewrite Hh. f_equal. eapply addressed_fun; [by apply Hm|done].
Qed.

Lemma cached_Put_law c d m :
  addressed (Hash c) d -> has_room d m ->
  triple (fun cs => cached_ok cs /\ contents cs.(cs_inner) = m) (cached_Put c d)
    (fun _ cs => cached_ok cs /\ contents cs.(cs_inner) = insert_new (Hash c) d m)
    (fun cs => cached_ok cs /\ contents cs.(cs_inner) = m).
Proof.
  intros Ha Hr [s ca] [(Hs & Had & Hco) Hm]. cbn in *. subst m.
  unfold cached_Put, mbind, M_bind, m_bind, cs_lift. cbn.
  pose proof (st_Put_law c d (contents s) Ha Hr s (conj Hs eq_refl)) as Hp.
  destruct (st_Put c d s) as [s' [[]|e]]; destruct Hp as [Hs' Hc']; cbn; unfold cached_ok; cbn; rewrite Hc'.
  - split; [|done]. split; [done|]. split; [by apply addressed_insert|].
    apply coherent_put; [by apply coherent_insert|by apply insert_new_data].
  - done.
Qed.

Lemma cached_Get_law c m :
  triple (fun cs => cached_ok cs /\ contents cs.(cs_inner) = m) (cached_Get c)
    (fun d cs => (cached_ok cs /\ contents cs.(cs_inner) = m) /\ m !! Hash c = Some d)
    (fun cs => (cached_ok cs /\ contents cs.(cs_inner) = m) /\ m !! Hash c = None).
Proof.
  intros [s ca] [(Hs & Had & Hco) Hm]. cbn in *. subst m.
  unfold cached_Get, mbind, M_bind, m_bind, cs_lift. cbn.
  destruct (cache_get c ca) as [[d ca']|] eqn:Hg; cbn.
  { destruct (coherent_get _ _ _ _ _ Hco Hg). unfold cached_ok. done. }
  pose proof (st_Get_law c (contents s) s (conj Hs eq_refl)) as Hp.
  destruct (st_Get c s) as [s' [d|e]]; destruct Hp as [[Hs' Hc'] Hd]; cbn; unfold cached_ok; cbn; rewrite Hc'.
  - split; [|done]. split; [|done]. split; [done|]. split; [done|]. by apply coherent_put.
  - done.
Qed.

Lemma cached_Delete_law c m :
  triple (fun cs => cached_ok cs /\ contents cs.(cs_inner) = m) (cached_Delete c)
    (fun _ cs => cached_ok cs /\ contents cs.(cs_inner) = delete (Hash c) m)
    (fun cs => cached_ok cs /\ contents cs.(cs_inner) = m).
Proof.
  intros [s ca] [(Hs & Had & Hco) Hm]. cbn in *. subst m.
  unfold cached_Delete, mbind, M_bind, m_bind, cs_lift. cbn.
  destruct (coherent_evict _ _ c Hco) as [Hco1 Hco2].
  pose proof (st_Delete_law c (contents s) s (conj Hs eq_refl)) as Hp.
  destruct (st_Delete c s) as [s' [[]|e]]; destruct Hp as [Hs' Hc']; cbn; unfold cached_ok; cbn; rewrite Hc'.
  - split; [|done]. split; [done|]. split; [|done]. intros h d [_ Hh]%lookup_delete_Some. by apply Had.
  - done.
Qed.

Lemma cached_Has_law c m :
  succeeds (fun cs => cached_ok cs /\ contents cs.(cs_inner) = m) (cached_Has c)
    (fun b cs => (cached_ok cs /\ contents cs.(cs_inner) = m) /\ b = bool_decide (is_Some (m !! Hash c))).
Proof.
  intros [s ca] [(Hs & Had & Hco) Hm]. cbn in *. subst m.
  unfold cached_Has, mbind, M_bind, m_bind, cs_lift. cbn. rewrite cache_has_spec by apply Hco.
  case_bool_decide as Hfind; cbn.
  - destruct Hfind as [d Hd]. apply lru_find_Some, Hco in Hd. split; [done|]. by rewrite bool_decide_true by eauto.
  - pose proof (st_Has_law c (contents s) s (conj Hs eq_refl)) as Hp.
    destruct (st_Has c s) as [s' [b|e]]; [|done]. destruct Hp as [[Hs' Hc'] ->]. unfold cached_ok. cbn.
    by rewrite Hc'.
Qed.

#[export] Program Instance cachedBlockStore_laws : BlockStoreLaws (cachedBlockStore S) := {|
  st_ok := cached_ok; contents := fun cs => contents cs.(cs_inner) |}.
Next Obligation. intros c d m Ha Hr. by apply cached_Put_law. Qed.
Next Obligation. intros c m. apply cached_Get_law. Qed.
Next Obligation. intros c m. apply cached_Delete_law. Qed.
Next Obligation. intros c m. apply cached_Has_law. Qed.
Next Obligation.
  intros m [s ca] [(Hs & Had & Hco) Hm]. cbn in *. subst m. unfold cached_AllKeysChan, cs_lift. cbn.
  pose proof (st_AllKeys_law (contents s) s (conj Hs eq_refl)) as Hp.
  destruct (st_AllKeys s) as [s' [l|e]]; [|done]. destruct Hp as [[Hs' Hc'] Hl]. unfold cached_ok. cbn.
  by rewrite Hc'.
Qed.

(** The cache leaves the limit of the store and its refusals as they are. *)
#[export] Program Instance cachedBlockStore_limit `{HLim : !StoreLimit S} : StoreLimit (cachedBlockStore S) := {|
  st_limit := fun cs => st_limit cs.(cs_inner) |}.
Next Obligation.
  intros HLim o [s ca]. pose proof (st_limit_kept o s) as Hk. destruct o as [c d|c|c|c|]; cbn [run_bop] in *;
    cbn [st_Put st_Get st_Delete st_Has st_AllKeys cachedBlockStore_ops];
    unfold cached_Put, cached_Get, cached_Delete, cached_Has, cached_AllKeysChan, mbind, M_bind, m_bind, cs_lift; cbn.
  - by destruct (st_Put c d s) as [s' [[]|e]].
  - destruct (cache_get c ca) as [[d ca']|]; [done|]. cbn. by destruct (st_Get c s) as [s' [d|e]].
  - by destruct (st_Delete c s) as [s' [[]|e]].
  - destruct (cache_has c ca); [done|]. cbn. by destruct (st_Has c s) as [s' [b|e]].
  - by destruct (st_AllKeys s) as [s' [l|e]].
Qed.
Next Obligation.
  intros HLim c d [s ca] (Hs & _) Ha Hr. cbn in *. unfold cached_Put, mbind, M_bind, m_bind, cs_lift. cbn.
  pose proof (st_Put_exact c d s Hs Ha Hr) as He. by destruct (st_Put c d s) as [s' [[]|e]].
Qed.
Next Obligation.
  intros HLim c [s ca] (Hs & _). cbn in *. unfold cached_Delete, mbind, M_bind, m_bind, cs_lift. cbn.
  pose proof (st_Delete_exact c s Hs) as He. by destruct (st_Delete c s) as [s' r].
Qed.

End CachedLaws.

(** ** The layers together *)

Section Layers.
Context `{HD : StoreDeps} `{HL : !StoreLaws} `{HA : Addressing}.

(** C12: the layers of a block store are transparent. A cache over a quota over the disk store,
    whatever is on the disk within the limit and in any sequence of operations, answers exactly like a
    map from multihashes to data under that limit, which starts with what is on the disk: a get
    returns the map's data and fails only if there is none, a put fails only if the block is new and
    would exceed the limit given what is stored at that moment, a deletion does not fail and gives its
    bytes back. So under a limit the blocks never exceed it. The data put is that of its identifier,
    and sums of sizes stay below 2^63. *)
Theorem layered_store_refines_map (b : bstore) (limit cacheMax : Z) :
  all_addressed (bs_view b) -> total (bs_view b) < 2 ^ 63 -> (0 < limit -> total (bs_view b) <= limit) ->
  exists q, newQuotaBlockStore b limit = Ok q /\
    forall os, bops_ok os (newCachedBlockStore q cacheMax) ->
      let '(s, t) := run_bops os (newCachedBlockStore q cacheMax) in
      map_trace limit (bs_view b) t (contents s) /\ (0 < limit -> total (contents s) <= limit).
Proof.
  intros Had Ht Hlim. destruct (newQuota_ok b limit) as (q & Hq & Hok & Hc & Hmax); [done..|].
  exists q. split; [done|]. intros os Hos. cbn in Hc.
  assert (st_ok (newCachedBlockStore q cacheMax)) as Hst.
  { split; [done|]. split; [cbn; by rewrite Hc|]. split; [apply newCache_ok|]. by intros h d ?%elem_of_nil. }
  pose proof (run_bops_refines os (newCachedBlockStore q cacheMax) Hst Hos) as Hr.
  destruct (run_bops os (newCachedBlockStore q cacheMax)) as [s t]. destruct Hr as (Hs & Hm & Htr).
  cbn in Htr, Hm. rewrite Hmax, Hc in Htr. split; [done|]. intros Hl.
  destruct Hs as ((_ & Hu & _ & Hle) & _). rewrite Hm, Hmax in Hle. rewrite Hu in Hle. auto.
Qed.

End Layers.

Module LayersExample.
Import MemStore.

#[local] Instance identity_addressing : Addressing := {|
  addressed := eq; addressed_fun := fun h d d' H1 H2 => eq_trans (eq_sym H1) H2 |}.

Definition d1 : bytes := [x01; x02; x03].
Definition d2 : bytes := [x04; x05].
Definition b1 : @cid deps := (true, d1).
Definition b2 : @cid deps := (true, d2).

(** Under a limit of four bytes the second put fails; a deletion is seen by the next get. *)
Definition ops : list (@bop deps) :=
  [BPut b1 d1; BPut b2 d2; BGet b1; BGet b2; BDelete b1; BGet b1; BPut b2 d2; BHas b2].

Definition q0 : quotaBlockStore (@bstore deps) := mkQuota (∅ : gmap bytes bytes) 4 0.

Lemma q0_new : newQuotaBlockStore (S := @bstore deps) (∅ : gmap bytes bytes) 4 = Ok q0.
Proof. reflexivity. Qed.

Lemma layered_store_refines_map_witness :
  newQuotaBlockStore (S := @bstore deps) (∅ : gmap bytes bytes) 4 = Ok q0 /\
  (run_bops ops (newCachedBlockStore q0 0)).2.*2 =
    [ODone; OFail; OData d1; OFail; ODone; OFail; ODone; OBool true] /\
  map_trace 4 ∅ (run_bops ops (newCachedBlockStore q0 0)).2 (contents (run_bops ops (newCachedBlockStore q0 0)).1) /\
  total (contents (run_bops ops (newCachedBlockStore q0 0)).1) <= 4.
Proof.
  split; [exact q0_new|]. split; [vm_compute; reflexivity|].
  destruct (layered_store_refines_map (HD := deps) (∅ : gmap bytes bytes) 4 0) as (q & Hq & Hrun).
  - intros h d Hd. discriminate Hd.
  - reflexivity.
  - intros _. vm_compute. discriminate.
  - injection (eq_trans (eq_sym Hq) q0_new) as ->.
    specialize (Hrun ops). cbn [bops_ok ops bop_ok] in Hrun.
    destruct (run_bops ops (newCachedBlockStore q0 0)) as [s t] eqn:Hr.
    destruct Hrun as [Htr Hle]; [|split; [exact Htr|by apply Hle]].
    split_and!; done || (vm_compute; done).
Defined.

End LayersExample.

