(* ===== verification/Roots.v ===== *)
(** * The registry of roots (src/store/roots.go)

    The user's tracked contents: a record per root in a datastore, with an index from CIDs and
    one from names. [Root], the operations of [RootRegistry] and the escaping of names in
    keys are as in the source; UUIDs and the time are arguments. The registry refines a
    finite map from ids to roots in which no CID is tracked twice
    ([registry_refines_map]). *)

From stdpp Require Import base gmap list strings.
From Stdlib Require Import ZArith Lia Strings.Byte Ascii.
From S2P Require Import Prelude Hoare Hex TestCodec StoreKeys StoreDeps.

Set Default Goal Selector "!".
Local Open Scope Z_scope.

(** ** [url.PathEscape] *)

Definition ascii_between (lo hi : ascii) (c : ascii) : bool :=
  (N_of_ascii lo <=? N_of_ascii c)%N && (N_of_ascii c <=? N_of_ascii hi)%N.

(** [shouldEscape] for a path segment: letters, digits and these marks stay. *)
Definition path_keeps (c : ascii) : bool :=
  ascii_between "a" "z" c || ascii_between "A" "Z" c || ascii_between "0" "9" c ||
  existsb (Ascii.eqb c) ["-"; "_"; "."; "~"; "$"; "&"; "+"; ":"; "="; "@"]%char.

Definition upper_hex (n : N) : ascii :=
  if (n <? 10)%N then ascii_of_N (48 + n) else ascii_of_N (55 + n).

Fixpoint PathEscape (s : string) : string :=
  match s with
  | EmptyString => EmptyString
  | String c s' =>
      if path_keeps c then String c (PathEscape s')
      else String "%" (String (upper_hex (N_of_ascii c / 16)) (String (upper_hex (N_of_ascii c mod 16)) (PathEscape s')))
  end.

(** ** Slices of keys *)

(** [strings.TrimRight(s, "/")], and the last element of [strings.Split(s, "/")]. *)
Fixpoint trim_right (s : string) : string :=
  match s with
  | EmptyString => EmptyString
  | String c s' =>
      match trim_right s' with
      | EmptyString => if bool_decide (c = slash) then EmptyString else String c EmptyString
      | t => String c t
      end
  end.

Fixpoint last_part (s : string) : string :=
  if slash_free s then s
  else match s with EmptyString => EmptyString | String _ s' => last_part s' end.

(** ** The registry *)

Class RootDeps `{StoreDeps} := {
  cid_Bytes : cid -> bytes;
  cid_Cast : bytes -> result cid;
  (** CBOR of a [rootRecord]: id, name, CID bytes, path, nanoseconds. *)
  rootMarshal : string * string * bytes * string * Z -> result bytes;
  rootUnmarshal : bytes -> result (string * string * bytes * string * Z)
}.

Section Registry.
Context `{HD : StoreDeps} `{HR : !RootDeps}.

(** [AddedAt] is [None] for the zero time. *)
Record Root := mkRoot {
  rt_ID : string; rt_Name : string; rt_CID : cid; rt_Path : string; rt_AddedAt : option Z }.

Definition prefixRec : string := "/roots/rec/".
Definition prefixIdxCID : string := "/roots/idx/cid/".
Definition prefixIdxName : string := "/roots/idx/name/".

Definition recKey (id : string) : string := newKey (prefixRec +:+ id).
Definition cidIdxKey (cidStr id : string) : string := newKey (prefixIdxCID +:+ cidStr +:+ "/" +:+ id).
Definition nameIdxKey (name id : string) : string := newKey (prefixIdxName +:+ PathEscape name +:+ "/" +:+ id).

(** [time.Time{}.UnixNano()]. *)
Definition zeroTimeNanos : Z := -6795364578871345152.

Definition encodeRecord (r : Root) : result bytes :=
  rootMarshal (r.(rt_ID), r.(rt_Name), cid_Bytes r.(rt_CID), r.(rt_Path), default zeroTimeNanos r.(rt_AddedAt)).

Definition decodeRecord (data : bytes) : result Root :=
  match rootUnmarshal data with
  | Err e => Err e
  | Ok (id, name, cidBytes, path, addedAt) =>
      match cid_Cast cidBytes with
      | Err e => Err (errorf_w "invalid CID bytes: " e "")
      | Ok c => Ok (mkRoot id name c path (Some addedAt))
      end
  end.

Definition rgRead {A} (f : dstore -> result A) : M dstore A := fun d => (d, f d).

Definition GetByID (id : string) : M dstore (option Root) :=
  res ← m_try (rgRead (ds_Get (recKey id)));
  match res with
  | Err e => if errors_Is e ErrDatastoreNotFound then m_ret None else m_err e
  | Ok data => r ← m_lift (decodeRecord data); m_ret (Some r)
  end.

Fixpoint roots_of_keys (l : list (string * bytes)) : M dstore (list Root) :=
  match l with
  | [] => m_ret []
  | kv :: l' =>
      r ← GetByID (last_part (trim_right kv.1));
      rest ← roots_of_keys l';
      m_ret (match r with Some root => root :: rest | None => rest end)
  end.

Definition queryByIndexPrefix (prefix : string) : M dstore (list Root) :=
  l ← rgRead (ds_Query prefix);
  roots_of_keys l.

Definition GetByCID (c : cid) : M dstore (list Root) :=
  queryByIndexPrefix (prefixIdxCID +:+ cid_String c +:+ "/").

Definition GetByName (name : string) : M dstore (list Root) :=
  queryByIndexPrefix (prefixIdxName +:+ PathEscape name +:+ "/").

Definition List_ : M dstore (list Root) :=
  res ← m_try (rgRead (ds_Query prefixRec));
  m_ret (match res with
         | Err _ => []
         | Ok l => omap (fun kv => match decodeRecord kv.2 with Ok r => Some r | Err _ => None end) l
         end).

Definition rgCommit (ops : list (string * option bytes)) : M dstore unit :=
  _ ← rgRead ds_Batch;
  ds_Commit ops.

(** [Add]: the root, and whether it was tracked already ([ErrAlreadyTracked]). *)
Definition Add (now : Z) (uuid : string) (root : Root) : M dstore (Root * bool) :=
  existing ← GetByCID root.(rt_CID);
  match existing with
  | r :: _ => m_ret (r, true)
  | [] =>
      let root := mkRoot uuid root.(rt_Name) root.(rt_CID) root.(rt_Path)
                    (match root.(rt_AddedAt) with None => Some now | t => t end) in
      data ← m_lift (encodeRecord root);
      _ ← rgCommit [(recKey root.(rt_ID), Some data);
                    (cidIdxKey (cid_String root.(rt_CID)) root.(rt_ID), Some []);
                    (nameIdxKey root.(rt_Name) root.(rt_ID), Some [])];
      m_ret (root, false)
  end.

Definition errRootNotFound : error := mkError [ErrNotFound] "root not found".

Definition Remove (id : string) : M dstore unit :=
  res ← GetByID id;
  match res with
  | None => m_err errRootNotFound
  | Some root =>
      rgCommit [(recKey id, None); (cidIdxKey (cid_String root.(rt_CID)) id, None);
                (nameIdxKey root.(rt_Name) id, None)]
  end.

Definition Rename (id newName : string) : M dstore unit :=
  if bool_decide (newName = "") then m_err (errorf "name must not be empty")
  else
    res ← GetByID id;
    match res with
    | None => m_err errRootNotFound
    | Some root =>
        let renamed := mkRoot root.(rt_ID) newName root.(rt_CID) root.(rt_Path) root.(rt_AddedAt) in
        data ← m_lift (encodeRecord renamed);
        rgCommit [(recKey id, Some data); (nameIdxKey root.(rt_Name) id, None); (nameIdxKey newName id, Some [])]
    end.

End Registry.

(** [NameIno]: FNV-1a in 64 bits. *)
Fixpoint fnv1a (h : Z) (s : string) : Z :=
  match s with
  | EmptyString => h
  | String c s' => fnv1a (wrapU64 (Z.lxor h (Z.of_N (N_of_ascii c)) * 1099511628211)) s'
  end.

Definition NameIno (name : string) : Z := fnv1a 14695981039346656037 name.

(** ** Keys *)

Inductive rkey :=
  | KRec (id : seg)
  | KIdxCID (c id : seg)
  | KIdxName (n id : seg).

#[export] Instance rkey_eq_dec : EqDecision rkey.
Proof. solve_decision. Defined.

Definition rsegments (k : rkey) : list string :=
  match k with
  | KRec id => ["roots"; "rec"; seg_str id]
  | KIdxCID c id => ["roots"; "idx"; "cid"; seg_str c; seg_str id]
  | KIdxName n id => ["roots"; "idx"; "name"; seg_str n; seg_str id]
  end.

Definition rrender (k : rkey) : string := join (rsegments k).

Lemma rsegments_free k : Forall (fun s => slash_free s = true) (rsegments k).
Proof. destruct k; repeat constructor; auto using seg_slash_free. Qed.

Lemma rsegments_ok k : rsegments k <> [] /\ Forall (fun s => seg_ok s = true) (rsegments k).
Proof. destruct k; (split; [done|]); repeat constructor; auto using seg_wf. Qed.

#[export] Instance rrender_inj : Inj (=) (=) rrender.
Proof.
  intros a b H%join_inj; [|apply rsegments_free..]. destruct a, b; cbn in H; simplify_eq; same_segs; done.
Qed.

Lemma trim_right_free s : slash_free s = true -> trim_right s = s.
Proof.
  induction s as [|c s IH]; intros Hs; [done|]. cbn [slash_free trim_right] in *.
  apply andb_true_iff in Hs as [Hc Hs]. rewrite IH by done. destruct s; [|done].
  apply negb_true_iff in Hc. by rewrite Hc.
Qed.

Lemma trim_right_app a s : slash_free s = true -> s <> "" -> trim_right (a +:+ s) = a +:+ s.
Proof.
  intros Hs Hne. induction a as [|c a IH]; [by apply trim_right_free|].
  rewrite string_app_cons. cbn [trim_right]. rewrite IH. destruct (a +:+ s) eqn:E; [|done].
  destruct a; [by rewrite string_app_nil_l in E|by rewrite string_app_cons in E].
Qed.

Lemma last_part_app a s : slash_free s = true -> last_part (a +:+ String slash s) = s.
Proof.
  intros Hs. induction a as [|c a IH].
  - rewrite string_app_nil_l. cbn. destruct s; [done|]. cbn [last_part]. by rewrite Hs.
  - rewrite string_app_cons. cbn [last_part].
    assert (slash_free (String c (a +:+ String slash s)) = false) as ->; [|done].
    cbn [slash_free]. rewrite slash_free_app. cbn. by rewrite !andb_false_r.
Qed.

(** The id at the end of an index key. *)
Lemma last_part_join l (id : seg) : last_part (trim_right (join (l ++ [seg_str id]))) = seg_str id.
Proof.
  assert (exists a, join (l ++ [seg_str id]) = a +:+ String slash (seg_str id)) as [a ->].
  { induction l as [|s l [a IH]]; cbn [app join].
    - exists "". by rewrite string_app_nil_r, string_app_nil_l.
    - exists (String slash (s +:+ a)). rewrite IH. by rewrite string_app_cons, string_app_assoc. }
  pose proof (seg_slash_free id) as Hf.
  assert (seg_str id <> "") as Hne.
  { intros He. pose proof (seg_wf id) as Hw. rewrite He in Hw. done. }
  replace (a +:+ String slash (seg_str id)) with ((a +:+ "/") +:+ seg_str id)
    by (by rewrite string_app_assoc, string_app_cons, string_app_nil_l).
  rewrite trim_right_app by done.
  replace ((a +:+ "/") +:+ seg_str id) with (a +:+ String slash (seg_str id))
    by (by rewrite string_app_assoc, string_app_cons, string_app_nil_l).
  by apply last_part_app.
Qed.

(** The queries of the registry. *)
Lemma rprefix_join (l : list string) k :
  Forall (fun s => slash_free s = true) l ->
  (has_prefix (join l +:+ "/") (rrender k) = true <-> exists s r, rsegments k = l ++ s :: r).
Proof. intros Hl. apply join_prefix; [done|apply rsegments_free]. Qed.

Lemma query_rec k : has_prefix prefixRec (rrender k) = true <-> exists id, k = KRec id.
Proof.
  change prefixRec with (join ["roots"; "rec"] +:+ "/"). rewrite rprefix_join by (repeat constructor).
  split; [intros (s & r & H)|intros [id ->]; cbn; eauto]. destruct k; cbn in H; simplify_eq. eauto.
Qed.

Lemma query_cid (c : seg) k :
  has_prefix (prefixIdxCID +:+ seg_str c +:+ "/") (rrender k) = true <-> exists id, k = KIdxCID c id.
Proof.
  replace (prefixIdxCID +:+ seg_str c +:+ "/") with (join ["roots"; "idx"; "cid"; seg_str c] +:+ "/")
    by (unfold prefixIdxCID; cbn [join]; prefix_shape).
  rewrite rprefix_join by (repeat constructor; auto using seg_slash_free).
  split; [intros (s & r & H)|intros [id ->]; cbn; eauto]. destruct k; cbn in H; simplify_eq. same_segs. eauto.
Qed.

Lemma query_name (n : seg) k :
  has_prefix (prefixIdxName +:+ seg_str n +:+ "/") (rrender k) = true <-> exists id, k = KIdxName n id.
Proof.
  replace (prefixIdxName +:+ seg_str n +:+ "/") with (join ["roots"; "idx"; "name"; seg_str n] +:+ "/")
    by (unfold prefixIdxName; cbn [join]; prefix_shape).
  rewrite rprefix_join by (repeat constructor; auto using seg_slash_free).
  split; [intros (s & r & H)|intros [id ->]; cbn; eauto]. destruct k; cbn in H; simplify_eq. same_segs. eauto.
Qed.

(** ** Escaped names *)

Lemma upper_hex_val n : (n < 16)%N -> N_of_ascii (upper_hex n) = if (n <? 10)%N then (48 + n)%N else (55 + n)%N.
Proof. intros Hn. unfold upper_hex. destruct (N.ltb_spec n 10); apply N_ascii_embedding; lia. Qed.

Lemma upper_hex_inj a b : (a < 16)%N -> (b < 16)%N -> upper_hex a = upper_hex b -> a = b.
Proof.
  intros Ha Hb H. apply (f_equal N_of_ascii) in H. rewrite !upper_hex_val in H by done.
  destruct (N.ltb_spec a 10), (N.ltb_spec b 10); lia.
Qed.

Lemma nibbles_lt c : (N_of_ascii c / 16 < 16)%N /\ (N_of_ascii c mod 16 < 16)%N.
Proof.
  pose proof (N_ascii_bounded c). split; [apply N.Div0.div_lt_upper_bound; lia|apply N.mod_lt; lia].
Qed.

Lemma PathEscape_free s : slash_free (PathEscape s) = true.
Proof.
  induction s as [|c s IH]; [done|]. cbn [PathEscape]. destruct (path_keeps c) eqn:Hc; cbn [slash_free]; rewrite IH.
  - rewrite andb_true_r. apply negb_true_iff, bool_decide_eq_false. intros ->. done.
  - destruct (nibbles_lt c) as [H1 H2].
    assert (forall n, (n < 16)%N -> negb (bool_decide (upper_hex n = slash)) = true) as Hne.
    { intros n Hn. apply negb_true_iff, bool_decide_eq_false. intros H. apply (f_equal N_of_ascii) in H.
      rewrite upper_hex_val in H by done. change (N_of_ascii slash) with 47%N in H. destruct (N.ltb_spec n 10); lia. }
    by rewrite !Hne.
Qed.

#[export] Instance PathEscape_inj : Inj (=) (=) PathEscape.
Proof.
  intros a. induction a as [|c a IH]; intros [|d b]; cbn [PathEscape].
  - done.
  - by destruct (path_keeps d).
  - by destruct (path_keeps c).
  - destruct (path_keeps c) eqn:Hc, (path_keeps d) eqn:Hd.
    + intros [= -> H]. by rewrite (IH b H).
    + by intros [= -> _].
    + by intros [= <- _].
    + intros [= H1 H2 H3]. destruct (nibbles_lt c), (nibbles_lt d).
      apply upper_hex_inj in H1; [|done..]. apply upper_hex_inj in H2; [|done..].
      rewrite (IH b H3). f_equal. rewrite <- (ascii_N_embedding c), <- (ascii_N_embedding d). f_equal.
      rewrite (N.div_mod (N_of_ascii c) 16), (N.div_mod (N_of_ascii d) 16) by lia. by rewrite H1, H2.
Qed.

(** A name that is a proper path segment after escaping. *)
Definition name_ok (name : string) : Prop := name <> "" /\ name <> "." /\ name <> "..".

Lemma PathEscape_seg name : name_ok name -> seg_ok (PathEscape name) = true.
Proof.
  intros (H1 & H2 & H3). unfold seg_ok. rewrite PathEscape_free.
  assert (forall t, PathEscape t = t -> name <> t -> negb (bool_decide (PathEscape name = t)) = true) as Hne.
  { intros t Ht Hn. apply negb_true_iff, bool_decide_eq_false. intros H. apply Hn, (inj PathEscape). congruence. }
  by rewrite !Hne.
Qed.

(** ** The registry and its specification *)

Class RootLaws `{StoreLaws} `{!RootDeps} := {
  (** CBOR text strings hold UTF-8. *)
  valid_utf8 : string -> Prop;
  cid_Cast_Bytes c : cid_Defined c = true -> cid_Cast (cid_Bytes c) = Ok c;
  rootMarshal_ok id name cb path t : in_int64 t -> exists b, rootMarshal (id, name, cb, path, t) = Ok b;
  root_roundtrip id name cb path t b :
    valid_utf8 id -> valid_utf8 name -> valid_utf8 path ->
    rootMarshal (id, name, cb, path, t) = Ok b -> rootUnmarshal b = Ok (id, name, cb, path, t)
}.

Section Spec.
Context `{HL : StoreLaws} `{HR : !RootDeps} `{HRL : !RootLaws}.

Definition root_wf (id : seg) (r : Root) : Prop :=
  r.(rt_ID) = seg_str id /\ name_ok r.(rt_Name) /\ cid_Defined r.(rt_CID) = true /\
  (exists t, r.(rt_AddedAt) = Some t /\ in_int64 t) /\
  valid_utf8 (seg_str id) /\ valid_utf8 r.(rt_Name) /\ valid_utf8 r.(rt_Path).

(** What the datastore holds under a key for the roots [R]. *)
Definition expected (R : gmap seg Root) (k : rkey) : option bytes :=
  match k with
  | KRec id => r ← R !! id; match encodeRecord r with Ok b => Some b | Err _ => None end
  | KIdxCID c id => r ← R !! id; if decide (cid_String r.(rt_CID) = seg_str c) then Some [] else None
  | KIdxName n id => r ← R !! id; if decide (PathEscape r.(rt_Name) = seg_str n) then Some [] else None
  end.

Record represents (R : gmap seg Root) (d : dstore) : Prop := {
  rp_keys key v : ds_view d !! key = Some v -> exists k, key = rrender k;
  rp_view k : ds_view d !! rrender k = expected R k;
  rp_wf id r : R !! id = Some r -> root_wf id r;
  rp_unique id id' r r' : R !! id = Some r -> R !! id' = Some r' -> cid_String r.(rt_CID) = cid_String r'.(rt_CID) ->
    id = id'
}.

Lemma record_roundtrip id r : root_wf id r -> exists b, encodeRecord r = Ok b /\ decodeRecord b = Ok r.
Proof.
  intros (Hid & Hn & Hc & (t & Ht & Hr) & U1 & U2 & U3). unfold encodeRecord. rewrite Ht. cbn [default from_option].
  destruct (rootMarshal_ok r.(rt_ID) r.(rt_Name) (cid_Bytes r.(rt_CID)) r.(rt_Path) t Hr) as [b Hb].
  exists b. split; [done|]. unfold decodeRecord.
  rewrite (root_roundtrip r.(rt_ID) r.(rt_Name) (cid_Bytes r.(rt_CID)) r.(rt_Path) t b);
    [|by rewrite Hid|done|done|done]. rewrite cid_Cast_Bytes by done.
  destruct r. cbn in *. by subst.
Qed.

Lemma recKey_render (id : seg) : recKey (seg_str id) = rrender (KRec id).
Proof.
  unfold recKey. replace (prefixRec +:+ seg_str id) with (rrender (KRec id)).
  - apply newKey_join; apply rsegments_ok.
  - unfold rrender, prefixRec. cbn [rsegments join]. prefix_shape.
Qed.

Lemma cidIdxKey_render (c id : seg) : cidIdxKey (seg_str c) (seg_str id) = rrender (KIdxCID c id).
Proof.
  unfold cidIdxKey. replace (prefixIdxCID +:+ seg_str c +:+ "/" +:+ seg_str id) with (rrender (KIdxCID c id)).
  - apply newKey_join; apply rsegments_ok.
  - unfold rrender, prefixIdxCID. cbn [rsegments join]. prefix_shape.
Qed.

Lemma nameIdxKey_render name (n id : seg) :
  PathEscape name = seg_str n -> nameIdxKey name (seg_str id) = rrender (KIdxName n id).
Proof.
  intros Hn. unfold nameIdxKey. rewrite Hn.
  replace (prefixIdxName +:+ seg_str n +:+ "/" +:+ seg_str id) with (rrender (KIdxName n id)).
  - apply newKey_join; apply rsegments_ok.
  - unfold rrender, prefixIdxName. cbn [rsegments join]. prefix_shape.
Qed.

Lemma GetByID_spec R d (id : seg) : represents R d -> GetByID (seg_str id) d = (d, Ok (R !! id)).
Proof.
  intros Hrep. unfold GetByID, mbind, M_bind, m_bind, m_try, rgRead. rewrite recKey_render.
  pose proof (rp_view R d Hrep (KRec id)) as Hv. cbn [expected] in Hv.
  destruct (ds_Get (rrender (KRec id)) d) as [b|e] eqn:Hg.
  - apply ds_Get_view in Hg as Hg'. rewrite Hv in Hg'. destruct (R !! id) as [r|] eqn:Hr; [|done].
    cbn in Hg'. destruct (record_roundtrip id r (rp_wf R d Hrep id r Hr)) as (b' & Hb' & Hdec).
    rewrite Hb' in Hg'. injection Hg' as ->. unfold m_lift. by rewrite Hdec.
  - destruct (R !! id) as [r|] eqn:Hr.
    + exfalso. destruct (record_roundtrip id r (rp_wf R d Hrep id r Hr)) as (b' & Hb' & _).
      cbn [mbind option_bind] in Hv. rewrite Hb' in Hv. apply ds_Get_view in Hv. congruence.
    + cbn [mbind option_bind] in Hv. by rewrite (ds_Get_missing _ _ _ Hg Hv).
Qed.

(** ** Queries *)

Definition root_at (R : gmap seg Root) (key : string) : option Root :=
  id ← seg_of (last_part (trim_right key)); R !! id.

Lemma roots_of_keys_spec R d l :
  represents R d -> (forall kv, kv ∈ l -> exists id, last_part (trim_right kv.1) = seg_str id) ->
  roots_of_keys l d = (d, Ok (omap (fun kv => root_at R kv.1) l)).
Proof.
  intros Hrep. induction l as [|kv l IH]; intros Hl; cbn [roots_of_keys]; [done|].
  destruct (Hl kv) as [id Hid]; [apply list_elem_of_here|].
  erewrite run_bind; [|rewrite Hid; by apply (GetByID_spec R)].
  erewrite run_bind; [|apply IH; intros; by apply Hl, list_elem_of_further].
  cbn [omap list_omap].
  assert (root_at R kv.1 = R !! id) as -> by (unfold root_at; by rewrite Hid, seg_of_str).
  by destruct (R !! id).
Qed.

Section Query.
Context (R : gmap seg Root) (d : dstore) (Hrep : represents R d).
Context (prefix : string) (sel : seg -> rkey) (val : Root -> option bytes).
Context (Hsel : forall k, has_prefix prefix (rrender k) = true <-> exists id, k = sel id).
Context (Hinj : forall a b, sel a = sel b -> a = b).
Context (Hval : forall id, expected R (sel id) = R !! id ≫= val).

Definition entries (l : list (seg * Root)) : list (string * bytes) :=
  omap (fun ir => (fun b => (rrender (sel ir.1), b)) <$> val ir.2) l.

Lemma entries_elem l key v :
  (key, v) ∈ entries l <-> exists id r, (id, r) ∈ l /\ val r = Some v /\ key = rrender (sel id).
Proof.
  unfold entries. rewrite list_elem_of_omap. split.
  - intros ([id r] & Hin & Hf). apply fmap_Some in Hf as (b & Hb & [= -> ->]). eauto.
  - intros (id & r & Hin & Hv & ->). exists (id, r). split; [done|]. cbn. by rewrite Hv.
Qed.

Lemma entries_nodup l : NoDup l.*1 -> NoDup (entries l).
Proof.
  induction l as [|[id r] l IH]; intros Hnd; [constructor|]. cbn in Hnd. apply NoDup_cons in Hnd as [Hnot Hnd].
  unfold entries. cbn [omap list_omap fst snd]. fold (entries l).
  destruct (val r) as [b|] eqn:Hb; cbn; [|by apply IH]. constructor; [|by apply IH].
  intros (id' & r' & Hin & _ & Heq)%entries_elem. apply (inj rrender), Hinj in Heq as <-.
  apply Hnot, list_elem_of_fmap. by exists (id, r').
Qed.

Lemma query_entries : exists l, ds_Query prefix d = Ok l /\ l ≡ₚ entries (map_to_list R).
Proof.
  destruct (ds_Query_view prefix d) as (l & Hl & Hperm). exists l. split; [done|]. rewrite Hperm.
  apply NoDup_Permutation.
  - apply NoDup_filter, NoDup_map_to_list.
  - apply entries_nodup, NoDup_fst_map_to_list.
  - intros [key v]. unfold filterb. rewrite list_elem_of_filter, elem_of_map_to_list, entries_elem. cbn. split.
    + intros [Hp Hv]. destruct (rp_keys R d Hrep key v Hv) as [k ->].
      apply Is_true_true in Hp. apply Hsel in Hp as [id ->]. rewrite (rp_view R d Hrep), Hval in Hv.
      destruct (R !! id) as [r|] eqn:Hr; [|done]. exists id, r. by rewrite elem_of_map_to_list.
    + intros (id & r & Hin & Hv & ->). apply elem_of_map_to_list in Hin.
      rewrite (rp_view R d Hrep), Hval, Hin. split; [|done]. apply Is_true_true, Hsel. eauto.
Qed.

End Query.

(** The roots that satisfy a predicate, in some order. *)
Definition roots_where (R : gmap seg Root) (P : Root -> bool) : list Root := filterb P (map_to_list R).*2.

Lemma omap_entries R (sel : seg -> rkey) (val : Root -> option bytes) l :
  (forall id, last_part (trim_right (rrender (sel id))) = seg_str id) ->
  (forall id r, (id, r) ∈ l -> R !! id = Some r) ->
  omap (fun kv => root_at R kv.1) (entries sel val l) = filterb (fun r => bool_decide (is_Some (val r))) l.*2.
Proof.
  intros Hlast. induction l as [|[id r] l IH]; intros Hin; [done|].
  unfold entries. cbn [omap list_omap fst snd]. fold (entries sel val l). rewrite fmap_cons. cbn [snd].
  unfold filterb. rewrite filter_cons. specialize (IH ltac:(intros; apply Hin; by apply list_elem_of_further)).
  destruct (val r) as [b|] eqn:Hb; cbn [fmap option_fmap option_map].
  - rewrite decide_True by (by rewrite bool_decide_true by eauto). cbn [omap list_omap fst].
    unfold root_at at 1. rewrite Hlast, seg_of_str. cbn.
    rewrite (Hin id r) by apply list_elem_of_here. f_equal. exact IH.
  - rewrite decide_False; [exact IH|]. rewrite bool_decide_false; [by intros []|]. by intros [].
Qed.

Lemma index_query R d prefix sel val :
  represents R d ->
  (forall k, has_prefix prefix (rrender k) = true <-> exists id, k = sel id) ->
  (forall a b, sel a = sel b -> a = b) ->
  (forall id, expected R (sel id) = R !! id ≫= val) ->
  (forall id, last_part (trim_right (rrender (sel id))) = seg_str id) ->
  exists rs, queryByIndexPrefix prefix d = (d, Ok rs) /\
    rs ≡ₚ roots_where R (fun r => bool_decide (is_Some (val r))).
Proof.
  intros Hrep Hsel Hinj Hval Hlast.
  destruct (query_entries R d Hrep prefix sel val Hsel Hinj Hval) as (l & Hl & Hperm).
  unfold queryByIndexPrefix. eexists. split.
  - erewrite run_bind; [|unfold rgRead; by rewrite Hl]. apply roots_of_keys_spec; [done|].
    intros [key v] Hin. rewrite Hperm in Hin. apply entries_elem in Hin as (id & r & _ & _ & ->). cbn. eauto.
  - rewrite Hperm. rewrite (omap_entries R); [done|done|]. intros id r. apply elem_of_map_to_list.
Qed.

Lemma roots_where_ext R f g : (forall id r, R !! id = Some r -> f r = g r) -> roots_where R f = roots_where R g.
Proof.
  intros Hfg. apply filterb_ext. intros r Hr. apply list_elem_of_fmap_1 in Hr as ([id r'] & -> & Hin).
  apply elem_of_map_to_list in Hin. eauto.
Qed.

Lemma is_some_if (P : Prop) `{!Decision P} (b : bytes) :
  bool_decide (is_Some (if decide P then Some b else None)) = bool_decide P.
Proof. apply bool_decide_ext. destruct (decide P); split; try done; by intros []. Qed.

Lemma GetByCID_spec R d c :
  represents R d -> cid_Defined c = true ->
  exists rs, GetByCID c d = (d, Ok rs) /\
    rs ≡ₚ roots_where R (fun r => bool_decide (cid_String r.(rt_CID) = cid_String c)).
Proof.
  intros Hrep Hc. set (cs := mkSeg (cid_String c) (cid_String_ok c Hc)).
  destruct (index_query R d (prefixIdxCID +:+ seg_str cs +:+ "/") (KIdxCID cs)
    (fun r => if decide (cid_String r.(rt_CID) = seg_str cs) then Some [] else None)) as (rs & Hrs & Hperm).
  - done.
  - intros k. apply query_cid.
  - by intros a b [= ->].
  - done.
  - intros id. apply (last_part_join ["roots"; "idx"; "cid"; seg_str cs]).
  - exists rs. split; [exact Hrs|]. rewrite Hperm. unfold roots_where.
    rewrite (filterb_ext _ (fun r => bool_decide (cid_String r.(rt_CID) = cid_String c))); [done|].
    intros r _. apply is_some_if.
Qed.

Lemma GetByName_spec R d name :
  represents R d -> name_ok name ->
  exists rs, GetByName name d = (d, Ok rs) /\ rs ≡ₚ roots_where R (fun r => bool_decide (r.(rt_Name) = name)).
Proof.
  intros Hrep Hn. set (ns := mkSeg (PathEscape name) (PathEscape_seg name Hn)).
  destruct (index_query R d (prefixIdxName +:+ seg_str ns +:+ "/") (KIdxName ns)
    (fun r => if decide (PathEscape r.(rt_Name) = seg_str ns) then Some [] else None)) as (rs & Hrs & Hperm).
  - done.
  - intros k. apply query_name.
  - by intros a b [= ->].
  - done.
  - intros id. apply (last_part_join ["roots"; "idx"; "name"; seg_str ns]).
  - exists rs. split; [exact Hrs|]. rewrite Hperm. unfold roots_where.
    rewrite (filterb_ext _ (fun r => bool_decide (r.(rt_Name) = name))); [done|].
    intros r _. rewrite is_some_if. apply bool_decide_ext. cbn. split; [apply (inj PathEscape)|by intros ->].
Qed.

Definition decoded (kv : string * bytes) : option Root :=
  match decodeRecord kv.2 with Ok r => Some r | Err _ => None end.

Lemma List_spec R d : represents R d -> exists rs, List_ d = (d, Ok rs) /\ rs ≡ₚ (map_to_list R).*2.
Proof.
  intros Hrep. set (val := fun r : Root => match encodeRecord r with Ok b => Some b | Err _ => None end).
  destruct (query_entries R d Hrep prefixRec KRec val) as (l & Hl & Hperm).
  - apply query_rec.
  - by intros a b [= ->].
  - done.
  - exists (omap decoded l). split.
    + unfold List_. erewrite run_bind; [|unfold m_try, rgRead; by rewrite Hl]. done.
    + rewrite Hperm. clear Hl Hperm l.
      assert (forall id r, (id, r) ∈ map_to_list R -> R !! id = Some r) as Hin by (intros id r; apply elem_of_map_to_list).
      revert Hin. generalize (map_to_list R) as l. induction l as [|[id r] l IH]; intros Hin; [done|].
      unfold entries. cbn [omap list_omap fst snd]. fold (entries KRec val l).
      destruct (record_roundtrip id r) as (b & Hb & Hdec); [apply (rp_wf R d Hrep), Hin, list_elem_of_here|].
      unfold val at 1. rewrite Hb. cbn [fmap option_fmap option_map omap list_omap].
      unfold decoded at 1. cbn [snd]. rewrite Hdec. constructor. apply IH. intros. by apply Hin, list_elem_of_further.
Qed.

(** ** Updates *)

Definition upd_fn (f : rkey -> option bytes) (kv : rkey * option bytes) : rkey -> option bytes :=
  fun k => if decide (k = kv.1) then kv.2 else f k.

Definition batch_of (ops : list (rkey * option bytes)) : list (string * option bytes) :=
  (fun kv => (rrender kv.1, kv.2)) <$> ops.

Lemma commit_view ops d :
  exists d', rgCommit (batch_of ops) d = (d', Ok tt) /\
    (forall k, ds_view d' !! rrender k = foldl upd_fn (fun k => ds_view d !! rrender k) ops k) /\
    (forall key v, ds_view d' !! key = Some v -> (exists k, key = rrender k) \/ ds_view d !! key = Some v).
Proof.
  unfold rgCommit, mbind, M_bind, m_bind, rgRead. rewrite ds_Batch_ok.
  pose proof (ds_Commit_view (batch_of ops) d) as Hv. pose proof (ds_Commit_ok (batch_of ops) d) as Hok.
  destruct (ds_Commit (batch_of ops) d) as [d' r]. cbn in Hv, Hok. subst r. exists d'. split; [done|].
  rewrite Hv. clear Hv d'. generalize (ds_view d) as m. induction ops as [|[k0 v0] ops IH]; intros m; [naive_solver|].
  cbn [batch_of fmap list_fmap foldl fst snd]. fold (batch_of ops).
  destruct (IH (partial_alter (fun _ => v0) (rrender k0) m)) as [IH1 IH2]. split.
  - intros k. rewrite IH1.
    assert (forall ops (f g : rkey -> option bytes), (forall k, f k = g k) -> foldl upd_fn f ops k = foldl upd_fn g ops k) as Hext.
    { clear. induction ops as [|kv ops IH]; intros f g Hfg; cbn; [done|]. apply IH. intros k'. unfold upd_fn.
      by destruct (decide _). }
    apply Hext. intros k'. unfold upd_fn. cbn. destruct (decide (k' = k0)) as [->|Hne].
    + by rewrite lookup_partial_alter_eq.
    + rewrite lookup_partial_alter_ne; [done|]. by intros ?%(inj rrender).
  - intros key v Hkey. apply IH2 in Hkey as [?|Hkey]; [by left|].
    destruct (decide (key = rrender k0)) as [->|Hne]; [by left; eauto|]. right.
    by rewrite lookup_partial_alter_ne in Hkey by done.
Qed.

Lemma commit_represents R R' d ops :
  represents R d -> (forall k, foldl upd_fn (expected R) ops k = expected R' k) ->
  (forall id r, R' !! id = Some r -> root_wf id r) ->
  (forall id id' r r', R' !! id = Some r -> R' !! id' = Some r' ->
     cid_String r.(rt_CID) = cid_String r'.(rt_CID) -> id = id') ->
  exists d', rgCommit (batch_of ops) d = (d', Ok tt) /\ represents R' d'.
Proof.
  intros Hrep Hexp Hwf Hu. destruct (commit_view ops d) as (d' & Hrun & Hv & Hk). exists d'. split; [done|].
  split; [|intros k; rewrite Hv, <- Hexp|done|done].
  - intros key v Hkey. apply Hk in Hkey as [?|Hkey]; [done|]. by apply (rp_keys R d Hrep) in Hkey.
  - clear -Hrep. generalize k. clear k. induction ops as [|kv ops IH] using rev_ind; intros k.
    + apply (rp_view R d Hrep).
    + rewrite !foldl_app. cbn. unfold upd_fn. destruct (decide _); [done|]. apply IH.
Qed.

(** ** The operations *)

Definition stamped (now : Z) (id : seg) (root : Root) : Root :=
  mkRoot (seg_str id) root.(rt_Name) root.(rt_CID) root.(rt_Path)
    (match root.(rt_AddedAt) with None => Some now | t => t end).

Definition renamed (name : string) (r : Root) : Root :=
  mkRoot r.(rt_ID) name r.(rt_CID) r.(rt_Path) r.(rt_AddedAt).

Inductive rop :=
  | RAdd (now : Z) (id : seg) (root : Root)
  | RRemove (id : seg)
  | RRename (id : seg) (name : string)
  | RGetByID (id : seg)
  | RGetByCID (c : cid)
  | RGetByName (name : string)
  | RList.

Inductive rout :=
  | OutAdded (r : Root)
  | OutTracked (r : Root)
  | OutDone
  | OutErr (e : error)
  | OutRoot (r : option Root)
  | OutRoots (rs : list Root).

Definition run_rop (o : rop) (d : dstore) : dstore * rout :=
  match o with
  | RAdd now id root =>
      match Add now (seg_str id) root d with
      | (d', Ok (r, true)) => (d', OutTracked r)
      | (d', Ok (r, false)) => (d', OutAdded r)
      | (d', Err e) => (d', OutErr e)
      end
  | RRemove id =>
      match Remove (seg_str id) d with (d', Ok _) => (d', OutDone) | (d', Err e) => (d', OutErr e) end
  | RRename id name =>
      match Rename (seg_str id) name d with (d', Ok _) => (d', OutDone) | (d', Err e) => (d', OutErr e) end
  | RGetByID id =>
      match GetByID (seg_str id) d with (d', Ok r) => (d', OutRoot r) | (d', Err e) => (d', OutErr e) end
  | RGetByCID c =>
      match GetByCID c d with (d', Ok rs) => (d', OutRoots rs) | (d', Err e) => (d', OutErr e) end
  | RGetByName name =>
      match GetByName name d with (d', Ok rs) => (d', OutRoots rs) | (d', Err e) => (d', OutErr e) end
  | RList => match List_ d with (d', Ok rs) => (d', OutRoots rs) | (d', Err e) => (d', OutErr e) end
  end.

(** The arguments the API gives: an unused id, a proper name, times in range, UTF-8. *)
Definition rop_ok (R : gmap seg Root) (o : rop) : Prop :=
  match o with
  | RAdd now id root => R !! id = None /\ root_wf id (stamped now id root)
  | RRename id name => name = "" \/ (name_ok name /\ valid_utf8 name)
  | RGetByCID c => cid_Defined c = true
  | RGetByName name => name_ok name
  | _ => True
  end.

(** The registry as a map from ids to roots. *)
Inductive reg_step (R : gmap seg Root) : rop -> rout -> gmap seg Root -> Prop :=
  | SAddNew now id root :
      roots_where R (fun r => bool_decide (cid_String r.(rt_CID) = cid_String root.(rt_CID))) = [] ->
      reg_step R (RAdd now id root) (OutAdded (stamped now id root)) (<[id := stamped now id root]> R)
  | SAddOld now id root id' r :
      R !! id' = Some r -> cid_String r.(rt_CID) = cid_String root.(rt_CID) ->
      reg_step R (RAdd now id root) (OutTracked r) R
  | SRemove id r : R !! id = Some r -> reg_step R (RRemove id) OutDone (delete id R)
  | SRemoveMissing id : R !! id = None -> reg_step R (RRemove id) (OutErr errRootNotFound) R
  | SRename id name r :
      name <> "" -> R !! id = Some r -> reg_step R (RRename id name) OutDone (<[id := renamed name r]> R)
  | SRenameMissing id name :
      name <> "" -> R !! id = None -> reg_step R (RRename id name) (OutErr errRootNotFound) R
  | SRenameEmpty id : reg_step R (RRename id "") (OutErr (errorf "name must not be empty")) R
  | SGetByID id : reg_step R (RGetByID id) (OutRoot (R !! id)) R
  | SGetByCID c rs :
      rs ≡ₚ roots_where R (fun r => bool_decide (cid_String r.(rt_CID) = cid_String c)) ->
      reg_step R (RGetByCID c) (OutRoots rs) R
  | SGetByName name rs :
      rs ≡ₚ roots_where R (fun r => bool_decide (r.(rt_Name) = name)) -> reg_step R (RGetByName name) (OutRoots rs) R
  | SList rs : rs ≡ₚ (map_to_list R).*2 -> reg_step R RList (OutRoots rs) R.

Local Ltac lookups :=
  repeat match goal with
  | |- context [<[?i := _]> _ !! ?i] => rewrite lookup_insert_eq
  | H : ?i <> ?j |- context [<[?i := _]> _ !! ?j] => rewrite (lookup_insert_ne _ i j) by done
  | H : ?j <> ?i |- context [<[?i := _]> _ !! ?j] => rewrite (lookup_insert_ne _ i j) by congruence
  | |- context [delete ?i _ !! ?i] => rewrite lookup_delete_eq
  | H : ?i <> ?j |- context [delete ?i _ !! ?j] => rewrite (lookup_delete_ne _ i j) by done
  | H : ?j <> ?i |- context [delete ?i _ !! ?j] => rewrite (lookup_delete_ne _ i j) by congruence
  | H : ?R !! ?i = _ |- context [?R !! ?i] => rewrite H
  end.

Lemma expected_add R id r data (cs ns : seg) :
  R !! id = None -> encodeRecord r = Ok data -> cid_String r.(rt_CID) = seg_str cs ->
  PathEscape r.(rt_Name) = seg_str ns ->
  forall k, foldl upd_fn (expected R) [(KRec id, Some data); (KIdxCID cs id, Some []); (KIdxName ns id, Some [])] k =
    expected (<[id := r]> R) k.
Proof.
  intros Hnone Hdata Hcs Hns k. cbn [foldl]. unfold upd_fn. cbn [fst snd].
  destruct k as [i|c i|n i]; cbn [expected]; destruct (decide (i = id)) as [->|Hne]; lookups;
    repeat (case_decide; simplify_eq/=); rewrite ?Hdata; try done.
  - assert (c = cs) as -> by (apply seg_eq; congruence). done.
  - assert (n = ns) as -> by (apply seg_eq; congruence). done.
Qed.

Lemma expected_remove R id r (cs ns : seg) :
  R !! id = Some r -> cid_String r.(rt_CID) = seg_str cs -> PathEscape r.(rt_Name) = seg_str ns ->
  forall k, foldl upd_fn (expected R) [(KRec id, None); (KIdxCID cs id, None); (KIdxName ns id, None)] k =
    expected (delete id R) k.
Proof.
  intros Hr Hcs Hns k. cbn [foldl]. unfold upd_fn. cbn [fst snd].
  destruct k as [i|c i|n i]; cbn [expected]; destruct (decide (i = id)) as [->|Hne]; lookups;
    repeat (case_decide; simplify_eq/=); try done.
  - assert (c = cs) as -> by (apply seg_eq; congruence). done.
  - assert (n = ns) as -> by (apply seg_eq; congruence). done.
Qed.

Lemma expected_rename R id r name data (os ns : seg) :
  R !! id = Some r -> encodeRecord (renamed name r) = Ok data ->
  PathEscape r.(rt_Name) = seg_str os -> PathEscape name = seg_str ns ->
  forall k, foldl upd_fn (expected R) [(KRec id, Some data); (KIdxName os id, None); (KIdxName ns id, Some [])] k =
    expected (<[id := renamed name r]> R) k.
Proof.
  intros Hr Hdata Hos Hns k. cbn [foldl]. unfold upd_fn. cbn [fst snd].
  destruct k as [i|c i|n i]; cbn [expected]; destruct (decide (i = id)) as [->|Hne]; lookups;
    repeat (case_decide; simplify_eq/=); rewrite ?Hdata; try done.
  all: repeat match goal with
    | H : ?x = seg_str ?a, H' : ?x = seg_str ?b |- _ =>
        assert (a = b) by (apply seg_eq; congruence); clear H'; subst
    end; done.
Qed.

Lemma roots_where_elem R P r : r ∈ roots_where R P <-> P r = true /\ exists id, R !! id = Some r.
Proof.
  unfold roots_where, filterb. rewrite list_elem_of_filter, Is_true_true. apply and_iff_compat_l. split.
  - intros ([id r'] & -> & Hin)%list_elem_of_fmap_1. apply elem_of_map_to_list in Hin. eauto.
  - intros [id Hr]. apply list_elem_of_fmap. exists (id, r). by rewrite elem_of_map_to_list.
Qed.

(** The index keys of a well-formed root. *)
Lemma root_segs id r :
  root_wf id r -> exists cs ns : seg, cid_String r.(rt_CID) = seg_str cs /\ PathEscape r.(rt_Name) = seg_str ns.
Proof.
  intros (_ & Hn & Hc & _). exists (mkSeg _ (cid_String_ok _ Hc)), (mkSeg _ (PathEscape_seg _ Hn)). done.
Qed.

Lemma Add_refines R d now id root :
  represents R d -> R !! id = None -> root_wf id (stamped now id root) ->
  let '(d', out) := run_rop (RAdd now id root) d in
  exists R', reg_step R (RAdd now id root) out R' /\ represents R' d'.
Proof.
  intros Hrep Hnone Hwf. pose proof Hwf as (_ & _ & Hdef & _). cbn in Hdef.
  destruct (GetByCID_spec R d root.(rt_CID) Hrep Hdef) as (rs & Hrs & Hperm). cbn [run_rop]. unfold Add.
  erewrite run_bind by exact Hrs. destruct rs as [|r rs].
  - apply Permutation_nil_l in Hperm. symmetry in Hperm. cbv zeta.
    fold (stamped now id root). destruct (record_roundtrip id _ Hwf) as (data & Hdata & _).
    erewrite run_bind; [|unfold m_lift; by rewrite Hdata].
    destruct (root_segs id _ Hwf) as (cs & ns & Hcs & Hns).
    destruct (commit_represents R (<[id := stamped now id root]> R) d
      [(KRec id, Some data); (KIdxCID cs id, Some []); (KIdxName ns id, Some [])]) as (d' & Hrun & Hrep').
    + done.
    + by apply expected_add.
    + intros i r [[<- <-]|[_ Hr]]%lookup_insert_Some; [done|]. by apply (rp_wf R d Hrep).
    + assert (forall i r, R !! i = Some r -> cid_String r.(rt_CID) <> cid_String root.(rt_CID)) as Hnew.
      { intros i r Hr Heq. assert (r ∈ @nil Root) as Hin; [|by apply elem_of_nil in Hin].
        rewrite <- Hperm. apply roots_where_elem. rewrite bool_decide_true by done. eauto. }
      intros i j ri rj [[<- <-]|[_ Hi]]%lookup_insert_Some [[<- <-]|[_ Hj]]%lookup_insert_Some; cbn; intros Heq.
      * done.
      * by destruct (Hnew j rj Hj).
      * by destruct (Hnew i ri Hi).
      * by apply (rp_unique R d Hrep i j ri rj).
    + cbn [batch_of fmap list_fmap fst snd] in Hrun.
      erewrite run_bind. 2: { cbn [stamped rt_ID rt_Name rt_CID] in Hcs, Hns |- *.
        rewrite recKey_render, Hcs, cidIdxKey_render, (nameIdxKey_render _ ns id Hns). exact Hrun. }
      exists (<[id := stamped now id root]> R). split; [by constructor|done].
  - exists R. split; [|done].
    assert (r ∈ roots_where R (fun r => bool_decide (cid_String r.(rt_CID) = cid_String root.(rt_CID)))) as Hin
      by (rewrite <- Hperm; apply list_elem_of_here).
    apply roots_where_elem in Hin as [Hc [id' Hr]]. apply bool_decide_eq_true in Hc. by eapply SAddOld.
Qed.

Lemma Remove_refines R d id :
  represents R d ->
  let '(d', out) := run_rop (RRemove id) d in
  exists R', reg_step R (RRemove id) out R' /\ represents R' d'.
Proof.
  intros Hrep. cbn [run_rop]. unfold Remove. erewrite run_bind by exact (GetByID_spec R d id Hrep).
  destruct (R !! id) as [r|] eqn:Hr; [|exists R; split; [by constructor|done]].
  destruct (root_segs id r (rp_wf R d Hrep id r Hr)) as (cs & ns & Hcs & Hns).
  destruct (commit_represents R (delete id R) d
    [(KRec id, None); (KIdxCID cs id, None); (KIdxName ns id, None)]) as (d' & Hrun & Hrep').
  - done.
  - by apply (expected_remove R id r).
  - intros i ri [_ Hi]%lookup_delete_Some. by apply (rp_wf R d Hrep).
  - intros i j ri rj [_ Hi]%lookup_delete_Some [_ Hj]%lookup_delete_Some. by apply (rp_unique R d Hrep).
  - cbn [batch_of fmap list_fmap fst snd] in Hrun.
    rewrite recKey_render, Hcs, cidIdxKey_render, (nameIdxKey_render _ ns id Hns), Hrun.
    exists (delete id R). split; [by econstructor|done].
Qed.

Lemma Rename_refines R d id name :
  represents R d -> (name = "" \/ (name_ok name /\ valid_utf8 name)) ->
  let '(d', out) := run_rop (RRename id name) d in
  exists R', reg_step R (RRename id name) out R' /\ represents R' d'.
Proof.
  intros Hrep Hname. cbn [run_rop]. unfold Rename. case_bool_decide as Hempty.
  { subst name. exists R. split; [constructor|done]. }
  destruct Hname as [?|[Hn Hutf]]; [done|]. erewrite run_bind by exact (GetByID_spec R d id Hrep).
  destruct (R !! id) as [r|] eqn:Hr; [|exists R; split; [by constructor|done]]. cbv zeta.
  pose proof (rp_wf R d Hrep id r Hr) as Hwf.
  assert (root_wf id (renamed name r)) as Hwf'.
  { destruct Hwf as (? & ? & ? & ? & ? & ? & ?). by split_and!. }
  fold (renamed name r). destruct (record_roundtrip id _ Hwf') as (data & Hdata & _).
  erewrite run_bind; [|unfold m_lift; by rewrite Hdata].
  destruct (root_segs id r Hwf) as (cs & os & Hcs & Hos). destruct (root_segs id _ Hwf') as (_ & ns & _ & Hns).
  destruct (commit_represents R (<[id := renamed name r]> R) d
    [(KRec id, Some data); (KIdxName os id, None); (KIdxName ns id, Some [])]) as (d' & Hrun & Hrep').
  - done.
  - by apply (expected_rename R id r).
  - intros i ri [[<- <-]|[_ Hi]]%lookup_insert_Some; [done|]. by apply (rp_wf R d Hrep).
  - assert (forall i ri, <[id := renamed name r]> R !! i = Some ri ->
      exists ri', R !! i = Some ri' /\ rt_CID ri' = rt_CID ri) as Hold.
    { intros i ri [[<- <-]|[_ Hi]]%lookup_insert_Some; eauto. }
    intros i j ri rj (ri' & Hi & <-)%Hold (rj' & Hj & <-)%Hold. by apply (rp_unique R d Hrep).
  - cbn [batch_of fmap list_fmap fst snd] in Hrun.
    rewrite recKey_render, (nameIdxKey_render _ os id Hos), (nameIdxKey_render name ns id Hns), Hrun.
    exists (<[id := renamed name r]> R). split; [by econstructor|done].
Qed.

Lemma rop_refines R d o :
  represents R d -> rop_ok R o ->
  let '(d', out) := run_rop o d in exists R', reg_step R o out R' /\ represents R' d'.
Proof.
  intros Hrep Ho. destruct o as [now id root|id|id name|id|c|name|]; cbn [rop_ok] in Ho.
  - by apply Add_refines; [|apply Ho..].
  - by apply Remove_refines.
  - by apply Rename_refines.
  - cbn [run_rop]. rewrite (GetByID_spec R d id Hrep). exists R. split; [constructor|done].
  - cbn [run_rop]. destruct (GetByCID_spec R d c Hrep Ho) as (rs & -> & Hrs). exists R. split; [by constructor|done].
  - cbn [run_rop]. destruct (GetByName_spec R d name Hrep Ho) as (rs & -> & Hrs). exists R. split; [by constructor|done].
  - cbn [run_rop]. destruct (List_spec R d Hrep) as (rs & -> & Hrs). exists R. split; [by constructor|done].
Qed.

(** ** Runs *)

Fixpoint run_rops (os : list rop) (d : dstore) : dstore * list (rop * rout) :=
  match os with
  | [] => (d, [])
  | o :: os' =>
      let '(d1, out) := run_rop o d in
      let '(d2, t) := run_rops os' d1 in
      (d2, (o, out) :: t)
  end.

Inductive reg_trace : gmap seg Root -> list (rop * rout) -> gmap seg Root -> Prop :=
  | RTnil R : reg_trace R [] R
  | RTcons R o out R' t R'' : reg_step R o out R' -> reg_trace R' t R'' -> reg_trace R ((o, out) :: t) R''.

(** The arguments are good when each operation runs. *)
Fixpoint rops_ok (os : list rop) (d : dstore) : Prop :=
  match os with
  | [] => True
  | o :: os' => (forall R, represents R d -> rop_ok R o) /\ rops_ok os' (run_rop o d).1
  end.

Lemma rops_refine os R d :
  represents R d -> rops_ok os d ->
  let '(d', t) := run_rops os d in exists R', reg_trace R t R' /\ represents R' d'.
Proof.
  revert R d. induction os as [|o os IH]; intros R d Hrep Hok; cbn [run_rops].
  { exists R. split; [constructor|done]. }
  destruct Hok as [Ho Hok]. pose proof (rop_refines R d o Hrep (Ho R Hrep)) as Hstep.
  destruct (run_rop o d) as [d1 out]. destruct Hstep as (R1 & Hstep & Hrep1). specialize (IH R1 d1 Hrep1 Hok).
  destruct (run_rops os d1) as [d2 t]. destruct IH as (R2 & Ht & Hrep2). exists R2. split; [by econstructor|done].
Qed.

Lemma represents_empty d : ds_view d = ∅ -> represents ∅ d.
Proof.
  intros Hd. split.
  - intros key v. by rewrite Hd, lookup_empty.
  - intros k. rewrite Hd, lookup_empty. by destruct k; cbn [expected]; rewrite lookup_empty.
  - intros id r. by rewrite lookup_empty.
  - intros id id' r r'. by rewrite lookup_empty.
Qed.

(** An id without a record is unused. *)
Lemma represents_absent R d id : represents R d -> ds_view d !! rrender (KRec id) = None -> R !! id = None.
Proof.
  intros Hrep Hd. rewrite (rp_view R d Hrep) in Hd. cbn [expected] in Hd. destruct (R !! id) as [r|] eqn:Hr; [|done].
  destruct (record_roundtrip id r (rp_wf R d Hrep id r Hr)) as (b & Hb & _). cbn in Hd. by rewrite Hb in Hd.
Qed.

(** C13: The registry of roots behaves like a map from ids to roots. From an empty datastore, any
    sequence of [Add], [Remove], [Rename] and queries answers as the map does: a CID is
    tracked at most once and a second [Add] returns the root that has it; lookups by id, by
    CID and by name return exactly the roots that match, and the list all of them; the
    records and both indexes in the datastore are always exactly those of the map. Names are
    non-empty and neither dot nor dot-dot, new ids are unused, texts are UTF-8. *)
Theorem registry_refines_map (d : dstore) (os : list rop) :
  ds_view d = ∅ -> rops_ok os d ->
  let '(d', t) := run_rops os d in
  exists R, reg_trace ∅ t R /\
    (forall k, ds_view d' !! rrender k = expected R k) /\
    (forall key v, ds_view d' !! key = Some v -> exists k, key = rrender k) /\
    (forall id id' r r', R !! id = Some r -> R !! id' = Some r' ->
       cid_String r.(rt_CID) = cid_String r'.(rt_CID) -> id = id').
Proof.
  intros Hd Hok. pose proof (rops_refine os ∅ d (represents_empty d Hd) Hok) as Hrun.
  destruct (run_rops os d) as [d' t]. destruct Hrun as (R & Ht & Hrep). exists R. split; [done|].
  split_and!; apply Hrep.
Qed.

End Spec.

Module RegistryExample.
Import MemStore.

#[export] Instance root_deps : RootDeps := {|
  cid_Bytes := fun c => (if c.1 then x01 else x00) :: c.2;
  cid_Cast := fun b =>
    match b with
    | k :: h => Ok (bool_decide (k = x01), h)
    | [] => Err (errorf "cid too short")
    end;
  rootMarshal := fun x => Ok (put x);
  rootUnmarshal := fun b => match get b with Some (x, _) => Ok x | None => Err (errorf "cbor") end |}.

#[export, refine] Instance root_laws : RootLaws := {| valid_utf8 := fun _ => True |}.
Proof.
  - by intros [[] h] _.
  - intros id name cb path t _. by eexists.
  - intros id name cb path t b _ _ _ Hb. assert (b = put (id, name, cb, path, t)) as -> by (by injection Hb as <-).
    unfold rootUnmarshal, root_deps.
    pose proof (get_put (id, name, cb, path, t) []) as Hget. rewrite app_nil_r in Hget. by rewrite Hget.
Defined.

Definition id1 : seg := mkSeg "u1" eq_refl.
Definition id2 : seg := mkSeg "u2" eq_refl.
Definition photos : @Root deps := mkRoot "" "my photos" ((false, [x01; x02]) : @cid deps) "/home/photos" None.

Definition ops : list (@rop deps) :=
  [RAdd 5 id1 photos; RAdd 6 id2 photos; RRename id1 "a/b"; RGetByName "a/b"; RGetByName "my photos";
   RRemove id1; RRemove id1; RList].

Lemma photos_wf now (id : seg) : in_int64 now -> root_wf id (stamped now id photos).
Proof. intros Hnow. split_and!; try done. by exists now. Qed.

Lemma ops_ok : rops_ok ops (∅ : gmap string bytes).
Proof.
  unfold ops. cbn [rops_ok rop_ok]. split_and!; try done.
  - intros R Hrep. split; [|by apply photos_wf]. apply (represents_absent R _ id1 Hrep). reflexivity.
  - intros R Hrep. split; [|by apply photos_wf]. apply (represents_absent R _ id2 Hrep). vm_compute. reflexivity.
  - intros R _. right. done.
Qed.

Definition show (o : @rout deps) : string :=
  match o with
  | OutAdded r => "added " +:+ r.(rt_ID)
  | OutTracked r => "tracked " +:+ r.(rt_ID)
  | OutDone => "done"
  | OutErr e => err_text e
  | OutRoot r => "root " +:+ default "" (rt_Name <$> r)
  | OutRoots rs => String.concat "," (rt_Name <$> rs)
  end.

(** The answers of a session: tracked once, renamed, found under the new name only, removed once. *)
Lemma registry_refines_map_witness :
  show <$> (run_rops ops (∅ : gmap string bytes)).2.*2 =
    ["added u1"; "tracked u1"; "done"; "a/b"; ""; "done"; "root not found"; ""] /\
  exists R, reg_trace ∅ (run_rops ops (∅ : gmap string bytes)).2 R.
Proof.
  split; [vm_compute; reflexivity|].
  pose proof (registry_refines_map (∅ : gmap string bytes) ops eq_refl ops_ok) as H.
  destruct (run_rops ops (∅ : gmap string bytes)) as [d t]. destruct H as (R & Ht & _). by exists R.
Defined.

End RegistryExample.
