(* ===== verification/LocalGC.v ===== *)
(** * The store and the collection of local blocks (src/store/store.go, gc.go)

    [Store] holds the user's blocks, the network block store and the registry of roots. Its
    collection walks the DAG below every tracked root ([gcWalkDAG]) and deletes the local blocks
    it has not seen; then the network block store collects its own. The DAG service is a
    parameter: the links of a block. A local collection keeps exactly the blocks reachable
    from a tracked root ([local_gc_exact]), provided that no two identifiers in the DAGs
    decode the same bytes differently; where they do it may delete reachable blocks
    ([gc_codec_confusion]). *)

From stdpp Require Import base gmap list strings relations.
From Stdlib Require Import ZArith Lia Strings.Byte.
From S2P Require Import Prelude Hoare Hex StoreKeys StoreDeps NetworkStore BlockStore Roots.

Set Default Goal Selector "!".
Local Open Scope Z_scope.

(** [dag.Get], then [node.Links()]: the identifiers a block links to. [decodeLinks] is the
    codec the identifier names. *)
Class DagDeps `{StoreDeps} := {
  dag_Get : cid -> bstore -> result (list cid);
  decodeLinks : cid -> bytes -> result (list cid)
}.

Class DagLaws `{StoreLaws} `{!DagDeps} := {
  dag_Get_view c b ls :
    dag_Get c b = Ok ls <-> exists data, bs_view b !! Hash c = Some data /\ decodeLinks c data = Ok ls
}.

Section Store.
Context `{HD : StoreDeps} `{HR : !RootDeps} `{HG : !DagDeps}.

Record Store := mkStore { LocalBlocks : bstore; NetworkBlocks : NBS; Roots_ : dstore }.

(** [gcWalkDAG]; [None] when [fuel] does not suffice. *)
Fixpoint gcWalkDAG (fuel : nat) (b : bstore) (c : cid) (seen : gset string) : option (gset string) :=
  match fuel with
  | O => None
  | S fuel' =>
      if decide (HashHex c ∈ seen) then Some seen
      else
        let seen := {[HashHex c]} ∪ seen in
        match dag_Get c b with
        | Err _ => Some seen
        | Ok links =>
            foldl (fun acc link => seen ← acc; gcWalkDAG fuel' b link seen) (Some seen) links
        end
  end.

Definition walk_roots (fuel : nat) (b : bstore) (roots : list cid) (seen : gset string) : option (gset string) :=
  foldl (fun acc c => seen ← acc; gcWalkDAG fuel b c seen) (Some seen) roots.

(** The loop over the blocks. *)
Fixpoint sweep (reachable : gset string) (keys : list cid) (removed kept : Z) : M bstore GCResult :=
  match keys with
  | [] => m_ret (mkGCResult removed kept)
  | c :: keys' =>
      if decide (HashHex c ∈ reachable) then sweep reachable keys' removed (kept + 1)
      else
        _ ← st_Delete c;
        sweep reachable keys' (removed + 1) kept
  end.

Definition on_local {A} (m : M bstore A) : M Store A := fun s =>
  let '(b, r) := m s.(LocalBlocks) in (mkStore b s.(NetworkBlocks) s.(Roots_), r).
Definition on_network {A} (m : M NBS A) : M Store A := fun s =>
  let '(n, r) := m s.(NetworkBlocks) in (mkStore s.(LocalBlocks) n s.(Roots_), r).
Definition on_roots {A} (m : M dstore A) : M Store A := fun s =>
  let '(d, r) := m s.(Roots_) in (mkStore s.(LocalBlocks) s.(NetworkBlocks) d, r).

Definition out_of_fuel : error := errorf "out of fuel".

Definition gcLocal (fuel : nat) : M Store GCResult :=
  roots ← on_roots List_;
  s ← m_get;
  match walk_roots fuel s.(LocalBlocks) (rt_CID <$> roots) ∅ with
  | None => m_err out_of_fuel
  | Some reachable =>
      keys ← on_local st_AllKeys;
      on_local (sweep reachable keys 0 0)
  end.

(** [Store.GC] *)
Definition StoreGC (fuel : nat) (now : Z) : M Store GCResult :=
  localResult ← gcLocal fuel;
  netResult ← on_network (GC now);
  m_ret (mkGCResult (localResult.(gc_removed) + netResult.(gc_removed)) (localResult.(gc_kept) + netResult.(gc_kept))).

End Store.

(** ** The walk *)

Section Walk.
Context `{HL : StoreLaws} `{HR : !RootDeps} `{HG : !DagDeps} `{HGL : !DagLaws}.
Context (b : bstore).

(** [y] is a link of the block of [x]. *)
Definition edge (x y : cid) : Prop := exists ls, dag_Get x b = Ok ls /\ y ∈ ls.

Definition reach : cid -> cid -> Prop := rtc edge.

(** The blocks not seen yet. *)
Definition unseen (seen : gset string) : gset bytes := filter (fun h => hex_encode h ∉ seen) (dom (bs_view b)).

Lemma unseen_mono s1 s2 : s1 ⊆ s2 -> unseen s2 ⊆ unseen s1.
Proof. intros Hs h. unfold unseen. rewrite !elem_of_filter. set_solver. Qed.

Lemma dag_present c ls : dag_Get c b = Ok ls -> Hash c ∈ dom (bs_view b).
Proof. intros (data & Hd & _)%dag_Get_view. apply elem_of_dom. eauto. Qed.

Lemma unseen_add c seen :
  Hash c ∈ dom (bs_view b) -> HashHex c ∉ seen -> (size (unseen ({[HashHex c]} ∪ seen)) < size (unseen seen))%nat.
Proof.
  intros Hc Hn. apply subset_size. split.
  - apply unseen_mono. set_solver.
  - intros Hsub. specialize (Hsub (Hash c)). unfold unseen in Hsub. rewrite !elem_of_filter in Hsub.
    assert (hex_encode (Hash c) ∉ {[HashHex c]} ∪ seen) as Hcontra by (apply Hsub; done).
    apply Hcontra. unfold HashHex. set_solver.
Qed.

Lemma fold_links_some (f : cid -> gset string -> option (gset string)) (links : list cid) (seen : gset string) :
  (forall c seen', seen ⊆ seen' -> exists s, f c seen' = Some s /\ seen' ⊆ s) ->
  exists s, foldl (fun acc link => acc ≫= f link) (Some seen) links = Some s /\ seen ⊆ s.
Proof.
  revert seen. induction links as [|c links IH]; intros seen Hf; [by exists seen|]. cbn [foldl mbind option_bind].
  destruct (Hf c seen) as (s1 & Hs1 & Hsub); [done|]. change (Some seen ≫= f c) with (f c seen). rewrite Hs1.
  destruct (IH s1) as (s2 & Hs2 & Hsub2).
  - intros c' seen' Hs'. apply Hf. set_solver.
  - exists s2. split; [done|set_solver].
Qed.

(** As many calls deep as there are blocks not seen yet, plus one. *)
Lemma walk_terminates fuel c seen :
  (size (unseen seen) < fuel)%nat -> exists s, gcWalkDAG fuel b c seen = Some s /\ seen ⊆ s.
Proof.
  revert c seen. induction fuel as [|fuel IH]; intros c seen Hfuel; [lia|]. cbn [gcWalkDAG].
  destruct (decide (HashHex c ∈ seen)) as [Hin|Hnot]; [by exists seen|].
  destruct (dag_Get c b) as [links|e] eqn:Hget; [|eexists; split; [done|set_solver]].
  pose proof (unseen_add c seen (dag_present c links Hget) Hnot) as Hlt.
  destruct (fold_links_some (gcWalkDAG fuel b) links ({[HashHex c]} ∪ seen)) as (s & Hs & Hsub).
  - intros c' seen' Hs'. apply IH.
    pose proof (subseteq_size _ _ (unseen_mono _ _ Hs')). lia.
  - exists s. split; [exact Hs|set_solver].
Qed.

Definition expanded (x : cid) (s : gset string) : Prop :=
  forall ls y, dag_Get x b = Ok ls -> y ∈ ls -> HashHex y ∈ s.

Lemma expanded_mono x s1 s2 : s1 ⊆ s2 -> expanded x s1 -> expanded x s2.
Proof. intros Hs Hx ls y Hls Hy. apply Hs. by eapply Hx. Qed.

(** What a walk from [starts] adds to [seen]: the starts, and blocks below them whose links
    are seen too. *)
Record walked (starts : list cid) (seen s : gset string) : Prop := {
  wk_mono : seen ⊆ s;
  wk_starts c : c ∈ starts -> HashHex c ∈ s;
  wk_new h : h ∈ s -> h ∈ seen \/ exists c x, c ∈ starts /\ reach c x /\ HashHex x = h /\ expanded x s
}.

Lemma walked_nil seen : walked [] seen seen.
Proof. split; [done|by intros c ?%elem_of_nil|auto]. Qed.

Lemma walked_cons c starts seen s1 s :
  walked [c] seen s1 -> walked starts s1 s -> walked (c :: starts) seen s.
Proof.
  intros [M1 S1 N1] [M2 S2 N2]. split.
  - set_solver.
  - intros c' [->|Hc']%elem_of_cons; [apply M2, S1; set_solver|by apply S2].
  - intros h Hh. apply N2 in Hh as [Hh|(c' & x & Hc' & Hr & Hx & He)].
    + apply N1 in Hh as [Hh|(c' & x & Hc' & Hr & Hx & He)]; [by left|]. right. exists c', x.
      split_and!; [set_solver|done|done|by eapply expanded_mono].
    + right. exists c', x. split_and!; [set_solver|done..].
Qed.

Lemma fold_walked (f : cid -> gset string -> option (gset string)) (links : list cid) (seen s : gset string) :
  (forall c seen s, f c seen = Some s -> walked [c] seen s) ->
  foldl (fun acc link => acc ≫= f link) (Some seen) links = Some s -> walked links seen s.
Proof.
  intros Hf. revert seen. induction links as [|c links IH]; intros seen Hs; cbn [foldl] in Hs.
  { injection Hs as <-. apply walked_nil. }
  change (Some seen ≫= f c) with (f c seen) in Hs. destruct (f c seen) as [s1|] eqn:Hs1.
  - apply (walked_cons c links seen s1); [by apply Hf|by apply IH].
  - exfalso. clear -Hs. induction links as [|c links IH]; cbn in Hs; [done|auto].
Qed.

Lemma walk_walked fuel c seen s : gcWalkDAG fuel b c seen = Some s -> walked [c] seen s.
Proof.
  revert c seen s. induction fuel as [|fuel IH]; intros c seen s Hs; [done|]. cbn [gcWalkDAG] in Hs.
  destruct (decide (HashHex c ∈ seen)) as [Hin|Hnot].
  { injection Hs as <-. split; [done| |auto]. by intros c' ->%list_elem_of_singleton. }
  destruct (dag_Get c b) as [links|e] eqn:Hget.
  - apply (fold_walked (gcWalkDAG fuel b)) in Hs as [M1 S1 N1]; [|done]. split.
    + set_solver.
    + intros c' ->%list_elem_of_singleton. set_solver.
    + assert (expanded c s) as Hc by (intros ls y Hls Hy; rewrite Hget in Hls; simplify_eq; by apply S1).
      intros h Hh. apply N1 in Hh as [Hh|(c' & x & Hc' & Hr & Hx & He)].
      * apply elem_of_union in Hh as [->%elem_of_singleton|Hh]; [|by left].
        right. exists c, c. split_and!; [by apply list_elem_of_singleton|apply rtc_refl|done..].
      * right. exists c, x. split_and!; [by apply list_elem_of_singleton| |done..].
        apply rtc_l with c'; [|done]. by exists links.
  - injection Hs as <-. split.
    + set_solver.
    + intros c' ->%list_elem_of_singleton. set_solver.
    + intros h [->%elem_of_singleton|Hh]%elem_of_union; [|by left].
      right. exists c, c. split_and!; [by apply list_elem_of_singleton|apply rtc_refl|done|].
      intros ls y Hls. congruence.
Qed.

Lemma walk_roots_walked fuel roots seen s : walk_roots fuel b roots seen = Some s -> walked roots seen s.
Proof. apply fold_walked. intros c. apply walk_walked. Qed.

Lemma walk_roots_terminates fuel roots :
  (size (bs_view b) < fuel)%nat -> exists s, walk_roots fuel b roots ∅ = Some s.
Proof.
  intros Hf. destruct (fold_links_some (gcWalkDAG fuel b) roots ∅) as (s & Hs & _); [|by exists s].
  intros c seen _. apply walk_terminates. eapply Nat.le_lt_trans; [|exact Hf].
  rewrite <- size_dom. apply subseteq_size. unfold unseen. set_solver.
Qed.

(** Identifiers of the same bytes below the roots decode to the same links. *)
Definition one_codec (roots : list cid) : Prop :=
  forall r r' x y, r ∈ roots -> r' ∈ roots -> reach r x -> reach r' y -> Hash x = Hash y -> dag_Get x b = dag_Get y b.

Definition is_live (roots : list cid) (h : bytes) : Prop := exists r x, r ∈ roots /\ reach r x /\ Hash x = h.

Lemma walk_exact roots s :
  walked roots ∅ s -> one_codec roots -> forall h, hex_encode h ∈ s <-> is_live roots h.
Proof.
  intros [_ Hst Hnew] Hcodec h. split.
  - intros Hh. apply Hnew in Hh as [?%elem_of_empty|(r & x & Hr & Hx & Hhx & _)]; [done|].
    exists r, x. split_and!; [done..|]. by apply hex_encode_inj.
  - intros (r & x & Hr & Hx & <-).
    revert x Hx. apply (rtc_ind_r (fun x => HashHex x ∈ s)); [by apply Hst|]. intros x y Hx Hxy IH.
    apply Hnew in IH as [?%elem_of_empty|(r' & x' & Hr' & Hx' & Hh' & He)]; [done|].
    destruct Hxy as (ls & Hls & Hy). apply (He ls); [|done].
    rewrite <- Hls. apply (Hcodec r' r); [done..|]. by apply hex_encode_inj.
Qed.

End Walk.

(** ** The sweep *)

Section Sweep.
Context `{HL : StoreLaws} `{HR : !RootDeps} `{HG : !DagDeps} `{HGL : !DagLaws} `{HRL : !RootLaws}.

Definition doomed (reachable : gset string) (keys : list cid) (h : bytes) : Prop :=
  h ∈ Hash <$> keys /\ hex_encode h ∉ reachable.

Lemma sweep_spec reachable keys b removed kept :
  NoDup (Hash <$> keys) -> (forall c, c ∈ keys -> is_Some (bs_view b !! Hash c)) ->
  exists b' res, sweep reachable keys removed kept b = (b', Ok res) /\
    (forall h, doomed reachable keys h -> bs_view b' !! h = None) /\
    (forall h, ~ doomed reachable keys h -> bs_view b' !! h = bs_view b !! h) /\
    res.(gc_removed) + Z.of_nat (size (bs_view b')) = removed + Z.of_nat (size (bs_view b)) /\
    res.(gc_removed) + res.(gc_kept) = removed + kept + Z.of_nat (length keys).
Proof.
  unfold doomed. revert b removed kept.
  induction keys as [|c keys IH]; intros b removed kept Hnd Hin; cbn [sweep].
  { exists b. eexists. split; [done|]. cbn. split_and!; [|done|lia|lia]. by intros h [?%elem_of_nil _]. }
  rewrite fmap_cons in *. apply NoDup_cons in Hnd as [Hnot Hnd].
  assert (forall c', c' ∈ keys -> is_Some (bs_view b !! Hash c')) as Hin' by (intros; by apply Hin, list_elem_of_further).
  destruct (decide (HashHex c ∈ reachable)) as [Hlive|Hdead].
  - destruct (IH b removed (kept + 1) Hnd Hin') as (b' & res & Hrun & Hd & Hk & Hs & Hl).
    exists b', res. split; [done|]. split_and!; [| |done|cbn [length]; lia].
    + intros h [[->|Hh]%elem_of_cons Hn]; [done|]. by apply Hd.
    + intros h Hn. apply Hk. intros [Hh Hr]. apply Hn. split; [by apply list_elem_of_further|done].
  - pose proof (bs_Delete_ok c b) as Hok. pose proof (bs_Delete_view c b) as Hv.
    unfold mbind, M_bind, m_bind. cbn [st_Delete localBlockStore]. unfold local_Delete.
    destruct (bs_DeleteBlock c b) as [b1 r]. cbn in Hok, Hv. subst r.
    assert (size (bs_view b) = S (size (bs_view b1))) as Hsize.
    { rewrite Hv, map_size_delete_Some by (apply Hin, list_elem_of_here).
      destruct (size (bs_view b)) eqn:Hz; [|done]. exfalso. apply map_size_empty_inv in Hz.
      destruct (Hin c) as [d Hdd]; [apply list_elem_of_here|]. by rewrite Hz, lookup_empty in Hdd. }
    destruct (IH b1 (removed + 1) kept Hnd) as (b' & res & Hrun & Hd & Hk & Hs & Hl).
    { intros c' Hc'. rewrite Hv, lookup_delete_ne; [by apply Hin'|]. intros Heq. apply Hnot. rewrite Heq.
      by apply list_elem_of_fmap_2. }
    exists b', res. split; [done|].
    assert (bs_view b' !! Hash c = None) as Hc.
    { rewrite Hk; [by rewrite Hv, lookup_delete_eq|]. by intros [? _]. }
    split_and!; [| |lia|cbn [length]; lia].
    + intros h [[->|Hh]%elem_of_cons Hn]; [done|]. by apply Hd.
    + intros h Hn. destruct (decide (h = Hash c)) as [->|Hne].
      * exfalso. apply Hn. split; [apply list_elem_of_here|done].
      * rewrite Hk; [by rewrite Hv, lookup_delete_ne by congruence|].
        intros [Hh Hr]. apply Hn. split; [by apply list_elem_of_further|done].
Qed.

(** C14: A local collection keeps exactly what the user tracks. With fuel for one call per local
    block it always ends; afterwards the local blocks are those reachable, along the links of
    present blocks, from the CID of a tracked root, with their data, and no others; the
    result counts the blocks deleted and kept; the network blocks and the registry are
    untouched. Identifiers of the same bytes are assumed to decode to the same links. *)
Theorem local_gc_exact (fuel : nat) (s : Store) (R : gmap seg Root) :
  represents R s.(Roots_) -> (size (bs_view s.(LocalBlocks)) < fuel)%nat ->
  let roots := rt_CID <$> (map_to_list R).*2 in
  one_codec s.(LocalBlocks) roots ->
  exists b' res, gcLocal fuel s = (mkStore b' s.(NetworkBlocks) s.(Roots_), Ok res) /\
    (forall h, is_live s.(LocalBlocks) roots h -> bs_view b' !! h = bs_view s.(LocalBlocks) !! h) /\
    (forall h, ~ is_live s.(LocalBlocks) roots h -> bs_view b' !! h = None) /\
    res.(gc_kept) = Z.of_nat (size (bs_view b')) /\
    res.(gc_removed) + res.(gc_kept) = Z.of_nat (size (bs_view s.(LocalBlocks))).
Proof.
  intros Hrep Hfuel roots Hcodec. destruct s as [b n d]. cbn [LocalBlocks NetworkBlocks Roots_] in *.
  destruct (List_spec R d Hrep) as (rs & Hrs & Hperm).
  assert (forall c, c ∈ rt_CID <$> rs <-> c ∈ roots) as Hroots by (intros c; unfold roots; by rewrite Hperm).
  destruct (walk_roots_terminates b fuel (rt_CID <$> rs) Hfuel) as [reachable Hwalk].
  destruct (bs_AllKeys_view b) as (keys & Hkeys & Hkp).
  destruct (sweep_spec reachable keys b 0 0) as (b' & res & Hrun & Hdead & Hkeep & Hsize & Hlen).
  { rewrite Hkp. apply NoDup_fst_map_to_list. }
  { intros c Hc. destruct (perm_lookup (bs_view b) (Hash c) _ Hkp) as [v Hv]; [by apply list_elem_of_fmap_2|].
    eauto. }
  exists b', res.
  assert (forall h, hex_encode h ∈ reachable <-> is_live b roots h) as Hex.
  { intros h. rewrite (walk_exact b (rt_CID <$> rs) reachable).
    - unfold is_live. by setoid_rewrite Hroots.
    - by eapply walk_roots_walked.
    - intros r r' x y Hr Hr'. apply Hcodec; by apply Hroots. }
  assert (forall h, h ∈ Hash <$> keys <-> is_Some (bs_view b !! h)) as Hdom.
  { intros h. rewrite Hkp. split.
    - intros Hh. destruct (perm_lookup (bs_view b) h _ (reflexivity _) Hh) as [v Hv]. eauto.
    - intros [v Hv]. apply list_elem_of_fmap. exists (h, v). by rewrite elem_of_map_to_list. }
  assert (length keys = size (bs_view b)) as Hlk.
  { rewrite <- (length_fmap Hash), Hkp, length_fmap. apply length_map_to_list. }
  split_and!.
  - unfold gcLocal. erewrite run_bind; [|unfold on_roots; cbn; by rewrite Hrs].
    erewrite run_bind by done. cbn [LocalBlocks]. rewrite Hwalk.
    erewrite run_bind; [|unfold on_local; cbn; unfold local_AllKeysChan; by rewrite Hkeys].
    unfold on_local. cbn [LocalBlocks NetworkBlocks Roots_]. by rewrite Hrun.
  - intros h Hh. apply Hkeep. intros [_ Hn]. by apply Hn, Hex.
  - intros h Hh. destruct (bs_view b !! h) as [v|] eqn:Hv.
    + apply Hdead. split; [apply Hdom; eauto|]. by rewrite Hex.
    + rewrite Hkeep; [done|]. intros [Hin _]. apply Hdom in Hin. rewrite Hv in Hin. by destruct Hin.
  - lia.
  - lia.
Qed.

(** The walk remembers multihashes, not identifiers. When two tracked roots name the same
    bytes under codecs that decode them differently, and the one listed first sees no links
    where the other does, the collection deletes a block the second root needs. *)
Theorem gc_codec_confusion (fuel : nat) (s : Store) (r1 r2 : Root) (child : cid) :
  (1 < fuel)%nat -> List_ s.(Roots_) = (s.(Roots_), Ok [r1; r2]) ->
  Hash r1.(rt_CID) = Hash r2.(rt_CID) -> Hash child <> Hash r1.(rt_CID) ->
  dag_Get r1.(rt_CID) s.(LocalBlocks) = Ok [] -> dag_Get r2.(rt_CID) s.(LocalBlocks) = Ok [child] ->
  exists b' res, gcLocal fuel s = (mkStore b' s.(NetworkBlocks) s.(Roots_), Ok res) /\
    is_live s.(LocalBlocks) [r1.(rt_CID); r2.(rt_CID)] (Hash child) /\ bs_view b' !! Hash child = None.
Proof.
  intros Hfuel Hlist Hhash Hne H1 H2. destruct s as [b n d]. cbn [LocalBlocks NetworkBlocks Roots_] in *.
  assert (walk_roots fuel b [rt_CID r1; rt_CID r2] ∅ = Some {[HashHex (rt_CID r1)]}) as Hwalk.
  { destruct fuel as [|fuel]; [lia|]. unfold walk_roots. cbn [foldl].
    assert (gcWalkDAG (S fuel) b (rt_CID r1) ∅ = Some {[HashHex (rt_CID r1)]}) as Hw1.
    { cbn [gcWalkDAG]. rewrite decide_False by set_solver. rewrite H1. cbn [foldl]. f_equal. set_solver. }
    cbn [mbind option_bind]. rewrite Hw1. cbn [gcWalkDAG mbind option_bind]. rewrite decide_True by (unfold HashHex; rewrite Hhash; set_solver). done. }
  destruct (bs_AllKeys_view b) as (keys & Hkeys & Hkp).
  destruct (sweep_spec {[HashHex (rt_CID r1)]} keys b 0 0) as (b' & res & Hrun & Hdead & Hkeep & _).
  { rewrite Hkp. apply NoDup_fst_map_to_list. }
  { intros c Hc. destruct (perm_lookup (bs_view b) (Hash c) _ Hkp) as [v Hv]; [by apply list_elem_of_fmap_2|].
    eauto. }
  exists b', res. split_and!.
  - unfold gcLocal. erewrite run_bind; [|unfold on_roots; cbn; by rewrite Hlist].
    erewrite run_bind by done. cbn [LocalBlocks fmap list_fmap]. rewrite Hwalk.
    erewrite run_bind; [|unfold on_local; cbn; unfold local_AllKeysChan; by rewrite Hkeys].
    unfold on_local. cbn [LocalBlocks NetworkBlocks Roots_]. by rewrite Hrun.
  - exists (rt_CID r2), child. split_and!; [set_solver| |done]. apply rtc_once. exists [child].
    split; [done|by apply list_elem_of_singleton].
  - destruct (bs_view b !! Hash child) as [v|] eqn:Hv.
    + apply Hdead. split.
      * rewrite Hkp. apply list_elem_of_fmap. exists (Hash child, v). by rewrite elem_of_map_to_list.
      * intros Hin%elem_of_singleton. by apply hex_encode_inj in Hin.
    + rewrite Hkeep; [done|]. intros [Hin _]. rewrite Hkp in Hin.
      destruct (perm_lookup (bs_view b) (Hash child) _ (reflexivity _) Hin) as [v' Hv']. congruence.
Qed.

End Sweep.

Module LocalGCExample.
Import MemStore RegistryExample.

(** A toy codec: a block that is not raw lists links, two bytes each. *)
Fixpoint toy_links (data : bytes) : list (@cid deps) :=
  match data with
  | k :: h :: rest => (bool_decide (k = x01), [h]) :: toy_links rest
  | _ => []
  end.

#[export] Instance dag_deps : DagDeps := {|
  dag_Get := fun c b =>
    match b !! c.2 with
    | Some data => Ok (if c.1 then [] else toy_links data)
    | None => Err (errorf "merkledag: not found")
    end;
  decodeLinks := fun c data => Ok (if c.1 then [] else toy_links data) |}.

#[export] Instance dag_laws : DagLaws.
Proof.
  split. intros [k h] b ls. change (bs_view b) with b.
  change (gmap bytes bytes) in b. cbn. destruct (b !! h) as [data|]; split.
  - intros [= <-]. by exists data.
  - by intros (? & [= <-] & [= <-]).
  - done.
  - by intros (? & ? & _).
Qed.

(** A root with one leaf, and a block nobody needs. *)
Definition root_cid : @cid deps := (false, [x01]).
Definition leaf_cid : @cid deps := (true, [x02]).
Definition disk : @bstore deps := (<[[x01] := [x01; x02]]> (<[[x02] := [x07]]> (<[[x03] := [x09]]> ∅)) : gmap bytes bytes).
Definition docs : @Root deps := mkRoot "" "docs" root_cid "/docs" None.
Definition registry : @dstore deps := (run_rop (RAdd 5 id1 docs) (∅ : gmap string bytes)).1.
Definition tracked : gmap seg (@Root deps) := {[id1 := stamped 5 id1 docs]}.
Definition network : NBS := mkNBS (∅ : gmap string bytes) (∅ : gmap bytes bytes) 0 0 0 ∅ ∅.
Definition machine : Store := mkStore disk network registry.

Lemma registry_tracked : represents tracked registry.
Proof.
  pose proof (Add_refines ∅ (∅ : gmap string bytes) 5 id1 docs) as H. unfold registry.
  destruct (run_rop (RAdd 5 id1 docs) (∅ : gmap string bytes)) as [d out] eqn:Hrun.
  destruct H as (R & Hstep & Hrep); [by apply represents_empty|done| |].
  { split_and!; try done. by exists 5. }
  replace tracked with R; [done|]. inversion Hstep; subst; [done|].
  by rewrite lookup_empty in *.
Qed.


Lemma reach_root x : reach disk root_cid x -> x = root_cid \/ x = leaf_cid.
Proof.
  revert x. apply rtc_ind_r; [by left|]. intros y z _ (ls & Hls & Hz) [->| ->].
  - vm_compute in Hls. injection Hls as <-. apply list_elem_of_singleton in Hz. by right.
  - vm_compute in Hls. injection Hls as <-. by apply elem_of_nil in Hz.
Qed.

Lemma machine_codec : one_codec disk [root_cid].
Proof.
  intros r r' x y ->%list_elem_of_singleton ->%list_elem_of_singleton Hx Hy.
  apply reach_root in Hx as [->| ->]; apply reach_root in Hy as [->| ->]; done.
Qed.

(** The leaf survives, the stray block is deleted. *)
Lemma local_gc_exact_witness :
  exists b' res, gcLocal 4 machine = (mkStore b' network registry, Ok res) /\
    bs_view b' !! [x02] = Some [x07] /\ bs_view b' !! [x03] = None /\
    res.(gc_removed) + res.(gc_kept) = 3.
Proof.
  destruct (local_gc_exact 4 machine tracked) as (b' & res & Hrun & Hlive & Hdead & _ & Hsum).
  - apply registry_tracked.
  - vm_compute. lia.
  - exact machine_codec.
  - exists b', res. split; [exact Hrun|]. split; [|split; [|exact Hsum]].
    + rewrite Hlive; [reflexivity|]. exists root_cid, leaf_cid. split; [by apply list_elem_of_singleton|].
      split; [|done]. apply rtc_once. exists [leaf_cid]. split; [reflexivity|by apply list_elem_of_singleton].
    + apply Hdead. intros (r & x & ->%list_elem_of_singleton & Hx & Hh). apply reach_root in Hx as [->| ->]; done.
Defined.

(** The same bytes tracked raw and as a list of links. *)
Definition raw_root : @Root deps := mkRoot "u1" "raw" (true, [x01]) "" (Some 1).
Definition full_root : @Root deps := mkRoot "u2" "full" root_cid "" (Some 2).
Definition two_roots : @dstore deps :=
  (run_rop (RAdd 2 id2 full_root) (run_rop (RAdd 1 id1 raw_root) (∅ : gmap string bytes)).1).1.

Lemma two_roots_list : (List_ two_roots).2 = Ok [raw_root; full_root].
Proof. vm_cast_no_check (eq_refl (Ok [raw_root; full_root])). Qed.

Lemma gc_codec_confusion_witness :
  exists b' res, gcLocal 4 (mkStore disk network two_roots) = (mkStore b' network two_roots, Ok res) /\
    is_live disk [(true, [x01]); root_cid] [x02] /\ bs_view b' !! [x02] = None.
Proof.
  apply (gc_codec_confusion 4 (mkStore disk network two_roots) raw_root full_root leaf_cid).
  - lia.
  - apply injective_projections; [reflexivity|exact two_roots_list].
  - reflexivity.
  - discriminate.
  - reflexivity.
  - reflexivity.
Defined.

End LocalGCExample.
