(* ===== verification/RingIndex.v ===== *)
(** * The metadata of the rings

    The datastore of src/store/network_block_store.go as a function from the keys of the
    schema ([meta]): [rep m b R s] says that the store [s] holds exactly the metadata [m], the
    blocks [b] and the loaded ring counters [R]. Each operation on rings is described by what it
    does to these three, so that theorems about collections and about the counters of rings
    do not mention strings or queries. *)

From stdpp Require Import base gmap list strings.
From Stdlib Require Import ZArith Lia Strings.Byte Ascii.
From S2P Require Import Prelude Hoare Hex StoreKeys StoreDeps NetworkStore.

Set Default Goal Selector "!".
Local Open Scope Z_scope.

(** ** Strings that end with a segment *)

Lemma string_length_app a b : String.length (a +:+ b) = (String.length a + String.length b)%nat.
Proof. induction a as [|c a IH]; [done|]. rewrite string_app_cons. cbn. by rewrite IH. Qed.

Lemma last_segment x y a b :
  slash_free a = true -> slash_free b = true ->
  x +:+ String slash a = y +:+ String slash b -> x = y /\ a = b.
Proof.
  intros Ha Hb. revert y. induction x as [|c x IH]; intros [|d y]; rewrite ?string_app_cons, ?string_app_nil_l.
  - by intros [= ->].
  - intros [= <- ->]. rewrite slash_free_app in Ha. apply andb_true_iff in Ha as [_ Ha]. done.
  - intros [= -> <-]. rewrite slash_free_app in Hb. apply andb_true_iff in Hb as [_ Hb]. done.
  - intros [= -> H]. by destruct (IH y H) as [-> ->].
Qed.

Lemma str_drop_split n s : (n <= String.length s)%nat -> exists x, s = x +:+ str_drop n s /\ String.length x = n.
Proof.
  revert s. induction n as [|n IH]; intros s Hn; [by exists ""|]. destruct s as [|c s]; cbn in Hn; [lia|].
  destruct (IH s) as (x & Hx & Hl); [lia|]. exists (String c x). cbn. rewrite string_app_cons, <- Hx. by rewrite Hl.
Qed.

Lemma substring_app p a rest : String.substring (String.length p) (String.length a) (p +:+ a +:+ rest) = a.
Proof.
  induction p as [|c p IH].
  - rewrite string_app_nil_l. cbn. induction a as [|c a IHa]; [by destruct rest|].
    rewrite string_app_cons. cbn. by rewrite IHa.
  - rewrite string_app_cons. cbn. apply IH.
Qed.

(** ** Metadata *)

Definition meta : Type := nbkey -> option bytes.

Definition upd (k : nbkey) (v : option bytes) (m : meta) : meta := fun k' => if decide (k' = k) then v else m k'.

Lemma upd_same k v m : upd k v m k = v.
Proof. unfold upd. by rewrite decide_True. Qed.

Lemma upd_other k k' v m : k' <> k -> upd k v m k' = m k'.
Proof. intros. unfold upd. by rewrite decide_False. Qed.

(** A stored counter. *)
Definition counter (v : option bytes) : option Z :=
  match v with
  | Some data => if Nat.eqb (length data) 8 then Some (decodeInt64LE data) else None
  | None => None
  end.

(** The counters a ring starts from when they are loaded. *)
Definition loaded (m : meta) (r : seg) : ringCounters :=
  mkRC (default 0 (counter (m (KRingUsed r)))) (default 0 (counter (m (KRingCount r))))
       (default 0 (counter (m (KRingQuota r)))).

(** The counters of a ring, in memory or still on disk. *)
Definition counters (m : meta) (R : gmap string ringCounters) (r : seg) : ringCounters :=
  default (loaded m r) (R !! seg_str r).

(** The usage of a root after [addCIDUsage]. *)
Definition usage_after (delta : Z) (v : option bytes) : Z :=
  let next := wrap64 (default 0 (counter v) + delta) in if next <? 0 then 0 else next.

Definition add_usage (r c : seg) (delta : Z) (m : meta) : meta :=
  if delta =? 0 then m else upd (KCIDUsage r c) (Some (encodeInt64LE (usage_after delta (m (KCIDUsage r c))))) m.

Section Index.
Context `{HD : StoreDeps} `{HL : !StoreLaws}.

Record rep (m : meta) (b : gmap bytes bytes) (R : gmap string ringCounters) (s : NBS) : Prop := {
  rep_meta k : ds_view s.(nbs_ds) !! render k = m k;
  rep_schema key : is_Some (ds_view s.(nbs_ds) !! key) -> exists k, key = render k;
  rep_blocks : bs_view s.(nbs_bs) = b;
  rep_rings : s.(nbs_rings) = R;
  (** Rings remembered in memory are on disk. *)
  rep_known r : seg_str r ∈ s.(nbs_known) -> is_Some (m (KPresence r))
}.

(** A key that is not the presence of a ring. *)
Definition not_presence (k : nbkey) : Prop := forall r, k <> KPresence r.

Lemma rep_ext m m' b R s : (forall k, m k = m' k) -> rep m b R s -> rep m' b R s.
Proof. intros Hm [H1 H2 H3 H4 H5]. split; [|done..|]; intros k; [by rewrite H1|]. rewrite <- Hm. apply H5. Qed.

(** ** Reads and writes *)

Lemma rep_dsPut k v m b R :
  succeeds (rep m b R) (dsWrite (ds_Put (newKey (render k)) v)) (fun _ => rep (upd k (Some v) m) b R).
Proof.
  intros s [H1 H2 H3 H4 H5]. unfold dsWrite. rewrite newKey_clean.
  pose proof (ds_Put_view (render k) v (nbs_ds s)) as Hv. pose proof (ds_Put_ok (render k) v (nbs_ds s)) as Hok.
  destruct (ds_Put (render k) v (nbs_ds s)) as [d r]. cbn in Hv, Hok. subst r. split; cbn; [..|done|done|].
  - intros k'. rewrite Hv. unfold upd. case_decide as Hk.
    + subst. by rewrite lookup_insert_eq.
    + rewrite lookup_insert_ne; [done|]. intros E. apply Hk. symmetry. by apply (inj render).
  - intros key. rewrite Hv. intros [<-|[_ Hs]]%lookup_insert_is_Some; eauto.
  - intros r Hr. unfold upd. case_decide; [done|]. by apply H5.
Qed.

Lemma rep_put k v m b R : succeeds (rep m b R) (dsPut_ (render k) v) (fun _ => rep (upd k (Some v) m) b R).
Proof. apply succeeds_ignore, rep_dsPut. Qed.

Lemma rep_delete k m b R : not_presence k -> succeeds (rep m b R) (dsDelete_ (render k)) (fun _ => rep (upd k None m) b R).
Proof.
  intros Hnp. apply succeeds_ignore. intros s [H1 H2 H3 H4 H5]. unfold dsWrite. rewrite newKey_clean.
  pose proof (ds_Delete_view (render k) (nbs_ds s)) as Hv. pose proof (ds_Delete_ok (render k) (nbs_ds s)) as Hok.
  destruct (ds_Delete (render k) (nbs_ds s)) as [d r]. cbn in Hv, Hok. subst r. split; cbn; [..|done|done|].
  - intros k'. rewrite Hv. unfold upd. case_decide as Hk.
    + subst. by rewrite lookup_delete_eq.
    + rewrite lookup_delete_ne; [done|]. intros E. apply Hk. symmetry. by apply (inj render).
  - intros key. rewrite Hv. intros [_ Hs]%lookup_delete_is_Some. eauto.
  - intros r Hr. unfold upd. rewrite decide_False by (intros E; by apply (Hnp r)). by apply H5.
Qed.

(** The answers of a query whose prefix selects the keys [sel]. *)
Definition answers (m : meta) (sel : nbkey -> Prop) (l : list (string * bytes)) : Prop :=
  NoDup l.*1 /\ forall key v, (key, v) ∈ l <-> exists k, key = render k /\ sel k /\ m k = Some v.

Lemma rep_query p sel m b R :
  (forall k, has_prefix p (render k) = true <-> sel k) ->
  succeeds (rep m b R) (query_ p) (fun l s => rep m b R s /\ answers m sel l).
Proof.
  intros Hsel s Hs. unfold query_, mbind, M_bind, m_bind, m_try, dsRead.
  destruct (ds_Query_view p (nbs_ds s)) as (l & -> & Hl). split; [done|]. split.
  - rewrite Hl. apply NoDup_filterb_fmap, NoDup_fst_map_to_list.
  - intros key v. rewrite Hl, elem_of_filterb, elem_of_map_to_list. destruct Hs as [H1 H2 _ _ _]. split.
    + intros [Hp Hv]. destruct (H2 key) as [k ->]; [eauto|]. exists k. rewrite <- H1. split_and!; [done| |done]. by apply Hsel.
    + intros (k & -> & Hk & Hm). rewrite H1. split; [by apply Hsel|done].
Qed.

Lemma rep_get k m b R :
  succeeds (rep m b R) (m_try (dsRead (ds_Get (newKey (render k)))))
    (fun r s => rep m b R s /\ match m k with Some v => r = Ok v | None => exists e, r = Err e end).
Proof.
  intros s Hs. unfold m_try, dsRead. rewrite newKey_clean. split; [done|].
  destruct (ds_Get (render k) (nbs_ds s)) as [v|e] eqn:Hg.
  - apply ds_Get_view in Hg. rewrite (rep_meta _ _ _ _ Hs) in Hg. by rewrite Hg.
  - destruct (m k) as [v|] eqn:Hm; [|eauto]. rewrite <- (rep_meta _ _ _ _ Hs) in Hm.
    apply ds_Get_view in Hm. congruence.
Qed.

Lemma rep_has k m b R :
  succeeds (rep m b R) (m_try (dsRead (ds_Has (newKey (render k)))))
    (fun r s => rep m b R s /\ r = Ok (bool_decide (is_Some (m k)))).
Proof.
  intros s Hs. unfold m_try, dsRead. rewrite newKey_clean, ds_Has_view, (rep_meta _ _ _ _ Hs). done.
Qed.

Lemma rep_counter k m b R :
  succeeds (rep m b R) (read_counter (render k)) (fun r s => rep m b R s /\ r = counter (m k)).
Proof.
  unfold read_counter. eapply succeeds_bind; [apply rep_get|]. intros r. apply succeeds_ret.
  intros s [Hs Hr]. split; [done|]. unfold counter. destruct (m k); [by subst|]. by destruct Hr as [e ->].
Qed.

(** ** Counters of rings and usage of roots *)

Definition load (m : meta) (R : gmap string ringCounters) (r : seg) : gmap string ringCounters :=
  match R !! seg_str r with Some _ => R | None => <[seg_str r := loaded m r]> R end.

Lemma load_Some m R r : load m R r !! seg_str r = Some (counters m R r).
Proof. unfold load, counters. destruct (R !! seg_str r) eqn:HR; [done|]. apply lookup_insert_eq. Qed.

Lemma counters_load m m' R r r' : loaded m r = loaded m' r -> counters m' (load m R r) r' = counters m' R r'.
Proof.
  intros Hl. unfold load, counters. destruct (R !! seg_str r) eqn:HR; [done|].
  destruct (decide (r = r')) as [<-|Hne]; [by rewrite lookup_insert_eq, HR|].
  rewrite lookup_insert_ne; [done|]. intros E. by apply Hne, seg_eq.
Qed.

Lemma counters_alter m R r f r' :
  is_Some (R !! seg_str r) ->
  counters m (alter f (seg_str r) R) r' = if decide (r' = r) then f (counters m R r) else counters m R r'.
Proof.
  intros [rc Hrc]. unfold counters. case_decide as Hr.
  - subst. by rewrite lookup_alter_eq, Hrc.
  - rewrite lookup_alter_ne; [done|]. intros E. by apply Hr, seg_eq.
Qed.

Lemma rep_getRing r m b R :
  succeeds (rep m b R) (getRingCounters (seg_str r)) (fun rc s => rep m b (load m R r) s /\ rc = counters m R r).
Proof.
  unfold getRingCounters. intros s Hs. unfold mbind, M_bind, m_bind at 1. cbn [m_get].
  rewrite (rep_rings _ _ _ _ Hs). destruct (R !! seg_str r) as [rc|] eqn:HR.
  { unfold load, counters. by rewrite HR. }
  revert s Hs. change (succeeds (rep m b R)
    (used ← read_counter (render (KRingUsed r)); count ← read_counter (render (KRingCount r));
     quota ← read_counter (render (KRingQuota r));
     let rc := mkRC (default 0 used) (default 0 count) (default 0 quota) in
     _ ← m_modify (fun s => set_rings (<[seg_str r := rc]> s.(nbs_rings)) s); m_ret rc)
    (fun rc s => rep m b (load m R r) s /\ rc = counters m R r)).
  eapply succeeds_bind_fact; [apply rep_counter|]. intros used ->.
  eapply succeeds_bind_fact; [apply rep_counter|]. intros count ->.
  eapply succeeds_bind_fact; [apply rep_counter|]. intros quota ->.
  intros s [H1 H2 H3 H4 H5]. cbn. unfold load, counters. rewrite HR. cbn. split; [|done]. split; cbn; [done..| |done].
  by rewrite H4.
Qed.

Lemma rep_modifyRing r f m b R :
  succeeds (rep m b R) (modifyRing r f) (fun _ => rep m b (alter f r R)).
Proof. intros s [H1 H2 H3 H4 H5]. split; cbn; [done..| |done]. by rewrite H4. Qed.

Lemma rep_addCIDUsage r c delta m b R :
  succeeds (rep m b R) (addCIDUsage (seg_str r) (seg_str c) delta) (fun _ => rep (add_usage r c delta m) b R).
Proof.
  unfold addCIDUsage, add_usage. destruct (delta =? 0); [by apply succeeds_ret|].
  change (cidUsageKey (seg_str r) (seg_str c)) with (render (KCIDUsage r c)).
  eapply succeeds_bind_fact; [apply rep_counter|]. intros cur ->. apply rep_put.
Qed.

(** ** Blocks *)

Definition size_in (b : gmap bytes bytes) (c : cid) (r : result Z) : Prop :=
  match b !! Hash c with Some d => r = Ok (Z.of_nat (length d)) | None => exists e, r = Err e end.

Lemma rep_size c m b R :
  succeeds (rep m b R) (blockSize c) (fun r s => rep m b R s /\ size_in b c r).
Proof.
  intros s Hs. unfold blockSize, m_try, bsRead, size_in. rewrite bs_GetSize_view, (rep_blocks _ _ _ _ Hs).
  split; [done|]. destruct (b !! Hash c); eauto.
Qed.

Lemma rep_has_block r mh m b R :
  succeeds (rep m b R) (ringHasBlock (seg_str r) (seg_str mh))
    (fun has s => rep m b R s /\ (has = true <-> exists c, is_Some (m (KBlockRoot r mh c)))).
Proof.
  unfold ringHasBlock. eapply succeeds_bind_fact; [apply rep_query, query_block|].
  intros l [_ Hl]. apply succeeds_ret. intros s Hs. split; [done|]. destruct l as [|[key v] l].
  - split; [done|]. intros (c & v & Hv). exfalso. apply (not_elem_of_nil (render (KBlockRoot r mh c), v)), Hl. eauto.
  - split; [|done]. intros _. destruct (Hl key v) as [(k & _ & [c ->] & Hk) _]; [apply list_elem_of_here|]. eauto.
Qed.

(** What [lookupBlockCID] may answer for the blocks [b]. *)
Definition found_in (b : gmap bytes bytes) (h : bytes) (r : option cid) : Prop :=
  match b !! h with Some _ => exists c, r = Some c /\ Hash c = h | None => r = None end.

Lemma rep_lookup mh m b R :
  succeeds (rep m b R) (lookupBlockCID mh)
    (fun r s => rep m b R s /\ forall h, mh = hex_encode h -> found_in b h r).
Proof.
  intros s Hs. unfold lookupBlockCID, found_in. destruct (decodeHex mh) as [x|e] eqn:Hx.
  2: { split; [done|]. intros h ->. by rewrite decodeHex_encode in Hx. }
  unfold mbind, M_bind, m_bind, m_try, bsRead. rewrite bs_Has_view, Hash_Raw, (rep_blocks _ _ _ _ Hs).
  case_bool_decide as Hb.
  { split; [done|]. intros h ->. rewrite decodeHex_encode in Hx. injection Hx as <-. destruct Hb as [d ->].
    exists (NewCidV1Raw h). by rewrite Hash_Raw. }
  destruct (bs_AllKeys_view (nbs_bs s)) as (keys & -> & Hkeys). split; [done|].
  intros h ->. rewrite decodeHex_encode in Hx. injection Hx as <-. apply eq_None_not_Some in Hb. rewrite Hb.
  destruct (List.find _ keys) as [c|] eqn:Hf; [|done]. exfalso.
  apply List.find_some in Hf as [Hc E%bool_decide_eq_true]. apply hex_encode_inj in E. subst h.
  apply list_elem_of_In in Hc. destruct (perm_lookup (bs_view (nbs_bs s)) (Hash c) (Hash <$> keys)) as [d Hd]; [done| |].
  - by apply list_elem_of_fmap_2.
  - rewrite (rep_blocks _ _ _ _ Hs) in Hd. congruence.
Qed.

(** ** Balanced rings

    The blocks of a ring are the stored blocks with an index entry in it. A ring is balanced
    when its counters are the bytes and the number of those blocks. *)

Definition indexed (m : meta) (r : seg) (h : bytes) : Prop :=
  exists mh c, seg_str mh = hex_encode h /\ is_Some (m (KBlockRoot r mh c)).

Definition ring_blocks (m : meta) (b : gmap bytes bytes) (r : seg) (B : gmap bytes bytes) : Prop :=
  forall h d, B !! h = Some d <-> b !! h = Some d /\ indexed m r h.

Definition tallies (B : gmap bytes bytes) (rc : ringCounters) : Prop :=
  rc.(rc_used) = total B /\ rc.(rc_count) = Z.of_nat (size B).

(** The sums over the blocks fit 64 bits. *)
Definition small (b : gmap bytes bytes) : Prop := total b < 2 ^ 63 /\ Z.of_nat (size b) < 2 ^ 63.

Record balanced (m : meta) (b : gmap bytes bytes) (R : gmap string ringCounters) : Prop := {
  bal_small : small b;
  (** Index entries belong to known rings and to stored blocks that are not empty. *)
  bal_entry r mh c : is_Some (m (KBlockRoot r mh c)) ->
    is_Some (m (KPresence r)) /\ exists h d, seg_str mh = hex_encode h /\ b !! h = Some d /\ d <> [];
  bal_ring r : exists B, ring_blocks m b r B /\ tallies B (counters m R r)
}.

Lemma total_subseteq (B b : gmap bytes bytes) : B ⊆ b -> total B <= total b.
Proof.
  revert b. induction B as [|h d B Hh IH] using map_ind; intros b Hsub.
  { rewrite total_empty. apply total_nonneg. }
  assert (b !! h = Some d) as Hb by (eapply lookup_weaken; [apply lookup_insert_eq|done]).
  rewrite total_insert, (total_delete b h d) by done.
  specialize (IH (delete h b)). enough (B ⊆ delete h b) by (pose proof (IH ltac:(done)); lia).
  apply map_subseteq_spec. intros h' d' HB. assert (h' <> h) by congruence. rewrite lookup_delete_ne by done.
  eapply lookup_weaken; [|done]. by rewrite lookup_insert_ne.
Qed.

Lemma ring_blocks_sub m b r B : ring_blocks m b r B -> B ⊆ b.
Proof. intros HB. apply map_subseteq_spec. intros h d Hd. by apply HB. Qed.

Lemma ring_blocks_small m b r B : small b -> ring_blocks m b r B -> small B.
Proof.
  intros [H1 H2] HB%ring_blocks_sub. pose proof (total_subseteq B b HB). pose proof (map_subseteq_size B b HB).
  split; lia.
Qed.

(** Keys the counters of a ring are loaded from. *)
Definition counter_key (k : nbkey) : bool :=
  match k with KRingUsed _ | KRingCount _ | KRingQuota _ => true | _ => false end.

Lemma loaded_upd k v m r : counter_key k = false -> loaded (upd k v m) r = loaded m r.
Proof. intros Hk. unfold loaded. rewrite !upd_other; [done|..]; by intros <-. Qed.

Lemma counters_upd k v m R r : counter_key k = false -> counters (upd k v m) R r = counters m R r.
Proof. intros Hk. unfold counters. by rewrite loaded_upd. Qed.

(** Removing an entry leaves the other blocks of the ring. *)
Lemma indexed_upd_other r mh c v m r' h h' :
  seg_str mh = hex_encode h -> r' <> r \/ h' <> h ->
  indexed (upd (KBlockRoot r mh c) v m) r' h' <-> indexed m r' h'.
Proof.
  intros Hmh Hne. assert (forall mh' c', seg_str mh' = hex_encode h' -> KBlockRoot r' mh' c' <> KBlockRoot r mh c) as Hk.
  { intros mh' c' Hmh' [= -> -> ->]. rewrite Hmh in Hmh'. apply hex_encode_inj in Hmh'. naive_solver. }
  unfold indexed. split; intros (mh' & c' & Hmh' & Hs); exists mh', c'; (split; [done|]).
  - rewrite upd_other in Hs; auto.
  - rewrite upd_other; auto.
Qed.

Lemma indexed_upd_sub r mh c m r' h : indexed (upd (KBlockRoot r mh c) None m) r' h -> indexed m r' h.
Proof.
  intros (mh' & c' & Hmh & Hs). exists mh', c'. split; [done|]. unfold upd in Hs. case_decide; [by destruct Hs|done].
Qed.

(** The counters of a ring from which a block goes. *)
Lemma tallies_drop B h d rc :
  small B -> B !! h = Some d -> d <> [] -> tallies B rc ->
  tallies (delete h B) (usage_delta (- Z.of_nat (length d)) (-1) rc).
Proof.
  intros [Hs1 Hs2] Hh Hd [H1 H2]. pose proof (total_delete B h d Hh) as Ht. pose proof (total_nonneg (delete h B)).
  assert (0 < length d)%nat by (destruct d; [done|cbn; lia]).
  assert (size B = S (size (delete h B))) as Hsz.
  { rewrite map_size_delete_Some by eauto. enough (size B <> 0)%nat by lia.
    rewrite map_size_ne_0_lookup. eauto. }
  unfold usage_delta. split; cbn.
  - destruct (Z.eqb_spec (- Z.of_nat (length d)) 0); [lia|]. unfold applySignedDelta.
    rewrite wrap64_small by (unfold in_int64; lia). destruct (Z.ltb_spec (rc_used rc + - Z.of_nat (length d)) 0); lia.
  - unfold applySignedDelta. rewrite wrap64_small by (unfold in_int64; lia).
    destruct (Z.ltb_spec (rc_count rc + -1) 0); lia.
Qed.

(** An entry goes and its block stays in the ring under another root. *)
Lemma balanced_drop_shared r mh c h m b R :
  seg_str mh = hex_encode h -> balanced m b R ->
  let m' := upd (KBlockRoot r mh c) None m in indexed m' r h -> balanced m' b R.
Proof.
  intros Hmh [Hs He Hr] m' Hi. split; [done|..].
  - intros r' mh' c' Hsome. unfold m' in *. unfold upd in Hsome at 1. case_decide; [by destruct Hsome|].
    destruct (He r' mh' c' Hsome) as [Hp Hb]. split; [|done]. by rewrite upd_other.
  - intros r'. destruct (Hr r') as (B & HB & Ht). exists B. split; [|unfold m'; by rewrite counters_upd].
    intros h' d'. rewrite (HB h' d'). destruct (decide (r' = r)) as [->|Hne].
    + destruct (decide (h' = h)) as [->|Hne]; [|unfold m'; rewrite indexed_upd_other by eauto; done].
      split; intros [Hb _]; (split; [done|]); [done|by eapply indexed_upd_sub].
    + unfold m'. by rewrite indexed_upd_other by eauto.
Qed.

(** Keys that balance does not look at, apart from the presence of rings. *)
Definition neutral (k : nbkey) : bool :=
  match k with KBlockRoot _ _ _ | KRingUsed _ | KRingCount _ | KRingQuota _ | KPresence _ => false | _ => true end.

(** All entries of a block go from a ring and the ring gives its bytes back. *)
Lemma balanced_drop_last r mh c h d m m' b R :
  seg_str mh = hex_encode h -> b !! h = Some d -> is_Some (m (KBlockRoot r mh c)) -> is_Some (R !! seg_str r) ->
  balanced m b R ->
  (forall k, neutral k = false -> (forall c, k <> KBlockRoot r mh c) -> m' k = m k) ->
  (forall c, m' (KBlockRoot r mh c) = None) ->
  balanced m' b (alter (usage_delta (- Z.of_nat (length d)) (-1)) (seg_str r) R).
Proof.
  intros Hmh Hd Hin HR [Hs He Hr] Hsame Hnone.
  assert (forall r', counters m' R r' = counters m R r') as Hc by (intros r'; unfold counters, loaded; by rewrite !Hsame).
  assert (forall r' h', indexed m' r' h' <-> indexed m r' h' /\ ~ (r' = r /\ h' = h)) as Hi.
  { intros r' h'. split.
    - intros (mh' & c' & Hmh' & Hsome). destruct (decide (r' = r /\ mh' = mh)) as [[-> ->]|Hne].
      { rewrite Hnone in Hsome. by destruct Hsome. }
      rewrite Hsame in Hsome; [|done|naive_solver]. split; [by exists mh', c'|]. intros [-> ->]. apply Hne. split; [done|].
      apply seg_eq. congruence.
    - intros ((mh' & c' & Hmh' & Hsome) & Hne). exists mh', c'. split; [done|]. rewrite Hsame; [done..|].
      intros c'' [= -> -> ->]. apply Hne. split; [done|]. rewrite Hmh in Hmh'. by apply hex_encode_inj. }
  split; [done|..].
  - intros r' mh' c' Hsome. destruct (decide (r' = r /\ mh' = mh)) as [[-> ->]|Hne].
    { rewrite Hnone in Hsome. by destruct Hsome. }
    rewrite Hsame in Hsome; [|done|naive_solver]. rewrite Hsame by done. by apply (He r' mh' c').
  - intros r'. destruct (Hr r') as (B & HB & Ht). rewrite counters_alter by done. case_decide as Hrr.
    + subst r'. exists (delete h B). split.
      * intros h' d'. rewrite lookup_delete_Some, (HB h' d'), Hi. naive_solver.
      * rewrite Hc. apply tallies_drop; [by eapply ring_blocks_small| | |done].
        { apply HB. split; [done|]. by exists mh, c. }
        destruct (He r mh c Hin) as (_ & h1 & d1 & Hh1 & Hb1 & Hd1). rewrite Hmh in Hh1.
        apply hex_encode_inj in Hh1. subst h1. congruence.
    + exists B. split; [|by rewrite Hc]. intros h' d'. rewrite (HB h' d'), Hi. naive_solver.
Qed.

(** ** Removing roots *)

Lemma suffix_test x a t :
  slash_free a = true -> slash_free t = true -> x <> "" ->
  let k := x +:+ String slash a in let suffix := String slash t in
  (String.length k <=? String.length suffix)%nat
    || negb (bool_decide (str_drop (String.length k - String.length suffix) k = suffix)) = negb (bool_decide (a = t)).
Proof.
  intros Ha Ht Hx k suffix. destruct (decide (a = t)) as [->|Hne].
  - rewrite (bool_decide_eq_true_2 (t = t)) by done. fold suffix in k. unfold k. rewrite string_length_app, Nat.add_sub, str_drop_app.
    rewrite bool_decide_eq_true_2 by done. destruct x as [|ch x]; [done|].
    destruct (Nat.leb_spec (String.length (String ch x) + String.length suffix) (String.length suffix)) as [Hle|]; [|done].
    cbn in Hle. lia.
  - rewrite (bool_decide_eq_false_2 (a = t)) by done. destruct (Nat.leb_spec (String.length k) (String.length suffix)); [done|].
    rewrite bool_decide_eq_false_2; [done|]. intros E.
    destruct (str_drop_split (String.length k - String.length suffix) k) as (y & Hy & _); [lia|].
    rewrite E in Hy. unfold k, suffix in Hy. apply last_segment in Hy as [_ ?]; done.
Qed.

Lemma blockRoot_split r mh c :
  render (KBlockRoot r mh c) = (prefixBlockRoots (seg_str r) +:+ seg_str mh) +:+ String slash (seg_str c).
Proof. cbn [render]. unfold prefixOfBlock. rewrite !string_app_assoc. done. Qed.

(** One index entry met by [removeBlockRootEntries]. *)
Lemma rep_unindex r root mh c v m b R :
  is_Some (R !! seg_str r) -> is_Some (m (KBlockRoot r mh c)) ->
  succeeds (rep m b R) (unindex (seg_str r) (String slash (seg_str root)) (render (KBlockRoot r mh c), v))
    (fun _ s => exists R', is_Some (R' !! seg_str r) /\
       let m' := if decide (c = root) then upd (KBlockRoot r mh c) None m else m in
       rep m' b R' s /\ (balanced m b R -> balanced m' b R')).
Proof.
  intros HR Hin. unfold unindex. cbn [fst]. rewrite blockRoot_split.
  rewrite suffix_test; [|apply seg_slash_free..|destruct r as [[]]; discriminate].
  case_decide as Hc; [|rewrite bool_decide_eq_false_2 by (intros E; by apply Hc, seg_eq); apply succeeds_ret; eauto].
  subst root. rewrite bool_decide_eq_true_2 by done. cbn [negb].
  rewrite string_length_app, Nat.add_sub, string_length_app, Nat.add_comm, Nat.add_sub.
  rewrite string_app_assoc, substring_app. rewrite <- string_app_assoc, <- blockRoot_split.
  eapply succeeds_bind; [by apply rep_delete|]. intros ?.
  eapply succeeds_bind_fact; [apply rep_has_block|]. intros has Hhas. destruct has.
  { apply succeeds_ret. intros s Hs. exists R. split_and!; [done|done|]. intros Hbal.
    destruct (bal_entry _ _ _ Hbal r mh c Hin) as (_ & h & d & Hmh & _).
    eapply balanced_drop_shared; [done..|]. destruct Hhas as [Hhas _]. destruct Hhas as [c' Hc']; [done|]. by exists mh, c'. }
  assert (forall h, seg_str mh = hex_encode h -> ~ indexed (upd (KBlockRoot r mh c) None m) r h) as Hno.
  { intros h Hmh (mh' & c' & Hmh' & Hs). assert (mh' = mh) as -> by (apply seg_eq; congruence).
    destruct Hhas as [_ Hhas]. discriminate Hhas; eauto. }
  eapply succeeds_bind_fact; [apply rep_lookup|]. intros found Hfound.
  assert (balanced m b R -> exists h d c', seg_str mh = hex_encode h /\ b !! h = Some d /\ found = Some c' /\ Hash c' = h) as Hbal.
  { intros Hbal. destruct (bal_entry _ _ _ Hbal r mh c Hin) as (_ & h & d & Hmh & Hd & _).
    specialize (Hfound h Hmh). unfold found_in in Hfound. rewrite Hd in Hfound. destruct Hfound as (c' & -> & Hh). eauto 10. }
  destruct found as [c'|].
  2: { apply succeeds_ret. intros s Hs. exists R. split_and!; [done|done|]. intros (h & d & c' & _ & _ & [=] & _)%Hbal. }
  eapply succeeds_bind_fact; [apply rep_size|]. intros sz Hsz. destruct sz as [size|e].
  - eapply succeeds_weaken; [apply rep_modifyRing|eauto|]. intros ? s Hs. eexists. split; [|split; [exact Hs|]].
    { rewrite lookup_alter_eq. by apply fmap_is_Some. }
    intros Hb. destruct (Hbal Hb) as (h & d & c1 & Hmh & Hd & [= <-] & Hh). unfold size_in in Hsz. rewrite Hh, Hd in Hsz.
    injection Hsz as ->. eapply balanced_drop_last; eauto.
    + intros k _ Hk. by apply upd_other.
    + intros c2. destruct (upd (KBlockRoot r mh c) None m (KBlockRoot r mh c2)) eqn:E; [|done].
      exfalso. apply (Hno h Hmh). exists mh, c2. eauto.
  - apply succeeds_ret. intros s Hs. exists R. split_and!; [done|done|]. intros Hb.
    destruct (Hbal Hb) as (h & d & c1 & Hmh & Hd & [= <-] & Hh). unfold size_in in Hsz. by rewrite Hh, Hd in Hsz.
Qed.

(** The root a key is about. *)
Definition root_of (k : nbkey) : option (seg * seg) :=
  match k with
  | KRoot r c | KCIDUsage r c | KBlockRoot r _ c => Some (r, c)
  | _ => None
  end.

Definition strip (P : nbkey -> bool) (m : meta) : meta := fun k => if P k then None else m k.

Definition entry_of_root (r root : seg) (k : nbkey) : bool :=
  match k with KBlockRoot r' _ c => bool_decide (r' = r) && bool_decide (c = root) | _ => false end.

Lemma balanced_ext m m' b R : (forall k, neutral k = false -> m k = m' k) -> balanced m b R -> balanced m' b R.
Proof.
  intros Hm [Hs He Hr]. split; [done|..].
  - intros r mh c. rewrite <- !Hm by done. apply He.
  - intros r. destruct (Hr r) as (B & HB & Ht). exists B. split.
    + intros h d. rewrite (HB h d). unfold indexed. split; intros [Hd (mh & c & Hmh & Hsome)]; (split; [done|]);
        exists mh, c; (split; [done|]); [by rewrite <- Hm|by rewrite Hm].
    + revert Ht. unfold counters, loaded. by rewrite !Hm.
Qed.

(** A loop over the answers of a query that deletes the keys [P], after the answers [l]. *)
Definition taken (l : list (string * bytes)) (k : nbkey) : bool := bool_decide (render k ∈ l.*1).
Definition upto (P : nbkey -> bool) (m : meta) (l : list (string * bytes)) : meta :=
  strip (fun k => P k && taken l k) m.

Lemma taken_nil k : taken [] k = false.
Proof. apply bool_decide_eq_false. set_solver. Qed.

Lemma upto_nil P m k : upto P m [] k = m k.
Proof. unfold upto, strip. by rewrite taken_nil, andb_false_r. Qed.

Lemma taken_snoc l k0 v k : taken (l ++ [(render k0, v)]) k = bool_decide (k = k0) || taken l k.
Proof.
  unfold taken. rewrite fmap_app. cbn [fmap list_fmap fst]. destruct (decide (k = k0)) as [->|Hk].
  - rewrite (bool_decide_eq_true_2 (k0 = k0)) by done. apply bool_decide_eq_true. set_solver.
  - rewrite (bool_decide_eq_false_2 (k = k0)) by done. apply bool_decide_ext. rewrite elem_of_app, list_elem_of_singleton. split; [|by left].
    intros [?|E]; [done|]. by apply (inj render) in E.
Qed.

Lemma upto_snoc P m l k0 v k :
  upto P m (l ++ [(render k0, v)]) k = if P k0 then upd k0 None (upto P m l) k else upto P m l k.
Proof.
  unfold upto, strip, upd. rewrite taken_snoc. case_decide as Hk.
  - subst. rewrite bool_decide_eq_true_2 by done. by destruct (P k0).
  - rewrite bool_decide_eq_false_2 by done. by destruct (P k0).
Qed.

Lemma upto_all P sel m l k :
  answers m sel l -> (forall k, P k = true -> sel k) -> upto P m l k = strip P m k.
Proof.
  intros [_ Hl] HP. unfold upto, strip, taken. destruct (P k) eqn:Hk; [|done]. cbn [andb].
  case_bool_decide as Hin; [done|]. destruct (m k) as [v|] eqn:Hm; [|done]. exfalso. apply Hin.
  apply list_elem_of_fmap. exists (render k, v). split; [done|]. apply Hl. eauto 10.
Qed.

(** The next answer of the loop is still there. *)
Lemma upto_next P sel m l l1 key v l2 :
  answers m sel l -> l = l1 ++ (key, v) :: l2 -> exists k, key = render k /\ sel k /\ upto P m l1 k = Some v.
Proof.
  intros [Hnd Hl] ->. destruct (Hl key v) as [Hkey _]. destruct Hkey as (k & -> & Hk & Hm); [set_solver|].
  exists k. split_and!; [done..|]. unfold upto, strip, taken.
  rewrite bool_decide_eq_false_2; [by rewrite andb_false_r|]. intros Hin.
  rewrite fmap_app, fmap_cons in Hnd. apply NoDup_app in Hnd as (_ & Hdis & _). apply (Hdis _ Hin), list_elem_of_here.
Qed.

Lemma balanced_load m b R r : balanced m b R -> balanced m b (load m R r).
Proof.
  intros [Hsm He Hr]. split; [done..|]. intros r'. destruct (Hr r') as (B & HB & Ht). exists B. split; [done|].
  by rewrite counters_load.
Qed.

Lemma rep_removeEntries r root m b R :
  succeeds (rep m b R) (removeBlockRootEntries (seg_str r) (seg_str root))
    (fun _ s => exists R', let m' := strip (entry_of_root r root) m in
       rep m' b R' s /\ (balanced m b R -> balanced m' b R')).
Proof.
  unfold removeBlockRootEntries. eapply succeeds_bind_fact; [apply rep_query, query_blockroots|].
  intros l Hl. eapply succeeds_bind; [apply rep_getRing|]. intros rc. set (P := entry_of_root r root).
  eapply succeeds_weaken; [apply (succeeds_forM (fun l s => exists R', is_Some (R' !! seg_str r) /\
    rep (upto P m l) b R' s /\ (balanced m b R -> balanced (upto P m l) b R')))|..].
  - intros l1 [key v] l2 Hsplit s (R' & HR' & Hs & Hbal).
    destruct (upto_next P _ m l l1 key v l2 Hl Hsplit) as (k & -> & (mh & c & ->) & Hv).
    pose proof (rep_unindex r root mh c v (upto P m l1) b R' HR' ltac:(eauto) s Hs) as Hstep.
    destruct (unindex _ _ _ s) as [s' [u|e]]; [|done]. destruct Hstep as (R2 & HR2 & Hs' & Hbal').
    assert (forall k, (if decide (c = root) then upd (KBlockRoot r mh c) None (upto P m l1) else upto P m l1) k
                      = upto P m (l1 ++ [(render (KBlockRoot r mh c), v)]) k) as Hup.
    { intros k. rewrite upto_snoc. unfold P at 3. cbn [entry_of_root]. rewrite (bool_decide_eq_true_2 (r = r)) by done.
      cbn [andb]. case_decide; [by rewrite bool_decide_eq_true_2|by rewrite bool_decide_eq_false_2]. }
    exists R2. split; [done|]. split; [by eapply rep_ext|]. intros Hb. eapply balanced_ext; [intros k _; apply Hup|auto].
  - intros s [Hs _]. exists (load m R r). split; [rewrite load_Some; eauto|].
    split; [eapply rep_ext; [|done]; intros k; by rewrite upto_nil|].
    intros Hb%(balanced_load _ _ _ r). eapply balanced_ext; [|done]. intros k _. by rewrite upto_nil.
  - intros ? s (R' & _ & Hs & Hbal). exists R'.
    assert (forall k, upto P m l k = strip P m k) as Hup.
    { intros k. eapply upto_all; [done|]. intros [] Hk; try done. cbn in Hk. apply andb_true_iff in Hk as [Hk _].
      apply bool_decide_eq_true in Hk. subst. eauto. }
    split; [by eapply rep_ext|]. intros Hb. eapply balanced_ext; [intros k _; apply Hup|auto].
Qed.

Lemma balanced_upd k v m b R : neutral k = true -> balanced m b R -> balanced (upd k v m) b R.
Proof. intros Hk. apply balanced_ext. intros k' Hk'. rewrite upd_other; [done|]. intros ->. congruence. Qed.

(** [RemoveRootStr] removes a root with all that is about it. *)
Definition about (r c : seg) (k : nbkey) : bool := bool_decide (root_of k = Some (r, c)).

Lemma rep_RemoveRoot r c m b R :
  succeeds (rep m b R) (RemoveRootStr (seg_str r) (seg_str c))
    (fun _ s => exists R', let m' := strip (about r c) m in rep m' b R' s /\ (balanced m b R -> balanced m' b R')).
Proof.
  unfold RemoveRootStr.
  change (rootKey (seg_str r) (seg_str c)) with (render (KRoot r c)).
  change (cidUsageKey (seg_str r) (seg_str c)) with (render (KCIDUsage r c)).
  eapply succeeds_bind; [by apply rep_delete|]. intros ?. eapply succeeds_bind; [by apply rep_delete|]. intros ?.
  eapply succeeds_weaken; [apply rep_removeEntries|done|]. intros ? s (R' & Hs & Hbal).
  assert (forall k, strip (entry_of_root r c) (upd (KCIDUsage r c) None (upd (KRoot r c) None m)) k
                    = strip (about r c) m k) as Hm.
  { intros k. unfold strip, about, upd. destruct k; cbn [entry_of_root root_of]; try done;
      repeat case_decide; repeat case_bool_decide; cbn [andb]; naive_solver. }
  exists R'. split; [by eapply rep_ext|]. intros Hb. eapply balanced_ext; [intros k _; apply Hm|].
  apply Hbal. by apply balanced_upd, balanced_upd.
Qed.

(** ** Expiry *)

Definition expired_at (now : Z) (v : option bytes) : bool :=
  match v with
  | Some data => match cborUnmarshalRoot data with Ok e => (0 <? e) && (e <? now) | Err _ => false end
  | None => false
  end.

Definition live_at (now : Z) (v : option bytes) : bool :=
  match v with Some data => unexpired now data | None => false end.

Lemma live_not_expired now v : live_at now v = true -> expired_at now v = false.
Proof.
  unfold live_at, expired_at, unexpired. destruct v as [data|]; [|done].
  destruct (cborUnmarshalRoot data); [|done]. by intros ?%negb_true_iff.
Qed.

(** What pruning removes: all that is about an expired root of one of the rings. *)
Definition pruned (now : Z) (rings : seg -> bool) (m : meta) (k : nbkey) : bool :=
  match root_of k with Some (r, c) => rings r && expired_at now (m (KRoot r c)) | None => false end.

(** Pruning one ring, after the expired roots [l]. *)
Definition gone (r : seg) (l : list (string * bytes)) (k : nbkey) : bool :=
  match root_of k with Some (r', c) => bool_decide (r' = r) && taken l (KRoot r c) | None => false end.

Lemma gone_snoc r c v l m k :
  strip (gone r (l ++ [(render (KRoot r c), v)])) m k = strip (about r c) (strip (gone r l) m) k.
Proof.
  unfold strip, about, gone. destruct (root_of k) as [[r' c']|]; [|done]. rewrite taken_snoc.
  destruct (decide (r' = r)) as [->|Hr].
  - rewrite (bool_decide_eq_true_2 (r = r)) by done. cbn [andb].
    rewrite (bool_decide_ext (KRoot r c' = KRoot r c) (Some (r, c') = Some (r, c))) by naive_solver.
    by destruct (bool_decide _).
  - rewrite (bool_decide_eq_false_2 (r' = r)), (bool_decide_eq_false_2 (Some _ = Some _)) by congruence. done.
Qed.

Definition expired_entry (now : Z) (kv : string * bytes) : bool := expired_at now (Some kv.2).

Lemma taken_expired now r m l c :
  answers m (fun k => exists c, k = KRoot r c) l ->
  taken (filterb (expired_entry now) l) (KRoot r c) = expired_at now (m (KRoot r c)).
Proof.
  intros [_ Hl]. unfold taken. case_bool_decide as Hin.
  - apply list_elem_of_fmap in Hin as ([key v] & Hkey & [Hexp Hin]%elem_of_filterb). cbn [fst] in Hkey. subst key.
    apply Hl in Hin as (k & Hk & _ & Hm). apply (inj render) in Hk. subst k. by rewrite Hm.
  - destruct (expired_at now (m (KRoot r c))) eqn:Hexp; [|done]. exfalso. apply Hin, list_elem_of_fmap.
    destruct (m (KRoot r c)) as [v|] eqn:Hm; [|done]. exists (render (KRoot r c), v). split; [done|].
    apply elem_of_filterb. split; [done|]. apply Hl. eauto 10.
Qed.

Lemma rep_Prune now r m b R :
  succeeds (rep m b R) (PruneExpiredRoots now (seg_str r))
    (fun _ s => exists R', let m' := strip (pruned now (fun r' => bool_decide (r' = r)) m) m in
       rep m' b R' s /\ (balanced m b R -> balanced m' b R')).
Proof.
  unfold PruneExpiredRoots. eapply succeeds_bind_fact; [apply rep_query, query_roots|].
  intros l Hl. cbv zeta. change (filterb _ l) with (filterb (expired_entry now) l).
  eapply succeeds_bind; [eapply succeeds_weaken|].
  1: apply (succeeds_forM (fun l s => exists R', rep (strip (gone r l) m) b R' s /\
       (balanced m b R -> balanced (strip (gone r l) m) b R')) (filterb (expired_entry now) l)).
  - intros l1 [key v] l2 Hsplit s (R' & Hs & Hbal).
    assert ((key, v) ∈ filterb (expired_entry now) l) as [_ Hin]%elem_of_filterb by (rewrite Hsplit; set_solver).
    apply Hl in Hin as (k & -> & [c ->] & Hm). cbn [fst].
    change (render (KRoot r c)) with (prefixRoots (seg_str r) +:+ seg_str c) at 1. rewrite str_drop_app.
    pose proof (rep_RemoveRoot r c _ b R' s Hs) as Hstep. destruct (RemoveRootStr _ _ s) as [s' [u|e]]; [|done].
    destruct Hstep as (R2 & Hs' & Hbal'). exists R2.
    split; [eapply rep_ext; [|done]; intros k; by rewrite gone_snoc|].
    intros Hb. eapply balanced_ext; [|by apply Hbal', Hbal]. intros k _. by rewrite gone_snoc.
  - intros s Hs. exists R.
    assert (forall k, m k = strip (gone r []) m k) as Hup.
    { intros k. unfold strip, gone. destruct (root_of k) as [[r' c']|]; [|done]. by rewrite taken_nil, andb_false_r. }
    split; [by eapply rep_ext|]. apply balanced_ext. intros k _. apply Hup.
  - intros ? s Hs. exact Hs.
  - intros ?. apply succeeds_ret. intros s (R' & Hs & Hbal). exists R'.
    assert (forall k, strip (gone r (filterb (expired_entry now) l)) m k
                      = strip (pruned now (fun r' => bool_decide (r' = r)) m) m k) as Hup.
    { intros k. unfold strip, gone, pruned. destruct (root_of k) as [[r' c]|]; [|done]. case_bool_decide as Hr; [|done].
      subst r'. by rewrite (taken_expired now r m l c Hl). }
    split; [by eapply rep_ext|]. intros Hb. eapply balanced_ext; [intros k _; apply Hup|auto].
Qed.

(** ** All rings *)

Lemma fmap_of {A B} (f : A -> B) (l : list B) : (forall x, x ∈ l -> exists a, x = f a) -> exists k, l = f <$> k.
Proof.
  induction l as [|x l IH]; intros Hl; [by exists []|]. destruct (Hl x) as [a ->]; [apply list_elem_of_here|].
  destruct IH as [k ->]; [intros y Hy; by apply Hl, list_elem_of_further|]. by exists (a :: k).
Qed.

(** The rings on disk. *)
Definition known_rings (m : meta) (rs : list seg) : Prop := NoDup rs /\ forall r, r ∈ rs <-> is_Some (m (KPresence r)).

Lemma rep_RingsKnown m b R :
  succeeds (rep m b R) RingsKnown (fun rings s => rep m b R s /\ exists rs, rings = seg_str <$> rs /\ known_rings m rs).
Proof.
  unfold RingsKnown. eapply succeeds_bind_fact; [apply rep_query, query_rings|]. intros l [Hnd Hl].
  apply succeeds_ret. intros s Hs. split; [done|].
  destruct (fmap_of (fun rv : seg * bytes => (render (KPresence rv.1), rv.2)) l) as [k Hk].
  { intros [key v] Hin. apply Hl in Hin as (k & -> & [r ->] & _). by exists (r, v). }
  exists k.*1. split; [|split].
  - rewrite Hk, <- !list_fmap_compose. apply list_fmap_ext. intros i [r v] _. unfold compose. cbn [fst render]. by rewrite str_drop_app.
  - rewrite Hk, <- list_fmap_compose in Hnd. apply (NoDup_fmap_1 (fun r => render (KPresence r))).
    by rewrite <- list_fmap_compose.
  - intros r. split.
    + intros ([r' v] & -> & Hin)%list_elem_of_fmap. cbn. destruct (Hl (render (KPresence r')) v) as [Hl' _].
      destruct Hl' as (k' & Hr & _ & Hm); [|apply (inj render) in Hr; subst; eauto].
      rewrite Hk. apply list_elem_of_fmap. by exists (r', v).
    + intros [v Hv]. assert ((render (KPresence r), v) ∈ l) as Hin by (apply Hl; eauto 10).
      rewrite Hk in Hin. apply list_elem_of_fmap in Hin as ([r' v'] & E & Hin). injection E as E _.
      apply string_app_inj, seg_eq in E. subst r'. apply list_elem_of_fmap. by exists (r, v').
Qed.

Lemma rep_prune_rings now rs m b R :
  succeeds (rep m b R) (prune_rings now (seg_str <$> rs))
    (fun _ s => exists R', let m' := strip (pruned now (fun r => bool_decide (r ∈ rs)) m) m in
       rep m' b R' s /\ (balanced m b R -> balanced m' b R')).
Proof.
  revert m R. induction rs as [|r rs IH]; intros m R; cbn [prune_rings fmap list_fmap].
  { apply succeeds_ret. intros s Hs. exists R.
    assert (forall k, m k = strip (pruned now (fun r => bool_decide (r ∈ [])) m) m k) as Hm.
    { intros k. unfold strip, pruned. destruct (root_of k) as [[r c]|]; [|done].
      by rewrite bool_decide_eq_false_2 by set_solver. }
    split; [by eapply rep_ext|]. apply balanced_ext. intros k _. apply Hm. }
  set (m1 := strip (pruned now (fun r' => bool_decide (r' = r)) m) m).
  assert (forall k, strip (pruned now (fun r => bool_decide (r ∈ rs)) m1) m1 k
                    = strip (pruned now (fun r' => bool_decide (r' ∈ r :: rs)) m) m k) as Hm.
  { intros k. unfold m1, strip, pruned. destruct (root_of k) as [[r' c]|]; [|done]. cbn [root_of].
    rewrite (bool_decide_ext (r' ∈ r :: rs) (r' = r \/ r' ∈ rs)), bool_decide_or by apply elem_of_cons.
    destruct (bool_decide (r' = r)), (bool_decide (r' ∈ rs)), (expired_at now (m (KRoot r' c))) eqn:He; cbn; rewrite ?He; done. }
  eapply succeeds_bind; [apply rep_Prune|]. intros n s (R1 & Hs & Hbal1).
  revert s Hs. change (succeeds (rep m1 b R1) (x ← prune_rings now (seg_str <$> rs); m_ret (n + x))
    (fun _ s => exists R', let m' := strip (pruned now (fun r' => bool_decide (r' ∈ r :: rs)) m) m in
       rep m' b R' s /\ (balanced m b R -> balanced m' b R'))).
  eapply succeeds_bind; [apply IH|]. intros k. apply succeeds_ret. intros s (R2 & Hs & Hbal2). exists R2.
  split; [by eapply rep_ext|]. intros Hb. eapply balanced_ext; [intros k' _; apply Hm|]. apply Hbal2, Hbal1, Hb.
Qed.

Lemma rep_ListRoots now r m b R :
  succeeds (rep m b R) (ListRoots now (seg_str r))
    (fun l s => rep m b R s /\ forall x, x ∈ l <-> exists c, x = seg_str c /\ live_at now (m (KRoot r c)) = true).
Proof.
  unfold ListRoots. eapply succeeds_bind_fact; [apply rep_query, query_roots|]. intros l [_ Hl].
  apply succeeds_ret. intros s Hs. split; [done|]. intros x. rewrite list_elem_of_fmap. split.
  - intros ([key v] & -> & [Hlive Hin]%elem_of_filterb). apply Hl in Hin as (k & -> & [c ->] & Hm).
    exists c. cbn [fst render]. rewrite str_drop_app. split; [done|]. unfold live_at. by rewrite Hm.
  - intros (c & -> & Hlive). unfold live_at in Hlive. destruct (m (KRoot r c)) as [v|] eqn:Hm; [|done].
    exists (render (KRoot r c), v). split; [cbn [fst render]; by rewrite str_drop_app|].
    apply elem_of_filterb. split; [done|]. apply Hl. eauto 10.
Qed.

Lemma rep_live_roots now rs m b R :
  succeeds (rep m b R) (live_roots now (seg_str <$> rs))
    (fun L s => rep m b R s /\
       forall x, x ∈ L <-> exists r c, r ∈ rs /\ x = seg_str c /\ live_at now (m (KRoot r c)) = true).
Proof.
  induction rs as [|r rs IH]; cbn [live_roots fmap list_fmap].
  { apply succeeds_ret. intros s Hs. split; [done|]. set_solver. }
  eapply succeeds_bind_fact; [apply rep_ListRoots|]. intros l Hl.
  eapply succeeds_bind_fact; [apply IH|]. intros L HL'. apply succeeds_ret. intros s Hs. split; [done|].
  intros x. rewrite elem_of_union. rewrite elem_of_list_to_set. rewrite (Hl x). rewrite (HL' x). setoid_rewrite elem_of_cons. naive_solver.
Qed.

Lemma rep_InSet rs key mh L m b R :
  seg_str mh = HashHex key ->
  succeeds (rep m b R) (blockHasLiveRootInSet (seg_str <$> rs) key L)
    (fun hit s => rep m b R s /\
       (hit = true <-> exists r c, r ∈ rs /\ is_Some (m (KBlockRoot r mh c)) /\ seg_str c ∈ L)).
Proof.
  intros Hmh. induction rs as [|r rs IH]; cbn [blockHasLiveRootInSet fmap list_fmap].
  { apply succeeds_ret. intros s Hs. split; [done|]. split; [done|]. set_solver. }
  cbv zeta. rewrite <- Hmh. eapply succeeds_bind_fact; [apply rep_query, query_block|]. intros l [_ Hl].
  assert (existsb (fun kv => bool_decide (str_drop (String.length (prefixOfBlock (seg_str r) (seg_str mh))) kv.1 ∈ L)) l = true
    <-> exists c, is_Some (m (KBlockRoot r mh c)) /\ seg_str c ∈ L) as Hex.
  { rewrite existsb_exists. split.
    - intros ([key' v] & Hin%list_elem_of_In & HinL%bool_decide_eq_true). apply Hl in Hin as (k & -> & [c ->] & Hm).
      cbn [fst render] in HinL. rewrite str_drop_app in HinL. eauto.
    - intros (c & [v Hv] & HinL). exists (render (KBlockRoot r mh c), v). split; [apply list_elem_of_In, Hl; eauto 10|].
      apply bool_decide_eq_true. cbn [fst render]. by rewrite str_drop_app. }
  destruct (existsb _ l) eqn:Hb.
  - apply succeeds_ret. intros s Hs. split; [done|]. split; [|done]. intros _. destruct Hex as [Hex _].
    destruct Hex as (c & ? & ?); [done|]. exists r, c. split_and!; [apply list_elem_of_here|done..].
  - eapply succeeds_weaken; [exact IH|done|]. intros hit s [Hs Hhit]. split; [done|]. rewrite Hhit.
    setoid_rewrite elem_of_cons. split; [naive_solver|]. intros (r' & c & [->|?] & ? & ?); [|eauto].
    destruct Hex as [_ Hex]. discriminate Hex. eauto.
Qed.

End Index.
