(* ===== verification/NetworkGC.v ===== *)
(** * Dropping and collecting network blocks

    [DropBlock], [cleanupRingBlockIndex] and [GC] of src/store/network_block_store.go, on the
    metadata of [RingIndex]. A collection keeps exactly the blocks with an index entry under
    a live root, and leaves every ring with the right counters. *)

From stdpp Require Import base gmap list strings.
From Stdlib Require Import ZArith Lia Strings.Byte Ascii.
From S2P Require Import Prelude Hoare Hex StoreKeys StoreDeps NetworkStore RingIndex.

Set Default Goal Selector "!".
Local Open Scope Z_scope.

Section Collect.
Context `{HD : StoreDeps} `{HL : !StoreLaws}.

(** ** Usage of roots *)

(** The blocks indexed under a root. *)
Definition root_blocks (m : meta) (b : gmap bytes bytes) (r c : seg) (U : gmap bytes bytes) : Prop :=
  forall h d, U !! h = Some d <->
    b !! h = Some d /\ exists mh, seg_str mh = hex_encode h /\ is_Some (m (KBlockRoot r mh c)).

Definition usage_of (m : meta) (r c : seg) : Z := default 0 (counter (m (KCIDUsage r c))).

(** Every root's usage is the sum of the sizes of its blocks. *)
Definition exact_usage (m : meta) (b : gmap bytes bytes) : Prop :=
  forall r c, exists U, root_blocks m b r c U /\ usage_of m r c = total U.

Lemma exact_usage_ext m m' b :
  (forall k, is_Some (root_of k) -> m k = m' k) -> exact_usage m b -> exact_usage m' b.
Proof.
  intros Hm Hex r c. destruct (Hex r c) as (U & HU & Ht). exists U. split.
  - intros h d. rewrite (HU h d). by setoid_rewrite Hm; [|cbn; eauto].
  - unfold usage_of in *. rewrite <- Hm; [done|cbn; eauto].
Qed.

(** Removing all that is about some roots. *)
Lemma exact_usage_strip (P : nbkey -> bool) (Q : option (seg * seg) -> bool) m b :
  (forall k, P k = Q (root_of k)) -> exact_usage m b -> exact_usage (strip P m) b.
Proof.
  intros HP Hex r c. destruct (Q (Some (r, c))) eqn:HQ.
  - exists ∅. unfold usage_of, strip. rewrite HP. cbn [root_of]. rewrite HQ. split; [|by rewrite total_empty].
    intros h d. rewrite lookup_empty. split; [done|]. intros (_ & mh & _ & Hs). rewrite HP in Hs. cbn [root_of] in Hs. rewrite HQ in Hs. by destruct Hs.
  - destruct (Hex r c) as (U & HU & Ht). exists U. unfold usage_of, strip. rewrite HP. cbn [root_of]. rewrite HQ.
    split; [|done]. intros h d. rewrite (HU h d). setoid_rewrite HP. cbn [root_of]. by rewrite HQ.
Qed.

(** ** Dropping a block from a ring *)

(** The metadata after the index entries of a block of [size] bytes are gone from a ring,
    for the entries answered in [l]. *)
Definition drop_upto (r mh : seg) (size : Z) (m : meta) (l : list (string * bytes)) : meta := fun k =>
  match k with
  | KBlockRoot r' mh' c => if bool_decide (r' = r) && bool_decide (mh' = mh) && taken l k then None else m k
  | KCIDUsage r' c =>
      if bool_decide (r' = r) && taken l (KBlockRoot r mh c) && negb (- size =? 0)
      then Some (encodeInt64LE (usage_after (- size) (m k))) else m k
  | _ => m k
  end.

Lemma drop_upto_nil r mh size m k : drop_upto r mh size m [] k = m k.
Proof. destruct k; cbn [drop_upto]; try done; rewrite taken_nil, andb_false_r; done. Qed.

Lemma drop_upto_snoc r mh size m l c v k :
  taken l (KBlockRoot r mh c) = false ->
  drop_upto r mh size m (l ++ [(render (KBlockRoot r mh c), v)]) k
    = add_usage r c (- size) (upd (KBlockRoot r mh c) None (drop_upto r mh size m l)) k.
Proof.
  intros Hnew. unfold add_usage.
  assert (forall k, upd (KBlockRoot r mh c) None (drop_upto r mh size m l) k =
    match k with
    | KBlockRoot _ _ _ => drop_upto r mh size m (l ++ [(render (KBlockRoot r mh c), v)]) k
    | _ => drop_upto r mh size m l k
    end) as Hb.
  { intros []; try done. unfold upd. cbn [drop_upto]. rewrite taken_snoc. case_decide as Hk.
    - injection Hk as -> -> ->. by rewrite !bool_decide_eq_true_2.
    - by rewrite (bool_decide_eq_false_2 (_ = KBlockRoot r mh c)). }
  assert (forall r' c', KCIDUsage r' c' <> KCIDUsage r c ->
    drop_upto r mh size m (l ++ [(render (KBlockRoot r mh c), v)]) (KCIDUsage r' c')
      = drop_upto r mh size m l (KCIDUsage r' c')) as Hu.
  { intros r' c' Hne. cbn [drop_upto]. rewrite taken_snoc. case_bool_decide as Hr; [|done]. subst r'.
    rewrite (bool_decide_eq_false_2 (_ = KBlockRoot r mh c)) by naive_solver. done. }
  destruct (- size =? 0) eqn:Hz.
  - rewrite Hb. destruct k; try done. cbn [drop_upto]. by rewrite Hz, !andb_false_r.
  - unfold upd at 1. case_decide as Hk.
    + subst k. rewrite Hb. cbn [drop_upto]. rewrite taken_snoc, Hz, Hnew, !bool_decide_eq_true_2 by done. done.
    + rewrite Hb. destruct k; try done. apply Hu, Hk.
Qed.

(** The metadata after a block of [size] bytes is dropped from a ring. *)
Definition drop_block (r mh : seg) (size : Z) (m : meta) : meta := fun k =>
  match k with
  | KBlockRoot r' mh' c => if bool_decide (r' = r) && bool_decide (mh' = mh) then None else m k
  | KCIDUsage r' c =>
      if bool_decide (r' = r) && bool_decide (is_Some (m (KBlockRoot r mh c))) && negb (- size =? 0)
      then Some (encodeInt64LE (usage_after (- size) (m k))) else m k
  | _ => m k
  end.

Lemma taken_answers m sel l k : answers m sel l -> sel k -> taken l k = bool_decide (is_Some (m k)).
Proof.
  intros [_ Hl] Hsel. apply bool_decide_ext. rewrite list_elem_of_fmap. split.
  - intros ([key v] & E & Hin). cbn [fst] in E. subst key. apply Hl in Hin as (k' & E & _ & Hm).
    apply (inj render) in E. subst. eauto.
  - intros [v Hv]. exists (render k, v). split; [done|]. apply Hl. eauto.
Qed.

Lemma drop_upto_all r mh size m l k :
  answers m (fun k => exists c, k = KBlockRoot r mh c) l -> drop_upto r mh size m l k = drop_block r mh size m k.
Proof.
  intros Hl. destruct k; try done; cbn [drop_upto drop_block].
  - repeat (case_bool_decide; [subst|done]). cbn [andb]. rewrite (taken_answers m _ l _ Hl) by eauto.
    case_bool_decide as Hs; [done|]. by apply eq_None_not_Some.
  - by rewrite (taken_answers m _ l (KBlockRoot r mh c) Hl) by eauto.
Qed.

Lemma rep_drop_loop r mh size l f m b R :
  answers m (fun k => exists c, k = KBlockRoot r mh c) l ->
  (forall c v m', succeeds (rep m' b R) (f (render (KBlockRoot r mh c), v))
     (fun _ => rep (add_usage r c (- size) (upd (KBlockRoot r mh c) None m')) b R)) ->
  succeeds (rep m b R) (m_forM l f) (fun _ => rep (drop_block r mh size m) b R).
Proof.
  intros Hl Hf. eapply succeeds_weaken; [apply (succeeds_forM (fun l => rep (drop_upto r mh size m l) b R))|..].
  - intros l1 [key v] l2 Hsplit. destruct (upto_next (fun _ => true) _ m l l1 key v l2 Hl Hsplit) as (k & -> & [c ->] & Hv).
    eapply succeeds_weaken; [apply Hf|done|]. intros ? s. apply rep_ext. intros k. symmetry. apply drop_upto_snoc.
    unfold upto, strip in Hv. cbn [andb] in Hv. by destruct (taken l1 (KBlockRoot r mh c)).
  - intros s. apply rep_ext. intros k. by rewrite drop_upto_nil.
  - intros ? s. apply rep_ext. intros k. by apply drop_upto_all.
Qed.

Lemma drop_block_absent r mh size m k :
  (forall c, m (KBlockRoot r mh c) = None) -> drop_block r mh size m k = m k.
Proof.
  intros Hno. destruct k; try done; cbn [drop_block].
  - repeat (case_bool_decide; [subst|done]). by rewrite Hno.
  - rewrite Hno. by rewrite (bool_decide_eq_false_2 (is_Some None)), andb_false_r by (by intros [? ?]).
Qed.

(** The ring stays balanced when it gives the bytes of the block back. *)
Lemma balanced_drop_block r mh c h d size m b R :
  seg_str mh = hex_encode h -> b !! h = Some d -> is_Some (m (KBlockRoot r mh c)) ->
  balanced m b R ->
  balanced (drop_block r mh size m) b
    (alter (usage_delta (- Z.of_nat (length d)) (-1)) (seg_str r) (load (drop_block r mh size m) R r)).
Proof.
  intros Hmh Hd Hin Hb.
  assert (forall k, neutral k = false -> (forall c, k <> KBlockRoot r mh c) -> drop_block r mh size m k = m k) as Hsame.
  { intros [] Hn Hk; try done. cbn [drop_block]. case_bool_decide; [|done]. case_bool_decide; [|done].
    subst. by destruct (Hk c0). }
  assert (load (drop_block r mh size m) R r = load m R r) as -> by (unfold load, loaded; by rewrite !Hsame).
  eapply balanced_drop_last; [done..| |by apply balanced_load|done|].
  - rewrite load_Some. eauto.
  - intros c'. cbn. by rewrite !bool_decide_eq_true_2.
Qed.

Lemma usage_after_drop U h d v :
  total U < 2 ^ 63 -> U !! h = Some d -> default 0 (counter v) = total U ->
  default 0 (counter (Some (encodeInt64LE (usage_after (- Z.of_nat (length d)) v)))) = total (delete h U).
Proof.
  intros Hs Hh Hv. pose proof (total_delete U h d Hh). pose proof (total_nonneg (delete h U)).
  unfold usage_after. rewrite Hv. rewrite wrap64_small by (unfold in_int64; lia).
  destruct (Z.ltb_spec (total U + - Z.of_nat (length d)) 0); [lia|].
  cbn [counter]. rewrite length_encodeInt64LE. cbn [Nat.eqb]. rewrite decode_encodeInt64LE by (unfold in_int64; lia). cbn. lia.
Qed.

(** Dropping a block keeps the usage of every root exact. *)
Lemma exact_usage_drop r mh h d m b :
  seg_str mh = hex_encode h -> b !! h = Some d -> total b < 2 ^ 63 -> exact_usage m b ->
  exact_usage (drop_block r mh (Z.of_nat (length d)) m) b.
Proof.
  intros Hmh Hd Hs Hex r' c. destruct (Hex r' c) as (U & HU & Ht).
  assert (forall h' mh', seg_str mh' = hex_encode h' -> mh' <> mh -> h' <> h) as Hne.
  { intros h' mh' Hmh' Hn ->. apply Hn, seg_eq. congruence. }
  destruct (decide (r' = r)) as [->|Hr].
  2: { exists U. unfold usage_of. cbn [drop_block]. rewrite (bool_decide_eq_false_2 (r' = r)) by done. split; [|done].
       intros h' d'. rewrite (HU h' d'). cbn [drop_block]. by rewrite (bool_decide_eq_false_2 (r' = r) Hr). }
  exists (delete h U). split.
  - intros h' d'. rewrite lookup_delete_Some, (HU h' d'). cbn [drop_block].
    rewrite (bool_decide_eq_true_2 (r = r)) by done. cbn [andb]. split.
    + intros (Hn & Hb & mh' & Hmh' & Hsome). split; [done|]. exists mh'. split; [done|].
      rewrite bool_decide_eq_false_2; [done|]. intros ->. apply Hn. rewrite Hmh in Hmh'. by apply hex_encode_inj.
    + intros (Hb & mh' & Hmh' & Hsome). case_bool_decide; [by destruct Hsome|]. split_and!; [|done|eauto].
      apply not_eq_sym. by eapply Hne.
  - unfold usage_of in *. cbn [drop_block]. rewrite (bool_decide_eq_true_2 (r = r)) by done. cbn [andb].
    case_bool_decide as Hin; cbn [andb].
    + assert (U !! h = Some d) as HUh by (apply HU; eauto). destruct (- Z.of_nat (length d) =? 0) eqn:Hz; cbn [negb].
      * rewrite (total_delete U h d HUh) in Ht. apply Z.eqb_eq in Hz. lia.
      * apply usage_after_drop; [|done..]. pose proof (total_subseteq U b) as Hsub.
        enough (U ⊆ b) by (specialize (Hsub ltac:(done)); lia). apply map_subseteq_spec. intros h' d' ?. by apply HU.
    + rewrite delete_id; [done|]. apply eq_None_not_Some. intros [d' (_ & mh' & Hmh' & Hsome)%HU].
      apply Hin. replace mh with mh'; [done|]. apply seg_eq. congruence.
Qed.

Lemma answers_nil m r mh : answers m (fun k => exists c, k = KBlockRoot r mh c) [] -> forall c, m (KBlockRoot r mh c) = None.
Proof.
  intros [_ Hl] c. destruct (m (KBlockRoot r mh c)) as [v|] eqn:Hm; [|done]. exfalso.
  apply (not_elem_of_nil (render (KBlockRoot r mh c), v)), Hl. eauto 10.
Qed.

Lemma answers_cons m r mh kv l :
  answers m (fun k => exists c, k = KBlockRoot r mh c) (kv :: l) -> exists c, is_Some (m (KBlockRoot r mh c)).
Proof.
  destruct kv as [key v]. intros [_ Hl]. destruct (Hl key v) as [H _].
  destruct H as (k & _ & [c ->] & Hm); [apply list_elem_of_here|eauto].
Qed.

Lemma balanced_absent r mh size m b R :
  (forall c, m (KBlockRoot r mh c) = None) -> balanced m b R -> balanced (drop_block r mh size m) b R.
Proof. intros Hno. apply balanced_ext. intros k _. by rewrite drop_block_absent. Qed.

Lemma rep_cleanup r mh h d m b R :
  seg_str mh = hex_encode h -> b !! h = Some d ->
  let size := Z.of_nat (length d) in
  succeeds (rep m b R) (cleanupRingBlockIndex (seg_str r) (seg_str mh) size)
    (fun _ s => exists R', let m' := drop_block r mh size m in rep m' b R' s /\ (balanced m b R -> balanced m' b R')).
Proof.
  intros Hmh Hd size. unfold cleanupRingBlockIndex. cbv zeta.
  eapply succeeds_bind_fact; [apply rep_query, query_block|]. intros l Hl.
  eapply succeeds_bind; [apply (rep_drop_loop r mh size); [exact Hl|]|].
  { intros c v m'. cbn [fst]. eapply succeeds_bind; [by apply rep_delete|]. intros ?. cbn [render]. rewrite str_drop_app.
    apply rep_addCIDUsage. }
  intros ?. destruct l as [|kv l].
  - apply succeeds_ret. intros s Hs. exists R. split; [done|]. apply balanced_absent. by apply answers_nil.
  - eapply succeeds_bind; [apply rep_getRing|]. intros rc s [Hs _].
    pose proof (rep_modifyRing (seg_str r) (usage_delta (- size) (-1)) _ b _ s Hs) as Hm.
    unfold addUsageDelta. destruct (modifyRing _ _ s) as [s' [u|e]]; [|done]. eexists. split; [exact Hm|].
    destruct (answers_cons m r mh kv l Hl) as [c Hc]. by apply (balanced_drop_block r mh c h d).
Qed.

Lemma rep_DropBlock r key mh m b R :
  seg_str mh = HashHex key ->
  succeeds (rep m b R) (DropBlock (seg_str r) key)
    (fun found s => exists R',
       let m' := drop_block r mh (default 0 ((fun d => Z.of_nat (length d)) <$> b !! Hash key)) m in
       rep m' b R' s /\ (found = true <-> exists c, is_Some (m (KBlockRoot r mh c))) /\
       (balanced m b R -> balanced m' b R')).
Proof.
  intros Hmh. set (size := default 0 _). unfold DropBlock. cbv zeta. rewrite <- Hmh.
  eapply succeeds_bind_fact; [apply rep_query, query_block|]. intros l Hl.
  eapply succeeds_bind; [apply (rep_drop_loop r mh size); [exact Hl|]|].
  { intros c v m'. cbn [fst]. eapply succeeds_bind; [by apply rep_delete|]. intros ?. cbn [render]. rewrite str_drop_app.
    eapply succeeds_bind_fact; [apply rep_size|]. intros sz Hsz. unfold size_in in Hsz. unfold size.
    destruct (b !! Hash key) as [d|]; [subst sz|destruct Hsz as [e ->]]; cbn [fmap option_fmap option_map from_option].
    - destruct (Z.ltb_spec 0 (Z.of_nat (length d))); [apply rep_addCIDUsage|].
      apply succeeds_ret. intros s. unfold add_usage, id. by destruct (Z.eqb_spec (- Z.of_nat (length d)) 0); [|lia].
    - apply succeeds_ret. intros s. done. }
  intros ?. destruct l as [|kv l].
  - apply succeeds_ret. intros s Hs. exists R. pose proof (answers_nil m r mh Hl) as Hno. split; [done|].
    split; [|by apply balanced_absent]. split; [done|]. intros [c Hc]. rewrite Hno in Hc. by destruct Hc.
  - destruct (answers_cons m r mh kv l Hl) as [c Hc].
    eapply succeeds_bind_fact; [apply rep_size|]. intros sz Hsz. unfold size_in in Hsz. unfold size.
    eapply succeeds_bind with (Q1 := fun _ s => exists R', rep (drop_block r mh size m) b R' s /\
      (balanced m b R -> balanced (drop_block r mh size m) b R')).
    + destruct sz as [n|e].
      2: { apply succeeds_ret. intros s Hs. exists R. split; [done|]. intros Hb. exfalso.
           destruct (bal_entry _ _ _ Hb r mh c Hc) as (_ & h & d & Hh & Hd & _). rewrite Hmh in Hh.
           apply hex_encode_inj in Hh. rewrite Hh, Hd in Hsz. done. }
      destruct (b !! Hash key) as [d|] eqn:Hd; [|by destruct Hsz]. injection Hsz as ->.
      destruct (Z.ltb_spec 0 (Z.of_nat (length d))).
      * eapply succeeds_bind; [apply rep_getRing|]. intros rc s [Hs _].
        pose proof (rep_modifyRing (seg_str r) (usage_delta (- Z.of_nat (length d)) (-1)) _ b _ s Hs) as Hm.
        unfold addUsageDelta. destruct (modifyRing _ _ s) as [s' [u|e]]; [|done]. eexists. split; [exact Hm|].
        by apply (balanced_drop_block r mh c (Hash key) d).
      * apply succeeds_ret. intros s Hs. exists R. split; [done|]. intros Hb. exfalso.
        destruct (bal_entry _ _ _ Hb r mh c Hc) as (_ & h & d' & Hh & Hd' & Hne). rewrite Hmh in Hh.
        apply hex_encode_inj in Hh. subst h. assert (d' = d) as -> by congruence. destruct d; [done|]. cbn in *. lia.
    + intros ?. apply succeeds_ret. intros s (R' & Hs & Hbal). exists R'. split; [done|]. split; [|done]. split; [eauto|done].
Qed.

(** ** Collecting a block *)

(** The metadata after a block is dropped from all the rings [rs]: only its entries and the
    usage of roots change. *)
Definition dropped (rs : list seg) (mh : seg) (m m' : meta) : Prop := forall k,
  match k with
  | KBlockRoot r mh' _ => m' k = if bool_decide (r ∈ rs) && bool_decide (mh' = mh) then None else m k
  | KCIDUsage _ _ => True
  | _ => m' k = m k
  end.

Lemma dropped_cons r rs mh size m m' :
  dropped rs mh (drop_block r mh size m) m' -> dropped (r :: rs) mh m m'.
Proof.
  intros Hd k. specialize (Hd k). destruct k; try done. rewrite Hd. cbn [drop_block].
  rewrite (bool_decide_ext (ring ∈ r :: rs) (ring = r \/ ring ∈ rs)), bool_decide_or by apply elem_of_cons.
  by destruct (bool_decide (ring = r)), (bool_decide (ring ∈ rs)), (bool_decide (mh0 = mh)).
Qed.

Lemma rep_cleanup_all rs mh h d m b R :
  seg_str mh = hex_encode h -> b !! h = Some d ->
  let size := Z.of_nat (length d) in
  succeeds (rep m b R) (m_forM (seg_str <$> rs) (fun ring => cleanupRingBlockIndex ring (seg_str mh) size))
    (fun _ s => exists m' R', rep m' b R' s /\ dropped rs mh m m' /\
       (balanced m b R -> exact_usage m b -> balanced m' b R' /\ exact_usage m' b)).
Proof.
  intros Hmh Hd size. revert m R. induction rs as [|r rs IH]; intros m R; cbn [fmap list_fmap m_forM].
  { apply succeeds_ret. intros s Hs. exists m, R. split_and!; [done| |done]. by intros []. }
  eapply succeeds_bind; [by apply (rep_cleanup r mh h d)|]. intros ? s (R1 & Hs & Hb1).
  pose proof (IH _ R1 s Hs) as Hrest. destruct (m_forM _ _ s) as [s' [u|e]]; [|done].
  destruct Hrest as (m' & R' & Hs' & Hdr & Hb2). exists m', R'. split_and!; [done|by eapply dropped_cons|].
  intros Hbal Hex. apply Hb2; [by apply Hb1|]. eapply exact_usage_drop; [done..| |done]. apply (bal_small _ _ _ Hbal).
Qed.

(** A block that no ring has can go. *)
Lemma balanced_delete h m b R :
  (forall r, ~ indexed m r h) -> balanced m b R -> balanced m (delete h b) R.
Proof.
  intros Hno [[Hs1 Hs2] He Hr]. split.
  - pose proof (total_subseteq (delete h b) b (delete_subseteq b h)).
    pose proof (map_subseteq_size (delete h b) b (delete_subseteq b h)). split; lia.
  - intros r mh c Hs. destruct (He r mh c Hs) as (Hp & h' & d & Hmh & Hd & Hne). split; [done|].
    exists h', d. split_and!; [done| |done]. rewrite lookup_delete_ne; [done|]. intros ->. apply (Hno r). by exists mh, c.
  - intros r. destruct (Hr r) as (B & HB & Ht). exists B. split; [|done]. intros h' d'.
    rewrite (HB h' d'), lookup_delete_Some. split; [|naive_solver]. intros [Hb Hi]. split_and!; [|done..].
    intros ->. by apply (Hno r).
Qed.

Lemma exact_usage_delete h m b : (forall r, ~ indexed m r h) -> exact_usage m b -> exact_usage m (delete h b).
Proof.
  intros Hno Hex r c. destruct (Hex r c) as (U & HU & Ht). exists U. split; [|done]. intros h' d'.
  rewrite (HU h' d'), lookup_delete_Some. split; [|naive_solver]. intros (Hb & mh & Hmh & Hs). split_and!; [|done|eauto].
  intros ->. apply (Hno r). by exists mh, c.
Qed.

Lemma rep_deleteBlock c m b R :
  succeeds (rep m b R) (m_try (bsWrite (bs_DeleteBlock c))) (fun r s => rep m (delete (Hash c) b) R s /\ r = Ok tt).
Proof.
  intros s [H1 H2 H3 H4 H5]. unfold m_try, bsWrite. pose proof (bs_Delete_view c (nbs_bs s)) as Hv.
  pose proof (bs_Delete_ok c (nbs_bs s)) as Hok. destruct (bs_DeleteBlock c (nbs_bs s)) as [b' r]. cbn in Hv, Hok. subst r.
  split; [|done]. split; cbn; [done..| |done|done]. by rewrite Hv, H3.
Qed.

(** Entries only belong to rings in [rs]. *)
Lemma dropped_unindexed rs mh h m m' b R :
  seg_str mh = hex_encode h -> known_rings m rs -> balanced m b R -> dropped rs mh m m' ->
  forall r, ~ indexed m' r h.
Proof.
  intros Hmh [_ Hrs] Hb Hd r (mh' & c & Hmh' & Hs). assert (mh' = mh) as -> by (apply seg_eq; congruence).
  pose proof (Hd (KBlockRoot r mh c)) as Hk. cbn in Hk. rewrite Hk in Hs. rewrite (bool_decide_eq_true_2 (mh = mh)) in Hs by done.
  case_bool_decide as Hin; [by destruct Hs|]. apply Hin, Hrs. by destruct (bal_entry _ _ _ Hb r mh c Hs).
Qed.

Lemma known_dropped rs mh m m' : known_rings m rs -> dropped rs mh m m' -> known_rings m' rs.
Proof. intros [Hnd Hrs] Hd. split; [done|]. intros r. rewrite Hrs. pose proof (Hd (KPresence r)) as Hk. cbn in Hk. by rewrite Hk. Qed.

(** ** The loop over the blocks *)

(** The block has an entry under one of the roots [L] in one of the rings [rs]. *)
Definition kept (rs : list seg) (L : gset string) (m : meta) (h : bytes) : Prop :=
  exists r mh c, r ∈ rs /\ seg_str mh = hex_encode h /\ is_Some (m (KBlockRoot r mh c)) /\ seg_str c ∈ L.

(** The state [m'], [b'] after the blocks [hs] were looked at. *)
Record collected (rs : list seg) (L : gset string) (hs : list bytes) (m m' : meta) (b b' : gmap bytes bytes) : Prop := {
  col_sub : b' ⊆ b;
  col_dead h : h ∈ hs -> ~ kept rs L m h -> b' !! h = None;
  col_rest h : h ∉ hs \/ kept rs L m h -> b' !! h = b !! h;
  col_meta k : is_Some (root_of k) \/ m' k = m k;
  col_roots r c : m' (KRoot r c) = m (KRoot r c);
  col_index r mh c h : seg_str mh = hex_encode h -> h ∉ hs \/ kept rs L m h -> m' (KBlockRoot r mh c) = m (KBlockRoot r mh c)
}.

Lemma collected_nil rs L m b : collected rs L [] m m b b.
Proof. split; try done; [by intros h ?%not_elem_of_nil|eauto]. Qed.

Lemma collected_hit rs L h hs m m' b b' :
  kept rs L m h -> collected rs L hs m m' b b' -> collected rs L (h :: hs) m m' b b'.
Proof.
  intros Hk [Hsub H1 H2 H3 H4 H5]. split; [done|..|done|done|].
  - intros h' [->|Hin]%elem_of_cons Hn; [done|auto].
  - intros h' Hh. apply H2. destruct Hh as [Hh|?]; [|auto]. left. set_solver.
  - intros r mh c h' Hmh Hh. apply (H5 r mh c h' Hmh). destruct Hh as [Hh|?]; [|auto]. left. set_solver.
Qed.

Lemma kept_dropped rs L mh h m m' h' :
  seg_str mh = hex_encode h -> dropped rs mh m m' -> h' <> h -> kept rs L m' h' <-> kept rs L m h'.
Proof.
  intros Hmh Hd Hne. assert (forall r mh' c, seg_str mh' = hex_encode h' -> m' (KBlockRoot r mh' c) = m (KBlockRoot r mh' c)) as Hk.
  { intros r mh' c Hmh'. pose proof (Hd (KBlockRoot r mh' c)) as E. cbn in E. rewrite E.
    rewrite (bool_decide_eq_false_2 (mh' = mh)), andb_false_r; [done|]. intros ->. rewrite Hmh in Hmh'.
    by apply Hne, hex_encode_inj. }
  split; intros (r & mh' & c & ? & Hmh' & Hs & ?); exists r, mh', c; split_and!; try done;
    [rewrite <- Hk|rewrite Hk]; done.
Qed.

Lemma collected_miss rs L h mh hs m m1 m' b b' :
  seg_str mh = hex_encode h -> h ∉ hs -> ~ kept rs L m h -> dropped rs mh m m1 ->
  collected rs L hs m1 m' (delete h b) b' -> collected rs L (h :: hs) m m' b b'.
Proof.
  intros Hmh Hnew Hn Hd [Hsub H1 H2 H3 H4 H5].
  assert (forall h', h' <> h -> h' ∉ h :: hs \/ kept rs L m h' -> h' ∉ hs \/ kept rs L m1 h') as Hside.
  { intros h' Hne Hh. rewrite (kept_dropped rs L mh h m m1 h') by done. destruct Hh; [left; set_solver|auto]. }
  assert (forall h', h' ∉ h :: hs \/ kept rs L m h' -> h' <> h) as Hne by (intros h' Hh ->; set_solver).
  split; [by etrans; [|apply (delete_subseteq b h)]|..].
  - intros h' [->|Hin]%elem_of_cons Hk.
    + rewrite H2 by auto. apply lookup_delete_eq.
    + apply H1; [done|]. rewrite (kept_dropped rs L mh h m m1 h'); [done..|]. by intros ->.
  - intros h' Hh. rewrite H2 by auto. apply lookup_delete_ne. by apply not_eq_sym, Hne.
  - intros k. destruct (H3 k) as [?|E]; [auto|]. pose proof (Hd k) as Hk. destruct k; cbn; eauto; right; congruence.
  - intros r c. rewrite H4. apply (Hd (KRoot r c)).
  - intros r mh' c h' Hmh' Hh. rewrite (H5 r mh' c h' Hmh') by auto. pose proof (Hd (KBlockRoot r mh' c)) as E. cbn in E.
    rewrite E, (bool_decide_eq_false_2 (mh' = mh)), andb_false_r; [done|]. intros ->. rewrite Hmh in Hmh'.
    apply (Hne h' Hh). symmetry. by apply hex_encode_inj.
Qed.

Lemma rep_gc_loop rs L keys m b R removed held freed n :
  known_rings m rs -> NoDup (Hash <$> keys) -> (forall c, c ∈ keys -> is_Some (b !! Hash c) /\ Hash c <> []) ->
  succeeds (rep m b R) (gc_loop (seg_str <$> rs) L keys removed held freed n)
    (fun out s => exists m' b' R', rep m' b' R' s /\ collected rs L (Hash <$> keys) m m' b b' /\
       (balanced m b R -> exact_usage m b -> balanced m' b' R' /\ exact_usage m' b') /\
       let res := out.1 in
       res.(gc_removed) + res.(gc_kept) = removed + held + Z.of_nat (length keys) /\
       Z.of_nat (size b') = Z.of_nat (size b) - (res.(gc_removed) - removed)).
Proof.
  revert m b R removed held freed n. induction keys as [|c keys IH]; intros m b R removed held freed n Hrs Hnd Hkeys; cbn [gc_loop].
  { apply succeeds_ret. intros s Hs. exists m, b, R. split_and!; [done|apply collected_nil|done|cbn; lia|cbn; lia]. }
  rewrite fmap_cons, NoDup_cons in Hnd. destruct Hnd as [Hnew Hnd].
  destruct (Hkeys c) as [[d Hd] Hne]; [apply list_elem_of_here|].
  set (mh := mkSeg (HashHex c) (hex_seg_ok _ Hne)). assert (seg_str mh = hex_encode (Hash c)) as Hmh by done.
  eapply succeeds_bind_fact; [by apply (rep_InSet rs c mh)|]. intros hit Hhit. destruct hit.
  - eapply succeeds_weaken; [apply IH; [done..|]|done|].
    { intros c' Hc'. apply Hkeys. by apply list_elem_of_further. }
    intros out s (m' & b' & R' & Hs & Hcol & Hbal & H1 & H2). exists m', b', R'. split_and!; [done| |done|cbn [length]; lia|lia].
    rewrite fmap_cons. apply collected_hit; [|done]. destruct Hhit as [Hhit _]. destruct Hhit as (r & c' & ? & ? & ?); [done|].
    by exists r, mh, c'.
  - assert (~ kept rs L m (Hash c)) as Hdead.
    { intros (r & mh' & c' & ? & Hmh' & Hs & ?). assert (mh' = mh) as -> by (apply seg_eq; congruence).
      destruct Hhit as [_ Hhit]. discriminate Hhit. eauto. }
    eapply succeeds_bind_fact; [apply rep_size|]. intros sz Hsz. unfold size_in in Hsz. rewrite Hd in Hsz. subst sz. cbv zeta.
    eapply succeeds_bind; [by apply (rep_cleanup_all rs mh (Hash c) d)|]. intros ? s0 (m1 & R1 & Hs0 & Hdr & Hb1).
    pose proof (rep_deleteBlock c m1 b R1 s0 Hs0) as Hdel. unfold mbind, M_bind, m_bind.
    destruct (m_try (bsWrite (bs_DeleteBlock c)) s0) as [s1 [res|e]]; [|done]. destruct Hdel as [Hs1 ->].
    assert (forall c', c' ∈ keys -> is_Some (delete (Hash c) b !! Hash c') /\ Hash c' <> []) as Hkeys'.
    { intros c' Hc'. destruct (Hkeys c') as [Hb Hne']; [by apply list_elem_of_further|]. split; [|done].
      rewrite lookup_delete_ne; [done|]. intros E. apply Hnew. rewrite E. by apply list_elem_of_fmap_2. }
    pose proof (IH m1 (delete (Hash c) b) R1 (removed + 1) held (wrap64 (freed + Z.of_nat (length d))) (wrap64 (n + 1))
      (known_dropped _ _ _ _ Hrs Hdr) Hnd Hkeys' s1 Hs1) as Hrest.
    destruct (gc_loop _ _ _ _ _ _ _ s1) as [s2 [out|e]]; [|done].
    destruct Hrest as (m' & b' & R' & Hs & Hcol & Hbal & H1 & H2). exists m', b', R'.
    assert (size b = S (size (delete (Hash c) b))) as Hsz.
    { rewrite map_size_delete_Some by eauto. enough (size b <> 0)%nat by lia. rewrite map_size_ne_0_lookup. eauto. }
    split_and!; [done| | |cbn [length]; lia|lia].
    + rewrite fmap_cons. by eapply collected_miss.
    + intros Hb Hex. destruct (Hb1 Hb Hex) as [Hb' Hex'].
      assert (forall r, ~ indexed m1 r (Hash c)) as Hno by (by eapply dropped_unindexed).
      apply Hbal; [by apply balanced_delete|by apply exact_usage_delete].
Qed.

Lemma perm_dom (b : gmap bytes bytes) (l : list bytes) :
  l ≡ₚ (map_to_list b).*1 -> (forall h, h ∈ l <-> is_Some (b !! h)) /\ length l = size b /\ NoDup l.
Proof.
  intros Hperm. split_and!.
  - intros h. rewrite Hperm, list_elem_of_fmap. split.
    + intros ([h' d] & -> & Hin%elem_of_map_to_list). eauto.
    + intros [d Hd]. exists (h, d). split; [done|]. by apply elem_of_map_to_list.
  - rewrite Hperm, length_fmap. apply length_map_to_list.
  - rewrite Hperm. apply NoDup_fst_map_to_list.
Qed.

(** ** The collection *)

(** The block has an entry, in a known ring, under a root that has not expired there and is
    live in some known ring. *)
Definition wanted (now : Z) (m : meta) (h : bytes) : Prop :=
  exists r mh c, is_Some (m (KPresence r)) /\ seg_str mh = hex_encode h /\ is_Some (m (KBlockRoot r mh c)) /\
    expired_at now (m (KRoot r c)) = false /\
    exists r', is_Some (m (KPresence r')) /\ live_at now (m (KRoot r' c)) = true.

Lemma pruned_kept now rs rs' L m h :
  known_rings m rs -> (forall r, r ∈ rs' <-> r ∈ rs) ->
  let m1 := strip (pruned now (fun r => bool_decide (r ∈ rs)) m) m in
  (forall x, x ∈ L <-> exists r c, r ∈ rs' /\ x = seg_str c /\ live_at now (m1 (KRoot r c)) = true) ->
  kept rs' L m1 h <-> wanted now m h.
Proof.
  intros [_ Hrs] Hrs' m1 HL'.
  assert (forall r c, r ∈ rs' -> live_at now (m1 (KRoot r c)) = live_at now (m (KRoot r c))) as Hlive.
  { intros r c Hr%Hrs'. unfold m1, strip, pruned. cbn [root_of]. rewrite bool_decide_eq_true_2 by done. cbn [andb].
    destruct (expired_at now (m (KRoot r c))) eqn:He; [|done]. destruct (live_at now (m (KRoot r c))) eqn:Hl; [|done].
    apply live_not_expired in Hl. congruence. }
  assert (forall r mh c, r ∈ rs -> is_Some (m1 (KBlockRoot r mh c)) <->
    is_Some (m (KBlockRoot r mh c)) /\ expired_at now (m (KRoot r c)) = false) as Hent.
  { intros r mh c Hr. unfold m1, strip, pruned. cbn [root_of]. rewrite bool_decide_eq_true_2 by done. cbn [andb].
    destruct (expired_at now (m (KRoot r c))); [|naive_solver]. split; [by intros [? ?]|naive_solver]. }
  split.
  - intros (r & mh & c & Hr%Hrs' & Hmh & Hs & (r' & c' & Hr' & E & Hl)%HL'). apply seg_eq in E. subst c'.
    rewrite Hlive in Hl by done. apply Hent in Hs as [Hs He]; [|done]. apply Hrs', Hrs in Hr'. apply Hrs in Hr.
    exists r, mh, c. eauto 10.
  - intros (r & mh & c & Hr%Hrs & Hmh & Hs & He & r' & Hr'%Hrs & Hl). exists r, mh, c. split_and!; [by apply Hrs'|done|by apply Hent|].
    apply HL'. exists r', c. split_and!; [by apply Hrs'|done|]. rewrite Hlive; [done|by apply Hrs'].
Qed.

Lemma rep_aggDelta x y m b R : succeeds (rep m b R) (addAggDelta x y) (fun _ => rep m b R).
Proof. intros s [H1 H2 H3 H4 H5]. unfold addAggDelta. by destruct (x =? 0), (y =? 0). Qed.

Lemma rep_GC now m b R :
  (forall h, is_Some (b !! h) -> h <> []) ->
  succeeds (rep m b R) (GC now) (fun res s => exists m' b' R', rep m' b' R' s /\ b' ⊆ b /\
    (forall h, wanted now m h -> b' !! h = b !! h) /\ (forall h, ~ wanted now m h -> b' !! h = None) /\
    (forall r c, is_Some (m (KPresence r)) ->
       m' (KRoot r c) = if expired_at now (m (KRoot r c)) then None else m (KRoot r c)) /\
    res.(gc_kept) = Z.of_nat (size b') /\ res.(gc_removed) + res.(gc_kept) = Z.of_nat (size b) /\
    (balanced m b R -> exact_usage m b -> balanced m' b' R' /\ exact_usage m' b')).
Proof.
  intros Hne. apply succeeds_intro. intros s Hs. unfold GC, PruneAllExpiredRoots.
  destruct (succeeds_final _ _ _ _ (rep_RingsKnown m b R) Hs) as (rings & s0 & Hrun0 & Hs0 & rs & -> & Hrs).
  destruct (succeeds_final _ _ _ _ (rep_prune_rings now rs m b R) Hs0) as (n & s1 & Hrun1 & R1 & Hs1 & Hb1).
  set (m1 := strip (pruned now (fun r => bool_decide (r ∈ rs)) m) m) in *.
  destruct (succeeds_final _ _ _ _ (rep_RingsKnown m1 b R1) Hs1) as (rings2 & s2 & Hrun2 & Hs2 & rs' & -> & Hrs').
  destruct (succeeds_final _ _ _ _ (rep_live_roots now rs' m1 b R1) Hs2) as (L & s3 & Hrun3 & Hs3 & HL').
  assert (forall r, r ∈ rs' <-> r ∈ rs) as Hsame.
  { intros r. destruct Hrs as [_ Hrs]. destruct Hrs' as [_ Hrs']. by rewrite Hrs', Hrs. }
  assert (forall h, kept rs' L m1 h <-> wanted now m h) as Hkept by (intros h; by apply pruned_kept).
  destruct (bs_AllKeys_view (nbs_bs s3)) as (keys & Hkeys & Hperm). rewrite (rep_blocks _ _ _ _ Hs3) in Hperm.
  destruct (perm_dom b _ Hperm) as (Hdom & Hlen & Hnodup). rewrite length_fmap in Hlen.
  destruct (succeeds_final _ _ _ _ (rep_gc_loop rs' L keys m1 b R1 0 0 0 0 Hrs' Hnodup
    ltac:(intros c Hc; assert (is_Some (b !! Hash c)) by (by apply Hdom, list_elem_of_fmap_2); auto)) Hs3)
    as ([res [fb fn]] & s4 & Hrun4 & m' & b' & R' & Hs4 & Hcol & Hbal & Hcnt & Hsize). cbn in Hcnt, Hsize.
  destruct (succeeds_final _ _ _ s4 (rep_aggDelta (- fb) (- fn) m' b' R') Hs4) as (u & s5 & Hrun5 & Hs5).
  exists res, (if 0 <? fn then s5 else s4). split; [|exists m', b', R'; split_and!].
  - erewrite run_bind; [|erewrite run_bind by exact Hrun0; exact Hrun1]. erewrite run_bind by exact Hrun2.
    erewrite run_bind by exact Hrun3. erewrite run_bind; [|unfold m_try, bsRead; rewrite Hkeys; reflexivity]. cbv beta iota.
    erewrite run_bind by exact Hrun4. cbv beta iota. destruct (0 <? fn); [by erewrite run_bind by exact Hrun5|done].
  - by destruct (0 <? fn).
  - apply Hcol.
  - intros h Hh%Hkept. apply (col_rest _ _ _ _ _ _ _ Hcol). auto.
  - intros h Hh. destruct (b !! h) as [d|] eqn:Hd.
    + apply (col_dead _ _ _ _ _ _ _ Hcol); [apply Hdom; eauto|]. by rewrite Hkept.
    + rewrite (col_rest _ _ _ _ _ _ _ Hcol); [done|]. left. rewrite Hdom, Hd. by intros [? ?].
  - intros r c Hr. rewrite (col_roots _ _ _ _ _ _ _ Hcol). unfold m1, strip, pruned. cbn [root_of].
    by rewrite bool_decide_eq_true_2 by (by apply Hrs).
  - lia.
  - lia.
  - intros Hb Hex. apply Hbal; [by apply Hb1|]. unfold m1.
    apply (exact_usage_strip _ (fun o => match o with
      | Some (r, c) => bool_decide (r ∈ rs) && expired_at now (m (KRoot r c)) | None => false end)); [|done].
    intros k. done.
Qed.

(** C15: A collection of network blocks keeps exactly the wanted ones. It never fails; afterwards
    the blocks are those with an entry, in a known ring, under a root that has not expired
    there and is live in a known ring, with their data, and no others; expired roots of known
    rings are gone and the other roots are as before; the result counts the blocks deleted and
    kept. If before the collection the bytes and blocks of every ring and the usage of every
    root were those of its indexed blocks, they are so afterwards. *)
Theorem network_gc_exact (now : Z) (s : NBS) (m : meta) (b : gmap bytes bytes) (R : gmap string ringCounters) :
  rep m b R s -> (forall h, is_Some (b !! h) -> h <> []) ->
  exists s' res m' b' R', GC now s = (s', Ok res) /\ rep m' b' R' s' /\
    (forall h, wanted now m h -> b' !! h = b !! h) /\ (forall h, ~ wanted now m h -> b' !! h = None) /\
    (forall r c, is_Some (m (KPresence r)) ->
       m' (KRoot r c) = if expired_at now (m (KRoot r c)) then None else m (KRoot r c)) /\
    res.(gc_kept) = Z.of_nat (size b') /\ res.(gc_removed) + res.(gc_kept) = Z.of_nat (size b) /\
    (balanced m b R -> exact_usage m b -> balanced m' b' R' /\ exact_usage m' b').
Proof.
  intros Hs Hne. destruct (succeeds_final _ _ _ s (rep_GC now m b R Hne) Hs) as (res & s' & Hrun & m' & b' & R' & Hs' & _ & Hrest).
  exists s', res, m', b', R'. auto.
Qed.

End Collect.

(** ** Example *)

Module GCExample.
Import MemStore.

(** A store in memory that holds the metadata [M]. *)
Definition store_of (M : gmap nbkey bytes) (b : gmap bytes bytes) (R : gmap string ringCounters) : @NBS deps :=
  @mkNBS deps (kmap render M : gmap string bytes) b 0 (total b) (Z.of_nat (size b)) R ∅.

Lemma store_of_rep M b R : rep (HL := laws) (fun k => M !! k) b R (store_of M b R).
Proof.
  split; cbn; [..|done|done|set_solver].
  - intros k. change ((kmap render M : gmap string bytes) !! render k = M !! k). apply lookup_kmap, _.
  - intros key Hk. change (is_Some ((kmap render M : gmap string bytes) !! key)) in Hk.
    apply lookup_kmap_is_Some in Hk as (k & -> & _); [eauto|apply _].
Qed.

Definition public : seg := mkSeg "public" eq_refl.
Definition group : seg := mkSeg "g" eq_refl.
Definition c1 : seg := mkSeg "c1" eq_refl.
Definition c2 : seg := mkSeg "c2" eq_refl.
Definition h1 : seg := mkSeg "01" eq_refl.
Definition h2 : seg := mkSeg "02" eq_refl.

(** One block under a live root of the public ring and one under an expired root of a group. *)
Definition two_rings : list (nbkey * bytes) :=
  [(KPresence public, []); (KPresence group, []);
   (KRoot public c1, encodeInt64LE 0); (KRoot group c2, encodeInt64LE 50);
   (KBlockRoot public h1 c1, []); (KBlockRoot group h2 c2, [])].

Definition disk2 : gmap bytes bytes := <[[x01] := [x07]]> (<[[x02] := [x08; x09]]> ∅).

Lemma two_rings_lookup k v : (list_to_map two_rings : gmap nbkey bytes) !! k = Some v -> (k, v) ∈ two_rings.
Proof. apply elem_of_list_to_map_2. Qed.

Lemma network_gc_exact_witness :
  exists s' res b', GC (H := deps) 100 (store_of (list_to_map two_rings) disk2 ∅) = (s', Ok res) /\
    (forall k, bs_view (StoreLaws := laws) s'.(nbs_bs) = b' /\ b' !! k = if decide (k = [x01]) then Some [x07] else None).
Proof.
  destruct (network_gc_exact (HL := laws) 100 (store_of (list_to_map two_rings) disk2 ∅)
    (fun k => (list_to_map two_rings : gmap nbkey bytes) !! k) disk2 ∅) as (s' & res & m' & b' & R' & Hrun & Hs & Hkeep & Hdead & _).
  - apply store_of_rep.
  - intros h [d Hd]. unfold disk2 in Hd. destruct h; [by vm_compute in Hd|done].
  - exists s', res, b'. split; [exact Hrun|]. intros k. split; [exact (rep_blocks _ _ _ _ Hs)|]. case_decide as Hk.
    + subst k. rewrite Hkeep; [done|]. exists public, h1, c1. split_and!; [by eexists|done|by eexists|done|].
      exists public. split; [by eexists|done].
    + apply Hdead. intros (r & mh & c & _ & Hmh & [v Hv] & He & _). apply two_rings_lookup in Hv.
      unfold two_rings in Hv. repeat (apply elem_of_cons in Hv as [[= ]|Hv]); [..|by apply not_elem_of_nil in Hv]; subst.
      * apply Hk. symmetry. by apply hex_encode_inj.
      * by vm_compute in He.
Defined.

End GCExample.
