(* ===== verification/StoreCounters.v ===== *)
(** * The totals of the network block store

    The bytes used and the number of blocks are kept in memory and changed by deltas. They
    always equal the sum of the sizes and the number of the blocks on disk, and with a
    limit set the sum never passes it, through any sequence of operations of
    src/store/network_block_store.go, whatever the metadata datastore does. *)

From stdpp Require Import base gmap list strings.
From Stdlib Require Import ZArith Lia Strings.Byte.
From S2P Require Import Prelude Hoare Hex StoreKeys StoreDeps NetworkStore.

Set Default Goal Selector "!".
Local Open Scope Z_scope.

Section Totals.
Context `{HD : StoreDeps} `{!StoreLaws}.

Definition blocks (s : NBS) : gmap bytes bytes := bs_view s.(nbs_bs).

(** [owed_bytes] and [owed_blocks] are still to be subtracted: zero between operations,
    and what a garbage collection has freed so far while it runs. *)
Record totals_ok (owed_bytes owed_blocks : Z) (s : NBS) : Prop := {
  tot_used : s.(nbs_used) = total (blocks s) + owed_bytes;
  tot_count : s.(nbs_count) = Z.of_nat (size (blocks s)) + owed_blocks;
  tot_max : 0 < s.(nbs_maxBytes) -> s.(nbs_used) <= s.(nbs_maxBytes);
  tot_range : s.(nbs_used) < 2 ^ 63 /\ s.(nbs_count) < 2 ^ 63
}.

Definition totals : NBS -> Prop := totals_ok 0 0.

(** ** Operations on the metadata *)

(** A property of the state that does not look at the metadata. *)
Class MetaFree (I : NBS -> Prop) : Prop := {
  mf_ds s d : I s -> I (set_ds d s);
  mf_rings s m : I s -> I (set_rings m s);
  mf_known s k : I s -> I (set_known k s)
}.

#[local] Instance totals_MetaFree ob oc : MetaFree (totals_ok ob oc).
Proof. split; intros s x [????]; by split. Qed.

#[local] Instance blocks_MetaFree b I : MetaFree I -> MetaFree (fun s => blocks s = b /\ I s).
Proof. intros [H1 H2 H3]. split; intros s x [Hb Hs]; auto. Qed.

Section Metadata.
Context (I : NBS -> Prop) `{!MetaFree I}.

Lemma keeps_dsWrite f : keeps I (dsWrite f) (fun _ => True).
Proof. intros s Hs. unfold dsWrite. destruct (f (nbs_ds s)) as [d [[]|e]]; [split; [|done]|]; by apply mf_ds. Qed.

Lemma keeps_dsRead {A} (f : dstore -> result A) : keeps I (dsRead f) (fun _ => True).
Proof. intros s Hs. unfold dsRead. by destruct (f (nbs_ds s)). Qed.

Lemma keeps_bsRead {A} (f : bstore -> result A) : keeps I (bsRead f) (fun _ => True).
Proof. intros s Hs. unfold bsRead. by destruct (f (nbs_bs s)). Qed.

Lemma keeps_dsPut k v : keeps I (dsPut_ k v) (fun _ => True).
Proof. eapply keeps_ignore, keeps_dsWrite. Qed.

Lemma keeps_dsDelete k : keeps I (dsDelete_ k) (fun _ => True).
Proof. eapply keeps_ignore, keeps_dsWrite. Qed.

Hint Resolve keeps_dsWrite keeps_dsRead keeps_bsRead keeps_dsPut keeps_dsDelete : keeps.

Lemma keeps_query p : keeps I (query_ p) (fun _ => True).
Proof. unfold query_. keeps_auto; auto. Qed.

Lemma keeps_read_counter k : keeps I (read_counter k) (fun _ => True).
Proof. unfold read_counter. keeps_auto; auto. Qed.

Lemma keeps_set_rings f :
  keeps I (m_modify (fun s => set_rings (f s) s)) (fun _ => True).
Proof. intros s Hs. split; [|done]. by apply mf_rings. Qed.

Lemma keeps_set_known f :
  keeps I (m_modify (fun s => set_known (f s) s)) (fun _ => True).
Proof. intros s Hs. split; [|done]. by apply mf_known. Qed.

Hint Resolve keeps_query keeps_read_counter keeps_set_rings keeps_set_known : keeps.

Lemma keeps_getRingCounters r : keeps I (getRingCounters r) (fun _ => True).
Proof. unfold getRingCounters. keeps_auto; auto. Qed.

Lemma keeps_modifyRing r f : keeps I (modifyRing r f) (fun _ => True).
Proof. apply keeps_set_rings. Qed.

Lemma keeps_addUsageDelta r b c : keeps I (addUsageDelta r b c) (fun _ => True).
Proof. apply keeps_set_rings. Qed.

Hint Resolve keeps_getRingCounters keeps_modifyRing keeps_addUsageDelta : keeps.

Lemma keeps_reserveBytes r n : keeps I (reserveBytes r n) (fun _ => True).
Proof. unfold reserveBytes. keeps_auto; auto. Qed.

Lemma keeps_markRingKnown r : keeps I (markRingKnown r) (fun _ => True).
Proof. unfold markRingKnown. keeps_auto; auto. Qed.

Lemma keeps_addCIDUsage r c n : keeps I (addCIDUsage r c n) (fun _ => True).
Proof. unfold addCIDUsage. keeps_auto; auto. Qed.

Lemma keeps_blockSize c : keeps I (blockSize c) (fun _ => True).
Proof. unfold blockSize. eapply keeps_true. keeps_auto. Qed.

Lemma keeps_ringHasBlock r mh : keeps I (ringHasBlock r mh) (fun _ => True).
Proof. unfold ringHasBlock. keeps_auto; auto. Qed.

Lemma keeps_HasRootStr now r c : keeps I (HasRootStr now r c) (fun _ => True).
Proof. unfold HasRootStr. keeps_auto; auto. Qed.

Lemma keeps_lookupBlockCID mh : keeps I (lookupBlockCID mh) (fun _ => True).
Proof. unfold lookupBlockCID. keeps_auto; auto. Qed.

Hint Resolve keeps_reserveBytes keeps_markRingKnown keeps_addCIDUsage keeps_blockSize keeps_ringHasBlock
  keeps_HasRootStr keeps_lookupBlockCID : keeps.

Lemma keeps_AddRootWithExpiry r c e : keeps I (AddRootWithExpiry r c e) (fun _ => True).
Proof. unfold AddRootWithExpiry. keeps_auto; auto. Qed.
Hint Resolve keeps_AddRootWithExpiry : keeps.

Lemma keeps_unindex r suffix kv : keeps I (unindex r suffix kv) (fun _ => True).
Proof. unfold unindex. keeps_auto; auto. Qed.

Lemma keeps_RemoveRootStr r c : keeps I (RemoveRootStr r c) (fun _ => True).
Proof.
  unfold RemoveRootStr, removeBlockRootEntries. keeps_auto.
  eapply keeps_forM. intros x _. apply keeps_unindex.
Qed.
Hint Resolve keeps_RemoveRootStr : keeps.

Lemma keeps_index_block now r c root n e b :
  keeps I (index_block now r c root n e b) (fun _ => True).
Proof. unfold index_block. keeps_auto; auto. Qed.

Lemma keeps_AddBlockRootIndex r c root :
  keeps I (AddBlockRootIndex r c root) (fun _ => True).
Proof. unfold AddBlockRootIndex. keeps_auto; auto. Qed.

Lemma keeps_DropBlock r c : keeps I (DropBlock r c) (fun _ => True).
Proof.
  unfold DropBlock. keeps_auto; auto.
  eapply keeps_forM. intros x _. keeps_auto; auto.
Qed.

Lemma keeps_PruneExpiredRoots now r : keeps I (PruneExpiredRoots now r) (fun _ => True).
Proof. unfold PruneExpiredRoots. keeps_auto; auto. eapply keeps_forM. intros x _. keeps_auto. Qed.

Lemma keeps_RingsKnown : keeps I RingsKnown (fun _ => True).
Proof. unfold RingsKnown. keeps_auto; auto. Qed.

Lemma keeps_ListRoots now r : keeps I (ListRoots now r) (fun _ => True).
Proof. unfold ListRoots. keeps_auto; auto. Qed.

Lemma keeps_SetQuota r q : keeps I (SetQuota r q) (fun _ => True).
Proof. unfold SetQuota. keeps_auto; auto. Qed.

Lemma keeps_ForgetRing r : keeps I (ForgetRing r) (fun _ => True).
Proof. unfold ForgetRing. keeps_auto; auto. eapply keeps_forM. intros x _. keeps_auto. Qed.

Lemma keeps_cleanup r mh n : keeps I (cleanupRingBlockIndex r mh n) (fun _ => True).
Proof. unfold cleanupRingBlockIndex. keeps_auto; auto. eapply keeps_forM. intros x _. keeps_auto; auto. Qed.

Hint Resolve keeps_index_block keeps_PruneExpiredRoots keeps_RingsKnown keeps_ListRoots keeps_cleanup : keeps.

Lemma keeps_prune_rings now rings : keeps I (prune_rings now rings) (fun _ => True).
Proof. induction rings as [|r rings IH]; cbn [prune_rings]; keeps_auto; auto. Qed.

Lemma keeps_live_roots now rings : keeps I (live_roots now rings) (fun _ => True).
Proof. induction rings as [|r rings IH]; cbn [live_roots]; keeps_auto; auto. Qed.

Lemma keeps_blockHasLiveRootInSet rings c live :
  keeps I (blockHasLiveRootInSet rings c live) (fun _ => True).
Proof. induction rings as [|r rings IH]; cbn [blockHasLiveRootInSet]; keeps_auto; auto. Qed.

Hint Resolve keeps_prune_rings keeps_live_roots keeps_blockHasLiveRootInSet : keeps.

Lemma keeps_RootsForBlockEntries r c : keeps I (RootsForBlockEntries r c) (fun _ => True).
Proof.
  unfold RootsForBlockEntries, RootsForBlock. apply (keeps_bind _ _ _ (fun _ => True)); [keeps_auto; auto|]. intros l _.
  induction l as [|x l IH]; cbn [root_entries]; keeps_auto; auto.
Qed.

Lemma keeps_any_ring now rings c : keeps I (any_ring now rings c) (fun _ => True).
Proof.
  induction rings as [|r rings IH]; cbn [any_ring]; [by apply keeps_ret|]. unfold BlockHasLiveRoot.
  eapply keeps_bind; [eapply keeps_bind; [apply keeps_RootsForBlockEntries|intros l _; by apply (keeps_ret _ _ (fun _ => True))]|].
  intros [] _; [by apply keeps_ret|exact IH].
Qed.

Lemma keeps_BlockHasLiveRootAnyRing now c : keeps I (BlockHasLiveRootAnyRing now c) (fun _ => True).
Proof. eapply keeps_bind; [apply keeps_RingsKnown|]. intros ? _. apply keeps_any_ring. Qed.

Lemma keeps_Blocks r : keeps I (Blocks r) (fun _ => True).
Proof.
  unfold Blocks. eapply keeps_bind; [apply keeps_dsRead|]. intros l _.
  apply (keeps_bind _ _ _ (fun _ => True)); [|intros ? _; by apply keeps_ret].
  generalize (∅ : gmap string cid). induction l as [|kv l IH]; intros seen; cbn [collect_blocks]; keeps_auto; auto.
Qed.

End Metadata.

#[local] Hint Resolve keeps_bsRead keeps_query keeps_getRingCounters keeps_modifyRing keeps_addUsageDelta
  keeps_reserveBytes keeps_markRingKnown keeps_addCIDUsage keeps_blockSize keeps_ringHasBlock keeps_index_block
  keeps_PruneExpiredRoots keeps_RingsKnown keeps_cleanup keeps_prune_rings keeps_live_roots
  keeps_blockHasLiveRootInSet : keeps.

(** ** Operations on the blocks *)

(** The disk has room for the data: the sums stay in 64 bits. *)
Definition fits (data : bytes) (s : NBS) : Prop :=
  total (blocks s) + Z.of_nat (length data) < 2 ^ 63 /\ Z.of_nat (size (blocks s)) + 1 < 2 ^ 63.

Lemma wrap64_id z : - 2 ^ 63 <= z < 2 ^ 63 -> wrap64 z = z.
Proof. intros Hz. apply wrap64_small. exact Hz. Qed.

(** [totals] with the blocks known to be [b]. *)
Definition at_blocks (b : gmap bytes bytes) (ob : Z) (s : NBS) : Prop := blocks s = b /\ totals_ok ob 0 s.

#[local] Instance at_blocks_MetaFree b ob : MetaFree (at_blocks b ob).
Proof. apply blocks_MetaFree, _. Qed.

Lemma at_blocks_totals b s : at_blocks b 0 s -> totals s.
Proof. by intros []. Qed.

(** A reservation that succeeds is owed until the block is written. *)
Lemma reserve_totals b data :
  triple (fun s => at_blocks b 0 s /\ fits data s)
    (reserveAggBytes (Z.of_nat (length data)))
    (fun ok s => blocks s = b /\ Z.of_nat (size b) + 1 < 2 ^ 63 /\
       if ok then totals_ok (Z.of_nat (length data)) 0 s else totals s)
    totals.
Proof.
  intros s [[<- [Hu Hc Hm Hr]] [Hf1 Hf2]]. unfold reserveAggBytes, blocks in *.
  set (v := bs_view (nbs_bs s)) in *. pose proof (total_nonneg v) as Hnn.
  rewrite wrap64_id by lia. destruct (Z.leb_spec (nbs_maxBytes s) 0).
  - split_and!; [done..|]. split; unfold blocks; cbn; fold v; lia.
  - destruct (Z.ltb_spec (nbs_maxBytes s) (nbs_used s + Z.of_nat (length data))).
    + split_and!; [done..|]. by split.
    + split_and!; [done..|]. split; unfold blocks; cbn; fold v; lia.
Qed.

Lemma write_totals key data b :
  b !! Hash key = None -> Z.of_nat (size b) + 1 < 2 ^ 63 ->
  succeeds (fun s => blocks s = b /\ totals_ok (Z.of_nat (length data)) 0 s)
    (bsWrite (bs_Put key data)) (fun _ => totals_ok 0 (-1)).
Proof.
  intros Hnone Hsize s [<- [Hu Hc Hm Hr]]. unfold bsWrite.
  pose proof (bs_Put_view key data (nbs_bs s) Hnone) as Hv. pose proof (bs_Put_ok key data (nbs_bs s)) as Hok.
  destruct (bs_Put key data (nbs_bs s)) as [b' r]. cbn in Hv, Hok. subst r.
  split; unfold blocks in *; cbn.
  - rewrite Hv, total_insert by done. lia.
  - rewrite Hv, map_size_insert_None by done. lia.
  - done.
  - done.
Qed.

Lemma count_totals :
  succeeds (fun s => totals_ok 0 (-1) s /\ s.(nbs_count) + 1 < 2 ^ 63)
    (m_modify (fun s => set_count (wrap64 (s.(nbs_count) + 1)) s)) (fun _ => totals).
Proof.
  intros s [[Hu Hc Hm Hr] Hlt]. split; cbn; [done| |done|]; unfold blocks in *; cbn;
    rewrite wrap64_id by lia; lia.
Qed.


(** Giving back a reservation. *)
Lemma addAggDelta_totals b n :
  0 <= n -> succeeds (at_blocks b n) (addAggDelta (- n) 0) (fun _ => at_blocks b 0).
Proof.
  intros Hn s [<- [Hu Hc Hm Hr]]. unfold addAggDelta, applySignedDelta. cbn [Z.eqb].
  pose proof (total_nonneg (blocks s)). destruct (Z.eqb_spec (- n) 0).
  - split; [done|]. split; [lia..|done|done].
  - unfold at_blocks, blocks in *. cbn. split; [done|]. rewrite wrap64_id by lia.
    destruct (Z.ltb_spec (nbs_used s + - n) 0); [lia|]. split; unfold blocks; cbn; lia.
Qed.

Lemma read_has b ob key :
  succeeds (at_blocks b ob) (bsRead (bs_Has key))
    (fun has s => at_blocks b ob s /\ has = bool_decide (is_Some (b !! Hash key))).
Proof.
  intros s Hs. unfold bsRead. rewrite bs_Has_view. split; [done|]. by destruct Hs as [<- _].
Qed.

Lemma read_size b ob key :
  succeeds (at_blocks b ob) (blockSize key)
    (fun r s => at_blocks b ob s /\
       match b !! Hash key with
       | Some d => r = Ok (Z.of_nat (length d))
       | None => exists e, r = Err e
       end).
Proof.
  intros s Hs. unfold blockSize, m_try, bsRead. rewrite bs_GetSize_view. split; [done|].
  destruct Hs as [<- _]. unfold blocks. destruct (bs_view (nbs_bs s) !! Hash key); eauto.
Qed.

Lemma read_has_fits b key data :
  triple (fun s => at_blocks b 0 s /\ fits data s) (bsRead (bs_Has key))
    (fun has s => (at_blocks b 0 s /\ fits data s) /\ has = bool_decide (is_Some (b !! Hash key)))
    totals.
Proof.
  intros s [Hs Hf]. unfold bsRead. rewrite bs_Has_view. split; [done|]. by destruct Hs as [<- _].
Qed.

Lemma triple_fact {A} (P : NBS -> Prop) (F : Prop) (m : M NBS A) Q E :
  (F -> triple P m Q E) -> triple (fun s => P s /\ F) m Q E.
Proof. intros Hm s [Hs HF]. by apply Hm. Qed.

(** A triple may fix the blocks it starts with. *)
Lemma split_blocks {A} data (m : M NBS A) Q E :
  (forall b, triple (fun s => at_blocks b 0 s /\ fits data s) m Q E) ->
  triple (fun s => totals s /\ fits data s) m Q E.
Proof. intros Hm s [Hs Hf]. by apply (Hm (blocks s)). Qed.

(** Writing a block that was reserved. *)
Lemma put_totals key data b E :
  b !! Hash key = None -> Z.of_nat (size b) + 1 < 2 ^ 63 ->
  triple (at_blocks b (Z.of_nat (length data)))
    (res ← m_try (bsWrite (bs_Put key data));
     match res with
     | Err e => E e
     | Ok _ => m_modify (fun s => set_count (wrap64 (s.(nbs_count) + 1)) s)
     end)
    (fun _ => totals) totals.
Proof.
  intros Hnone Hsize s [Hb Hs]. pose proof (write_totals key data b Hnone Hsize s (conj Hb Hs)) as Hw.
  assert (nbs_count (bsWrite (bs_Put key data) s).1 = nbs_count s) as Hcnt.
  { unfold bsWrite. by destruct (bs_Put key data (nbs_bs s)). }
  unfold mbind, M_bind, m_bind, m_try. destruct (bsWrite (bs_Put key data) s) as [s' [u|e]]; [|done].
  apply (count_totals s'). split; [done|]. cbn in Hcnt. rewrite Hcnt.
  destruct Hs as [_ Hc _ _]. rewrite Hb in Hc. lia.
Qed.

Lemma Put_totals key data :
  triple (fun s => totals s /\ fits data s) (Put key data) (fun _ => totals) totals.
Proof.
  apply split_blocks. intros b. unfold Put. eapply triple_bind; [apply read_has_fits|].
  intros has. apply triple_fact. intros ->. case_bool_decide as Hin.
  { apply triple_ret. intros s [Hs _]. by eapply at_blocks_totals. }
  apply eq_None_not_Some in Hin. cbv zeta. eapply triple_bind; [apply reserve_totals|].
  intros [|]; [|apply triple_err; by intros s (_ & _ & Hs)].
  rewrite NewBlockWithCid_ok. intros s (Hb & Hsz & Hs). exact (put_totals key data b _ Hin Hsz s (conj Hb Hs)).
Qed.


(** What the counters owe after the block is deleted. *)
Lemma delete_totals key b ob oc :
  succeeds (fun s => blocks s = b /\ totals_ok ob oc s) (bsWrite (bs_DeleteBlock key))
    (fun _ s => blocks s = delete (Hash key) b /\
                match b !! Hash key with
                | Some d => totals_ok (ob + Z.of_nat (length d)) (oc + 1) s
                | None => totals_ok ob oc s
                end).
Proof.
  intros s [<- [Hu Hc Hm Hr]]. unfold bsWrite.
  pose proof (bs_Delete_view key (nbs_bs s)) as Hv. pose proof (bs_Delete_ok key (nbs_bs s)) as Hok.
  destruct (bs_DeleteBlock key (nbs_bs s)) as [b' r]. cbn in Hv, Hok. subst r. unfold blocks in *.
  split; [done|]. destruct (bs_view (nbs_bs s) !! Hash key) as [d|] eqn:Hd.
  - pose proof (total_delete _ _ _ Hd). assert (0 < size (bs_view (nbs_bs s)))%nat.
    { apply Nat.neq_0_lt_0. intros Hz. apply map_size_empty_inv in Hz. by rewrite Hz, lookup_empty in Hd. }
    split; unfold blocks; cbn; rewrite ?Hv; [lia| |done|done].
    rewrite map_size_delete_Some by eauto. lia.
  - split; unfold blocks; cbn; rewrite ?Hv, ?delete_id by done; done.
Qed.

(** The deltas that settle what is owed. *)
Lemma settle_totals ob oc :
  0 <= ob -> 0 <= oc -> succeeds (totals_ok ob oc) (addAggDelta (- ob) (- oc)) (fun _ => totals).
Proof.
  intros Hob Hoc s [Hu Hc Hm [Hr1 Hr2]]. pose proof (total_nonneg (blocks s)).
  assert (forall cur d, 0 <= d <= cur -> cur < 2 ^ 63 ->
    (if - d =? 0 then cur else applySignedDelta cur (- d)) = cur - d) as Happly.
  { intros cur d Hd Hcur. unfold applySignedDelta. destruct (Z.eqb_spec (- d) 0); [lia|].
    rewrite wrap64_id by lia. destruct (Z.ltb_spec (cur + - d) 0); lia. }
  pose proof (Happly (nbs_used s) ob) as H1. pose proof (Happly (nbs_count s) oc) as H2.
  unfold addAggDelta. split; unfold blocks in *;
    destruct (- ob =? 0), (- oc =? 0); cbn in *; lia.
Qed.

Lemma never_query p : never_fails (query_ p).
Proof. unfold query_. never_auto. Qed.

Lemma never_read_counter k : never_fails (read_counter k).
Proof. unfold read_counter. never_auto. Qed.

#[local] Hint Resolve never_query never_read_counter : never.

Lemma never_blockSize c : never_fails (blockSize c).
Proof. apply never_try. Qed.

Lemma never_getRingCounters r : never_fails (getRingCounters r).
Proof. unfold getRingCounters. never_auto. Qed.

Lemma never_addCIDUsage r root d : never_fails (addCIDUsage r root d).
Proof. unfold addCIDUsage, dsPut_. never_auto. Qed.

#[local] Hint Resolve never_blockSize never_getRingCounters never_addCIDUsage : never.

Lemma never_cleanup r mh n : never_fails (cleanupRingBlockIndex r mh n).
Proof. unfold cleanupRingBlockIndex, dsDelete_, addUsageDelta, modifyRing. never_auto. Qed.

Lemma never_blockHasLiveRootInSet rings c live : never_fails (blockHasLiveRootInSet rings c live).
Proof. induction rings as [|r rings IH]; cbn [blockHasLiveRootInSet]; never_auto. Qed.

#[local] Hint Resolve never_cleanup never_blockHasLiveRootInSet : never.

Lemma Delete_totals key : triple totals (Delete key) (fun _ => totals) totals.
Proof.
  intros s Hs. assert (at_blocks (blocks s) 0 s) as Hpre by done. revert Hpre. generalize (blocks s) as b.
  intros b. revert s Hs. enough (triple (at_blocks b 0) (Delete key) (fun _ => totals) totals) as Hall
    by (intros s _ Hpre; exact (Hall s Hpre)).
  unfold Delete. eapply triple_bind.
  { eapply triple_weaken; [apply (read_size b 0 key)|done..]. }
  intros r s [Hs Hr]. pose proof (delete_totals key b 0 0 s Hs) as Hd.
  destruct (b !! Hash key) as [d|].
  - subst r. unfold mbind, M_bind, m_bind, m_try.
    destruct (bsWrite (bs_DeleteBlock key) s) as [s' [u|e]]; [|done].
    pose proof (settle_totals (Z.of_nat (length d)) 1 ltac:(lia) ltac:(lia) s' (proj2 Hd)) as Hset.
    by destruct (addAggDelta _ _ s') as [s'' [[]|]].
  - destruct Hr as [e ->]. destruct (bsWrite (bs_DeleteBlock key) s) as [s' [u|e']]; [by destruct Hd|done].
Qed.


Lemma never_ringHasBlock r mh : never_fails (ringHasBlock r mh).
Proof. unfold ringHasBlock. never_auto. Qed.

Lemma never_reserveBytes r n : never_fails (reserveBytes r n).
Proof. unfold reserveBytes, modifyRing. never_auto. Qed.

#[local] Hint Resolve never_ringHasBlock never_reserveBytes : never.

(** A step on the metadata that cannot fail. *)
Local Ltac meta_step a :=
  apply (triple_never_bind _ _ _ (fun _ => True)); [eauto with keeps typeclass_instances|solve [never_auto]|];
  intros a _.

Lemma keeps_triple {A} (I : NBS -> Prop) (m : M NBS A) F :
  keeps I m F -> triple I m (fun _ => I) I.
Proof. intros Hm s Hs. specialize (Hm s Hs). destruct (m s) as [s' [a|e]]; [by destruct Hm|done]. Qed.

(** What [PutWithRoot] has reserved when the ring's share is decided. *)
Lemma reserve_for_totals b ring key data has rooted :
  has = bool_decide (is_Some (b !! Hash key)) ->
  triple (fun s => at_blocks b 0 s /\ fits data s)
    (reserve_for ring key (Z.of_nat (length data)) has rooted)
    (fun r s => match r with
                | None => totals s
                | Some (agg, _) => agg = negb has /\ (agg = true -> Z.of_nat (size b) + 1 < 2 ^ 63) /\
                    at_blocks b (if (agg : bool) then Z.of_nat (length data) else 0) s
                end) totals.
Proof.
  intros Hhas. set (n := Z.of_nat (length data)). unfold reserve_for.
  apply (triple_bind _ _ _ (fun agg s => match agg with
    | None => totals s
    | Some agg => agg = negb has /\ (agg = true -> Z.of_nat (size b) + 1 < 2 ^ 63) /\
        at_blocks b (if (agg : bool) then n else 0) s
    end)).
  { destruct has; [apply triple_ret; by intros s [Hs _]|].
    eapply triple_bind; [apply reserve_totals|]. intros [|]; apply triple_ret; [|by intros s (_ & _ & Hs)].
    by intros s (Hb & Hsz & Hs). }
  intros [agg|]; [|by apply triple_ret].
  intros s (Hagg & Hsz & Hs). revert s Hs.
  meta_step u.
  destruct rooted; [|by apply triple_ret].
  meta_step has'.
  destruct has'; [by apply triple_ret|].
  meta_step ok.
  destruct ok; [by apply triple_ret|].
  apply (triple_bind _ _ _ (fun _ => at_blocks b 0)); [|intros ?; apply triple_ret; apply at_blocks_totals].
  destruct agg; [|by apply triple_ret].
  eapply triple_weaken; [apply (addAggDelta_totals b n); lia|done..].
Qed.

Lemma PutWithRoot_totals now ring key data root exp :
  triple (fun s => totals s /\ fits data s) (PutWithRoot now ring key data root exp) (fun _ => totals) totals.
Proof.
  apply split_blocks. intros b. unfold PutWithRoot. eapply triple_bind; [apply read_has_fits|].
  intros has. apply triple_fact. intros Hhas. cbv zeta.
  eapply triple_bind; [by apply reserve_for_totals|].
  intros [[agg ringed]|]; [|by apply triple_err].
  intros s (Hagg & Hsz & Hs). revert s Hs. apply (triple_bind _ _ _ (fun _ => totals)).
  - destruct has; [subst agg; apply triple_ret; apply at_blocks_totals|].
    subst agg. rewrite NewBlockWithCid_ok. apply put_totals; [|by apply Hsz].
    apply eq_None_not_Some. by case_bool_decide.
  - intros ?. destruct root; [|by apply triple_ret]. eapply keeps_triple. eauto with keeps typeclass_instances.
Qed.

Lemma gc_size b ob oc c :
  triple (fun s => blocks s = b /\ totals_ok ob oc s) (blockSize c)
    (fun r s => (blocks s = b /\ totals_ok ob oc s) /\
       match b !! Hash c with Some d => r = Ok (Z.of_nat (length d)) | None => exists e, r = Err e end)
    totals.
Proof.
  intros s [<- Hs]. unfold blockSize, m_try, bsRead. rewrite bs_GetSize_view. split; [done|].
  unfold blocks. destruct (bs_view (nbs_bs s) !! Hash c); eauto.
Qed.

Lemma keeps_cleanup_all (I : NBS -> Prop) `{!MetaFree I} rings mh n :
  keeps I (m_forM rings (fun ring => cleanupRingBlockIndex ring mh n)) (fun _ => True).
Proof. eapply keeps_forM. intros r _. eauto with keeps typeclass_instances. Qed.

#[local] Hint Resolve keeps_cleanup_all : keeps.

(** The loop of [GC] owes the bytes and the blocks it has deleted so far. *)
Lemma gc_loop_totals rings live keys b removed kept ob oc :
  NoDup (Hash <$> keys) -> (forall c, c ∈ keys -> is_Some (b !! Hash c)) ->
  0 <= ob -> 0 <= oc -> (oc = 0 -> ob = 0) ->
  triple (fun s => blocks s = b /\ totals_ok ob oc s) (gc_loop rings live keys removed kept ob oc)
    (fun out s => 0 <= out.2.1 /\ 0 <= out.2.2 /\ (out.2.2 = 0 -> out.2.1 = 0) /\ totals_ok out.2.1 out.2.2 s) totals.
Proof.
  revert b removed kept ob oc.
  induction keys as [|c keys IH]; intros b removed kept ob oc Hnd Hin Hob Hoc H0; cbn [gc_loop].
  { apply triple_ret. naive_solver. }
  apply NoDup_cons in Hnd as [Hc Hnd]. fold (fmap (M := list) Hash keys) in *.
  meta_step hit. destruct hit; [apply IH; [done|set_solver|done..]|].
  eapply triple_bind; [apply gc_size|]. intros sz. apply triple_fact. intros Hsz. cbv zeta.
  destruct (Hin c) as [d Hd]; [set_solver|]. rewrite Hd in Hsz. subst sz.
  meta_step u. intros s Hs. pose proof (delete_totals c b ob oc s Hs) as Hdel. rewrite Hd in Hdel.
  unfold mbind, M_bind, m_bind, m_try. destruct (bsWrite (bs_DeleteBlock c) s) as [s' [v|e]]; [|done].
  destruct Hdel as [Hb Htot]. pose proof (total_nonneg (blocks s')).
  rewrite 2!wrap64_id by (destruct Htot as [Hu Hn _ Hr]; lia).
  apply (IH (delete (Hash c) b)); [done| |lia..|done].
  intros c' Hc'. rewrite lookup_delete_ne; [apply Hin; set_solver|].
  intros Heq. apply Hc. rewrite Heq. by apply list_elem_of_fmap_2.
Qed.

Lemma GC_totals now : triple totals (GC now) (fun _ => totals) totals.
Proof.
  unfold GC. apply (triple_keeps_bind _ _ _ (fun _ => True)); [|done|intros ? _].
  { unfold PruneAllExpiredRoots. keeps_auto; eauto with keeps typeclass_instances. }
  apply (triple_keeps_bind _ _ _ (fun _ => True)); [eauto with keeps typeclass_instances|done|]. intros rings _.
  apply (triple_keeps_bind _ _ _ (fun _ => True)); [eauto with keeps typeclass_instances|done|]. intros live _.
  intros s Hs. unfold mbind at 1, M_bind at 1, m_bind, m_try, bsRead.
  destruct (bs_AllKeys_view (nbs_bs s)) as (keys & -> & Hkeys). revert s Hs Hkeys.
  enough (forall b, triple (fun s => (blocks s = b /\ totals s) /\ Hash <$> keys ≡ₚ (map_to_list b).*1)
    (out ← gc_loop rings live keys 0 0 0 0;
     let '(result, (bytes, blocks)) := out in
     _ ← (if 0 <? blocks then addAggDelta (- bytes) (- blocks) else m_ret tt);
     m_ret result) (fun _ => totals) totals) as Hall by (intros s Hs Hkeys; exact (Hall (blocks s) s (conj (conj eq_refl Hs) Hkeys))).
  intros b. apply triple_fact. intros Hkeys. eapply triple_bind.
  { apply gc_loop_totals; [|intros c Hc|done..].
    - rewrite Hkeys. apply NoDup_fst_map_to_list.
    - assert (Hash c ∈ (map_to_list b).*1) as He by (rewrite <- Hkeys; by apply list_elem_of_fmap_2).
      apply list_elem_of_fmap_1 in He as ([h d] & -> & Hel). apply elem_of_map_to_list in Hel. eauto. }
  intros [result [by_ bl]] s (Hby & Hbl & H0 & Hs). cbn in *.
  destruct (Z.ltb_spec 0 bl).
  - pose proof (settle_totals by_ bl Hby Hbl s Hs). unfold mbind, M_bind, m_bind.
    by destruct (addAggDelta _ _ s) as [s' [|]].
  - cbn. assert (bl = 0) as -> by lia. by rewrite H0 in Hs.
Qed.


(** ** Runs *)

(** The operations of the store and of its ring views that change state; [now] is the time
    at which one runs. *)
Inductive op :=
  | OpPut (key : cid) (data : bytes)
  | OpDelete (key : cid)
  | OpPutWithRoot (now : Z) (ring : string) (key : cid) (data : bytes) (root : option string) (expiresAt : Z)
  | OpAddRoots (ring : string) (entries : list NetworkRootEntry)
  | OpRemoveRoot (ring c : string)
  | OpPrune (now : Z) (ring : string)
  | OpAddBlockRootIndex (ring : string) (key : cid) (root : string)
  | OpDropBlock (ring : string) (key : cid)
  | OpSetQuota (ring : string) (max : Z)
  | OpMarkRing (ring : string)
  | OpForgetRing (ring : string)
  | OpUsedBytes (ring : string)
  | OpGC (now : Z).

Definition run_op (o : op) : M NBS unit :=
  match o with
  | OpPut key data => Put key data
  | OpDelete key => Delete key
  | OpPutWithRoot now ring key data root exp => PutWithRoot now ring key data root exp
  | OpAddRoots ring entries => AddAllRootEntries ring entries
  | OpRemoveRoot ring c => RemoveRootStr ring c
  | OpPrune now ring => _ ← PruneExpiredRoots now ring; m_ret tt
  | OpAddBlockRootIndex ring key root => AddBlockRootIndex ring key root
  | OpDropBlock ring key => _ ← DropBlock ring key; m_ret tt
  | OpSetQuota ring max => SetQuota ring max
  | OpMarkRing ring => MarkRingKnown ring
  | OpForgetRing ring => ForgetRing ring
  | OpUsedBytes ring => _ ← UsedBytes ring; m_ret tt
  | OpGC now => _ ← GC now; m_ret tt
  end.

(** The sums of what a put would leave on disk are machine integers. *)
Definition room (o : op) (s : NBS) : Prop :=
  match o with
  | OpPut _ data | OpPutWithRoot _ _ _ data _ _ => fits data s
  | _ => True
  end.

Inductive store_run : NBS -> NBS -> Prop :=
  | run_done s : store_run s s
  | run_more s s' o : store_run s s' -> room o s' -> store_run s (run_op o s').1.

Lemma triple_final {A} (P : NBS -> Prop) (m : M NBS A) s :
  triple P m (fun _ => totals) totals -> P s -> totals (m s).1.
Proof. intros Hm Hs. specialize (Hm s Hs). by destruct (m s) as [s' [a|e]]. Qed.

Lemma triple_unit {A} (P : NBS -> Prop) (m : M NBS A) :
  triple P m (fun _ => totals) totals -> triple P (_ ← m; m_ret tt) (fun _ => totals) totals.
Proof. intros Hm. eapply triple_bind; [exact Hm|]. intros a. by apply triple_ret. Qed.

Lemma op_totals o : triple (fun s => totals s /\ room o s) (run_op o) (fun _ => totals) totals.
Proof.
  destruct o; cbn [run_op room]; [apply Put_totals| |apply PutWithRoot_totals|..];
    apply (triple_weaken _ totals _ _ (fun _ => totals) _ totals); try done; try (by intros s []).
  1: apply Delete_totals.
  10: apply triple_unit, GC_totals.
  all: try apply triple_unit; eapply (keeps_triple _ _ (fun _ => True)).
  - eapply keeps_forM. intros e _. apply keeps_AddRootWithExpiry, _.
  - apply keeps_RemoveRootStr, _.
  - apply keeps_PruneExpiredRoots, _.
  - apply keeps_AddBlockRootIndex, _.
  - apply keeps_DropBlock, _.
  - apply keeps_SetQuota, _.
  - unfold MarkRingKnown. keeps_auto; try done. apply keeps_markRingKnown, _.
  - apply keeps_ForgetRing, _.
  - unfold UsedBytes. eapply keeps_bind; [apply keeps_getRingCounters, _|]. intros rc _. by apply keeps_ret.
Qed.

Lemma run_totals s s' : store_run s s' -> totals s -> totals s'.
Proof.
  intros Hrun Hs. induction Hrun as [|s s' o Hrun IH Hroom]; [done|].
  apply (triple_final (fun s => totals s /\ room o s)); [apply op_totals|]. auto.
Qed.

(** C8: Storage accounting. From a store whose counters are right, any sequence of operations
    (puts, deletes, root and index changes, quotas, garbage collections, in any order and whether
    they succeed or fail) ends in a store whose byte counter is the sum of the sizes of the blocks on
    disk and whose block counter is their number; when a limit is configured, the blocks on disk
    never exceed it. Puts are assumed to keep the sums below 2^63. *)
Theorem storage_accounting s s' :
  totals s -> store_run s s' ->
  s'.(nbs_used) = total (blocks s') /\ s'.(nbs_count) = Z.of_nat (size (blocks s')) /\
  (0 < s'.(nbs_maxBytes) -> total (blocks s') <= s'.(nbs_maxBytes)).
Proof.
  intros Hs Hrun. destruct (run_totals s s' Hrun Hs) as [Hu Hc Hm _].
  rewrite !Z.add_0_r in *. rewrite Hu in Hm. auto.
Qed.

End Totals.

(** ** An example: a limit of four bytes *)

Module TotalsExample.
Import MemStore.

Definition empty_store (max : Z) : NBS := mkNBS ∅ ∅ max 0 0 ∅ ∅.
Definition data_a : bytes := [x01; x02; x03].
Definition data_b : bytes := [x04; x05].
Definition block_a : @cid deps := (true, data_a).
Definition block_b : @cid deps := (true, data_b).

(** The second put finds the store full; the last one replaces what the collection freed. *)
Definition example_ops : list (@op deps) :=
  [OpPutWithRoot 10 "public" block_a data_a (Some "bafyroot") 20; OpPut block_b data_b; OpGC 30;
   OpPut block_b data_b].

Definition example_run (n : nat) : NBS := foldl (fun s o => (run_op o s).1) (empty_store 4) (take n example_ops).

Lemma example_steps : store_run (empty_store 4) (example_run 4).
Proof.
  apply (run_more _ (example_run 3) (OpPut block_b data_b));
    [|by split; vm_compute; reflexivity].
  apply (run_more _ (example_run 2) (OpGC 30)); [|done].
  apply (run_more _ (example_run 1) (OpPut block_b data_b)); [|by split; vm_compute; reflexivity].
  apply (run_more _ (example_run 0) (OpPutWithRoot 10 "public" block_a data_a (Some "bafyroot") 20));
    [|by split; vm_compute; reflexivity].
  apply run_done.
Qed.

Lemma empty_totals max : totals (empty_store max).
Proof. split; cbn; rewrite ?total_empty, ?map_size_empty; lia. Qed.

Lemma storage_accounting_witness :
  totals (empty_store 4) /\ store_run (empty_store 4) (example_run 4) /\
  (nbs_used <$> [example_run 1; example_run 2; example_run 3; example_run 4]) = [3; 3; 0; 2] /\
  (example_run 4).(nbs_used) = total (blocks (example_run 4)) /\
  (example_run 4).(nbs_count) = Z.of_nat (size (blocks (example_run 4))) /\
  (0 < (example_run 4).(nbs_maxBytes) -> total (blocks (example_run 4)) <= (example_run 4).(nbs_maxBytes)).
Proof.
  split; [apply empty_totals|]. split; [apply example_steps|]. split; [vm_compute; reflexivity|].
  apply (storage_accounting (empty_store 4)); [apply empty_totals|apply example_steps].
Defined.

End TotalsExample.
