(* ===== verification/RingAccounting.v ===== *)
(** * The accounts of the rings

    Each ring counts the bytes and the blocks it has, and each root the bytes under it
    (src/store/network_block_store.go). The counters are changed by differences; through any
    run of operations they are the sums over the index on disk. *)

From stdpp Require Import base gmap list strings.
From Stdlib Require Import ZArith Lia Strings.Byte Ascii.
From S2P Require Import Prelude Hoare Hex StoreKeys StoreDeps NetworkStore RingIndex NetworkGC StoreCounters.

Set Default Goal Selector "!".
Local Open Scope Z_scope.

Section Accounts.
Context `{HD : StoreDeps} `{HL : !StoreLaws}.

Lemma balanced_counters m b R R' :
  (forall r, counters m R' r = counters m R r) -> balanced m b R -> balanced m b R'.
Proof.
  intros Hc [Hs He Hr]. split; [done..|]. intros r. destruct (Hr r) as (B & HB & Ht). exists B. by rewrite Hc.
Qed.

(** ** New blocks *)

Lemma balanced_insert h d m b R :
  b !! h = None -> small (<[h := d]> b) -> balanced m b R -> balanced m (<[h := d]> b) R.
Proof.
  intros Hh Hs [_ He Hr]. assert (forall r, ~ indexed m r h) as Hno.
  { intros r (mh & c & Hmh & Hc). destruct (He r mh c Hc) as (_ & h' & d' & Hmh' & Hd' & _). rewrite Hmh in Hmh'.
    apply hex_encode_inj in Hmh'. congruence. }
  split; [done|..].
  - intros r mh c Hc. destruct (He r mh c Hc) as (Hp & h' & d' & Hmh & Hd' & Hne). split; [done|]. exists h', d'.
    split_and!; [done| |done]. rewrite lookup_insert_ne; [done|]. congruence.
  - intros r. destruct (Hr r) as (B & HB & Ht). exists B. split; [|done]. intros h' d'. rewrite (HB h' d').
    split; intros [Hb Hi]; (split; [|done]).
    + rewrite lookup_insert_ne; [done|]. congruence.
    + destruct (decide (h' = h)) as [->|Hne]; [by destruct (Hno r)|]. by rewrite lookup_insert_ne in Hb.
Qed.

Lemma exact_usage_insert h d m b R :
  b !! h = None -> balanced m b R -> exact_usage m b -> exact_usage m (<[h := d]> b).
Proof.
  intros Hh [_ He _] Hex r c. destruct (Hex r c) as (U & HU & Ht). exists U. split; [|done].
  intros h' d'. rewrite (HU h' d'). split; intros (Hb & mh & Hmh & Hc); (split; [|eauto]).
  - rewrite lookup_insert_ne; [done|]. congruence.
  - destruct (decide (h' = h)) as [->|Hne]; [|by rewrite lookup_insert_ne in Hb].
    destruct (He r mh c Hc) as (_ & h2 & d2 & Hmh2 & Hd2 & _). rewrite Hmh in Hmh2. apply hex_encode_inj in Hmh2. congruence.
Qed.

(** ** New index entries *)

(** The metadata after a block of [size] bytes is indexed under a root. *)
Record entered (r mh root : seg) (size : Z) (m m' : meta) : Prop := {
  ent_other k : k <> KBlockRoot r mh root -> k <> KCIDUsage r root -> k <> KRoot r root -> k <> KPresence r -> m' k = m k;
  ent_entry : is_Some (m' (KBlockRoot r mh root));
  ent_presence : is_Some (m' (KPresence r));
  ent_usage : m' (KCIDUsage r root) =
    if bool_decide (is_Some (m (KBlockRoot r mh root))) then m (KCIDUsage r root)
    else add_usage r root size m (KCIDUsage r root)
}.

Lemma entered_counters r mh root size m m' R r' : entered r mh root size m m' -> counters m' R r' = counters m R r'.
Proof. intros [Ho _ _ _]. unfold counters, loaded. by rewrite !Ho. Qed.

Lemma entered_presence r mh root size m m' r' :
  entered r mh root size m m' -> is_Some (m (KPresence r')) -> is_Some (m' (KPresence r')).
Proof. intros [Ho _ Hp _] Hs. destruct (decide (r' = r)) as [->|Hne]; [done|]. rewrite Ho; [done..|]. congruence. Qed.

Lemma entered_indexed r mh h root size m m' r' h' :
  seg_str mh = hex_encode h -> entered r mh root size m m' ->
  indexed m' r' h' <-> indexed m r' h' \/ (r' = r /\ h' = h).
Proof.
  intros Hmh [Ho Hen _ _]. split.
  - intros (mh' & c & Hmh' & Hs). destruct (decide (KBlockRoot r' mh' c = KBlockRoot r mh root)) as [[= -> -> ->]|Hne].
    + right. split; [done|]. rewrite Hmh in Hmh'. symmetry. by apply hex_encode_inj.
    + left. exists mh', c. split; [done|]. by rewrite Ho in Hs.
  - intros [(mh' & c & Hmh' & Hs)|[-> ->]]; [|by exists mh, root]. exists mh', c. split; [done|].
    destruct (decide (KBlockRoot r' mh' c = KBlockRoot r mh root)) as [[= -> -> ->]|Hne]; [done|]. by rewrite Ho.
Qed.

Lemma entered_wf r mh h d root size m m' b R :
  seg_str mh = hex_encode h -> b !! h = Some d -> d <> [] -> entered r mh root size m m' -> balanced m b R ->
  forall r' mh' c, is_Some (m' (KBlockRoot r' mh' c)) ->
    is_Some (m' (KPresence r')) /\ exists h d, seg_str mh' = hex_encode h /\ b !! h = Some d /\ d <> [].
Proof.
  intros Hmh Hd Hne Hent [_ He _] r' mh' c Hs.
  destruct (decide (KBlockRoot r' mh' c = KBlockRoot r mh root)) as [[= -> -> ->]|Hk].
  - split; [apply Hent|eauto].
  - rewrite (ent_other _ _ _ _ _ _ Hent) in Hs by done. destruct (He r' mh' c Hs) as [Hp Hb].
    split; [by eapply entered_presence|done].
Qed.

(** The block was in the ring already. *)
Lemma balanced_entered_old r mh h d root size m m' b R :
  seg_str mh = hex_encode h -> b !! h = Some d -> d <> [] -> entered r mh root size m m' -> indexed m r h ->
  balanced m b R -> balanced m' b R.
Proof.
  intros Hmh Hd Hne Hent Hi Hb. split; [apply Hb|by eapply entered_wf|].
  intros r'. destruct (bal_ring _ _ _ Hb r') as (B & HB & Ht). exists B. erewrite entered_counters by done. split; [|done].
  intros h' d'. rewrite (HB h' d'), (entered_indexed r mh h root size m m') by done. naive_solver.
Qed.

Lemma tallies_add B h d rc rc' :
  B !! h = None -> small (<[h := d]> B) -> tallies B rc ->
  rc'.(rc_used) = wrap64 (rc.(rc_used) + Z.of_nat (length d)) -> rc'.(rc_count) = wrap64 (rc.(rc_count) + 1) ->
  tallies (<[h := d]> B) rc'.
Proof.
  intros Hh [Hs1 Hs2] [H1 H2] Hu Hc. rewrite total_insert in Hs1 by done. rewrite map_size_insert_None in Hs2 by done.
  pose proof (total_nonneg B). unfold tallies. rewrite total_insert, map_size_insert_None by done. rewrite Hu, Hc, H1, H2.
  rewrite !wrap64_small by (unfold in_int64; lia). lia.
Qed.

(** The block is new in the ring, which counts it. *)
Lemma balanced_entered_new r mh h d root size m m' b R R' :
  seg_str mh = hex_encode h -> b !! h = Some d -> d <> [] -> entered r mh root size m m' -> ~ indexed m r h ->
  (counters m R' r).(rc_used) = wrap64 ((counters m R r).(rc_used) + Z.of_nat (length d)) ->
  (counters m R' r).(rc_count) = wrap64 ((counters m R r).(rc_count) + 1) ->
  (forall r', r' <> r -> counters m R' r' = counters m R r') ->
  balanced m b R -> balanced m' b R'.
Proof.
  intros Hmh Hd Hne Hent Hi Hu Hc Hother Hb. split; [apply Hb|by eapply entered_wf|].
  intros r'. destruct (bal_ring _ _ _ Hb r') as (B & HB & Ht). erewrite entered_counters by done.
  destruct (decide (r' = r)) as [->|Hr].
  - exists (<[h := d]> B). assert (B !! h = None) as HBh.
    { apply eq_None_not_Some. intros [d' [_ ?]%HB]. done. }
    assert (ring_blocks m' b r (<[h := d]> B)) as HB'.
    { intros h' d'. rewrite (entered_indexed r mh h root size m m') by done. destruct (decide (h' = h)) as [->|Hh].
      - rewrite lookup_insert_eq. split; [intros [= ->]; auto|]. intros [Hd' _]. congruence.
      - rewrite lookup_insert_ne by done. rewrite (HB h' d'). naive_solver. }
    split; [done|]. eapply tallies_add; [done| |done..]. eapply ring_blocks_small; [|done]. apply Hb.
  - exists B. rewrite Hother by done. split; [|done]. intros h' d'.
    rewrite (HB h' d'), (entered_indexed r mh h root size m m') by done. naive_solver.
Qed.

Lemma usage_after_add U h d v :
  U !! h = None -> total (<[h := d]> U) < 2 ^ 63 -> default 0 (counter v) = total U ->
  default 0 (counter (Some (encodeInt64LE (usage_after (Z.of_nat (length d)) v)))) = total (<[h := d]> U).
Proof.
  intros Hh Hs Hv. pose proof (total_nonneg U). rewrite total_insert in * by done.
  unfold usage_after. rewrite Hv, wrap64_small by (unfold in_int64; lia).
  destruct (Z.ltb_spec (total U + Z.of_nat (length d)) 0); [lia|].
  cbn [counter]. rewrite length_encodeInt64LE. cbn [Nat.eqb]. rewrite decode_encodeInt64LE by (unfold in_int64; lia). cbn. lia.
Qed.

Lemma exact_usage_entered r mh h d root m m' b :
  seg_str mh = hex_encode h -> b !! h = Some d -> total b < 2 ^ 63 ->
  entered r mh root (Z.of_nat (length d)) m m' -> exact_usage m b -> exact_usage m' b.
Proof.
  intros Hmh Hd Hs [Ho Hen _ Hu] Hex r' c. destruct (Hex r' c) as (U & HU & Ht).
  destruct (decide (r' = r /\ c = root)) as [[-> ->]|Hne].
  2: { exists U. split; [|unfold usage_of in *; rewrite Ho; [done|done| |done..]; intros [= -> ->]; by apply Hne].
       intros h' d'. rewrite (HU h' d'). split; intros (Hb & mh' & Hmh' & Hc); (split; [done|]); exists mh'; (split; [done|]);
         [rewrite Ho; [done|..]|rewrite Ho in Hc; [done|..]]; try done; intros [= -> -> ->]; by apply Hne. }
  assert (forall h', h' <> h -> (exists mh', seg_str mh' = hex_encode h' /\ is_Some (m' (KBlockRoot r mh' root))) <->
    (exists mh', seg_str mh' = hex_encode h' /\ is_Some (m (KBlockRoot r mh' root)))) as Hother.
  { intros h' Hh. assert (forall mh', seg_str mh' = hex_encode h' -> mh' <> mh) as Hn.
    { intros mh' Hmh' ->. apply Hh. rewrite Hmh in Hmh'. symmetry. by apply hex_encode_inj. }
    split; intros (mh' & Hmh' & Hc); exists mh'; (split; [done|]); specialize (Hn mh' Hmh');
      [rewrite Ho in Hc|rewrite Ho]; try done; congruence. }
  unfold usage_of in *. rewrite Hu. case_bool_decide as Hold.
  - exists U. split; [|done]. intros h' d'. rewrite (HU h' d'). destruct (decide (h' = h)) as [->|Hh]; [|by rewrite Hother].
    split; intros [Hb _]; (split; [done|]); by exists mh.
  - assert (U !! h = None) as HUh.
    { apply eq_None_not_Some. intros [d' (_ & mh' & Hmh' & Hc)%HU]. apply Hold.
      replace mh with mh'; [done|]. apply seg_eq. congruence. }
    assert (forall h' d', <[h := d]> U !! h' = Some d' <->
      b !! h' = Some d' /\ exists mh', seg_str mh' = hex_encode h' /\ is_Some (m' (KBlockRoot r mh' root))) as HU'.
    { intros h' d'. destruct (decide (h' = h)) as [->|Hh].
      - rewrite lookup_insert_eq. split; [intros [= <-]; eauto|]. intros [? _]. congruence.
      - rewrite lookup_insert_ne by done. by rewrite (HU h' d'), Hother. }
    exists (<[h := d]> U). split; [done|]. unfold add_usage.
    assert (total (<[h := d]> U) < 2 ^ 63) as Hts.
    { pose proof (total_subseteq (<[h := d]> U) b) as Hsub. enough (<[h := d]> U ⊆ b) by (specialize (Hsub ltac:(done)); lia).
      apply map_subseteq_spec. intros h' d' ?. by apply HU'. }
    destruct (Z.eqb_spec (Z.of_nat (length d)) 0) as [Hz|_].
    + rewrite total_insert by done. lia.
    + rewrite upd_same. by apply usage_after_add.
Qed.

(** ** Roots and rings *)

Lemma rep_mark r m b R :
  succeeds (rep m b R) (markRingKnown (seg_str r))
    (fun _ s => exists v, rep (upd (KPresence r) (Some v) m) b R s).
Proof.
  unfold markRingKnown. intros s Hs. unfold mbind, M_bind, m_bind at 1. cbn [m_get].
  destruct (decide (seg_str r ∈ nbs_known s)) as [Hin|Hnot].
  - destruct (rep_known _ _ _ _ Hs r Hin) as [v Hv]. exists v. eapply rep_ext; [|exact Hs].
    intros k. unfold upd. case_decide; [by subst|done].
  - change (nbPrefixRings +:+ seg_str r) with (render (KPresence r)). destruct Hs as [H1 H2 H3 H4 H5].
    unfold m_bind, m_modify, dsPut_, m_ignore, dsWrite. rewrite newKey_clean. cbn [nbs_ds set_known].
    pose proof (ds_Put_view (render (KPresence r)) [] (nbs_ds s)) as Hv.
    destruct (ds_Put (render (KPresence r)) [] (nbs_ds s)) as [d u]. cbn in Hv. exists [].
    split; cbn; [..|done|done|].
    + intros k. rewrite Hv. unfold upd. case_decide as Hk; [subst; by rewrite lookup_insert_eq|].
      rewrite lookup_insert_ne; [done|]. intros E. apply Hk. symmetry. by apply (inj render).
    + intros key. rewrite Hv. intros [<-|[_ Hs]]%lookup_insert_is_Some; [by exists (KPresence r)|eauto].
    + intros r' [E%elem_of_singleton|Hin]%elem_of_union.
      * apply seg_eq in E. subst r'. rewrite upd_same. eauto.
      * unfold upd. case_decide; [eauto|]. by apply H5.
Qed.

Lemma rep_AddRoot r c e m b R :
  succeeds (rep m b R) (AddRootWithExpiry (seg_str r) (seg_str c) e)
    (fun _ s => exists m', rep m' b R s /\ (is_Some (m (KPresence r)) -> is_Some (m' (KPresence r))) /\
       forall k, k <> KRoot r c -> k <> KPresence r -> m' k = m k).
Proof.
  unfold AddRootWithExpiry. destruct (cborMarshalRoot e) as [data|err].
  2: { apply succeeds_ret. intros s Hs. by exists m. }
  change (rootKey (seg_str r) (seg_str c)) with (render (KRoot r c)).
  intros s Hs. pose proof (rep_put (KRoot r c) data m b R s Hs) as Hput. unfold dsPut_, m_ignore in Hput.
  unfold mbind, M_bind, m_bind, m_try. destruct (dsWrite (ds_Put (newKey (render (KRoot r c))) data) s) as [s1 [u|err]]; cbn in Hput.
  - pose proof (rep_mark r _ b R s1 Hput) as Hmark. destruct (markRingKnown _ s1) as [s2 [u2|err]]; [|done].
    destruct Hmark as [v Hs2]. eexists. split; [exact Hs2|]. split; [intros _; rewrite upd_same; eauto|].
    intros k H1 H2. by rewrite !upd_other.
  - exists (upd (KRoot r c) (Some data) m). split; [done|]. split; [by rewrite upd_other|]. intros k H1 H2. by rewrite upd_other.
Qed.

Lemma rep_HasRoot now r c m b R :
  succeeds (rep m b R) (HasRootStr now (seg_str r) (seg_str c)) (fun has s => rep m b R s /\ has = live_at now (m (KRoot r c))).
Proof.
  unfold HasRootStr. change (rootKey (seg_str r) (seg_str c)) with (render (KRoot r c)).
  eapply succeeds_bind; [apply rep_get|]. intros res. apply succeeds_ret. intros s [Hs Hres]. split; [done|].
  unfold live_at. destruct (m (KRoot r c)); [by subst|]. by destruct Hres as [e ->].
Qed.

Definition count_one (rc : ringCounters) : ringCounters := mkRC rc.(rc_used) (wrap64 (rc.(rc_count) + 1)) rc.(rc_quota).

Lemma rep_index_block now r key mh root size e adding m b R :
  seg_str mh = HashHex key ->
  succeeds (rep m b R) (index_block now (seg_str r) key (seg_str root) size e adding)
    (fun _ s => exists m', entered r mh root size m m' /\
       rep m' b (if adding then alter count_one (seg_str r) R else R) s).
Proof.
  intros Hmh. unfold index_block. rewrite <- Hmh. cbv zeta.
  change (blockRootKey (seg_str r) (seg_str mh) (seg_str root)) with (render (KBlockRoot r mh root)).
  eapply succeeds_bind with (Q1 := fun _ => rep m b (if adding then alter count_one (seg_str r) R else R)).
  { destruct adding; [apply rep_modifyRing|by apply succeeds_ret]. }
  intros ?. set (R1 := if adding then _ else R).
  eapply succeeds_bind_fact; [apply rep_has|]. intros res ->.
  set (m1 := if bool_decide (is_Some (m (KBlockRoot r mh root))) then m else add_usage r root size m).
  eapply succeeds_bind with (Q1 := fun _ => rep m1 b R1).
  { unfold m1. destruct (bool_decide _); [by apply succeeds_ret|apply rep_addCIDUsage]. }
  intros ?. eapply succeeds_bind; [apply rep_put|]. intros ?.
  eapply succeeds_bind_fact; [apply rep_HasRoot|]. intros has _.
  set (m2 := upd (KBlockRoot r mh root) (Some []) m1).
  eapply succeeds_bind with (Q1 := fun _ s => exists m', rep m' b R1 s /\
    forall k, k <> KRoot r root -> k <> KPresence r -> m' k = m2 k).
  { destruct has; [apply succeeds_ret; eauto|].
    eapply succeeds_weaken; [apply rep_AddRoot|done|]. intros ? s (m' & Hs & _ & Hm'). eauto. }
  intros ? s (m3 & Hs & Hm3). pose proof (rep_mark r m3 b R1 s Hs) as Hmark.
  destruct (markRingKnown _ s) as [s' [u3|err]]; [|done]. destruct Hmark as [v Hs'].
  exists (upd (KPresence r) (Some v) m3). split; [|done].
  assert (forall k, k <> KCIDUsage r root -> m1 k = m k) as Hm1.
  { intros k Hk. unfold m1, add_usage. destruct (bool_decide _); [done|]. destruct (size =? 0); [done|]. by apply upd_other. }
  split.
  - intros k H1 H2 H3 H4. rewrite upd_other, Hm3 by done. unfold m2. rewrite upd_other by done. by apply Hm1.
  - rewrite upd_other, Hm3 by done. unfold m2. rewrite upd_same. eauto.
  - rewrite upd_same. eauto.
  - rewrite upd_other, Hm3 by done. unfold m2. rewrite upd_other by done. unfold m1. by destruct (bool_decide _).
Qed.

(** ** The accounts *)

Record accounts (m : meta) (b : gmap bytes bytes) (R : gmap string ringCounters) : Prop := {
  acc_rings : balanced m b R;
  acc_usage : exact_usage m b;
  acc_hashes h : is_Some (b !! h) -> h <> []
}.

(** A store whose rings and roots count right. *)
Definition accounted (s : NBS) : Prop := exists m b R, rep m b R s /\ accounts m b R.

Lemma accounts_counters m b R R' :
  (forall r, counters m R' r = counters m R r) -> accounts m b R -> accounts m b R'.
Proof. intros Hc [H1 H2 H3]. split; [by eapply balanced_counters|done..]. Qed.

Lemma accounts_entered_old r mh h d root m m' b R :
  seg_str mh = hex_encode h -> b !! h = Some d -> d <> [] -> entered r mh root (Z.of_nat (length d)) m m' ->
  indexed m r h -> accounts m b R -> accounts m' b R.
Proof.
  intros Hmh Hd Hne Hent Hi [Hb Hu Hh]. split; [by eapply balanced_entered_old| |done].
  eapply exact_usage_entered; [done..| |done|done]. apply Hb.
Qed.

Lemma accounts_entered_new r mh h d root m m' b R R' :
  seg_str mh = hex_encode h -> b !! h = Some d -> d <> [] -> entered r mh root (Z.of_nat (length d)) m m' ->
  ~ indexed m r h ->
  (counters m R' r).(rc_used) = wrap64 ((counters m R r).(rc_used) + Z.of_nat (length d)) ->
  (counters m R' r).(rc_count) = wrap64 ((counters m R r).(rc_count) + 1) ->
  (forall r', r' <> r -> counters m R' r' = counters m R r') ->
  accounts m b R -> accounts m' b R'.
Proof.
  intros Hmh Hd Hne Hent Hi Hu Hc Ho [Hb Hus Hh]. split; [by eapply balanced_entered_new| |done].
  eapply exact_usage_entered; [done..| |done|done]. apply Hb.
Qed.

Lemma accounts_insert h d m b R :
  h <> [] -> b !! h = None -> small (<[h := d]> b) -> accounts m b R -> accounts m (<[h := d]> b) R.
Proof.
  intros Hh Hnone Hs [Hb Hu Hhs]. split; [by apply balanced_insert|by eapply exact_usage_insert|].
  intros h'. rewrite lookup_insert_is_Some. intros [<-|[_ ?]]; auto.
Qed.

Lemma ring_fits m b r h d B :
  small b -> b !! h = Some d -> ~ indexed m r h -> ring_blocks m b r B ->
  total B + Z.of_nat (length d) < 2 ^ 63 /\ Z.of_nat (size B) + 1 < 2 ^ 63.
Proof.
  intros [Hs1 Hs2] Hd Hi HB. assert (B !! h = None) as Hno.
  { apply eq_None_not_Some. intros [d' [_ ?]%HB]. done. }
  assert (<[h := d]> B ⊆ b) as Hsub.
  { apply map_subseteq_spec. intros h' d' [[<- <-]|[_ Hh]]%lookup_insert_Some; [done|]. by apply HB. }
  pose proof (total_subseteq _ _ Hsub) as H1. pose proof (map_subseteq_size _ _ Hsub) as H2.
  rewrite total_insert in H1 by done. rewrite map_size_insert_None in H2 by done. lia.
Qed.

(** A ring that counts a block it did not have. *)
Lemma counted_block m b R r h (d : bytes) :
  balanced m b R -> b !! h = Some d -> d <> [] -> ~ indexed m r h ->
  let R' := alter (usage_delta (Z.of_nat (length d)) 1) (seg_str r) (load m R r) in
  (counters m R' r).(rc_used) = wrap64 ((counters m R r).(rc_used) + Z.of_nat (length d)) /\
  (counters m R' r).(rc_count) = wrap64 ((counters m R r).(rc_count) + 1) /\
  (forall r', r' <> r -> counters m R' r' = counters m R r').
Proof.
  intros Hb Hd Hne Hi R'. destruct (bal_ring _ _ _ Hb r) as (B & HB & Hu & Hc).
  destruct (ring_fits m b r h d B (bal_small _ _ _ Hb) Hd Hi HB) as [H1 H2].
  pose proof (total_nonneg B). assert (0 < length d)%nat by (destruct d; [done|cbn; lia]).
  unfold R'. assert (is_Some (load m R r !! seg_str r)) as Hl by (rewrite load_Some; eauto).
  split_and!.
  - rewrite counters_alter, decide_True, counters_load by done. unfold usage_delta, applySignedDelta. cbn [rc_used].
    destruct (Z.eqb_spec (Z.of_nat (length d)) 0); [lia|]. rewrite Hu, wrap64_small by (unfold in_int64; lia).
    destruct (Z.ltb_spec (total B + Z.of_nat (length d)) 0); lia.
  - rewrite counters_alter, decide_True, counters_load by done. unfold usage_delta, applySignedDelta. cbn [rc_count Z.eqb].
    rewrite Hc, wrap64_small by (unfold in_int64; lia). destruct (Z.ltb_spec (Z.of_nat (size B) + 1) 0); lia.
  - intros r' Hr. by rewrite counters_alter, decide_False, counters_load.
Qed.

Lemma rep_AddBlockRootIndex r key mh root d m b R :
  seg_str mh = HashHex key -> b !! Hash key = Some d -> d <> [] ->
  succeeds (rep m b R) (AddBlockRootIndex (seg_str r) key (seg_str root))
    (fun _ s => exists m' R', rep m' b R' s /\ (accounts m b R -> accounts m' b R')).
Proof.
  intros Hmh Hd Hne. unfold AddBlockRootIndex. cbv zeta. rewrite <- Hmh.
  change (blockRootKey (seg_str r) (seg_str mh) (seg_str root)) with (render (KBlockRoot r mh root)).
  eapply succeeds_bind_fact; [apply rep_has|]. intros res ->. case_bool_decide as Hold.
  { apply succeeds_ret. eauto. }
  eapply succeeds_bind_fact; [apply rep_size|]. intros sz Hsz. unfold size_in in Hsz. rewrite Hd in Hsz. subst sz.
  assert (0 < length d)%nat by (destruct d; [done|cbn; lia]).
  destruct (Z.ltb_spec 0 (Z.of_nat (length d))); [|lia]. set (size := Z.of_nat (length d)).
  eapply succeeds_bind with (Q1 := fun _ s => exists R', rep (add_usage r root size m) b R' s /\
    forall m', entered r mh root size m m' -> accounts m b R -> accounts m' b R').
  - eapply succeeds_bind_fact; [apply rep_has_block|]. intros has Hhas. destruct has.
    + apply (succeeds_bind _ _ _ (fun _ => rep m b R)); [by apply succeeds_ret|]. intros ?.
      eapply succeeds_weaken; [apply rep_addCIDUsage|done|]. intros ? s Hs. exists R. split; [done|].
      intros m' Hent. eapply accounts_entered_old; [done..|]. destruct Hhas as [Hhas _].
      destruct Hhas as [c Hc]; [done|]. by exists mh, c.
    + assert (~ indexed m r (Hash key)) as Hi.
      { intros (mh' & c & Hmh' & Hc). assert (mh' = mh) as -> by (apply seg_eq; by rewrite Hmh, Hmh').
        destruct Hhas as [_ Hhas]. discriminate Hhas. eauto. }
      apply (succeeds_bind _ _ _ (fun _ => rep m b (alter (usage_delta size 1) (seg_str r) (load m R r)))).
      { eapply succeeds_bind; [apply rep_getRing|]. intros rc s [Hs _]. exact (rep_modifyRing (seg_str r) (usage_delta size 1) _ b _ s Hs). }
      intros ?. eapply succeeds_weaken; [apply rep_addCIDUsage|done|]. intros ? s Hs. eexists. split; [exact Hs|].
      intros m' Hent Ha. destruct (counted_block m b R r (Hash key) d) as (Hu & Hc & Ho); [by apply Ha|done..|].
      by eapply accounts_entered_new.
  - intros ? s (R' & Hs & Hacc). pose proof (rep_put (KBlockRoot r mh root) [] _ b R' s Hs) as Hput.
    unfold mbind, M_bind, m_bind. destruct (dsPut_ _ _ s) as [s1 [u|e]]; [|done].
    pose proof (rep_mark r _ b R' s1 Hput) as Hmark. destruct (markRingKnown _ s1) as [s2 [u2|e]]; [|done].
    destruct Hmark as [v Hs2]. eexists _, R'. split; [exact Hs2|]. apply Hacc. split.
    + intros k H1 H2 H3 H4. rewrite !upd_other by done. unfold add_usage. destruct (size =? 0); [done|]. by apply upd_other.
    + rewrite upd_other, upd_same by done. eauto.
    + rewrite upd_same. eauto.
    + rewrite !upd_other by done. by rewrite bool_decide_eq_false_2.
Qed.

(** ** Puts *)

Lemma rep_reserveAgg size m b R : succeeds (rep m b R) (reserveAggBytes size) (fun _ => rep m b R).
Proof. intros s Hs. unfold reserveAggBytes. destruct (_ <=? _); [|destruct (_ <? _)]; by destruct Hs. Qed.

Lemma rep_setCount n m b R : succeeds (rep m b R) (m_modify (fun s => set_count (n s) s)) (fun _ => rep m b R).
Proof. intros s Hs. by destruct Hs. Qed.

Lemma rep_bsHas key m b R :
  succeeds (rep m b R) (bsRead (bs_Has key)) (fun has s => rep m b R s /\ has = bool_decide (is_Some (b !! Hash key))).
Proof. intros s Hs. unfold bsRead. by rewrite bs_Has_view, (rep_blocks _ _ _ _ Hs). Qed.

Lemma rep_bsPut key data m b R :
  b !! Hash key = None ->
  succeeds (rep m b R) (m_try (bsWrite (bs_Put key data))) (fun r s => rep m (<[Hash key := data]> b) R s /\ r = Ok tt).
Proof.
  intros Hno s [H1 H2 H3 H4 H5]. unfold m_try, bsWrite. rewrite <- H3 in Hno.
  pose proof (bs_Put_view key data (nbs_bs s) Hno) as Hv. pose proof (bs_Put_ok key data (nbs_bs s)) as Hok.
  destruct (bs_Put key data (nbs_bs s)) as [b' r]. cbn in Hv, Hok. subst r.
  split; [|done]. split; cbn; [done..| |done|done]. by rewrite Hv, H3.
Qed.

Definition reserved (size : Z) (rc : ringCounters) : ringCounters :=
  mkRC (wrap64 (rc.(rc_used) + size)) rc.(rc_count) rc.(rc_quota).

(** The ring has room for [size] more bytes. *)
Definition has_quota (size : Z) (rc : ringCounters) : Prop :=
  0 < rc.(rc_quota) -> wrap64 (rc.(rc_used) + size) <= rc.(rc_quota).

Lemma rep_reserveBytes r size m b R :
  succeeds (rep m b R) (reserveBytes (seg_str r) size)
    (fun ok s => exists R', rep m b R' s /\ is_Some (R' !! seg_str r) /\
       (if (ok : bool) then has_quota size (counters m R r) else ~ has_quota size (counters m R r)) /\
       forall r', counters m R' r' = if decide (r' = r /\ ok = true) then reserved size (counters m R r) else counters m R r').
Proof.
  unfold reserveBytes. eapply succeeds_bind_fact; [apply rep_getRing|]. intros rc ->.
  assert (is_Some (load m R r !! seg_str r)) as Hl by (rewrite load_Some; eauto).
  unfold rc_reserve, has_quota. destruct (Z.ltb_spec 0 (rc_quota (counters m R r))) as [Hq|Hq];
    [destruct (Z.ltb_spec (rc_quota (counters m R r)) (wrap64 (rc_used (counters m R r) + size)))|].
  - apply succeeds_ret. intros s Hs. eexists. split_and!; [done..|lia|]. intros r'.
    rewrite decide_False by naive_solver. by rewrite counters_load.
  - eapply succeeds_bind; [apply rep_modifyRing|]. intros ?. apply succeeds_ret. intros s Hs. eexists.
    split_and!; [done|rewrite lookup_alter_eq; by apply fmap_is_Some|lia|]. intros r'. rewrite counters_alter by done.
    rewrite counters_load by done. destruct (decide (r' = r)); [by rewrite decide_True|by rewrite decide_False by naive_solver].
  - eapply succeeds_bind; [apply rep_modifyRing|]. intros ?. apply succeeds_ret. intros s Hs. eexists.
    split_and!; [done|rewrite lookup_alter_eq; by apply fmap_is_Some|lia|]. intros r'. rewrite counters_alter by done.
    rewrite counters_load by done. destruct (decide (r' = r)); [by rewrite decide_True|by rewrite decide_False by naive_solver].
Qed.

(** What [reserve_for] may answer for a block with a root. *)
Definition reservation (r : seg) (h : bytes) (size : Z) (m : meta) (b : gmap bytes bytes) (R : gmap string ringCounters)
    (out : option (bool * bool)) (s : NBS) : Prop :=
  exists R', rep m b R' s /\
  match out with
  | None => forall r', counters m R' r' = counters m R r'
  | Some (_, ringed) => is_Some (R' !! seg_str r) /\
      if (ringed : bool) then ~ indexed m r h /\ has_quota size (counters m R r) /\
        forall r', counters m R' r' = if decide (r' = r) then reserved size (counters m R r) else counters m R r'
      else indexed m r h /\ forall r', counters m R' r' = counters m R r'
  end.

Lemma rep_reserve_for r key mh size hasBlock m b R :
  seg_str mh = HashHex key ->
  succeeds (rep m b R) (reserve_for (seg_str r) key size hasBlock true) (reservation r (Hash key) size m b R).
Proof.
  intros Hmh. unfold reserve_for.
  apply (succeeds_bind _ _ _ (fun _ => rep m b R)).
  { destruct hasBlock; [by apply succeeds_ret|]. eapply succeeds_bind; [apply rep_reserveAgg|]. intros ok. by apply succeeds_ret. }
  intros [agg|]; [|apply succeeds_ret; intros s Hs; by exists R].
  eapply succeeds_bind_fact; [apply rep_getRing|]. intros rc _. rewrite <- Hmh.
  assert (is_Some (load m R r !! seg_str r)) as Hl by (rewrite load_Some; eauto).
  assert (forall has, (has = true <-> exists c, is_Some (m (KBlockRoot r mh c))) -> has = true <-> indexed m r (Hash key)) as Hidx.
  { intros has Hhas. rewrite Hhas. split; [intros [c Hc]; by exists mh, c|]. intros (mh' & c & Hmh' & Hc).
    assert (mh' = mh) as -> by (apply seg_eq; by rewrite Hmh, Hmh'). eauto. }
  eapply succeeds_bind_fact; [apply rep_has_block|]. intros has Hhas%Hidx. destruct has.
  { apply succeeds_ret. intros s Hs. exists (load m R r). split; [done|]. split; [done|]. split; [by apply Hhas|].
    intros r'. by apply counters_load. }
  eapply succeeds_bind; [apply rep_reserveBytes|]. intros ok s (R' & Hs & HR' & Hq & Hc). destruct ok.
  - exists R'. split; [done|]. split; [done|]. rewrite counters_load in Hq by done. split; [naive_solver|]. split; [done|].
    intros r'. rewrite Hc, !counters_load by done. destruct (decide (r' = r)); [by rewrite decide_True|by rewrite decide_False by naive_solver].
  - assert (succeeds (rep m b R') (_ ← (if agg then addAggDelta (- size) 0 else m_ret tt); m_ret (None : option (bool * bool)))
      (fun out s => rep m b R' s /\ out = None)) as Hroll.
    { apply (succeeds_bind _ _ _ (fun _ => rep m b R')); [|intros ?; by apply succeeds_ret].
      destruct agg; [apply rep_aggDelta|by apply succeeds_ret]. }
    specialize (Hroll s Hs). cbv beta iota. destruct ((_ ← _; m_ret None) s) as [s' [out|e]]; [|done].
    destruct Hroll as [Hs' ->]. exists R'. split; [done|]. intros r'. rewrite Hc, decide_False by naive_solver.
    by apply counters_load.
Qed.

Lemma accounted_intro m b R s : rep m b R s -> accounts m b R -> accounted s.
Proof. intros. by exists m, b, R. Qed.

(** The blocks after a put. *)
Definition put_block (h data : bytes) (b : gmap bytes bytes) : gmap bytes bytes :=
  match b !! h with Some _ => b | None => <[h := data]> b end.

Lemma put_block_lookup h data b : (forall d, b !! h = Some d -> d = data) -> put_block h data b !! h = Some data.
Proof.
  intros Hd. unfold put_block. destruct (b !! h) as [d|] eqn:Hh; [by rewrite Hh, (Hd d)|apply lookup_insert_eq].
Qed.

Lemma accounts_put h data m b R :
  h <> [] -> small (put_block h data b) -> accounts m b R -> accounts m (put_block h data b) R.
Proof.
  intros Hh Hs Ha. unfold put_block in *. destruct (b !! h) eqn:Hb; [done|]. by apply accounts_insert.
Qed.

(** The block is written, unless it is there. *)
Lemma rep_write key data hasBlock e m b R :
  hasBlock = bool_decide (is_Some (b !! Hash key)) ->
  succeeds (rep m b R)
    (if (hasBlock : bool) then m_ret tt
     else match NewBlockWithCid data key with
          | Err err => e err
          | Ok _ => res ← m_try (bsWrite (bs_Put key data));
                    match res with
                    | Err err => e err
                    | Ok _ => m_modify (fun s => set_count (wrap64 (s.(nbs_count) + 1)) s)
                    end
          end)
    (fun _ => rep m (put_block (Hash key) data b) R).
Proof.
  intros ->. unfold put_block. case_bool_decide as Hb.
  - destruct Hb as [d Hd]. rewrite Hd. by apply succeeds_ret.
  - apply eq_None_not_Some in Hb. rewrite Hb, NewBlockWithCid_ok.
    eapply succeeds_bind_fact; [by apply rep_bsPut|]. intros res ->. apply rep_setCount.
Qed.

Lemma Put_accounted key data m b R :
  Hash key <> [] -> small (put_block (Hash key) data b) -> accounts m b R ->
  triple (rep m b R) (Put key data) (fun _ => accounted) accounted.
Proof.
  intros Hk Hs Ha. unfold Put. intros s Hrep.
  destruct (succeeds_final _ _ _ s (rep_bsHas key m b R) Hrep) as (has & s1 & Hrun & Hs1 & Hhas).
  erewrite run_bind by exact Hrun. destruct has.
  { by eapply accounted_intro. }
  cbv zeta. destruct (succeeds_final _ _ _ s1 (rep_reserveAgg (Z.of_nat (length data)) m b R) Hs1) as (ok & s2 & Hrun2 & Hs2).
  erewrite run_bind by exact Hrun2. destruct ok; [|by eapply accounted_intro].
  destruct (succeeds_final _ _ _ s2 (rep_write key data false (fun e => _ ← addAggDelta (- Z.of_nat (length data)) 0; m_err e)
    m b R Hhas) Hs2) as (u & s3 & Hrun3 & Hs3). cbv beta iota in Hrun3 |- *. rewrite Hrun3.
  eapply accounted_intro; [exact Hs3|]. by apply accounts_put.
Qed.

Lemma rep_reserve_unrooted r key size hasBlock m b R :
  succeeds (rep m b R) (reserve_for (seg_str r) key size hasBlock false)
    (fun out s => exists R', rep m b R' s /\ forall r', counters m R' r' = counters m R r').
Proof.
  unfold reserve_for. apply (succeeds_bind _ _ _ (fun _ => rep m b R)).
  { destruct hasBlock; [by apply succeeds_ret|]. eapply succeeds_bind; [apply rep_reserveAgg|]. intros ok. by apply succeeds_ret. }
  intros [agg|]; [|apply succeeds_ret; intros s Hs; by exists R].
  eapply succeeds_bind_fact; [apply rep_getRing|]. intros rc _. apply succeeds_ret. intros s Hs. eexists. split; [exact Hs|].
  intros r'. by apply counters_load.
Qed.

Lemma PutWithRoot_accounted now r key mh data root e m b R :
  seg_str mh = HashHex key -> data <> [] -> (forall d, b !! Hash key = Some d -> d = data) ->
  Hash key <> [] -> small (put_block (Hash key) data b) -> accounts m b R ->
  triple (rep m b R) (PutWithRoot now (seg_str r) key data (seg_str <$> root) e) (fun _ => accounted) accounted.
Proof.
  intros Hmh Hne Hdata Hk Hsm Ha s Hrep. unfold PutWithRoot.
  destruct (succeeds_final _ _ _ s (rep_bsHas key m b R) Hrep) as (has & s1 & Hrun & Hs1 & Hhas).
  erewrite run_bind by exact Hrun. cbv zeta. set (size := Z.of_nat (length data)).
  pose proof (accounts_put (Hash key) data m b R Hk Hsm Ha) as Ha'. set (b' := put_block (Hash key) data b) in *.
  destruct root as [root|]; cbn [fmap option_fmap option_map].
  - rewrite (bool_decide_eq_true_2 (is_Some _)) by eauto.
    destruct (succeeds_final _ _ _ s1 (rep_reserve_for r key mh size has m b R Hmh) Hs1) as (out & s2 & Hrun2 & R2 & Hs2 & Hout).
    erewrite run_bind by exact Hrun2. destruct out as [[agg ringed]|].
    2: { eapply accounted_intro; [exact Hs2|]. by eapply accounts_counters. }
    destruct Hout as [HR2 Hout].
    destruct (succeeds_final _ _ _ s2 (rep_write key data has (fun err => _ ← unreserve (seg_str r) size agg ringed; m_err err)
      m b R2 Hhas) Hs2) as (u & s3 & Hrun3 & Hs3). fold b' in Hs3.
    erewrite run_bind by exact Hrun3.
    pose proof (rep_index_block now r key mh root size e ringed m b' R2 Hmh s3 Hs3) as Hidx.
    destruct (index_block _ _ _ _ _ _ _ s3) as [s4 [u4|err]]; [|done]. destruct Hidx as (m' & Hent & Hs4).
    pose proof (put_block_lookup (Hash key) data b Hdata) as Hb'. fold b' in Hb'.
    eapply accounted_intro; [exact Hs4|]. destruct ringed.
    + destruct Hout as (Hi & _ & Hc). eapply accounts_entered_new; [exact Hmh|done|done|exact Hent|done|..|exact Ha'].
      * rewrite counters_alter, decide_True by done. cbn [count_one rc_used]. by rewrite Hc, decide_True.
      * rewrite counters_alter, decide_True by done. cbn [count_one rc_count]. by rewrite Hc, decide_True.
      * intros r' Hr. rewrite counters_alter, decide_False by done. by rewrite Hc, decide_False.
    + destruct Hout as [Hi Hc]. eapply accounts_entered_old; [exact Hmh|done|done|exact Hent|done|].
      by eapply accounts_counters.
  - rewrite (bool_decide_eq_false_2 (is_Some _)) by (by intros [? ?]).
    destruct (succeeds_final _ _ _ s1 (rep_reserve_unrooted r key size has m b R) Hs1) as (out & s2 & Hrun2 & R2 & Hs2 & Hc).
    erewrite run_bind by exact Hrun2. destruct out as [[agg ringed]|].
    2: { eapply accounted_intro; [exact Hs2|]. by eapply accounts_counters. }
    destruct (succeeds_final _ _ _ s2 (rep_write key data has (fun err => _ ← unreserve (seg_str r) size agg ringed; m_err err)
      m b R2 Hhas) Hs2) as (u & s3 & Hrun3 & Hs3).
    erewrite run_bind by exact Hrun3. eapply accounted_intro; [exact Hs3|]. by eapply accounts_counters.
Qed.

(** ** The other operations *)

Lemma accounts_same m m' b R R' :
  (forall k, is_Some (root_of k) -> m' k = m k) ->
  (forall r, is_Some (m (KPresence r)) -> is_Some (m' (KPresence r))) ->
  (forall r, (counters m' R' r).(rc_used) = (counters m R r).(rc_used) /\
             (counters m' R' r).(rc_count) = (counters m R r).(rc_count)) ->
  accounts m b R -> accounts m' b R'.
Proof.
  intros Hm Hp Hc [[Hs He Hr] Hu Hh]. assert (forall r mh c, m' (KBlockRoot r mh c) = m (KBlockRoot r mh c)) as Hbr.
  { intros r mh c. apply Hm. cbn. eauto. }
  split; [split|..]; [done|..|done].
  - intros r mh c. rewrite Hbr. intros Hc'. destruct (He r mh c Hc') as [Hpr Hb]. auto.
  - intros r. destruct (Hr r) as (B & HB & Ht). exists B. split.
    + intros h d. rewrite (HB h d). unfold indexed. by setoid_rewrite Hbr.
    + unfold tallies in *. by destruct (Hc r) as [-> ->].
  - eapply exact_usage_ext; [|done]. intros k Hk. by rewrite Hm.
Qed.

Lemma Delete_accounted key m b R :
  (forall r, ~ indexed m r (Hash key)) -> accounts m b R ->
  succeeds (rep m b R) (Delete key) (fun _ => accounted).
Proof.
  intros Hno Ha. assert (accounts m (delete (Hash key) b) R) as Ha'.
  { destruct Ha as [Hb Hu Hh]. split; [by apply balanced_delete|by apply exact_usage_delete|].
    intros h [_ ?]%lookup_delete_is_Some. auto. }
  unfold Delete. eapply succeeds_bind_fact; [apply rep_size|]. intros sz _. destruct sz as [size|err].
  - eapply succeeds_bind_fact; [apply rep_deleteBlock|]. intros res ->.
    eapply succeeds_weaken; [apply (rep_aggDelta _ _ m (delete (Hash key) b) R)|done|].
    intros ? s Hs. eapply accounted_intro; [exact Hs|exact Ha'].
  - intros s Hs. pose proof (rep_deleteBlock key m b R s Hs) as Hd. unfold m_try in Hd.
    destruct (bsWrite (bs_DeleteBlock key) s) as [s' [u|e]]; [|by destruct Hd]. destruct Hd as [Hs' _].
    eapply accounted_intro; [exact Hs'|exact Ha'].
Qed.

Definition set_quota (max : Z) (rc : ringCounters) : ringCounters := mkRC rc.(rc_used) rc.(rc_count) max.

Lemma SetQuota_accounted r max m b R :
  accounts m b R -> triple (rep m b R) (SetQuota (seg_str r) max) (fun _ => accounted) accounted.
Proof.
  intros Ha s Hs. unfold SetQuota. destruct (max <? 0); [by eapply accounted_intro|].
  destruct (succeeds_final _ _ _ s (rep_getRing r m b R) Hs) as (rc & s1 & Hrun1 & Hs1 & ->).
  erewrite run_bind by exact Hrun1. assert (accounts m b (load m R r)) as Hal.
  { eapply accounts_counters; [|exact Ha]. intros r'. by apply counters_load. }
  destruct ((0 <? max) && (max <? rc_used (counters m R r))); [by eapply accounted_intro|].
  change (fun rc => mkRC rc.(rc_used) rc.(rc_count) max) with (set_quota max).
  change (ring_base (seg_str r) +:+ "quota") with (render (KRingQuota r)).
  destruct (succeeds_final _ _ _ s1 (rep_modifyRing (seg_str r) (set_quota max) m b _) Hs1) as (u2 & s2 & Hrun2 & Hs2).
  erewrite run_bind by exact Hrun2.
  destruct (succeeds_final _ _ _ s2 (rep_dsPut (KRingQuota r) (encodeInt64LE max) m b _) Hs2) as (u3 & s3 & Hrun3 & Hs3).
  erewrite run_bind by exact Hrun3. pose proof (rep_mark r _ b _ s3 Hs3) as Hm.
  destruct (markRingKnown _ s3) as [s4 [u4|e]]; [|done]. destruct Hm as [v Hs4].
  eapply accounted_intro; [exact Hs4|]. eapply accounts_same; [..|exact Ha].
  - intros k [x Hk]. rewrite !upd_other; [done|..]; by intros ->.
  - intros r' Hr'. unfold upd. case_decide; [eauto|]. case_decide; done.
  - intros r'. rewrite counters_upd by done. rewrite counters_alter by (rewrite load_Some; eauto).
    assert (rc_used (counters (upd (KRingQuota r) (Some (encodeInt64LE max)) m) (load m R r) r') = rc_used (counters m R r') /\
            rc_count (counters (upd (KRingQuota r) (Some (encodeInt64LE max)) m) (load m R r) r') = rc_count (counters m R r')) as Hsame.
    { rewrite <- (counters_load m m R r r') by done. unfold counters. destruct (load m R r !! seg_str r'); [done|].
      cbn [default from_option]. unfold loaded. cbn [rc_used rc_count]. by rewrite !upd_other. }
    case_decide; [subst r'; cbn [set_quota rc_used rc_count]|]; done.
Qed.

Lemma AddRoots_accounted r entries m b R :
  Forall (fun e => seg_ok e.(re_CID) = true) entries -> accounts m b R ->
  succeeds (rep m b R) (AddAllRootEntries (seg_str r) entries) (fun _ => accounted).
Proof.
  intros Hok Ha. unfold AddAllRootEntries.
  eapply succeeds_weaken; [apply (succeeds_forM (fun _ s => exists m', rep m' b R s /\ accounts m' b R))|..].
  - intros l e rest Hsplit s (m1 & Hs & Ha1). assert (seg_ok (re_CID e) = true) as He.
    { rewrite Forall_forall in Hok. apply Hok. rewrite Hsplit. set_solver. }
    pose proof (rep_AddRoot r (mkSeg _ He) (re_ExpiresAt e) m1 b R s Hs) as Hstep. cbn [seg_str] in Hstep.
    destruct (AddRootWithExpiry _ _ _ s) as [s' [u|err]]; [|done]. destruct Hstep as (m2 & Hs2 & Hp & Hm2).
    exists m2. split; [done|]. destruct Ha1 as [Hb1 Hu1 Hh1]. split; [|..|done].
    + destruct Hb1 as [Hsm He1 Hr1]. split; [done|..].
      * intros r' mh c. rewrite Hm2 by done. intros Hc. destruct (He1 r' mh c Hc) as [Hpr Hbl]. split; [|done].
        destruct (decide (r' = r)) as [->|Hne]; [auto|]. rewrite Hm2; [done..|congruence].
      * intros r'. destruct (Hr1 r') as (B & HB & Ht). exists B. split.
        { intros h d. rewrite (HB h d). unfold indexed. by setoid_rewrite Hm2. }
        { revert Ht. unfold counters, loaded. by rewrite !Hm2. }
    + intros r' c. destruct (Hu1 r' c) as (U & HU & Ht). exists U. split.
      * intros h d. rewrite (HU h d). by setoid_rewrite Hm2.
      * unfold usage_of in *. by rewrite Hm2.
  - intros s Hs. by exists m.
  - intros ? s (m' & Hs & Ha'). by eapply accounted_intro.
Qed.

Lemma rep_Forget r m b R :
  succeeds (rep m b R) (ForgetRing (seg_str r))
    (fun _ => rep (strip (fun k => bool_decide (key_ring k = Some r \/ k = KPresence r)) m) b R).
Proof.
  unfold ForgetRing. eapply succeeds_bind_fact; [apply rep_query, query_ring|]. intros l Hl.
  set (P := fun k => bool_decide (key_ring k = Some r)).
  eapply succeeds_bind with (Q1 := fun _ => rep (strip P m) b R).
  { eapply succeeds_weaken; [apply (succeeds_forM (fun l => rep (upto P m l) b R))|..].
    - intros l1 [key v] l2 Hsplit. destruct (upto_next P _ m l l1 key v l2 Hl Hsplit) as (k & -> & Hk & Hv). cbn [fst].
      eapply succeeds_weaken; [apply rep_delete|done|]; [by intros r' ->|]. intros ? s. apply rep_ext. intros k'.
      rewrite upto_snoc. unfold P at 2. by rewrite bool_decide_eq_true_2.
    - intros s. apply rep_ext. intros k. by rewrite upto_nil.
    - intros ? s. apply rep_ext. intros k. eapply upto_all; [done|]. intros k' Hk'. by apply bool_decide_eq_true in Hk'. }
  intros ? s [H1 H2 H3 H4 H5]. change (nbPrefixRings +:+ seg_str r) with (render (KPresence r)).
  unfold mbind, M_bind, m_bind, dsDelete_, m_ignore, m_modify, dsWrite. rewrite newKey_clean.
  pose proof (ds_Delete_view (render (KPresence r)) (nbs_ds s)) as Hv.
  destruct (ds_Delete (render (KPresence r)) (nbs_ds s)) as [d u]. cbn in Hv. split; cbn; [..|done|done|].
  - intros k. rewrite Hv. unfold strip at 1. destruct (decide (k = KPresence r)) as [->|Hk].
    + rewrite (bool_decide_eq_true_2 (_ \/ _)) by auto. apply lookup_delete_eq.
    + rewrite lookup_delete_ne; [|intros E; apply Hk; symmetry; by apply (inj render)]. rewrite H1. unfold strip, P.
      rewrite (bool_decide_ext (key_ring k = Some r \/ k = KPresence r) (key_ring k = Some r)) by naive_solver. done.
  - intros key. rewrite Hv. intros [_ Hs]%lookup_delete_is_Some. eauto.
  - intros r' [Hin Hne]%elem_of_difference. unfold strip. rewrite bool_decide_eq_false_2.
    + specialize (H5 r' Hin). unfold strip, P in H5. by rewrite bool_decide_eq_false_2 in H5.
    + intros [?|[= ->]]; [done|]. set_solver.
Qed.

(** A ring without blocks can be forgotten. *)
Lemma accounts_forget r m b R :
  (forall h, ~ indexed m r h) -> accounts m b R ->
  accounts (strip (fun k => bool_decide (key_ring k = Some r \/ k = KPresence r)) m) b R.
Proof.
  intros Hno [[Hs He Hr] Hu Hh]. set (m' := strip _ m).
  assert (forall r' mh c, r' <> r -> m' (KBlockRoot r' mh c) = m (KBlockRoot r' mh c)) as Hother.
  { intros r' mh c Hne. unfold m', strip. rewrite bool_decide_eq_false_2; [done|]. cbn. naive_solver. }
  assert (forall mh c, m' (KBlockRoot r mh c) = None) as Hgone.
  { intros mh c. unfold m', strip. by rewrite bool_decide_eq_true_2 by (cbn; auto). }
  assert (forall mh c, m (KBlockRoot r mh c) = None) as Hold.
  { intros mh c. apply eq_None_not_Some. intros Hc. destruct (He r mh c Hc) as (_ & h & d & Hmh & _).
    apply (Hno h). by exists mh, c. }
  assert (forall r' mh c, m' (KBlockRoot r' mh c) = m (KBlockRoot r' mh c)) as Hbr.
  { intros r' mh c. destruct (decide (r' = r)) as [->|Hne]; [by rewrite Hgone, Hold|by apply Hother]. }
  split; [split|..]; [done|..|done].
  - intros r' mh c. rewrite Hbr. intros Hc. destruct (He r' mh c Hc) as [Hp Hb]. split; [|done].
    assert (r' <> r) as Hne by (intros ->; rewrite Hold in Hc; by destruct Hc).
    unfold m', strip. rewrite bool_decide_eq_false_2; [done|]. cbn. naive_solver.
  - intros r'. destruct (Hr r') as (B & HB & Ht). exists B. split.
    + intros h d. rewrite (HB h d). unfold indexed. by setoid_rewrite Hbr.
    + unfold counters in *. destruct (R !! seg_str r'); [done|]. cbn [default from_option] in *.
      destruct (decide (r' = r)) as [->|Hne].
      * assert (B = ∅) as ->.
        { apply map_empty. intros h. apply eq_None_not_Some. intros [d [_ Hi]%HB]. by apply (Hno h). }
        unfold loaded, m', strip. by rewrite !(bool_decide_eq_true_2 (_ \/ _)) by (cbn; auto).
      * replace (loaded m' r') with (loaded m r'); [done|]. unfold loaded, m', strip.
        by rewrite !(bool_decide_eq_false_2 (_ \/ _)) by (cbn; naive_solver).
  - intros r' c. destruct (Hu r' c) as (U & HU & Ht). exists U. split.
    + intros h d. rewrite (HU h d). by setoid_rewrite Hbr.
    + unfold usage_of in *. destruct (decide (r' = r)) as [->|Hne].
      * assert (U = ∅) as ->.
        { apply map_empty. intros h. apply eq_None_not_Some. intros [d (_ & mh & _ & Hc)%HU]. rewrite Hold in Hc. by destruct Hc. }
        unfold m', strip. by rewrite bool_decide_eq_true_2 by (cbn; auto).
      * unfold m', strip. rewrite bool_decide_eq_false_2; [done|]. cbn. naive_solver.
Qed.

(** ** Runs *)

(** The metadata of a store. *)
Definition meta_of (s : NBS) : meta := fun k => ds_view s.(nbs_ds) !! render k.

(** The conditions under which the callers run the operations: names of rings and roots are
    path segments, data put under an identifier is the data of that identifier and not
    empty when it is indexed, only stored blocks are indexed by [AddBlockRootIndex], blocks are
    deleted and rings forgotten when no ring, or not the ring, has them. *)
Definition proper (o : op) (s : NBS) : Prop :=
  match o with
  | OpPut key data => Hash key <> [] /\ small (put_block (Hash key) data (blocks s))
  | OpDelete key => forall r, ~ indexed (meta_of s) r (Hash key)
  | OpPutWithRoot _ ring key data root _ =>
      seg_ok ring = true /\ Hash key <> [] /\ data <> [] /\ (forall c, root = Some c -> seg_ok c = true) /\
      (forall d, blocks s !! Hash key = Some d -> d = data) /\ small (put_block (Hash key) data (blocks s))
  | OpAddRoots ring entries => seg_ok ring = true /\ Forall (fun e => seg_ok e.(re_CID) = true) entries
  | OpRemoveRoot ring c => seg_ok ring = true /\ seg_ok c = true
  | OpAddBlockRootIndex ring key root =>
      seg_ok ring = true /\ Hash key <> [] /\ seg_ok root = true /\ exists d, blocks s !! Hash key = Some d /\ d <> []
  | OpDropBlock ring key => seg_ok ring = true /\ Hash key <> []
  | OpPrune _ ring | OpSetQuota ring _ | OpUsedBytes ring => seg_ok ring = true
  | OpMarkRing ring => ring = "" \/ seg_ok ring = true
  | OpForgetRing ring => seg_ok ring = true /\ forall r h, seg_str r = ring -> ~ indexed (meta_of s) r h
  | OpGC _ => True
  end.

(** States reachable by proper operations, whether they succeed or fail. *)
Inductive proper_run : NBS -> NBS -> Prop :=
  | proper_refl s : proper_run s s
  | proper_step s s' o : proper_run s s' -> proper o s' -> proper_run s (run_op o s').1.

Lemma indexed_meta m b R s r h : rep m b R s -> indexed (meta_of s) r h <-> indexed m r h.
Proof. intros Hs. unfold indexed, meta_of. by setoid_rewrite (rep_meta _ _ _ _ Hs). Qed.

Lemma with_key (P : Prop) (h : bytes) : h <> [] -> (forall mh, seg_str mh = hex_encode h -> P) -> P.
Proof. intros Hh HP. by apply (HP (mkSeg _ (hex_seg_ok h Hh))). Qed.

Lemma accounts_usage m m' b R R' s :
  rep m' b R' s -> (balanced m b R -> balanced m' b R') -> exact_usage m' b -> accounts m b R -> accounted s.
Proof. intros Hs Hb Hu [H1 _ H3]. eapply accounted_intro; [exact Hs|]. split; auto. Qed.

Section Each.
Context (m : meta) (b : gmap bytes bytes) (R : gmap string ringCounters) (Ha : accounts m b R).

Lemma RemoveRoot_accounted r c : succeeds (rep m b R) (RemoveRootStr (seg_str r) (seg_str c)) (fun _ => accounted).
Proof.
  eapply succeeds_weaken; [apply rep_RemoveRoot|done|]. intros ? s (R' & Hs & Hb).
  eapply accounts_usage; [exact Hs|done| |done].
  apply (exact_usage_strip _ (fun o => bool_decide (o = Some (r, c)))); [done|apply Ha].
Qed.

Lemma Prune_accounted now r : succeeds (rep m b R) (PruneExpiredRoots now (seg_str r)) (fun _ => accounted).
Proof.
  eapply succeeds_weaken; [apply rep_Prune|done|]. intros ? s (R' & Hs & Hb).
  eapply accounts_usage; [exact Hs|done| |done].
  apply (exact_usage_strip _ (fun o => match o with
    | Some (r', c) => bool_decide (r' = r) && expired_at now (m (KRoot r' c)) | None => false end)); [done|apply Ha].
Qed.

Lemma Drop_accounted r key mh :
  seg_str mh = HashHex key -> succeeds (rep m b R) (DropBlock (seg_str r) key) (fun _ => accounted).
Proof.
  intros Hmh. eapply succeeds_weaken; [by apply rep_DropBlock|done|]. intros ? s (R' & Hs & _ & Hb).
  eapply accounts_usage; [exact Hs|done| |done]. destruct Ha as [Hbal Hus _].
  destruct (b !! Hash key) as [d|] eqn:Hd; cbn [fmap option_fmap option_map default from_option].
  - eapply exact_usage_drop; [exact Hmh|exact Hd|apply Hbal|done].
  - eapply exact_usage_ext; [|exact Hus]. intros k _. rewrite drop_block_absent; [done|]. intros c.
    apply eq_None_not_Some. intros Hc. destruct (bal_entry _ _ _ Hbal _ mh c Hc) as (_ & h & d & Hh & Hd' & _).
    rewrite Hmh in Hh. apply hex_encode_inj in Hh. congruence.
Qed.

Lemma Mark_accounted r : succeeds (rep m b R) (markRingKnown (seg_str r)) (fun _ => accounted).
Proof.
  eapply succeeds_weaken; [apply rep_mark|done|]. intros ? s [v Hs]. eapply accounted_intro; [exact Hs|].
  eapply accounts_same; [..|exact Ha].
  - intros k Hk. apply upd_other. intros ->. by destruct Hk.
  - intros r' Hr'. unfold upd. case_decide; eauto.
  - intros r'. by rewrite counters_upd.
Qed.

Lemma Used_accounted r : succeeds (rep m b R) (UsedBytes (seg_str r)) (fun _ => accounted).
Proof.
  unfold UsedBytes. eapply succeeds_bind; [apply rep_getRing|]. intros rc. apply succeeds_ret. intros s [Hs _].
  eapply accounted_intro; [exact Hs|]. eapply accounts_counters; [|exact Ha]. intros r'. by apply counters_load.
Qed.

Lemma GC_accounted now : succeeds (rep m b R) (GC now) (fun _ => accounted).
Proof.
  destruct Ha as [Hbal Hus Hhs]. eapply succeeds_weaken; [by apply rep_GC|done|].
  intros ? s (m' & b' & R' & Hs & Hsub & _ & _ & _ & _ & _ & Hb).
  destruct (Hb Hbal Hus) as [Hbal' Hus']. eapply accounted_intro; [exact Hs|]. split; [done..|].
  intros h [d Hd]. apply Hhs. exists d. by eapply lookup_weaken.
Qed.

End Each.

(** The state an operation ends in. *)
Lemma triple_end {A} (P Q : NBS -> Prop) (x : M NBS A) s : triple P x (fun _ => Q) Q -> P s -> Q (x s).1.
Proof. intros Hx Hs. specialize (Hx s Hs). by destruct (x s) as [s' [a|e]]. Qed.

Lemma succeeds_end {A} (P Q : NBS -> Prop) (x : M NBS A) s : succeeds P x (fun _ => Q) -> P s -> Q (x s).1.
Proof. intros Hx Hs. specialize (Hx s Hs). by destruct (x s) as [s' [a|e]]. Qed.

Lemma unit_end {A} (x : M NBS A) s : ((_ ← x; m_ret tt) s).1 = (x s).1.
Proof. unfold mbind, M_bind, m_bind. by destruct (x s) as [s' [a|e]]. Qed.

Lemma op_accounted o s : accounted s -> proper o s -> accounted (run_op o s).1.
Proof.
  intros (m & b & R & Hs & Ha) Hp. assert (blocks s = b) as Hb by apply Hs.
  assert (forall r h, indexed (meta_of s) r h <-> indexed m r h) as Hidx by (intros r h; by eapply indexed_meta).
  destruct o; cbn [run_op proper] in *; rewrite ?Hb, ?unit_end in *.
  - destruct Hp. eapply triple_end; [by apply Put_accounted|done].
  - eapply succeeds_end; [apply Delete_accounted; [|done]|done]. intros r. rewrite <- Hidx. apply Hp.
  - destruct Hp as (Hr & Hk & Hne & Hroot & Hd & Hsm). apply (with_key _ _ Hk). intros mh Hmh.
    assert (exists c : option seg, root = seg_str <$> c) as [c ->].
    { destruct root as [c|]; [|by exists None]. by exists (Some (mkSeg c (Hroot c eq_refl))). }
    eapply triple_end; [by apply (PutWithRoot_accounted now (mkSeg ring Hr) key mh)|done].
  - destruct Hp as [Hr He]. eapply succeeds_end; [by apply (AddRoots_accounted (mkSeg ring Hr))|done].
  - destruct Hp as [Hr Hc]. eapply succeeds_end; [by apply (RemoveRoot_accounted m b R Ha (mkSeg ring Hr) (mkSeg c Hc))|done].
  - eapply succeeds_end; [by apply (Prune_accounted m b R Ha now (mkSeg ring Hp))|done].
  - destruct Hp as (Hr & Hk & Hc & d & Hd & Hne). apply (with_key _ _ Hk). intros mh Hmh.
    destruct (succeeds_final _ _ _ s (rep_AddBlockRootIndex (mkSeg ring Hr) key mh (mkSeg root Hc) d m b R Hmh Hd Hne) Hs)
      as (? & s' & Hrun & m' & R' & Hs' & Ha'). cbn [seg_str] in Hrun. rewrite Hrun. eapply accounted_intro; [exact Hs'|auto].
  - destruct Hp as [Hr Hk]. apply (with_key _ _ Hk). intros mh Hmh.
    eapply succeeds_end; [by apply (Drop_accounted m b R Ha (mkSeg ring Hr) key mh)|done].
  - eapply triple_end; [by apply (SetQuota_accounted (mkSeg ring Hp))|done].
  - unfold MarkRingKnown. case_decide; [by eapply accounted_intro|]. destruct Hp as [?|Hr]; [done|].
    eapply succeeds_end; [by apply (Mark_accounted m b R Ha (mkSeg ring Hr))|done].
  - destruct Hp as [Hr Hno]. eapply succeeds_end; [|exact Hs].
    eapply succeeds_weaken; [exact (rep_Forget (mkSeg ring Hr) m b R)|done|]. intros ? s' Hs'.
    eapply accounted_intro; [exact Hs'|]. apply accounts_forget; [|done]. intros h. rewrite <- Hidx. by apply Hno.
  - eapply succeeds_end; [by apply (Used_accounted m b R Ha (mkSeg ring Hp))|done].
  - eapply succeeds_end; [by apply GC_accounted|done].
Qed.

Lemma run_accounted s s' : proper_run s s' -> accounted s -> accounted s'.
Proof. intros Hrun Hs. induction Hrun as [|s s' o Hrun IH Hp]; [done|]. apply op_accounted; auto. Qed.

(** C16: The accounts of rings and roots are exact. From a store whose accounts are right, after any
    run of operations (puts with and without roots, index entries, drops, removals and expiry of
    roots, quotas, collections, whether they succeed or fail) the bytes used and the number of
    blocks a ring reports are the sum and the number of the stored blocks indexed in it, and
    the usage of a root is the sum of the sizes of the blocks indexed under it. *)
Theorem ring_accounting s s' (r : seg) :
  accounted s -> proper_run s s' ->
  exists B, (forall h d, B !! h = Some d <-> blocks s' !! h = Some d /\ indexed (meta_of s') r h) /\
    (UsedBytes (seg_str r) s').2 = Ok (total B) /\ (BlockCount (seg_str r) s').2 = Ok (Z.of_nat (size B)) /\
    forall c, exists U, (forall h d, U !! h = Some d <-> blocks s' !! h = Some d /\
        exists mh, seg_str mh = hex_encode h /\ is_Some (meta_of s' (KBlockRoot r mh c))) /\
      usage_of (meta_of s') r c = total U.
Proof.
  intros Hs Hrun. destruct (run_accounted s s' Hrun Hs) as (m & b & R & Hs' & [Hbal Hus Hhs]).
  destruct (bal_ring _ _ _ Hbal r) as (B & HB & Hu & Hc). exists B.
  assert (blocks s' = b) as -> by apply Hs'. assert (forall k, meta_of s' k = m k) as Hm by apply Hs'.
  destruct (succeeds_final _ _ _ s' (rep_getRing r m b R) Hs') as (rc & s1 & Hrun1 & _ & ->).
  split_and!.
  - intros h d. rewrite (HB h d). unfold indexed. by setoid_rewrite Hm.
  - unfold UsedBytes. erewrite run_bind by exact Hrun1. cbn. by rewrite Hu.
  - unfold BlockCount. erewrite run_bind by exact Hrun1. cbn. by rewrite Hc.
  - intros c. destruct (Hus r c) as (U & HU & Ht). exists U. split.
    + intros h d. rewrite (HU h d). by setoid_rewrite Hm.
    + unfold usage_of in *. by rewrite Hm.
Qed.

(** A put that would take a ring over its quota is refused without a trace: it fails with the
    storage-full error, and the blocks, the metadata, the counters of all rings and the totals
    of the store are what they were. *)
Theorem over_quota_put_refused now r key mh data root e s m b R :
  rep m b R s -> balanced m b R -> totals s -> fits data s -> seg_str mh = HashHex key -> ~ indexed m r (Hash key) ->
  0 < (counters m R r).(rc_quota) < (counters m R r).(rc_used) + Z.of_nat (length data) ->
  exists s' R', PutWithRoot now (seg_str r) key data (Some root) e s = (s', Err errStorageFull) /\
    rep m b R' s' /\ (forall r', counters m R' r' = counters m R r') /\
    s'.(nbs_used) = s.(nbs_used) /\ s'.(nbs_count) = s.(nbs_count).
Proof.
  intros Hs Hb Htot Hfits Hmh Hi Hq. pose proof (PutWithRoot_totals now (seg_str r) key data (Some root) e s (conj Htot Hfits)) as Htot'.
  assert (exists s' R', PutWithRoot now (seg_str r) key data (Some root) e s = (s', Err errStorageFull) /\
    rep m b R' s' /\ (forall r', counters m R' r' = counters m R r')) as (s' & R' & Hrun & Hs' & Hc).
  { destruct (succeeds_final _ _ _ s (rep_bsHas key m b R) Hs) as (has & s1 & Hrun & Hs1 & Hhas).
    unfold PutWithRoot. erewrite run_bind by exact Hrun. cbv zeta. rewrite (bool_decide_eq_true_2 (is_Some _)) by eauto.
    destruct (succeeds_final _ _ _ s1 (rep_reserve_for r key mh (Z.of_nat (length data)) has m b R Hmh) Hs1)
      as (out & s2 & Hrun2 & R2 & Hs2 & Hout).
    erewrite run_bind by exact Hrun2. destruct out as [[agg ringed]|]; [|by exists s2, R2].
    exfalso. destruct Hout as [_ Hout]. destruct ringed; [|by destruct Hout].
    destruct Hout as (_ & Hquota & _). specialize (Hquota ltac:(lia)).
    destruct (bal_ring _ _ _ Hb r) as (B & HB & Hu & _). pose proof (total_nonneg B).
    pose proof (total_subseteq B b (ring_blocks_sub _ _ _ _ HB)). destruct Hfits as [Hf _].
    unfold blocks in Hf. rewrite (rep_blocks _ _ _ _ Hs) in Hf.
    rewrite wrap64_small in Hquota by (unfold in_int64; lia). lia. }
  rewrite Hrun in Htot'. destruct Htot as [Hu Hn _ _], Htot' as [Hu' Hn' _ _]. unfold blocks in *.
  rewrite (rep_blocks _ _ _ _ Hs) in Hu, Hn. rewrite (rep_blocks _ _ _ _ Hs') in Hu', Hn'.
  exists s', R'. split_and!; [done..|lia|lia].
Qed.

(** Forgetting a ring does not forget its counters. After [ForgetRing] nothing is indexed in
    the ring any more, but if its counters were loaded it still reports the bytes and blocks it had,
    and a later put into it is checked against them. *)
Theorem forgotten_ring_keeps_counters r s m b R rc :
  rep m b R s -> R !! seg_str r = Some rc ->
  exists s', ForgetRing (seg_str r) s = (s', Ok tt) /\ (forall h, ~ indexed (meta_of s') r h) /\
    (UsedBytes (seg_str r) s').2 = Ok rc.(rc_used) /\ (BlockCount (seg_str r) s').2 = Ok rc.(rc_count) /\
    (Quota (seg_str r) s').2 = Ok rc.(rc_quota).
Proof.
  intros Hs HR. destruct (succeeds_final _ _ _ s (rep_Forget r m b R) Hs) as ([] & s' & Hrun & Hs'). exists s'.
  split; [done|]. split.
  { intros h. rewrite (indexed_meta _ _ _ _ r h Hs'). intros (mh & c & _ & Hc). unfold strip in Hc.
    rewrite bool_decide_eq_true_2 in Hc by (cbn; auto). by destruct Hc. }
  destruct (succeeds_final _ _ _ s' (rep_getRing r _ b R) Hs') as (rc' & s1 & Hrun1 & _ & ->).
  unfold UsedBytes, BlockCount, Quota. rewrite !(run_bind _ _ _ _ _ Hrun1). cbn. unfold counters. rewrite HR. done.
Qed.

End Accounts.

(** ** Examples *)

Module AccountsExample.
Import MemStore GCExample.

(** A store without blocks and with no metadata but counters and quotas. *)
Lemma no_blocks_balanced (M : gmap nbkey bytes) R :
  (forall r mh c, M !! KBlockRoot r mh c = None) ->
  (forall r, tallies ∅ (counters (fun k => M !! k) R r)) -> balanced (fun k => M !! k) ∅ R.
Proof.
  intros Hno Ht. split.
  - split; [by rewrite total_empty|by rewrite map_size_empty].
  - intros r mh c Hc. rewrite Hno in Hc. by destruct Hc.
  - intros r. exists ∅. split; [|done]. intros h d. rewrite lookup_empty. by split; [|intros [? _]].
Qed.

Definition fresh : @NBS deps := store_of ∅ ∅ ∅.

Lemma fresh_accounted : accounted (HL := laws) fresh.
Proof.
  exists (fun k => (∅ : gmap nbkey bytes) !! k), ∅, ∅. split; [apply store_of_rep|]. split.
  - apply no_blocks_balanced; [done|]. intros r. by split; rewrite ?total_empty, ?map_size_empty.
  - intros r c. exists ∅. split; [|by rewrite total_empty]. intros h d. rewrite lookup_empty. by split; [|intros [? _]].
  - intros h Hh. rewrite lookup_empty in Hh. by destruct Hh.
Qed.

Definition block7 : @cid deps := (true, [x07]).
Definition rooted_put : @op deps := OpPutWithRoot 10 "public" block7 [x01; x02; x03] (Some "c1") 0.
Definition other_drop : @op deps := OpDropBlock "g" block7.

Lemma small_run : proper_run (HL := laws) fresh (run_op other_drop (run_op rooted_put fresh).1).1.
Proof.
  apply (proper_step _ _ other_drop); [|done]. apply (proper_step _ _ rooted_put); [apply proper_refl|].
  split_and!; [done|done|done|by intros c [= <-]|done|]. split; vm_compute; reflexivity.
Qed.

Lemma ring_accounting_witness :
  let s' := (run_op other_drop (run_op rooted_put fresh).1).1 in
  exists B : gmap bytes bytes, (UsedBytes "public" s').2 = Ok (total B) /\ total B = 3.
Proof.
  destruct (ring_accounting (HL := laws) fresh _ public fresh_accounted small_run) as (B & _ & Hu & _).
  exists B. split; [exact Hu|]. assert (Ok 3 = Ok (total B)) as [= E]; [|done]. rewrite <- Hu. vm_compute. reflexivity.
Defined.

Definition one_byte_quota : gmap nbkey bytes := {[KRingQuota public := encodeInt64LE 1]}.

Lemma quota_lookup r mh c : one_byte_quota !! KBlockRoot r mh c = None.
Proof. by apply lookup_singleton_ne. Qed.

Lemma quota_counters r : tallies ∅ (counters (fun k => one_byte_quota !! k) ∅ r).
Proof. unfold counters, loaded, tallies. cbn. unfold one_byte_quota. rewrite !lookup_singleton_ne by done. done. Qed.

Lemma over_quota_put_refused_witness :
  exists s', PutWithRoot 10 "public" block7 [x01; x02] (Some "c1") 0 (store_of one_byte_quota ∅ ∅) = (s', Err errStorageFull).
Proof.
  destruct (over_quota_put_refused (HL := laws) 10 public block7 (mkSeg "07" eq_refl) [x01; x02] "c1" 0
    (store_of one_byte_quota ∅ ∅) (fun k => one_byte_quota !! k) ∅ ∅) as (s' & R' & Hrun & _).
  - apply store_of_rep.
  - apply no_blocks_balanced; [apply quota_lookup|apply quota_counters].
  - split; try done; cbn; rewrite total_empty; lia.
  - split; cbn; vm_compute; reflexivity.
  - done.
  - intros (mh & c & _ & Hc). rewrite quota_lookup in Hc. by destruct Hc.
  - vm_compute. done.
  - by exists s'.
Defined.

Lemma forgotten_ring_keeps_counters_witness :
  exists s', ForgetRing "public" (store_of (list_to_map two_rings) disk2 {["public" := mkRC 5 1 0]}) = (s', Ok tt) /\
    (UsedBytes "public" s').2 = Ok 5.
Proof.
  destruct (forgotten_ring_keeps_counters (HL := laws) public (store_of (list_to_map two_rings) disk2 {["public" := mkRC 5 1 0]})
    (fun k => (list_to_map two_rings : gmap nbkey bytes) !! k) disk2 {["public" := mkRC 5 1 0]} (mkRC 5 1 0))
    as (s' & Hrun & _ & Hu & _).
  - apply store_of_rep.
  - done.
  - exists s'. split; [exact Hrun|exact Hu].
Defined.

(** A block deleted while a ring still indexes it, here under a root that has expired but was
    not pruned yet, as the hand-over of blocks in another ring does: the ring never gives
    its bytes back. *)
Definition stale_ops : list (@op deps) :=
  [OpPutWithRoot 10 "g" block7 [x01; x02; x03] (Some "c1") 50; OpDelete block7; OpPrune 100 "g"].
Definition stale_store : @NBS deps := foldl (fun s o => (run_op o s).1) fresh stale_ops.

Lemma deleted_block_stays_counted :
  (BlockHasLiveRootAnyRing 100 block7 (run_op (OpPutWithRoot 10 "g" block7 [x01; x02; x03] (Some "c1") 50) fresh).1).2 = Ok false /\
  (Blocks "g" stale_store).2 = Ok [] /\ (UsedBytes "g" stale_store).2 = Ok 3 /\ (BlockCount "g" stale_store).2 = Ok 1.
Proof. split_and!; vm_compute; reflexivity. Qed.

End AccountsExample.
