(* ===== verification/StoreRestart.v ===== *)
(** * Restarting the network block store

    [Close] writes the counters of the store and of its rings to the metadata datastore and
    [OpenNetworkBlockStore] reads them back (src/store/network_block_store.go, [Close],
    [loadCounters], [getRingCounters]). A clean restart changes nothing, a store without
    stored counters recounts its blocks, and a restart without [Close] goes on with the
    counters of the time the store was opened. *)

From stdpp Require Import base gmap list strings.
From Stdlib Require Import ZArith Lia Strings.Byte.
From S2P Require Import Prelude Hoare Hex StoreKeys StoreDeps NetworkStore StoreCounters.

Set Default Goal Selector "!".
Local Open Scope Z_scope.

Section Restart.
Context `{HD : StoreDeps} `{HL : !StoreLaws}.

Local Definition view (s : NBS) : gmap string bytes := ds_view s.(nbs_ds).

(** ** Stored counters *)

Lemma dsPut_view k v s :
  exists d, dsPut_ (render k) v s = (set_ds d s, Ok tt) /\ ds_view d = <[render k := v]> (view s).
Proof.
  unfold dsPut_, m_ignore, dsWrite. rewrite newKey_clean.
  pose proof (ds_Put_view (render k) v (nbs_ds s)) as Hv.
  destruct (ds_Put (render k) v (nbs_ds s)) as [d r]. by exists d.
Qed.

Lemma read_counter_stored k n s :
  in_int64 n -> view s !! render k = Some (encodeInt64LE n) -> read_counter (render k) s = (s, Ok (Some n)).
Proof.
  intros Hn Hk. unfold read_counter, mbind, M_bind, m_bind, m_try, dsRead. rewrite newKey_clean.
  apply ds_Get_view in Hk. rewrite Hk. cbn [Nat.eqb].
  by rewrite length_encodeInt64LE, decode_encodeInt64LE by done.
Qed.

Lemma read_counter_none k s : view s !! render k = None -> read_counter (render k) s = (s, Ok None).
Proof.
  intros Hk. unfold read_counter, mbind, M_bind, m_bind, m_try, dsRead. rewrite newKey_clean.
  destruct (ds_Get (render k) (nbs_ds s)) as [v|e] eqn:Hg; [|done].
  apply ds_Get_view in Hg. unfold view in Hk. congruence.
Qed.

Lemma read_counter_run k s : exists o, read_counter k s = (s, Ok o).
Proof. by eexists. Qed.

Definition stored (used count : Z) (s : NBS) : Prop :=
  view s !! render KUsedBytes = Some (encodeInt64LE used) /\
  view s !! render KBlockCount = Some (encodeInt64LE count).

Lemma writeAggCounters_stored used count s :
  0 <= used -> 0 <= count ->
  exists d, writeAggCounters used count s = (set_ds d s, Ok tt) /\ stored used count (set_ds d s).
Proof.
  intros Hu Hc. unfold writeAggCounters, mbind, M_bind, m_bind, m_try, dsRead. rewrite ds_Batch_ok.
  destruct (Z.ltb_spec used 0); [lia|]. destruct (Z.ltb_spec count 0); [lia|].
  change nbKeyUsedBytes with (render KUsedBytes). change nbKeyBlockCount with (render KBlockCount).
  rewrite !newKey_clean. unfold m_ignore, dsWrite.
  set (l := [_; _]). pose proof (ds_Commit_view l (nbs_ds s)) as Hv.
  destruct (ds_Commit l (nbs_ds s)) as [d r]. exists d. split; [done|]. unfold stored, view. cbn in *. rewrite Hv.
  split; [rewrite lookup_partial_alter_ne by done|]; by rewrite lookup_partial_alter_eq.
Qed.

(** ** Opening *)

Definition opened (d : dstore) (b : bstore) (max used count : Z) (s : NBS) : Prop :=
  exists known, s = mkNBS d b max used count ∅ known.

(** With stored counters, they are the counters of the store. *)
Lemma Open_stored d b max used count :
  in_int64 used -> in_int64 count -> stored used count (mkNBS d b max 0 0 ∅ ∅) ->
  exists s, OpenNetworkBlockStore d b max = Ok s /\ opened d b max used count s.
Proof.
  intros Hu Hc [H1 H2]. unfold OpenNetworkBlockStore, loadCounters.
  unfold mbind, M_bind, m_bind. change nbKeyUsedBytes with (render KUsedBytes).
  change nbKeyBlockCount with (render KBlockCount).
  rewrite (read_counter_stored KUsedBytes used) by done.
  rewrite (read_counter_stored KBlockCount count) by done.
  unfold m_modify, RingsKnown, query_, mbind, M_bind, m_bind, m_try, dsRead, m_ret. cbn.
  eexists. split; [done|]. by eexists.
Qed.

Lemma sum_sizes_spec keys b0 s bytes count :
  NoDup (Hash <$> keys) -> Hash <$> keys ≡ₚ (map_to_list b0).*1 ->
  (forall h, h ∈ Hash <$> keys -> blocks s !! h = b0 !! h) ->
  0 <= bytes -> 0 <= count -> bytes + total b0 < 2 ^ 63 -> count + Z.of_nat (size b0) < 2 ^ 63 ->
  sum_sizes keys bytes count s = (s, Ok (bytes + total b0, count + Z.of_nat (size b0))).
Proof.
  revert b0 bytes count.
  induction keys as [|c keys IH]; intros b0 bytes count Hnd Hperm Hsame Hb Hc Hbb Hcc; cbn [sum_sizes].
  { apply Permutation_nil_l in Hperm. symmetry in Hperm. apply fmap_nil_inv, map_to_list_empty_iff in Hperm as ->.
    rewrite total_empty, map_size_empty. by rewrite !Z.add_0_r. }
  rewrite fmap_cons in Hnd, Hperm, Hsame. apply NoDup_cons in Hnd as [Hnot Hnd].
  assert (exists d, b0 !! Hash c = Some d) as [d Hd] by (apply (perm_lookup b0 (Hash c) _ Hperm), list_elem_of_here).
  pose proof (total_delete b0 (Hash c) d Hd) as Htot. pose proof (total_nonneg (delete (Hash c) b0)).
  assert (size b0 = S (size (delete (Hash c) b0))) as Hsize.
  { rewrite <- (insert_delete_id b0 (Hash c) d Hd) at 1. by rewrite map_size_insert_None by apply lookup_delete_eq. }
  pose proof (Hsame (Hash c) (list_elem_of_here _ _)) as Hblk. rewrite Hd in Hblk.
  unfold mbind, M_bind, m_bind, blockSize, m_try, bsRead. rewrite bs_GetSize_view.
  change (bs_view (nbs_bs s)) with (blocks s). rewrite Hblk. rewrite !wrap64_id by lia.
  rewrite (IH (delete (Hash c) b0)); [do 3 f_equal; lia|done| | |lia..].
  - by apply perm_delete with d.
  - intros h Hh. rewrite lookup_delete_ne by (intros <-; done). apply Hsame. by apply list_elem_of_further.
Qed.

(** Without them, the blocks are counted and the counters stored. *)
Lemma Open_recounts d b max :
  ds_view d !! render KUsedBytes = None -> total (bs_view b) < 2 ^ 63 -> Z.of_nat (size (bs_view b)) < 2 ^ 63 ->
  exists d' s, OpenNetworkBlockStore d b max = Ok s /\
    opened d' b max (total (bs_view b)) (Z.of_nat (size (bs_view b))) s /\
    stored (total (bs_view b)) (Z.of_nat (size (bs_view b))) s.
Proof.
  intros Hnone Ht Hs. set (s0 := mkNBS d b max 0 0 ∅ ∅).
  set (s1 := set_count (Z.of_nat (size (bs_view b))) (set_used (total (bs_view b)) s0)).
  destruct (writeAggCounters_stored (total (bs_view b)) (Z.of_nat (size (bs_view b))) s1)
    as (d' & Hw & Hst); [apply total_nonneg|lia|].
  assert (loadCounters s0 = (set_ds d' s1, Ok tt)) as Hload.
  { unfold loadCounters. erewrite run_bind by exact (read_counter_none KUsedBytes s0 Hnone).
    destruct (read_counter_run nbKeyBlockCount s0) as [c Hc]. erewrite run_bind by exact Hc. cbv iota beta.
    destruct (bs_AllKeys_view b) as (keys & Hkeys & Hperm).
    erewrite run_bind by exact (f_equal (pair s0) Hkeys).
    erewrite run_bind; [|apply (sum_sizes_spec keys (bs_view b))]; [|by rewrite Hperm; apply NoDup_fst_map_to_list|done..].
    rewrite !Z.add_0_l. by erewrite run_bind by done. }
  unfold OpenNetworkBlockStore. erewrite run_bind by exact Hload.
  exists d'. unfold m_modify, RingsKnown, query_, mbind, M_bind, m_bind, m_try, dsRead, m_ret. cbn.
  eexists. split; [done|]. split; [by eexists|]. exact Hst.
Qed.

(** ** Ring counters *)

Definition ring_stored (r : seg) (rc : ringCounters) (s : NBS) : Prop :=
  view s !! render (KRingUsed r) = Some (encodeInt64LE rc.(rc_used)) /\
  view s !! render (KRingCount r) = Some (encodeInt64LE rc.(rc_count)) /\
  view s !! render (KRingQuota r) = Some (encodeInt64LE rc.(rc_quota)).

Definition rc_in_range (rc : ringCounters) : Prop :=
  in_int64 rc.(rc_used) /\ in_int64 rc.(rc_count) /\ in_int64 rc.(rc_quota).

Definition flush_ring (kv : string * ringCounters) : M NBS unit :=
  let '(ring, rc) := kv in
  _ ← dsPut_ (ring_base ring +:+ "usedbytes") (encodeInt64LE rc.(rc_used));
  _ ← dsPut_ (ring_base ring +:+ "blockcount") (encodeInt64LE rc.(rc_count));
  dsPut_ (ring_base ring +:+ "quota") (encodeInt64LE rc.(rc_quota)).

Lemma flush_ring_spec r rc s :
  exists d, flush_ring (seg_str r, rc) s = (set_ds d s, Ok tt) /\ ring_stored r rc (set_ds d s) /\
    forall k, key_ring k <> Some r -> ds_view d !! render k = view s !! render k.
Proof.
  destruct (dsPut_view (KRingUsed r) (encodeInt64LE rc.(rc_used)) s) as (d1 & H1 & V1).
  destruct (dsPut_view (KRingCount r) (encodeInt64LE rc.(rc_count)) (set_ds d1 s)) as (d2 & H2 & V2).
  destruct (dsPut_view (KRingQuota r) (encodeInt64LE rc.(rc_quota)) (set_ds d2 (set_ds d1 s))) as (d3 & H3 & V3).
  exists d3. unfold flush_ring. erewrite run_bind by exact H1. erewrite run_bind by exact H2.
  split; [exact H3|]. unfold ring_stored, view in *. cbn [nbs_ds set_ds] in *. rewrite V3, V2, V1. split.
  - assert (forall k k', k <> k' -> render k <> render k') as Hne by (intros k k' Hk ?%(inj render); done).
    split_and!; [..|apply lookup_insert_eq].
    + rewrite !lookup_insert_ne by (by apply Hne). apply lookup_insert_eq.
    + rewrite lookup_insert_ne by (by apply Hne). apply lookup_insert_eq.
  - intros k Hk. by rewrite !lookup_insert_ne by (intros <-%(inj render); by apply Hk).
Qed.

Lemma flush_loop_spec (l : list (string * ringCounters)) s :
  NoDup l.*1 -> (forall ring, ring ∈ l.*1 -> seg_ok ring = true) ->
  exists d, m_forM l flush_ring s = (set_ds d s, Ok tt) /\
    (forall r rc, (seg_str r, rc) ∈ l -> ring_stored r rc (set_ds d s)) /\
    (forall k, (forall r, key_ring k = Some r -> seg_str r ∉ l.*1) -> ds_view d !! render k = view s !! render k).
Proof.
  revert s. induction l as [|[ring rc] l IH]; intros s Hnd Hok; cbn [m_forM].
  { exists (nbs_ds s). split; [by destruct s|]. split; [by intros ?? ?%not_elem_of_nil|done]. }
  rewrite fmap_cons in Hnd, Hok. apply NoDup_cons in Hnd as [Hnot Hnd]. cbn in Hnot, Hok.
  pose proof (Hok ring (list_elem_of_here _ _)) as Hring.
  assert (exists r, seg_str r = ring) as [r <-] by (by exists (mkSeg ring Hring)). clear Hring.
  destruct (flush_ring_spec r rc s) as (d1 & H1 & St1 & O1).
  destruct (IH (set_ds d1 s)) as (d2 & H2 & St2 & O2); [done|intros; apply Hok; by apply list_elem_of_further|].
  exists d2. unfold m_bind. rewrite H1. split; [exact H2|]. split.
  - intros r' rc' Hin. apply elem_of_cons in Hin as [[= Hr ->]|Hin]; [|exact (St2 r' rc' Hin)].
    apply seg_eq in Hr as ->. unfold ring_stored, view in *. cbn [nbs_ds set_ds] in *.
    by rewrite !O2 by (intros r0 [= <-]; done).
  - intros k Hk. rewrite O2; [apply O1|]; intros Hr.
    + apply (Hk r Hr). rewrite fmap_cons. apply list_elem_of_here.
    + intros Hkr Hin. apply (Hk _ Hkr). rewrite fmap_cons. by apply list_elem_of_further.
Qed.

Lemma getRingCounters_stored r rc s :
  s.(nbs_rings) !! seg_str r = None -> rc_in_range rc -> ring_stored r rc s ->
  (getRingCounters (seg_str r) s).2 = Ok rc.
Proof.
  intros Hnone (Hu & Hc & Hq) (Su & Sc & Sq). unfold getRingCounters. erewrite run_bind by done.
  cbv beta. rewrite Hnone.
  erewrite run_bind by exact (read_counter_stored (KRingUsed r) _ s Hu Su).
  erewrite run_bind by exact (read_counter_stored (KRingCount r) _ s Hc Sc).
  erewrite run_bind by exact (read_counter_stored (KRingQuota r) _ s Hq Sq).
  by destruct rc.
Qed.

(** ** Clean and unclean restarts *)

Lemma Close_stored s :
  totals s -> (forall ring rc, s.(nbs_rings) !! ring = Some rc -> seg_ok ring = true) ->
  exists d, Close s = (set_ds d s, Ok tt) /\ stored s.(nbs_used) s.(nbs_count) (set_ds d s) /\
    forall r rc, s.(nbs_rings) !! seg_str r = Some rc -> ring_stored r rc (set_ds d s).
Proof.
  intros [Hu Hc _ _] Hok. pose proof (total_nonneg (blocks s)).
  destruct (writeAggCounters_stored s.(nbs_used) s.(nbs_count) s) as (d1 & H1 & S1 & S2); [lia..|].
  destruct (flush_loop_spec (map_to_list s.(nbs_rings)) (set_ds d1 s)) as (d2 & H2 & St & Oth).
  - apply NoDup_fst_map_to_list.
  - intros ring Hin. apply list_elem_of_fmap_1 in Hin as ([ring' rc] & -> & Hin).
    apply elem_of_map_to_list in Hin. by apply (Hok ring' rc).
  - exists d2. unfold Close, flushAggCounters.
    erewrite run_bind by exact H1. unfold flushRingCounters. erewrite run_bind by done.
    split; [exact H2|]. split.
    + unfold stored, view in *. cbn [nbs_ds set_ds] in *. by rewrite !Oth by done.
    + intros r rc Hr. apply (St r rc). by apply elem_of_map_to_list.
Qed.

(** C9: A clean restart changes nothing. Closing a store and opening it again over the same
    datastores succeeds and gives the blocks, the byte and block counters, and for every ring
    whose counters were in memory the same used bytes, block count and quota. *)
Theorem clean_restart s :
  totals s ->
  (forall ring rc, s.(nbs_rings) !! ring = Some rc -> seg_ok ring = true /\ rc_in_range rc) ->
  let closed := (Close s).1 in
  exists s', OpenNetworkBlockStore closed.(nbs_ds) closed.(nbs_bs) s.(nbs_maxBytes) = Ok s' /\
    blocks s' = blocks s /\ s'.(nbs_used) = s.(nbs_used) /\ s'.(nbs_count) = s.(nbs_count) /\
    totals s' /\
    forall ring rc, s.(nbs_rings) !! ring = Some rc -> (getRingCounters ring s').2 = Ok rc.
Proof.
  intros Hs Hr closed. pose proof (total_nonneg (blocks s)).
  destruct (Close_stored s Hs) as (d & Hclose & Hst & Hrings); [naive_solver|].
  unfold closed. rewrite Hclose. cbn [fst nbs_ds nbs_bs set_ds].
  destruct Hs as [Hu Hc Hm [Hr1 Hr2]].
  destruct (Open_stored d s.(nbs_bs) s.(nbs_maxBytes) s.(nbs_used) s.(nbs_count)) as (s' & Hopen & known & ->);
    [unfold in_int64; lia..|exact Hst|].
  eexists. split; [exact Hopen|]. split_and!; [done..|by split|].
  intros ring rc Hrc. destruct (Hr ring rc Hrc) as [Hok Hrange].
  change ring with (seg_str (mkSeg ring Hok)).
  apply getRingCounters_stored; [done|done|]. by apply (Hrings (mkSeg ring Hok) rc).
Qed.

Definition puts (l : list (cid * bytes)) (s : NBS) : NBS := foldl (fun s kd => (Put kd.1 kd.2 s).1) s l.

Lemma Put_ds key data s : (Put key data s).1.(nbs_ds) = s.(nbs_ds).
Proof.
  set (I := fun s' => s'.(nbs_ds) = s.(nbs_ds)).
  assert (keeps I (bsRead (bs_Has key)) (fun _ => True)) by (intros s' Hs'; unfold bsRead; by rewrite bs_Has_view).
  assert (forall b c, keeps I (addAggDelta b c) (fun _ => True)).
  { intros b c s' Hs'. unfold addAggDelta. split; [|done]. by repeat case_match. }
  assert (forall n, keeps I (reserveAggBytes n) (fun _ => True)).
  { intros n s' Hs'. unfold reserveAggBytes. destruct (_ <=? _); [by split|]. destruct (_ <? _); by split. }
  assert (keeps I (bsWrite (bs_Put key data)) (fun _ => True)).
  { intros s' Hs'. unfold bsWrite. by destruct (bs_Put key data (nbs_bs s')) as [b' [|]]. }
  assert (keeps I (m_modify (fun s => set_count (wrap64 (s.(nbs_count) + 1)) s)) (fun _ => True)) by (by intros s' Hs').
  apply (keeps_final I _ (fun _ => True)); [|done]. unfold Put. keeps_auto; done.
Qed.

Lemma puts_ds l s : (puts l s).(nbs_ds) = s.(nbs_ds).
Proof. revert s. induction l as [|[k v] l IH]; intros s; [done|]. unfold puts. cbn [foldl]. etrans; [apply IH|apply Put_ds]. Qed.

(** C10: A store without stored counters counts its blocks when it is opened; from then on a
    restart without [Close] (a crash) starts from the counters of that moment: the blocks
    put since are on disk and in no counter, so that they no longer count towards the
    storage limit. *)
Theorem unclean_restart d b max l :
  ds_view d !! render KUsedBytes = None ->
  total (bs_view b) < 2 ^ 63 -> Z.of_nat (size (bs_view b)) < 2 ^ 63 ->
  exists s, OpenNetworkBlockStore d b max = Ok s /\
    s.(nbs_used) = total (blocks s) /\ s.(nbs_count) = Z.of_nat (size (blocks s)) /\ blocks s = bs_view b /\
    let crashed := puts l s in
    exists s', OpenNetworkBlockStore crashed.(nbs_ds) crashed.(nbs_bs) max = Ok s' /\
      s'.(nbs_used) = s.(nbs_used) /\ s'.(nbs_count) = s.(nbs_count) /\ blocks s' = blocks crashed.
Proof.
  intros Hnone Ht Hs. destruct (Open_recounts d b max Hnone Ht Hs) as (d' & s & Hopen & [known ->] & Hst).
  eexists. split; [exact Hopen|]. split_and!; [done..|]. cbv zeta. rewrite puts_ds.
  set (crashed := puts l _). pose proof (total_nonneg (bs_view b)).
  destruct (Open_stored d' crashed.(nbs_bs) max (total (bs_view b)) (Z.of_nat (size (bs_view b))))
    as (s' & Hopen' & known' & ->); [unfold in_int64; lia..|exact Hst|].
  eexists. split; [exact Hopen'|]. done.
Qed.

End Restart.

Module RestartExample.
Import MemStore TotalsExample.

(** A store with a ring in memory. *)
Definition running : NBS := (SetQuota "public" 9 (example_run 1)).1.

Lemma running_totals : totals running.
Proof. split; vm_compute; done. Qed.

Lemma running_rings ring rc :
  running.(nbs_rings) !! ring = Some rc -> ring = "public" /\ rc = mkRC 3 1 9.
Proof.
  assert (map_to_list running.(nbs_rings) = [("public", mkRC 3 1 9)]) as Hl by (vm_compute; reflexivity).
  intros Hrc. apply elem_of_map_to_list in Hrc. rewrite Hl in Hrc.
  apply list_elem_of_singleton in Hrc. injection Hrc as -> ->. split; reflexivity.
Qed.

Lemma running_lookup : running.(nbs_rings) !! "public" = Some (mkRC 3 1 9).
Proof. vm_compute. reflexivity. Qed.

Lemma clean_restart_witness :
  exists s', OpenNetworkBlockStore (Close running).1.(nbs_ds) (Close running).1.(nbs_bs) 4 = Ok s' /\
    s'.(nbs_used) = 3 /\ (getRingCounters "public" s').2 = Ok (mkRC 3 1 9).
Proof.
  destruct (clean_restart running) as (s' & Hopen & _ & Hu & _ & _ & Hr).
  - apply running_totals.
  - intros ring rc Hrc. destruct (running_rings ring rc Hrc) as [-> ->].
    split; [reflexivity|]. unfold rc_in_range, in_int64. cbn. lia.
  - exists s'. split; [exact Hopen|]. split; [exact Hu|]. apply Hr, running_lookup.
Defined.

(** Under a limit of four bytes, three are put, the node crashes and is started again: the
    three bytes are on disk and the store counts none. *)
Lemma unclean_restart_witness :
  exists s s', OpenNetworkBlockStore ∅ ∅ 4 = Ok s /\
    OpenNetworkBlockStore (puts [(block_a, data_a)] s).(nbs_ds) (puts [(block_a, data_a)] s).(nbs_bs) 4 = Ok s' /\
    s'.(nbs_used) = 0 /\ blocks s' = blocks (puts [(block_a, data_a)] s).
Proof.
  destruct (unclean_restart (HD := deps) (∅ : gmap string bytes) (∅ : gmap bytes bytes) 4 [(block_a, data_a)])
    as (s & Hopen & Hu & _ & Hb & s' & Hopen' & Hu' & _ & Hb'); [reflexivity|reflexivity|reflexivity|].
  exists s, s'. split; [exact Hopen|]. split; [exact Hopen'|]. split; [|exact Hb'].
  rewrite Hu', Hu, Hb. apply total_empty.
Defined.

End RestartExample.
