(* ===== verification/BlockNode.v ===== *)
(** * Blocks at a node (src/dht/node.go, src/dht/stabilize.go)

    Routed puts and gets of blocks, their replication to successors, hand-over, pruning and
    deletion. A node keeps blocks in a plain block store, or, after [SetNetworkBlocks], in
    the network block store under its ring. The handlers run in any world that gives them
    their own storage and the block calls of the transport ([BlockEnv]); the pushes that
    [replicateAsync] starts are kept in flight until they are run. *)

From stdpp Require Import base gmap list strings.
From Stdlib Require Import ZArith Lia Strings.Byte.
From S2P Require Import Prelude Chord Routing Sha1 StoreDeps NetworkStore BlockStore.

Set Default Goal Selector "!".
Local Open Scope Z_scope.

(** ** The network block store as a block store *)

#[export] Instance NetworkBlockStore `{StoreDeps} : BlockStore NBS := {|
  st_Put := Put; st_Get := Get; st_Delete := Delete; st_Has := Has; st_AllKeys := bsRead bs_AllKeys
|}.

Definition defaultReplicationConcurrency : nat := 64.
Definition defaultPushBlocksChunkSize : nat := 16.
Definition defaultBlocksInFlight : Z := 64.

(** The links of a block (src/store/ingest.go): only dag-pb blocks have any; decoding them is
    the merkledag package's. *)
Class LinkDeps `{StoreDeps} := {
  cid_is_dagpb : cid -> bool;
  DecodeProtobufBlock : bytes -> cid -> result (list cid)
}.

Definition LinksOf `{LinkDeps} (c : cid) (data : bytes) : result (list cid) :=
  if negb (cid_is_dagpb c) then Ok []
  else
    match NewBlockWithCid data c with
    | Err e => Err e
    | Ok _ => DecodeProtobufBlock data c
    end.

Section Node.
Context `{HD : StoreDeps} `{!LinkDeps} {S L : Type} `{!BlockStore S} `{!BlockStore L}.

(** [n.blocks] and [n.networkBlocks]: [SetNetworkBlocks] makes them the same store. *)
Inductive nodeBlocks :=
  | PlainBlocks (s : S)
  | RingBlocks (nbs : NBS).

Definition via {A} (plain : M S A) (ring : M NBS A) : M nodeBlocks A := fun nb =>
  match nb with
  | PlainBlocks s => let '(s', r) := plain s in (PlainBlocks s', r)
  | RingBlocks nbs => let '(nbs', r) := ring nbs in (RingBlocks nbs', r)
  end.

(** [n.blocks] *)
#[export] Instance nodeBlocks_store : BlockStore nodeBlocks := {|
  st_Put := fun key data => via (st_Put key data) (st_Put key data);
  st_Get := fun key => via (st_Get key) (st_Get key);
  st_Delete := fun key => via (st_Delete key) (st_Delete key);
  st_Has := fun key => via (st_Has key) (st_Has key);
  st_AllKeys := via st_AllKeys st_AllKeys
|}.

(** A block with the roots it belongs to, as [PushBlocks] and [TransferKeys] carry it. *)
Record carried := mkCarried { ca_key : cid; ca_data : bytes; ca_roots : list NetworkRootEntry }.

Record BlockNode := mkBlockNode {
  bn_blocks : nodeBlocks;
  bn_localBlocks : option L;
  bn_ringID : string;
  bn_prevPredID : NodeID;
  bn_inFlight : list (NodeAddr * carried);
  bn_dropped : Z
}.

Definition bn_set_blocks (b : nodeBlocks) (n : BlockNode) : BlockNode :=
  mkBlockNode b n.(bn_localBlocks) n.(bn_ringID) n.(bn_prevPredID) n.(bn_inFlight) n.(bn_dropped).
Definition bn_set_local (l : option L) (n : BlockNode) : BlockNode :=
  mkBlockNode n.(bn_blocks) l n.(bn_ringID) n.(bn_prevPredID) n.(bn_inFlight) n.(bn_dropped).
Definition bn_set_ring (ring : string) (n : BlockNode) : BlockNode :=
  mkBlockNode n.(bn_blocks) n.(bn_localBlocks) ring n.(bn_prevPredID) n.(bn_inFlight) n.(bn_dropped).
Definition bn_set_prevPred (p : NodeID) (n : BlockNode) : BlockNode :=
  mkBlockNode n.(bn_blocks) n.(bn_localBlocks) n.(bn_ringID) p n.(bn_inFlight) n.(bn_dropped).
Definition bn_set_inFlight (l : list (NodeAddr * carried)) (n : BlockNode) : BlockNode :=
  mkBlockNode n.(bn_blocks) n.(bn_localBlocks) n.(bn_ringID) n.(bn_prevPredID) l n.(bn_dropped).
Definition bn_set_dropped (d : Z) (n : BlockNode) : BlockNode :=
  mkBlockNode n.(bn_blocks) n.(bn_localBlocks) n.(bn_ringID) n.(bn_prevPredID) n.(bn_inFlight) d.

(** The storage of a new node. *)
Definition NewBlocks (blocks : S) : BlockNode :=
  mkBlockNode (PlainBlocks blocks) None RingPublic (NodeID_copy []) [] 0.

Definition SetNetworkBlocks (nbs : NBS) (n : BlockNode) : BlockNode := bn_set_blocks (RingBlocks nbs) n.
Definition SetLocalBlocks (bs : L) (n : BlockNode) : BlockNode := bn_set_local (Some bs) n.
Definition SetRingID (ringID : string) (n : BlockNode) : BlockNode :=
  bn_set_ring (if decide (ringID = "") then RingPublic else ringID) n.

(** ** The world of a handler *)

(** [be_arrival] orders concurrent answers: the first in the list is the first to come.
    [bt_isNil] says which data [FetchBlock] of the transport returns as a nil slice: none in process,
    where it comes from a store; the empty data over the network, since gob does not send it. *)
Class BlockEnv (W : Type) := {
  be_node : W -> BlockNode;
  be_set_node : BlockNode -> W -> W;
  be_now : W -> Z;
  be_arrival : W -> list NodeAddr -> list NodeAddr;
  bt_PutBlock : NodeAddr -> cid -> bytes -> option cid -> Z -> M W unit;
  bt_PushBlocks : NodeAddr -> list carried -> M W unit;
  bt_ReconcileBlocks : NodeAddr -> list cid -> M W (list cid);
  bt_FetchBlock : NodeAddr -> cid -> M W bytes;
  bt_isNil : bytes -> bool;
  bt_HasBlock : NodeAddr -> cid -> M W bool;
  bt_RemoveBlock : NodeAddr -> cid -> M W unit;
  bt_TransferKeys : NodeAddr -> NodeID -> NodeID -> M W (list carried);
  bt_DeleteCID : NodeAddr -> cid -> bool -> M W unit
}.

Section Handlers.
Context {W : Type} `{HN : !NodeEnv W} `{HB : !BlockEnv W}.

Definition getNode_ : M W BlockNode := fun w => (w, Ok (be_node w)).
Definition modifyNode (f : BlockNode -> BlockNode) : M W unit := fun w => (be_set_node (f (be_node w)) w, Ok tt).

(** An operation on [n.blocks]. *)
Definition on_blocks {A} (m : M nodeBlocks A) : M W A := fun w =>
  let '(b, r) := m (be_node w).(bn_blocks) in (be_set_node (bn_set_blocks b (be_node w)) w, r).

(** An operation on [n.localBlocks], if it is set. *)
Definition on_localBlocks {A} (none : A) (m : M L A) : M W A := fun w =>
  match (be_node w).(bn_localBlocks) with
  | None => (w, Ok none)
  | Some l => let '(l', r) := m l in (be_set_node (bn_set_local (Some l') (be_node w)) w, r)
  end.

(** [n.ringStore()] is not nil. *)
Definition has_ring (n : BlockNode) : bool := match n.(bn_blocks) with RingBlocks _ => true | PlainBlocks _ => false end.

(** An operation on the ring view, or on the plain store when there is none. *)
Definition ring_or {A} (ring : string -> Z -> M NBS A) (plain : M S A) : M W A := fun w =>
  on_blocks (via plain (ring (be_node w).(bn_ringID) (be_now w))) w.

(** ** Replication *)

Definition roots_of_put (rootCID : option cid) (rootExpiry : Z) : list NetworkRootEntry :=
  match rootCID with Some c => [mkRootEntry (cid_String c) rootExpiry] | None => [] end.

(** The first [replication - 1] successors, but for the node itself. *)
Definition replica_targets (r : Routing) : list NodeAddr :=
  filterb (fun t => negb (Equal t.(na_id) r.(r_id))) (take (Z.to_nat (r.(r_replication) - 1)) r.(r_successorList)).

(** A goroutine is started for each target unless [replicationSem] is full. *)
Definition start_push (t : NodeAddr) (b : carried) : M W unit :=
  modifyNode (fun n =>
    if (length n.(bn_inFlight) <? defaultReplicationConcurrency)%nat
    then bn_set_inFlight (n.(bn_inFlight) ++ [(t, b)]) n
    else bn_set_dropped (n.(bn_dropped) + 1) n).

Definition replicateAsync (key : cid) (data : bytes) (rootCID : option cid) (rootExpiry : Z) : M W unit :=
  r ← getRouting;
  if r.(r_replication) <=? 1 then m_ret tt
  else m_forM (replica_targets r) (fun t => start_push t (mkCarried key data (roots_of_put rootCID rootExpiry))).

(** The goroutine of the [i]-th push in flight runs. *)
Definition finish_push (i : nat) : M W unit :=
  n ← getNode_;
  match n.(bn_inFlight) !! i with
  | None => m_ret tt
  | Some (t, b) =>
      _ ← modifyNode (fun n => bn_set_inFlight (delete i n.(bn_inFlight)) n);
      m_ignore (bt_PushBlocks t [b])
  end.

(** Pushes to every target and counts the successes. *)
Fixpoint push_count (targets : list NodeAddr) (b : carried) (ok : Z) : M W Z :=
  match targets with
  | [] => m_ret ok
  | t :: targets' =>
      res ← m_try (bt_PushBlocks t [b]);
      push_count targets' b (match res with Ok _ => ok + 1 | Err _ => ok end)
  end.

Definition replicateAndReport (key : cid) (data : bytes) (rootCID : option cid) (rootExpiry : Z) : M W (Z * Z) :=
  r ← getRouting;
  if r.(r_replication) <=? 1 then m_ret (0, 0)
  else
    let targets := replica_targets r in
    ok ← push_count targets (mkCarried key data (roots_of_put rootCID rootExpiry)) 0;
    m_ret (ok, Z.of_nat (length targets)).

(** ** Routed operations *)

(** What the responsible node does to store a block. *)
Definition store_block (key : cid) (data : bytes) (rootCID : option cid) (rootExpiry : Z) : M W unit :=
  ring_or (fun ring now => PutWithRoot now ring key data (cid_String <$> rootCID) rootExpiry) (st_Put key data).

Definition node_PutWithRoot (ctx : context W) (key : cid) (data : bytes) (rootCID : option cid) (rootExpiry : Z)
    : M W unit :=
  r ← getRouting;
  res ← m_try (FindSuccessor ctx (CIDToNodeID (Hash key)));
  match res with
  | Err e => m_err (errorf_w "route put: " e "")
  | Ok responsible =>
      if Equal responsible.(na_id) r.(r_id) then
        _ ← store_block key data rootCID rootExpiry;
        replicateAsync key data rootCID rootExpiry
      else bt_PutBlock responsible key data rootCID rootExpiry
  end.

Definition node_Put (ctx : context W) (key : cid) (data : bytes) : M W unit := node_PutWithRoot ctx key data None 0.

Definition block_not_found (key : cid) : error := errorf ("block not found: " +:+ cid_String key).

(** The first answer that is a hit, data that is not nil; an error when all are misses. *)
Fixpoint first_hit (key : cid) (targets : list NodeAddr) : M W bytes :=
  match targets with
  | [] => m_err (block_not_found key)
  | t :: targets' =>
      res ← m_try (bt_FetchBlock t key);
      match res with
      | Ok d => if bt_isNil d then first_hit key targets' else m_ret d
      | Err _ => first_hit key targets'
      end
  end.

Definition not_set : error := errorf "no local blocks".

(** [n.blocks.Get], then [n.localBlocks.Get] if there are local blocks. *)
Definition get_here (key : cid) : M W bytes :=
  res ← m_try (on_blocks (st_Get key));
  match res with
  | Ok d => m_ret d
  | Err e =>
      l ← on_localBlocks None (d ← st_Get key; m_ret (Some d));
      match l with Some d => m_ret d | None => m_err not_set end
  end.

Definition node_Get (ctx : context W) (key : cid) : M W bytes :=
  r ← getRouting;
  res ← m_try (FindSuccessor ctx (CIDToNodeID (Hash key)));
  match res with
  | Err e => m_err (errorf_w "route get: " e "")
  | Ok responsible =>
      if Equal responsible.(na_id) r.(r_id) then
        here ← m_try (get_here key);
        match here with
        | Ok d => m_ret d
        | Err _ =>
            r1 ← getRouting;
            w ← m_get;
            first_hit key (be_arrival w (filterb (fun t => negb (Equal t.(na_id) r1.(r_id))) r1.(r_successorList)))
        end
      else bt_FetchBlock responsible key
  end.

Definition node_Has (ctx : context W) (key : cid) : M W bool :=
  r ← getRouting;
  res ← m_try (FindSuccessor ctx (CIDToNodeID (Hash key)));
  match res with
  | Err e => m_err (errorf_w "route has: " e "")
  | Ok responsible =>
      if Equal responsible.(na_id) r.(r_id) then on_blocks (st_Has key) else bt_HasBlock responsible key
  end.

Definition node_Remove (ctx : context W) (key : cid) : M W unit :=
  r ← getRouting;
  res ← m_try (FindSuccessor ctx (CIDToNodeID (Hash key)));
  match res with
  | Err e => m_err (errorf_w "route remove: " e "")
  | Ok responsible =>
      if Equal responsible.(na_id) r.(r_id) then on_blocks (st_Delete key) else bt_RemoveBlock responsible key
  end.

(** ** Ranges of blocks *)

Definition ring_keys : M W (list cid) := ring_or (fun ring _ => Blocks ring) st_AllKeys.

Definition in_range (from to : NodeID) (key : cid) : bool :=
  BetweenRightInclusive (CIDToNodeID (Hash key)) from to.

Definition enumerateRingKeysInRange (from to : NodeID) (filterByRange : bool) : M W (list cid) :=
  keys ← ring_keys;
  m_ret (filterb (fun key => negb filterByRange || in_range from to key) keys).

(** The blocks among [keys] that can be read, with their roots in the ring. *)
Fixpoint collect (keys : list cid) : M W (list carried) :=
  match keys with
  | [] => m_ret []
  | key :: keys' =>
      res ← m_try (on_blocks (st_Get key));
      match res with
      | Err _ => collect keys'
      | Ok data =>
          roots ← ring_or (fun ring _ => RootsForBlockEntries ring key) (m_ret []);
          rest ← collect keys';
          m_ret (mkCarried key data roots :: rest)
      end
  end.

Definition collectRingBlocksInRange (from to : NodeID) : M W (list carried) :=
  keys ← ring_keys;
  collect (filterb (in_range from to) keys).

(** ** Pushing many blocks *)

(** The pool admits at most its capacity; with a context that is never cancelled a call
    within it waits until it is admitted. *)
Definition acquireBlockSlots (weight : Z) : bool := (weight <=? 0) || (weight <=? defaultBlocksInFlight).

(** [keys[start:end]] for [start] in steps of the chunk size; [fuel] bounds the steps. *)
Fixpoint chunks_of (fuel : nat) (keys : list cid) : list (list cid) :=
  match fuel, keys with
  | O, _ | _, [] => []
  | Datatypes.S fuel', _ =>
      take defaultPushBlocksChunkSize keys :: chunks_of fuel' (drop defaultPushBlocksChunkSize keys)
  end.

Fixpoint push_chunks (target : NodeAddr) (chunks : list (list cid)) : M W unit :=
  match chunks with
  | [] => m_ret tt
  | chunk :: chunks' =>
      if acquireBlockSlots (Z.of_nat (length chunk)) then
        blocks ← collect chunk;
        _ ← (match blocks with [] => m_ret tt | _ => m_ignore (bt_PushBlocks target blocks) end);
        push_chunks target chunks'
      else m_ret tt
  end.

Definition pushBlocksChunkedToTarget (target : NodeAddr) (keys : list cid) : M W unit :=
  push_chunks target (chunks_of (length keys) keys).

Definition pushBlocksChunked (targets : list NodeAddr) (keys : list cid) : M W unit :=
  match keys with
  | [] => m_ret tt
  | _ =>
      m_forM targets (fun target =>
        res ← m_try (bt_ReconcileBlocks target keys);
        let missing := match res with Ok l => l | Err _ => keys end in
        pushBlocksChunkedToTarget target missing)
  end.

Definition transferKeysRange (target : NodeAddr) (from to : NodeID) : M W unit :=
  res ← m_try (enumerateRingKeysInRange from to true);
  match res with
  | Err _ => m_ret tt
  | Ok keys => pushBlocksChunked [target] keys
  end.

Definition replicateToNewSuccessors (oldList newList : list NodeAddr) : M W unit :=
  r ← getRouting;
  if r.(r_replication) <=? 1 then m_ret tt
  else
    let pred := r.(r_predecessor) in
    n ← getNode_;
    let predChanged :=
      match pred with Some p => negb (Equal p.(na_id) n.(bn_prevPredID)) | None => false end in
    _ ← (match pred with
         | Some p => if predChanged then modifyNode (bn_set_prevPred p.(na_id)) else m_ret tt
         | None => m_ret tt
         end);
    let window := Z.to_nat (r.(r_replication) - 1) in
    let oldWindow := na_id <$> take window oldList in
    let targets :=
      filterb (fun s => negb (Equal s.(na_id) r.(r_id)) &&
                        (predChanged || negb (bool_decide (s.(na_id) ∈ oldWindow))))
              (take window newList) in
    match targets with
    | [] => m_ret tt
    | _ =>
        let predID := match pred with Some p => p.(na_id) | None => NodeID_copy [] end in
        res ← m_try (enumerateRingKeysInRange predID r.(r_id) (bool_decide (is_Some pred)));
        match res with
        | Err _ => m_ret tt
        | Ok keys => pushBlocksChunked targets keys
        end
    end.

(** ** Joining and leaving *)

(** The joining node stores what its successor hands over. *)
Definition receive (b : carried) : M W unit :=
  n ← getNode_;
  if has_ring n then
    _ ← m_ignore (on_blocks (st_Put b.(ca_key) b.(ca_data)));
    m_forM b.(ca_roots) (fun nr =>
      ring_or (fun ring _ =>
        _ ← AddRootWithExpiry ring nr.(re_CID) nr.(re_ExpiresAt);
        AddBlockRootIndex ring b.(ca_key) nr.(re_CID)) (m_ret tt))
  else m_ignore (on_blocks (st_Put b.(ca_key) b.(ca_data))).

Definition Join_blocks (succ : NodeAddr) (pred : NodeID) : M W unit :=
  r ← getRouting;
  res ← m_try (bt_TransferKeys succ pred r.(r_id));
  match res with
  | Err _ => m_ret tt
  | Ok l => m_forM l receive
  end.

Definition Leave_blocks : M W unit :=
  r ← getRouting;
  if Equal r.(r_successor).(na_id) r.(r_id) then m_ret tt
  else
    res ← m_try ring_keys;
    match res with
    | Err _ => m_ret tt
    | Ok keys =>
        l ← collect keys;
        match l with
        | [] => m_ret tt
        | _ => m_ignore (bt_PushBlocks r.(r_successor) l)
        end
    end.

(** ** Blocks outside the window of the node *)

Definition drop_unless_live (key : cid) : M W unit :=
  ring_or (fun ring now =>
    _ ← DropBlock ring key;
    live ← BlockHasLiveRootAnyRing now key;
    if (live : bool) then m_ret tt else m_ignore (Delete key)) (m_ret tt).

Fixpoint prune_keys (low high : NodeID) (keys : list cid) (dropped : Z) : M W Z :=
  match keys with
  | [] => m_ret dropped
  | key :: keys' =>
      if in_range low high key then prune_keys low high keys' dropped
      else _ ← drop_unless_live key; prune_keys low high keys' (dropped + 1)
  end.

Definition PruneOutOfWindowBlocks : M W Z :=
  n ← getNode_;
  r ← getRouting;
  if negb (has_ring n) || (r.(r_replication) <=? 1) then m_ret 0
  else
    match r.(r_predecessor), r.(r_predecessorList) !! Z.to_nat (r.(r_replication) - 1) with
    | Some _, Some low =>
        keys ← ring_keys;
        prune_keys low.(na_id) r.(r_id) keys 0
    | _, _ => m_ret 0
    end.

(** ** Deleting a tree *)

Definition handleDeleteCID (rootCID : cid) (propagate : bool) : M W unit :=
  _ ← ring_or (fun ring _ => RemoveRoot ring rootCID) (m_ret tt);
  if negb propagate then m_ret tt
  else
    r ← getRouting;
    m_forM (replica_targets r) (fun succ => m_ignore (bt_DeleteCID succ rootCID false)).

(** [n.localOrRingBlocks().Get], then [n.blocks.Get]. *)
Definition get_for_walk (c : cid) : M W bytes :=
  res ← m_try (l ← on_localBlocks None (d ← st_Get c; m_ret (Some d));
               match l with Some d => m_ret d | None => on_blocks (st_Get c) end);
  match res with
  | Ok d => m_ret d
  | Err _ => on_blocks (st_Get c)
  end.

Definition out_of_fuel : error := errorf "out of fuel".

(** The walk visits every identifier once; [visited] is the shared map, keyed by the printed
    identifier, which determines it. *)
Fixpoint deleteCIDWalk (fuel : nat) (ctx : context W) (rootCID c : cid) (visited : gset string) : M W (gset string) :=
  match fuel with
  | O => m_err out_of_fuel
  | Datatypes.S fuel' =>
      if decide (cid_String c ∈ visited) then m_ret visited
      else
        let visited1 : gset string := {[cid_String c]} ∪ visited in
        r ← getRouting;
        res ← m_try (FindSuccessor ctx (CIDToNodeID (Hash c)));
        match res with
        | Err _ => m_ret visited1
        | Ok responsible =>
            _ ← (if Equal responsible.(na_id) r.(r_id) then handleDeleteCID rootCID true
                 else m_ignore (bt_DeleteCID responsible rootCID true));
            data ← m_try (get_for_walk c);
            match data with
            | Err _ => m_ret visited1
            | Ok d =>
                match LinksOf c d with
                | Err _ => m_ret visited1
                | Ok children =>
                    (fix walk_children (cs : list cid) (visited : gset string) : M W (gset string) :=
                       match cs with
                       | [] => m_ret visited
                       | child :: cs' =>
                           visited' ← deleteCIDWalk fuel' ctx rootCID child visited;
                           walk_children cs' visited'
                       end) children visited1
                end
            end
        end
  end.

Definition DeleteCID (fuel : nat) (ctx : context W) (rootCID : cid) : M W unit :=
  _ ← ring_or (fun ring _ => RemoveRoot ring rootCID) (m_ret tt);
  _ ← deleteCIDWalk fuel ctx rootCID rootCID ∅;
  m_ret tt.

End Handlers.
End Node.
