(* ===== verification/BlockNet.v ===== *)
(** * Blocks over the in-process transport (src/dht/local.go)

    A cluster whose nodes hold blocks. A call resolves its target, which fails across a
    partition, and runs the handler there; what a handler calls in turn does not call further,
    so each call is a function of the world. *)

From stdpp Require Import base gmap list strings.
From Stdlib Require Import ZArith Lia Strings.Byte.
From S2P Require Import Prelude Hoare Config Chord Routing Lookup Cluster Sha1 StoreDeps NetworkStore BlockStore BlockNode.

Set Default Goal Selector "!".
Local Open Scope Z_scope.

Section World.
Context `{HD : StoreDeps} {S L : Type} `{!BlockStore S} `{!BlockStore L}.

(** [bw_fresh] is the storage of a node that has none yet. *)
Record BlockWorld := mkBlockWorld {
  bw_cluster : Cluster;
  bw_nodes : gmap NodeID (BlockNode (S := S) (L := L));
  bw_fresh : BlockNode (S := S) (L := L);
  bw_now : Z;
  bw_arrival : list NodeAddr -> list NodeAddr
}.

Definition bw_set_cluster (c : Cluster) (w : BlockWorld) : BlockWorld :=
  mkBlockWorld c w.(bw_nodes) w.(bw_fresh) w.(bw_now) w.(bw_arrival).
Definition bw_set_node (n : NodeID) (b : BlockNode) (w : BlockWorld) : BlockWorld :=
  mkBlockWorld w.(bw_cluster) (<[n := b]> w.(bw_nodes)) w.(bw_fresh) w.(bw_now) w.(bw_arrival).

Definition block_node (n : NodeID) (w : BlockWorld) : BlockNode := default w.(bw_fresh) (w.(bw_nodes) !! n).

Definition in_cluster {A} (m : M Cluster A) : M BlockWorld A := fun w =>
  let '(c, r) := m w.(bw_cluster) in (bw_set_cluster c w, r).

(** The routing part of the transport is that of the cluster. *)
Definition routing_env (self : NodeID) : NodeEnv BlockWorld :=
  let E := localTransport self in {|
    ne_routing := fun w => @ne_routing _ E w.(bw_cluster);
    ne_set_routing := fun r w => bw_set_cluster (@ne_set_routing _ E r w.(bw_cluster)) w;
    ne_spawn := fun t w => bw_set_cluster (@ne_spawn _ E t w.(bw_cluster)) w;
    tr_FindSuccessor := fun t id => in_cluster (@tr_FindSuccessor _ E t id);
    tr_ClosestPrecedingNode := fun t id => in_cluster (@tr_ClosestPrecedingNode _ E t id);
    tr_GetPredecessor := fun t => in_cluster (@tr_GetPredecessor _ E t);
    tr_GetSuccessorList := fun t => in_cluster (@tr_GetSuccessorList _ E t);
    tr_Notify := fun t caller => in_cluster (@tr_Notify _ E t caller);
    tr_NotifyLeave := fun t l s p => in_cluster (@tr_NotifyLeave _ E t l s p);
    tr_Ping := fun t => in_cluster (@tr_Ping _ E t);
    ne_addrRefresher := fun w => @ne_addrRefresher _ E w.(bw_cluster)
  |}.

(** [resolve], then an operation at the target. *)
Definition at_node {A} (self : NodeID) (target : NodeAddr) (h : M BlockWorld A) : M BlockWorld A := fun w =>
  match getNode w.(bw_cluster) self target.(na_id) with
  | None => (w, Err (unreachable target))
  | Some _ => h w
  end.

Definition not_called {A} : M BlockWorld A := m_err (errorf "not called").

(** The storage of a node, without calls to others. *)
Definition storage_env (self : NodeID) : BlockEnv (S := S) (L := L) BlockWorld := {|
  be_node := block_node self;
  be_set_node := bw_set_node self;
  be_now := bw_now;
  be_arrival := fun w => w.(bw_arrival);
  bt_PutBlock := fun _ _ _ _ _ => not_called;
  bt_PushBlocks := fun _ _ => not_called;
  bt_ReconcileBlocks := fun _ _ => not_called;
  bt_FetchBlock := fun _ _ => not_called;
  bt_isNil := fun _ => false;
  bt_HasBlock := fun _ _ => not_called;
  bt_RemoveBlock := fun _ _ => not_called;
  bt_TransferKeys := fun _ _ _ => not_called;
  bt_DeleteCID := fun _ _ _ => not_called
|}.

(** ** [PushBlocks] *)

Section AtTarget.
Context (target : NodeID).
#[local] Instance target_env : BlockEnv (S := S) (L := L) BlockWorld := storage_env target.

(** One block of a push; [true] if it was stored, [false] if there was no room. *)
Definition accept_block (b : carried) : M BlockWorld bool :=
  n ← getNode_;
  let root :=
    match b.(ca_roots) with
    | nr :: _ => if has_ring n then match cid_Parse nr.(re_CID) with Ok rc => Some (rc, nr.(re_ExpiresAt)) | Err _ => None end
                 else None
    | [] => None
    end in
  res ← m_try (match root with
               | Some (rc, exp) => store_block b.(ca_key) b.(ca_data) (Some rc) exp
               | None => on_blocks (st_Put b.(ca_key) b.(ca_data))
               end);
  match res with
  | Err e => if IsStorageFull e then m_ret false else m_err e
  | Ok _ =>
      _ ← (match root with
           | Some _ =>
               m_forM (tail b.(ca_roots)) (fun nr =>
                 ring_or (fun ring _ =>
                   _ ← AddRootWithExpiry ring nr.(re_CID) nr.(re_ExpiresAt);
                   AddBlockRootIndex ring b.(ca_key) nr.(re_CID)) (m_ret tt))
           | None => m_ret tt
           end);
      m_ret true
  end.

Fixpoint accept_blocks (l : list carried) (stored : nat) : M BlockWorld nat :=
  match l with
  | [] => m_ret stored
  | b :: l' => ok ← accept_block b; accept_blocks l' (if (ok : bool) then Datatypes.S stored else stored)
  end.

Definition serve_PushBlocks (l : list carried) : M BlockWorld unit :=
  stored ← accept_blocks l 0;
  match stored, l with
  | O, _ :: _ => m_err errStorageFull
  | _, _ => m_ret tt
  end.

Fixpoint serve_Reconcile (keys : list cid) : M BlockWorld (list cid) :=
  match keys with
  | [] => m_ret []
  | k :: keys' =>
      res ← m_try (on_blocks (st_Has k));
      rest ← serve_Reconcile keys';
      m_ret (match res with Ok true => rest | _ => k :: rest end)
  end.

(** The target hands over the blocks of a range and lets go of them. *)
Fixpoint let_go (l : list carried) : M BlockWorld unit :=
  match l with
  | [] => m_ret tt
  | b :: l' =>
      n ← getNode_;
      _ ← (if has_ring n then drop_unless_live b.(ca_key) else m_ignore (on_blocks (st_Delete b.(ca_key))));
      let_go l'
  end.

Definition serve_TransferKeys (from to : NodeID) : M BlockWorld (list carried) :=
  l ← collectRingBlocksInRange from to;
  _ ← let_go l;
  m_ret l.

Definition serve_HasBlock (key : cid) : M BlockWorld bool :=
  res ← m_try (on_blocks (st_Has key));
  match res with
  | Ok true => m_ret true
  | _ =>
      l ← on_localBlocks None (b ← st_Has key; m_ret (Some b));
      match l with Some b => m_ret b | None => on_blocks (st_Has key) end
  end.

End AtTarget.

Definition local_PushBlocks (self : NodeID) (target : NodeAddr) (l : list carried) : M BlockWorld unit :=
  at_node self target (serve_PushBlocks target.(na_id) l).

Definition local_ReconcileBlocks (self : NodeID) (target : NodeAddr) (keys : list cid) : M BlockWorld (list cid) :=
  at_node self target (serve_Reconcile target.(na_id) keys).

Definition local_HasBlock (self : NodeID) (target : NodeAddr) (key : cid) : M BlockWorld bool :=
  at_node self target (serve_HasBlock target.(na_id) key).

Definition local_RemoveBlock (self : NodeID) (target : NodeAddr) (key : cid) : M BlockWorld unit :=
  at_node self target (on_blocks (HB := storage_env target.(na_id)) (st_Delete key)).

Definition local_TransferKeys (self : NodeID) (target : NodeAddr) (from to : NodeID) : M BlockWorld (list carried) :=
  at_node self target (serve_TransferKeys target.(na_id) from to).

(** ** [FetchBlock] *)

(** The target's successors are asked directly for what they store. *)
Fixpoint fetch_from (node : NodeID) (key : cid) (succs : list NodeAddr) : M BlockWorld bytes :=
  match succs with
  | [] => m_err (block_not_found key)
  | s :: succs' =>
      if Equal s.(na_id) node then fetch_from node key succs'
      else fun w =>
        match getNode w.(bw_cluster) node s.(na_id) with
        | None => fetch_from node key succs' w
        | Some _ =>
            match on_blocks (HB := storage_env s.(na_id)) (st_Get key) w with
            | (w', Ok d) => (w', Ok d)
            | (w', Err _) => fetch_from node key succs' w'
            end
        end
  end.

Definition local_FetchBlock (self : NodeID) (target : NodeAddr) (key : cid) : M BlockWorld bytes :=
  at_node self target (
    here ← m_try (get_here (HB := storage_env target.(na_id)) key);
    match here with
    | Ok d => m_ret d
    | Err _ => r ← @getRouting _ (routing_env target.(na_id)); fetch_from target.(na_id) key r.(r_successorList)
    end).

(** ** [PutBlock] and [DeleteCID] *)

(** A node that serves a put only pushes; one that serves a deletion only passes it on. *)
Definition serving_env (self : NodeID) : BlockEnv (S := S) (L := L) BlockWorld := {|
  be_node := block_node self;
  be_set_node := bw_set_node self;
  be_now := bw_now;
  be_arrival := fun w => w.(bw_arrival);
  bt_PutBlock := fun _ _ _ _ _ => not_called;
  bt_PushBlocks := local_PushBlocks self;
  bt_ReconcileBlocks := fun _ _ => not_called;
  bt_FetchBlock := fun _ _ => not_called;
  bt_isNil := fun _ => false;
  bt_HasBlock := fun _ _ => not_called;
  bt_RemoveBlock := fun _ _ => not_called;
  bt_TransferKeys := fun _ _ _ => not_called;
  bt_DeleteCID := fun target root propagate =>
    at_node self target (handleDeleteCID (HN := routing_env target.(na_id)) (HB := storage_env target.(na_id)) root propagate)
|}.

Definition serve_PutBlock (target : NodeID) (key : cid) (data : bytes) (rootCID : option cid) (rootExpiry : Z)
    : M BlockWorld unit :=
  res ← m_try (store_block (HB := serving_env target) key data rootCID rootExpiry);
  match res with
  | Ok _ => replicateAsync (HN := routing_env target) (HB := serving_env target) key data rootCID rootExpiry
  | Err e =>
      if negb (IsStorageFull e) then m_err e
      else
        out ← replicateAndReport (HN := routing_env target) (HB := serving_env target) key data rootCID rootExpiry;
        if out.1 =? 0 then m_err errStorageFull else m_ret tt
  end.

Definition local_PutBlock (self : NodeID) (target : NodeAddr) (key : cid) (data : bytes) (rootCID : option cid) (rootExpiry : Z)
    : M BlockWorld unit :=
  at_node self target (serve_PutBlock target.(na_id) key data rootCID rootExpiry).

Definition local_DeleteCID (self : NodeID) (target : NodeAddr) (key : cid) (propagate : bool) : M BlockWorld unit :=
  at_node self target (handleDeleteCID (HN := routing_env target.(na_id)) (HB := serving_env target.(na_id)) key propagate).

(** The transport of a node. *)
Definition block_env (self : NodeID) : BlockEnv (S := S) (L := L) BlockWorld := {|
  be_node := block_node self;
  be_set_node := bw_set_node self;
  be_now := bw_now;
  be_arrival := fun w => w.(bw_arrival);
  bt_PutBlock := local_PutBlock self;
  bt_PushBlocks := local_PushBlocks self;
  bt_ReconcileBlocks := local_ReconcileBlocks self;
  bt_FetchBlock := local_FetchBlock self;
  bt_isNil := fun _ => false;
  bt_HasBlock := local_HasBlock self;
  bt_RemoveBlock := local_RemoveBlock self;
  bt_TransferKeys := local_TransferKeys self;
  bt_DeleteCID := local_DeleteCID self
|}.

End World.
