(* ===== verification/BlockPlacement.v ===== *)
(** * Where blocks are found

    What the handlers of [BlockNode] and the transport of [BlockNet] do to the blocks each
    node holds: a put reaches the owner of the block, its pushes the next nodes of the ring,
    and a get finds the block wherever one of them has it. *)

From stdpp Require Import base gmap list strings.
From Stdlib Require Import ZArith Lia Strings.Byte.
From S2P Require Import Prelude Hoare Config Chord Routing Lookup Cluster Stable Sha1 StoreDeps NetworkStore BlockStore StoreCounters BlockNode BlockNet.

Set Default Goal Selector "!".
Local Open Scope Z_scope.

(** ** The network block store obeys the laws of block stores *)

Section Laws.
Context `{HD : StoreDeps} `{HL : !StoreLaws} `{HA : Addressing}.

Definition holding (b : gmap bytes bytes) (s : NBS) : Prop := blocks s = b.

#[local] Instance holding_MetaFree b : MetaFree (holding b).
Proof. by split. Qed.

Lemma keeps_reserveAgg b n : keeps (holding b) (reserveAggBytes n) (fun _ => True).
Proof. intros s Hs. unfold reserveAggBytes. by destruct (_ <=? _); [|destruct (_ <? _)]. Qed.

Lemma keeps_aggDelta b x y : keeps (holding b) (addAggDelta x y) (fun _ => True).
Proof. intros s Hs. unfold addAggDelta. by destruct (x =? 0), (y =? 0). Qed.

Lemma keeps_setCount b f : keeps (holding b) (m_modify (fun s => set_count (f s) s)) (fun _ => True).
Proof. by intros s Hs. Qed.

#[local] Hint Resolve keeps_reserveAgg keeps_aggDelta keeps_setCount keeps_getRingCounters keeps_ringHasBlock
  keeps_reserveBytes keeps_addUsageDelta keeps_index_block : keeps.

Lemma keeps_reserve_for b ring key size hasBlock rooted :
  keeps (holding b) (reserve_for ring key size hasBlock rooted) (fun _ => True).
Proof.
  unfold reserve_for. apply (keeps_bind _ _ _ (fun _ => True)).
  - destruct hasBlock; keeps_auto; done.
  - intros agg _. keeps_auto; eauto with keeps typeclass_instances.
Qed.

Lemma keeps_unreserve b ring size agg ringed : keeps (holding b) (unreserve ring size agg ringed) (fun _ => True).
Proof. unfold unreserve. keeps_auto; eauto with keeps typeclass_instances. Qed.

Lemma never_markRingKnown r : never_fails (markRingKnown r).
Proof. unfold markRingKnown. never_auto. Qed.

Lemma never_AddRootWithExpiry r c e : never_fails (AddRootWithExpiry r c e).
Proof. unfold AddRootWithExpiry. never_auto; apply never_markRingKnown. Qed.

Lemma never_index_block now r key root size e adding : never_fails (index_block now r key root size e adding).
Proof.
  unfold index_block, modifyRing, HasRootStr, dsPut_. never_auto;
    eauto using never_markRingKnown, never_AddRootWithExpiry, never_addCIDUsage.
Qed.

(** Writing a block that is absent. *)
Lemma write_new key data b :
  b !! Hash key = None ->
  succeeds (holding b) (m_try (bsWrite (bs_Put key data))) (fun r s => holding (<[Hash key := data]> b) s /\ r = Ok tt).
Proof.
  intros Hno s Hs. unfold m_try, bsWrite, holding, blocks in *. rewrite <- Hs in Hno.
  pose proof (bs_Put_view key data (nbs_bs s) Hno) as Hv. pose proof (bs_Put_ok key data (nbs_bs s)) as Hok.
  destruct (bs_Put key data (nbs_bs s)) as [b' r]. cbn in Hv, Hok. subst r. cbn. by rewrite Hv, Hs.
Qed.

Lemma has_block key b :
  succeeds (holding b) (bsRead (bs_Has key)) (fun has s => holding b s /\ has = bool_decide (is_Some (b !! Hash key))).
Proof. intros s Hs. unfold bsRead, holding, blocks in *. by rewrite bs_Has_view, Hs. Qed.

Lemma Put_blocks key data b :
  triple (holding b) (Put key data) (fun _ => holding (insert_new (Hash key) data b)) (holding b).
Proof.
  unfold Put. intros s Hs. destruct (succeeds_final _ _ _ s (has_block key b) Hs) as (has & s1 & Hrun & Hs1 & ->).
  erewrite run_bind by exact Hrun. unfold insert_new. case_bool_decide as Hb.
  { destruct Hb as [d Hd]. by rewrite Hd. }
  apply eq_None_not_Some in Hb. rewrite Hb. pose proof (keeps_reserveAgg b (Z.of_nat (length data)) s1 Hs1) as Hr.
  cbv zeta. unfold mbind at 1, M_bind at 1, m_bind at 1. destruct (reserveAggBytes _ s1) as [s2 [ok|e]]; [|done].
  destruct Hr as [Hs2 _]. destruct ok; [|done]. rewrite NewBlockWithCid_ok.
  destruct (succeeds_final _ _ _ s2 (write_new key data b Hb) Hs2) as (res & s3 & Hrun3 & Hs3 & ->).
  by erewrite run_bind by exact Hrun3.
Qed.

Lemma PutWithRoot_blocks now ring key data root exp b :
  triple (holding b) (PutWithRoot now ring key data root exp) (fun _ => holding (insert_new (Hash key) data b)) (holding b).
Proof.
  unfold PutWithRoot. intros s Hs. destruct (succeeds_final _ _ _ s (has_block key b) Hs) as (has & s1 & Hrun & Hs1 & ->).
  erewrite run_bind by exact Hrun. cbv zeta.
  pose proof (keeps_reserve_for b ring key (Z.of_nat (length data)) (bool_decide (is_Some (b !! Hash key)))
    (bool_decide (is_Some root)) s1 Hs1) as Hr.
  unfold mbind at 1, M_bind at 1, m_bind at 1. destruct (reserve_for _ _ _ _ _ s1) as [s2 [out|e]]; [|done].
  destruct Hr as [Hs2 _]. destruct out as [[agg ringed]|]; [|done]. unfold insert_new.
  assert (forall b' s', holding b' s' -> match (match root with
    | None => m_ret tt | Some r => index_block now ring key r (Z.of_nat (length data)) exp ringed end) s' with
    | (s'', Ok _) => holding b' s'' | (s'', Err _) => holding b s'' end) as Hidx.
  { intros b' s' Hs'. destruct root as [r|]; [|done].
    pose proof (keeps_index_block (holding b') now ring key r (Z.of_nat (length data)) exp ringed s' Hs') as Hk.
    pose proof (never_index_block now ring key r (Z.of_nat (length data)) exp ringed s') as [u Hu].
    destruct (index_block _ _ _ _ _ _ _ s') as [s'' [u'|e]]; [by destruct Hk|done]. }
  case_bool_decide as Hb.
  - destruct Hb as [d Hd]. rewrite Hd. by apply Hidx.
  - apply eq_None_not_Some in Hb. rewrite Hb, NewBlockWithCid_ok.
    destruct (succeeds_final _ _ _ s2 (write_new key data b Hb) Hs2) as (res & s3 & Hrun3 & Hs3 & ->).
    unfold mbind at 1, M_bind at 1, m_bind at 1. erewrite run_bind by exact Hrun3. cbn [m_modify]. by apply Hidx.
Qed.

Lemma Delete_blocks key b : succeeds (holding b) (Delete key) (fun _ => holding (delete (Hash key) b)).
Proof.
  assert (succeeds (holding b) (bsWrite (bs_DeleteBlock key)) (fun _ => holding (delete (Hash key) b))) as Hdel.
  { intros s Hs. unfold bsWrite, holding, blocks in *. pose proof (bs_Delete_view key (nbs_bs s)) as Hv.
    pose proof (bs_Delete_ok key (nbs_bs s)) as Hok. destruct (bs_DeleteBlock key (nbs_bs s)) as [b' r].
    cbn in Hv, Hok. subst r. cbn. by rewrite Hv, Hs. }
  unfold Delete, blockSize. apply (succeeds_bind _ _ _ (fun _ => holding b)).
  { intros s Hs. unfold m_try, bsRead. done. }
  intros [size|e]; [|exact Hdel]. eapply succeeds_bind; [apply succeeds_try, Hdel|].
  intros res s (u & -> & Hs). pose proof (keeps_aggDelta (delete (Hash key) b) (- size) (-1) s Hs) as Hk.
  unfold addAggDelta in *. by destruct Hk.
Qed.

#[export] Program Instance NBS_laws : BlockStoreLaws NBS := {|
  st_ok := fun _ => True; contents := blocks
|}.
Next Obligation.
  intros c d m _ _ s [_ Hs]. pose proof (Put_blocks c d m s Hs) as H. cbn [st_Put NetworkBlockStore].
  by destruct (Put c d s) as [s' [u|e]].
Qed.
Next Obligation.
  intros c m s [_ Hs]. cbn [st_Get NetworkBlockStore]. unfold Get, bsRead, blocks in *.
  destruct (bs_Get c (nbs_bs s)) as [d|e] eqn:Hg.
  - apply bs_Get_view in Hg. by rewrite Hs in Hg.
  - split; [done|]. destruct (m !! Hash c) as [d|] eqn:Hd; [|done]. rewrite <- Hs in Hd. apply bs_Get_view in Hd. congruence.
Qed.
Next Obligation.
  intros c m s [_ Hs]. pose proof (Delete_blocks c m s Hs) as H. cbn [st_Delete NetworkBlockStore].
  by destruct (Delete c s) as [s' [u|e]].
Qed.
Next Obligation.
  intros c m s [_ Hs]. cbn [st_Has NetworkBlockStore]. unfold Has, bsRead, blocks in *. by rewrite bs_Has_view, Hs.
Qed.
Next Obligation.
  intros m s [_ Hs]. cbn [st_AllKeys NetworkBlockStore]. unfold bsRead, blocks in *.
  destruct (bs_AllKeys_view (nbs_bs s)) as (l & -> & Hl). by rewrite Hs in Hl.
Qed.

End Laws.

Section NodeLaws.
Context `{HD : StoreDeps} `{HL : !StoreLaws} `{HA : Addressing} {S : Type} `{HS : !BlockStore S} `{HSL : !BlockStoreLaws S}.

Definition nb_ok (nb : nodeBlocks (S := S)) : Prop := match nb with PlainBlocks s => st_ok s | RingBlocks _ => True end.
Definition nb_contents (nb : nodeBlocks (S := S)) : gmap bytes bytes :=
  match nb with PlainBlocks s => contents s | RingBlocks nbs => blocks nbs end.

Definition nb_at (m : gmap bytes bytes) (nb : nodeBlocks (S := S)) : Prop := nb_ok nb /\ nb_contents nb = m.

(** A step on either kind of store. *)
Lemma via_triple {A} (plain : M S A) (ring : M NBS A) m Q E :
  triple (fun s => st_ok s /\ contents s = m) plain (fun a s => Q a (PlainBlocks s)) (fun s => E (PlainBlocks s)) ->
  triple (fun s => st_ok s /\ contents s = m) ring (fun a s => Q a (RingBlocks s)) (fun s => E (RingBlocks s)) ->
  triple (nb_at m) (via plain ring) Q E.
Proof.
  intros Hp Hr nb [Hok Hm]. destruct nb as [s|nbs]; cbn [via].
  - specialize (Hp s (conj Hok Hm)). by destruct (plain s) as [s' [a|e]].
  - specialize (Hr nbs (conj Hok Hm)). by destruct (ring nbs) as [s' [a|e]].
Qed.

#[export] Program Instance nodeBlocks_laws : BlockStoreLaws (nodeBlocks (S := S)) := {|
  st_ok := nb_ok; contents := nb_contents
|}.
Next Obligation. intros c d m Ha Hr. apply via_triple; [exact (st_Put_law c d m Ha Hr)|exact (st_Put_law (S := NBS) c d m Ha Hr)]. Qed.
Next Obligation. intros c m. apply via_triple; [exact (st_Get_law c m)|exact (st_Get_law (S := NBS) c m)]. Qed.
Next Obligation. intros c m. apply via_triple; [exact (st_Delete_law c m)|exact (st_Delete_law (S := NBS) c m)]. Qed.
Next Obligation. intros c m. apply via_triple; [exact (st_Has_law c m)|exact (st_Has_law (S := NBS) c m)]. Qed.
Next Obligation. intros m. apply via_triple; [exact (st_AllKeys_law m)|exact (st_AllKeys_law (S := NBS) m)]. Qed.

End NodeLaws.

(** ** The blocks of a cluster *)

Section Placement.
Context `{HD : StoreDeps} `{HL : !StoreLaws} `{HA : Addressing}.
Context {S L : Type} `{HS : !BlockStore S} `{HSL : !BlockStoreLaws S} `{HB : !BlockStore L} `{HBL : !BlockStoreLaws L}.

#[local] Abbreviation world := (BlockWorld (S := S) (L := L)).
#[local] Abbreviation pushes := (list (NodeAddr * carried)).

Definition local_at (o : option (gmap bytes bytes)) (l : option L) : Prop :=
  match o, l with
  | None, None => True
  | Some m, Some x => st_ok x /\ contents x = m
  | _, _ => False
  end.

(** The cluster is [c]; node [n] stores the blocks [f n], has the local blocks [g n] and the
    pushes [h n] in flight. *)
Record view (c : Cluster) (f : NodeID -> gmap bytes bytes) (g : NodeID -> option (gmap bytes bytes))
    (h : NodeID -> pushes) (w : world) : Prop := {
  v_cluster : w.(bw_cluster) = c;
  v_blocks n : nb_at (f n) (block_node n w).(bn_blocks);
  v_local n : local_at (g n) (block_node n w).(bn_localBlocks);
  v_flight n : (block_node n w).(bn_inFlight) = h n;
  v_arrival l : w.(bw_arrival) l ≡ₚ l
}.

Definition fupd {A} (n : NodeID) (x : A) (f : NodeID -> A) : NodeID -> A := fun n' => if decide (n' = n) then x else f n'.

Lemma view_ext c f f' g h h' w :
  (forall n, f n = f' n) -> (forall n, h n = h' n) -> view c f g h w -> view c f' g h' w.
Proof. intros Hf Hh [H1 H2 H3 H4 H5]. split; [done|..|done]; intros n; [rewrite <- Hf|..|rewrite <- Hh]; auto. Qed.

Lemma fupd_same {A} n (f : NodeID -> A) n' : fupd n (f n) f n' = f n'.
Proof. unfold fupd. case_decide; congruence. Qed.

Lemma block_node_set n b (w : world) n' : block_node n' (bw_set_node n b w) = if decide (n' = n) then b else block_node n' w.
Proof.
  unfold block_node, bw_set_node. cbn [bw_nodes bw_fresh]. case_decide as Hn.
  - subst. by rewrite lookup_insert_eq.
  - by rewrite lookup_insert_ne.
Qed.

(** An operation on the blocks of node [n]. *)
Lemma on_blocks_view {A} n (x : M (nodeBlocks (S := S)) A) c f g h F P Fe Pe :
  triple (nb_at (f n)) x (fun a nb => nb_at (F a) nb /\ P a) (fun nb => nb_at Fe nb /\ Pe) ->
  triple (view c f g h) (on_blocks (HB := block_env n) x)
    (fun a w => view c (fupd n (F a) f) g h w /\ P a) (fun w => view c (fupd n Fe f) g h w /\ Pe).
Proof.
  intros Hx w [H1 H2 H3 H4 H5]. unfold on_blocks. cbn [be_node be_set_node block_env].
  specialize (Hx _ (H2 n)). destruct (x _) as [nb [a|e]]; destruct Hx as [Hnb HP]; (split; [|done]);
    (split; [done|intros n'; rewrite block_node_set; unfold fupd; case_decide; subst; cbn; auto..|done]).
Qed.

Lemma get_view n key c f g h :
  triple (view c f g h) (on_blocks (HB := block_env n) (st_Get key))
    (fun d w => view c f g h w /\ f n !! Hash key = Some d) (fun w => view c f g h w /\ f n !! Hash key = None).
Proof.
  eapply triple_weaken; [apply (on_blocks_view n _ c f g h (fun _ => f n) (fun d => f n !! Hash key = Some d) (f n)
    (f n !! Hash key = None))|done|..].
  - exact (st_Get_law (S := nodeBlocks (S := S)) key (f n)).
  - intros d w [Hw Hd]. split; [|done]. eapply view_ext; [..|exact Hw]; [|done]. intros n'. apply fupd_same.
  - intros w [Hw Hd]. split; [|done]. eapply view_ext; [..|exact Hw]; [|done]. intros n'. apply fupd_same.
Qed.

Lemma has_view n key c f g h :
  succeeds (view c f g h) (on_blocks (HB := block_env n) (st_Has key))
    (fun b w => view c f g h w /\ b = bool_decide (is_Some (f n !! Hash key))).
Proof.
  eapply triple_weaken; [apply (on_blocks_view n _ c f g h (fun _ => f n) (fun b => b = bool_decide (is_Some (f n !! Hash key))) (f n)
    False)|done|..].
  - eapply triple_weaken; [exact (st_Has_law (S := nodeBlocks (S := S)) key (f n))|done|done|done].
  - intros d w [Hw Hd]. split; [|done]. eapply view_ext; [..|exact Hw]; [|done]. intros n'. apply fupd_same.
  - by intros w [_ []].
Qed.

(** Everybody who has the block has the data [data] for it. *)
Definition agree (f : NodeID -> gmap bytes bytes) (g : NodeID -> option (gmap bytes bytes)) (key : cid) (data : bytes) : Prop :=
  (forall n d, f n !! Hash key = Some d -> d = data) /\
  (forall n m d, g n = Some m -> m !! Hash key = Some d -> d = data).

Lemma get_here_view n key data c f g h :
  agree f g key data ->
  triple (view c f g h) (get_here (HB := block_env n) key)
    (fun d w => view c f g h w /\ d = data) (fun w => view c f g h w /\ f n !! Hash key = None).
Proof.
  intros [Hf Hg] w Hw. unfold get_here. pose proof (get_view n key c f g h w Hw) as Hget.
  unfold mbind at 1, M_bind at 1, m_bind at 1, m_try at 1.
  destruct (on_blocks (HB := block_env n) (st_Get key) w) as [w1 [d|e]]; destruct Hget as [Hw1 Hd].
  { split; [done|]. eauto. }
  unfold mbind at 1, M_bind at 1, m_bind at 1, on_localBlocks. cbn [be_node be_set_node block_env].
  pose proof (v_local _ _ _ _ _ Hw1 n) as Hl. unfold local_at in Hl.
  destruct (bn_localBlocks (block_node n w1)) as [l|], (g n) as [m|] eqn:Hgn; try done.
  pose proof (st_Get_law key m l Hl) as Hlg. unfold mbind, M_bind, m_bind.
  assert (forall l', st_ok l' /\ contents l' = m -> view c f g h (bw_set_node n (bn_set_local (Some l') (block_node n w1)) w1)) as Hset.
  { intros l' Hl'. destruct Hw1 as [H1 H2 H3 H4 H5].
    split; [done|intros n'; rewrite block_node_set; case_decide; subst; cbn; auto..|done]. by rewrite Hgn. }
  destruct (st_Get key l) as [l' [d|e']]; destruct Hlg as [Hl' Hd']; (split; [by apply Hset|]); [eauto|done].
Qed.

(** ** Reading *)

(** [n] is a member that every node reaches and that stores the block. *)
Definition serves (c : Cluster) (f : NodeID -> gmap bytes bytes) (key : cid) (n : NodeID) : Prop :=
  n ∈ dom c.(cl_nodes) /\ is_Some (f n !! Hash key).

Lemma connected_getNode c a n : connected c -> n ∈ dom c.(cl_nodes) -> is_Some (getNode c a n).
Proof. intros Hc [r Hr]%elem_of_dom. unfold getNode. rewrite bool_decide_eq_false_2 by apply Hc. by exists r. Qed.

(** A run that ends with [data], unless nobody among [servers] has the block. *)
Definition reads (c : Cluster) (f : NodeID -> gmap bytes bytes) g h (key : cid) (data : bytes) (servers : list NodeID)
    (x : M world bytes) : Prop :=
  triple (view c f g h) x (fun d w => view c f g h w /\ d = data)
    (fun w => view c f g h w /\ forall n, n ∈ servers -> ~ serves c f key n).

Lemma reads_found c f g h key data servers x n :
  reads c f g h key data servers x -> n ∈ servers -> serves c f key n ->
  succeeds (view c f g h) x (fun d w => view c f g h w /\ d = data).
Proof. intros Hx Hn Hs. eapply triple_weaken; [exact Hx|done|done|]. intros w [_ Hno]. by apply (Hno n). Qed.

Lemma get_here_reads n key data c f g h :
  agree f g key data -> reads c f g h key data [n] (get_here (HB := block_env n) key).
Proof.
  intros Ha. eapply triple_weaken; [by apply (get_here_view n key data)|done|done|].
  intros w [Hw Hno]. split; [done|]. intros n' ->%list_elem_of_singleton [_ Hs]. rewrite Hno in Hs. by inversion Hs.
Qed.

(** Trying one source after the other. *)
Lemma reads_or c f g h key data s1 s2 x (y : M world bytes) :
  reads c f g h key data s1 x -> reads c f g h key data s2 y ->
  reads c f g h key data (s1 ++ s2) (res ← m_try x; match res with Ok d => m_ret d | Err _ => y end).
Proof.
  intros Hx Hy. eapply triple_bind; [eapply triple_try, Hx|]. intros [d|e] w Hw; [done|].
  destruct Hw as [Hw Hno]. specialize (Hy w Hw). destruct (y w) as [w' [d|e']]; [done|].
  destruct Hy as [Hw' Hno']. split; [done|]. intros n [Hn|Hn]%elem_of_app; auto.
Qed.

Lemma fetch_from_reads node key data c f g h succs :
  connected c -> agree f g key data ->
  reads c f g h key data (filter (.≠ node) (na_id <$> succs)) (fetch_from node key succs).
Proof.
  intros Hc Ha. induction succs as [|s succs IH]; cbn [fetch_from fmap list_fmap].
  { intros w Hw. cbn. split; [done|]. intros n Hn. by apply elem_of_nil in Hn. }
  destruct (Equal (na_id s) node) eqn:Heq.
  { apply Equal_true in Heq. rewrite filter_cons_False by naive_solver. exact IH. }
  apply Equal_false in Heq. rewrite filter_cons_True by done. intros w Hw.
  destruct (getNode (bw_cluster w) node (na_id s)) as [rs|] eqn:Hn.
  - pose proof (get_view (na_id s) key c f g h w Hw) as Hget.
    change (on_blocks (HB := storage_env (na_id s)) (st_Get key) w) with (on_blocks (HB := block_env (na_id s)) (st_Get key) w).
    destruct (on_blocks _ w) as [w1 [d|e]]; destruct Hget as [Hw1 Hd]; [split; [done|]; by eapply (proj1 Ha)|].
    specialize (IH w1 Hw1). destruct (fetch_from node key succs w1) as [w2 [d|e']]; [done|].
    destruct IH as [Hw2 Hno]. split; [done|]. intros n [->|Hin]%elem_of_cons; [|by apply Hno].
    intros [_ Hs]. rewrite Hd in Hs. by inversion Hs.
  - specialize (IH w Hw). destruct (fetch_from node key succs w) as [w2 [d|e']]; [done|].
    destruct IH as [Hw2 Hno]. split; [done|]. intros n [->|Hin]%elem_of_cons; [|by apply Hno].
    intros [Hs _]. rewrite (v_cluster _ _ _ _ _ Hw) in Hn.
    destruct (connected_getNode c node (na_id s) Hc Hs). congruence.
Qed.

Lemma FetchBlock_reads self target key data c f g h :
  connected c -> na_id target ∈ dom c.(cl_nodes) -> agree f g key data ->
  reads c f g h key data (na_id target :: filter (.≠ na_id target) (na_id <$> (node_state (na_id target) c).(r_successorList)))
    (local_FetchBlock self target key).
Proof.
  intros Hc Ht Ha w Hw. unfold local_FetchBlock, BlockNet.at_node. rewrite (v_cluster _ _ _ _ _ Hw).
  destruct (connected_getNode c self (na_id target) Hc Ht) as [rt ->].
  refine (reads_or c f g h key data [_] _ _ _ (get_here_reads (na_id target) key data c f g h Ha) _ w Hw).
  intros w1 Hw1. unfold getRouting, mbind, M_bind, m_bind. cbn [routing_env localTransport ne_routing]. rewrite (v_cluster _ _ _ _ _ Hw1).
  exact (fetch_from_reads (na_id target) key data c f g h _ Hc Ha w1 Hw1).
Qed.

Lemma first_hit_reads n key data c f g h targets :
  connected c -> Forall (fun t => na_id t ∈ dom c.(cl_nodes)) targets -> agree f g key data ->
  reads c f g h key data (na_id <$> targets) (first_hit (HB := block_env n) key targets).
Proof.
  intros Hc Ht Ha. induction Ht as [|t targets Ht _ IH]; cbn [first_hit].
  { intros w Hw. split; [done|]. intros n' Hn. by apply elem_of_nil in Hn. }
  eapply triple_weaken; [exact (reads_or c f g h key data _ _ _ _ (FetchBlock_reads n t key data c f g h Hc Ht Ha) IH)|done|done|].
  intros w [Hw Hno]. split; [done|]. intros n' [->|Hn]%elem_of_cons; apply Hno; [set_solver|].
  apply elem_of_app. by right.
Qed.

(** ** Routing in a world with blocks *)

Lemma blocks_stabilized (w : world) self :
  stabilized_cluster w.(bw_cluster) -> connected w.(bw_cluster) ->
  @StabilizedNet _ (routing_env self) (dom w.(bw_cluster).(cl_nodes)) (fun n => node_state n w.(bw_cluster)) w.
Proof.
  intros Hst Hreach. destruct (localTransport_stabilized _ self Hst (Hreach self)) as [H1 H2]. split; [done|].
  intros t id Ht. cbn [routing_env tr_ClosestPrecedingNode]. unfold in_cluster. rewrite H2 by done. by destruct w.
Qed.

Lemma blocks_FindSuccessor (w : world) self key o :
  stabilized_cluster w.(bw_cluster) -> connected w.(bw_cluster) ->
  self ∈ dom w.(bw_cluster).(cl_nodes) -> key_owner (dom w.(bw_cluster).(cl_nodes)) key o ->
  exists a, @FindSuccessor _ (routing_env self) Background key w = (w, Ok a) /\ a.(na_id) = o.
Proof.
  intros Hst Hreach Hself Ho. pose proof (blocks_stabilized w self Hst Hreach) as Hnet.
  destruct (@FindSuccessor_ok _ (routing_env self) _ _ w Hnet Background self key) as (a & Ha & Hoa); [done..|].
  exists a. split; [done|]. by eapply key_owner_unique.
Qed.

(** Whether a routed operation runs here or at the owner. *)
Lemma route_Get (w : world) self key o :
  stabilized_cluster w.(bw_cluster) -> connected w.(bw_cluster) ->
  self ∈ dom w.(bw_cluster).(cl_nodes) -> key_owner (dom w.(bw_cluster).(cl_nodes)) (CIDToNodeID (Hash key)) o ->
  exists a, a.(na_id) = o /\
  node_Get (HN := routing_env self) (HB := block_env self) Background key w =
    (if decide (o = self) then
       res ← m_try (get_here (HB := block_env self) key);
       match res with
       | Ok d => m_ret d
       | Err _ => fun w => first_hit (HB := block_env self) key (w.(bw_arrival)
           (filterb (fun t => negb (Equal t.(na_id) (node_state self w.(bw_cluster)).(r_id)))
              (node_state self w.(bw_cluster)).(r_successorList))) w
       end
     else local_FetchBlock self a key) w.
Proof.
  intros Hst Hreach Hself Ho. destruct (blocks_FindSuccessor w self _ o Hst Hreach Hself Ho) as (a & Hfind & Hao).
  exists a. split; [done|]. unfold node_Get, getRouting, mbind, M_bind, m_bind, m_try. rewrite Hfind, Hao.
  cbn [routing_env localTransport ne_routing].
  assert (r_id (node_state self w.(bw_cluster)) = self) as ->.
  { apply elem_of_dom in Hself as [r Hr]. unfold node_state. rewrite Hr. by apply Hst. }
  case_decide as Hd; [rewrite (proj2 (Equal_true _ _) Hd)|by rewrite (proj2 (Equal_false _ _) Hd)].
  reflexivity.
Qed.

(** The backups of the owner, in the order in which they answer. *)
Lemma backups_reads c f g h key data o :
  stabilized_cluster c -> connected c -> o ∈ dom c.(cl_nodes) -> agree f g key data ->
  reads c f g h key data (filter (.≠ o) (na_id <$> (node_state o c).(r_successorList)))
    (fun w => first_hit (HB := block_env o) key (w.(bw_arrival)
      (filterb (fun t => negb (Equal t.(na_id) (node_state o w.(bw_cluster)).(r_id)))
         (node_state o w.(bw_cluster)).(r_successorList))) w).
Proof.
  intros Hst Hc Hin Ha w Hw. rewrite (v_cluster _ _ _ _ _ Hw).
  assert (stabilized (dom c.(cl_nodes)) o (node_state o c)) as [Hid _ Hl _ _].
  { apply elem_of_dom in Hin as [r Hr]. unfold node_state. rewrite Hr. by apply Hst. }
  rewrite Hid. set (l := filterb _ _). assert (forall t, t ∈ l <-> t ∈ r_successorList (node_state o c) /\ na_id t <> o) as Hlin.
  { intros t. unfold l. rewrite elem_of_filterb, negb_true_iff, Equal_false. tauto. }
  pose proof (v_arrival _ _ _ _ _ Hw l) as Hperm. rewrite Forall_forall in Hl.
  assert (Forall (fun t => na_id t ∈ dom c.(cl_nodes)) (bw_arrival w l)) as Hall.
  { apply Forall_forall. intros t Ht. rewrite Hperm in Ht. apply Hlin in Ht as [Ht _]. by apply Hl. }
  pose proof (first_hit_reads o key data c f g h _ Hc Hall Ha w Hw) as Hhit.
  destruct (first_hit _ _ _) as [w' [d|e]]; [done|]. destruct Hhit as [Hw' Hno]. split; [done|].
  intros n [Hne (t & -> & Ht)%list_elem_of_fmap]%list_elem_of_filter. apply Hno, list_elem_of_fmap. exists t.
  split; [done|]. rewrite Hperm. by apply Hlin.
Qed.

(** A get at any member finds a block that its owner stores, or one of the owner's backups. *)
Lemma Get_found c f g h key data self o n :
  stabilized_cluster c -> connected c -> self ∈ dom c.(cl_nodes) ->
  key_owner (dom c.(cl_nodes)) (CIDToNodeID (Hash key)) o -> agree f g key data ->
  n = o \/ n ∈ na_id <$> (node_state o c).(r_successorList) -> serves c f key n ->
  succeeds (view c f g h) (node_Get (HN := routing_env self) (HB := block_env self) Background key)
    (fun d w => view c f g h w /\ d = data).
Proof.
  intros Hst Hc Hself Ho Ha Hn Hs w Hw. pose proof (v_cluster _ _ _ _ _ Hw) as Hcl.
  destruct (route_Get w self key o) as (a & Hao & ->); [by rewrite Hcl..|].
  assert (n ∈ [o] ++ filter (.≠ o) (na_id <$> r_successorList (node_state o c))) as Hin.
  { apply elem_of_app. rewrite list_elem_of_singleton, list_elem_of_filter. destruct (decide (n = o)); naive_solver. }
  assert (o ∈ dom (cl_nodes c)) as HoR by apply Ho. case_decide as Hd.
  - subst self. refine (reads_found c f g h key data _ _ n _ Hin Hs w Hw).
    apply reads_or; [by apply get_here_reads|by apply backups_reads].
  - refine (reads_found c f g h key data _ _ n _ Hin Hs w Hw). rewrite <- Hao in HoR |- *. by apply FetchBlock_reads.
Qed.

(** [Has] at any member answers for the owner. *)
Lemma Has_found c f g h key self o :
  stabilized_cluster c -> connected c -> self ∈ dom c.(cl_nodes) ->
  key_owner (dom c.(cl_nodes)) (CIDToNodeID (Hash key)) o -> serves c f key o ->
  succeeds (view c f g h) (node_Has (HN := routing_env self) (HB := block_env self) Background key)
    (fun b w => view c f g h w /\ b = true).
Proof.
  intros Hst Hc Hself Ho Hs w Hw. pose proof (v_cluster _ _ _ _ _ Hw) as Hcl.
  destruct (blocks_FindSuccessor w self (CIDToNodeID (Hash key)) o) as (a & Hfind & Hao); [by rewrite Hcl..|].
  unfold node_Has, getRouting, mbind, M_bind, m_bind, m_try. rewrite Hfind, Hao. cbn [routing_env localTransport ne_routing].
  rewrite Hcl. destruct Hs as [HoR Hs].
  assert (forall n w, n = o -> view c f g h w -> exists w', on_blocks (HB := block_env n) (st_Has key) w = (w', Ok true) /\ view c f g h w') as Hhas.
  { intros n w0 -> Hw0. destruct (succeeds_final _ _ _ w0 (has_view o key c f g h) Hw0) as (b & w' & Hrun & Hw' & ->).
    exists w'. split; [|done]. rewrite Hrun. by rewrite bool_decide_eq_true_2. }
  assert (r_id (node_state self c) = self) as ->.
  { apply elem_of_dom in Hself as [r Hr]. unfold node_state. rewrite Hr. by apply Hst. }
  destruct (Equal o self) eqn:Heq.
  - apply Equal_true in Heq. destruct (Hhas self w) as (w' & -> & Hw'); done.
  - cbn [block_env bt_HasBlock]. unfold local_HasBlock, BlockNet.at_node. rewrite Hcl, Hao.
    destruct (connected_getNode c self o Hc HoR) as [r ->].
    unfold serve_HasBlock, mbind, M_bind, m_bind, m_try, target_env.
    change (on_blocks (HB := storage_env o) (st_Has key) w) with (on_blocks (HB := block_env o) (st_Has key) w).
    destruct (Hhas o w) as (w' & -> & Hw'); done.
Qed.

(** ** Storing *)

Lemma store_view n key data root exp c f g h :
  addressed (Hash key) data -> has_room data (f n) ->
  triple (view c f g h) (store_block (HB := block_env n) key data root exp)
    (fun _ => view c (fupd n (insert_new (Hash key) data (f n)) f) g h) (view c f g h).
Proof.
  intros Hd Hr w Hw. unfold store_block, ring_or. cbn [be_node be_now block_env].
  set (x := via (st_Put key data) (PutWithRoot (bw_now w) (bn_ringID (block_node n w)) key data (cid_String <$> root) exp)).
  assert (triple (nb_at (f n)) x (fun _ nb => nb_at (insert_new (Hash key) data (f n)) nb /\ True) (fun nb => nb_at (f n) nb /\ True)) as Hx.
  { apply via_triple.
    + eapply triple_weaken; [exact (st_Put_law key data (f n) Hd Hr)|done|by intros ?? []|by intros ? []].
    + intros s [_ Hs]. pose proof (PutWithRoot_blocks (bw_now w) (bn_ringID (block_node n w)) key data (cid_String <$> root) exp (f n) s Hs) as H.
      by destruct (PutWithRoot _ _ _ _ _ _ s) as [s' [u|e]]. }
  pose proof (on_blocks_view n x c f g h _ _ _ _ Hx w Hw) as Hrun.
  destruct (on_blocks _ w) as [w' [u|e]]; destruct Hrun as [Hw' _]; [exact Hw'|].
  eapply view_ext; [..|exact Hw']; [|done]. intros n'. apply fupd_same.
Qed.

(** The pushes in flight after one is started for every target that the semaphore admits. *)
Definition started (targets : list NodeAddr) (b : carried) (q : pushes) : pushes :=
  foldl (fun q t => if (length q <? defaultReplicationConcurrency)%nat then q ++ [(t, b)] else q) q targets.

Lemma start_push_view n t b c f g h :
  succeeds (view c f g h) (start_push (HB := block_env n) t b) (fun _ => view c f g (fupd n (started [t] b (h n)) h)).
Proof.
  intros w [H1 H2 H3 H4 H5]. unfold start_push, modifyNode, started. cbn [be_node be_set_node block_env foldl].
  rewrite H4. destruct (_ <? _)%nat;
    (split; [done|intros n'; rewrite block_node_set; unfold fupd; case_decide; subst; cbn; rewrite ?H4; auto..|done]).
Qed.

Lemma fupd_fupd {A} n (x y : A) f n' : fupd n y (fupd n x f) n' = fupd n y f n'.
Proof. unfold fupd. by case_decide. Qed.

Lemma fupd_eq {A} n (x : A) f : fupd n x f n = x.
Proof. unfold fupd. by case_decide. Qed.

Lemma fupd_ne {A} n n' (x : A) f : n' <> n -> fupd n x f n' = f n'.
Proof. unfold fupd. by case_decide. Qed.

(** The pushes of a put at [o]. *)
Definition put_pushes (r : Routing) (b : carried) (q : pushes) : pushes :=
  if r.(r_replication) <=? 1 then q else started (replica_targets r) b q.

Lemma replicateAsync_view n key data root exp c f g h :
  succeeds (view c f g h) (replicateAsync (HN := routing_env n) (HB := block_env n) key data root exp)
    (fun _ => view c f g (fupd n (put_pushes (node_state n c) (mkCarried key data (roots_of_put root exp)) (h n)) h)).
Proof.
  unfold replicateAsync. eapply (succeeds_bind_fact _ (view c f g h) (fun r => r = node_state n c)).
  { intros w Hw. split; [done|]. cbn. by rewrite (v_cluster _ _ _ _ _ Hw). }
  intros r ->. unfold put_pushes. destruct (_ <=? 1).
  { apply succeeds_ret. intros w Hw. eapply view_ext; [..|exact Hw]; [done|]. intros n'. by rewrite fupd_same. }
  generalize (replica_targets (node_state n c)) as ts. intros ts. revert h.
  induction ts as [|t ts IH]; intros h; cbn [m_forM].
  { apply succeeds_ret. intros w Hw. eapply view_ext; [..|exact Hw]; [done|]. intros n'. symmetry. apply (fupd_same n h n'). }
  eapply succeeds_bind; [apply start_push_view|]. intros ?. eapply succeeds_weaken; [apply IH|done|].
  intros [] w Hw. eapply view_ext; [..|exact Hw]; [done|]. intros n'. by rewrite fupd_fupd, fupd_eq.
Qed.

(** When the owner takes the block, a put at any member stores it there and starts the pushes. *)
Lemma Put_accepted c f g h key data root exp self o w w1 :
  stabilized_cluster c -> connected c -> self ∈ dom c.(cl_nodes) ->
  key_owner (dom c.(cl_nodes)) (CIDToNodeID (Hash key)) o -> addressed (Hash key) data -> has_room data (f o) ->
  view c f g h w -> store_block (HB := block_env o) key data root exp w = (w1, Ok tt) ->
  exists w2, replicateAsync (HN := routing_env o) (HB := block_env o) key data root exp w1 = (w2, Ok tt) /\
    node_PutWithRoot (HN := routing_env self) (HB := block_env self) Background key data root exp w = (w2, Ok tt) /\
    view c (fupd o (insert_new (Hash key) data (f o)) f) g
      (fupd o (put_pushes (node_state o c) (mkCarried key data (roots_of_put root exp)) (h o)) h) w2.
Proof.
  intros Hst Hc Hself Ho Hd Hr Hw Hstore. pose proof (v_cluster _ _ _ _ _ Hw) as Hcl.
  pose proof (store_view o key data root exp c f g h Hd Hr w Hw) as Hw1. rewrite Hstore in Hw1.
  destruct (succeeds_final _ _ _ w1 (replicateAsync_view o key data root exp c _ g h) Hw1) as ([] & w2 & Hrep & Hw2).
  exists w2. split_and!; [done| |done].
  destruct (blocks_FindSuccessor w self (CIDToNodeID (Hash key)) o) as (a & Hfind & Hao); [by rewrite Hcl..|].
  unfold node_PutWithRoot, getRouting, mbind, M_bind, m_bind, m_try. rewrite Hfind, Hao. cbn [routing_env localTransport ne_routing].
  rewrite Hcl. assert (r_id (node_state self c) = self) as ->.
  { apply elem_of_dom in Hself as [r Hr']. unfold node_state. rewrite Hr'. by apply Hst. }
  destruct (Equal o self) eqn:Heq.
  - apply Equal_true in Heq. subst self. by rewrite Hstore.
  - cbn [block_env bt_PutBlock]. unfold local_PutBlock, BlockNet.at_node. rewrite Hcl, Hao.
    destruct (connected_getNode c self o Hc) as [r ->]; [apply Ho|].
    unfold serve_PutBlock, mbind, M_bind, m_bind, m_try.
    change (store_block (HB := BlockNet.serving_env o)) with (store_block (HB := block_env (S := S) (L := L) o)).
    change (replicateAsync (HN := routing_env o) (HB := BlockNet.serving_env o))
      with (replicateAsync (HN := routing_env o) (HB := block_env (S := S) (L := L) o)).
    by rewrite Hstore.
Qed.

(** ** Sound worlds *)

Definition stored (w : world) (n : NodeID) : gmap bytes bytes := nb_contents (block_node n w).(bn_blocks).
Definition kept_locally (w : world) (n : NodeID) : option (gmap bytes bytes) := contents <$> (block_node n w).(bn_localBlocks).
Definition in_flight (w : world) (n : NodeID) : pushes := (block_node n w).(bn_inFlight).

(** The stores satisfy their invariants and hold only data that matches its multihash, and
    every concurrent call is answered. *)
Record sound_world (w : world) : Prop := {
  sw_blocks n : nb_ok (block_node n w).(bn_blocks);
  sw_local n l : (block_node n w).(bn_localBlocks) = Some l -> st_ok l;
  sw_addressed n mh d : stored w n !! mh = Some d -> addressed mh d;
  sw_local_addressed n m mh d : kept_locally w n = Some m -> m !! mh = Some d -> addressed mh d;
  sw_arrival l : w.(bw_arrival) l ≡ₚ l
}.

Lemma sound_view w : sound_world w -> view w.(bw_cluster) (stored w) (kept_locally w) (in_flight w) w.
Proof.
  intros [H1 H2 H3 H4 H5]. split; [done|..|done]; [by split|..|done].
  intros n. unfold kept_locally, local_at. destruct (bn_localBlocks (block_node n w)) as [l|] eqn:Hl; [|done].
  cbn. split; [by apply (H2 n)|done].
Qed.

Lemma sound_agree w key data : sound_world w -> addressed (Hash key) data -> agree (stored w) (kept_locally w) key data.
Proof.
  intros Hw Hd. split; intros; (eapply addressed_fun; [|exact Hd]).
  - by eapply (sw_addressed w Hw).
  - by eapply (sw_local_addressed w Hw).
Qed.

Lemma agree_insert f g key data o :
  agree f g key data -> agree (fupd o (insert_new (Hash key) data (f o)) f) g key data.
Proof.
  intros [Hf Hg]. split; [|done]. intros n d. unfold fupd, insert_new. case_decide as Hn; [|apply Hf].
  subst n. destruct (f o !! Hash key) as [d'|] eqn:Hd; [intros; by apply (Hf o)|].
  rewrite lookup_insert_eq. by intros [= ->].
Qed.

Lemma insert_new_some (mh d : bytes) (m : gmap bytes bytes) : is_Some (insert_new mh d m !! mh).
Proof. unfold insert_new. destruct (m !! mh) as [d'|] eqn:Hd; [by exists d'|]. rewrite lookup_insert_eq. by exists d. Qed.

(** C17: in a stabilized ring whose links work, a block that its owner has room for, put at any
    member, is returned by a get and reported by a has at any member: put, get and has reach the
    same node, and content addressing excludes any other data for the key. *)
Theorem stored_block_is_found (w w1 : world) (key : cid) (data : bytes) (root : option cid) (exp : Z) (self o : NodeID) :
  stabilized_cluster w.(bw_cluster) -> connected w.(bw_cluster) -> sound_world w ->
  self ∈ dom w.(bw_cluster).(cl_nodes) ->
  key_owner (dom w.(bw_cluster).(cl_nodes)) (CIDToNodeID (Hash key)) o ->
  addressed (Hash key) data -> has_room data (stored w o) ->
  store_block (HB := block_env o) key data root exp w = (w1, Ok tt) ->
  exists w2,
    node_PutWithRoot (HN := routing_env self) (HB := block_env self) Background key data root exp w = (w2, Ok tt) /\
    forall reader, reader ∈ dom w.(bw_cluster).(cl_nodes) ->
      (exists w3, node_Get (HN := routing_env reader) (HB := block_env reader) Background key w2 = (w3, Ok data)) /\
      (exists w3, node_Has (HN := routing_env reader) (HB := block_env reader) Background key w2 = (w3, Ok true)).
Proof.
  intros Hst Hc Hw Hself Ho Hd Hr Hstore.
  destruct (Put_accepted _ _ _ _ key data root exp self o w w1 Hst Hc Hself Ho Hd Hr (sound_view w Hw) Hstore)
    as (w2 & _ & Hput & Hw2).
  exists w2. split; [exact Hput|]. intros reader Hreader.
  assert (serves (bw_cluster w) (fupd o (insert_new (Hash key) data (stored w o)) (stored w)) key o) as Hs.
  { split; [apply Ho|]. rewrite fupd_eq. apply insert_new_some. }
  pose proof (agree_insert _ _ key data o (sound_agree w key data Hw Hd)) as Ha. split.
  - destruct (succeeds_final _ _ _ w2 (Get_found _ _ _ _ key data reader o o Hst Hc Hreader Ho Ha (or_introl eq_refl) Hs) Hw2)
      as (d & w3 & Hget & _ & ->). by exists w3.
  - destruct (succeeds_final _ _ _ w2 (Has_found _ _ _ _ key reader o Hst Hc Hreader Ho Hs) Hw2) as (b & w3 & Hhas & _ & ->).
    by exists w3.
Qed.

(** ** Pushes *)

(** Indexing more roots of a block leaves the blocks alone. *)
Lemma index_roots_view t key l c f g h :
  succeeds (view c f g h)
    (m_forM l (fun nr => ring_or (HB := storage_env t) (fun ring _ =>
       _ ← AddRootWithExpiry ring nr.(re_CID) nr.(re_ExpiresAt);
       AddBlockRootIndex ring key nr.(re_CID)) (m_ret tt)))
    (fun _ => view c f g h).
Proof.
  apply (succeeds_forM (fun _ => view c f g h)). intros _ nr _ _ w Hw. unfold ring_or. cbn [be_node be_now storage_env].
  set (x := via _ _).
  assert (triple (nb_at (f t)) x (fun _ nb => nb_at (f t) nb /\ True) (fun nb => nb_at (f t) nb /\ False)) as Hx.
  { apply via_triple; [by intros s Hs|]. intros s [_ Hs].
    set (y := mbind _ _). assert (keeps (holding (f t)) y (fun _ => True)) as Hk.
    { unfold y. eapply keeps_bind; [apply keeps_AddRootWithExpiry; split; done|].
      intros _ _. apply keeps_AddBlockRootIndex. by split. }
    assert (never_fails y) as Hn.
    { unfold y. apply never_bind; [apply never_AddRootWithExpiry|]. intros _. unfold AddBlockRootIndex, dsPut_, addUsageDelta, modifyRing.
      never_auto; eauto using never_blockSize, never_ringHasBlock, never_getRingCounters, never_addCIDUsage, never_markRingKnown. }
    specialize (Hk s Hs). destruct (Hn s) as [u Hu]. destruct (y s) as [s' [u'|e]]; [by destruct Hk|done]. }
  pose proof (on_blocks_view t x c f g h _ _ _ _ Hx w Hw) as Hrun.
  change (on_blocks (HB := storage_env t) x w) with (on_blocks (HB := block_env t) x w).
  destruct (on_blocks _ w) as [w' [u|e]]; destruct Hrun as [Hw' Hf]; [|done].
  eapply view_ext; [..|exact Hw']; [|done]. intros n'. apply fupd_same.
Qed.

Lemma put_view n key data c f g h :
  addressed (Hash key) data -> has_room data (f n) ->
  triple (view c f g h) (on_blocks (HB := block_env n) (st_Put key data))
    (fun _ => view c (fupd n (insert_new (Hash key) data (f n)) f) g h) (view c f g h).
Proof.
  intros Hd Hr. eapply triple_weaken; [apply (on_blocks_view n _ c f g h (fun _ => insert_new (Hash key) data (f n)) (fun _ => True) (f n) True)|done|..].
  - eapply triple_weaken; [exact (st_Put_law (S := nodeBlocks (S := S)) key data (f n) Hd Hr)|done|done|done].
  - by intros _ w [Hw _].
  - intros w [Hw _]. eapply view_ext; [..|exact Hw]; [|done]. intros n'. apply fupd_same.
Qed.

Lemma accept_view t b c f g h :
  addressed (Hash b.(ca_key)) b.(ca_data) -> has_room b.(ca_data) (f t) ->
  triple (view c f g h) (accept_block t b)
    (fun ok => if (ok : bool) then view c (fupd t (insert_new (Hash b.(ca_key)) b.(ca_data) (f t)) f) g h else view c f g h)
    (view c f g h).
Proof.
  intros Hd Hr. unfold accept_block, target_env. eapply (triple_bind _ _ _ (fun _ => view c f g h)); [exact (fun w Hw => Hw)|]. intros n. cbv zeta.
  set (root := match ca_roots b with [] => None | _ => _ end). clearbody root.
  eapply triple_bind.
  { apply (triple_try _ _ (fun _ => view c (fupd t (insert_new (Hash b.(ca_key)) b.(ca_data) (f t)) f) g h) (view c f g h)).
    destruct root as [[rc ex]|].
    - exact (store_view t _ _ (Some rc) ex c f g h Hd Hr).
    - exact (put_view t _ _ c f g h Hd Hr). }
  intros [u|e]; [|destruct (IsStorageFull e); [by apply triple_ret|by apply triple_err]].
  apply (triple_bind _ _ _ (fun _ => view c (fupd t (insert_new (Hash b.(ca_key)) b.(ca_data) (f t)) f) g h)); [|intros ?; by apply triple_ret].
  destruct root as [[rc ex]|]; [|by apply triple_ret].
  eapply triple_weaken; [apply index_roots_view|done|done|done].
Qed.

(** A push of one block, accepted or not. *)
Lemma PushBlock_view t b c f g h w w' r :
  addressed (Hash b.(ca_key)) b.(ca_data) -> has_room b.(ca_data) (f t) -> view c f g h w ->
  serve_PushBlocks t [b] w = (w', r) ->
  view c (if is_ok r then fupd t (insert_new (Hash b.(ca_key)) b.(ca_data) (f t)) f else f) g h w'.
Proof.
  intros Hd Hr Hw. pose proof (accept_view t b c f g h Hd Hr w Hw) as Hrun.
  unfold serve_PushBlocks. cbn [accept_blocks]. unfold mbind, M_bind, m_bind.
  destruct (accept_block t b w) as [w1 [[]|e]]; intros [= <- <-]; done.
Qed.

(** A run that changes no node but [n]. *)
Definition touches {A} (n : NodeID) (x : M world A) : Prop :=
  forall w, (x w).1.(bw_now) = w.(bw_now) /\ forall n', n' <> n -> block_node n' (x w).1 = block_node n' w.

Lemma touches_bind {A B} n (x : M world A) (k : A -> M world B) :
  touches n x -> (forall a, touches n (k a)) -> touches n (mbind k x).
Proof.
  intros Hx Hk w. unfold mbind, M_bind, m_bind. specialize (Hx w). destruct (x w) as [w' [a|e]]; [|done].
  destruct Hx as [Hnow Hx], (Hk a w') as [Hnow' Hka]. cbn [fst] in *. split; [congruence|].
  intros n' Hn'. by rewrite Hka, Hx.
Qed.

Lemma touches_ret {A} n (a : A) : touches n (m_ret a).
Proof. by intros w. Qed.

Lemma touches_forM {A} n (l : list A) (x : A -> M world unit) :
  (forall a, touches n (x a)) -> touches n (m_forM l x).
Proof. intros Hx. induction l as [|a l IH]; cbn [m_forM]; [apply touches_ret|]. by apply touches_bind; [|intros ?]. Qed.

Lemma touches_try {A} n (x : M world A) : touches n x -> touches n (m_try x).
Proof. intros Hx w. unfold m_try. specialize (Hx w). by destruct (x w) as [w' r]. Qed.

Lemma touches_set n (w : world) b : (bw_set_node n b w).(bw_now) = w.(bw_now) /\
  forall n', n' <> n -> block_node n' (bw_set_node n b w) = block_node n' w.
Proof. split; [done|]. intros n' Hn'. rewrite block_node_set. by case_decide. Qed.

Lemma touches_on_blocks {A} n (x : M (nodeBlocks (S := S)) A) : touches n (on_blocks (HB := block_env n) x).
Proof. intros w. unfold on_blocks. destruct (x _) as [nb r]. apply touches_set. Qed.

Lemma touches_modifyNode n F : touches n (modifyNode (HB := block_env n) F).
Proof. intros w. apply touches_set. Qed.

Lemma touches_ring_or {A} n (x : string -> Z -> M NBS A) (y : M S A) : touches n (ring_or (HB := block_env n) x y).
Proof. intros w. apply touches_on_blocks. Qed.

Lemma touches_store n key data root exp : touches n (store_block (HB := block_env n) key data root exp).
Proof. apply touches_ring_or. Qed.

Lemma touches_replicate n key data root exp :
  touches n (replicateAsync (HN := routing_env n) (HB := block_env n) key data root exp).
Proof.
  unfold replicateAsync. apply touches_bind; [by intros w|]. intros r. destruct (_ <=? 1); [apply touches_ret|].
  apply touches_forM. intros t. apply touches_modifyNode.
Qed.

Lemma touches_PushBlocks n l : touches n (serve_PushBlocks n l).
Proof.
  unfold serve_PushBlocks. apply touches_bind; [|by intros [|m]; [destruct l|]].
  generalize 0%nat. induction l as [|b l IH]; intros m; cbn [accept_blocks]; [apply touches_ret|].
  apply touches_bind; [|intros ok; apply IH]. unfold accept_block, target_env. apply touches_bind; [by intros w|].
  intros nd. cbv zeta. set (root := match ca_roots b with [] => None | _ => _ end). clearbody root. apply touches_bind.
  - apply touches_try. destruct root as [[rc ex]|]; [apply touches_store|apply touches_on_blocks].
  - intros [u|e]; [|by destruct (IsStorageFull e)]. apply touches_bind; [|intros ?; apply touches_ret].
    destruct root as [[rc ex]|]; [|apply touches_ret]. apply touches_forM. intros nr. apply touches_ring_or.
Qed.

(** ** Completing replication *)

Lemma delete_out {A} (l : list A) i : l !! i = None -> delete i l = l.
Proof. revert i. induction l as [|x l IH]; intros [|i]; cbn; [done..|]. intros Hi. f_equal. by apply IH. Qed.

Lemma deleted_elem {A} (l : list A) i x y : NoDup l -> l !! i = Some x -> (y ∈ delete i l <-> y ∈ l /\ y <> x).
Proof.
  intros Hl Hi. apply delete_Permutation in Hi as Hp. rewrite Hp in Hl. apply NoDup_cons in Hl as [Hx Hl].
  assert (y ∈ l <-> y ∈ x :: delete i l) as -> by (by rewrite <- Hp). rewrite elem_of_cons. naive_solver.
Qed.

Section Replication.
Context (w0 : world) (o : NodeID) (b : carried) (targets : list NodeAddr).
Context (Hc : connected w0.(bw_cluster)).
Context (Hmembers : Forall (fun t => na_id t ∈ dom w0.(bw_cluster).(cl_nodes) /\ na_id t <> o) targets).
Context (Hdistinct : NoDup (na_id <$> targets)).
Context (Hb : addressed (Hash b.(ca_key)) b.(ca_data)).
Context (Hroom : forall t, t ∈ targets -> has_room b.(ca_data) (stored w0 (na_id t))).

(** A target takes the block as long as its own storage is as at the start. *)
Definition takes (t : NodeAddr) : Prop :=
  forall w, w.(bw_now) = w0.(bw_now) -> block_node (na_id t) w = block_node (na_id t) w0 ->
    exists w', serve_PushBlocks (na_id t) [b] w = (w', Ok tt).

(** Every push in flight is to a target that is as it was; every other target that takes the block
    has it. *)
Record replicating (w : world) : Prop := {
  re_now : w.(bw_now) = w0.(bw_now);
  re_view : view w0.(bw_cluster) (stored w) (kept_locally w) (in_flight w) w;
  re_agree : agree (stored w) (kept_locally w) b.(ca_key) b.(ca_data);
  re_sub : exists ts, in_flight w o = (., b) <$> ts /\ ts ⊆+ targets;
  re_waiting t : t ∈ targets -> (t, b) ∈ in_flight w o -> block_node (na_id t) w = block_node (na_id t) w0;
  re_done t : t ∈ targets -> takes t -> (t, b) ∉ in_flight w o -> stored w (na_id t) !! Hash b.(ca_key) = Some b.(ca_data)
}.

Lemma view_self c f g h w : view c f g h w -> view c (stored w) (kept_locally w) (in_flight w) w.
Proof.
  intros [H1 H2 H3 H4 H5]. split; [done|intros n..|done]; [split; [apply H2|done]| |done].
  specialize (H3 n). unfold local_at, kept_locally in *. destruct (bn_localBlocks _) as [l|], (g n); cbn; naive_solver.
Qed.

Lemma view_stored c f g h w n : view c f g h w -> stored w n = f n.
Proof. intros Hw. apply (v_blocks _ _ _ _ _ Hw n). Qed.

Lemma view_kept c f g h w n : view c f g h w -> kept_locally w n = g n.
Proof.
  intros Hw. pose proof (v_local _ _ _ _ _ Hw n) as H. unfold local_at, kept_locally in *.
  destruct (bn_localBlocks _) as [l|], (g n); cbn; naive_solver congruence.
Qed.

Lemma agree_view c f g h w key data : view c f g h w -> agree f g key data -> agree (stored w) (kept_locally w) key data.
Proof.
  intros Hw [Hf Hg]. split; [intros n d|intros n m d].
  - rewrite (view_stored _ _ _ _ _ n Hw). apply Hf.
  - rewrite (view_kept _ _ _ _ _ n Hw). apply Hg.
Qed.

(** What runs when the [i]-th push is taken from the queue. *)
Lemma finish_push_run w i t ts :
  replicating w -> in_flight w o = (., b) <$> ts -> ts !! i = Some t -> t ∈ targets ->
  exists w1 w2 r, finish_push (HB := block_env o) i w = (w2, Ok tt) /\
    view w0.(bw_cluster) (stored w) (kept_locally w) (fupd o ((., b) <$> delete i ts) (in_flight w)) w1 /\
    (forall n, n <> o -> block_node n w1 = block_node n w) /\ w1.(bw_now) = w0.(bw_now) /\
    serve_PushBlocks (na_id t) [b] w1 = (w2, r) /\ (takes t -> r = Ok tt).
Proof.
  intros Hw Hq Hi Ht. set (w1 := (modifyNode (HB := block_env o) (fun n => bn_set_inFlight (delete i n.(bn_inFlight)) n) w).1).
  assert (view w0.(bw_cluster) (stored w) (kept_locally w) (fupd o ((., b) <$> delete i ts) (in_flight w)) w1) as Hw1.
  { destruct (re_view w Hw) as [H1 H2 H3 H4 H5]. unfold w1, modifyNode. cbn [be_node be_set_node block_env fst].
    split; [done|intros n'; rewrite block_node_set; unfold fupd; case_decide; subst; cbn; auto..|done].
    rewrite H4, Hq. by rewrite list_fmap_delete. }
  assert (block_node (na_id t) w1 = block_node (na_id t) w) as Hsame.
  { apply (touches_modifyNode o). rewrite Forall_forall in Hmembers. by apply Hmembers. }
  destruct (serve_PushBlocks (na_id t) [b] w1) as [w2 r] eqn:Hserve.
  exists w1, w2, r. split_and!; [|done|intros n Hn; by apply (touches_modifyNode o)|apply (re_now w Hw)|done|].
  2: { intros Htake. destruct (Htake w1) as (w2' & Hserve'); [apply (re_now w Hw)| |congruence].
       rewrite Hsame. apply (re_waiting w Hw t Ht). rewrite Hq. apply list_elem_of_fmap. exists t.
       split; [done|]. by eapply list_elem_of_lookup_2. }
  unfold finish_push, mbind, M_bind, m_bind, getNode_. cbn [be_node block_env]. fold (in_flight w o).
  change (bn_inFlight (block_node o w)) with (in_flight w o). rewrite Hq, list_lookup_fmap, Hi. cbn [fmap option_fmap option_map].
  change (modifyNode _ w) with (w1, @Ok unit tt). cbv iota beta. cbn [block_env bt_PushBlocks].
  unfold m_ignore, local_PushBlocks, BlockNet.at_node. rewrite (v_cluster _ _ _ _ _ Hw1). rewrite Forall_forall in Hmembers.
  destruct (connected_getNode _ o (na_id t) Hc (proj1 (Hmembers t Ht))) as [rt ->]. by rewrite Hserve.
Qed.

Lemma targets_inj t t' : t ∈ targets -> t' ∈ targets -> na_id t = na_id t' -> t = t'.
Proof.
  intros [i Hi]%list_elem_of_lookup [j Hj]%list_elem_of_lookup Hid.
  assert (i = j) as ->; [|congruence]. eapply (NoDup_lookup _ i j (na_id t) Hdistinct); rewrite list_lookup_fmap.
  - by rewrite Hi.
  - by rewrite Hj, Hid.
Qed.

(** Any push that runs. *)
Lemma finish_push_replicating i q :
  succeeds (fun w => replicating w /\ in_flight w o = q) (finish_push (HB := block_env o) i)
    (fun _ w => replicating w /\ in_flight w o = delete i q).
Proof.
  apply succeeds_intro. intros w [Hw <-]. destruct (re_sub w Hw) as (ts & Hq & Hts).
  destruct (ts !! i) as [t|] eqn:Hi.
  2: { exists tt, w. split.
       2: { split; [done|]. by rewrite Hq, <- list_fmap_delete, delete_out. }
       unfold finish_push, mbind, M_bind, m_bind, getNode_. cbn [be_node block_env].
       change (bn_inFlight (block_node o w)) with (in_flight w o). by rewrite Hq, list_lookup_fmap, Hi. }
  assert (forall x, x ∈ ts -> x ∈ targets) as Hsub by (intros x Hx; by eapply elem_of_submseteq).
  assert (t ∈ targets) as Ht by (apply Hsub; by eapply list_elem_of_lookup_2).
  assert (NoDup ts) as Hnd.
  { destruct (submseteq_Permutation _ _ Hts) as [k Hk]. pose proof (NoDup_fmap_1 _ _ Hdistinct) as Hnd.
    rewrite Hk in Hnd. by apply NoDup_app in Hnd as [? _]. }
  destruct (finish_push_run w i t ts Hw Hq Hi Ht) as (w1 & w2 & r & Hrun & Hw1 & Hsame & Hnow & Hserve & Hr_ok).
  assert (has_room b.(ca_data) (stored w (na_id t))) as Hr.
  { unfold stored. rewrite (re_waiting w Hw t Ht); [by apply Hroom|]. rewrite Hq. apply list_elem_of_fmap.
    exists t. split; [done|]. by eapply list_elem_of_lookup_2. }
  pose proof (PushBlock_view (na_id t) b _ _ _ _ w1 w2 r Hb Hr Hw1 Hserve) as Hw2.
  pose proof (touches_PushBlocks (na_id t) [b] w1) as [Hnow2 Hother]. rewrite Hserve in Hnow2, Hother. cbn [fst] in *.
  exists tt, w2. split; [exact Hrun|]. 
  assert (in_flight w2 o = (., b) <$> delete i ts) as Hq2 by (unfold in_flight; by rewrite (v_flight _ _ _ _ _ Hw2), fupd_eq).
  assert (agree (stored w2) (kept_locally w2) b.(ca_key) b.(ca_data)) as Hag
    by (eapply agree_view; [exact Hw2|]; destruct (is_ok r); [apply agree_insert|]; by apply re_agree).
  assert (forall t', (t', b) ∈ in_flight w2 o <-> t' ∈ ts /\ t' <> t) as Hmem.
  { intros t'. rewrite Hq2, list_elem_of_fmap, <- (deleted_elem ts i t t' Hnd Hi). naive_solver. }
  split; [|by rewrite Hq2, Hq, list_fmap_delete]. split; [congruence|by eapply view_self|done|..].
  - exists (delete i ts). split; [done|]. etrans; [apply sublist_submseteq, sublist_delete|done].
  - intros t' Ht' [Hin Hne]%Hmem. rewrite Hother by (intros Hid; apply Hne; by apply targets_inj).
    rewrite Hsame by (rewrite Forall_forall in Hmembers; by apply Hmembers).
    apply (re_waiting w Hw t' Ht'). rewrite Hq. apply list_elem_of_fmap. naive_solver.
  - intros t' Ht' Htake Hno. rewrite (view_stored _ _ _ _ _ _ Hw2). destruct (decide (t' = t)) as [->|Hne].
    + rewrite (Hr_ok Htake) in *. cbn [is_ok] in *. rewrite fupd_eq. destruct (insert_new_some (Hash (ca_key b)) (ca_data b) (stored w (na_id t))) as [d Hd].
      rewrite Hd. f_equal. apply (proj1 Hag (na_id t)). by rewrite (view_stored _ _ _ _ _ _ Hw2), fupd_eq.
    + assert ((if is_ok r then fupd (na_id t) (insert_new (Hash (ca_key b)) (ca_data b) (stored w (na_id t))) (stored w) else stored w) (na_id t')
        = stored w (na_id t')) as ->
        by (destruct (is_ok r); [apply fupd_ne; intros Hid; apply Hne; by apply targets_inj|done]).
      apply (re_done w Hw t' Ht' Htake). rewrite Hq. intros (x & [= <-] & Hx)%list_elem_of_fmap. apply Hno, Hmem. done.
Qed.

(** Pushes run in any order, and as many as there are targets empty the queue. *)
Lemma pushes_replicating order q :
  succeeds (fun w => replicating w /\ in_flight w o = q) (m_forM order (finish_push (HB := block_env o)))
    (fun _ w => replicating w /\ in_flight w o = foldl (fun q i => delete i q) q order).
Proof.
  revert q. induction order as [|i order IH]; intros q; cbn [m_forM foldl]; [by apply succeeds_ret|].
  eapply succeeds_bind; [apply finish_push_replicating|]. intros ?. apply IH.
Qed.

Lemma drained {A} (q : list A) : foldl (fun q i => delete i q) q (replicate (length q) 0%nat) = [].
Proof. by induction q as [|x q IH]. Qed.

End Replication.

(** The semaphore admits the first targets, up to its capacity. *)
Lemma started_all ts b q :
  (length q <= defaultReplicationConcurrency)%nat ->
  started ts b q = q ++ ((., b) <$> take (defaultReplicationConcurrency - length q) ts).
Proof.
  revert q. induction ts as [|t ts IH]; intros q Hlen; unfold started in *; cbn [foldl].
  { by rewrite take_nil, app_nil_r. }
  destruct (Nat.ltb_spec (length q) defaultReplicationConcurrency) as [Hlt|Hge].
  - rewrite IH by (rewrite length_app; cbn; lia). rewrite length_app. cbn [length].
    destruct (defaultReplicationConcurrency - length q)%nat as [|k] eqn:Hk; [lia|].
    replace (defaultReplicationConcurrency - (length q + 1))%nat with k by lia. by rewrite <- app_assoc.
  - rewrite IH by done. replace (defaultReplicationConcurrency - length q)%nat with 0%nat by lia. by rewrite !take_0.
Qed.

Lemma put_pushes_all r b :
  put_pushes r b [] = (., b) <$> take defaultReplicationConcurrency (replica_targets r).
Proof.
  unfold put_pushes. destruct (Z.leb_spec r.(r_replication) 1).
  - unfold replica_targets. by rewrite (Z2Nat.nonpos (_ - 1)) by lia.
  - rewrite started_all by (cbn; lia). by rewrite Nat.sub_0_r.
Qed.

Lemma targets_members c o t :
  stabilized_cluster c -> o ∈ dom c.(cl_nodes) -> t ∈ replica_targets (node_state o c) ->
  na_id t ∈ dom c.(cl_nodes) /\ na_id t <> o.
Proof.
  intros Hst Hin. assert (stabilized (dom c.(cl_nodes)) o (node_state o c)) as [Hid _ Hl _ _].
  { apply elem_of_dom in Hin as [r Hr]. unfold node_state. rewrite Hr. by apply Hst. }
  unfold replica_targets. rewrite elem_of_filterb, negb_true_iff, Equal_false, Hid. intros [Hne Ht].
  split; [|done]. rewrite Forall_forall in Hl. apply Hl. by eapply subseteq_take.
Qed.

(** C18: a put at any member of a stabilized ring starts pushes to the owner's replica targets, as
    far as the semaphore of the owner has slots: when no push was in flight before, to the first 64 of
    them. The pushes may run in any order, and none disturbs another. Once the queue is empty, every
    one of these targets that takes the block in the state it was in at the start holds it, whatever
    the others answered; and as many runs as there are targets empty the queue. The owner accepts the
    block, the targets are distinct, and sums of sizes stay below 2^63. *)
Theorem replication_completes (w w1 : world) (key : cid) (data : bytes) (root : option cid) (exp : Z) (self o : NodeID) :
  let c := w.(bw_cluster) in
  let targets := take defaultReplicationConcurrency (replica_targets (node_state o c)) in
  let b := mkCarried key data (roots_of_put root exp) in
  stabilized_cluster c -> connected c -> sound_world w -> self ∈ dom c.(cl_nodes) ->
  key_owner (dom c.(cl_nodes)) (CIDToNodeID (Hash key)) o -> addressed (Hash key) data ->
  has_room data (stored w o) -> store_block (HB := block_env o) key data root exp w = (w1, Ok tt) ->
  in_flight w o = [] -> NoDup (na_id <$> targets) ->
  (forall t, t ∈ targets -> has_room data (stored w (na_id t))) ->
  exists w2,
    node_PutWithRoot (HN := routing_env self) (HB := block_env self) Background key data root exp w = (w2, Ok tt) /\
    in_flight w2 o = (., b) <$> targets /\
    (forall order, exists w3, m_forM order (finish_push (HB := block_env o)) w2 = (w3, Ok tt) /\
       (in_flight w3 o = [] -> forall t, t ∈ targets -> takes w b t -> stored w3 (na_id t) !! Hash key = Some data)) /\
    (exists w3, m_forM (replicate (length targets) 0%nat) (finish_push (HB := block_env o)) w2 = (w3, Ok tt) /\
       in_flight w3 o = []).
Proof.
  intros c targets b Hst Hc Hw Hself Ho Hd Hr Hstore Hq Hnd Hroom.
  destruct (Put_accepted _ _ _ _ key data root exp self o w w1 Hst Hc Hself Ho Hd Hr (sound_view w Hw) Hstore)
    as (w2 & Hrep & Hput & Hw2).
  pose proof (touches_store o key data root exp w) as [Hn1 Ht1]. rewrite Hstore in Hn1, Ht1.
  pose proof (touches_replicate o key data root exp w1) as [Hn2 Ht2]. rewrite Hrep in Hn2, Ht2. cbn [fst] in *.
  assert (Forall (fun t => na_id t ∈ dom c.(cl_nodes) /\ na_id t <> o) targets) as Hmem.
  { apply Forall_forall. intros t Ht. apply targets_members; [done|apply Ho|]. by eapply subseteq_take. }
  assert (in_flight w2 o = (., b) <$> targets) as Hq2.
  { unfold in_flight. rewrite (v_flight _ _ _ _ _ Hw2), fupd_eq, Hq. by apply put_pushes_all. }
  assert (replicating w o b targets w2) as Hw2'.
  { split; [congruence|by eapply view_self|..].
    - eapply agree_view; [exact Hw2|]. by apply agree_insert, sound_agree.
    - by exists targets.
    - intros t Ht _. rewrite Forall_forall in Hmem. rewrite Ht2, Ht1 by (by apply Hmem). done.
    - intros t Ht _ Hno. destruct Hno. rewrite Hq2. apply list_elem_of_fmap. eauto. }
  pose proof (fun order => succeeds_final _ _ _ w2 (pushes_replicating w o b targets Hc Hmem Hnd Hd Hroom order _) (conj Hw2' Hq2)) as Hrun.
  exists w2. split_and!; [done|done|..].
  - intros order. destruct (Hrun order) as ([] & w3 & Hrun3 & Hw3 & _). exists w3. split; [done|].
    intros Hempty t Ht Htake. apply (re_done _ _ _ _ _ Hw3 t Ht Htake). rewrite Hempty. apply not_elem_of_nil.
  - destruct (Hrun (replicate (length targets) 0%nat)) as ([] & w3 & Hrun3 & Hw3 & Hq3). exists w3. split; [done|].
    rewrite Hq3, <- (length_fmap (., b) targets). apply drained.
Qed.

End Placement.

(** ** The properties apply *)

Module PlacementExample.
Import MemStore.

#[export] Instance identity_addressing : Addressing := {|
  addressed := eq; addressed_fun := fun h d d' H1 H2 => eq_trans (eq_sym H1) H2 |}.

Definition data : bytes := [x01; x02; x03].
Definition key : @cid deps := (true, data).

#[export] Instance plain_store : BlockStore (@bstore deps) := localBlockStore (HD := deps).
#[export] Instance plain_laws : BlockStoreLaws (@bstore deps) := localBlockStore_laws (HD := deps).

Definition fresh : BlockNode (S := @bstore deps) (L := @bstore deps) := NewBlocks (∅ : gmap bytes bytes).

(** A ring of [R] in which no node has a block. *)
Definition empty_ring (R : gset NodeID) : BlockWorld := mkBlockWorld (ideal_cluster R) ∅ fresh 0 (fun l => l).

Lemma empty_ring_sound R : sound_world (empty_ring R).
Proof. split; [done|done|intros n mh d Hd; discriminate Hd|intros n m mh d Hm; discriminate Hm|done]. Qed.

Lemma empty_ring_owner (R : gset NodeID) k n : n ∈ R -> exists o, key_owner R k o.
Proof. intros Hn. destruct (argmin_exists (dist k) R) as (o & Ho); [set_solver|]. by exists o. Qed.

Lemma empty_ring_store R o :
  exists w1, store_block (HB := block_env o) key data None 0 (empty_ring R) = (w1, Ok tt).
Proof. eexists. reflexivity. Qed.

Lemma ideal_targets R o : o ∈ R -> (length (replica_targets (node_state o (ideal_cluster R))) <= 1)%nat.
Proof.
  intros Ho. unfold node_state. rewrite ideal_cluster_lookup by done. unfold replica_targets.
  eapply Nat.le_trans; [apply length_filterb|]. rewrite length_take. cbn. lia.
Qed.

Lemma short_NoDup {A} (l : list A) : (length l <= 1)%nat -> NoDup l.
Proof.
  destruct l as [|x [|y l]]; cbn; intros; [apply NoDup_nil_2|apply NoDup_singleton|lia].
Qed.

Lemma three_in : test_id x0a ∈ three_nodes /\ test_id x64 ∈ three_nodes /\ test_id xc8 ∈ three_nodes.
Proof. unfold three_nodes. rewrite !elem_of_union, !elem_of_singleton. split_and!; [left; by left|left; by right|by right]. Qed.

Lemma stored_block_is_found_witness :
  exists o w2, key_owner three_nodes (CIDToNodeID (Hash key)) o /\
    node_PutWithRoot (HN := routing_env (test_id x0a)) (HB := block_env (test_id x0a)) Background key data None 0
      (empty_ring three_nodes) = (w2, Ok tt) /\
    (exists w3, node_Get (HN := routing_env (test_id x64)) (HB := block_env (test_id x64)) Background key w2 = (w3, Ok data)) /\
    (exists w3, node_Has (HN := routing_env (test_id xc8)) (HB := block_env (test_id xc8)) Background key w2 = (w3, Ok true)).
Proof.
  pose proof (ideal_cluster_dom three_nodes) as Hdom.
  destruct three_in as (H1 & H2 & H3).
  destruct (empty_ring_owner three_nodes (CIDToNodeID (Hash key)) _ H1) as (o & Ho).
  destruct (empty_ring_store three_nodes o) as (w1 & Hstore).
  destruct (stored_block_is_found (HL := laws) (empty_ring three_nodes) w1 key data None 0 (test_id x0a) o) as (w2 & Hput & Hread).
  - apply ideal_cluster_stabilized.
  - intros a b. apply not_elem_of_empty.
  - apply empty_ring_sound.
  - exact (eq_ind_r (fun R => _ ∈ R) H1 Hdom).
  - exact (eq_ind_r (fun R => key_owner R _ o) Ho Hdom).
  - reflexivity.
  - reflexivity.
  - exact Hstore.
  - exists o, w2. split; [exact Ho|]. split; [exact Hput|]. split; apply Hread.
    + exact (eq_ind_r (fun R => _ ∈ R) H2 Hdom).
    + exact (eq_ind_r (fun R => _ ∈ R) H3 Hdom).
Defined.

Lemma plain_push t b (w' : BlockWorld) R :
  ca_roots b = [] -> block_node t w' = block_node t (empty_ring R) -> exists w'', serve_PushBlocks t [b] w' = (w'', Ok tt).
Proof.
  intros Hb Hn. unfold serve_PushBlocks. cbn [accept_blocks]. unfold accept_block, getNode_, on_blocks, mbind, M_bind, m_bind, m_try, target_env.
  cbn [be_node storage_env]. rewrite Hb, Hn. by eexists.
Qed.

Definition owner_targets (o : NodeID) : list NodeAddr :=
  take defaultReplicationConcurrency (replica_targets (node_state o (ideal_cluster three_nodes))).

Lemma replication_completes_witness :
  exists o w2 w3, key_owner three_nodes (CIDToNodeID (Hash key)) o /\
    node_PutWithRoot (HN := routing_env (test_id x0a)) (HB := block_env (test_id x0a)) Background key data None 0
      (empty_ring three_nodes) = (w2, Ok tt) /\
    m_forM (replicate (length (owner_targets o)) 0%nat) (finish_push (HB := block_env o)) w2 = (w3, Ok tt) /\
    forall t, t ∈ owner_targets o -> stored w3 (na_id t) !! Hash key = Some data.
Proof.
  pose proof (ideal_cluster_dom three_nodes) as Hdom.
  destruct three_in as (H1 & _).
  destruct (empty_ring_owner three_nodes (CIDToNodeID (Hash key)) _ H1) as (o & Ho).
  destruct (empty_ring_store three_nodes o) as (w1 & Hstore). pose proof (ideal_targets three_nodes o (proj1 Ho)) as Hlen.
  destruct (replication_completes (HL := laws) (empty_ring three_nodes) w1 key data None 0 (test_id x0a) o) as (w2 & Hput & _ & Hany & w3 & Hrun & Hempty).
  - apply ideal_cluster_stabilized.
  - intros a b. apply not_elem_of_empty.
  - apply empty_ring_sound.
  - exact (eq_ind_r (fun R => _ ∈ R) H1 Hdom).
  - exact (eq_ind_r (fun R => key_owner R _ o) Ho Hdom).
  - reflexivity.
  - reflexivity.
  - exact Hstore.
  - reflexivity.
  - apply short_NoDup. rewrite length_fmap, length_take. etransitivity; [apply Nat.le_min_r|exact Hlen].
  - reflexivity.
  - exists o, w2, w3. split; [exact Ho|]. split; [exact Hput|]. split; [exact Hrun|].
    destruct (Hany (replicate (length (owner_targets o)) 0%nat)) as (w3' & Hrun' & Hall).
    pose proof (eq_trans (eq_sym Hrun) Hrun') as Heq. injection Heq as <-. intros t Ht. apply (Hall Hempty t Ht).
    intros w' _ Hnode. by apply (plain_push _ _ _ three_nodes).
Defined.

End PlacementExample.
