(* ===== verification/BlockSurvival.v ===== *)
(** * Which blocks survive

    With replication [r] the holders of a block are the [r] members met first from its key
    on. The nodes a put stores at are the holders; the loss of fewer than [r] members leaves a
    ring in which the block is found; and pruning drops no block that its node holds as one of
    the holders. *)

From stdpp Require Import base gmap list strings.
From Stdlib Require Import ZArith Lia Strings.Byte.
From S2P Require Import Prelude Hoare Config Chord Routing Lookup Cluster Stable Sha1 StoreDeps NetworkStore BlockStore StoreCounters BlockNode BlockNet BlockPlacement.

Set Default Goal Selector "!".
Local Open Scope Z_scope.

(** ** The holders of a key *)

(** The members met before [n], from [k] on. *)
Definition before (R : gset NodeID) (k n : NodeID) : gset NodeID := filter (fun y => dist k y < dist k n) R.

Definition holder (R : gset NodeID) (k : NodeID) (r : nat) (n : NodeID) : Prop :=
  n ∈ R /\ (size (before R k n) < r)%nat.

Fixpoint succ_chain (R : gset NodeID) (n : NodeID) (l : list NodeID) : Prop :=
  match l with [] => True | s :: l' => ring_succ R n s /\ succ_chain R s l' end.

Fixpoint pred_chain (R : gset NodeID) (n : NodeID) (l : list NodeID) : Prop :=
  match l with [] => True | p :: l' => ring_pred R n p /\ pred_chain R p l' end.

Lemma next_owner R k o s : key_owner R k o -> ring_succ R o s -> s <> o -> key_owner (R ∖ {[o]}) k s.
Proof.
  intros [Ho Hmin] [Hs Hgap] Hne. split; [set_solver|]. intros y [Hy Hyo%not_elem_of_singleton]%elem_of_difference.
  specialize (Hgap y Hy). pose proof (Hmin y Hy) as H1. pose proof (Hmin s Hs) as H2.
  assert (id_val s <> id_val o) by (by intros ?%id_val_inj). assert (id_val y <> id_val o) by (by intros ?%id_val_inj).
  clear Hmin. ring_lia.
Qed.

Lemma succ_chain_without R o n l : o ∉ l -> succ_chain R n l -> succ_chain (R ∖ {[o]}) n l.
Proof.
  revert n. induction l as [|s l IH]; intros n; [done|]. cbn [succ_chain]. rewrite not_elem_of_cons.
  intros [Hs Hl] [[Hin Hmin] Hc]. split; [|by apply IH]. split; [set_solver|]. intros y Hy. apply Hmin. set_solver.
Qed.

(** Without the owner, every other member is met one step earlier. *)
Lemma before_without R k o n :
  key_owner R k o -> n ∈ R -> n <> o -> size (before R k n) = Datatypes.S (size (before (R ∖ {[o]}) k n)).
Proof.
  intros [Ho Hmin] Hn Hne. assert (before R k n = {[o]} ∪ before (R ∖ {[o]}) k n) as ->.
  { apply leibniz_equiv. intros y. unfold before. rewrite elem_of_union, !elem_of_filter, elem_of_singleton, elem_of_difference, elem_of_singleton.
    destruct (decide (y = o)) as [->|Hy]; [|naive_solver].
    split; [naive_solver|]. intros _. split; [|done]. pose proof (Hmin n Hn). enough (dist k o <> dist k n) by lia.
    intros ?%dist_inj. done. }
  rewrite size_union, size_singleton; [done|]. unfold before. set_solver.
Qed.

Lemma before_owner R k o : key_owner R k o -> before R k o = ∅.
Proof.
  intros [Ho Hmin]. apply leibniz_equiv. intros y. unfold before. rewrite elem_of_filter.
  split; [|set_solver]. intros [Hlt Hy]. specialize (Hmin y Hy). lia.
Qed.

(** The holders are the owner and the members that follow it. *)
Lemma holders_chain (R : gset NodeID) k o l (r : nat) n :
  key_owner R k o -> succ_chain R o l -> NoDup (o :: l) -> (length l < r)%nat ->
  (r = Datatypes.S (length l) \/ R ⊆ list_to_set (o :: l)) ->
  holder R k r n <-> n ∈ o :: l.
Proof.
  revert R o r. induction l as [|s l IH]; intros R o r Ho Hl Hnd Hlen Hr.
  - rewrite list_elem_of_singleton. split.
    + intros [Hn Hs]. destruct Hr as [->|Hr]; [|set_solver]. destruct (decide (n = o)) as [|Hne]; [done|].
      rewrite (before_without R k o n Ho Hn Hne) in Hs. cbn in Hs. lia.
    + intros ->. split; [apply Ho|]. rewrite (before_owner R k o Ho), size_empty. cbn in Hlen. lia.
  - destruct Hl as [Hs Hl]. apply NoDup_cons in Hnd as [Ho' Hnd]. assert (s <> o) as Hso by set_solver.
    destruct r as [|r]; [lia|]. cbn [length] in Hlen, Hr. rewrite elem_of_cons.
    destruct (decide (n = o)) as [->|Hne].
    { split; [by left|]. intros _. split; [apply Ho|]. rewrite (before_owner R k o Ho), size_empty. lia. }
    rewrite <- (IH (R ∖ {[o]}) s r); [|by apply next_owner|apply succ_chain_without; set_solver|done|lia|].
    2: { destruct Hr as [Hr|Hr]; [left; lia|right; set_solver]. }
    unfold holder. rewrite elem_of_difference, elem_of_singleton. split.
    + intros [Hn Hlt]. right. rewrite (before_without R k o n Ho Hn Hne) in Hlt. split; [done|lia].
    + intros [?|[[Hn _] Hlt]]; [done|]. split; [done|]. rewrite (before_without R k o n Ho Hn Hne). lia.
Qed.

(** The owner after the loss of fewer than [r] members was a holder before. *)
Lemma survivor_holder R D k o (r : nat) : key_owner (R ∖ D) k o -> (size D < r)%nat -> holder R k r o.
Proof.
  intros [Ho Hmin] HD. split; [set_solver|]. eapply Nat.le_lt_trans; [|exact HD]. apply subseteq_size. intros y.
  unfold before. rewrite elem_of_filter. intros [Hlt Hy]. destruct (decide (y ∈ D)); [done|].
  specialize (Hmin y ltac:(set_solver)). lia.
Qed.

(** ** The window of a node *)

(** Going back from [n], the members are met in the order of their distance to [n]. *)
Lemma pred_gap R n p q :
  n ∈ R -> p <> n -> q <> n -> ring_pred R p q -> gap p n < gap q n.
Proof.
  intros Hn Hp Hq [Hin Hmin]. specialize (Hmin n Hn).
  assert (id_val p <> id_val n) by (by intros ?%id_val_inj). assert (id_val q <> id_val n) by (by intros ?%id_val_inj).
  gap_lia.
Qed.

Lemma pred_chain_gaps R n p l :
  n ∈ R -> p <> n -> n ∉ l -> pred_chain R p l -> Forall (fun q => q ∈ R /\ gap p n < gap q n) l.
Proof.
  intros Hn. revert p. induction l as [|q l IH]; intros p Hp Hl Hc; [done|]. cbn [pred_chain] in Hc.
  apply not_elem_of_cons in Hl as [Hq Hl]. destruct Hc as [Hpq Hc].
  assert (gap p n < gap q n) as Hlt by (eapply pred_gap; [done|done| |exact Hpq]; done).
  constructor; [split; [apply Hpq|done]|]. eapply Forall_impl; [apply (IH q); done|]. cbn. intros x [? ?]. split; [done|lia].
Qed.

(** The members up to [low] going back from [n] are met after [low] from a key behind it. *)
Lemma behind_window n low k y :
  y <> n -> gap y n <= gap low n -> BetweenRightInclusive k low n = false -> dist k y < dist k n.
Proof.
  intros Hy Hle Hk%BetweenRightInclusive_false.
  assert (id_val y <> id_val n) by (by intros ?%id_val_inj). ring_lia.
Qed.

Lemma window_members R n p l x low :
  n ∈ R -> n ∉ l -> pred_chain R p l -> l !! x = Some low ->
  Forall (fun y => y ∈ R /\ y <> n /\ gap y n <= gap low n) (take (Datatypes.S x) l).
Proof.
  intros Hn. revert p x. induction l as [|q l IH]; intros p x Hl Hc Hx; [done|].
  apply not_elem_of_cons in Hl as [Hq Hl]. destruct Hc as [Hpq Hc]. rewrite firstn_cons. destruct x as [|x].
  - cbn in Hx. simplify_eq. constructor; [|by rewrite take_0]. split_and!; [apply Hpq|done|lia].
  - constructor; [|by apply (IH q)]. split_and!; [apply Hpq|done|].
    pose proof (pred_chain_gaps R n q l Hn ltac:(done) Hl Hc) as Hg. rewrite Forall_forall in Hg.
    assert (low ∈ l) as Hin by (by eapply list_elem_of_lookup_2). destruct (Hg low Hin). lia.
Qed.

(** A node is a holder of the keys since its [r]-th predecessor only. *)
Lemma holder_in_window (R : gset NodeID) k n l (r : nat) low :
  holder R k r n -> pred_chain R n l -> NoDup (n :: l) -> l !! (r - 1)%nat = Some low ->
  BetweenRightInclusive k low n = true.
Proof.
  intros [Hn Hsize] Hc [Hnl Hnd]%NoDup_cons Hlow. destruct (BetweenRightInclusive k low n) eqn:Hk; [done|]. exfalso.
  pose proof (window_members R n n l (r - 1) low Hn Hnl Hc Hlow) as Hall. set (t := take _ l) in Hall.
  assert (length t = r) as Hlen.
  { unfold t. apply lookup_lt_Some in Hlow. rewrite length_take. lia. }
  assert (list_to_set t ⊆ before R k n) as Hsub.
  { intros y Hy%elem_of_list_to_set. rewrite Forall_forall in Hall. destruct (Hall y Hy) as (HyR & Hyn & Hgap).
    apply elem_of_filter. split; [|done]. by eapply behind_window. }
  apply subseteq_size in Hsub. rewrite size_list_to_set, Hlen in Hsub; [lia|]. unfold t. rewrite <- (take_drop (Datatypes.S (r - 1)) l) in Hnd.
  by apply NoDup_app in Hnd as [? _].
Qed.

(** ** Blocks *)

Section Survival.
Context `{HD : StoreDeps} `{HL : !StoreLaws} `{HA : Addressing}.
Context {S L : Type} `{HS : !BlockStore S} `{HSL : !BlockStoreLaws S} `{HB : !BlockStore L} `{HBL : !BlockStoreLaws L}.

#[local] Abbreviation world := (BlockWorld (S := S) (L := L)).

(** The successor list of [o] names the members that follow it, as far as the window of
    replicas goes or around the whole ring. *)
Definition backups_right (R : gset NodeID) (o : NodeID) (r : Routing) : Prop :=
  let l := na_id <$> take (Z.to_nat (r.(r_replication) - 1)) r.(r_successorList) in
  succ_chain R o l /\ NoDup (o :: l) /\
  (Z.to_nat (r.(r_replication) - 1) = length l \/ R ⊆ list_to_set (o :: l)).

(** C19: when the owner's successor list is right, the owner and its replica targets are exactly
    the first [replication] members from the key on. *)
Theorem replica_targets_are_holders (R : gset NodeID) (k o n : NodeID) (r : Routing) :
  key_owner R k o -> r.(r_id) = o -> 1 <= r.(r_replication) -> backups_right R o r ->
  holder R k (Z.to_nat r.(r_replication)) n <-> n = o \/ n ∈ na_id <$> replica_targets r.
Proof.
  intros Ho Hid Hr (Hc & Hnd & Hlen). rewrite (holders_chain R k o (na_id <$> take (Z.to_nat (r_replication r - 1)) (r_successorList r))); try done.
  - rewrite elem_of_cons. unfold replica_targets. apply NoDup_cons in Hnd as [Hno _].
    rewrite !list_elem_of_fmap in *. setoid_rewrite elem_of_filterb. setoid_rewrite negb_true_iff. setoid_rewrite Equal_false.
    rewrite Hid. split; (intros [?|(t & -> & Ht)]; [by left|right]; exists t; split; [done|]); [|by destruct Ht].
    split; [|done]. intros Heq. apply Hno. exists t. by rewrite Heq.
  - rewrite length_fmap, length_take. lia.
  - destruct Hlen as [Hlen|Hlen]; [left; lia|by right].
Qed.

(** C20: when the block is at its holders, the loss of fewer members than the replication factor
    does not lose it: once the survivors have stabilized, a get at any of them returns the data. *)
Theorem block_survives_losses (w : world) (R D : gset NodeID) (r : nat) (key : cid) (data : bytes) (reader : NodeID) :
  stabilized_cluster w.(bw_cluster) -> connected w.(bw_cluster) -> sound_world w ->
  dom w.(bw_cluster).(cl_nodes) = R ∖ D -> (size D < r)%nat -> addressed (Hash key) data ->
  (forall n, holder R (CIDToNodeID (Hash key)) r n -> n ∉ D -> stored w n !! Hash key = Some data) ->
  reader ∈ R ∖ D ->
  exists w', node_Get (HN := routing_env reader) (HB := block_env reader) Background key w = (w', Ok data).
Proof.
  intros Hst Hc Hw Hdom Hlost Hd Hhold Hreader.
  destruct (argmin_exists (dist (CIDToNodeID (Hash key))) (R ∖ D)) as (o & Ho); [set_solver|].
  change (key_owner (R ∖ D) (CIDToNodeID (Hash key)) o) in Ho. pose proof (survivor_holder R D _ o r Ho Hlost) as Hh.
  assert (serves w.(bw_cluster) (stored w) key o) as Hs.
  { split; [rewrite Hdom; apply Ho|]. exists data. apply Hhold; [done|]. destruct Ho as [Ho _]. set_solver. }
  rewrite <- Hdom in Ho, Hreader.
  destruct (succeeds_final _ _ _ w (Get_found _ _ _ _ key data reader o o Hst Hc Hreader Ho (sound_agree w key data Hw Hd)
    (or_introl eq_refl) Hs) (sound_view w Hw)) as (d & w' & Hget & _ & ->). by exists w'.
Qed.

(** ** Pruning *)

(** What the store has for one multihash. *)
Definition block_is (mh : bytes) (v : option bytes) (s : NBS) : Prop := blocks s !! mh = v.

#[local] Instance block_is_MetaFree mh v : MetaFree (block_is mh v).
Proof. by split. Qed.

Lemma Delete_other key mh v : Hash key <> mh -> keeps (block_is mh v) (Delete key) (fun _ => True).
Proof.
  intros Hne s Hs. pose proof (Delete_blocks key (blocks s) s eq_refl) as Hd. unfold block_is in *.
  destruct (Delete key s) as [s' [u|e]]; [|done]. unfold holding in Hd. split; [|done]. by rewrite Hd, lookup_delete_ne.
Qed.

(** The block under [mh] at node [n], which has a ring, is [v]. *)
Definition ring_at (n : NodeID) (mh : bytes) (v : option bytes) (w : world) : Prop :=
  exists nbs, (block_node n w).(bn_blocks) = RingBlocks nbs /\ block_is mh v nbs.

Lemma keeps_ring_or {A} n mh v (x : string -> Z -> M NBS A) (y : M S A) :
  (forall ring now, keeps (block_is mh v) (x ring now) (fun _ => True)) ->
  keeps (ring_at n mh v) (ring_or (HB := block_env n) x y) (fun _ => True).
Proof.
  intros Hx w (nbs & Hn & Hv). unfold ring_or, on_blocks. cbn [be_node be_set_node be_now block_env]. rewrite Hn. cbn [via].
  specialize (Hx (bn_ringID (block_node n w)) (bw_now w) nbs Hv). destruct (x _ _ nbs) as [nbs' [a|e]].
  - split; [|done]. exists nbs'. rewrite block_node_set, decide_True by done. by destruct Hx.
  - exists nbs'. by rewrite block_node_set, decide_True by done.
Qed.

Lemma keeps_drop n key mh v :
  Hash key <> mh -> keeps (ring_at n mh v) (drop_unless_live (HB := block_env n) key) (fun _ => True).
Proof.
  intros Hne. apply keeps_ring_or. intros ring now. eapply keeps_bind; [apply keeps_DropBlock, _|]. intros _ _.
  eapply keeps_bind; [apply (keeps_BlockHasLiveRootAnyRing (block_is mh v))|].
  intros [] _; [by apply keeps_ret|]. eapply keeps_ignore. by apply Delete_other.
Qed.

Lemma keeps_prune n low keys mh v d :
  BetweenRightInclusive (CIDToNodeID mh) low n = true ->
  keeps (ring_at n mh v) (prune_keys (HB := block_env n) low n keys d) (fun _ => True).
Proof.
  intros Hin. revert d. induction keys as [|key keys IH]; intros d; cbn [prune_keys]; [by apply keeps_ret|].
  destruct (in_range low n key) eqn:Hk; [apply IH|]. eapply keeps_bind; [apply keeps_drop|intros _ _; apply IH].
  intros <-. unfold in_range in Hk. congruence.
Qed.

(** C21: pruning drops no block of which the node is one of the first [replication] holders: what
    the node stores under the block's multihash is the same after [PruneOutOfWindowBlocks] as before,
    when its predecessor list, however long, names the members before it. *)
Theorem prune_keeps_held_blocks (w : world) (R : gset NodeID) (n : NodeID) (key : cid) :
  let r := node_state n w.(bw_cluster) in
  r.(r_id) = n -> pred_chain R n (na_id <$> r.(r_predecessorList)) -> NoDup (n :: (na_id <$> r.(r_predecessorList))) ->
  holder R (CIDToNodeID (Hash key)) (Z.to_nat r.(r_replication)) n ->
  stored (PruneOutOfWindowBlocks (HN := routing_env n) (HB := block_env n) w).1 n !! Hash key = stored w n !! Hash key.
Proof.
  intros r Hid Hc Hnd Hh. unfold PruneOutOfWindowBlocks, getNode_, getRouting, mbind, M_bind, m_bind.
  cbn [be_node block_env routing_env localTransport ne_routing]. fold r. unfold has_ring.
  destruct (bn_blocks (block_node n w)) as [s|nbs] eqn:Hn; [done|]. cbn [negb orb].
  destruct (Z.leb_spec (r_replication r) 1); [done|].
  destruct (r_predecessor r); [|done]. destruct (r_predecessorList r !! _) as [low|] eqn:Hlow; [|done].
  assert (ring_at n (Hash key) (stored w n !! Hash key) w) as Hat.
  { exists nbs. split; [done|]. unfold block_is, stored. by rewrite Hn. }
  assert (BetweenRightInclusive (CIDToNodeID (Hash key)) (na_id low) n = true) as Hin.
  { eapply holder_in_window; [exact Hh|exact Hc|exact Hnd|]. rewrite list_lookup_fmap.
    replace (Z.to_nat (r_replication r) - 1)%nat with (Z.to_nat (r_replication r - 1)) by lia. by rewrite Hlow. }
  rewrite Hid. assert (keeps (ring_at n (Hash key) (stored w n !! Hash key))
    (keys ← ring_keys (HB := block_env n); prune_keys (HB := block_env n) (na_id low) n keys 0) (fun _ => True)) as Hk.
  { eapply keeps_bind; [|intros keys _; by apply keeps_prune].
    apply keeps_ring_or. intros ring _. exact (keeps_Blocks (block_is _ _) ring). }
  destruct (keeps_final _ _ _ _ Hk Hat) as (nbs' & Hn' & Hv'). unfold stored at 1. unfold mbind, M_bind, m_bind in Hn'. rewrite Hn'. exact Hv'.
Qed.

End Survival.

(** ** The properties apply *)

Module SurvivalExample.
Import MemStore PlacementExample.

Lemma three_cases y : y ∈ three_nodes -> y = test_id x0a \/ y = test_id x64 \/ y = test_id xc8.
Proof. unfold three_nodes. rewrite !elem_of_union, !elem_of_singleton. tauto. Qed.

(** [test_id xc8] follows [test_id x64]; a key at [test_id x32] belongs to [test_id x64]. *)
Definition owner_routing : Routing :=
  mkRouting (test_id x64) "" (mkNodeAddr (test_id xc8) "") [mkNodeAddr (test_id xc8) ""; mkNodeAddr (test_id x0a) ""] None []
    zeroID [] 0 2 5 false 0.

Lemma replica_targets_are_holders_witness : holder three_nodes (test_id x32) 2 (test_id xc8).
Proof.
  apply (replica_targets_are_holders three_nodes (test_id x32) (test_id x64) (test_id xc8) owner_routing).
  - split; [apply three_in|]. intros y [->|[->| ->]]%three_cases; vm_compute; discriminate.
  - reflexivity.
  - vm_compute. discriminate.
  - split_and!; [|apply NoDup_cons; split; [|apply NoDup_singleton]|by left].
    + split; [|exact I]. split; [apply three_in|]. intros y [->|[->| ->]]%three_cases; vm_compute; discriminate.
    + change (test_id x64 ∉ [test_id xc8]). rewrite list_elem_of_singleton. intros H%(f_equal id_val). vm_compute in H. discriminate H.
  - right. left.
Defined.

(** Every node has the block. *)
Definition full_ring (R : gset NodeID) : BlockWorld (S := @bstore deps) (L := @bstore deps) :=
  mkBlockWorld (ideal_cluster R) ∅ (NewBlocks ({[data := data]} : gmap bytes bytes)) 0 (fun l => l).

Lemma full_ring_sound R : sound_world (full_ring R).
Proof.
  split; [done|done| |intros n m mh d Hm; discriminate Hm|done]. intros n mh d Hd.
  change (({[data := data]} : gmap bytes bytes) !! mh = Some d) in Hd. apply lookup_singleton_Some in Hd as [<- <-]. reflexivity.
Qed.

Lemma block_survives_losses_witness :
  exists w', node_Get (HN := routing_env (test_id x0a)) (HB := block_env (test_id x0a)) Background key
    (full_ring (three_nodes ∖ {[test_id xc8]})) = (w', Ok data).
Proof.
  apply (block_survives_losses (HL := laws) (full_ring (three_nodes ∖ {[test_id xc8]})) three_nodes {[test_id xc8]} 2).
  - apply ideal_cluster_stabilized.
  - intros a b. apply not_elem_of_empty.
  - apply full_ring_sound.
  - apply ideal_cluster_dom.
  - rewrite size_singleton. lia.
  - reflexivity.
  - intros n _ _. reflexivity.
  - apply elem_of_difference. split; [apply three_in|]. rewrite elem_of_singleton. intros H%(f_equal id_val). vm_compute in H. discriminate H.
Defined.

(** A node of the public ring with the two members before it. *)
Definition pruning_routing : Routing :=
  mkRouting (test_id xc8) "" (mkNodeAddr (test_id x0a) "") [] (Some (mkNodeAddr (test_id x64) ""))
    [mkNodeAddr (test_id x64) ""; mkNodeAddr (test_id x0a) ""] zeroID [] 0 2 5 false 0.

Definition pruning_world : BlockWorld (S := @bstore deps) (L := @bstore deps) :=
  mkBlockWorld (mkCluster [] {[test_id xc8 := pruning_routing]} ∅ [])
    {[test_id xc8 := SetNetworkBlocks (@mkNBS deps (∅ : gmap string bytes) ({[data := data]} : gmap bytes bytes) 0 3 1 ∅ ∅) fresh]}
    fresh 0 (fun l => l).

Lemma pruning_state : node_state (test_id xc8) pruning_world.(bw_cluster) = pruning_routing.
Proof. unfold node_state. cbn [pruning_world bw_cluster cl_nodes]. by rewrite lookup_singleton_eq. Qed.

Lemma prune_keeps_held_blocks_witness :
  holder three_nodes (CIDToNodeID (Hash key)) 2 (test_id xc8) /\
  stored (PruneOutOfWindowBlocks (HN := routing_env (test_id xc8)) (HB := block_env (test_id xc8)) pruning_world).1 (test_id xc8) !! Hash key
    = Some data.
Proof.
  assert (holder three_nodes (CIDToNodeID (Hash key)) 2 (test_id xc8)) as Hh.
  { split; [apply three_in|]. rewrite before_owner; [rewrite size_empty; lia|]. split; [apply three_in|].
    intros y [->|[->| ->]]%three_cases; vm_compute; discriminate. }
  split; [exact Hh|].
  refine (eq_trans (prune_keeps_held_blocks (HL := laws) pruning_world three_nodes (test_id xc8) key _ _ _ _) _); rewrite ?pruning_state.
  - reflexivity.
  - cbn [pruning_routing r_predecessorList fmap list_fmap pred_chain na_id].
    split; [split; [apply three_in|]|split; [split; [apply three_in|]|exact I]]; intros y [->|[->| ->]]%three_cases; vm_compute; discriminate.
  - cbn [pruning_routing r_predecessorList fmap list_fmap na_id].
    repeat (apply NoDup_cons; split; [rewrite ?not_elem_of_cons; split_and?; try apply not_elem_of_nil;
      intros H%(f_equal id_val); vm_compute in H; discriminate H|]). apply NoDup_nil_2.
  - exact Hh.
  - unfold stored, block_node. cbn [pruning_world bw_nodes bw_fresh]. by rewrite lookup_singleton_eq.
Defined.

End SurvivalExample.
