(* ===== verification/RingTransfer.v ===== *)
(** * Moving the blocks of a ring between stores (src/store/network_block_store.go)

    What hand-over uses of the network block store, under the abstraction [rep] of RingIndex.v: the
    blocks a ring lists ([Blocks]), whether another ring still wants a block
    ([BlockHasLiveRootAnyRing]), letting go of a block, and puts into a store without limits. *)

From stdpp Require Import base gmap list strings.
From Stdlib Require Import ZArith Lia Strings.Byte.
From S2P Require Import Prelude Hoare Hex StoreKeys StoreDeps NetworkStore BlockStore RingIndex NetworkGC StoreCounters RingAccounting BlockNode BlockNet BlockPlacement.

Set Default Goal Selector "!".
Local Open Scope Z_scope.

Section Transfer.
Context `{HD : StoreDeps} `{HL : !StoreLaws}.

(** ** The blocks of a ring *)

(** Index entries name blocks by the hex form of their multihash. *)
Definition hex_entries (m : meta) : Prop :=
  forall r mh c, is_Some (m (KBlockRoot r mh c)) -> exists h, seg_str mh = hex_encode h.

Definition resolved (b : gmap bytes bytes) (seen : gmap string cid) : Prop :=
  forall mh c, seen !! mh = Some c -> mh = hex_encode (Hash c) /\ is_Some (b !! Hash c).

Definition entry_for (r : seg) (h : bytes) (l : list (string * bytes)) : Prop :=
  exists mh c v, (render (KBlockRoot r mh c), v) ∈ l /\ seg_str mh = hex_encode h.

Lemma entry_for_cons r h mh c v l :
  entry_for r h ((render (KBlockRoot r mh c), v) :: l) <-> seg_str mh = hex_encode h \/ entry_for r h l.
Proof.
  unfold entry_for. split.
  - intros (mh' & c' & v' & [E|Hin]%elem_of_cons & Hh); [left|right; eauto]. apply (f_equal fst) in E.
    cbn [fst] in E. apply (inj render) in E as [= -> ->]. done.
  - intros [Hh|(mh' & c' & v' & Hin & Hh)]; [exists mh, c, v|exists mh', c', v']; (split; [set_solver|done]).
Qed.

Lemma blockRoot_multihash r mh c :
  before_slash (str_drop (String.length (prefixBlockRoots (seg_str r))) (render (KBlockRoot r mh c))) = Some (seg_str mh).
Proof. rewrite blockRoot_split, string_app_assoc, str_drop_app. apply before_slash_app, seg_slash_free. Qed.

Lemma rep_collect_blocks r l seen m b R :
  (forall kv, kv ∈ l -> exists mh c h, kv.1 = render (KBlockRoot r mh c) /\ seg_str mh = hex_encode h) -> resolved b seen ->
  succeeds (rep m b R) (collect_blocks (prefixBlockRoots (seg_str r)) l seen)
    (fun seen' s => rep m b R s /\ resolved b seen' /\
       forall h, is_Some (seen' !! hex_encode h) <-> is_Some (seen !! hex_encode h) \/ (is_Some (b !! h) /\ entry_for r h l)).
Proof.
  revert seen. induction l as [|[key v] l IH]; intros seen Hl Hseen; cbn [collect_blocks].
  { apply succeeds_ret. intros s Hs. split_and!; [done..|]. intros h. split; [by left|].
    intros [?|(_ & mh & c & v & Hin & _)]; [done|]. by apply not_elem_of_nil in Hin. }
  destruct (Hl (key, v)) as (mh & c & h0 & Hkey & Hmh); [set_solver|]. cbn [fst] in *. subst key. rewrite blockRoot_multihash.
  assert (forall kv, kv ∈ l -> exists mh c h, kv.1 = render (KBlockRoot r mh c) /\ seg_str mh = hex_encode h) as Hl' by set_solver.
  assert (forall h, seg_str mh = hex_encode h <-> h = h0) as Hone.
  { intros h. rewrite Hmh. split; [|by intros ->]. intros E. by apply hex_encode_inj in E. }
  destruct (decide (is_Some (seen !! seg_str mh))) as [Hin|Hnot].
  - eapply succeeds_weaken; [by apply IH|done|]. intros seen' s (Hs & Hres & Hdom). split_and!; [done..|].
    intros h. rewrite Hdom, entry_for_cons, Hone. rewrite Hmh in Hin.
    split; [tauto|]. intros [?|[? [->|?]]]; tauto.
  - eapply succeeds_bind_fact; [apply rep_lookup|]. intros found Hf. specialize (Hf h0 Hmh). unfold found_in in Hf.
    destruct (b !! h0) as [d|] eqn:Hd.
    + destruct Hf as (c' & -> & Hc'). eapply succeeds_weaken; [apply IH; [done|]|done|].
      * intros mh' c''. rewrite lookup_insert_Some. intros [[<- <-]|[_ Hs]]; [|by apply Hseen]. rewrite Hc', Hd. split; [done|eauto].
      * intros seen' s (Hs & Hres & Hdom). split_and!; [done..|]. intros h. rewrite Hdom, entry_for_cons, Hone, Hmh.
        rewrite lookup_insert_is_Some. split.
        2: { intros [?|[? [->|?]]]; [destruct (decide (hex_encode h0 = hex_encode h))|..]; tauto. }
        intros [[E|[_ ?]]|[? ?]]; [|by left|tauto]. apply hex_encode_inj in E. subst h. right. rewrite Hd. eauto.
    + subst found. eapply succeeds_weaken; [by apply IH|done|]. intros seen' s (Hs & Hres & Hdom). split_and!; [done..|].
      intros h. rewrite Hdom, entry_for_cons, Hone. split; [tauto|]. intros [?|[Hb [->|?]]]; [by left| |tauto].
      rewrite Hd in Hb. by destruct Hb.
Qed.

Lemma resolved_NoDup b seen : resolved b seen -> NoDup (Hash <$> (map_to_list seen).*2).
Proof.
  intros Hres. apply (NoDup_fmap_1 hex_encode). rewrite <- !list_fmap_compose.
  assert ((hex_encode ∘ Hash ∘ snd) <$> map_to_list seen = (map_to_list seen).*1) as ->; [|apply NoDup_fst_map_to_list].
  apply list_fmap_ext. intros i [mh c] Hi. cbn. symmetry. apply (Hres mh c).
  apply elem_of_map_to_list. by eapply list_elem_of_lookup_2.
Qed.

(** [Blocks] lists the stored blocks that are indexed in the ring, once each. *)
Lemma rep_Blocks r m b R :
  hex_entries m ->
  succeeds (rep m b R) (Blocks (seg_str r))
    (fun l s => rep m b R s /\ NoDup (Hash <$> l) /\ forall h, h ∈ Hash <$> l <-> is_Some (b !! h) /\ indexed m r h).
Proof.
  intros Hhex s0 Hs0. unfold Blocks. pose proof (rep_query (prefixBlockRoots (seg_str r)) _ m b R (query_blockroots r) s0 Hs0) as Hq.
  unfold query_, mbind, M_bind, m_bind, m_try, dsRead in *. destruct (ds_Query_view (prefixBlockRoots (seg_str r)) (nbs_ds s0)) as (l & Hl & _).
  rewrite Hl in *. cbn in Hq. destruct Hq as [_ [_ Hans]].
  destruct (succeeds_final _ _ _ s0 (rep_collect_blocks r l ∅ m b R
    ltac:(intros [key v] (k & -> & (mh & c & ->) & Hk)%Hans; destruct (Hhex r mh c) as [h Hh]; [eauto|]; by exists mh, c, h)
    ltac:(intros mh c Hc; by rewrite lookup_empty in Hc)) Hs0) as (seen & s1 & -> & Hs1 & Hres & Hdom).
  cbn. split_and!; [done|by eapply resolved_NoDup|]. intros h.
  assert (entry_for r h l <-> indexed m r h) as Hent.
  { unfold entry_for, indexed. split.
    - intros (mh & c & v & Hin & Hh). apply Hans in Hin as (k & E & _ & Hk). apply (inj render) in E. subst k. eauto.
    - intros (mh & c & Hh & [v Hv]). exists mh, c, v. split; [|done]. apply Hans. eauto 10. }
  rewrite <- Hent. specialize (Hdom h). rewrite lookup_empty in Hdom. split.
  - intros (c & -> & Hin)%list_elem_of_fmap. apply list_elem_of_fmap in Hin as ([mh c'] & -> & Hin%elem_of_map_to_list).
    cbn [snd] in *. destruct (Hres mh c' Hin) as [-> _]. destruct (proj1 Hdom) as [[? ?]|?]; [eauto|done|done].
  - intros Hh. destruct (proj2 Hdom (or_intror Hh)) as [c Hc]. destruct (Hres _ _ Hc) as [E _]. apply hex_encode_inj in E. subst h.
    apply list_elem_of_fmap_2, list_elem_of_fmap. exists (hex_encode (Hash c), c). split; [done|]. by apply elem_of_map_to_list.
Qed.

Lemma root_entries_same ring cids s : (root_entries ring cids s).1 = s /\ is_ok (root_entries ring cids s).2 = true.
Proof.
  induction cids as [|c cids [IH1 IH2]]; cbn [root_entries]; [done|]. unfold mbind, M_bind, m_bind, m_try, dsRead in *.
  by destruct (root_entries ring cids s) as [s' [l|e]].
Qed.

(** Reading the roots of a block changes nothing and succeeds. *)
Lemma roots_read ring key (P : NBS -> Prop) : succeeds P (RootsForBlockEntries ring key) (fun _ => P).
Proof.
  unfold RootsForBlockEntries. apply (succeeds_bind _ _ _ (fun _ => P)); [by intros s Hs|]. intros cids s Hs.
  destruct (root_entries_same ring cids s) as [H1 H2]. destruct (root_entries ring cids s) as [s' [l|e]]; cbn in *; by subst.
Qed.

(** ** Whether another ring wants a block *)

(** A stored root that [BlockHasLiveRoot] counts. *)
Definition live_root (now : Z) (v : option bytes) : bool :=
  match v with
  | Some data => match cborUnmarshalRoot data with Ok e => (e =? 0) || (now <=? e) | Err _ => false end
  | None => false
  end.

Lemma rep_root_entries now r cs m b R :
  succeeds (rep m b R) (root_entries (seg_str r) (seg_str <$> cs))
    (fun l s => rep m b R s /\ (existsb (live_entry now) l = true <-> exists c, c ∈ cs /\ live_root now (m (KRoot r c)) = true)).
Proof.
  induction cs as [|c cs IH]; cbn [root_entries fmap list_fmap].
  { apply succeeds_ret. intros s Hs. split; [done|]. split; [done|]. intros (c & Hc & _). by apply not_elem_of_nil in Hc. }
  change (rootKey (seg_str r) (seg_str c)) with (render (KRoot r c)).
  eapply succeeds_bind_fact; [apply rep_get|]. intros res Hres. eapply succeeds_bind_fact; [exact IH|]. intros rest Hrest.
  apply succeeds_ret. intros s Hs. split; [done|]. setoid_rewrite elem_of_cons.
  assert (existsb (live_entry now) rest = true <-> exists c, c ∈ cs /\ live_root now (m (KRoot r c)) = true) as Hrest' by exact Hrest.
  assert (forall x : bool, x = live_root now (m (KRoot r c)) ->
    (x || existsb (live_entry now) rest = true <-> exists c', (c' = c \/ c' ∈ cs) /\ live_root now (m (KRoot r c')) = true)) as Hor.
  { intros x ->. rewrite orb_true_iff, Hrest'. naive_solver. }
  unfold live_root in Hor at 1. destruct (m (KRoot r c)) as [data|] eqn:Hm.
  - subst res. destruct (cborUnmarshalRoot data) as [e|e]; [exact (Hor _ eq_refl)|exact (Hor false eq_refl)].
  - destruct Hres as [e ->]. exact (Hor false eq_refl).
Qed.

Definition held_in (r : seg) (now : Z) (m : meta) (mh : seg) : Prop :=
  exists c, is_Some (m (KBlockRoot r mh c)) /\ live_root now (m (KRoot r c)) = true.

Lemma rep_BlockHasLiveRoot now r key mh m b R :
  seg_str mh = HashHex key ->
  succeeds (rep m b R) (BlockHasLiveRoot now (seg_str r) key) (fun live s => rep m b R s /\ (live = true <-> held_in r now m mh)).
Proof.
  intros Hmh. unfold BlockHasLiveRoot, RootsForBlockEntries, RootsForBlock. cbv zeta. rewrite <- Hmh.
  apply (succeeds_bind_fact _ (rep m b R) (fun l => existsb (live_entry now) l = true <-> held_in r now m mh)).
  2: { intros l Hl. by apply succeeds_ret. }
  apply (succeeds_bind_fact _ (rep m b R) (fun l => exists cs, l = seg_str <$> cs /\ forall c, c ∈ cs <-> is_Some (m (KBlockRoot r mh c)))).
  - eapply succeeds_bind_fact; [apply rep_query, query_block|]. intros l [_ Hl]. apply succeeds_ret. intros s Hs. split; [done|].
    destruct (fmap_of (fun cv : seg * bytes => (render (KBlockRoot r mh cv.1), cv.2)) l) as [k Hk].
    { intros [key' v] Hin. apply Hl in Hin as (k & -> & [c ->] & _). by exists (c, v). }
    exists k.*1. split.
    + rewrite Hk, <- !list_fmap_compose. apply list_fmap_ext. intros i [c v] _. unfold compose. cbn [fst render]. by rewrite str_drop_app.
    + intros c. split.
      * intros ([c' v] & -> & Hin)%list_elem_of_fmap. cbn [fst]. destruct (proj1 (Hl (render (KBlockRoot r mh c')) v)) as (k' & E & _ & Hm).
        -- rewrite Hk. apply list_elem_of_fmap. by exists (c', v).
        -- apply (inj render) in E. subst k'. eauto.
      * intros [v Hv]. assert ((render (KBlockRoot r mh c), v) ∈ l) as Hin by (apply Hl; eauto 10).
        rewrite Hk in Hin. apply list_elem_of_fmap in Hin as ([c' v'] & E & Hin). apply (f_equal fst) in E. cbn [fst] in E.
        apply (inj render) in E as [= ->]. apply list_elem_of_fmap. by exists (c', v').
  - intros l (cs & -> & Hcs). eapply succeeds_weaken; [apply (rep_root_entries now r cs)|done|]. intros out s [Hs Hout].
    split; [done|]. rewrite Hout. unfold held_in. by setoid_rewrite Hcs.
Qed.

(** A known ring other than [r] has the block under a live root. *)
Definition held_elsewhere (r : seg) (now : Z) (m : meta) (h : bytes) : Prop :=
  exists r' mh, r' <> r /\ seg_str mh = hex_encode h /\ is_Some (m (KPresence r')) /\ held_in r' now m mh.

Lemma rep_any_ring now rs key mh m b R :
  seg_str mh = HashHex key ->
  succeeds (rep m b R) (any_ring now (seg_str <$> rs) key)
    (fun live s => rep m b R s /\ (live = true <-> exists r, r ∈ rs /\ held_in r now m mh)).
Proof.
  intros Hmh. induction rs as [|r rs IH]; cbn [any_ring fmap list_fmap].
  { apply succeeds_ret. intros s Hs. split; [done|]. split; [done|]. intros (r & Hr & _). by apply not_elem_of_nil in Hr. }
  eapply succeeds_bind_fact; [by apply rep_BlockHasLiveRoot|]. intros [] Hlive.
  - apply succeeds_ret. intros s Hs. split; [done|]. split; [|done]. intros _. exists r. split; [set_solver|]. by apply Hlive.
  - eapply succeeds_weaken; [exact IH|done|]. intros live s [Hs Hl]. split; [done|]. rewrite Hl. setoid_rewrite elem_of_cons.
    split; [naive_solver|]. intros (r' & [->|Hr'] & Hin); [|eauto]. by apply Hlive in Hin.
Qed.

Lemma rep_AnyRing now key mh m b R :
  seg_str mh = HashHex key ->
  succeeds (rep m b R) (BlockHasLiveRootAnyRing now key)
    (fun live s => rep m b R s /\ (live = true <-> exists r, is_Some (m (KPresence r)) /\ held_in r now m mh)).
Proof.
  intros Hmh. unfold BlockHasLiveRootAnyRing. eapply succeeds_bind_fact; [apply rep_RingsKnown|]. intros rings (rs & -> & _ & Hrs).
  eapply succeeds_weaken; [by apply (rep_any_ring now rs key mh)|done|]. intros live s [Hs Hl]. split; [done|]. rewrite Hl. by setoid_rewrite Hrs.
Qed.

(** ** Letting go of a block *)

Lemma rep_Delete key m b R : succeeds (rep m b R) (Delete key) (fun _ => rep m (delete (Hash key) b) R).
Proof.
  unfold Delete. eapply succeeds_bind_fact; [apply rep_size|]. intros sz _. destruct sz as [size|err].
  - eapply succeeds_bind_fact; [apply rep_deleteBlock|]. intros res ->. apply rep_aggDelta.
  - intros s Hs. pose proof (rep_deleteBlock key m b R s Hs) as Hd. unfold m_try in Hd.
    destruct (bsWrite (bs_DeleteBlock key) s) as [s' [u|e]]; by destruct Hd.
Qed.

(** Nothing outside ring [r] has changed but counters. *)
Record same_elsewhere (r : seg) (m m' : meta) : Prop := {
  se_rings r' : m' (KPresence r') = m (KPresence r');
  se_roots r' c : m' (KRoot r' c) = m (KRoot r' c);
  se_index r' mh c : r' <> r -> m' (KBlockRoot r' mh c) = m (KBlockRoot r' mh c)
}.

Lemma same_elsewhere_refl r m : same_elsewhere r m m.
Proof. by split. Qed.

Lemma same_elsewhere_trans r m1 m2 m3 : same_elsewhere r m1 m2 -> same_elsewhere r m2 m3 -> same_elsewhere r m1 m3.
Proof. intros [A1 A2 A3] [B1 B2 B3]. split; intros; [by rewrite B1|by rewrite B2|by rewrite B3, A3]. Qed.

Lemma held_same_elsewhere r now m m' h : same_elsewhere r m m' -> held_elsewhere r now m' h <-> held_elsewhere r now m h.
Proof.
  intros [H1 H2 H3]. unfold held_elsewhere, held_in. split; intros (r' & mh & Hr & Hmh & Hp & c & Hc & Hl);
    exists r', mh; (split_and!; [done|done| |exists c; split]).
  all: by rewrite ?H1, ?H2, ?H3 in * by done.
Qed.

(** What becomes of the block: it is deleted unless another ring holds it. *)
Lemma rep_let_go r now key mh m b R :
  seg_str mh = HashHex key ->
  succeeds (rep m b R)
    (_ ← DropBlock (seg_str r) key; live ← BlockHasLiveRootAnyRing now key; if (live : bool) then m_ret tt else m_ignore (Delete key))
    (fun _ s => exists m' b' R', rep m' b' R' s /\ same_elsewhere r m m' /\
       (b' = b /\ held_elsewhere r now m (Hash key) \/ b' = delete (Hash key) b /\ ~ held_elsewhere r now m (Hash key))).
Proof.
  intros Hmh s Hs. destruct (succeeds_final _ _ _ s (rep_DropBlock r key mh m b R Hmh) Hs) as (found & s1 & Hrun1 & R1 & Hs1 & _).
  erewrite run_bind by exact Hrun1. set (m1 := drop_block r mh _ m) in *.
  assert (same_elsewhere r m m1) as Hsame.
  { split; [done|done|]. intros r' mh' c Hr'. unfold m1, drop_block. by rewrite bool_decide_eq_false_2. }
  destruct (succeeds_final _ _ _ s1 (rep_AnyRing now key mh m1 b R1 Hmh) Hs1) as (live & s2 & Hrun2 & Hs2 & Hlive).
  erewrite run_bind by exact Hrun2.
  assert (live = true <-> held_elsewhere r now m (Hash key)) as Hheld.
  { rewrite Hlive, <- (held_same_elsewhere r now m m1) by done. unfold held_elsewhere. split.
    - intros (r' & Hp & c & Hc & Hl). exists r', mh. split_and!; [|done|done|by exists c].
      intros ->. unfold m1, drop_block in Hc. rewrite !bool_decide_eq_true_2 in Hc by done. by destruct Hc.
    - intros (r' & mh' & _ & Hmh' & Hp & Hin). assert (mh' = mh) as -> by (apply seg_eq; by rewrite Hmh, Hmh'). eauto. }
  destruct live.
  - exists m1, b, R1. split_and!; [done..|]. left. split; [done|]. by apply Hheld.
  - pose proof (succeeds_ignore _ _ _ (rep_Delete key m1 b R1) s2 Hs2) as Hdel. destruct (m_ignore (Delete key) s2) as [s3 [u|e]]; [|done].
    exists m1, (delete (Hash key) b), R1. split_and!; [done..|]. right. split; [done|]. intros H%Hheld. done.
Qed.

(** ** A store without limits *)

(** The quota of a ring, as [Quota] reports it; a quota that is not positive is no limit. *)
Definition ring_quota (ring : string) (s : NBS) : Z := match (Quota ring s).2 with Ok q => q | Err _ => 0 end.

Record unlimited (ring : string) (b : gmap bytes bytes) (s : NBS) : Prop := {
  ul_blocks : blocks s = b;
  ul_max : s.(nbs_maxBytes) <= 0;
  ul_quota : ring_quota ring s <= 0
}.

(** The counters of the ring are in memory. *)
Definition metered (ring : string) (b : gmap bytes bytes) (s : NBS) : Prop :=
  blocks s = b /\ s.(nbs_maxBytes) <= 0 /\ exists rc, s.(nbs_rings) !! ring = Some rc /\ rc.(rc_quota) <= 0.

Lemma metered_unlimited ring b s : metered ring b s -> unlimited ring b s.
Proof.
  intros (Hb & Hm & rc & Hrc & Hq). split; [done..|]. unfold ring_quota, Quota, getRingCounters, mbind, M_bind, m_bind. cbn [m_get].
  by rewrite Hrc.
Qed.

(** The first use of the counters. *)
Lemma getRing_meters ring b :
  succeeds (unlimited ring b) (getRingCounters ring) (fun rc s => metered ring b s /\ s.(nbs_rings) !! ring = Some rc).
Proof.
  intros s [Hb Hm Hq]. unfold ring_quota, Quota, getRingCounters, read_counter, mbind, M_bind, m_bind, m_try, dsRead in *.
  cbn [m_get] in *. destruct (nbs_rings s !! ring) as [rc|] eqn:Hrc.
  - split; [|done]. split_and!; [done..|]. by exists rc.
  - cbn in *. rewrite lookup_insert_eq. split; [|done]. split_and!; [done..|]. cbn. rewrite lookup_insert_eq. eexists. by split.
Qed.

Section Metered.
Context (ring : string) (b : gmap bytes bytes).
#[local] Abbreviation I := (metered ring b).

Lemma mt_dsWrite f : keeps I (dsWrite f) (fun _ => True).
Proof. intros s Hs. unfold dsWrite. by destruct (f (nbs_ds s)) as [d [u|e]]. Qed.

Lemma mt_dsRead {A} (f : dstore -> result A) : keeps I (dsRead f) (fun _ => True).
Proof. intros s Hs. unfold dsRead. by destruct (f _). Qed.

Lemma mt_bsRead {A} (f : bstore -> result A) : keeps I (bsRead f) (fun _ => True).
Proof. intros s Hs. unfold bsRead. by destruct (f _). Qed.

Lemma mt_known f : keeps I (m_modify (fun s => set_known (f s) s)) (fun _ => True).
Proof. by intros s Hs. Qed.

Lemma mt_modifyRing f : (forall rc, rc_quota (f rc) = rc_quota rc) -> keeps I (modifyRing ring f) (fun _ => True).
Proof.
  intros Hf s (Hb & Hm & rc & Hrc & Hq). cbn. split; [|done]. split_and!; [done..|]. exists (f rc). cbn.
  rewrite lookup_alter_eq, Hrc. split; [done|]. by rewrite Hf.
Qed.

Lemma mt_getRing : keeps I (getRingCounters ring) (fun rc => rc.(rc_quota) <= 0).
Proof.
  intros s (Hb & Hm & rc & Hrc & Hq). unfold getRingCounters, mbind, M_bind, m_bind. cbn [m_get]. rewrite Hrc.
  split; [|done]. split_and!; [done..|]. by exists rc.
Qed.

Lemma mt_dsPut k v : keeps I (dsPut_ k v) (fun _ => True).
Proof. eapply keeps_ignore, mt_dsWrite. Qed.

Hint Resolve mt_dsWrite mt_dsRead mt_bsRead mt_known mt_dsPut mt_getRing : keeps.

Lemma mt_query p : keeps I (query_ p) (fun _ => True).
Proof. unfold query_. keeps_auto; auto. Qed.

Lemma mt_has mh : keeps I (ringHasBlock ring mh) (fun _ => True).
Proof. unfold ringHasBlock. eapply keeps_bind; [apply mt_query|]. intros l _. by apply keeps_ret. Qed.

Lemma mt_counter k : keeps I (read_counter k) (fun _ => True).
Proof. unfold read_counter. keeps_auto; auto. Qed.
Hint Resolve mt_counter : keeps.

Lemma mt_usage c d : keeps I (addCIDUsage ring c d) (fun _ => True).
Proof. unfold addCIDUsage. keeps_auto; auto. Qed.

Lemma mt_mark : keeps I (markRingKnown ring) (fun _ => True).
Proof. unfold markRingKnown. keeps_auto; auto. Qed.

Hint Resolve mt_query mt_has mt_usage mt_mark : keeps.

Lemma mt_AddRoot c e : keeps I (AddRootWithExpiry ring c e) (fun _ => True).
Proof. unfold AddRootWithExpiry. keeps_auto; auto. Qed.

Lemma mt_delta x y : keeps I (addUsageDelta ring x y) (fun _ => True).
Proof. by apply mt_modifyRing. Qed.

Lemma mt_size c : keeps I (blockSize c) (fun _ => True).
Proof. unfold blockSize. eapply keeps_true. keeps_auto. Qed.

Lemma mt_HasRoot now c : keeps I (HasRootStr now ring c) (fun _ => True).
Proof. unfold HasRootStr. keeps_auto; auto. Qed.

Lemma mt_count : keeps I (modifyRing ring (fun rc => mkRC rc.(rc_used) (wrap64 (rc.(rc_count) + 1)) rc.(rc_quota))) (fun _ => True).
Proof. by apply mt_modifyRing. Qed.

Hint Resolve mt_AddRoot mt_delta mt_size mt_HasRoot mt_count : keeps.

Lemma mt_index now key root size e adding : keeps I (index_block now ring key root size e adding) (fun _ => True).
Proof. unfold index_block. keeps_auto; auto. Qed.

Lemma mt_AddBlockRootIndex key root : keeps I (AddBlockRootIndex ring key root) (fun _ => True).
Proof. unfold AddBlockRootIndex. keeps_auto; auto. Qed.

End Metered.

Lemma never_AddBlockRootIndex ring key root : never_fails (AddBlockRootIndex ring key root).
Proof.
  unfold AddBlockRootIndex, dsPut_, addUsageDelta, modifyRing.
  never_auto; eauto using never_blockSize, never_ringHasBlock, never_getRingCounters, never_addCIDUsage, never_markRingKnown.
Qed.

Lemma keeps_never {A} (P : NBS -> Prop) (x : M NBS A) F : keeps P x F -> never_fails x -> succeeds P x (fun a s => P s /\ F a).
Proof. intros Hk Hn. by apply succeeds_keeps; [|intros s _; apply Hn]. Qed.

(** Indexing a block under one more root. *)
Lemma add_root_free ring key c e b :
  succeeds (metered ring b) (_ ← AddRootWithExpiry ring c e; AddBlockRootIndex ring key c) (fun _ => metered ring b).
Proof.
  eapply succeeds_bind_fact; [apply (keeps_never _ _ _ (mt_AddRoot ring b c e)), never_AddRootWithExpiry|]. intros _ _.
  eapply succeeds_weaken; [apply (keeps_never _ _ _ (mt_AddBlockRootIndex ring b key c)), never_AddBlockRootIndex|done|]. by intros _ s [Hs _].
Qed.

Lemma unlimited_same ring b b' s s' :
  unlimited ring b s -> nbs_ds s' = nbs_ds s -> nbs_rings s' = nbs_rings s -> nbs_maxBytes s' = nbs_maxBytes s ->
  blocks s' = b' -> unlimited ring b' s'.
Proof.
  intros [H1 H2 H3] Hd Hr Hm Hb. split; [done|by rewrite Hm|].
  unfold ring_quota, Quota, getRingCounters, read_counter, mbind, M_bind, m_bind, m_try, dsRead in *. cbn [m_get] in *.
  rewrite Hr. destruct (nbs_rings s !! ring) as [rc|]; [done|]. cbn in *. by rewrite Hd.
Qed.

(** A new block is written; [P] is what else holds of the store. *)
Lemma write_free (key : cid) (data : bytes) (b : gmap bytes bytes) (P : gmap bytes bytes -> NBS -> Prop) (other : error -> M NBS unit) s :
  blocks s = b -> b !! Hash key = None -> P b s ->
  (forall bs' n, bs_view bs' = <[Hash key := data]> b -> P b s -> P (<[Hash key := data]> b) (set_count n (set_bs bs' s))) ->
  exists s', (res ← m_try (bsWrite (bs_Put key data));
    match res with Err e => other e | Ok _ => m_modify (fun s => set_count (wrap64 (s.(nbs_count) + 1)) s) end) s = (s', Ok tt) /\
    P (<[Hash key := data]> b) s'.
Proof.
  intros Hb Hno HP Hstep. unfold mbind, M_bind, m_bind, m_try, bsWrite, blocks in *.
  pose proof (bs_Put_view key data (nbs_bs s)) as Hv. pose proof (bs_Put_ok key data (nbs_bs s)) as Hok.
  destruct (bs_Put key data (nbs_bs s)) as [bs' r]. cbn in Hv, Hok. subst r. eexists. split; [reflexivity|].
  apply Hstep; [|done]. rewrite Hv by by rewrite Hb. by rewrite Hb.
Qed.

(** A put into a store without a limit of its own. *)
Lemma Put_into (key : cid) (data : bytes) (b : gmap bytes bytes) (P : gmap bytes bytes -> NBS -> Prop) :
  (forall s, P b s -> blocks s = b /\ s.(nbs_maxBytes) <= 0) ->
  (forall s s' b', P b s -> nbs_ds s' = nbs_ds s -> nbs_rings s' = nbs_rings s -> nbs_maxBytes s' = nbs_maxBytes s ->
     blocks s' = b' -> P b' s') ->
  succeeds (P b) (Put key data) (fun _ => P (insert_new (Hash key) data b)).
Proof.
  intros HP Hsame s Hs. destruct (HP s Hs) as [Hb Hmax]. unfold Put, bsRead at 1. unfold mbind at 1, M_bind at 1, m_bind at 1.
  unfold blocks in Hb. rewrite bs_Has_view, Hb. unfold insert_new. case_bool_decide as Hin.
  { destruct Hin as [d Hd]. by rewrite Hd. }
  apply eq_None_not_Some in Hin. rewrite Hin. cbv zeta. unfold mbind at 1, M_bind at 1, m_bind at 1, reserveAggBytes.
  rewrite (proj2 (Z.leb_le _ _)) by done. rewrite NewBlockWithCid_ok. set (s1 := set_used _ s).
  destruct (write_free key data b P (fun e => _ ← addAggDelta (- Z.of_nat (length data)) 0; m_err e) s1) as (s2 & -> & Hs2); [done|done|..].
  - by eapply Hsame.
  - intros bs' n Hbs Hs1. by eapply Hsame.
  - done.
Qed.

Lemma Put_free ring key data b :
  succeeds (unlimited ring b) (Put key data) (fun _ => unlimited ring (insert_new (Hash key) data b)).
Proof.
  apply (Put_into key data b (unlimited ring)); [intros s Hs; split; apply Hs|].
  intros s s' b' Hs Hd Hr Hm Hb. by eapply unlimited_same.
Qed.

Definition roomy (b : gmap bytes bytes) (s : NBS) : Prop := blocks s = b /\ s.(nbs_maxBytes) <= 0.

Lemma Put_roomy key data b : succeeds (roomy b) (Put key data) (fun _ => roomy (insert_new (Hash key) data b)).
Proof. apply (Put_into key data b roomy); [done|]. intros s s' b' [_ Hm] _ _ Hm' Hb. split; [done|]. by rewrite Hm'. Qed.

Lemma add_root_roomy ring key c e b :
  succeeds (roomy b) (_ ← AddRootWithExpiry ring c e; AddBlockRootIndex ring key c) (fun _ => roomy b).
Proof.
  assert (MetaFree (roomy b)) as Hmf by by split.
  eapply succeeds_bind_fact; [apply (keeps_never _ _ _ (keeps_AddRootWithExpiry (roomy b) ring c e)), never_AddRootWithExpiry|]. intros _ _.
  eapply succeeds_weaken; [apply (keeps_never _ _ _ (keeps_AddBlockRootIndex (roomy b) ring key c)), never_AddBlockRootIndex|done|].
  by intros _ s [Hs _].
Qed.

Lemma reserve_free ring key size hasBlock rooted b :
  succeeds (unlimited ring b) (reserve_for ring key size hasBlock rooted) (fun out s => metered ring b s /\ exists p, out = Some p).
Proof.
  unfold reserve_for. apply (succeeds_bind_fact _ (unlimited ring b) (fun agg => exists x, agg = Some x)).
  { destruct hasBlock; [apply succeeds_ret; eauto|]. intros s Hs. unfold reserveAggBytes, mbind, M_bind, m_bind.
    rewrite (proj2 (Z.leb_le _ _)) by apply Hs. cbn. split; [|eauto]. by eapply unlimited_same; [exact Hs|..|apply Hs]. }
  intros agg [x ->]. apply (succeeds_bind _ _ _ (fun _ => metered ring b)).
  { eapply succeeds_weaken; [apply getRing_meters|done|]. by intros rc s [Hs _]. }
  intros ?. destruct rooted; [|apply succeeds_ret; eauto].
  eapply succeeds_bind_fact; [apply (keeps_never _ _ _ (mt_has ring b (HashHex key))), never_ringHasBlock|]. intros has _.
  destruct has; [apply succeeds_ret; eauto|]. intros s Hs.
  assert (succeeds (metered ring b) (reserveBytes ring size) (fun ok s => metered ring b s /\ ok = true)) as Hres.
  { unfold reserveBytes. eapply succeeds_bind_fact; [apply (keeps_never _ _ _ (mt_getRing ring b)), never_getRingCounters|].
    intros rc Hq. unfold rc_reserve. rewrite (proj2 (Z.ltb_ge _ _)) by done. intros s' (H1 & H2 & rc' & H3 & H4). cbn.
    split; [|done]. split_and!; [done..|]. cbn. rewrite lookup_alter_eq, H3. cbn. eexists. by split. }
  destruct (succeeds_final _ _ _ s Hres Hs) as (ok & s' & Hrun & Hs' & ->). erewrite run_bind by exact Hrun. cbn. eauto.
Qed.

Lemma PutWithRoot_free now ring key data root e b :
  succeeds (unlimited ring b) (PutWithRoot now ring key data root e) (fun _ => metered ring (insert_new (Hash key) data b)).
Proof.
  unfold PutWithRoot.
  apply (succeeds_bind_fact _ (unlimited ring b) (fun has => has = bool_decide (is_Some (b !! Hash key)))).
  { intros s Hs. unfold bsRead. rewrite bs_Has_view. pose proof (ul_blocks _ _ _ Hs) as Hb. unfold blocks in Hb. by rewrite Hb. }
  intros has ->. cbv zeta. eapply succeeds_bind_fact; [apply reserve_free|]. intros out [[agg ringed] ->].
  apply (succeeds_bind _ _ _ (fun _ => metered ring (insert_new (Hash key) data b))).
  - unfold insert_new. case_bool_decide as Hin; [destruct Hin as [d ->]; by apply succeeds_ret|].
    apply eq_None_not_Some in Hin. rewrite Hin, NewBlockWithCid_ok. intros s Hs.
    destruct (write_free key data b (metered ring) (fun e => _ ← unreserve ring (Z.of_nat (length data)) agg ringed; m_err e) s) as (s' & -> & Hs');
      [apply Hs|done|done| |done].
    intros bs' n Hbs (_ & H2 & H3). by split_and!.
  - intros ?. destruct root as [c|]; [|by apply succeeds_ret].
    eapply succeeds_weaken; [apply (keeps_never _ _ _ (mt_index ring (insert_new (Hash key) data b) now key c _ e ringed)), never_index_block|done|]. by intros _ s [Hs _].
Qed.

End Transfer.
