(* ===== verification/BlockHandover.v ===== *)
(** * Handing blocks over when a node joins or leaves

    [Join] asks its successor for the blocks of the range it takes over; the successor lets go of
    them as it answers. [Leave] pushes the blocks of the ring to the successor. With a plain store all
    blocks are the ring's; with the network block store, which several rings share, those indexed in
    the ring are, and the successor keeps a block that another ring wants. *)

From stdpp Require Import base gmap list strings.
From Stdlib Require Import ZArith Lia Strings.Byte.
From S2P Require Import Prelude Hoare Config Chord Routing Lookup Cluster Stable Sha1 Hex StoreKeys StoreDeps NetworkStore BlockStore RingIndex NetworkGC StoreCounters RingAccounting.
From S2P Require Import BlockNode BlockNet BlockPlacement RingTransfer.

Set Default Goal Selector "!".
Local Open Scope Z_scope.

Section Handover.
Context `{HD : StoreDeps} `{HL : !StoreLaws} `{HA : Addressing}.
Context {S L : Type} `{HS : !BlockStore S} `{HSL : !BlockStoreLaws S} `{HB : !BlockStore L} `{HBL : !BlockStoreLaws L}.
Context `{HF : !Unlimited S}.

#[local] Abbreviation world := (BlockWorld (S := S) (L := L)).
#[local] Abbreviation NB := (nodeBlocks (S := S)).

(** ** Work at one node *)

(** The world is [w0] but for the blocks of node [n], of which [P] holds. *)
Record focus (n : NodeID) (w0 : world) (P : NB -> Prop) (w : world) : Prop := {
  fo_node : exists nb, P nb /\ block_node n w = bn_set_blocks nb (block_node n w0);
  fo_others n' : n' <> n -> block_node n' w = block_node n' w0;
  fo_cluster : w.(bw_cluster) = w0.(bw_cluster);
  fo_now : w.(bw_now) = w0.(bw_now)
}.

(** A store of one kind. *)
Definition as_ {X} (kind : X -> NB) (P : X -> Prop) (nb : NB) : Prop := exists s, nb = kind s /\ P s.

Lemma focus_start n w (P : NB -> Prop) : P (block_node n w).(bn_blocks) -> focus n w P w.
Proof. intros HP. split; [|done..]. exists (block_node n w).(bn_blocks). split; [done|]. by destruct (block_node n w). Qed.

Lemma focus_impl n w0 (P Q : NB -> Prop) w : (forall nb, P nb -> Q nb) -> focus n w0 P w -> focus n w0 Q w.
Proof. intros HPQ [(nb & HP & Hn) H2 H3 H4]. split; [|done..]. eauto. Qed.

Lemma focus_fact {X} n w0 (kind : X -> NB) P (F : Prop) w :
  focus n w0 (as_ kind (fun s => P s /\ F)) w -> focus n w0 (as_ kind P) w /\ F.
Proof.
  intros [(nb & (s & -> & HP & HF') & Hn) H2 H3 H4]. split; [|done]. split; [|done..]. exists (kind s). split; [by exists s|done].
Qed.

Lemma focus_stored n w0 P w : focus n w0 P w -> exists nb, P nb /\ stored w n = nb_contents nb.
Proof. intros [(nb & HP & Hn) _ _ _]. exists nb. split; [done|]. unfold stored. by rewrite Hn. Qed.

Lemma focus_blocks {A} n w0 (x : M NB A) P Q E :
  triple P x Q E ->
  triple (focus n w0 P) (on_blocks (HB := block_env n) x) (fun a => focus n w0 (Q a)) (focus n w0 E).
Proof.
  intros Hx w [(nb & HP & Hn) H2 H3 H4]. unfold on_blocks. cbn [be_node be_set_node block_env]. rewrite Hn. cbn [bn_set_blocks bn_blocks].
  specialize (Hx nb HP). destruct (x nb) as [nb' [a|e]];
    (split; [exists nb'; split; [done|]; rewrite block_node_set, decide_True by done; done|
             intros n' Hn'; rewrite block_node_set, decide_False by done; by apply H2|done|done]).
Qed.

Lemma via_plain {A} (x : M S A) (y : M NBS A) P Q E :
  triple P x Q E -> triple (as_ PlainBlocks P) (via x y) (fun a => as_ PlainBlocks (Q a)) (as_ PlainBlocks E).
Proof. intros Hx nb (s & -> & Hs). cbn [via]. specialize (Hx s Hs). destruct (x s) as [s' [a|e]]; by exists s'. Qed.

Lemma via_ring {A} (x : M S A) (y : M NBS A) P Q E :
  triple P y Q E -> triple (as_ RingBlocks P) (via x y) (fun a => as_ RingBlocks (Q a)) (as_ RingBlocks E).
Proof. intros Hy nb (s & -> & Hs). cbn [via]. specialize (Hy s Hs). destruct (y s) as [s' [a|e]]; by exists s'. Qed.

Lemma focus_ring_or {A} n w0 (x : string -> Z -> M NBS A) (y : M S A) P Q E :
  triple P (via y (x (block_node n w0).(bn_ringID) w0.(bw_now))) Q E ->
  triple (focus n w0 P) (ring_or (HB := block_env n) x y) (fun a => focus n w0 (Q a)) (focus n w0 E).
Proof.
  intros Hx w Hw. unfold ring_or. cbn [be_node be_now block_env]. rewrite (fo_now _ _ _ _ Hw).
  destruct (fo_node _ _ _ _ Hw) as (nb & _ & Hn). rewrite Hn. cbn [bn_set_blocks bn_ringID]. by apply (focus_blocks n w0 _ _ _ _ Hx).
Qed.

(** A step that succeeds and returns a value of which [F] is known. *)
Lemma focus_succeeds {A X} n w0 (kind : X -> NB) (x : M world A) P Q F :
  triple (focus n w0 (as_ kind P)) x (fun a => focus n w0 (as_ kind (fun s => Q s /\ F a))) (focus n w0 (as_ kind (fun _ => False))) ->
  succeeds (focus n w0 (as_ kind P)) x (fun a w => focus n w0 (as_ kind Q) w /\ F a).
Proof.
  intros Hx w Hw. specialize (Hx w Hw). destruct (x w) as [w' [a|e]]; [by apply focus_fact|].
  by destruct (fo_node _ _ _ _ Hx) as (nb & (s & _ & []) & _).
Qed.

(** ** What a node has of its ring *)

(** All blocks of a plain store; of a network block store, those indexed in the ring. *)
Definition in_ring_of (w : world) (n : NodeID) (mh : bytes) : Prop :=
  match (block_node n w).(bn_blocks) with
  | PlainBlocks _ => True
  | RingBlocks nbs => exists r, seg_str r = (block_node n w).(bn_ringID) /\ indexed (meta_of nbs) r mh
  end.

(** Another ring of the same store has the block under a live root. *)
Definition wanted_elsewhere (w : world) (n : NodeID) (mh : bytes) : Prop :=
  match (block_node n w).(bn_blocks) with
  | PlainBlocks _ => False
  | RingBlocks nbs => exists r, seg_str r = (block_node n w).(bn_ringID) /\ held_elsewhere r w.(bw_now) (meta_of nbs) mh
  end.

(** The metadata of a network block store is in the form its operations give it, and the name of
    the ring is proper. *)
Definition tidy (w : world) (n : NodeID) : Prop :=
  match (block_node n w).(bn_blocks) with
  | PlainBlocks _ => True
  | RingBlocks nbs => seg_ok (block_node n w).(bn_ringID) = true /\
      rep (meta_of nbs) (blocks nbs) nbs.(nbs_rings) nbs /\ hex_entries (meta_of nbs)
  end.

(** A store in the state that its operations keep, in the sense of RingAccounting.v, is tidy. *)
Lemma accounted_tidy w n nbs :
  (block_node n w).(bn_blocks) = RingBlocks nbs -> seg_ok (block_node n w).(bn_ringID) = true -> accounted nbs -> tidy w n.
Proof.
  intros Hn Hring (m & b & R & Hrep & [[_ Hent _] _ _]). unfold tidy. rewrite Hn. split; [done|].
  assert (forall k, m k = meta_of nbs k) as Hm by (intros k; symmetry; apply (rep_meta _ _ _ _ Hrep)).
  split.
  - pose proof (rep_ext _ _ _ _ _ Hm Hrep) as [H1 H2 H3 H4 H5]. by split.
  - intros r mh c. rewrite <- Hm. intros Hc. destruct (Hent r mh c Hc) as (_ & h & d & Hh & _). by exists h.
Qed.

(** *** Reading *)

(** Handlers at [n] read the blocks [b], of which those in [off] are the ring's, and keep [K]. *)
Record readable (n : NodeID) (w0 : world) {X} (kind : X -> NB) (K : X -> Prop) (b : gmap bytes bytes) (off : bytes -> Prop) : Prop := {
  rd_keys : succeeds (focus n w0 (as_ kind K)) (ring_keys (HB := block_env n))
    (fun l w => focus n w0 (as_ kind K) w /\ NoDup (Hash <$> l) /\ forall h, h ∈ Hash <$> l <-> is_Some (b !! h) /\ off h);
  rd_get key : triple (focus n w0 (as_ kind K)) (on_blocks (HB := block_env n) (st_Get key))
    (fun d w => focus n w0 (as_ kind K) w /\ b !! Hash key = Some d) (fun w => focus n w0 (as_ kind K) w /\ b !! Hash key = None);
  rd_roots key : succeeds (focus n w0 (as_ kind K))
    (ring_or (HB := block_env n) (fun ring _ => RootsForBlockEntries ring key) (m_ret [])) (fun _ => focus n w0 (as_ kind K))
}.

Definition plain_at (b : gmap bytes bytes) (s : S) : Prop := st_ok s /\ contents s = b.
Definition ring_at (m : meta) (b : gmap bytes bytes) (s : NBS) : Prop := exists R, rep m b R s.

Lemma plain_readable n w0 b : readable n w0 PlainBlocks (plain_at b) b (fun _ => True).
Proof.
  split.
  - eapply (focus_succeeds _ _ _ _ _ _ (fun l => NoDup (Hash <$> l) /\ forall h, h ∈ Hash <$> l <-> is_Some (b !! h) /\ True)), focus_ring_or, via_plain.
    eapply triple_weaken; [exact (st_AllKeys_law b)|done| |done].
    intros l s [Hs Hl]. split; [done|]. split; [rewrite Hl; apply NoDup_fst_map_to_list|].
    intros h. rewrite Hl, list_elem_of_fmap. split.
    + intros ([h' d] & -> & Hd%elem_of_map_to_list). eauto.
    + intros [[d Hd] _]. exists (h, d). split; [done|]. by apply elem_of_map_to_list.
  - intros key w Hw.
    pose proof (focus_blocks n w0 _ _ _ _ (via_plain (st_Get key) (st_Get key) _ _ _ (st_Get_law key b)) w Hw) as Hx.
    cbn [st_Get nodeBlocks_store]. destruct (on_blocks _ w) as [w' [d|e]]; exact (focus_fact _ _ _ _ _ _ Hx).
  - intros key. eapply succeeds_weaken; [eapply (focus_succeeds _ _ _ _ _ _ (fun _ => True)), focus_ring_or, via_plain|done|].
    + by apply triple_ret.
    + by intros l w [Hw _].
Qed.

Lemma ring_readable n w0 r m b :
  seg_str r = (block_node n w0).(bn_ringID) -> hex_entries m -> readable n w0 RingBlocks (ring_at m b) b (indexed m r).
Proof.
  intros Hr Hhex. split.
  - eapply (focus_succeeds _ _ _ _ _ _ (fun l => NoDup (Hash <$> l) /\ forall h, h ∈ Hash <$> l <-> is_Some (b !! h) /\ indexed m r h)), focus_ring_or, via_ring.
    rewrite <- Hr. intros s [R Hs]. pose proof (rep_Blocks r m b R Hhex s Hs) as Hx.
    destruct (Blocks (seg_str r) s) as [s' [l|e]]; [|done]. destruct Hx as [Hs' Hl]. split; [by exists R|done].
  - intros key w Hw.
    assert (triple (ring_at m b) (Get key) (fun d s => ring_at m b s /\ b !! Hash key = Some d) (fun s => ring_at m b s /\ b !! Hash key = None)) as Hget.
    { intros s [R Hs]. unfold Get, bsRead. destruct (bs_Get key (nbs_bs s)) as [d|e] eqn:Hg.
      - apply bs_Get_view in Hg. rewrite (rep_blocks _ _ _ _ Hs) in Hg. split; [by exists R|done].
      - split; [by exists R|]. destruct (b !! Hash key) as [d|] eqn:Hd; [|done]. rewrite <- (rep_blocks _ _ _ _ Hs) in Hd.
        apply bs_Get_view in Hd. congruence. }
    pose proof (focus_blocks n w0 _ _ _ _ (via_ring (st_Get key) (st_Get key) _ _ _ Hget) w Hw) as Hx.
    cbn [st_Get nodeBlocks_store]. destruct (on_blocks _ w) as [w' [d|e]]; exact (focus_fact _ _ _ _ _ _ Hx).
  - intros key. eapply succeeds_weaken; [eapply (focus_succeeds _ _ _ _ _ _ (fun _ => True)), focus_ring_or, via_ring|done|].
    + eapply triple_weaken; [apply roots_read|done|done|done].
    + by intros l w [Hw _].
Qed.

(** The data in a block that is sent, without its roots. *)
Definition bare (b : carried) : carried := mkCarried b.(ca_key) b.(ca_data) [].

(** What a node sends of [keys]. *)
Definition sent (m : gmap bytes bytes) (keys : list cid) : list carried :=
  omap (fun key => (fun d => mkCarried key d []) <$> m !! Hash key) keys.

Lemma collect_sent {X} n w0 (kind : X -> NB) K b off keys :
  readable n w0 kind K b off ->
  succeeds (focus n w0 (as_ kind K)) (collect (HB := block_env n) keys)
    (fun l w => focus n w0 (as_ kind K) w /\ bare <$> l = sent b keys).
Proof.
  intros Hrd. induction keys as [|key keys IH]; cbn [collect]; [by apply succeeds_ret|].
  eapply (succeeds_bind_fact _ (focus n w0 (as_ kind K)) (fun r => b !! Hash key = match r with Ok d => Some d | Err _ => None end)).
  { intros w Hw. pose proof (rd_get _ _ _ _ _ _ Hrd key w Hw) as Hx. unfold m_try. by destruct (on_blocks _ w) as [w' [d|e]]. }
  unfold sent. cbn [omap list_omap]. intros [d|e] Hd; rewrite Hd; [|exact IH].
  eapply succeeds_bind; [apply (rd_roots _ _ _ _ _ _ Hrd)|]. intros roots.
  eapply succeeds_bind_fact; [exact IH|]. intros rest Hrest. apply succeeds_ret. intros w Hw. split; [done|].
  cbn [fmap list_fmap option_fmap option_map]. by rewrite Hrest.
Qed.

(** *** Letting go *)

Definition hashes (l : list carried) : list bytes := (fun b => Hash b.(ca_key)) <$> l.

(** The blocks [b'] are [b] without those among [hs] that are not held otherwise. *)
Definition left_after (hs : list bytes) (held : bytes -> Prop) (b b' : gmap bytes bytes) : Prop :=
  forall h d, b' !! h = Some d <-> b !! h = Some d /\ (h ∈ hs -> held h).

Lemma left_nil held b : left_after [] held b b.
Proof. intros h d. split; [|tauto]. intros Hh. split; [done|]. intros H%not_elem_of_nil. done. Qed.

Lemma left_cons h hs held b b1 b2 : left_after [h] held b b1 -> left_after hs held b1 b2 -> left_after (h :: hs) held b b2.
Proof. intros H1 H2 h' d. rewrite (H2 h' d), (H1 h' d), list_elem_of_singleton, elem_of_cons. tauto. Qed.

Lemma left_keep h (held : bytes -> Prop) b : held h -> left_after [h] held b b.
Proof. intros Hh h' d. rewrite list_elem_of_singleton. split; [|tauto]. intros Hd. split; [done|]. by intros ->. Qed.

Lemma left_delete h (held : bytes -> Prop) b : ~ held h -> left_after [h] held b (delete h b).
Proof.
  intros Hh h' d. rewrite list_elem_of_singleton, lookup_delete_Some. split.
  - intros [Hne Hd]. split; [done|]. intros ->. done.
  - intros [Hd Hheld]. split; [|done]. intros ->. by apply Hh, Hheld.
Qed.

Lemma let_go_plain n w0 l b :
  succeeds (focus n w0 (as_ PlainBlocks (plain_at b))) (let_go n l)
    (fun _ w => exists b', focus n w0 (as_ PlainBlocks (plain_at b')) w /\ left_after (hashes l) (fun _ => False) b b').
Proof.
  revert b. induction l as [|x l IH]; intros b; cbn [let_go].
  { apply succeeds_ret. intros w Hw. exists b. split; [done|]. apply left_nil. }
  eapply (succeeds_bind_fact _ (focus n w0 (as_ PlainBlocks (plain_at b))) (fun nd => has_ring nd = false)).
  { intros w Hw. split; [done|]. destruct (fo_node _ _ _ _ Hw) as (nb & (s & -> & _) & Hn). cbn [be_node storage_env target_env]. by rewrite Hn. }
  intros nd ->. eapply (succeeds_bind _ _ _ (fun _ => focus n w0 (as_ PlainBlocks (plain_at (delete (Hash x.(ca_key)) b))))).
  - apply succeeds_ignore. intros w Hw.
    assert (triple (plain_at b) (st_Delete x.(ca_key)) (fun _ => plain_at (delete (Hash x.(ca_key)) b)) (fun _ => False)) as Hdel.
    { intros s Hs. pose proof (st_Delete_law x.(ca_key) b s Hs) as Hd. pose proof (free_Delete x.(ca_key) s (proj1 Hs)) as Hok.
      by destruct (st_Delete _ s) as [s' [u|e]]. }
    pose proof (focus_blocks n w0 _ _ _ _ (via_plain (st_Delete x.(ca_key)) (st_Delete x.(ca_key)) _ _ _ Hdel) w Hw) as Hx.
    cbn [st_Delete nodeBlocks_store]. change (on_blocks (HB := target_env n) ?a w) with (on_blocks (HB := block_env n) a w).
    destruct (on_blocks _ w) as [w' [u|e]]; [done|]. by destruct (fo_node _ _ _ _ Hx) as (nb & (s & _ & []) & _).
  - intros ?. eapply succeeds_weaken; [apply IH|done|]. intros _ w (b' & Hw & Hb'). exists b'. split; [done|].
    eapply left_cons; [|exact Hb']. apply left_delete. by intros [].
Qed.

(** A network block store whose metadata differs from [m] in ring [r] only. *)
Definition ring_since (r : seg) (m : meta) (b : gmap bytes bytes) (s : NBS) : Prop := exists m', same_elsewhere r m m' /\ ring_at m' b s.

Lemma let_go_ring n w0 r m l b :
  seg_str r = (block_node n w0).(bn_ringID) -> (forall x, x ∈ l -> exists mh, seg_str mh = HashHex x.(ca_key)) ->
  succeeds (focus n w0 (as_ RingBlocks (ring_since r m b))) (let_go n l)
    (fun _ w => exists b', focus n w0 (as_ RingBlocks (ring_since r m b')) w /\ left_after (hashes l) (held_elsewhere r w0.(bw_now) m) b b').
Proof.
  intros Hr. revert b. induction l as [|x l IH]; intros b Hl; cbn [let_go].
  { apply succeeds_ret. intros w Hw. exists b. split; [done|]. apply left_nil. }
  eapply (succeeds_bind_fact _ (focus n w0 (as_ RingBlocks (ring_since r m b))) (fun nd => has_ring nd = true)).
  { intros w Hw. split; [done|]. destruct (fo_node _ _ _ _ Hw) as (nb & (s & -> & _) & Hn). cbn [be_node storage_env target_env]. by rewrite Hn. }
  intros nd ->. destruct (Hl x) as [mh Hmh]; [set_solver|].
  eapply (succeeds_bind _ _ _ (fun _ w => exists b', focus n w0 (as_ RingBlocks (ring_since r m b')) w /\
    left_after [Hash x.(ca_key)] (held_elsewhere r w0.(bw_now) m) b b')).
  - intros w Hw. unfold drop_unless_live. change (ring_or (HB := target_env n) ?a ?c w) with (ring_or (HB := block_env n) a c w).
    set (Q := fun s => exists b', ring_since r m b' s /\ left_after [Hash x.(ca_key)] (held_elsewhere r w0.(bw_now) m) b b').
    set (body := fun ring now => _).
    assert (triple (ring_since r m b) (body (bn_ringID (block_node n w0)) (bw_now w0)) (fun _ => Q) (fun _ => False)) as Hbody.
    { rewrite <- Hr. intros s (m1 & Hsame & R & Hs). unfold body. pose proof (rep_let_go r (bw_now w0) x.(ca_key) mh m1 b R Hmh s Hs) as Hgo.
      match type of Hgo with context [?x s] => destruct (x s) as [s' [u|e]]; [|done] end. destruct Hgo as (m2 & b' & R' & Hs' & Hsame2 & Hb'). exists b'. split.
      - exists m2. split; [by eapply same_elsewhere_trans|]. by exists R'.
      - rewrite (held_same_elsewhere r (bw_now w0) m m1) in Hb' by done. destruct Hb' as [[-> Hh]|[-> Hh]]; [by apply left_keep|by apply left_delete]. }
    pose proof (focus_ring_or n w0 body (m_ret tt) _ _ _ (via_ring _ _ _ _ _ Hbody) w Hw) as Hx.
    destruct (ring_or _ _ w) as [w' [u|e]].
    + destruct Hx as [(nb & (s & -> & b' & Hb' & Hleft) & Hn) H2 H3 H4]. exists b'. split; [|done]. split; [|done..].
      exists (RingBlocks s). split; [by exists s|done].
    + by destruct (fo_node _ _ _ _ Hx) as (nb & (s & _ & []) & _).
  - intros ? w (b1 & Hw & Hb1). pose proof (IH b1 ltac:(set_solver) w Hw) as Hrest. destruct (let_go n l w) as [w' [u|e]]; [|done].
    destruct Hrest as (b2 & Hw2 & Hb2). exists b2. split; [done|]. by eapply left_cons.
Qed.

(** ** What is sent *)

Definition put_all (l : list carried) (m : gmap bytes bytes) : gmap bytes bytes :=
  foldl (fun m b => insert_new (Hash b.(ca_key)) b.(ca_data) m) m l.

Definition bytes_of (l : list carried) : Z := foldr (fun b n => Z.of_nat (length b.(ca_data)) + n) 0 l.

Lemma bytes_of_nonneg l : 0 <= bytes_of l.
Proof. induction l as [|b l IH]; cbn [bytes_of foldr]; [done|]. fold (bytes_of l). lia. Qed.

Lemma bytes_of_bare l : bytes_of (bare <$> l) = bytes_of l.
Proof. induction l as [|b l IH]; [done|]. cbn [bytes_of foldr fmap list_fmap bare ca_data] in *. unfold bytes_of in IH. by rewrite IH. Qed.

Lemma total_insert_new mh (d : bytes) m : total (insert_new mh d m) <= total m + Z.of_nat (length d).
Proof. unfold insert_new. destruct (m !! mh) eqn:Hm; [lia|]. rewrite total_insert by done. lia. Qed.

Lemma sent_elem m keys b : b ∈ sent m keys <-> b.(ca_key) ∈ keys /\ m !! Hash b.(ca_key) = Some b.(ca_data) /\ b.(ca_roots) = [].
Proof.
  unfold sent. rewrite list_elem_of_omap. split.
  - intros (key & Hkey & Hb). destruct (m !! Hash key) as [d|] eqn:Hd; [|done]. cbn in Hb. by simplify_eq/=.
  - intros (Hkey & Hd & Hr). exists b.(ca_key). split; [done|]. rewrite Hd. destruct b. cbn in *. by subst.
Qed.

Lemma sent_bytes m keys : NoDup (Hash <$> keys) -> bytes_of (sent m keys) <= total m.
Proof.
  revert m. induction keys as [|key keys IH]; intros m; [intros _; apply total_nonneg|].
  rewrite fmap_cons, NoDup_cons. intros [Hkey Hnd]. unfold sent in *. cbn [omap list_omap].
  destruct (m !! Hash key) as [d|] eqn:Hd; [|by apply IH]. cbn [fmap option_fmap option_map bytes_of foldr ca_data].
  rewrite (total_delete m (Hash key) d Hd). specialize (IH (delete (Hash key) m) Hnd).
  enough (omap (fun key => (fun d => mkCarried key d []) <$> m !! Hash key) keys =
          omap (fun key0 => (fun d => mkCarried key0 d []) <$> delete (Hash key) m !! Hash key0) keys) as -> by (unfold bytes_of in IH; lia).
  clear - Hkey. induction keys as [|k keys IH]; [done|]. rewrite fmap_cons, not_elem_of_cons in Hkey.
  cbn [omap list_omap]. rewrite lookup_delete_ne by naive_solver. rewrite IH by naive_solver. done.
Qed.

(** The list [l] carries the blocks of [m] in [off], once each. *)
Definition carries (m : gmap bytes bytes) (off : bytes -> Prop) (l : list carried) : Prop :=
  exists keys, bare <$> l = sent m keys /\ NoDup (Hash <$> keys) /\ forall h, h ∈ Hash <$> keys <-> is_Some (m !! h) /\ off h.

Lemma carries_elem m off l b : carries m off l -> b ∈ l -> m !! Hash b.(ca_key) = Some b.(ca_data) /\ off (Hash b.(ca_key)).
Proof.
  intros (keys & Hl & _ & Hkeys) Hb. apply (list_elem_of_fmap_2 bare) in Hb. rewrite Hl in Hb. apply sent_elem in Hb as (Hk & Hm & _).
  cbn [bare ca_key ca_data] in *. split; [done|]. apply (list_elem_of_fmap_2 Hash), Hkeys in Hk. by destruct Hk.
Qed.

Lemma carries_all m off l h d : carries m off l -> m !! h = Some d -> off h -> exists b, b ∈ l /\ Hash b.(ca_key) = h /\ b.(ca_data) = d.
Proof.
  intros (keys & Hl & _ & Hkeys) Hm Ho. assert (h ∈ Hash <$> keys) as (key & -> & Hkey)%list_elem_of_fmap by (apply Hkeys; eauto).
  assert (mkCarried key d [] ∈ bare <$> l) as Hb by (rewrite Hl; by apply sent_elem).
  apply list_elem_of_fmap in Hb as (b & E & Hb). destruct b as [k d' rs]. unfold bare in E. cbn in E. injection E as <- <-.
  by exists (mkCarried key d rs).
Qed.

Lemma carries_hashes m off l h : carries m off l -> h ∈ hashes l <-> is_Some (m !! h) /\ off h.
Proof.
  intros Hc. unfold hashes. rewrite list_elem_of_fmap. split.
  - intros (b & -> & Hb). destruct (carries_elem _ _ _ _ Hc Hb) as [Hm Ho]. rewrite Hm. eauto.
  - intros [[d Hd] Ho]. destruct (carries_all _ _ _ _ _ Hc Hd Ho) as (b & Hb & Hh & _). eauto.
Qed.

Lemma carries_bytes m off l : carries m off l -> bytes_of l <= total m.
Proof. intros (keys & Hl & Hnd & _). rewrite <- bytes_of_bare, Hl. by apply sent_bytes. Qed.

Lemma carries_addressed m off l :
  (forall h d, m !! h = Some d -> addressed h d) -> carries m off l -> Forall (fun b => addressed (Hash b.(ca_key)) b.(ca_data)) l.
Proof. intros Hm Hc. apply Forall_forall. intros b Hb. apply Hm. by destruct (carries_elem _ _ _ _ Hc Hb). Qed.

Lemma insert_new_lookup h (d : bytes) m h' d' :
  addressed h d -> (forall h d, m !! h = Some d -> addressed h d) ->
  insert_new h d m !! h' = Some d' <-> m !! h' = Some d' \/ (h = h' /\ d = d').
Proof.
  intros Hd Hm. unfold insert_new. destruct (m !! h) as [d0|] eqn:Hh.
  - split; [by left|]. intros [?|[<- <-]]; [done|]. rewrite Hh. f_equal. by eapply addressed_fun; [apply Hm|].
  - rewrite lookup_insert_Some. split; [tauto|]. intros [Hm'|?]; [|by left]. right. split; [|done]. intros ->. congruence.
Qed.

Lemma put_all_lookup l m h d :
  Forall (fun b => addressed (Hash b.(ca_key)) b.(ca_data)) l -> (forall h d, m !! h = Some d -> addressed h d) ->
  put_all l m !! h = Some d <-> m !! h = Some d \/ exists b, b ∈ l /\ Hash b.(ca_key) = h /\ b.(ca_data) = d.
Proof.
  revert m. induction l as [|b l IH]; intros m Hl Hm; unfold put_all in *; cbn [foldl].
  { split; [by left|]. intros [?|(b & Hb & _)]; [done|]. by apply not_elem_of_nil in Hb. }
  apply Forall_cons in Hl as [Hb Hl]. rewrite IH; [|done|].
  - rewrite insert_new_lookup by done. setoid_rewrite elem_of_cons. split.
    + intros [[?|[? ?]]|(b' & ? & ?)]; [by left|right; exists b; auto|right; exists b'; auto].
    + intros [?|(b' & [->|?] & ?)]; [by left; left|by left; right|right; exists b'; auto].
  - intros h' d' [?|[<- <-]]%insert_new_lookup; auto.
Qed.

Lemma put_all_carried m0 off l m h d :
  (forall h d, m0 !! h = Some d -> addressed h d) -> (forall h d, m !! h = Some d -> addressed h d) -> carries m0 off l ->
  put_all l m !! h = Some d <-> m !! h = Some d \/ (m0 !! h = Some d /\ off h).
Proof.
  intros Hm0 Hm Hc. rewrite put_all_lookup; [|exact (carries_addressed m0 off l Hm0 Hc)|done].
  split; (intros [?|Hx]; [by left|right]).
  - destruct Hx as (b & Hb & <- & <-). by eapply carries_elem.
  - destruct Hx as [Hd Ho]. by eapply carries_all.
Qed.

(** *** The sender *)

Lemma gather {X} n w (kind : X -> NB) K b off (p : cid -> bool) (q : bytes -> bool) :
  (forall key, p key = q (Hash key)) -> readable n w kind K b off -> focus n w (as_ kind K) w ->
  exists keys l w1 w2, ring_keys (HB := block_env n) w = (w1, Ok keys) /\ collect (HB := block_env n) (filterb p keys) w1 = (w2, Ok l) /\
    focus n w (as_ kind K) w2 /\ carries b (fun h => q h = true /\ off h) l.
Proof.
  intros Hpq Hrd Hw. destruct (succeeds_final _ _ _ w (rd_keys _ _ _ _ _ _ Hrd) Hw) as (keys & w1 & Hrun1 & Hw1 & Hnd & Hkeys).
  destruct (succeeds_final _ _ _ w1 (collect_sent n w kind K b off (filterb p keys) Hrd) Hw1) as (l & w2 & Hrun2 & Hw2 & Hl).
  exists keys, l, w1, w2. split_and!; [done..|]. exists (filterb p keys). split; [done|]. split; [by apply NoDup_filterb_fmap|].
  intros h. rewrite list_elem_of_fmap. split.
  - intros (key & -> & [Hp Hkey]%elem_of_filterb). rewrite Hpq in Hp. apply (list_elem_of_fmap_2 Hash), Hkeys in Hkey. tauto.
  - intros (Hb & Hq & Ho). assert (h ∈ Hash <$> keys) as (key & -> & Hkey)%list_elem_of_fmap by by apply Hkeys.
    exists key. split; [done|]. apply elem_of_filterb. by rewrite Hpq.
Qed.

(** The block goes to a node that takes over the range from [from] to [to]. *)
Definition moves (w : world) (n from to : NodeID) (mh : bytes) : Prop :=
  BetweenRightInclusive (CIDToNodeID mh) from to = true /\ in_ring_of w n mh.

Lemma Transfer_moves w t from to :
  nb_ok (block_node t w).(bn_blocks) -> tidy w t ->
  exists l w1, serve_TransferKeys t from to w = (w1, Ok l) /\ carries (stored w t) (moves w t from to) l /\
    left_after (hashes l) (wanted_elsewhere w t) (stored w t) (stored w1 t) /\
    (forall n, n <> t -> block_node n w1 = block_node n w) /\ w1.(bw_cluster) = w.(bw_cluster).
Proof.
  intros Hok Htidy. unfold serve_TransferKeys, collectRingBlocksInRange, moves, wanted_elsewhere, in_ring_of, tidy in *.
  assert (stored w t = nb_contents (block_node t w).(bn_blocks)) as Hst by done. rewrite Hst. clear Hst.
  change (ring_keys (HB := target_env t)) with (ring_keys (HB := block_env (S := S) (L := L) t)).
  change (collect (HB := target_env t)) with (collect (HB := block_env (S := S) (L := L) t)).
  destruct (block_node t w).(bn_blocks) as [s|nbs] eqn:Hb; cbn [nb_contents].
  - destruct (gather t w PlainBlocks (plain_at (contents s)) (contents s) (fun _ => True) (in_range from to)
      (fun h => BetweenRightInclusive (CIDToNodeID h) from to)) as (keys & l & w1 & w2 & Hrun1 & Hrun2 & Hw2 & Hl); [done|apply plain_readable| |].
    { apply focus_start. rewrite Hb. by exists s. }
    destruct (succeeds_final _ _ _ w2 (let_go_plain t w l (contents s)) Hw2) as ([] & w3 & Hrun3 & b' & Hw3 & Hleft).
    exists l, w3. unfold mbind, M_bind, m_bind. rewrite Hrun1, Hrun2, Hrun3. split_and!; [done|done| |apply Hw3|apply Hw3].
    destruct (focus_stored _ _ _ _ Hw3) as (nb & (s' & -> & _ & Hs') & ->). cbn [nb_contents]. by rewrite Hs'.
  - destruct Htidy as (Hring & Hrep & Hhex). set (r := mkSeg _ Hring). assert (seg_str r = (block_node t w).(bn_ringID)) as Hr by done.
    assert (forall P : seg -> Prop, (exists r', seg_str r' = (block_node t w).(bn_ringID) /\ P r') <-> P r) as Hone.
    { intros P. split; [|intros HP; by exists r]. intros (r' & Hr' & HP). assert (r' = r) as <- by (apply seg_eq; congruence). done. }
    destruct (gather t w RingBlocks (ring_at (meta_of nbs) (blocks nbs)) (blocks nbs) (indexed (meta_of nbs) r) (in_range from to)
      (fun h => BetweenRightInclusive (CIDToNodeID h) from to)) as (keys & l & w1 & w2 & Hrun1 & Hrun2 & Hw2 & Hl); [done|by apply ring_readable| |].
    { apply focus_start. rewrite Hb. exists nbs. split; [done|]. by eexists. }
    assert (focus t w (as_ RingBlocks (ring_since r (meta_of nbs) (blocks nbs))) w2) as Hw2'.
    { eapply focus_impl; [|exact Hw2]. intros nb (s & -> & Hs). exists s. split; [done|]. exists (meta_of nbs). split; [apply same_elsewhere_refl|done]. }
    assert (forall x, x ∈ l -> exists mh, seg_str mh = HashHex x.(ca_key)) as Hsegs.
    { intros x Hx. destruct (carries_elem _ _ _ _ Hl Hx) as (_ & _ & mh & c & Hmh & _). by exists mh. }
    destruct (succeeds_final _ _ _ w2 (let_go_ring t w r (meta_of nbs) l (blocks nbs) Hr Hsegs) Hw2') as ([] & w3 & Hrun3 & b' & Hw3 & Hleft).
    exists l, w3. unfold mbind, M_bind, m_bind. rewrite Hrun1, Hrun2, Hrun3. split_and!; [done| | |apply Hw3|apply Hw3].
    + destruct Hl as (ks & H1 & H2 & H3). exists ks. split_and!; [done..|]. intros h. rewrite (H3 h), Hone. done.
    + destruct (focus_stored _ _ _ _ Hw3) as (nb & (s' & -> & m' & _ & R & Hs') & ->). cbn [nb_contents].
      pose proof (rep_blocks _ _ _ _ Hs') as Hbl. unfold blocks at 2. rewrite Hbl. intros h d. rewrite (Hleft h d), Hone. done.
Qed.

(** *** The receiver *)

(** The store has no limit; neither has a plain store, see [Unlimited]. *)
Definition no_limit (w : world) (n : NodeID) : Prop :=
  match (block_node n w).(bn_blocks) with PlainBlocks _ => True | RingBlocks nbs => nbs.(nbs_maxBytes) <= 0 end.

Lemma put_plain key data b :
  addressed (Hash key) data -> has_room data b ->
  triple (plain_at b) (st_Put key data) (fun _ => plain_at (insert_new (Hash key) data b)) (fun _ => False).
Proof.
  intros Hd Hr s Hs. pose proof (st_Put_law key data b Hd Hr s Hs) as Hput. pose proof (free_Put key data s (proj1 Hs)) as Hok.
  by destruct (st_Put key data s) as [s' [u|e]].
Qed.

Lemma kind_false {X} n w0 (kind : X -> NB) w : ~ focus n w0 (as_ kind (fun _ => False)) w.
Proof. intros Hw. by destruct (fo_node _ _ _ _ Hw) as (nb & (s & _ & []) & _). Qed.

Lemma focus_put {X} n w0 (kind : X -> NB) key data P Q :
  triple (as_ kind P) (st_Put key data) (fun _ => as_ kind Q) (as_ kind (fun _ => False)) ->
  succeeds (focus n w0 (as_ kind P)) (on_blocks (HB := block_env n) (st_Put key data)) (fun _ => focus n w0 (as_ kind Q)).
Proof.
  intros Hx w Hw. pose proof (focus_blocks n w0 _ _ _ _ Hx w Hw) as Hrun.
  destruct (on_blocks _ w) as [w' [u|e]]; [done|]. by apply kind_false in Hrun.
Qed.

Lemma receive_plain n w0 b x :
  addressed (Hash x.(ca_key)) x.(ca_data) -> has_room x.(ca_data) b ->
  succeeds (focus n w0 (as_ PlainBlocks (plain_at b))) (receive (HB := block_env n) x)
    (fun _ => focus n w0 (as_ PlainBlocks (plain_at (insert_new (Hash x.(ca_key)) x.(ca_data) b)))).
Proof.
  intros Hd Hr. unfold receive. eapply (succeeds_bind_fact _ (focus n w0 (as_ PlainBlocks (plain_at b))) (fun nd => has_ring nd = false)).
  { intros w Hw. split; [done|]. destruct (fo_node _ _ _ _ Hw) as (nb & (s & -> & _) & Hn). cbn [be_node block_env]. by rewrite Hn. }
  intros nd ->. apply succeeds_ignore, focus_put. by apply via_plain, put_plain.
Qed.

Lemma receive_ring n w0 b x :
  succeeds (focus n w0 (as_ RingBlocks (roomy b))) (receive (HB := block_env n) x)
    (fun _ => focus n w0 (as_ RingBlocks (roomy (insert_new (Hash x.(ca_key)) x.(ca_data) b)))).
Proof.
  unfold receive. eapply (succeeds_bind_fact _ (focus n w0 (as_ RingBlocks (roomy b))) (fun nd => has_ring nd = true)).
  { intros w Hw. split; [done|]. destruct (fo_node _ _ _ _ Hw) as (nb & (s & -> & _) & Hn). cbn [be_node block_env]. by rewrite Hn. }
  intros nd ->. set (b' := insert_new _ _ b). eapply (succeeds_bind _ _ _ (fun _ => focus n w0 (as_ RingBlocks (roomy b')))).
  { apply succeeds_ignore, focus_put. apply via_ring. exact (Put_roomy x.(ca_key) x.(ca_data) b). }
  intros ?. apply (succeeds_forM (fun _ => focus n w0 (as_ RingBlocks (roomy b')))). intros _ nr _ _ w Hw.
  pose proof (focus_ring_or n w0 (fun ring _ => _ ← AddRootWithExpiry ring nr.(re_CID) nr.(re_ExpiresAt); AddBlockRootIndex ring x.(ca_key) nr.(re_CID))
    (m_ret tt) _ _ _ (via_ring _ _ _ _ _ (add_root_roomy _ x.(ca_key) nr.(re_CID) nr.(re_ExpiresAt) b')) w Hw) as Hx.
  destruct (ring_or _ _ w) as [w' [u|e]]; [done|]. by apply kind_false in Hx.
Qed.

(** Storing a list, block by block. *)
Lemma store_list {X} (n : NodeID) (w0 : world) (kind : X -> NB) (K : gmap bytes bytes -> X -> Prop) (step : carried -> M world unit) (l : list carried) (b : gmap bytes bytes) :
  (forall (x : carried) (b : gmap bytes bytes), addressed (Hash x.(ca_key)) x.(ca_data) -> has_room x.(ca_data) b ->
     succeeds (focus n w0 (as_ kind (K b))) (step x) (fun _ => focus n w0 (as_ kind (K (insert_new (Hash x.(ca_key)) x.(ca_data) b))))) ->
  Forall (fun x => addressed (Hash x.(ca_key)) x.(ca_data)) l -> total b + bytes_of l < 2 ^ 63 ->
  succeeds (focus n w0 (as_ kind (K b))) (m_forM l step) (fun _ => focus n w0 (as_ kind (K (put_all l b)))).
Proof.
  intros Hstep. revert b. induction l as [|x l IH]; intros b Hl Hroom; cbn [m_forM]; [by apply succeeds_ret|].
  apply Forall_cons in Hl as [Hx Hl]. cbn [bytes_of foldr] in Hroom. fold (bytes_of l) in Hroom. pose proof (bytes_of_nonneg l) as Hpos.
  eapply succeeds_bind; [apply Hstep; [done|unfold has_room; lia]|]. intros ?.
  apply IH; [done|]. pose proof (total_insert_new (Hash x.(ca_key)) x.(ca_data) b). lia.
Qed.

Lemma Receive_all w n l :
  nb_ok (block_node n w).(bn_blocks) -> no_limit w n ->
  Forall (fun x => addressed (Hash x.(ca_key)) x.(ca_data)) l -> total (stored w n) + bytes_of l < 2 ^ 63 ->
  exists w', m_forM l (receive (HB := block_env n)) w = (w', Ok tt) /\ stored w' n = put_all l (stored w n) /\
    forall n', n' <> n -> block_node n' w' = block_node n' w.
Proof.
  intros Hok Hlim Hl Hroom. unfold no_limit in Hlim.
  assert (stored w n = nb_contents (block_node n w).(bn_blocks)) as Hst by done. rewrite Hst in *. clear Hst.
  destruct (block_node n w).(bn_blocks) as [s|nbs] eqn:Hb; cbn [nb_contents] in *.
  - destruct (succeeds_final _ _ _ w (store_list n w PlainBlocks plain_at receive l (contents s) (fun x b => receive_plain n w b x) Hl Hroom))
      as ([] & w' & Hrun & Hw').
    { apply focus_start. rewrite Hb. by exists s. }
    exists w'. split_and!; [done| |apply Hw']. by destruct (focus_stored _ _ _ _ Hw') as (nb & (s' & -> & _ & Hs') & ->).
  - destruct (succeeds_final _ _ _ w (store_list n w RingBlocks roomy receive l (blocks nbs) (fun x b _ _ => receive_ring n w b x) Hl Hroom))
      as ([] & w' & Hrun & Hw').
    { apply focus_start. rewrite Hb. by exists nbs. }
    exists w'. split_and!; [done| |apply Hw']. by destruct (focus_stored _ _ _ _ Hw') as (nb & (s' & -> & Hs' & _) & ->).
Qed.

(** ** Joining *)

(** C22: joining moves the blocks of the range that the new node takes over, and exactly these. With a
    store without limit at the new node, it has afterwards what it had and the successor's blocks of
    the ring in the range; the successor has what it had without those, but for blocks that another
    ring of the same store wants; and no other node's blocks change. This covers plain stores and
    network block stores on either side. So every block of the successor is still at one of the two. *)
Theorem handover_moves_blocks (w : world) (j pred : NodeID) (succ : NodeAddr) :
  connected w.(bw_cluster) -> na_id succ ∈ dom w.(bw_cluster).(cl_nodes) -> na_id succ <> j ->
  (node_state j w.(bw_cluster)).(r_id) = j -> sound_world w -> tidy w (na_id succ) -> no_limit w j ->
  total (stored w j) + total (stored w (na_id succ)) < 2 ^ 63 ->
  exists w', Join_blocks (HN := routing_env j) (HB := block_env j) succ pred w = (w', Ok tt) /\
    (forall mh d, stored w' j !! mh = Some d <->
       stored w j !! mh = Some d \/ (stored w (na_id succ) !! mh = Some d /\ moves w (na_id succ) pred j mh)) /\
    (forall mh d, stored w' (na_id succ) !! mh = Some d <->
       stored w (na_id succ) !! mh = Some d /\ (moves w (na_id succ) pred j mh -> wanted_elsewhere w (na_id succ) mh)) /\
    (forall mh d, stored w (na_id succ) !! mh = Some d -> stored w' j !! mh = Some d \/ stored w' (na_id succ) !! mh = Some d) /\
    (forall n, n <> j -> n <> na_id succ -> stored w' n = stored w n).
Proof.
  intros Hc Hin Hne Hid Hw Htidy Hlim Hroom.
  destruct (Transfer_moves w (na_id succ) pred j) as (l & w1 & Hrun1 & Hl & Hleft & Hoth1 & Hcl); [apply (sw_blocks w Hw)|done|].
  assert (block_node j w1 = block_node j w) as Hj by by apply Hoth1, not_eq_sym.
  destruct (Receive_all w1 j l) as (w2 & Hrun2 & Hst2 & Hoth2).
  - rewrite Hj. apply (sw_blocks w Hw).
  - unfold no_limit in *. by rewrite Hj.
  - eapply carries_addressed; [|exact Hl]. apply (sw_addressed w Hw).
  - unfold stored at 1. rewrite Hj. pose proof (carries_bytes _ _ _ Hl). fold (stored w j). lia.
  - assert (forall mh d, stored w2 j !! mh = Some d <->
       stored w j !! mh = Some d \/ (stored w (na_id succ) !! mh = Some d /\ moves w (na_id succ) pred j mh)) as Hnew.
    { intros mh d. rewrite Hst2. unfold stored at 1. rewrite Hj. fold (stored w j).
      apply (put_all_carried (stored w (na_id succ))); [apply (sw_addressed w Hw)|apply (sw_addressed w Hw)|done]. }
    assert (stored w2 (na_id succ) = stored w1 (na_id succ)) as Hold by (unfold stored; by rewrite Hoth2).
    exists w2. split_and!; [|exact Hnew|..].
    + unfold Join_blocks, getRouting, mbind, M_bind, m_bind, m_try. cbn [routing_env localTransport ne_routing block_env bt_TransferKeys].
      rewrite Hid. unfold local_TransferKeys, BlockNet.at_node. destruct (connected_getNode _ j (na_id succ) Hc Hin) as [r ->].
      by rewrite Hrun1, Hrun2.
    + intros mh d. rewrite Hold, (Hleft mh d), (carries_hashes _ _ _ mh Hl).
      split; [intros [Hd H]; split; [done|]; intros Hm; apply H; eauto|tauto].
    + intros mh d Hd. rewrite Hnew, Hold, (Hleft mh d). destruct (decide (mh ∈ hashes l)) as [Hin'|Hnot]; [|right; tauto].
      apply (carries_hashes _ _ _ mh Hl) in Hin' as [_ Hm]. tauto.
    + intros n Hnj Hns. unfold stored. by rewrite Hoth2, Hoth1.
Qed.

(** ** Leaving *)

(** The ring has no quota at the node. *)
Definition no_quota (w : world) (n : NodeID) : Prop :=
  match (block_node n w).(bn_blocks) with
  | PlainBlocks _ => True
  | RingBlocks nbs => ring_quota (block_node n w).(bn_ringID) nbs <= 0
  end.

Lemma accept_plain n w0 b x :
  addressed (Hash x.(ca_key)) x.(ca_data) -> has_room x.(ca_data) b ->
  succeeds (focus n w0 (as_ PlainBlocks (plain_at b))) (accept_block n x)
    (fun ok w => focus n w0 (as_ PlainBlocks (plain_at (insert_new (Hash x.(ca_key)) x.(ca_data) b))) w /\ ok = true).
Proof.
  intros Hd Hr. unfold accept_block, target_env.
  eapply (succeeds_bind_fact _ (focus n w0 (as_ PlainBlocks (plain_at b))) (fun nd => has_ring nd = false)).
  { intros w Hw. split; [done|]. destruct (fo_node _ _ _ _ Hw) as (nb & (s & -> & _) & Hn). cbn [be_node storage_env]. by rewrite Hn. }
  intros nd ->. cbv zeta. set (root := match ca_roots x with [] => None | _ => _ end).
  assert (root = None) as -> by (unfold root; by destruct (ca_roots x)).
  eapply succeeds_bind; [apply succeeds_try, focus_put; by apply via_plain, put_plain|].
  intros res w (u & -> & Hw). by split.
Qed.

Lemma accept_ring n w0 b x :
  let ring := (block_node n w0).(bn_ringID) in
  succeeds (focus n w0 (as_ RingBlocks (unlimited ring b))) (accept_block n x)
    (fun ok w => focus n w0 (as_ RingBlocks (unlimited ring (insert_new (Hash x.(ca_key)) x.(ca_data) b))) w /\ ok = true).
Proof.
  intros ring. unfold accept_block, target_env. set (b' := insert_new _ _ b).
  eapply (succeeds_bind _ _ _ (fun _ => focus n w0 (as_ RingBlocks (unlimited ring b)))); [by intros w Hw|].
  intros nd. cbv zeta. set (root := match ca_roots x with [] => None | _ => _ end). clearbody root. destruct root as [[rc exp]|].
  2: { eapply succeeds_bind; [apply succeeds_try, focus_put, via_ring, (Put_free ring)|]. intros res w (u & -> & Hw). by split. }
  eapply (succeeds_bind _ _ _ (fun r w => r = Ok tt /\ focus n w0 (as_ RingBlocks (metered ring b')) w)).
  { intros w Hw. pose proof (focus_ring_or n w0 (fun ring now => PutWithRoot now ring x.(ca_key) x.(ca_data) (cid_String <$> Some rc) exp)
      (st_Put x.(ca_key) x.(ca_data)) _ _ _ (via_ring _ _ _ _ _ (PutWithRoot_free _ ring x.(ca_key) x.(ca_data) _ exp b)) w Hw) as Hx.
    unfold m_try, store_block. change (ring_or (HB := storage_env n) ?f ?g w) with (ring_or (HB := block_env n) f g w).
    destruct (ring_or _ _ w) as [w' [[]|e]]; [done|]. by apply kind_false in Hx. }
  intros res w [-> Hw]. revert w Hw. change (succeeds (focus n w0 (as_ RingBlocks (metered ring b')))
    (_ ← m_forM (tail x.(ca_roots)) (fun nr => ring_or (HB := block_env n) (fun ring _ =>
       _ ← AddRootWithExpiry ring nr.(re_CID) nr.(re_ExpiresAt); AddBlockRootIndex ring x.(ca_key) nr.(re_CID)) (m_ret tt)); m_ret true)
    (fun ok w => focus n w0 (as_ RingBlocks (unlimited ring b')) w /\ ok = true)).
  eapply succeeds_bind; [apply (succeeds_forM (fun _ => focus n w0 (as_ RingBlocks (metered ring b'))))|].
  - intros _ nr _ _ w Hw.
    pose proof (focus_ring_or n w0 (fun ring _ => _ ← AddRootWithExpiry ring nr.(re_CID) nr.(re_ExpiresAt); AddBlockRootIndex ring x.(ca_key) nr.(re_CID))
      (m_ret tt) _ _ _ (via_ring _ _ _ _ _ (add_root_free ring x.(ca_key) nr.(re_CID) nr.(re_ExpiresAt) b')) w Hw) as Hx.
    destruct (ring_or _ _ w) as [w' [u|e]]; [done|]. by apply kind_false in Hx.
  - intros ?. apply succeeds_ret. intros w Hw. split; [|done]. eapply focus_impl; [|exact Hw]. intros nb (s & -> & Hs).
    exists s. split; [done|]. by apply metered_unlimited.
Qed.

Lemma accept_list {X} (n : NodeID) (w0 : world) (kind : X -> NB) (K : gmap bytes bytes -> X -> Prop) (l : list carried) (k : nat) (b : gmap bytes bytes) :
  (forall (x : carried) (b : gmap bytes bytes), addressed (Hash x.(ca_key)) x.(ca_data) -> has_room x.(ca_data) b ->
     succeeds (focus n w0 (as_ kind (K b))) (accept_block n x)
       (fun ok w => focus n w0 (as_ kind (K (insert_new (Hash x.(ca_key)) x.(ca_data) b))) w /\ ok = true)) ->
  Forall (fun x => addressed (Hash x.(ca_key)) x.(ca_data)) l -> total b + bytes_of l < 2 ^ 63 ->
  succeeds (focus n w0 (as_ kind (K b))) (accept_blocks n l k)
    (fun m w => focus n w0 (as_ kind (K (put_all l b))) w /\ m = (length l + k)%nat).
Proof.
  intros Hstep. revert b k. induction l as [|x l IH]; intros b k Hl Hroom; cbn [accept_blocks]; [by apply succeeds_ret|].
  apply Forall_cons in Hl as [Hx Hl]. cbn [bytes_of foldr] in Hroom. fold (bytes_of l) in Hroom. pose proof (bytes_of_nonneg l) as Hpos.
  eapply succeeds_bind_fact; [apply Hstep; [done|unfold has_room; lia]|]. intros ok ->.
  eapply succeeds_weaken; [apply IH; [done|]|done|].
  - pose proof (total_insert_new (Hash x.(ca_key)) x.(ca_data) b). lia.
  - intros m w [Hw ->]. split; [done|]. cbn [length]. lia.
Qed.

Lemma Push_all w n l :
  nb_ok (block_node n w).(bn_blocks) -> no_limit w n -> no_quota w n ->
  Forall (fun x => addressed (Hash x.(ca_key)) x.(ca_data)) l -> total (stored w n) + bytes_of l < 2 ^ 63 ->
  exists w', serve_PushBlocks n l w = (w', Ok tt) /\ stored w' n = put_all l (stored w n) /\
    forall n', n' <> n -> block_node n' w' = block_node n' w.
Proof.
  intros Hok Hlim Hquota Hl Hroom. unfold no_limit, no_quota in *.
  assert (stored w n = nb_contents (block_node n w).(bn_blocks)) as Hst by done. rewrite Hst in *. clear Hst.
  assert (forall w' m, accept_blocks n l 0 w = (w', Ok m) -> m = (length l + 0)%nat -> serve_PushBlocks n l w = (w', Ok tt)) as Hserve.
  { intros w' m Hrun ->. unfold serve_PushBlocks. erewrite run_bind by exact Hrun. by destruct l. }
  destruct (block_node n w).(bn_blocks) as [s|nbs] eqn:Hb; cbn [nb_contents] in *.
  - destruct (succeeds_final _ _ _ w (accept_list n w PlainBlocks plain_at l 0 (contents s) (fun x b => accept_plain n w b x) Hl Hroom))
      as (m & w' & Hrun & Hw' & Hm).
    { apply focus_start. rewrite Hb. by exists s. }
    exists w'. split_and!; [by eapply Hserve| |apply Hw']. by destruct (focus_stored _ _ _ _ Hw') as (nb & (s' & -> & _ & Hs') & ->).
  - destruct (succeeds_final _ _ _ w (accept_list n w RingBlocks (unlimited (block_node n w).(bn_ringID)) l 0 (blocks nbs)
      (fun x b _ _ => accept_ring n w b x) Hl Hroom)) as (m & w' & Hrun & Hw' & Hm).
    { apply focus_start. rewrite Hb. exists nbs. split; [done|]. by split. }
    exists w'. split_and!; [by eapply Hserve| |apply Hw']. by destruct (focus_stored _ _ _ _ Hw') as (nb & (s' & -> & Hs') & ->); apply Hs'.
Qed.

(** The blocks a leaving node pushes. *)
Lemma node_sends w n :
  nb_ok (block_node n w).(bn_blocks) -> tidy w n ->
  exists keys l w1 w2, ring_keys (HB := block_env n) w = (w1, Ok keys) /\ collect (HB := block_env n) keys w1 = (w2, Ok l) /\
    carries (stored w n) (in_ring_of w n) l /\ stored w2 n = stored w n /\
    (forall n', n' <> n -> block_node n' w2 = block_node n' w) /\ w2.(bw_cluster) = w.(bw_cluster).
Proof.
  intros Hok Htidy. unfold in_ring_of, tidy in *.
  assert (stored w n = nb_contents (block_node n w).(bn_blocks)) as Hst by done. rewrite Hst. clear Hst.
  assert (forall keys : list cid, filterb (fun _ => true) keys = keys) as Hall.
  { intros keys. unfold filterb. induction keys as [|k keys IH]; [done|]. rewrite filter_cons_True by done. by rewrite IH. }
  assert (forall m (off off' : bytes -> Prop) l, (forall h, off h <-> off' h) -> carries m off l -> carries m off' l) as Hoff.
  { intros m off off' l Hiff (ks & H1 & H2 & H3). exists ks. split_and!; [done..|]. intros h. by rewrite (H3 h), Hiff. }
  destruct (block_node n w).(bn_blocks) as [s|nbs] eqn:Hb; cbn [nb_contents].
  - destruct (gather n w PlainBlocks (plain_at (contents s)) (contents s) (fun _ => True) (fun _ => true) (fun _ => true))
      as (keys & l & w1 & w2 & Hrun1 & Hrun2 & Hw2 & Hl); [done|apply plain_readable| |].
    { apply focus_start. rewrite Hb. by exists s. }
    rewrite Hall in Hrun2. exists keys, l, w1, w2. split_and!; [done..| | |apply Hw2|apply Hw2].
    + eapply Hoff; [|exact Hl]. naive_solver.
    + by destruct (focus_stored _ _ _ _ Hw2) as (nb & (s' & -> & _ & Hs') & ->).
  - destruct Htidy as (Hring & Hrep & Hhex). set (r := mkSeg _ Hring).
    destruct (gather n w RingBlocks (ring_at (meta_of nbs) (blocks nbs)) (blocks nbs) (indexed (meta_of nbs) r) (fun _ => true) (fun _ => true))
      as (keys & l & w1 & w2 & Hrun1 & Hrun2 & Hw2 & Hl); [done|by apply ring_readable| |].
    { apply focus_start. rewrite Hb. exists nbs. split; [done|]. by eexists. }
    rewrite Hall in Hrun2. exists keys, l, w1, w2. split_and!; [done..| | |apply Hw2|apply Hw2].
    + eapply Hoff; [|exact Hl]. intros h. split; [intros [_ Hi]; by exists r|]. intros (r' & Hr' & Hi). split; [done|].
      assert (r' = r) as <- by (by apply seg_eq). done.
    + destruct (focus_stored _ _ _ _ Hw2) as (nb & (s' & -> & R & Hs') & ->). apply (rep_blocks _ _ _ _ Hs').
Qed.

(** Telling the neighbours changes no store. *)
Lemma Leave_routing_run self (w : world) :
  exists c, Leave_routing (H := routing_env self) w = (bw_set_cluster c w, Ok tt).
Proof.
  unfold Leave_routing, getRouting, mbind, M_bind, m_bind, m_ignore, m_ret.
  cbn [routing_env ne_routing tr_NotifyLeave]. set (r := ne_routing _).
  destruct (Equal _ _); [exists w.(bw_cluster); by destruct w|]. unfold in_cluster.
  destruct (tr_NotifyLeave _ _ _ _ _) as [c1 res1]. destruct (r_predecessor r) as [p|]; [|by exists c1].
  destruct (Equal _ _); [by exists c1|]. destruct (tr_NotifyLeave _ _ _ _ _) as [c2 res2]. by exists c2.
Qed.

(** C23: a node that leaves hands the blocks of the ring to its successor, and exactly these. With a
    store without limit or ring quota at the successor, the steps of [Leave] on blocks and neighbours
    succeed; afterwards the successor has what it had and every block of the ring that the leaving
    node has, with its data, and no other node's blocks change. With a plain store these are all
    blocks of the node, with a network block store those indexed in the ring; both kinds of store are
    covered on either side. *)
Theorem leave_keeps_blocks (w : world) (self : NodeID) :
  let succ := (node_state self w.(bw_cluster)).(r_successor) in
  connected w.(bw_cluster) -> na_id succ ∈ dom w.(bw_cluster).(cl_nodes) -> na_id succ <> self ->
  (node_state self w.(bw_cluster)).(r_id) = self -> sound_world w -> tidy w self ->
  no_limit w (na_id succ) -> no_quota w (na_id succ) ->
  total (stored w (na_id succ)) + total (stored w self) < 2 ^ 63 ->
  exists w', (_ ← Leave_blocks (HN := routing_env self) (HB := block_env self); Leave_routing (H := routing_env self)) w = (w', Ok tt) /\
    (forall mh d, stored w' (na_id succ) !! mh = Some d <->
       stored w (na_id succ) !! mh = Some d \/ (stored w self !! mh = Some d /\ in_ring_of w self mh)) /\
    (forall n, n <> na_id succ -> stored w' n = stored w n).
Proof.
  intros succ Hc Hin Hne Hid Hw Htidy Hlim Hquota Hroom.
  destruct (node_sends w self (sw_blocks w Hw self) Htidy) as (keys & l & w1 & w2 & Hrun1 & Hrun2 & Hl & Hst & Hoth & Hcl).
  pose proof (Hoth _ Hne) as Hs. destruct (Push_all w2 (na_id succ) l) as (w3 & Hrun3 & Hst3 & Hoth3).
  { rewrite Hs. apply (sw_blocks w Hw). }
  { unfold no_limit in *. by rewrite Hs. }
  { unfold no_quota in *. by rewrite Hs. }
  { eapply carries_addressed; [|exact Hl]. apply (sw_addressed w Hw). }
  { unfold stored at 1. rewrite Hs. pose proof (carries_bytes _ _ _ Hl). fold (stored w (na_id succ)). lia. }
  assert (exists w4, Leave_blocks (HN := routing_env self) (HB := block_env self) w = (w4, Ok tt) /\
    stored w4 (na_id succ) = put_all l (stored w (na_id succ)) /\ forall n, n <> na_id succ -> stored w4 n = stored w n) as (w4 & Hrun & Hst4 & Hoth4).
  { unfold Leave_blocks, getRouting, mbind, M_bind, m_bind, m_try. cbn [routing_env localTransport ne_routing].
    fold succ. rewrite Hid. unfold Equal. rewrite bool_decide_eq_false_2 by done. rewrite Hrun1, Hrun2.
    assert (forall n, stored w2 n = stored w n) as Hsame.
    { intros n. destruct (decide (n = self)) as [->|Hn]; [done|]. unfold stored. by rewrite Hoth. }
    destruct l as [|b l']; [exists w2; by rewrite !Hsame|]. exists w3. rewrite Hst3, Hsame. split_and!; [|done|].
    - unfold m_ignore. cbn [block_env bt_PushBlocks]. unfold local_PushBlocks, BlockNet.at_node. rewrite Hcl.
      destruct (connected_getNode _ self (na_id succ) Hc Hin) as [r ->]. by rewrite Hrun3.
    - intros n Hn. unfold stored at 1. rewrite Hoth3 by done. apply Hsame. }
  destruct (Leave_routing_run self w4) as [c Hrout]. exists (bw_set_cluster c w4). split_and!.
  - unfold mbind, M_bind, m_bind. by rewrite Hrun, Hrout.
  - intros mh d. change (stored (bw_set_cluster c w4) (na_id succ)) with (stored w4 (na_id succ)). rewrite Hst4.
    apply put_all_carried; [apply (sw_addressed w Hw)|apply (sw_addressed w Hw)|done].
  - intros n Hn. exact (Hoth4 n Hn).
Qed.

End Handover.

(** ** Examples *)

Module HandoverExample.
Import MemStore PlacementExample GCExample.

(** [test_id xc8] joins between [test_id x64] and [test_id x0a], which has the block in the public
    ring; all nodes keep their blocks in network block stores. *)
Definition succ : NodeAddr := mkNodeAddr (test_id x0a) "".

Definition data_hex : seg := mkSeg "010203" eq_refl.

Definition index1 : gmap nbkey bytes :=
  <[KBlockRoot public data_hex c1 := []]> (<[KRoot public c1 := encodeInt64LE 0]> {[KPresence public := []]}).

Definition ring_node (M : gmap nbkey bytes) (b : gmap bytes bytes) : BlockNode (S := @bstore deps) (L := @bstore deps) :=
  SetNetworkBlocks (store_of M b ∅) fresh.

Definition holder := ring_node index1 {[data := data]}.
Definition empty := ring_node ∅ ∅.

Definition joining (c : Cluster) : BlockWorld (S := @bstore deps) (L := @bstore deps) :=
  mkBlockWorld c {[test_id x0a := holder]} empty 0 (fun l => l).

Lemma joining_node c n : block_node n (joining c) = if decide (n = test_id x0a) then holder else empty.
Proof.
  unfold block_node. cbn [joining bw_nodes bw_fresh]. case_decide as Hn.
  - subst n. by rewrite lookup_singleton_eq.
  - by rewrite lookup_singleton_ne.
Qed.

Lemma joining_stored c n : stored (HL := laws) (joining c) n = if decide (n = test_id x0a) then {[data := data]} else ∅.
Proof. unfold stored. rewrite joining_node. by case_decide. Qed.

Lemma joining_sound c : sound_world (HL := laws) (joining c).
Proof.
  split; [| | | |done].
  - intros n. rewrite joining_node. by case_decide.
  - intros n l. rewrite joining_node. by case_decide.
  - intros n mh d. rewrite joining_stored. case_decide; [|done]. intros [<- <-]%lookup_singleton_Some. reflexivity.
  - intros n m mh d. unfold kept_locally. rewrite joining_node. by case_decide.
Qed.

Lemma holder_meta k : meta_of (HL := laws) (store_of index1 {[data := data]} ∅) k = index1 !! k.
Proof. apply (rep_meta _ _ _ _ (store_of_rep index1 {[data := data]} ∅)). Qed.

Lemma joining_tidy c : tidy (HL := laws) (joining c) (test_id x0a).
Proof.
  unfold tidy. rewrite joining_node, decide_True by done. split; [reflexivity|]. split.
  - eapply rep_ext; [intros k; symmetry; apply holder_meta|apply store_of_rep].
  - intros r mh c' Hc. rewrite holder_meta in Hc. exists data. destruct Hc as [v Hv]. unfold index1 in Hv.
    rewrite lookup_insert_Some, lookup_insert_ne, lookup_singleton_ne in Hv by done.
    destruct Hv as [[E _]|[_ Hv]]; [|done]. injection E as _ <- _. reflexivity.
Qed.

Lemma joining_in_ring c : in_ring_of (HL := laws) (joining c) (test_id x0a) data.
Proof.
  unfold in_ring_of. rewrite joining_node, decide_True by done. exists public. split; [reflexivity|]. exists data_hex, c1.
  split; [reflexivity|]. rewrite holder_meta. unfold index1. rewrite lookup_insert_eq. by eexists.
Qed.

Lemma joining_elsewhere c : ~ wanted_elsewhere (HL := laws) (joining c) (test_id x0a) data.
Proof.
  unfold wanted_elsewhere. rewrite joining_node, decide_True by done. intros (r & Hr & r' & mh & Hne & _ & Hp & _).
  rewrite holder_meta in Hp. destruct Hp as [v Hv]. unfold index1 in Hv. rewrite !lookup_insert_ne in Hv by done.
  apply lookup_singleton_Some in Hv as [E _]. injection E as <-. apply Hne. by apply seg_eq.
Qed.

Lemma other_id : test_id x0a <> test_id xc8.
Proof. intros H%(f_equal id_val). vm_compute in H. discriminate H. Qed.

Lemma joining_limits c : no_limit (joining c) (test_id xc8) /\ no_quota (joining c) (test_id xc8).
Proof.
  unfold no_limit, no_quota. rewrite joining_node, decide_False by apply not_eq_sym, other_id. split; vm_compute; discriminate.
Qed.

Lemma joining_room c : total (stored (HL := laws) (joining c) (test_id xc8)) + total (stored (HL := laws) (joining c) (test_id x0a)) < 2 ^ 63.
Proof. rewrite !joining_stored, decide_False, decide_True by (done || apply not_eq_sym, other_id). vm_compute. reflexivity. Qed.

Lemma holder_stored c : stored (HL := laws) (joining c) (test_id x0a) !! data = Some data.
Proof. rewrite joining_stored, decide_True by done. apply lookup_singleton_eq. Qed.

(** The block moves from the one to the other. *)
Lemma handover_moves_blocks_witness :
  exists w', Join_blocks (HN := routing_env (test_id xc8)) (HB := block_env (test_id xc8)) succ (test_id x64) (joining (ideal_cluster three_nodes)) = (w', Ok tt) /\
    stored (HL := laws) w' (test_id xc8) !! Hash key = Some data /\ stored (HL := laws) w' (test_id x0a) !! Hash key <> Some data.
Proof.
  assert (moves (HL := laws) (joining (ideal_cluster three_nodes)) (test_id x0a) (test_id x64) (test_id xc8) data) as Hm.
  { split; [vm_compute; reflexivity|]. apply joining_in_ring. }
  destruct (handover_moves_blocks (HL := laws) (joining (ideal_cluster three_nodes)) (test_id xc8) (test_id x64) succ) as (w' & Hrun & Hnew & Hold & _).
  - intros a b. apply not_elem_of_empty.
  - exact (eq_ind_r (fun R => _ ∈ R) (proj1 three_in) (ideal_cluster_dom three_nodes)).
  - exact other_id.
  - unfold node_state. change (bw_cluster (joining (ideal_cluster three_nodes))) with (ideal_cluster three_nodes).
    by rewrite ideal_cluster_lookup by apply three_in.
  - apply joining_sound.
  - apply joining_tidy.
  - apply joining_limits.
  - apply joining_room.
  - exists w'. split; [exact Hrun|]. split.
    + apply Hnew. right. split; [apply holder_stored|exact Hm].
    + intros H%Hold. apply (joining_elsewhere (ideal_cluster three_nodes)), H, Hm.
Defined.

(** [test_id x0a] leaves a ring of two. *)
Definition ring_of_two : Cluster :=
  let node id := NewRouting (test_id id) "" (config_with_replication 1) in
  mkCluster [] (<[test_id xc8 := set_successor succ (node xc8)]>
    {[test_id x0a := set_successor (mkNodeAddr (test_id xc8) "") (node x0a)]}) ∅ [].

Lemma leave_keeps_blocks_witness :
  exists w', (_ ← Leave_blocks (HN := routing_env (test_id x0a)) (HB := block_env (test_id x0a)); Leave_routing (H := routing_env (test_id x0a)))
      (joining ring_of_two) = (w', Ok tt) /\
    stored (HL := laws) w' (test_id xc8) !! Hash key = Some data.
Proof.
  assert (node_state (test_id x0a) (bw_cluster (joining ring_of_two)) =
    set_successor (mkNodeAddr (test_id xc8) "") (NewRouting (test_id x0a) "" (config_with_replication 1))) as Hr.
  { unfold node_state. cbn [joining bw_cluster ring_of_two cl_nodes]. rewrite lookup_insert_ne by apply not_eq_sym, other_id.
    by rewrite lookup_singleton_eq. }
  pose proof (leave_keeps_blocks (HL := laws) (S := @bstore deps) (L := @bstore deps) (joining ring_of_two) (test_id x0a)) as Hleave.
  cbv zeta in Hleave. rewrite !Hr in Hleave. cbn [set_successor r_successor na_id] in Hleave.
  destruct Hleave as (w' & Hrun & Hnew & _).
  - intros a b. apply not_elem_of_empty.
  - cbn [joining bw_cluster ring_of_two cl_nodes]. rewrite dom_insert_L. apply elem_of_union. left. by apply elem_of_singleton.
  - apply not_eq_sym, other_id.
  - done.
  - apply joining_sound.
  - apply joining_tidy.
  - apply joining_limits.
  - apply joining_limits.
  - apply joining_room.
  - exists w'. split; [exact Hrun|]. apply Hnew. right. split; [apply holder_stored|apply joining_in_ring].
Defined.

(** A joining node that has room for one byte. *)
Definition small : BlockNode (S := quotaBlockStore (@bstore deps)) (L := @bstore deps) :=
  NewBlocks (mkQuota (∅ : gmap bytes bytes) 1 0).

Definition pair_cluster : Cluster :=
  let node id := NewRouting (test_id id) "" (config_with_replication 1) in
  mkCluster [] (<[test_id xc8 := node xc8]> {[test_id x0a := node x0a]}) ∅ [].

Definition joining_small : BlockWorld :=
  mkBlockWorld pair_cluster
    {[test_id x0a := NewBlocks (mkQuota ({[data := data]} : gmap bytes bytes) 0 3)]} small 0 (fun l => l).

Definition joined : BlockWorld * result unit :=
  Join_blocks (HN := routing_env (test_id xc8)) (HB := block_env (test_id xc8)) succ (test_id x64) joining_small.

(** The successor deletes what it hands over whether or not the joining node can store it: a
    node without room that joins in front of the only holder of a block succeeds, and afterwards none
    of the two members has the block. *)
Theorem full_joiner_loses_block :
  dom joining_small.(bw_cluster).(cl_nodes) = {[test_id xc8; test_id x0a]} /\
  nb_contents (block_node (test_id x0a) joining_small).(bn_blocks) !! Hash key = Some data /\
  joined.2 = Ok tt /\
  nb_contents (block_node (test_id x0a) joined.1).(bn_blocks) !! Hash key = None /\
  nb_contents (block_node (test_id xc8) joined.1).(bn_blocks) !! Hash key = None.
Proof.
  split; [cbn [joining_small bw_cluster pair_cluster cl_nodes]; by rewrite dom_insert_L, dom_singleton_L|].
  split_and!; vm_compute; reflexivity.
Qed.

End HandoverExample.
