(* ===== verification/Auth.v ===== *)
(** * The handshake of private rings (src/dht/auth.go)

    A node of a private ring proves on every connection that it knows the pre-shared key of
    the group. The two sides are programs on a connection; HMAC-SHA256 is [hmac]. Runs of many
    sessions over a network that an attacker controls are the reachable logs of [step]: the
    attacker reads everything and sends what it likes, except for message authentication codes
    that no session has sent. *)

From stdpp Require Import base gmap list strings.
From Stdlib Require Import ZArith Lia Strings.Byte.
From S2P Require Import Prelude Hoare Chord Identity.

Set Default Goal Selector "!".

Definition authNonceSize : nat := 16.
Definition authHMACSize : nat := 32.

(** ** Connections *)

(** What the peer has sent and is not read yet, after which reads fail; what was written; and
    whether writes succeed. *)
Record Conn := mkConn { cn_in : bytes; cn_out : bytes; cn_open : bool }.

(** [io.ReadFull] of [n] bytes. *)
Definition ReadFull (n : nat) : M Conn bytes := fun c =>
  if (length c.(cn_in) <? n)%nat then (mkConn [] c.(cn_out) c.(cn_open), Err (errorf "unexpected EOF"))
  else (mkConn (drop n c.(cn_in)) c.(cn_out) c.(cn_open), Ok (take n c.(cn_in))).

Definition conn_Write (b : bytes) : M Conn unit := fun c =>
  if c.(cn_open) then (mkConn c.(cn_in) (c.(cn_out) ++ b) true, Ok tt)
  else (c, Err (errorf "write on closed connection")).

(** The error of a step, with its context. *)
Definition m_wrap {S A} (pre : string) (x : M S A) : M S A := fun s =>
  match x s with
  | (s', Ok a) => (s', Ok a)
  | (s', Err e) => (s', Err (errorf_w pre e ""))
  end.

Section Handshake.
Context (hmac : bytes -> bytes -> bytes).

Definition computeAuthHMAC (psk nonce : bytes) (idA idB : NodeID) : bytes :=
  hmac psk (nonce ++ nid_bytes idA ++ nid_bytes idB).

(** The client's message: its identifier, its code for the server's nonce, and its own nonce. *)
Definition auth_message (id : NodeID) (mac na : bytes) : bytes := nid_bytes id ++ mac ++ na.

(** [random] is what reading a nonce from [rand.Reader] returns. *)
Definition PerformClientAuth (psk : bytes) (selfID peerID : NodeID) (random : result bytes) : M Conn unit :=
  nb ← m_wrap "auth client: read server nonce: " (ReadFull authNonceSize);
  na ← m_wrap "auth client: generate nonce: " (m_lift random);
  let hmacA := computeAuthHMAC psk nb selfID peerID in
  _ ← m_wrap "auth client: send auth message: " (conn_Write (auth_message selfID hmacA na));
  hmacB ← m_wrap "auth client: read server HMAC: " (ReadFull authHMACSize);
  let expectedB := computeAuthHMAC psk na peerID selfID in
  if bool_decide (hmacB = expectedB) then m_ret tt
  else m_err (errorf "auth client: server HMAC verification failed — wrong PSK or tampered message").

Definition PerformServerAuth (psk : bytes) (selfID : NodeID) (random : result bytes) : M Conn NodeID :=
  nb ← m_wrap "auth server: generate nonce: " (m_lift random);
  _ ← m_wrap "auth server: send nonce: " (conn_Write nb);
  clientMsg ← m_wrap "auth server: read client message: " (ReadFull (20 + authHMACSize + authNonceSize));
  let idA := NodeID_copy (take 20 clientMsg) in
  let clientHMAC := take authHMACSize (drop 20 clientMsg) in
  let na := drop (20 + authHMACSize) clientMsg in
  let expectedA := computeAuthHMAC psk nb idA selfID in
  if bool_decide (clientHMAC = expectedA) then
    let hmacB := computeAuthHMAC psk na selfID idA in
    _ ← m_wrap "auth server: send HMAC: " (conn_Write hmacB);
    m_ret idA
  else m_err (errorf "auth server: client HMAC verification failed — wrong PSK or tampered message").

(** ** What the two sides check *)

Context (hmac_length : forall k m, length (hmac k m) = authHMACSize).

Lemma message_fields id mac na :
  length mac = authHMACSize ->
  NodeID_copy (take 20 (auth_message id mac na)) = id /\
  take authHMACSize (drop 20 (auth_message id mac na)) = mac /\
  drop (20 + authHMACSize) (auth_message id mac na) = na.
Proof.
  intros Hmac. unfold auth_message. pose proof (nid_length id) as Hid. split_and!.
  - rewrite take_app_length' by done. apply NodeID_copy_bytes.
  - rewrite drop_app_length' by done. by rewrite take_app_length'.
  - rewrite <- drop_drop, drop_app_length', drop_app_length' by done. done.
Qed.

(** The server accepts exactly a message with the right code for its nonce, answers with its own
    code for the client's nonce, and reports the identifier in the message. *)
Lemma server_accepts psk self nb msg rest :
  length msg = 20 + authHMACSize + authNonceSize ->
  PerformServerAuth psk self (Ok nb) (mkConn (msg ++ rest) [] true) =
    let idA := NodeID_copy (take 20 msg) in
    let na := drop (20 + authHMACSize) msg in
    if bool_decide (take authHMACSize (drop 20 msg) = computeAuthHMAC psk nb idA self)
    then (mkConn rest (nb ++ computeAuthHMAC psk na self idA) true, Ok idA)
    else (mkConn rest nb true, Err (errorf "auth server: client HMAC verification failed — wrong PSK or tampered message")).
Proof.
  intros Hlen. unfold PerformServerAuth, m_wrap, m_lift, conn_Write, ReadFull, mbind, M_bind, m_bind.
  cbn [cn_in cn_out cn_open app]. rewrite (proj2 (Nat.ltb_ge _ _)) by (rewrite length_app; lia).
  cbn [cn_in cn_out cn_open]. rewrite take_app_length', drop_app_length' by done. cbv zeta.
  by case_bool_decide.
Qed.

(** The client accepts exactly the right code for its nonce. *)
Lemma client_accepts psk self peer nb na mac rest :
  length nb = authNonceSize -> length mac = authHMACSize ->
  PerformClientAuth psk self peer (Ok na) (mkConn (nb ++ mac ++ rest) [] true) =
    let out := auth_message self (computeAuthHMAC psk nb self peer) na in
    if bool_decide (mac = computeAuthHMAC psk na peer self)
    then (mkConn rest out true, Ok tt)
    else (mkConn rest out true, Err (errorf "auth client: server HMAC verification failed — wrong PSK or tampered message")).
Proof.
  intros Hnb Hmac. unfold PerformClientAuth, m_wrap, m_lift, conn_Write, ReadFull, mbind, M_bind, m_bind.
  cbn [cn_in cn_out cn_open app]. rewrite (proj2 (Nat.ltb_ge _ _)) by (rewrite length_app; lia).
  rewrite take_app_length', drop_app_length' by done. cbn [cn_in cn_out cn_open app].
  rewrite (proj2 (Nat.ltb_ge _ _)) by (rewrite length_app; lia).
  rewrite take_app_length', drop_app_length' by done. cbv zeta. by case_bool_decide.
Qed.

Lemma message_length psk id n x y r :
  length r = authNonceSize -> length (auth_message id (computeAuthHMAC psk n x y) r) = 20 + authHMACSize + authNonceSize.
Proof. intros Hr. unfold auth_message, computeAuthHMAC. rewrite !length_app, nid_length, hmac_length. lia. Qed.

Lemma serve_message psk x y n r :
  length r = authNonceSize ->
  PerformServerAuth psk y (Ok n) (mkConn (auth_message x (computeAuthHMAC psk n x y) r) [] true) =
    (mkConn [] (n ++ computeAuthHMAC psk r y x) true, Ok x).
Proof.
  intros Hr. rewrite <- (app_nil_r (auth_message _ _ _)). rewrite server_accepts by by apply message_length.
  destruct (message_fields x (computeAuthHMAC psk n x y) r (hmac_length _ _)) as (-> & -> & ->).
  cbv zeta. by rewrite bool_decide_eq_true_2.
Qed.

(** C24: two nodes that share the key complete the handshake, whatever their nonces: the client
    accepts the server, the server accepts the client and learns its identifier, and nothing is left
    unread on either side. *)
Theorem handshake_completes (psk na nb : bytes) (a b : NodeID) :
  length na = authNonceSize -> length nb = authNonceSize ->
  exists to_client to_server,
    PerformServerAuth psk b (Ok nb) (mkConn to_server [] true) = (mkConn [] to_client true, Ok a) /\
    PerformClientAuth psk a b (Ok na) (mkConn to_client [] true) = (mkConn [] to_server true, Ok tt).
Proof.
  intros Hna Hnb. exists (nb ++ computeAuthHMAC psk na b a), (auth_message a (computeAuthHMAC psk nb a b) na). split.
  - by apply serve_message.
  - rewrite <- (app_nil_r (computeAuthHMAC psk na b a)) at 1. rewrite client_accepts by (done || apply hmac_length).
    by rewrite bool_decide_eq_true_2.
Qed.

(** ** Many sessions *)

(** [EClient a b nb out]: a client session of [a] towards [b] has read the nonce [nb] and sent
    [out]. [EServer s a nb msg out]: a server session of [s] with the nonce [nb] has accepted
    [msg] as coming from [a]; [out] is all it has sent. *)
Inductive event :=
  | EClient (a b : NodeID) (nb out : bytes)
  | EServer (s a : NodeID) (nb msg out : bytes).

Abbreviation log := (list event).

(** The code in a client's message, and the nonce after it. *)
Definition msg_mac (msg : bytes) : bytes := take authHMACSize (drop 20 msg).
Definition msg_nonce (msg : bytes) : bytes := drop (20 + authHMACSize) msg.

(** The code that the session has put on the wire. *)
Definition event_mac (ev : event) : bytes :=
  match ev with
  | EClient _ _ _ out => msg_mac out
  | EServer _ _ _ _ out => drop authNonceSize out
  end.

Definition issued (l : log) (mac : bytes) : Prop := exists ev, ev ∈ l /\ event_mac ev = mac.

(** One session. A message whose code is not on the wire yet is not accepted: nobody without the
    key can compute it. *)
Inductive step (psk : bytes) : log -> log -> Prop :=
  | step_client l a b nb na :
      length nb = authNonceSize -> length na = authNonceSize ->
      step psk l (l ++ [EClient a b nb (PerformClientAuth psk a b (Ok na) (mkConn nb [] true)).1.(cn_out)])
  | step_server l s a nb msg c' :
      length nb = authNonceSize -> length msg = 20 + authHMACSize + authNonceSize ->
      issued l (msg_mac msg) ->
      PerformServerAuth psk s (Ok nb) (mkConn msg [] true) = (c', Ok a) ->
      step psk l (l ++ [EServer s a nb msg c'.(cn_out)]).

(** What the session authenticates, and what it has checked. *)
Definition signs (ev : event) : bytes :=
  match ev with
  | EClient a b nb _ => nb ++ nid_bytes a ++ nid_bytes b
  | EServer s a _ msg _ => msg_nonce msg ++ nid_bytes s ++ nid_bytes a
  end.

Definition checks (ev : event) : option bytes :=
  match ev with
  | EClient _ _ _ _ => None
  | EServer s a nb _ _ => Some (nb ++ nid_bytes a ++ nid_bytes s)
  end.

(** No two of the inputs in the log have the same code. *)
Definition collision_free (psk : bytes) (l : log) : Prop :=
  forall ev ev' m, ev ∈ l -> ev' ∈ l -> checks ev = Some m -> hmac psk (signs ev') = hmac psk m -> signs ev' = m.

(** What a session in a log is made of. *)
Definition event_ok (psk : bytes) (ev : event) : Prop :=
  event_mac ev = hmac psk (signs ev) /\
  match ev with
  | EClient a b nb _ => length nb = authNonceSize
  | EServer s a nb msg _ =>
      length nb = authNonceSize /\ length (msg_nonce msg) = authNonceSize /\ msg_mac msg = hmac psk (nb ++ nid_bytes a ++ nid_bytes s)
  end.

Lemma client_sends psk a b nb na :
  length nb = authNonceSize ->
  (PerformClientAuth psk a b (Ok na) (mkConn nb [] true)).1.(cn_out) = auth_message a (computeAuthHMAC psk nb a b) na.
Proof.
  intros Hnb. unfold PerformClientAuth, m_wrap, m_lift, conn_Write, ReadFull, mbind, M_bind, m_bind.
  cbn [cn_in cn_out cn_open app]. rewrite (proj2 (Nat.ltb_ge _ _)) by lia. cbn [cn_in cn_out cn_open app].
  rewrite drop_ge, take_ge by lia. done.
Qed.

Lemma step_event psk l l' : step psk l l' -> exists ev, l' = l ++ [ev] /\ event_ok psk ev /\
  match ev with EServer _ _ _ msg _ => issued l (msg_mac msg) | EClient _ _ _ _ => True end.
Proof.
  intros [l0 a b nb na Hnb Hna|l0 s a nb msg c' Hnb Hmsg Hiss Hrun]; (eexists; split; [done|]).
  - split; [|done]. split; [|done]. cbn [event_mac signs]. rewrite client_sends by done.
    apply message_fields, hmac_length.
  - split; [|done]. rewrite <- (app_nil_r msg) in Hrun at 1. rewrite server_accepts in Hrun by done. cbv zeta in Hrun.
    case_bool_decide as Hmac; [|done]. injection Hrun as <- <-. split; [|split_and!].
    + cbn [event_mac signs cn_out]. by rewrite drop_app_length'.
    + done.
    + unfold msg_nonce. rewrite length_drop. lia.
    + exact Hmac.
Qed.

Lemma mac_of_message psk id n x y r :
  msg_mac (auth_message id (computeAuthHMAC psk n x y) r) = computeAuthHMAC psk n x y.
Proof. apply message_fields, hmac_length. Qed.

(** In every reachable log the sessions are as above, and each accepted code was on the wire before. *)
Definition log_ok (psk : bytes) (l : log) : Prop :=
  Forall (event_ok psk) l /\
  forall l1 s a nb msg out l2, l = l1 ++ EServer s a nb msg out :: l2 -> issued l1 (msg_mac msg).

Lemma log_ok_step psk l l' : log_ok psk l -> step psk l l' -> log_ok psk l'.
Proof.
  intros [Hall Hiss] (ev & -> & Hev & Hnew)%step_event. split; [by apply Forall_app; split; [|apply Forall_singleton]|].
  intros l1 s a nb msg out l2 Heq. destruct l2 as [|ev' l2 _] using rev_ind.
  - apply app_inj_tail in Heq as [-> ->]. exact Hnew.
  - rewrite app_comm_cons, app_assoc in Heq. apply app_inj_tail in Heq as [-> ->]. by apply (Hiss _ _ _ _ _ _ l2 eq_refl).
Qed.

Lemma reachable_log_ok psk l : star (step psk) [] l -> log_ok psk l.
Proof.
  intros Hl. refine (star_invariant (step psk) (log_ok psk) _ _ _ Hl _).
  - intros l0 l1 H Hs. by eapply log_ok_step.
  - split; [done|]. intros l1 s a nb msg out l2 Heq. by destruct l1.
Qed.

Lemma nonce_ids_inj n a b n' a' b' :
  length n = authNonceSize -> length n' = authNonceSize ->
  n ++ nid_bytes a ++ nid_bytes b = n' ++ nid_bytes a' ++ nid_bytes b' -> n = n' /\ a = a' /\ b = b'.
Proof.
  intros Hn Hn' Heq. apply app_inj_1 in Heq as [-> Heq]; [|congruence].
  apply app_inj_1 in Heq as [Ha Hb]; [|by rewrite !nid_length]. by apply NodeID_eq in Ha, Hb.
Qed.

(** C25: when a server accepts [a], an honest session computed the code before, for this nonce and
    these two nodes: a client session of [a] towards the server, or a server session of [a] that had
    accepted the server as its client, with the nonce that its client sent. *)
Theorem server_agreement (psk : bytes) (l1 l2 : log) (s a : NodeID) (nb msg out : bytes) :
  star (step psk) [] (l1 ++ EServer s a nb msg out :: l2) ->
  collision_free psk (l1 ++ EServer s a nb msg out :: l2) ->
  (exists out', EClient a s nb out' ∈ l1) \/
  (exists nb' msg' out', EServer a s nb' msg' out' ∈ l1 /\ msg_nonce msg' = nb).
Proof.
  intros Hl Hcf. destruct (reachable_log_ok _ _ Hl) as [Hall Hiss].
  destruct (Hiss _ _ _ _ _ _ _ eq_refl) as (ev & Hev & Hmac). rewrite Forall_forall in Hall.
  assert (EServer s a nb msg out ∈ l1 ++ EServer s a nb msg out :: l2) as Hin by set_solver.
  destruct (Hall _ Hin) as (_ & Hnb & Hna & Hm). assert (ev ∈ l1 ++ EServer s a nb msg out :: l2) as Hin' by set_solver.
  destruct (Hall _ Hin') as [Hmac' Hlen].
  assert (signs ev = nb ++ nid_bytes a ++ nid_bytes s) as Hs.
  { apply (Hcf _ _ _ Hin Hin'); [done|]. congruence. }
  destruct ev as [a' s' nb' out'|a' s' nb' msg' out']; cbn [signs] in Hs.
  - apply nonce_ids_inj in Hs as (-> & -> & ->); [|done..]. left. by exists out'.
  - destruct Hlen as (_ & Hlen & _). apply nonce_ids_inj in Hs as (Hn & -> & ->); [|done..].
    right. by exists nb', msg', out'.
Qed.

(** C26: the second case of the agreement happens: without the key, an attacker between [s] and [a]
    that forwards the handshake of [s] with [a], but replaces the client's nonce by the nonce of another
    server session of [s], gets a code with which that session accepts it as [a], although [a] never
    opened a connection. *)
Theorem server_code_replayed (psk n0 na nb junk : bytes) (s a : NodeID) :
  length n0 = authNonceSize -> length na = authNonceSize -> length nb = authNonceSize -> length junk = authNonceSize ->
  exists l msg out, star (step psk) [] l /\ EServer s a nb msg out ∈ l /\
    (s <> a -> forall b n out', EClient a b n out' ∉ l).
Proof.
  intros Hn0 Hna Hnb Hjunk.
  set (e1 := EClient s a n0 (PerformClientAuth psk s a (Ok na) (mkConn n0 [] true)).1.(cn_out)).
  set (m1 := auth_message s (computeAuthHMAC psk n0 s a) nb). set (m2 := auth_message a (computeAuthHMAC psk nb a s) junk).
  set (e2 := EServer a s n0 m1 (n0 ++ computeAuthHMAC psk nb a s)). set (e3 := EServer s a nb m2 (nb ++ computeAuthHMAC psk junk s a)).
  exists [e1; e2; e3], m2, (nb ++ computeAuthHMAC psk junk s a). split_and!.
  - eapply star_step; [exact (step_client psk [] s a n0 na Hn0 Hna)|].
    eapply star_step; [eapply (step_server psk [e1] a s n0 m1); [done|by apply message_length| |by apply serve_message]|].
    { exists e1. split; [set_solver|]. cbn [event_mac e1]. rewrite client_sends by done. unfold m1. by rewrite !mac_of_message. }
    eapply star_step; [eapply (step_server psk [e1; e2] s a nb m2); [done|by apply message_length| |by apply serve_message]|apply star_refl].
    exists e2. split; [set_solver|]. cbn [event_mac e2]. unfold m2. rewrite mac_of_message. by rewrite drop_app_length'.
  - set_solver.
  - intros Hne b n out'. unfold e1, e2, e3. rewrite !elem_of_cons, elem_of_nil. naive_solver.
Qed.

End Handshake.

(** ** The properties apply *)

Module AuthExample.

(** A toy code: the first bytes of the message. *)
Definition toy (k m : bytes) : bytes := take 32 (m ++ replicate 32 x00).

Lemma toy_length k m : length (toy k m) = authHMACSize.
Proof. unfold toy. rewrite length_take, length_app, length_replicate. unfold authHMACSize. lia. Qed.

Definition nonce (b : byte) : bytes := replicate 16 b.

Lemma handshake_completes_witness :
  exists to_client to_server,
    PerformServerAuth toy [] (test_id x02) (Ok (nonce x0b)) (mkConn to_server [] true) =
      (mkConn [] to_client true, Ok (test_id x01)) /\
    PerformClientAuth toy [] (test_id x01) (test_id x02) (Ok (nonce x0a)) (mkConn to_client [] true) =
      (mkConn [] to_server true, Ok tt).
Proof. exact (handshake_completes toy toy_length [] (nonce x0a) (nonce x0b) (test_id x01) (test_id x02) eq_refl eq_refl). Defined.

(** A client session and the server session that accepts it. *)
Definition dialled : event :=
  EClient (test_id x01) (test_id x02) (nonce x0b)
    (PerformClientAuth toy [] (test_id x01) (test_id x02) (Ok (nonce x0a)) (mkConn (nonce x0b) [] true)).1.(cn_out).

Definition message : bytes := auth_message (test_id x01) (computeAuthHMAC toy [] (nonce x0b) (test_id x01) (test_id x02)) (nonce x0a).

Definition answer : bytes := nonce x0b ++ computeAuthHMAC toy [] (nonce x0a) (test_id x02) (test_id x01).

Definition accepted : event := EServer (test_id x02) (test_id x01) (nonce x0b) message answer.

Lemma run_reachable : star (step toy []) [] [dialled; accepted].
Proof.
  eapply star_step; [exact (step_client toy [] [] (test_id x01) (test_id x02) (nonce x0b) (nonce x0a) eq_refl eq_refl)|].
  eapply star_step; [|apply star_refl].
  refine (step_server toy [] [dialled] (test_id x02) (test_id x01) (nonce x0b) message (mkConn [] answer true) eq_refl _ _ _).
  - apply message_length; [exact toy_length|reflexivity].
  - exists dialled. split; [set_solver|]. cbn [event_mac dialled]. rewrite client_sends by reflexivity.
    unfold message. by rewrite !mac_of_message by exact toy_length.
  - apply serve_message; [exact toy_length|reflexivity].
Qed.

Lemma run_collision_free : collision_free toy [] [dialled; accepted].
Proof.
  intros ev ev' m Hev Hev' Hm Heq.
  repeat (apply elem_of_cons in Hev as [->|Hev]); try (by apply elem_of_nil in Hev); [discriminate Hm|].
  injection Hm as <-. repeat (apply elem_of_cons in Hev' as [->|Hev']); try (by apply elem_of_nil in Hev'); [reflexivity|].
  exfalso. apply (f_equal (take 1)) in Heq. vm_compute in Heq. discriminate Heq.
Qed.

Lemma server_agreement_witness :
  (exists out', EClient (test_id x01) (test_id x02) (nonce x0b) out' ∈ [dialled]) \/
  (exists nb' msg' out', EServer (test_id x01) (test_id x02) nb' msg' out' ∈ [dialled] /\ msg_nonce msg' = nonce x0b).
Proof.
  exact (server_agreement toy toy_length [] [dialled] [] (test_id x02) (test_id x01) (nonce x0b) message answer
    run_reachable run_collision_free).
Defined.

Lemma server_code_replayed_witness :
  exists l msg out, star (step toy []) [] l /\ EServer (test_id x02) (test_id x01) (nonce x0b) msg out ∈ l /\
    (test_id x02 <> test_id x01 -> forall b n out', EClient (test_id x01) b n out' ∉ l).
Proof.
  exact (server_code_replayed toy toy_length [] (nonce x0c) (nonce x0a) (nonce x0b) (nonce x0d) (test_id x02) (test_id x01)
    eq_refl eq_refl eq_refl eq_refl).
Defined.

End AuthExample.
