(* ===== verification/Addr.v ===== *)
(** * Addresses of nodes (src/dht/chord.go)

    Nodes are known by multiaddrs and dialled by host and port. Parsing a multiaddr is the
    go-multiaddr package's ([MultiaddrDeps]); [net.JoinHostPort] and [net.SplitHostPort] are
    written out. *)

From stdpp Require Import base list strings.
From Stdlib Require Import Lia Ascii.
From S2P Require Import Prelude.

Set Default Goal Selector "!".

Inductive protocol := P_IP4 | P_IP6 | P_TCP.

Class MultiaddrDeps := {
  multiaddr : Type;
  NewMultiaddr : string -> result multiaddr;
  ValueForProtocol : multiaddr -> protocol -> result string
}.

(** ** [net.JoinHostPort] and [net.SplitHostPort] *)

Definition JoinHostPort (host port : string) : string :=
  if contains ":" host then "[" +:+ host +:+ "]:" +:+ port else host +:+ ":" +:+ port.

Definition colon : ascii := ":"%char.
Definition lbracket : ascii := "["%char.
Definition rbracket : ascii := "]"%char.

Definition byte_in (c : ascii) (s : list ascii) : bool := bool_decide (c ∈ s).

(** The text before the first [c], and after it. *)
Fixpoint cut (c : ascii) (s : list ascii) : option (list ascii * list ascii) :=
  match s with
  | [] => None
  | x :: s' => if decide (x = c) then Some ([], s') else '(a, b) ← cut c s'; Some (x :: a, b)
  end.

(** The text before the last [c], and after it. *)
Fixpoint cut_last (c : ascii) (s : list ascii) : option (list ascii * list ascii) :=
  match s with
  | [] => None
  | x :: s' =>
      match cut_last c s' with
      | Some (a, b) => Some (x :: a, b)
      | None => if decide (x = c) then Some ([], s') else None
      end
  end.

Definition addr_error (why : string) (hostport : list ascii) : error :=
  errorf ("address " +:+ String.string_of_list_ascii hostport +:+ ": " +:+ why).
Definition missingPort : string := "missing port in address".
Definition tooManyColons : string := "too many colons in address".

Definition SplitHostPort (hostport : list ascii) : result (list ascii * list ascii) :=
  match cut_last colon hostport with
  | None => Err (addr_error missingPort hostport)
  | Some (before, port) =>
      match hostport with
      | x :: rest =>
          if decide (x = lbracket) then
            match cut rbracket rest with
            | None => Err (addr_error "missing ']' in address" hostport)
            | Some (host, after) =>
                if decide (after = colon :: port) then
                  if byte_in lbracket rest then Err (addr_error "unexpected '[' in address" hostport)
                  else if byte_in rbracket after then Err (addr_error "unexpected ']' in address" hostport)
                  else Ok (host, port)
                else
                  match after with
                  | y :: _ => if decide (y = colon) then Err (addr_error tooManyColons hostport) else Err (addr_error missingPort hostport)
                  | [] => Err (addr_error missingPort hostport)
                  end
            end
          else if byte_in colon before then Err (addr_error tooManyColons hostport)
          else if byte_in lbracket hostport then Err (addr_error "unexpected '[' in address" hostport)
          else if byte_in rbracket hostport then Err (addr_error "unexpected ']' in address" hostport)
          else Ok (before, port)
      | [] => Err (addr_error missingPort hostport)
      end
  end.

(** ** Conversions *)

Section Conversions.
Context `{MultiaddrDeps}.

Definition MultiaddrToTCPAddr (s : string) : result string :=
  match NewMultiaddr s with
  | Err _ => Ok s
  | Ok m =>
      host ← (match ValueForProtocol m P_IP4 with
              | Ok v => Ok v
              | Err _ =>
                  match ValueForProtocol m P_IP6 with
                  | Ok v => Ok v
                  | Err _ => Err (errorf ("no IP protocol in multiaddr " +:+ s))
                  end
              end);
      match ValueForProtocol m P_TCP with
      | Err _ => Err (errorf ("no TCP protocol in multiaddr " +:+ s))
      | Ok port => Ok (JoinHostPort host port)
      end
  end.

(** The multiaddr of a host and a port. *)
Definition multiaddr_of (host port : string) : string :=
  if contains ":" host then "/ip6/" +:+ host +:+ "/tcp/" +:+ port else "/ip4/" +:+ host +:+ "/tcp/" +:+ port.

Definition TCPAddrToMultiaddr (hostPort : string) : result string :=
  match SplitHostPort (String.list_ascii_of_string hostPort) with
  | Err e => Err e
  | Ok (host, port) => Ok (multiaddr_of (String.string_of_list_ascii host) (String.string_of_list_ascii port))
  end.

Definition effectiveMultiaddr (boundTCP advertiseAddr : string) : result string :=
  match SplitHostPort (String.list_ascii_of_string boundTCP) with
  | Err e => Err (errorf_w ("parse bound addr " +:+ boundTCP +:+ ": ") e "")
  | Ok (bound, port) =>
      let host := if decide (advertiseAddr = "") then String.string_of_list_ascii bound else advertiseAddr in
      Ok (multiaddr_of host (String.string_of_list_ascii port))
  end.

End Conversions.

(** ** Round trips *)

Lemma cut_app c (a b : list ascii) : c ∉ a -> cut c (a ++ c :: b) = Some (a, b).
Proof.
  induction a as [|x a IH]; intros Hc; cbn [app cut]; [by rewrite decide_True|].
  apply not_elem_of_cons in Hc as [Hx Hc]. rewrite decide_False by done. by rewrite IH.
Qed.

Lemma cut_last_none c (s : list ascii) : c ∉ s -> cut_last c s = None.
Proof.
  induction s as [|x s IH]; intros Hc; cbn [cut_last]; [done|].
  apply not_elem_of_cons in Hc as [Hx Hc]. rewrite IH by done. by rewrite decide_False.
Qed.

Lemma cut_last_app c (a b : list ascii) : c ∉ b -> cut_last c (a ++ c :: b) = Some (a, b).
Proof.
  intros Hc. induction a as [|x a IH]; cbn [app cut_last].
  - rewrite cut_last_none by done. by rewrite decide_True.
  - by rewrite IH.
Qed.

(** A host without brackets and a port without brackets and colons. *)
Definition host_ok (host : list ascii) : Prop := (lbracket ∉ host) /\ (rbracket ∉ host).
Definition port_ok (port : list ascii) : Prop := (colon ∉ port) /\ (lbracket ∉ port) /\ (rbracket ∉ port).

Lemma byte_in_false c s : c ∉ s -> byte_in c s = false.
Proof. intros Hc. by apply bool_decide_eq_false_2. Qed.

Lemma split_plain host port :
  host_ok host -> port_ok port -> colon ∉ host ->
  SplitHostPort (host ++ colon :: port) = Ok (host, port).
Proof.
  intros [Hl Hr] (Hc & Hpl & Hpr) Hcol. unfold SplitHostPort. rewrite cut_last_app by done.
  assert (byte_in lbracket (host ++ colon :: port) = false) as Hbl.
  { apply byte_in_false. rewrite elem_of_app, elem_of_cons. by intros [?|[?|?]]. }
  assert (byte_in rbracket (host ++ colon :: port) = false) as Hbr.
  { apply byte_in_false. rewrite elem_of_app, elem_of_cons. by intros [?|[?|?]]. }
  destruct (host ++ colon :: port)%list as [|x rest] eqn:Heq; [by destruct host|].
  destruct (decide (x = lbracket)) as [->|Hx].
  { destruct host as [|y host]; by simplify_eq/=. }
  by rewrite byte_in_false, Hbl, Hbr.
Qed.

Lemma split_bracketed host port :
  host_ok host -> port_ok port -> SplitHostPort (lbracket :: host ++ rbracket :: colon :: port) = Ok (host, port).
Proof.
  intros [Hl Hr] (Hc & Hpl & Hpr). unfold SplitHostPort.
  replace (lbracket :: host ++ rbracket :: colon :: port) with ((lbracket :: host ++ [rbracket]) ++ colon :: port)
    by by rewrite <- app_comm_cons, <- app_assoc.
  rewrite cut_last_app by done. rewrite <- app_comm_cons, <- app_assoc. cbn [app].
  rewrite decide_True, cut_app by done. rewrite decide_True by done.
  rewrite !byte_in_false; [done| |].
  - rewrite elem_of_cons. by intros [?|?].
  - rewrite elem_of_app, !elem_of_cons. by intros [?|[?|[?|?]]].
Qed.

Lemma chars_app s t : String.list_ascii_of_string (s +:+ t) = (String.list_ascii_of_string s ++ String.list_ascii_of_string t).
Proof. induction s as [|c s IH]; [done|]. exact (f_equal (cons c) IH). Qed.

Lemma contains_colon s : contains ":" s = bool_decide (colon ∈ String.list_ascii_of_string s).
Proof.
  induction s as [|c s IH]; [done|]. cbn [contains String.list_ascii_of_string has_prefix]. rewrite IH, andb_true_r.
  apply eq_bool_prop_intro. rewrite orb_True, !bool_decide_spec, elem_of_cons. done.
Qed.

Lemma split_join host port :
  host_ok (String.list_ascii_of_string host) -> port_ok (String.list_ascii_of_string port) ->
  SplitHostPort (String.list_ascii_of_string (JoinHostPort host port)) = Ok (String.list_ascii_of_string host, String.list_ascii_of_string port).
Proof.
  intros Hh Hp. unfold JoinHostPort. rewrite contains_colon. case_bool_decide.
  - rewrite !chars_app. by apply split_bracketed.
  - rewrite !chars_app. by apply split_plain.
Qed.

(** What the code relies on: the multiaddr printed for an address has the values it was
    printed from. *)
Class MultiaddrLaws `{MultiaddrDeps} (address : string -> string -> Prop) := {
  multiaddr_values host port : address host port ->
    exists m, NewMultiaddr (multiaddr_of host port) = Ok m /\ ValueForProtocol m P_TCP = Ok port /\
      if contains ":" host then is_ok (ValueForProtocol m P_IP4) = false /\ ValueForProtocol m P_IP6 = Ok host
      else ValueForProtocol m P_IP4 = Ok host;
  address_chars host port : address host port ->
    host_ok (String.list_ascii_of_string host) /\ port_ok (String.list_ascii_of_string port)
}.

Section RoundTrip.
Context `{MultiaddrLaws}.

Lemma dial_multiaddr host port :
  address host port -> MultiaddrToTCPAddr (multiaddr_of host port) = Ok (JoinHostPort host port).
Proof.
  intros Ha. destruct (multiaddr_values host port Ha) as (m & Hm & Hp & Hh). unfold MultiaddrToTCPAddr.
  rewrite Hm, Hp. destruct (contains ":" host).
  - destruct Hh as [H4 H6]. rewrite H6. by destruct (ValueForProtocol m P_IP4).
  - by rewrite Hh.
Qed.

(** The address a server makes known is dialled at the port it listens on, on the host it
    advertises or is bound to. *)
Theorem advertised_address_is_dialled host port advertise :
  address host port -> (advertise = "" \/ address advertise port) ->
  exists s, effectiveMultiaddr (JoinHostPort host port) advertise = Ok s /\
    MultiaddrToTCPAddr s = Ok (JoinHostPort (if decide (advertise = "") then host else advertise) port).
Proof.
  intros Ha Hadv. destruct (address_chars host port Ha) as [Hh Hp]. unfold effectiveMultiaddr.
  rewrite split_join by done. rewrite !String.string_of_list_ascii_of_string. eexists. split; [reflexivity|].
  case_decide; apply dial_multiaddr; [done|]. by destruct Hadv.
Qed.

End RoundTrip.
