(* ===== verification/RpcWire.v ===== *)
(** * Remote calls (src/dht/rpc.go, and the transport of src/dht/private.go)

    The messages, the handlers a node registers under the name ChordNode, and the client
    side of each call. A handler runs at the node of its connection, in the worlds of Routing.v,
    BlockNode.v and RecordNet.v; the client side is written against [Caller], the [call] of a
    transport, so that the public and the private transport share it. The theorems compare a
    remote call with the in-process call of BlockNet.v. *)

From stdpp Require Import base gmap list strings.
From Stdlib Require Import ZArith Lia Strings.Byte.
From S2P Require Import Prelude Hoare Config Chord Routing Lookup Cluster Sha1 Identity Records RecordStore RecordNet.
From S2P Require Import StoreDeps NetworkStore BlockStore BlockNode BlockNet.

Set Default Goal Selector "!".
Local Open Scope Z_scope.

(** The binary form of an identifier of a block, of the go-cid package. *)
Class WireDeps `{StoreDeps} := {
  cid_Bytes : cid -> bytes;
  cid_Cast : bytes -> result cid
}.

Class WireLaws `{WireDeps} := {
  cid_Cast_Bytes c : cid_Defined c = true -> cid_Cast (cid_Bytes c) = Ok c;
  cid_Bytes_ok c : cid_Defined c = true -> cid_Bytes c <> []
}.

(** ** Messages *)

Record ArgsFindSuccessor := mkArgsFindSuccessor { afs_ID : NodeID }.
Record ReplyFindSuccessor := mkReplyFindSuccessor { rfs_Node : NodeAddr }.
Record ReplyGetPredecessor := mkReplyGetPredecessor { rgp_Node : NodeAddr; rgp_HasNode : bool; rgp_SelfID : NodeID }.
Record ReplyGetSuccessorList := mkReplyGetSuccessorList { rgs_List : list NodeAddr }.
Record ArgsNotify := mkArgsNotify { an_Caller : NodeAddr }.
Record ArgsPutBlock := mkArgsPutBlock { apb_Key : bytes; apb_Data : bytes; apb_RootCID : bytes; apb_RootTTLNanos : Z }.
Record ArgsPushBlocks := mkArgsPushBlocks {
  aps_Keys : list bytes; aps_Data : list bytes; aps_BlockRootCIDs : list (list string); aps_BlockRootExpiry : list (list Z) }.
Record ArgsReconcileBlocks := mkArgsReconcileBlocks { arb_Keys : list bytes }.
Record ReplyReconcileBlocks := mkReplyReconcileBlocks { rrb_MissingIndices : list Z }.
Record ArgsKey := mkArgsKey { ak_Key : bytes }.
Record ReplyFetchBlock := mkReplyFetchBlock { rfb_Data : bytes; rfb_Found : bool }.
Record ReplyHasBlock := mkReplyHasBlock { rhb_Has : bool }.
Record ArgsRange := mkArgsRange { ar_From : NodeID; ar_To : NodeID }.
Record ReplyTransferKeys := mkReplyTransferKeys {
  rtk_Keys : list bytes; rtk_Data : list bytes; rtk_BlockRootCIDs : list (list string); rtk_BlockRootExpiry : list (list Z) }.
Record ArgsDeleteCID := mkArgsDeleteCID { adc_CID : bytes; adc_Propagate : bool }.
Record ArgsNotifyLeave := mkArgsNotifyLeave { anl_Self : NodeAddr; anl_Successor : NodeAddr; anl_Predecessor : NodeAddr }.
Record ReplyClosestPrecedingNode := mkReplyClosestPrecedingNode { rcp_Predecessor : NodeAddr; rcp_Successor : NodeAddr }.
Record ArgsPutRecord := mkArgsPutRecord { apr_Key : NodeID; apr_Data : bytes; apr_CallerID : NodeID }.
Record ArgsGetRecord := mkArgsGetRecord { agr_Key : NodeID }.
Record ReplyGetRecord := mkReplyGetRecord { rgr_Data : bytes; rgr_Found : bool }.
Record ArgsPushRecords := mkArgsPushRecords { apu_Keys : list NodeID; apu_Data : list bytes }.
Record ReplyTransferRecords := mkReplyTransferRecords { rtr_Keys : list NodeID; rtr_Data : list bytes }.

(** Indexing past the end of a slice panics, and net/rpc does not recover the panic of a
    handler: the process ends. *)
Definition panicIndex : error := errorf "runtime error: index out of range".

Definition index {A} (l : list A) (i : nat) : result A :=
  match l !! i with Some a => Ok a | None => Err panicIndex end.

(** ** Handlers *)

(** [h_node] stands for the node itself; [h_authenticatedPeerID] is set by the private server. *)
Record rpcHandler := mkHandler { h_node : NodeID; h_authenticatedPeerID : option NodeID }.

Definition invalid_cid (e : error) : error := errorf_w "invalid CID: " e "".

Section RoutingHandlers.
Context {W : Type} (nodes : NodeID -> NodeEnv W).

Definition h_FindSuccessor (h : rpcHandler) (args : ArgsFindSuccessor) : M W ReplyFindSuccessor :=
  n ← @FindSuccessor _ (nodes h.(h_node)) Background args.(afs_ID);
  m_ret (mkReplyFindSuccessor n).

Definition noAddr : NodeAddr := mkNodeAddr zeroID "".

Definition h_GetPredecessor (h : rpcHandler) (_ : unit) : M W ReplyGetPredecessor :=
  r ← @getRouting _ (nodes h.(h_node));
  m_ret (match r.(r_predecessor) with
         | Some pred => mkReplyGetPredecessor pred true r.(r_id)
         | None => mkReplyGetPredecessor noAddr false r.(r_id)
         end).

Definition h_GetSuccessorList (h : rpcHandler) (_ : unit) : M W ReplyGetSuccessorList :=
  r ← @getRouting _ (nodes h.(h_node));
  m_ret (mkReplyGetSuccessorList r.(r_successorList)).

(** The connection speaks for this caller, or is not authenticated. *)
Definition speaks_for (h : rpcHandler) (caller : NodeID) : bool :=
  match h.(h_authenticatedPeerID) with Some id => Equal caller id | None => true end.

Definition notify_rejected (caller authenticated : NodeID) : error :=
  errorf ("notify rejected: caller ID " +:+ NodeID_String caller +:+ " does not match authenticated peer "
          +:+ NodeID_String authenticated).

Definition h_Notify (h : rpcHandler) (args : ArgsNotify) : M W unit :=
  match h.(h_authenticatedPeerID) with
  | Some id =>
      if negb (speaks_for h args.(an_Caller).(na_id)) then m_err (notify_rejected args.(an_Caller).(na_id) id)
      else @notify _ (nodes h.(h_node)) args.(an_Caller)
  | None => @notify _ (nodes h.(h_node)) args.(an_Caller)
  end.

Definition h_NotifyLeave (h : rpcHandler) (args : ArgsNotifyLeave) : M W unit :=
  @modifyRouting _ (nodes h.(h_node)) (handleNotifyLeave args.(anl_Self) args.(anl_Successor) args.(anl_Predecessor)).

Definition h_ClosestPrecedingNode (h : rpcHandler) (args : ArgsFindSuccessor) : M W ReplyClosestPrecedingNode :=
  r ← @getRouting _ (nodes h.(h_node));
  m_ret (mkReplyClosestPrecedingNode (closestPrecedingNode r args.(afs_ID)) r.(r_successor)).

Definition h_Ping (h : rpcHandler) (_ : unit) : M W unit := m_ret tt.

End RoutingHandlers.

Section BlockHandlers.
Context `{HD : StoreDeps} `{HWD : !WireDeps} {S L : Type} `{!BlockStore S} `{!BlockStore L}.
Context {W : Type} (nodes : NodeID -> NodeEnv W) (stores : NodeID -> BlockEnv (S := S) (L := L) W).

(** [cid.Cast] of a key, with the error of the handlers. *)
Definition cast_key (raw : bytes) : M W cid :=
  match cid_Cast raw with Ok c => m_ret c | Err e => m_err (invalid_cid e) end.

Definition h_PutBlock (h : rpcHandler) (args : ArgsPutBlock) : M W unit :=
  let HN := nodes h.(h_node) in
  let HB := stores h.(h_node) in
  c ← cast_key args.(apb_Key);
  let '(rootCID, rootExpiry) :=
    match args.(apb_RootCID) with
    | [] => (None, 0)
    | raw => match cid_Cast raw with Ok rc => (Some rc, args.(apb_RootTTLNanos)) | Err _ => (None, 0) end
    end in
  res ← m_try (store_block c args.(apb_Data) rootCID rootExpiry);
  match res with
  | Ok _ => replicateAsync c args.(apb_Data) rootCID rootExpiry
  | Err e =>
      if negb (IsStorageFull e) then m_err e
      else
        out ← replicateAndReport c args.(apb_Data) rootCID rootExpiry;
        if out.1 =? 0 then m_err errStorageFull else m_ret tt
  end.

(** The first root of the [i]-th block, when the node has a ring and the root can be decoded. *)
Definition first_root (ring : bool) (args : ArgsPushBlocks) (i : nat) : result (option (cid * Z)) :=
  if negb ring then Ok None
  else
    match args.(aps_BlockRootCIDs) !! i with
    | Some (root :: _) =>
        match cid_Parse root with
        | Err _ => Ok None
        | Ok rc => exps ← index args.(aps_BlockRootExpiry) i; Ok (Some (rc, default 0 (head exps)))
        end
    | _ => Ok None
    end.

(** Its other roots with their expiries, [0] for one that has none. *)
Definition other_roots (args : ArgsPushBlocks) (i : nat) : list (string * Z) :=
  match args.(aps_BlockRootCIDs) !! i with
  | Some (_ :: roots) =>
      imap (fun j root => (root, default 0 (args.(aps_BlockRootExpiry) !! i ≫= (.!! Datatypes.S j)))) roots
  | _ => []
  end.

(** One round of the loop of [PushBlocks]; [true] if the block was stored. *)
Definition push_one (h : rpcHandler) (args : ArgsPushBlocks) (i : nat) (rawKey : bytes) : M W bool :=
  let HB := stores h.(h_node) in
  c ← cast_key rawKey;
  n ← getNode_;
  root ← m_lift (first_root (has_ring n) args i);
  data ← m_lift (index args.(aps_Data) i);
  res ← m_try (match root with
               | Some (rc, exp) => store_block c data (Some rc) exp
               | None => on_blocks (st_Put c data)
               end);
  match res with
  | Err e => if IsStorageFull e then m_ret false else m_err e
  | Ok _ =>
      _ ← (match root with
           | Some _ =>
               m_forM (other_roots args i) (fun re =>
                 ring_or (fun ring _ =>
                   _ ← AddRootWithExpiry ring re.1 re.2;
                   AddBlockRootIndex ring c re.1) (m_ret tt))
           | None => m_ret tt
           end);
      m_ret true
  end.

Fixpoint push_from (h : rpcHandler) (args : ArgsPushBlocks) (i : nat) (keys : list bytes) (stored : nat) : M W nat :=
  match keys with
  | [] => m_ret stored
  | rawKey :: keys' =>
      ok ← push_one h args i rawKey;
      push_from h args (Datatypes.S i) keys' (if (ok : bool) then Datatypes.S stored else stored)
  end.

Definition h_PushBlocks (h : rpcHandler) (args : ArgsPushBlocks) : M W unit :=
  stored ← push_from h args 0 args.(aps_Keys) 0;
  match stored, args.(aps_Keys) with
  | O, _ :: _ => m_err errStorageFull
  | _, _ => m_ret tt
  end.

Definition uint32 (i : nat) : Z := Z.of_nat i mod 2 ^ 32.

Fixpoint missing_from (h : rpcHandler) (i : nat) (keys : list bytes) : M W (list Z) :=
  match keys with
  | [] => m_ret []
  | rawKey :: keys' =>
      miss ← (match cid_Cast rawKey with
              | Err _ => m_ret true
              | Ok c =>
                  res ← m_try (on_blocks (HB := stores h.(h_node)) (st_Has c));
                  m_ret (match res with Ok true => false | _ => true end)
              end);
      rest ← missing_from h (Datatypes.S i) keys';
      m_ret (if (miss : bool) then uint32 i :: rest else rest)
  end.

Definition h_ReconcileBlocks (h : rpcHandler) (args : ArgsReconcileBlocks) : M W ReplyReconcileBlocks :=
  l ← missing_from h 0 args.(arb_Keys);
  m_ret (mkReplyReconcileBlocks l).

(** The successors are asked whether they have the block, and then for it. A nil slice counts as
    a miss. *)
Fixpoint ask_successors (h : rpcHandler) (c : cid) (targets : list NodeAddr) : M W ReplyFetchBlock :=
  let HB := stores h.(h_node) in
  match targets with
  | [] => m_ret (mkReplyFetchBlock [] false)
  | t :: targets' =>
      has ← m_try (bt_HasBlock t c);
      match has with
      | Ok true =>
          got ← m_try (bt_FetchBlock t c);
          match got with
          | Ok d => if bt_isNil d then ask_successors h c targets' else m_ret (mkReplyFetchBlock d true)
          | Err _ => ask_successors h c targets'
          end
      | _ => ask_successors h c targets'
      end
  end.

Definition h_FetchBlock (h : rpcHandler) (args : ArgsKey) : M W ReplyFetchBlock :=
  let HB := stores h.(h_node) in
  c ← cast_key args.(ak_Key);
  here ← m_try (get_here (HB := stores h.(h_node)) c);
  match here with
  | Ok d => m_ret (mkReplyFetchBlock d true)
  | Err _ =>
      r ← @getRouting _ (nodes h.(h_node));
      w ← m_get;
      ask_successors h c ((stores h.(h_node)).(be_arrival) w (filterb (fun s => negb (Equal s.(na_id) r.(r_id))) r.(r_successorList)))
  end.

Definition h_HasBlock (h : rpcHandler) (args : ArgsKey) : M W ReplyHasBlock :=
  let HB := stores h.(h_node) in
  c ← cast_key args.(ak_Key);
  has ← on_blocks (st_Has c);
  m_ret (mkReplyHasBlock has).

Definition h_RemoveBlock (h : rpcHandler) (args : ArgsKey) : M W unit :=
  let HB := stores h.(h_node) in
  c ← cast_key args.(ak_Key);
  on_blocks (st_Delete c).

(** The handed-over blocks are dropped from the ring, or from the plain store. *)
Fixpoint release (h : rpcHandler) (keys : list cid) : M W unit :=
  let HB := stores h.(h_node) in
  match keys with
  | [] => m_ret tt
  | k :: keys' =>
      n ← getNode_;
      _ ← (if has_ring n then drop_unless_live k else m_ignore (on_blocks (st_Delete k)));
      release h keys'
  end.

Definition h_TransferKeys (h : rpcHandler) (args : ArgsRange) : M W ReplyTransferKeys :=
  let HB := stores h.(h_node) in
  l ← collectRingBlocksInRange args.(ar_From) args.(ar_To);
  _ ← release h (ca_key <$> l);
  m_ret (mkReplyTransferKeys (cid_Bytes <$> (ca_key <$> l)) (ca_data <$> l)
           ((fun b => re_CID <$> b.(ca_roots)) <$> l) ((fun b => re_ExpiresAt <$> b.(ca_roots)) <$> l)).

Definition h_DeleteCID (h : rpcHandler) (args : ArgsDeleteCID) : M W unit :=
  let HN := nodes h.(h_node) in
  let HB := stores h.(h_node) in
  c ← cast_key args.(adc_CID);
  handleDeleteCID c args.(adc_Propagate).

End BlockHandlers.

Section RecordHandlers.
Context `{WireCodec} `{Ed25519} {W : Type} (nodes : NodeID -> NodeEnv W) (records : NodeID -> RecordEnv W).

Definition h_PutRecord (h : rpcHandler) (args : ArgsPutRecord) : M W unit :=
  let callerID := default args.(apr_CallerID) h.(h_authenticatedPeerID) in
  _ ← @onRecords _ (records h.(h_node)) _ (fun clk => storeRecord clk args.(apr_Key) args.(apr_Data) callerID);
  @replicateRecordBestEffort _ (nodes h.(h_node)) (records h.(h_node)) args.(apr_Key) args.(apr_Data).

Definition h_GetRecord (h : rpcHandler) (args : ArgsGetRecord) : M W ReplyGetRecord :=
  res ← m_try (@readRecords _ (records h.(h_node)) _ (fun clk => localRecordGet clk args.(agr_Key)));
  m_ret (match res with Ok data => mkReplyGetRecord data true | Err _ => mkReplyGetRecord [] false end).

Fixpoint put_records (h : rpcHandler) (keys : list NodeID) (data : list bytes) (i : nat) : M W unit :=
  match keys with
  | [] => m_ret tt
  | k :: keys' =>
      d ← m_lift (index data i);
      _ ← @onRecords _ (records h.(h_node)) _ (fun clk => m_modify (localRecordPut clk k d));
      put_records h keys' data (S i)
  end.

Definition h_PushRecords (h : rpcHandler) (args : ArgsPushRecords) : M W unit :=
  put_records h args.(apu_Keys) args.(apu_Data) 0.

Definition h_TransferRecords (h : rpcHandler) (args : ArgsRange) : M W ReplyTransferRecords :=
  @readRecords _ (records h.(h_node)) _ (fun _ st =>
    let kvs := getRecordsInRange args.(ar_From) args.(ar_To) st in
    Ok (mkReplyTransferRecords kvs.*1 kvs.*2)).

End RecordHandlers.

(** ** The client side *)

(** [call]: runs a method of the handlers, in the world [W] of the nodes, over the
    connections of a transport in the world [V]. *)
Class Caller (W V : Type) :=
  call : forall {A R : Type}, NodeAddr -> (rpcHandler -> A -> M W R) -> A -> M V R.

Section RoutingStubs.
Context {W V : Type} `{!Caller W V} (nodes : NodeID -> NodeEnv W).

Definition rpc_FindSuccessor (target : NodeAddr) (id : NodeID) : M V NodeAddr :=
  reply ← call target (h_FindSuccessor nodes) (mkArgsFindSuccessor id);
  m_ret reply.(rfs_Node).

Definition rpc_ClosestPrecedingNode (target : NodeAddr) (id : NodeID) : M V (NodeAddr * NodeAddr) :=
  reply ← call target (h_ClosestPrecedingNode nodes) (mkArgsFindSuccessor id);
  m_ret (reply.(rcp_Predecessor), reply.(rcp_Successor)).

Definition identity_mismatch (expected got : NodeID) : error :=
  errorf ("identity mismatch: expected " +:+ NodeID_String expected +:+ ", got " +:+ NodeID_String got).

Definition predecessor_in (target : NodeID) (reply : ReplyGetPredecessor) : result (option NodeAddr) :=
  if negb (Equal reply.(rgp_SelfID) zeroID) && negb (Equal reply.(rgp_SelfID) target)
  then Err (identity_mismatch target reply.(rgp_SelfID))
  else if negb reply.(rgp_HasNode) then Ok None
  else Ok (Some reply.(rgp_Node)).

Definition rpc_GetPredecessor (target : NodeAddr) : M V (option NodeAddr) :=
  reply ← call target (h_GetPredecessor nodes) tt;
  m_lift (predecessor_in target.(na_id) reply).

Definition rpc_GetSuccessorList (target : NodeAddr) : M V (list NodeAddr) :=
  reply ← call target (h_GetSuccessorList nodes) tt;
  m_ret reply.(rgs_List).

Definition rpc_Notify (target caller : NodeAddr) : M V unit := call target (h_Notify nodes) (mkArgsNotify caller).

Definition rpc_NotifyLeave (target self successor predecessor : NodeAddr) : M V unit :=
  call target (h_NotifyLeave nodes) (mkArgsNotifyLeave self successor predecessor).

Definition rpc_Ping (target : NodeAddr) : M V unit := call target h_Ping tt.

End RoutingStubs.

Section BlockStubs.
Context `{HD : StoreDeps} `{HWD : !WireDeps} {S L : Type} `{!BlockStore S} `{!BlockStore L}.
Context {W V : Type} `{HC : !Caller W V}.
Context (nodes : NodeID -> NodeEnv W) (stores : NodeID -> BlockEnv (S := S) (L := L) W).

Definition rpc_PutBlock (target : NodeAddr) (key : cid) (data : bytes) (rootCID : option cid) (rootExpiry : Z) : M V unit :=
  call target (h_PutBlock nodes stores)
    (mkArgsPutBlock (cid_Bytes key) data (match rootCID with Some rc => cid_Bytes rc | None => [] end) rootExpiry).

Definition push_args (l : list carried) : ArgsPushBlocks :=
  mkArgsPushBlocks ((fun b => cid_Bytes b.(ca_key)) <$> l) (ca_data <$> l)
    ((fun b => re_CID <$> b.(ca_roots)) <$> l) ((fun b => re_ExpiresAt <$> b.(ca_roots)) <$> l).

Definition rpc_PushBlocks (target : NodeAddr) (l : list carried) : M V unit :=
  call target (h_PushBlocks stores) (push_args l).

(** The keys at the indices of the reply that are in range. *)
Definition at_indices (keys : list cid) (indices : list Z) : list cid :=
  omap (fun idx => keys !! Z.to_nat idx) indices.

Definition rpc_ReconcileBlocks (target : NodeAddr) (keys : list cid) : M V (list cid) :=
  reply ← call target (h_ReconcileBlocks stores) (mkArgsReconcileBlocks (cid_Bytes <$> keys));
  m_ret (at_indices keys reply.(rrb_MissingIndices)).

Definition rpc_FetchBlock (target : NodeAddr) (key : cid) : M V bytes :=
  reply ← call target (h_FetchBlock nodes stores) (mkArgsKey (cid_Bytes key));
  if negb reply.(rfb_Found) then m_err (block_not_found key) else m_ret reply.(rfb_Data).

Definition rpc_HasBlock (target : NodeAddr) (key : cid) : M V bool :=
  reply ← call target (h_HasBlock stores) (mkArgsKey (cid_Bytes key));
  m_ret reply.(rhb_Has).

Definition rpc_RemoveBlock (target : NodeAddr) (key : cid) : M V unit :=
  call target (h_RemoveBlock stores) (mkArgsKey (cid_Bytes key)).

(** The keys of a reply, each decoded. *)
Fixpoint cast_all (raws : list bytes) : result (list cid) :=
  match raws with
  | [] => Ok []
  | raw :: raws' =>
      match cid_Cast raw with
      | Err e => Err (errorf_w "invalid CID in transfer reply: " e "")
      | Ok c => l ← cast_all raws'; Ok (c :: l)
      end
  end.

(** The roots of the [i]-th block of a reply; a missing expiry is [0]. *)
Definition reply_roots (reply : ReplyTransferKeys) (i : nat) : list NetworkRootEntry :=
  match reply.(rtk_BlockRootCIDs) !! i with
  | None => []
  | Some roots => imap (fun j root => mkRootEntry root (default 0 (reply.(rtk_BlockRootExpiry) !! i ≫= (.!! j)))) roots
  end.

(** The caller of [TransferKeys] pairs the slices it returns by index. *)
Fixpoint pair_up (i : nat) (keys : list cid) (data : list bytes) (roots : nat -> list NetworkRootEntry) : result (list carried) :=
  match keys with
  | [] => Ok []
  | k :: keys' => d ← index data i; l ← pair_up (Datatypes.S i) keys' data roots; Ok (mkCarried k d (roots i) :: l)
  end.

Definition carried_in (reply : ReplyTransferKeys) : result (list carried) :=
  keys ← cast_all reply.(rtk_Keys);
  pair_up 0 keys reply.(rtk_Data) (reply_roots reply).

Definition rpc_TransferKeys (target : NodeAddr) (from to : NodeID) : M V (list carried) :=
  reply ← call target (h_TransferKeys stores) (mkArgsRange from to);
  m_lift (carried_in reply).

Definition rpc_DeleteCID (target : NodeAddr) (key : cid) (propagate : bool) : M V unit :=
  call target (h_DeleteCID nodes stores) (mkArgsDeleteCID (cid_Bytes key) propagate).

End BlockStubs.

Section RecordStubs.
Context `{WireCodec} `{Ed25519} {W V : Type} `{!Caller W V}.
Context (nodes : NodeID -> NodeEnv W) (records : NodeID -> RecordEnv W).

Definition rpc_PutRecord (target : NodeAddr) (key : NodeID) (data : bytes) (callerID : NodeID) : M V unit :=
  call target (h_PutRecord nodes records) (mkArgsPutRecord key data callerID).

Definition rpc_GetRecord (target : NodeAddr) (key : NodeID) : M V bytes :=
  reply ← call target (h_GetRecord records) (mkArgsGetRecord key);
  if negb reply.(rgr_Found) then m_err (errorf ("record not found at " +:+ NodeID_String key)) else m_ret reply.(rgr_Data).

Definition rpc_PushRecords (target : NodeAddr) (kvs : list (NodeID * bytes)) : M V unit :=
  call target (h_PushRecords records) (mkArgsPushRecords kvs.*1 kvs.*2).

Definition rpc_TransferRecords (target : NodeAddr) (from to : NodeID) : M V (list (NodeID * bytes)) :=
  reply ← call target (h_TransferRecords records) (mkArgsRange from to);
  m_ret (zip reply.(rtr_Keys) reply.(rtr_Data)).

End RecordStubs.

(** ** Handlers and the in-process transport *)

Section Agreement.
Context `{HD : StoreDeps} `{HWD : !WireDeps} `{HWL : !WireLaws} {S L : Type} `{!BlockStore S} `{!BlockStore L}.
Abbreviation W := (BlockWorld (S := S) (L := L)).
Abbreviation nodes := (routing_env (S := S) (L := L)).
Abbreviation stores := (block_env (S := S) (L := L)).

Definition defined (c : cid) : Prop := cid_Defined c = true.

Lemma cast_key_Bytes c : defined c -> cast_key (W := W) (cid_Bytes c) = m_ret c.
Proof. intros Hc. unfold cast_key. by rewrite cid_Cast_Bytes. Qed.

Lemma bind_ret {X A B} (a : A) (k : A -> M X B) : (x ← m_ret a; k x) = k a.
Proof. done. Qed.

(** *** [PutBlock] *)

Lemma put_handler h key data rootCID rootExpiry w :
  defined key -> (forall rc, rootCID = Some rc -> defined rc) ->
  h_PutBlock nodes stores h
    (mkArgsPutBlock (cid_Bytes key) data (match rootCID with Some rc => cid_Bytes rc | None => [] end) rootExpiry) w =
  serve_PutBlock h.(h_node) key data rootCID rootExpiry w.
Proof.
  intros Hkey Hroot. unfold h_PutBlock. cbn [apb_Key apb_RootCID apb_Data apb_RootTTLNanos].
  rewrite cast_key_Bytes by done. rewrite bind_ret. destruct rootCID as [rc|]; [|reflexivity].
  pose proof (cid_Bytes_ok rc (Hroot rc eq_refl)) as Hne. pose proof (cid_Cast_Bytes rc (Hroot rc eq_refl)) as Hc.
  destruct (cid_Bytes rc); [done|]. rewrite Hc. reflexivity.
Qed.

(** *** [PushBlocks] *)

Lemma lookup_middle {A B} (f : A -> B) (l : list A) (x : A) (r : list A) :
  (f <$> l ++ x :: r) !! length l = Some (f x).
Proof. by rewrite list_lookup_fmap, list_lookup_middle. Qed.

Lemma bind_getNode {B} (E : BlockEnv (S := S) (L := L) W) (k : BlockNode -> M W B) w :
  (n ← getNode_ (HB := E); k n) w = k (be_node w) w.
Proof. done. Qed.

(** The other roots of a block, back from the two slices. *)
Lemma imap_entries (roots : list NetworkRootEntry) (x : Z) :
  imap (fun j root => (root, default 0 (Some (x :: (re_ExpiresAt <$> roots)) ≫= (.!! Datatypes.S j)))) (re_CID <$> roots) =
  (fun nr => (nr.(re_CID), nr.(re_ExpiresAt))) <$> roots.
Proof.
  apply list_eq. intros j. rewrite list_lookup_imap, !list_lookup_fmap.
  destruct (roots !! j) eqn:Hj; [|done]. simpl. by rewrite list_lookup_fmap, Hj.
Qed.

Lemma forM_fmap {X A B} (f : A -> B) (l : list A) (body : B -> M X unit) w :
  m_forM (f <$> l) body w = m_forM l (fun a => body (f a)) w.
Proof.
  revert w. induction l as [|a l IH]; intros w; cbn [fmap list_fmap m_forM]; [done|]. unfold m_bind.
  destruct (body (f a) w) as [w' [[]|e]]; [apply IH|done].
Qed.

Lemma push_one_handler h l b r w :
  defined b.(ca_key) ->
  push_one stores h (push_args (l ++ b :: r)) (length l) (cid_Bytes b.(ca_key)) w = accept_block h.(h_node) b w.
Proof.
  intros Hb. unfold push_one, accept_block, first_root, other_roots, index, push_args.
  cbn [aps_Keys aps_Data aps_BlockRootCIDs aps_BlockRootExpiry]. rewrite !lookup_middle.
  rewrite cast_key_Bytes by done. rewrite bind_ret, !bind_getNode.
  cbn [block_env storage_env target_env be_node].
  destruct (ca_roots b) as [|nr roots]; cbn [fmap list_fmap tail].
  { destruct (has_ring (block_node (h_node h) w)); reflexivity. }
  destruct (has_ring (block_node (h_node h) w)); cbn [negb]; [|reflexivity].
  destruct (cid_Parse (re_CID nr)) as [rc|e]; [|reflexivity].
  change (list_fmap _ _ re_CID roots) with (re_CID <$> roots).
  change (list_fmap _ _ re_ExpiresAt roots) with (re_ExpiresAt <$> roots). rewrite imap_entries.
  unfold mbind, M_bind, m_bind, m_lift, m_try, result_bind. cbn [default head].
  change (store_block (HB := stores (h_node h)) ?a ?b ?c ?d) with (store_block (HB := storage_env (S := S) (L := L) (h_node h)) a b c d).
  destruct (store_block _ _ _ _ w) as [w' [u|e]]; [|reflexivity]. rewrite forM_fmap. reflexivity.
Qed.

Lemma push_from_handler h l b stored w :
  Forall (fun x => defined x.(ca_key)) b ->
  push_from stores h (push_args (l ++ b)) (length l) ((fun x => cid_Bytes x.(ca_key)) <$> b) stored w =
  accept_blocks h.(h_node) b stored w.
Proof.
  revert l stored w. induction b as [|x b IH]; intros l stored w Hdef; cbn [fmap list_fmap push_from accept_blocks]; [done|].
  apply Forall_cons in Hdef as [Hx Hdef]. unfold mbind, M_bind, m_bind.
  rewrite push_one_handler by done. destruct (accept_block (h_node h) x w) as [w' [ok|e]]; [|done].
  specialize (IH (l ++ [x]) (if ok then Datatypes.S stored else stored) w' Hdef).
  rewrite <- app_assoc, length_app in IH. cbn [length app] in IH. rewrite Nat.add_1_r in IH. exact IH.
Qed.

Lemma push_handler h l w :
  Forall (fun x => defined x.(ca_key)) l ->
  h_PushBlocks stores h (push_args l) w = serve_PushBlocks h.(h_node) l w.
Proof.
  intros Hdef. unfold h_PushBlocks, serve_PushBlocks, mbind, M_bind, m_bind.
  change (aps_Keys (push_args l)) with ((fun x => cid_Bytes (ca_key x)) <$> l).
  pose proof (push_from_handler h [] l 0 w Hdef) as Heq. cbn [app length] in Heq. rewrite Heq.
  destruct (accept_blocks (h_node h) l 0 w) as [w' [stored|e]]; [|done]. by destruct stored, l.
Qed.

(** *** [ReconcileBlocks] *)

Lemma at_indices_uint32 (keys : list cid) i k :
  Z.of_nat (length keys) <= 2 ^ 32 -> keys !! i = Some k -> keys !! Z.to_nat (uint32 i) = Some k.
Proof.
  intros Hlen Hk. pose proof (lookup_lt_Some _ _ _ Hk). unfold uint32. rewrite Z.mod_small by lia. by rewrite Nat2Z.id.
Qed.

Lemma missing_handler h l keys w :
  Z.of_nat (length (l ++ keys)) <= 2 ^ 32 -> Forall defined keys ->
  (x ← missing_from stores h (length l) (cid_Bytes <$> keys); m_ret (at_indices (l ++ keys) x)) w =
  serve_Reconcile h.(h_node) keys w.
Proof.
  revert l w. induction keys as [|k keys IH]; intros l w Hlen Hdef; cbn [fmap list_fmap missing_from serve_Reconcile]; [done|].
  apply Forall_cons in Hdef as [Hk Hdef]. specialize (IH (l ++ [k])).
  rewrite <- app_assoc, (length_app l [k]) in IH. cbn [length app] in IH. rewrite Nat.add_1_r in IH.
  rewrite cid_Cast_Bytes by done. unfold mbind, M_bind, m_bind, m_try in *.
  change (on_blocks (HB := stores (h_node h)) (st_Has k)) with (on_blocks (HB := storage_env (S := S) (L := L) (h_node h)) (st_Has k)).
  destruct (on_blocks (st_Has k) w) as [w' res]. cbn [m_ret]. specialize (IH w' Hlen Hdef).
  change (list_fmap _ _ cid_Bytes keys) with (cid_Bytes <$> keys).
  destruct (serve_Reconcile (h_node h) keys w') as [w'' [rest|e]];
    destruct (missing_from stores h (Datatypes.S (length l)) (cid_Bytes <$> keys) w') as [w3 [x|e']];
    unfold m_ret in *; simplify_eq; [|done].
  assert (at_indices (l ++ k :: keys) (uint32 (length l) :: x) = k :: at_indices (l ++ k :: keys) x) as Hcons.
  { cbn [at_indices omap list_omap]. rewrite (at_indices_uint32 _ (length l) k); [done|done|]. by apply list_lookup_middle. }
  by destruct res as [[|]|e]; rewrite ?Hcons.
Qed.

Lemma reconcile_handler h keys w :
  Z.of_nat (length keys) <= 2 ^ 32 -> Forall defined keys ->
  (reply ← h_ReconcileBlocks stores h (mkArgsReconcileBlocks (cid_Bytes <$> keys));
   m_ret (at_indices keys reply.(rrb_MissingIndices))) w =
  serve_Reconcile h.(h_node) keys w.
Proof.
  intros Hlen Hdef. rewrite <- (missing_handler h [] keys w Hlen Hdef). unfold h_ReconcileBlocks, mbind, M_bind, m_bind.
  cbn [arb_Keys length app]. by destruct (missing_from stores h 0 (cid_Bytes <$> keys) w) as [w' [x|e]].
Qed.

(** *** [TransferKeys] *)

Lemma cast_all_Bytes keys : Forall defined keys -> cast_all (cid_Bytes <$> keys) = Ok keys.
Proof.
  induction 1 as [|k keys Hk Hdef IH]; cbn [fmap list_fmap cast_all]; [done|]. rewrite cid_Cast_Bytes by done.
  change (list_fmap _ _ cid_Bytes keys) with (cid_Bytes <$> keys). by rewrite IH.
Qed.

(** The reply that carries [l]. *)
Definition transfer_reply (l : list carried) : ReplyTransferKeys :=
  mkReplyTransferKeys (cid_Bytes <$> (ca_key <$> l)) (ca_data <$> l)
    ((fun b => re_CID <$> b.(ca_roots)) <$> l) ((fun b => re_ExpiresAt <$> b.(ca_roots)) <$> l).

Lemma reply_roots_middle l b r : reply_roots (transfer_reply (l ++ b :: r)) (length l) = b.(ca_roots).
Proof.
  unfold reply_roots, transfer_reply. cbn [rtk_BlockRootCIDs rtk_BlockRootExpiry]. rewrite !lookup_middle.
  apply list_eq. intros j. rewrite list_lookup_imap, list_lookup_fmap.
  destruct (ca_roots b !! j) as [nr|] eqn:Hj; [|done]. simpl. rewrite list_lookup_fmap, Hj. by destruct nr.
Qed.

Lemma pair_up_transfer l r :
  pair_up (length l) (ca_key <$> r) (ca_data <$> l ++ r) (reply_roots (transfer_reply (l ++ r))) = Ok r.
Proof.
  revert l. induction r as [|b r IH]; intros l; cbn [fmap list_fmap pair_up]; [done|].
  unfold index. rewrite lookup_middle. unfold mbind, result_bind. specialize (IH (l ++ [b])).
  rewrite <- app_assoc, length_app in IH. cbn [length app] in IH. rewrite Nat.add_1_r in IH.
  change (list_fmap _ _ ca_key r) with (ca_key <$> r). rewrite IH, reply_roots_middle. by destruct b.
Qed.

Lemma release_handler h l w : release stores h (ca_key <$> l) w = let_go h.(h_node) l w.
Proof.
  revert w. induction l as [|b l IH]; intros w; cbn [fmap list_fmap release let_go]; [done|].
  change (list_fmap _ _ ca_key l) with (ca_key <$> l). rewrite !bind_getNode. unfold mbind, M_bind, m_bind.
  match goal with |- match ?x with _ => _ end = match ?y with _ => _ end => change y with x; destruct x as [w' [u|e]] end;
    [apply IH|done].
Qed.

(** The blocks that are handed over come back as they were sent. *)
Lemma transfer_handler h from to w :
  (forall w' l, collectRingBlocksInRange (HB := storage_env h.(h_node)) from to w = (w', Ok l) ->
    Forall (fun b => defined b.(ca_key)) l) ->
  (reply ← h_TransferKeys stores h (mkArgsRange from to); m_lift (carried_in reply)) w =
  serve_TransferKeys h.(h_node) from to w.
Proof.
  intros Hdef. unfold h_TransferKeys, serve_TransferKeys, mbind, M_bind, m_bind. cbn [ar_From ar_To].
  change (collectRingBlocksInRange (HB := stores (h_node h)) from to) with
    (collectRingBlocksInRange (HB := storage_env (S := S) (L := L) (h_node h)) from to).
  destruct (collectRingBlocksInRange _ _ w) as [w' [l|e]] eqn:Hc; [|done]. specialize (Hdef _ _ eq_refl).
  rewrite release_handler. destruct (let_go (h_node h) l w') as [w'' [u|e]]; [|done].
  unfold m_ret, m_lift, carried_in. cbn [rtk_Keys rtk_Data]. rewrite cast_all_Bytes by by apply Forall_fmap.
  f_equal. exact (pair_up_transfer [] l).
Qed.

(** *** [RemoveBlock] and [DeleteCID] *)

Lemma remove_handler h key w :
  defined key ->
  h_RemoveBlock stores h (mkArgsKey (cid_Bytes key)) w = on_blocks (HB := storage_env h.(h_node)) (st_Delete key) w.
Proof. intros Hk. unfold h_RemoveBlock. cbn [ak_Key]. by rewrite cast_key_Bytes. Qed.

Lemma forM_ext {X A} (l : list A) (f g : A -> M X unit) w :
  (forall a w', f a w' = g a w') -> m_forM l f w = m_forM l g w.
Proof.
  intros Hfg. revert w. induction l as [|a l IH]; intros w; cbn [m_forM]; [done|]. unfold m_bind. rewrite Hfg.
  by destruct (g a w) as [w' [[]|e]].
Qed.

Lemma delete_handler h key propagate w :
  defined key ->
  h_DeleteCID nodes stores h (mkArgsDeleteCID (cid_Bytes key) propagate) w =
  handleDeleteCID (HN := nodes h.(h_node)) (HB := serving_env h.(h_node)) key propagate w.
Proof.
  intros Hk. unfold h_DeleteCID. cbn [adc_CID adc_Propagate]. rewrite cast_key_Bytes by done. rewrite bind_ret.
  unfold handleDeleteCID, mbind, M_bind, m_bind.
  match goal with |- match ?x with _ => _ end = match ?y with _ => _ end => change y with x; destruct x as [w' [u|e]] end; [|done].
  destruct propagate; cbn [negb]; [|done].
  match goal with |- match ?x with _ => _ end = _ => destruct x as [w'' [r|e]] end; [|done].
  apply forM_ext. intros a w3. reflexivity.
Qed.

(** *** [FetchBlock] *)

Lemma fetch_here h key w w' d :
  defined key -> get_here (HB := stores h.(h_node)) key w = (w', Ok d) ->
  h_FetchBlock nodes stores h (mkArgsKey (cid_Bytes key)) w = (w', Ok (mkReplyFetchBlock d true)).
Proof.
  intros Hk Hget. unfold h_FetchBlock. cbn [ak_Key]. rewrite cast_key_Bytes by done. rewrite bind_ret.
  unfold mbind, M_bind, m_bind, m_try. by rewrite Hget.
Qed.

(** What the successors are found to have is never nil. *)
Lemma ask_successors_found h key targets w w' reply :
  ask_successors stores h key targets w = (w', Ok reply) -> reply.(rfb_Found) = true ->
  bt_isNil (BlockEnv := stores h.(h_node)) reply.(rfb_Data) = false.
Proof.
  revert w. induction targets as [|t targets IH]; intros w; cbn [ask_successors];
    unfold mbind, M_bind, m_bind, m_try; [intros [= _ <-]; done|].
  destruct (bt_HasBlock t key w) as [w1 [[|]|e]]; [|apply IH..].
  destruct (bt_FetchBlock t key w1) as [w2 [d|e]]; [|apply IH]. destruct (bt_isNil d) eqn:Hd; [apply IH|].
  by intros [= _ <-].
Qed.

End Agreement.

(** ** Remote calls as in-process calls *)

(** The same value, or an error with the same message: of an error only the message is sent. *)
Definition same_outcome {A} (r r' : result A) : Prop :=
  match r, r' with
  | Ok a, Ok b => a = b
  | Err e, Err e' => err_text e = err_text e'
  | _, _ => False
  end.

Section Delivery.
Context {W V : Type} `{HC : !Caller W V} (world : V -> W) (ready : V -> Prop).

(** From [v], [x] does to the nodes what [y] does. *)
Definition agrees_at {A} (v : V) (x : M V A) (y : M W A) : Prop :=
  world (x v).1 = (y (world v)).1 /\ same_outcome (x v).2 (y (world v)).2.

(** Calls to [target] run the method at the node [h], once. *)
Definition delivers (target : NodeAddr) (h : rpcHandler) : Prop :=
  forall A R (m : rpcHandler -> A -> M W R) args v, ready v -> agrees_at v (call target m args) (m h args).

Lemma agrees_eq {A} v (x : M V A) (y z : M W A) :
  agrees_at v x y -> y (world v) = z (world v) -> agrees_at v x z.
Proof. unfold agrees_at. intros H Heq. by rewrite <- Heq. Qed.

(** What the client does with the reply does not change a world. *)
Lemma agrees_reply {A R} v (x : M V R) (y : M W R) (f : R -> result A) :
  agrees_at v x y -> agrees_at v (r ← x; m_lift (f r)) (r ← y; m_lift (f r)).
Proof.
  unfold agrees_at, mbind, M_bind, m_bind, m_lift. intros (Hw & Ho).
  destruct (x v) as [v' [a|e]], (y (world v)) as [w' [a'|e']]; cbn in *; try done.
  subst. split; [done|]. by destruct (f a').
Qed.

End Delivery.

(** *** Routing *)

Section RoutingAgreement.
Context {V : Type} `{HC : !Caller Cluster V} (world : V -> Cluster) (ready : V -> Prop).
Context (self : NodeID) (target : NodeAddr) (auth : option NodeID).
Context (Hcall : delivers world ready target (mkHandler target.(na_id) auth)).

(** The target is a member that [self] can reach. *)
Definition member_at (c : Cluster) : Prop :=
  is_Some (getNode c self target.(na_id)) /\ r_id (node_state target.(na_id) c) = target.(na_id).

Lemma member_state c : is_Some (getNode c self target.(na_id)) -> getNode c self target.(na_id) = Some (node_state target.(na_id) c).
Proof.
  intros [r Hr]. rewrite Hr. unfold getNode in Hr. destruct (bool_decide _); [done|]. unfold node_state. by rewrite Hr.
Qed.

Ltac by_delivery f :=
  eapply agrees_eq; [eapply (agrees_reply world _ _ _ f), Hcall; eassumption|].

(** At the target, a lookup and a notification only use what [leaf_env] has. *)
Lemma lookup_loop_leaf t ctx from id hops cand c :
  @lookup_loop _ (localTransport t) ctx from id hops cand c = @lookup_loop _ (leaf_env t) ctx from id hops cand c.
Proof.
  revert cand c. induction hops as [|hops IH]; intros cand c; cbn [lookup_loop]; [done|].
  unfold mbind, M_bind, m_bind, m_get, m_try. destruct (ctx c); [done|].
  cbn [localTransport leaf_env tr_ClosestPrecedingNode]. unfold local_ClosestPrecedingNode.
  destruct (resolve_read _ _ _ c) as [c' [[cpn s]|e]].
  - destruct (BetweenRightInclusive _ _ _); [done|]. destruct (Equal _ _); [done|]. apply IH.
  - change (@modifySpawn _ (localTransport t)) with (@modifySpawn _ (leaf_env t)).
    destruct (modifySpawn _ c') as [c'' [u|e']]; [|done]. unfold getRouting. cbn [leaf_env localTransport ne_routing].
    destruct (Equal _ _); [done|]. apply IH.
Qed.

Lemma FindSuccessor_leaf t id c :
  @FindSuccessor _ (localTransport t) Background id c = @FindSuccessor _ (leaf_env t) Background id c.
Proof.
  unfold FindSuccessor, mbind, M_bind, m_bind, getRouting. cbn [leaf_env localTransport ne_routing].
  destruct (BetweenRightInclusive _ _ _); [done|]. destruct (Equal _ _); [done|]. apply lookup_loop_leaf.
Qed.

Lemma rpc_FindSuccessor_agrees id v :
  ready v -> member_at (world v) ->
  agrees_at world v (rpc_FindSuccessor localTransport target id) (local_FindSuccessor self target id).
Proof.
  intros Hv [Hm Hid]. by_delivery (fun reply => Ok (rfs_Node reply)).
  unfold local_FindSuccessor, resolve_run. rewrite (member_state _ Hm), <- FindSuccessor_leaf.
  unfold h_FindSuccessor, mbind, M_bind, m_bind. cbn [h_node afs_ID].
  by destruct (FindSuccessor _ _ _) as [c' [a|e]].
Qed.

Lemma rpc_ClosestPrecedingNode_agrees id v :
  ready v -> member_at (world v) ->
  agrees_at world v (rpc_ClosestPrecedingNode localTransport target id) (local_ClosestPrecedingNode self target id).
Proof.
  intros Hv [Hm Hid]. by_delivery (fun reply => Ok (rcp_Predecessor reply, rcp_Successor reply)).
  unfold local_ClosestPrecedingNode, resolve_read. by rewrite (member_state _ Hm).
Qed.

Lemma rpc_GetPredecessor_agrees v :
  ready v -> member_at (world v) ->
  agrees_at world v (rpc_GetPredecessor localTransport target) (local_GetPredecessor self target).
Proof.
  intros Hv [Hm Hid]. by_delivery (predecessor_in (na_id target)).
  unfold local_GetPredecessor, resolve_read. rewrite (member_state _ Hm).
  unfold h_GetPredecessor, mbind, M_bind, m_bind, getRouting, m_ret, m_lift, predecessor_in. cbn [h_node localTransport ne_routing].
  destruct (r_predecessor _) as [p|]; cbn [rgp_SelfID rgp_HasNode rgp_Node negb]; by rewrite Hid, Equal_refl, andb_false_r.
Qed.

Lemma rpc_GetSuccessorList_agrees v :
  ready v -> member_at (world v) ->
  agrees_at world v (rpc_GetSuccessorList localTransport target) (local_GetSuccessorList self target).
Proof.
  intros Hv [Hm Hid]. by_delivery (fun reply => Ok (rgs_List reply)).
  unfold local_GetSuccessorList, resolve_read. by rewrite (member_state _ Hm).
Qed.

(** The connection is not authenticated, or speaks for the caller. *)
Lemma rpc_Notify_agrees caller v :
  speaks_for (mkHandler target.(na_id) auth) caller.(na_id) = true ->
  ready v -> member_at (world v) ->
  agrees_at world v (rpc_Notify localTransport target caller) (local_Notify self target caller).
Proof.
  intros Hs Hv [Hm Hid]. eapply agrees_eq; [by apply Hcall|].
  unfold local_Notify, resolve_run. rewrite (member_state _ Hm). unfold h_Notify. cbn [an_Caller h_node].
  rewrite Hs. by destruct auth.
Qed.

Lemma rpc_NotifyLeave_agrees leaver successor predecessor v :
  ready v -> member_at (world v) ->
  agrees_at world v (rpc_NotifyLeave localTransport target leaver successor predecessor)
    (local_NotifyLeave self target leaver successor predecessor).
Proof.
  intros Hv [Hm Hid]. eapply agrees_eq; [by apply Hcall|].
  unfold local_NotifyLeave, resolve_run. by rewrite (member_state _ Hm).
Qed.

Lemma rpc_Ping_agrees v :
  ready v -> member_at (world v) -> agrees_at world v (rpc_Ping target) (local_Ping self target).
Proof.
  intros Hv [[r Hm] Hid]. eapply agrees_eq; [by apply Hcall|]. unfold local_Ping, canReach.
  unfold getNode in Hm. destruct (bool_decide ((self, _) ∈ _)); [done|]. by rewrite Hm.
Qed.

End RoutingAgreement.

(** *** Blocks *)

Section BlockAgreement.
Context `{HD : StoreDeps} `{HWD : !WireDeps} `{HWL : !WireLaws} {S L : Type} `{!BlockStore S} `{!BlockStore L}.
Abbreviation W := (BlockWorld (S := S) (L := L)).
Abbreviation nodes := (routing_env (S := S) (L := L)).
Abbreviation stores := (block_env (S := S) (L := L)).
Context {V : Type} `{HC : !Caller W V} (world : V -> W) (ready : V -> Prop).
Context (self : NodeID) (target : NodeAddr) (auth : option NodeID).
Context (Hcall : delivers world ready target (mkHandler target.(na_id) auth)).

Definition reachable_in (w : W) : Prop := is_Some (getNode w.(bw_cluster) self target.(na_id)).

Lemma at_reachable {A} (x : M W A) w : reachable_in w -> at_node self target x w = x w.
Proof. intros [r Hr]. unfold at_node. by rewrite Hr. Qed.

Lemma rpc_PutBlock_agrees key data rootCID rootExpiry v :
  defined key -> (forall rc, rootCID = Some rc -> defined rc) -> ready v -> reachable_in (world v) ->
  agrees_at world v (rpc_PutBlock nodes stores target key data rootCID rootExpiry)
    (local_PutBlock self target key data rootCID rootExpiry).
Proof.
  intros Hk Hroot Hv Hm. eapply agrees_eq; [by apply Hcall|]. rewrite put_handler by done.
  unfold local_PutBlock. by rewrite at_reachable.
Qed.

Lemma rpc_PushBlocks_agrees l v :
  Forall (fun b => defined b.(ca_key)) l -> ready v -> reachable_in (world v) ->
  agrees_at world v (rpc_PushBlocks stores target l) (local_PushBlocks self target l).
Proof.
  intros Hl Hv Hm. eapply agrees_eq; [by apply Hcall|]. rewrite push_handler by done.
  unfold local_PushBlocks. by rewrite at_reachable.
Qed.

Lemma rpc_ReconcileBlocks_agrees keys v :
  Z.of_nat (length keys) <= 2 ^ 32 -> Forall defined keys -> ready v -> reachable_in (world v) ->
  agrees_at world v (rpc_ReconcileBlocks stores target keys) (local_ReconcileBlocks self target keys).
Proof.
  intros Hlen Hl Hv Hm.
  eapply agrees_eq; [by eapply (agrees_reply world _ _ _ (fun reply => Ok (at_indices keys (rrb_MissingIndices reply)))), Hcall|].
  unfold local_ReconcileBlocks. rewrite at_reachable by done. by apply reconcile_handler.
Qed.

Lemma rpc_RemoveBlock_agrees key v :
  defined key -> ready v -> reachable_in (world v) ->
  agrees_at world v (rpc_RemoveBlock stores target key) (local_RemoveBlock self target key).
Proof.
  intros Hk Hv Hm. eapply agrees_eq; [by apply Hcall|]. rewrite remove_handler by done.
  unfold local_RemoveBlock. by rewrite at_reachable.
Qed.

(** The target has the block, in its store or among its local blocks. *)
Definition held_here (key : cid) (w : W) : Prop := is_ok (get_here (HB := storage_env target.(na_id)) key w).2 = true.

(** The store of the target has the block, or the target has no local blocks and its store gives
    the same answer when it is asked again. *)
Definition has_settled (key : cid) (w : W) : Prop :=
  let '(w', r) := on_blocks (HB := storage_env target.(na_id)) (st_Has key) w in
  r = Ok true \/ ((block_node target.(na_id) w').(bn_localBlocks) = None /\
    on_blocks (HB := storage_env target.(na_id)) (st_Has key) w' = (w', r)).

Lemma rpc_FetchBlock_agrees key v :
  defined key -> ready v -> reachable_in (world v) -> held_here key (world v) ->
  agrees_at world v (rpc_FetchBlock nodes stores target key) (local_FetchBlock self target key).
Proof.
  intros Hk Hv Hm Hhere. unfold held_here in Hhere.
  destruct (get_here (HB := storage_env target.(na_id)) key (world v)) as [w' [d|e]] eqn:Hget; [|done].
  destruct (Hcall _ _ (h_FetchBlock nodes stores) (mkArgsKey (cid_Bytes key)) v Hv) as [Hw Ho].
  rewrite (fetch_here (mkHandler (na_id target) auth) key (world v) w' d Hk Hget) in Hw, Ho.
  unfold agrees_at, rpc_FetchBlock, local_FetchBlock. rewrite at_reachable by done. unfold mbind, M_bind, m_bind, m_try. rewrite Hget.
  destruct (call target _ _ v) as [v' [reply|e]]; cbn in Hw, Ho; [|done]. by subst reply.
Qed.

Lemma rpc_HasBlock_agrees key v :
  defined key -> ready v -> reachable_in (world v) -> has_settled key (world v) ->
  agrees_at world v (rpc_HasBlock stores target key) (local_HasBlock self target key).
Proof.
  intros Hk Hv Hm Hs. unfold has_settled in Hs.
  eapply agrees_eq; [by eapply (agrees_reply world _ _ _ (fun reply => Ok (rhb_Has reply))), Hcall|].
  unfold local_HasBlock. rewrite at_reachable by done. unfold h_HasBlock, serve_HasBlock, target_env. cbn [ak_Key].
  rewrite cast_key_Bytes by done. rewrite bind_ret. unfold mbind, M_bind, m_bind, m_try, m_lift.
  change (on_blocks (HB := stores ?n) ?x (world v)) with (on_blocks (HB := storage_env n) x (world v)).
  destruct (on_blocks _ (world v)) as [w' r]. destruct Hs as [->|[Hl Hagain]]; [done|].
  destruct r as [[|]|e]; [done|..]; unfold on_localBlocks; cbn [be_node storage_env]; rewrite Hl, Hagain; done.
Qed.

Lemma rpc_TransferKeys_agrees from to v :
  (forall w' l, collectRingBlocksInRange (HB := storage_env target.(na_id)) from to (world v) = (w', Ok l) ->
    Forall (fun b => defined b.(ca_key)) l) ->
  ready v -> reachable_in (world v) ->
  agrees_at world v (rpc_TransferKeys stores target from to) (local_TransferKeys self target from to).
Proof.
  intros Hdef Hv Hm. eapply agrees_eq; [by eapply (agrees_reply world _ _ _ carried_in), Hcall|].
  unfold local_TransferKeys. rewrite at_reachable by done. by apply transfer_handler.
Qed.

Lemma rpc_DeleteCID_agrees key propagate v :
  defined key -> ready v -> reachable_in (world v) ->
  agrees_at world v (rpc_DeleteCID nodes stores target key propagate) (local_DeleteCID self target key propagate).
Proof.
  intros Hk Hv Hm. eapply agrees_eq; [by apply Hcall|]. rewrite delete_handler by done.
  unfold local_DeleteCID. by rewrite at_reachable.
Qed.

End BlockAgreement.

(** *** Records *)

Section RecordAgreement.
Context `{HW : WireCodec} `{HE : Ed25519}.
Context {V : Type} `{HC : !Caller RecordWorld V} (world : V -> RecordWorld) (ready : V -> Prop).
Context (self : NodeID) (target : NodeAddr) (auth : option NodeID).
Context (Hcall : delivers world ready target (mkHandler target.(na_id) auth)).

Definition record_reachable (w : RecordWorld) : Prop := is_Some (getNode w.(rw_cluster) self target.(na_id)).

Lemma at_record_reachable {A} (x : M RecordWorld A) w : record_reachable w -> at_target self target x w = x w.
Proof. intros [r Hr]. unfold at_target. by rewrite Hr. Qed.

(** The caller is the authenticated peer, if there is one. *)
Lemma rpc_PutRecord_agrees key data callerID v :
  ready v -> record_reachable (world v) ->
  agrees_at world v (rpc_PutRecord world_env record_env target key data callerID)
    (local_PutRecord self target key data (default callerID auth)).
Proof.
  intros Hv Hm. eapply agrees_eq; [by apply Hcall|].
  unfold local_PutRecord. rewrite at_record_reachable by done. reflexivity.
Qed.

(** Only the message of the error differs. *)
Lemma rpc_GetRecord_agrees key v d :
  ready v -> record_reachable (world v) ->
  (rpc_GetRecord record_env target key v).2 = Ok d <-> (local_GetRecord self target key (world v)).2 = Ok d.
Proof.
  intros Hv Hm. unfold local_GetRecord. rewrite at_record_reachable by done.
  destruct (Hcall _ _ (h_GetRecord record_env) (mkArgsGetRecord key) v Hv) as (_ & Ho).
  unfold rpc_GetRecord, mbind, M_bind, m_bind.
  change ((h_GetRecord record_env (mkHandler (na_id target) auth) (mkArgsGetRecord key) (world v)).2) with
    (Ok (match localRecordGet (rw_clock (world v)) key (record_state (na_id target) (world v)) with
         | Ok data => mkReplyGetRecord data true | Err _ => mkReplyGetRecord [] false end)) in Ho.
  destruct (call target (h_GetRecord record_env) (mkArgsGetRecord key) v) as [v' [reply|e]]; [|done].
  cbn [snd same_outcome] in Ho. subst reply. cbn [snd].
  by destruct (localRecordGet _ _ _) as [data|e].
Qed.

Lemma put_records_handler h l kvs w :
  put_records record_env h kvs.*1 (l ++ kvs.*2) (length l) w =
  (match kvs with
   | [] => w
   | _ => rw_set_records h.(h_node)
            (foldl (fun st kv => localRecordPut w.(rw_clock) kv.1 kv.2 st) (record_state h.(h_node) w) kvs) w
   end, Ok tt).
Proof.
  revert l w. induction kvs as [|[k d] kvs IH]; intros l w; cbn [fmap list_fmap put_records fst snd]; [done|].
  unfold index. rewrite list_lookup_middle by done. unfold mbind, M_bind, m_bind, m_lift.
  unfold onRecords. cbn [record_env re_clock re_state re_set_state]. unfold m_modify.
  specialize (IH (l ++ [d])). rewrite length_app in IH. cbn [length] in IH. rewrite Nat.add_1_r in IH.
  change (list_fmap _ _ fst kvs) with (kvs.*1). change (list_fmap _ _ snd kvs) with (kvs.*2).
  replace (l ++ d :: kvs.*2) with ((l ++ [d]) ++ kvs.*2) by by rewrite <- app_assoc. rewrite IH.
  cbn [foldl fst snd]. destruct kvs as [|kv kvs]; [done|]. f_equal. unfold rw_set_records, record_state.
  cbn [rw_records rw_cluster rw_clock]. rewrite lookup_insert_eq, insert_insert_eq. done.
Qed.

Lemma rpc_PushRecords_agrees kvs v :
  kvs <> [] -> ready v -> record_reachable (world v) ->
  agrees_at world v (rpc_PushRecords record_env target kvs) (local_PushRecords self target kvs).
Proof.
  intros Hne Hv Hm. eapply agrees_eq; [by apply Hcall|]. unfold local_PushRecords. rewrite at_record_reachable by done.
  unfold h_PushRecords. cbn [apu_Keys apu_Data].
  pose proof (put_records_handler (mkHandler (na_id target) auth) [] kvs (world v)) as Heq. cbn [app length] in Heq.
  rewrite Heq. by destruct kvs.
Qed.

Lemma rpc_TransferRecords_agrees from to v :
  ready v -> record_reachable (world v) ->
  agrees_at world v (rpc_TransferRecords record_env target from to) (local_TransferRecords self target from to).
Proof.
  intros Hv Hm.
  eapply agrees_eq; [by eapply (agrees_reply world _ _ _ (fun reply => Ok (zip (rtr_Keys reply) (rtr_Data reply)))), Hcall|].
  unfold local_TransferRecords. rewrite at_record_reachable by done.
  unfold h_TransferRecords, readRecords, mbind, M_bind, m_bind, m_lift. cbn [rtr_Keys rtr_Data ar_From ar_To].
  by rewrite zip_fst_snd.
Qed.

End RecordAgreement.
