(* ===== verification/RpcPool.v ===== *)
(** * Connections of the transports (src/dht/rpc.go, src/dht/private.go)

    Both transports keep a pool of clients and dial when they have none for a target; a call on
    a client whose connection was shut down is repeated once on a new one. The public transport
    keys its pool by address. The private one keys it by identifier, and lets a peer in on either
    side only after the handshake of Auth.v. *)

From stdpp Require Import base gmap list strings.
From Stdlib Require Import ZArith Lia Strings.Byte.
From S2P Require Import Prelude Hoare Chord Routing Cluster Stable Identity Records TestCodec RecordStore RecordNet.
From S2P Require Import StoreDeps NetworkStore BlockStore BlockNode BlockNet BlockPlacement Auth Addr RpcWire.

Set Default Goal Selector "!".
Local Open Scope Z_scope.

(** A client: the node at the other end, what the server knows of this one, and whether the
    connection is shut down. *)
Record client := mkClient { c_server : NodeID; c_peer : option NodeID; c_shut : bool }.

Definition shut (c : client) : client := mkClient c.(c_server) c.(c_peer) true.

Definition err_shutdown : error := mkError [ErrShutdown] "connection is shut down".
Definition err_lost : error := errorf "unexpected EOF".
Definition err_refused : error := errorf "connection refused".

(** ** Calls on a client *)

Definition over_rpc {A} (r : result A) : result A :=
  match r with Ok a => Ok a | Err e => Err (rpc_error e) end.

Lemma over_rpc_outcome {A} (r : result A) : same_outcome (over_rpc r) r.
Proof. by destruct r. Qed.

Lemma over_rpc_not_shutdown {A} (r : result A) e : over_rpc r = Err e -> errors_Is e ErrShutdown = false.
Proof. destruct r; cbn; intros H; simplify_eq. done. Qed.

(** The state of a transport: a world of nodes, and the clients made so far. *)
Class ClientState (W St : Type) := {
  st_world : St -> W;
  st_set_world : W -> St -> St;
  st_clients : St -> list client;
  st_world_set w s : st_world (st_set_world w s) = w;
  st_clients_set w s : st_clients (st_set_world w s) = st_clients s
}.

Section Calls.
Context {W St : Type} `{HS : !ClientState W St}.

(** Which servers answer, in a world of nodes. *)
Context (reaches : W -> NodeID -> bool).

(** [c.Call]: nothing is sent on a connection that is shut down; a method that fails answers
    with the message of its error; otherwise the connection is lost. *)
Definition Call {A R} (i : nat) (m : rpcHandler -> A -> M W R) (args : A) : M St R := fun s =>
  match st_clients s !! i with
  | None => (s, Err err_shutdown)
  | Some c =>
      if c.(c_shut) then (s, Err err_shutdown)
      else if reaches (st_world s) c.(c_server) then
        let '(w, r) := m (mkHandler c.(c_server) c.(c_peer)) args (st_world s) in (st_set_world w s, over_rpc r)
      else (s, Err err_lost)
  end.

(** The body both transports share: [get] is [getClient] for the target, and [drop] takes its
    client out of the pool. *)
Definition call_with {A R} (get : M St nat) (drop : M St unit) (m : rpcHandler -> A -> M W R) (args : A) : M St R :=
  c ← get;
  res ← m_try (Call c m args);
  match res with
  | Ok r => m_ret r
  | Err e =>
      _ ← drop;
      if errors_Is e ErrShutdown then
        res2 ← m_try get;
        match res2 with
        | Err _ => m_err e
        | Ok c2 =>
            res3 ← m_try (Call c2 m args);
            match res3 with
            | Ok r => m_ret r
            | Err e3 => _ ← drop; m_err e3
            end
        end
      else m_err e
  end.

Lemma Call_runs {A R} i c (m : rpcHandler -> A -> M W R) args s :
  st_clients s !! i = Some c -> c.(c_shut) = false -> reaches (st_world s) c.(c_server) = true ->
  Call i m args s = (st_set_world (m (mkHandler c.(c_server) c.(c_peer)) args (st_world s)).1 s,
                     over_rpc (m (mkHandler c.(c_server) c.(c_peer)) args (st_world s)).2).
Proof. intros Hc Hs Hr. unfold Call. rewrite Hc, Hs, Hr. by destruct (m _ args (st_world s)). Qed.

(** [get] hands out a live client of the server [h], without touching the nodes. *)
Definition gets_live (get : M St nat) (h : rpcHandler) (s : St) : Prop :=
  exists i c s1, get s = (s1, Ok i) /\ st_clients s1 !! i = Some c /\ c.(c_shut) = false /\
    mkHandler c.(c_server) c.(c_peer) = h /\ st_world s1 = st_world s.

(** [get] hands out a client whose connection is shut down, and a live one once it is dropped. *)
Definition gets_stale (get : M St nat) (drop : M St unit) (h : rpcHandler) (s : St) : Prop :=
  exists i c, get s = (s, Ok i) /\ st_clients s !! i = Some c /\ c.(c_shut) = true /\ gets_live get h (drop s).1.

Definition drops (drop : M St unit) : Prop := forall s, (drop s).2 = Ok tt /\ st_world (drop s).1 = st_world s.

Context {A R : Type} (get : M St nat) (drop : M St unit) (m : rpcHandler -> A -> M W R) (args : A) (h : rpcHandler).
Context (Hdrop : drops drop).

Lemma call_live s :
  gets_live get h s -> reaches (st_world s) h.(h_node) = true ->
  agrees_at st_world s (call_with get drop m args) (m h args).
Proof.
  intros (i & c & s1 & Hget & Hc & Hs & <- & Hw) Hr. unfold agrees_at, call_with, mbind, M_bind, m_bind, m_try.
  rewrite Hget, (Call_runs i c) by (by rewrite ?Hw). rewrite Hw. set (out := m _ args _).
  pose proof (over_rpc_outcome out.2) as Hout. destruct (over_rpc out.2) as [r|e] eqn:Ho.
  - split; [apply st_world_set|done].
  - destruct (Hdrop (st_set_world out.1 s1)) as [Hd Hdw]. destruct (drop _) as [s2 r2]. cbn in Hd, Hdw. subst r2.
    rewrite (over_rpc_not_shutdown _ _ Ho). split; [|done]. cbn. by rewrite Hdw, st_world_set.
Qed.

Lemma call_stale s :
  gets_stale get drop h s -> reaches (st_world s) h.(h_node) = true ->
  agrees_at st_world s (call_with get drop m args) (m h args).
Proof.
  intros (i & c & Hget & Hc & Hs & Hlive) Hr.
  assert (Call i m args s = (s, Err err_shutdown)) as Hcall by (unfold Call; by rewrite Hc, Hs).
  destruct (Hdrop s) as [Hd Hdw]. destruct (drop s) as [s2 r2] eqn:Hds. cbn in Hd, Hdw, Hlive. subst r2.
  destruct Hlive as (i' & c' & s3 & Hget' & Hc' & Hs' & <- & Hw').
  unfold agrees_at, call_with, mbind, M_bind, m_bind, m_try. rewrite Hget, Hcall, Hds.
  change (errors_Is err_shutdown ErrShutdown) with true. cbv iota beta. rewrite Hget'.
  rewrite (Call_runs i' c') by (by rewrite ?Hw', ?Hdw). rewrite Hw', Hdw. set (out := m _ args _).
  pose proof (over_rpc_outcome out.2) as Hout. destruct (over_rpc out.2) as [r|e] eqn:Ho.
  - split; [apply st_world_set|done].
  - destruct (Hdrop (st_set_world out.1 s3)) as [Hd' Hdw']. destruct (drop (st_set_world _ s3)) as [s4 r4].
    cbn in Hd', Hdw'. subst r4. split; [|done]. cbn. by rewrite Hdw', st_world_set.
Qed.

End Calls.

Lemma keeps_call_with {W St A R} `{!ClientState W St} (I : St -> Prop) reaches get drop (m : rpcHandler -> A -> M W R) args :
  keeps I get (fun _ => True) -> keeps I drop (fun _ => True) ->
  (forall w s, I s -> I (st_set_world w s)) ->
  keeps I (call_with reaches get drop m args) (fun _ => True).
Proof.
  intros Hget Hdrop Hset. assert (forall i, keeps I (Call reaches i m args) (fun _ => True)) as HCall.
  { intros i s Hs. unfold Call. destruct (st_clients s !! i) as [c|]; [|done]. destruct (c_shut c); [done|].
    destruct (reaches _ _); [|done]. destruct (m _ args (st_world s)) as [w r]. destruct r; cbn; auto. }
  unfold call_with. keeps_auto.
Qed.

Section Pools.
Context `{HM : MultiaddrDeps} {W : Type}.

Context (reaches : W -> NodeID -> bool).

(** ** The public transport *)

(** [cs_clients] are the clients made so far; [cs_pool] has the numbers of those in the pool;
    [cs_listen] says who listens at a TCP address. *)
Record Conns := mkConns {
  cs_world : W;
  cs_clients : list client;
  cs_pool : gmap string nat;
  cs_listen : string -> option NodeID
}.

Definition cs_set_world (w : W) (s : Conns) : Conns := mkConns w s.(cs_clients) s.(cs_pool) s.(cs_listen).
Definition cs_set_clients (l : list client) (s : Conns) : Conns := mkConns s.(cs_world) l s.(cs_pool) s.(cs_listen).
Definition cs_set_pool (p : gmap string nat) (s : Conns) : Conns := mkConns s.(cs_world) s.(cs_clients) p s.(cs_listen).

Definition NewRPCTransport (w : W) (listen : string -> option NodeID) : Conns := mkConns w [] ∅ listen.

(** [Close]: the clients of the pool are closed, and the pool is emptied. *)
Definition RPCTransport_Close (s : Conns) : Conns :=
  cs_set_pool ∅ (cs_set_clients (map_fold (fun _ i l => alter shut i l) s.(cs_clients) s.(cs_pool)) s).

Definition dial (tcpAddr : string) : M Conns client := fun s =>
  match s.(cs_listen) tcpAddr with
  | Some id => if reaches s.(cs_world) id then (s, Ok (mkClient id None false)) else (s, Err err_refused)
  | None => (s, Err err_refused)
  end.

Definition getClient (addr : string) : M Conns nat := fun s =>
  match s.(cs_pool) !! addr with
  | Some i => (s, Ok i)
  | None =>
      match MultiaddrToTCPAddr addr with
      | Err e => (s, Err (errorf_w ("parse peer addr " +:+ addr +:+ ": ") e ""))
      | Ok tcpAddr =>
          (c ← dial tcpAddr;
           let i := length s.(cs_clients) in
           _ ← m_modify (fun s => cs_set_pool (<[addr := i]> s.(cs_pool)) (cs_set_clients (s.(cs_clients) ++ [c]) s));
           m_ret i) s
      end
  end.

Definition forget (addr : string) : M Conns unit := m_modify (fun s => cs_set_pool (delete addr s.(cs_pool)) s).

#[export] Instance Conns_state : ClientState W Conns.
Proof.
  refine {| st_world := cs_world; st_set_world := cs_set_world; st_clients := cs_clients |}; done.
Defined.

Definition RPCTransport_call {A R} (addr : string) (m : rpcHandler -> A -> M W R) (args : A) : M Conns R :=
  call_with reaches (getClient addr) (forget addr) m args.

#[export] Instance RPCTransport : Caller W Conns := fun A R target m args => RPCTransport_call target.(na_addr) m args.

(** The pooled clients lead to who listens at their address; public servers do not know who calls. *)
Definition pool_ok (s : Conns) : Prop :=
  forall addr i, s.(cs_pool) !! addr = Some i ->
    exists c tcp, s.(cs_clients) !! i = Some c /\ MultiaddrToTCPAddr addr = Ok tcp /\
      s.(cs_listen) tcp = Some c.(c_server) /\ c.(c_peer) = None.

(** [id] listens at the address [addr] and can be reached. *)
Definition listens (addr : string) (id : NodeID) (s : Conns) : Prop :=
  (exists tcp, MultiaddrToTCPAddr addr = Ok tcp /\ s.(cs_listen) tcp = Some id) /\ reaches s.(cs_world) id = true.

Definition with_client (addr : string) (c : client) (s : Conns) : Conns :=
  cs_set_pool (<[addr := length s.(cs_clients)]> s.(cs_pool)) (cs_set_clients (s.(cs_clients) ++ [c]) s).

Lemma getClient_dials addr id s :
  listens addr id s -> s.(cs_pool) !! addr = None ->
  getClient addr s = (with_client addr (mkClient id None false) s, Ok (length s.(cs_clients))).
Proof.
  intros [(tcp & Htcp & Hl) Hr] Hnone. unfold getClient. rewrite Hnone, Htcp.
  unfold mbind, M_bind, m_bind, dial. by rewrite Hl, Hr.
Qed.

Lemma getClient_spec addr s :
  (exists i, s.(cs_pool) !! addr = Some i /\ getClient addr s = (s, Ok i)) \/
  (exists e, s.(cs_pool) !! addr = None /\ getClient addr s = (s, Err e)) \/
  (exists id, s.(cs_pool) !! addr = None /\ listens addr id s /\
    getClient addr s = (with_client addr (mkClient id None false) s, Ok (length s.(cs_clients)))).
Proof.
  destruct (s.(cs_pool) !! addr) as [i|] eqn:Hp; [left; exists i; split; [done|]; unfold getClient; by rewrite Hp|right].
  unfold getClient. rewrite Hp. destruct (MultiaddrToTCPAddr addr) as [tcp|e] eqn:Htcp; [|left; eauto].
  unfold mbind, M_bind, m_bind, dial. destruct (cs_listen s tcp) as [id|] eqn:Hl; [|left; eauto].
  destruct (reaches (cs_world s) id) eqn:Hr; [|left; eauto]. right. exists id. split_and!; [done| |done].
  split; [by exists tcp|done].
Qed.

Lemma lookup_last {X} (l : list X) (x : X) : (l ++ [x]) !! length l = Some x.
Proof. by apply list_lookup_middle. Qed.

Lemma drops_forget addr : drops (forget addr).
Proof. done. Qed.

(** A call to a node that listens at its address runs the method there once, whatever is left in
    the pool of earlier connections. *)
Lemma RPCTransport_delivers target :
  delivers (HC := RPCTransport) cs_world (fun s => pool_ok s /\ listens target.(na_addr) target.(na_id) s) target
    (mkHandler target.(na_id) None).
Proof.
  intros A R m args s [Hok Hl]. pose proof Hl as [(tcp & Htcp & Hlis) Hr].
  change (agrees_at st_world s (call_with reaches (getClient (na_addr target)) (forget (na_addr target)) m args)
    (m (mkHandler (na_id target) None) args)).
  destruct (s.(cs_pool) !! na_addr target) as [i|] eqn:Hp.
  2: { apply (call_live reaches); [by apply drops_forget| |done].
       eexists _, (mkClient (na_id target) None false), _.
       split_and!; [by apply (getClient_dials _ (na_id target))|apply lookup_last|done..]. }
  destruct (Hok _ _ Hp) as (c & tcp' & Hc & Htcp' & Hs & Hpeer). simplify_eq.
  assert (c.(c_server) = target.(na_id)) as Hid by congruence.
  assert (getClient (na_addr target) s = (s, Ok i)) as Hget by (unfold getClient; by rewrite Hp).
  destruct (c_shut c) eqn:Hshut.
  - apply (call_stale reaches); [by apply drops_forget| |done]. exists i, c. split_and!; [done..|].
    eexists _, (mkClient (na_id target) None false), _.
    split_and!; [apply (getClient_dials _ (na_id target)); [done|by apply lookup_delete_eq]|apply lookup_last|done..].
  - apply (call_live reaches); [by apply drops_forget| |done]. exists i, c, s. by rewrite Hid, Hpeer.
Qed.

(** *** The pool stays consistent *)

Lemma pool_ok_same_pool s s' :
  pool_ok s -> s'.(cs_pool) = s.(cs_pool) -> s'.(cs_clients) = s.(cs_clients) -> s'.(cs_listen) = s.(cs_listen) -> pool_ok s'.
Proof. unfold pool_ok. intros Hok -> -> ->. done. Qed.

Lemma pool_ok_getClient addr : keeps pool_ok (getClient addr) (fun _ => True).
Proof.
  intros s Hok. destruct (getClient_spec addr s) as [(i & _ & ->)|[(e & _ & ->)|(id & Hnone & [(tcp & Htcp & Hl) _] & ->)]]; [done..|].
  split; [|done]. intros addr' i. cbn [with_client cs_set_pool cs_pool cs_set_clients cs_clients cs_listen].
  rewrite lookup_insert_Some. intros [[<- <-]|[Hne Hi]].
  - eexists _, tcp. by rewrite lookup_last.
  - destruct (Hok _ _ Hi) as (c & tcp' & Hc & Hrest). exists c, tcp'. split; [|done]. by apply lookup_app_l_Some.
Qed.

Lemma pool_ok_forget addr : keeps pool_ok (forget addr) (fun _ => True).
Proof.
  intros s Hok. split; [|done]. intros addr' i Hi. cbn in Hi. apply lookup_delete_Some in Hi as [_ Hi]. exact (Hok _ _ Hi).
Qed.

Lemma pool_ok_call {A R} addr (m : rpcHandler -> A -> M W R) args :
  keeps pool_ok (RPCTransport_call addr m args) (fun _ => True).
Proof.
  apply keeps_call_with; [apply pool_ok_getClient|apply pool_ok_forget|]. intros w s Hok.
  by eapply pool_ok_same_pool.
Qed.

(** *** Failing methods *)

(** The clients whose connection is open. *)
Definition open_clients (s : Conns) : nat := length (filter (fun c => c.(c_shut) = false) s.(cs_clients)).

(** A call whose method fails takes the client out of the pool and leaves its connection open. *)
Lemma failing_call_leaks {A R} addr id (m : rpcHandler -> A -> M W R) args s :
  listens addr id s -> s.(cs_pool) !! addr = None ->
  (exists e, (m (mkHandler id None) args s.(cs_world)).2 = Err e) ->
  let s' := (RPCTransport_call addr m args s).1 in
  open_clients s' = S (open_clients s) /\ s'.(cs_pool) !! addr = None /\ s'.(cs_listen) = s.(cs_listen) /\
  s'.(cs_world) = (m (mkHandler id None) args s.(cs_world)).1.
Proof.
  intros Hl Hnone [e He]. pose proof Hl as [_ Hr]. unfold RPCTransport_call, call_with, mbind, M_bind, m_bind, m_try.
  rewrite (getClient_dials addr id) by done.
  rewrite (Call_runs reaches _ (mkClient id None false)); [|apply lookup_last|done|done].
  cbn [Conns_state st_world with_client cs_world cs_set_pool cs_set_clients c_server c_peer]. rewrite He. cbn. split_and!; [|by apply lookup_delete_eq|done|done].
  change (length (filter (fun c => c_shut c = false) (cs_clients s ++ [mkClient id None false])) = S (open_clients s)).
  rewrite filter_app, length_app, filter_cons_True by done. apply Nat.add_1_r.
Qed.

Fixpoint repeat_call {A R} (n : nat) (addr : string) (m : rpcHandler -> A -> M W R) (args : A) (s : Conns) : Conns :=
  match n with
  | O => s
  | S n' => repeat_call n' addr m args (RPCTransport_call addr m args s).1
  end.

(** A method that keeps failing at a live peer costs a connection per call: the client of
    each failed call leaves the pool and its connection stays open, with no reference left
    through which [Close] could close it. *)
Theorem failing_calls_leak {A R} n addr id (m : rpcHandler -> A -> M W R) args s :
  listens addr id s -> s.(cs_pool) !! addr = None ->
  (forall w, exists e, (m (mkHandler id None) args w).2 = Err e) ->
  (forall w, reaches w id = true -> reaches ((m (mkHandler id None) args w).1) id = true) ->
  (open_clients (repeat_call n addr m args s) = n + open_clients s)%nat /\
  (repeat_call n addr m args s).(cs_pool) !! addr = None.
Proof.
  revert s. induction n as [|n IH]; intros s Hl Hnone Hfail Hstay; [done|]. cbn [repeat_call].
  destruct (failing_call_leaks addr id m args s Hl Hnone (Hfail _)) as (Hopen & Hnone' & Hlis & Hw).
  destruct (IH (RPCTransport_call addr m args s).1) as [Ho Hp]; [|done..|].
  - destruct Hl as [(tcp & Htcp & Hl) Hr]. split; [exists tcp; by rewrite Hlis|]. rewrite Hw. by apply Hstay.
  - rewrite Ho, Hopen. split; [lia|done].
Qed.

(** ** The private transport *)

Context (hmac : bytes -> bytes -> bytes).

(** What is at the other end of a connection that was dialled: the node and what it knows of this
    one, the bytes that arrive, and the client's nonce. *)
Record endpoint := mkEndpoint { ep_server : NodeID; ep_peer : option NodeID; ep_conn : Conn; ep_random : result bytes }.

(** [pc_verified] is shared with the server of the ring. *)
Record PConns := mkPConns {
  pc_psk : bytes;
  pc_self : NodeID;
  pc_world : W;
  pc_clients : list client;
  pc_pool : gmap NodeID nat;
  pc_poolAddrs : gmap NodeID string;
  pc_verified : gset NodeID;
  pc_dial : string -> option endpoint
}.

Definition pc_set_world (w : W) (s : PConns) : PConns :=
  mkPConns s.(pc_psk) s.(pc_self) w s.(pc_clients) s.(pc_pool) s.(pc_poolAddrs) s.(pc_verified) s.(pc_dial).
Definition pc_set_clients (l : list client) (s : PConns) : PConns :=
  mkPConns s.(pc_psk) s.(pc_self) s.(pc_world) l s.(pc_pool) s.(pc_poolAddrs) s.(pc_verified) s.(pc_dial).
Definition pc_set_pool (p : gmap NodeID nat) (a : gmap NodeID string) (s : PConns) : PConns :=
  mkPConns s.(pc_psk) s.(pc_self) s.(pc_world) s.(pc_clients) p a s.(pc_verified) s.(pc_dial).
Definition pc_set_verified (v : gset NodeID) (s : PConns) : PConns :=
  mkPConns s.(pc_psk) s.(pc_self) s.(pc_world) s.(pc_clients) s.(pc_pool) s.(pc_poolAddrs) v s.(pc_dial).

#[export] Instance PConns_state : ClientState W PConns.
Proof.
  refine {| st_world := pc_world; st_set_world := pc_set_world; st_clients := pc_clients |}; done.
Defined.

Definition NewPrivateTransport (psk : bytes) (self : NodeID) (w : W) (net : string -> option endpoint) : PConns :=
  mkPConns psk self w [] ∅ ∅ ∅ net.

(** The state once a connection to [target] has passed the handshake. *)
Definition let_in (target : NodeAddr) (ep : endpoint) (s : PConns) : PConns :=
  pc_set_pool (<[target.(na_id) := length s.(pc_clients)]> s.(pc_pool)) (<[target.(na_id) := target.(na_addr)]> s.(pc_poolAddrs))
    (pc_set_clients (s.(pc_clients) ++ [mkClient ep.(ep_server) ep.(ep_peer) false])
      (pc_set_verified ({[target.(na_id)]} ∪ s.(pc_verified)) s)).

Definition private_getClient (target : NodeAddr) : M PConns nat := fun s =>
  match s.(pc_pool) !! target.(na_id) with
  | Some i => (s, Ok i)
  | None =>
      match MultiaddrToTCPAddr target.(na_addr) with
      | Err e => (s, Err (errorf_w ("parse peer addr " +:+ target.(na_addr) +:+ ": ") e ""))
      | Ok tcpAddr =>
          match s.(pc_dial) tcpAddr with
          | None => (s, Err (errorf_w ("dial " +:+ target.(na_addr) +:+ ": ") err_refused ""))
          | Some ep =>
              match PerformClientAuth hmac s.(pc_psk) s.(pc_self) target.(na_id) ep.(ep_random) ep.(ep_conn) with
              | (_, Err e) => (s, Err (errorf_w ("auth with " +:+ target.(na_addr) +:+ ": ") e ""))
              | (_, Ok _) => (let_in target ep s, Ok (length s.(pc_clients)))
              end
          end
      end
  end.

Definition private_forget (id : NodeID) : M PConns unit :=
  m_modify (fun s => pc_set_pool (delete id s.(pc_pool)) (delete id s.(pc_poolAddrs)) s).

Definition private_call {A R} (target : NodeAddr) (m : rpcHandler -> A -> M W R) (args : A) : M PConns R :=
  call_with reaches (private_getClient target) (private_forget target.(na_id)) m args.

Instance privateRPCTransport : Caller W PConns := fun A R target m args => private_call target m args.

Definition PoolState (s : PConns) : list (string * string) :=
  (fun id => (NodeID_String id,
     let addr := default "" (s.(pc_poolAddrs) !! id) in if decide (addr = "") then "<unknown>" else addr))
  <$> (map_to_list s.(pc_pool)).*1.

Definition private_Close (s : PConns) : PConns :=
  pc_set_pool ∅ (map_fold (fun id _ a => delete id a) s.(pc_poolAddrs) s.(pc_pool))
    (pc_set_clients (map_fold (fun _ i l => alter shut i l) s.(pc_clients) s.(pc_pool)) s).

(** The server of the ring takes a connection: the handler that serves it, if the peer passes. *)
Definition accept (conn : Conn) (random : result bytes) (s : PConns) : PConns * option rpcHandler :=
  match PerformServerAuth hmac s.(pc_psk) s.(pc_self) random conn with
  | (_, Err _) => (s, None)
  | (_, Ok clientID) =>
      (pc_set_verified ({[clientID]} ∪ s.(pc_verified)) s, Some (mkHandler s.(pc_self) (Some clientID)))
  end.

Definition IsVerified (peerID : NodeID) (s : PConns) : bool := bool_decide (peerID ∈ s.(pc_verified)).

Definition VerifiedPeers (s : PConns) : list NodeID := elements s.(pc_verified).

(** *** Who is let in *)

Inductive pevent :=
  | LCall (target : NodeAddr)
  | LAccept (conn : Conn) (random : result bytes)
  | LClose
  | LOther.

(** Calls, accepted connections, [Close], and what others do: connections are shut down, the
    nodes move on, and addresses change hands. *)
Inductive pstep : PConns -> pevent -> PConns -> Prop :=
  | PCall A R target (m : rpcHandler -> A -> M W R) args s : pstep s (LCall target) (private_call target m args s).1
  | PAccept conn random s : pstep s (LAccept conn random) (accept conn random s).1
  | PClose s : pstep s LClose (private_Close s)
  | PShut i s : pstep s LOther (pc_set_clients (alter shut i s.(pc_clients)) s)
  | PWorld w s : pstep s LOther (pc_set_world w s)
  | PNet net s : pstep s LOther
      (mkPConns s.(pc_psk) s.(pc_self) s.(pc_world) s.(pc_clients) s.(pc_pool) s.(pc_poolAddrs) s.(pc_verified) net).

(** The pooled peers are verified, and their addresses are known. *)
Definition peers_ok (s : PConns) : Prop :=
  dom s.(pc_pool) ⊆ s.(pc_verified) /\ dom s.(pc_poolAddrs) = dom s.(pc_pool).

(** The handshake on a connection dialled to the target succeeds. *)
Definition client_handshake (target : NodeAddr) (s : PConns) : Prop :=
  exists tcp ep, MultiaddrToTCPAddr target.(na_addr) = Ok tcp /\ s.(pc_dial) tcp = Some ep /\
    (PerformClientAuth hmac s.(pc_psk) s.(pc_self) target.(na_id) ep.(ep_random) ep.(ep_conn)).2 = Ok tt.

Lemma private_getClient_spec target s :
  (exists i, s.(pc_pool) !! target.(na_id) = Some i /\ private_getClient target s = (s, Ok i)) \/
  (exists e, s.(pc_pool) !! target.(na_id) = None /\ private_getClient target s = (s, Err e)) \/
  (exists tcp ep, s.(pc_pool) !! target.(na_id) = None /\ MultiaddrToTCPAddr target.(na_addr) = Ok tcp /\
    s.(pc_dial) tcp = Some ep /\
    (PerformClientAuth hmac s.(pc_psk) s.(pc_self) target.(na_id) ep.(ep_random) ep.(ep_conn)).2 = Ok tt /\
    private_getClient target s = (let_in target ep s, Ok (length s.(pc_clients)))).
Proof.
  destruct (s.(pc_pool) !! na_id target) as [i|] eqn:Hp;
    [left; exists i; split; [done|]; unfold private_getClient; by rewrite Hp|right].
  unfold private_getClient. rewrite Hp. destruct (MultiaddrToTCPAddr _) as [tcp|e] eqn:Htcp; [|left; eauto].
  destruct (pc_dial s tcp) as [ep|] eqn:Hd; [|left; eauto].
  destruct (PerformClientAuth _ _ _ _ _ _) as [c [[]|e]] eqn:Ha; [|left; eauto]. right.
  exists tcp, ep. by rewrite Ha.
Qed.

(** What a call keeps of the state besides the nodes: everything but the target's entries. *)
Definition call_effect (target : NodeAddr) (s s' : PConns) : Prop :=
  s'.(pc_psk) = s.(pc_psk) /\ s'.(pc_self) = s.(pc_self) /\ s'.(pc_dial) = s.(pc_dial) /\
  (s'.(pc_verified) = s.(pc_verified) \/
   s'.(pc_verified) = {[target.(na_id)]} ∪ s.(pc_verified) /\ client_handshake target s).

Lemma private_getClient_effect s0 target :
  keeps (fun s => peers_ok s /\ call_effect target s0 s) (private_getClient target) (fun _ => True).
Proof.
  intros s [Hok He].
  destruct (private_getClient_spec target s) as [(i & _ & ->)|[(e & _ & ->)|(tcp & ep & Hnone & Htcp & Hd & Ha & ->)]]; [done..|].
  split; [|done]. destruct Hok as [Hsub Hdom], He as (Hpsk & Hself & Hdial & Hv). split.
  - split; cbn [let_in pc_set_pool pc_pool pc_poolAddrs pc_verified pc_set_clients pc_set_verified]; [set_solver|].
    by rewrite !dom_insert_L, Hdom.
  - split_and!; [done..|]. right.
    cbn [let_in pc_set_pool pc_verified pc_set_clients pc_set_verified].
    assert (client_handshake target s0) as Hh by (exists tcp, ep; by rewrite <- Hpsk, <- Hself, <- Hdial).
    split; [|done]. destruct Hv as [->|[-> _]]; [done|]. set_solver.
Qed.

Lemma private_forget_effect s0 target id :
  keeps (fun s => peers_ok s /\ call_effect target s0 s) (private_forget id) (fun _ => True).
Proof.
  intros s [[Hsub Hdom] He]. split; [|done]. split; [|done].
  split; cbn [pc_set_pool pc_pool pc_poolAddrs pc_verified]; rewrite !dom_delete_L; [set_solver|]. by rewrite Hdom.
Qed.

Lemma private_call_effect {A R} target (m : rpcHandler -> A -> M W R) args s :
  peers_ok s -> peers_ok (private_call target m args s).1 /\ call_effect target s (private_call target m args s).1.
Proof.
  intros Hok. apply (keeps_final (fun s' => peers_ok s' /\ call_effect target s s') _ (fun _ => True)).
  - apply keeps_call_with; [apply private_getClient_effect|apply private_forget_effect|]. done.
  - split; [done|]. split_and!; [done..|]. by left.
Qed.

Lemma fold_delete_dom (p : gmap NodeID nat) (a : gmap NodeID string) :
  dom (map_fold (fun id _ a => delete id a) a p) = dom a ∖ dom p.
Proof.
  induction p as [|id i p Hnone Hfirst IH] using map_first_key_ind.
  - rewrite map_fold_empty, dom_empty_L. set_solver.
  - rewrite map_fold_insert_first_key by done. rewrite dom_delete_L, IH, dom_insert_L. set_solver.
Qed.

Lemma pstep_peers_ok s l s' : pstep s l s' -> peers_ok s -> peers_ok s'.
Proof.
  intros Hstep Hok. destruct Hstep; try done.
  - by apply private_call_effect.
  - unfold accept. destruct (PerformServerAuth _ _ _ _ _) as [c [id|e]]; [|done].
    destruct Hok as [Hsub Hdom]. split; [|done]. cbn. set_solver.
  - destruct Hok as [Hsub Hdom]. split; cbn [private_Close pc_set_pool pc_set_clients pc_pool pc_poolAddrs pc_verified].
    + rewrite dom_empty_L. set_solver.
    + rewrite fold_delete_dom, Hdom, dom_empty_L. set_solver.
Qed.

Lemma pstep_verified s l s' id :
  peers_ok s -> pstep s l s' -> id ∈ s'.(pc_verified) -> id ∉ s.(pc_verified) ->
  (exists target, l = LCall target /\ id = target.(na_id) /\ client_handshake target s) \/
  (exists conn random, l = LAccept conn random /\
    (PerformServerAuth hmac s.(pc_psk) s.(pc_self) random conn).2 = Ok id).
Proof.
  intros Hok Hstep Hin Hout. destruct Hstep as [A R target m args s|conn random s| | | |]; try done.
  - left. destruct (private_call_effect target m args s Hok) as (_ & _ & _ & _ & [Hv|[Hv Hh]]);
      rewrite Hv in Hin; [done|]. exists target. split_and!; [done|set_solver|done].
  - right. exists conn, random. split; [done|]. unfold accept in Hin.
    destruct (PerformServerAuth _ _ _ _ _) as [c [id'|e]]; [|done]. cbn in *. f_equal. set_solver.
Qed.

(** C29: in a private ring, however calls, accepted connections, closed connections and changes
    of address interleave, only verified peers are in the pool and the address of each is known;
    and a peer becomes verified only when, in that very step, the handshake with it succeeds on a
    connection that was dialled or accepted. *)
Theorem private_peers_are_verified psk self w net s :
  star (fun a b => exists l, pstep a l b) (NewPrivateTransport psk self w net) s ->
  (forall id, id ∈ dom s.(pc_pool) -> IsVerified id s = true /\ is_Some (s.(pc_poolAddrs) !! id)) /\
  forall l s' id, pstep s l s' -> IsVerified id s' = true -> IsVerified id s = false ->
    (exists target, l = LCall target /\ id = target.(na_id) /\ client_handshake target s) \/
    (exists conn random, l = LAccept conn random /\
      (PerformServerAuth hmac s.(pc_psk) s.(pc_self) random conn).2 = Ok id).
Proof.
  intros Hstar. assert (peers_ok s) as Hok.
  { eapply (star_invariant _ peers_ok); [|exact Hstar|by split; cbn; rewrite !dom_empty_L].
    intros a b Ha [l Hl]. by eapply pstep_peers_ok. }
  split.
  - intros id Hid. destruct Hok as [Hsub Hdom]. split; [apply bool_decide_eq_true_2; set_solver|].
    apply elem_of_dom. by rewrite Hdom.
  - intros l s' id Hstep Hin Hout. apply bool_decide_eq_true in Hin. apply bool_decide_eq_false in Hout.
    by eapply pstep_verified.
Qed.

(** *** Delivery *)

(** A connection that passes the handshake with a node leads to that node, which knows who calls. *)
Definition honest_net (s : PConns) : Prop :=
  forall tcp ep id, s.(pc_dial) tcp = Some ep ->
    (PerformClientAuth hmac s.(pc_psk) s.(pc_self) id ep.(ep_random) ep.(ep_conn)).2 = Ok tt ->
    ep.(ep_server) = id /\ ep.(ep_peer) = Some s.(pc_self).

Definition private_pool_ok (s : PConns) : Prop :=
  forall id i, s.(pc_pool) !! id = Some i ->
    exists c, s.(pc_clients) !! i = Some c /\ c.(c_server) = id /\ c.(c_peer) = Some s.(pc_self).

Definition private_ready (target : NodeAddr) (self : NodeID) (s : PConns) : Prop :=
  s.(pc_self) = self /\ private_pool_ok s /\ honest_net s /\ client_handshake target s /\
  reaches s.(pc_world) target.(na_id) = true.

Lemma private_gets_live target self s :
  private_ready target self s -> s.(pc_pool) !! target.(na_id) = None ->
  gets_live (private_getClient target) (mkHandler target.(na_id) (Some self)) s.
Proof.
  intros (<- & Hok & Hnet & (tcp & ep & Htcp & Hd & Ha) & Hr) Hnone. destruct (Hnet _ _ _ Hd Ha) as [Hs Hp].
  eexists _, (mkClient ep.(ep_server) ep.(ep_peer) false), (let_in target ep s). split_and!; [|apply lookup_last|done| |done].
  - unfold private_getClient. rewrite Hnone, Htcp, Hd. by destruct (PerformClientAuth _ _ _ _ _ _) as [c [[]|e]].
  - cbn. by rewrite Hs, Hp.
Qed.

Lemma private_delivers target self :
  delivers (HC := privateRPCTransport) pc_world (private_ready target self) target (mkHandler target.(na_id) (Some self)).
Proof.
  intros A R m args s Hready. pose proof Hready as (Hself & Hok & Hnet & Hh & Hr).
  change (agrees_at st_world s (call_with reaches (private_getClient target) (private_forget (na_id target)) m args)
    (m (mkHandler (na_id target) (Some self)) args)).
  assert (drops (private_forget (na_id target))) as Hdrop by done.
  destruct (s.(pc_pool) !! na_id target) as [i|] eqn:Hp; [|by apply call_live, Hr; [|apply private_gets_live]].
  destruct (Hok _ _ Hp) as (c & Hc & Hs & Hpeer).
  assert (private_getClient target s = (s, Ok i)) as Hget by (unfold private_getClient; by rewrite Hp).
  destruct (c_shut c) eqn:Hshut.
  - apply call_stale, Hr; [done|]. exists i, c. split_and!; [done..|]. apply private_gets_live.
    + split_and!; [done| |done..]. intros id j Hj. cbn in Hj. apply lookup_delete_Some in Hj as [_ Hj]. exact (Hok _ _ Hj).
    + by apply lookup_delete_eq.
  - apply call_live, Hr; [done|]. exists i, c, s. split_and!; [done..| |done]. by rewrite Hs, Hpeer, Hself.
Qed.

End Pools.

(** ** The calls of the private transport *)

(** They are those of the public one, on authenticated connections. *)
Section PrivateCalls.
Context `{HM : MultiaddrDeps} {W : Type} (reaches : W -> NodeID -> bool) (hmac : bytes -> bytes -> bytes).
Context (nodes : NodeID -> NodeEnv W).
#[local] Instance private_caller : Caller W PConns := privateRPCTransport reaches hmac.

Definition private_FindSuccessor := rpc_FindSuccessor (V := PConns) nodes.
Definition private_ClosestPrecedingNode := rpc_ClosestPrecedingNode (V := PConns) nodes.
Definition private_GetPredecessor := rpc_GetPredecessor (V := PConns) nodes.
Definition private_GetSuccessorList := rpc_GetSuccessorList (V := PConns) nodes.
Definition private_Notify := rpc_Notify (V := PConns) nodes.
Definition private_NotifyLeave := rpc_NotifyLeave (V := PConns) nodes.
Definition private_Ping := rpc_Ping (W := W) (V := PConns).

Section Blocks.
Context `{HD : StoreDeps} `{HWD : !WireDeps} {S L : Type} `{!BlockStore S} `{!BlockStore L}.
Context (stores : NodeID -> BlockEnv (S := S) (L := L) W).

Definition private_PutBlock := rpc_PutBlock (V := PConns) nodes stores.
Definition private_PushBlocks := rpc_PushBlocks (V := PConns) stores.
Definition private_ReconcileBlocks := rpc_ReconcileBlocks (V := PConns) stores.
Definition private_FetchBlock := rpc_FetchBlock (V := PConns) nodes stores.
Definition private_HasBlock := rpc_HasBlock (V := PConns) stores.
Definition private_RemoveBlock := rpc_RemoveBlock (V := PConns) stores.
Definition private_TransferKeys := rpc_TransferKeys (V := PConns) stores.
Definition private_DeleteCID := rpc_DeleteCID (V := PConns) nodes stores.
End Blocks.
End PrivateCalls.

(** ** The transports are the in-process one *)

Section Refinement.
Context `{HM : MultiaddrDeps} (self : NodeID) (target : NodeAddr).

(** The servers that [self] can reach. *)
Definition reaches_in (c : Cluster) (id : NodeID) : bool := bool_decide (is_Some (getNode c self id)).

Lemma reaches_in_some c id : reaches_in c id = true -> is_Some (getNode c self id).
Proof. apply bool_decide_eq_true. Qed.

Section Blocks.
Context `{HD : StoreDeps} `{HWD : !WireDeps} `{HWL : !WireLaws} {S L : Type} `{!BlockStore S} `{!BlockStore L}.
Abbreviation BW := (BlockWorld (S := S) (L := L)).
Abbreviation nodes := (routing_env (S := S) (L := L)).
Abbreviation stores := (block_env (S := S) (L := L)).
Abbreviation reach := (fun (w : BW) => reaches_in w.(bw_cluster)).
#[local] Instance block_caller : Caller BW Conns := RPCTransport reach.


End Blocks.

Section Records.
Context `{HW : WireCodec} `{HE : Ed25519}.
Abbreviation reach := (fun (w : RecordWorld) => reaches_in w.(rw_cluster)).
#[local] Instance record_caller : Caller RecordWorld Conns := RPCTransport reach.

(** The record calls, likewise; only the message of a get that finds nothing differs. *)
Theorem remote_record_calls (s : Conns (W := RecordWorld)) (key callerID from to : NodeID) (data d : bytes)
    (kvs : list (NodeID * bytes)) :
  pool_ok s -> listens reach target.(na_addr) target.(na_id) s -> kvs <> [] ->
  agrees_at cs_world s (rpc_PutRecord world_env record_env target key data callerID)
    (local_PutRecord self target key data callerID) /\
  agrees_at cs_world s (rpc_PushRecords record_env target kvs) (local_PushRecords self target kvs) /\
  agrees_at cs_world s (rpc_TransferRecords record_env target from to) (local_TransferRecords self target from to) /\
  ((rpc_GetRecord record_env target key s).2 = Ok d <-> (local_GetRecord self target key s.(cs_world)).2 = Ok d).
Proof.
  intros Hok Hl Hne. pose proof (RPCTransport_delivers reach target) as Hcall.
  assert (record_reachable self target (cs_world s)) as Hm by apply reaches_in_some, Hl.
  split_and!.
  - by eapply (rpc_PutRecord_agrees _ _ _ _ _ Hcall).
  - by eapply rpc_PushRecords_agrees.
  - by eapply rpc_TransferRecords_agrees.
  - by eapply rpc_GetRecord_agrees.
Qed.

End Records.

(** *** Private rings *)

Section Private.
Context (hmac : bytes -> bytes -> bytes).

Section RoutingCalls.

(** C28: in a private ring whose network leads authenticated connections to the node they were
    authenticated with, every routing call does what the in-process call does; a node can notify
    others of itself, and a notification in the name of another node is refused and changes
    nothing at the target. *)
Theorem private_routing_calls (s : PConns (W := Cluster)) (id : NodeID) (caller leaver successor predecessor : NodeAddr) :
  private_ready reaches_in hmac target self s -> r_id (node_state target.(na_id) s.(pc_world)) = target.(na_id) ->
  agrees_at pc_world s (private_FindSuccessor reaches_in hmac localTransport target id) (local_FindSuccessor self target id) /\
  agrees_at pc_world s (private_ClosestPrecedingNode reaches_in hmac localTransport target id) (local_ClosestPrecedingNode self target id) /\
  agrees_at pc_world s (private_GetPredecessor reaches_in hmac localTransport target) (local_GetPredecessor self target) /\
  agrees_at pc_world s (private_GetSuccessorList reaches_in hmac localTransport target) (local_GetSuccessorList self target) /\
  agrees_at pc_world s (private_NotifyLeave reaches_in hmac localTransport target leaver successor predecessor)
    (local_NotifyLeave self target leaver successor predecessor) /\
  agrees_at pc_world s (private_Ping reaches_in hmac target) (local_Ping self target) /\
  agrees_at pc_world s (private_Notify reaches_in hmac localTransport target caller)
    (if Equal caller.(na_id) self then local_Notify self target caller
     else m_err (notify_rejected caller.(na_id) self)).
Proof.
  intros Hready Hid. pose proof (private_delivers reaches_in hmac target self) as Hcall.
  assert (member_at self target (pc_world s)) as Hm by (split; [apply reaches_in_some, Hready|done]).
  split_and!.
  - by eapply rpc_FindSuccessor_agrees.
  - by eapply rpc_ClosestPrecedingNode_agrees.
  - by eapply rpc_GetPredecessor_agrees.
  - by eapply rpc_GetSuccessorList_agrees.
  - by eapply rpc_NotifyLeave_agrees.
  - by eapply rpc_Ping_agrees.
  - destruct (Equal (na_id caller) self) eqn:He; [by eapply rpc_Notify_agrees|].
    eapply agrees_eq; [by apply Hcall|]. unfold h_Notify. cbn [h_authenticatedPeerID an_Caller]. unfold speaks_for.
    cbn [h_authenticatedPeerID]. by rewrite He.
Qed.

End RoutingCalls.
End Private.
End Refinement.

(** ** The properties apply *)

Module PoolExample.
Import MemStore PlacementExample.

#[export] Instance raw_addresses : MultiaddrDeps := {|
  multiaddr := unit; NewMultiaddr := fun _ => Err (errorf "no multiaddr"); ValueForProtocol := fun _ _ => Err (errorf "no value") |}.

#[export] Instance wire : WireDeps (H := deps) := {|
  cid_Bytes := fun c : @cid deps => (if c.1 then x01 else x00) :: c.2;
  cid_Cast := fun b => match b with
                       | x01 :: d => Ok (true, d)
                       | x00 :: d => Ok (false, d)
                       | _ => Err (errorf "invalid cid")
                       end
|}.

#[export] Instance wire_laws : WireLaws (H := deps).
Proof. split; intros [[] d] _; done. Qed.

Definition here : NodeID := test_id x0a.
Definition there : NodeAddr := mkNodeAddr (test_id x64) "b".

(** A pool whose only client is of a connection that was shut down. *)
Definition stale_pool {W} (w : W) : Conns :=
  mkConns w [mkClient there.(na_id) None true] {[ "b" := 0%nat ]} (fun a => if decide (a = "b") then Some there.(na_id) else None).

Lemma stale_pool_ok {W} (w : W) : pool_ok (stale_pool w).
Proof.
  intros addr i Hi. unfold stale_pool in Hi. cbn [cs_pool] in Hi. apply lookup_singleton_Some in Hi as [<- <-]. by exists (mkClient (na_id there) None true), "b".
Qed.

Lemma three_reach : reaches_in here (ideal_cluster three_nodes) there.(na_id) = true.
Proof.
  apply bool_decide_eq_true_2. unfold getNode. rewrite bool_decide_eq_false_2 by apply not_elem_of_empty.
  apply elem_of_dom. pose proof (ideal_cluster_dom three_nodes) as Hdom. rewrite Hdom. apply three_in.
Qed.

Lemma nothing_in_range n :
  exists w0, collectRingBlocksInRange (HB := storage_env n) zeroID zeroID (empty_ring three_nodes) = (w0, Ok []).
Proof. eexists. reflexivity. Qed.


(** A code that tells the first identifier of a message. *)
Definition id_code (k m : bytes) : bytes := take 32 (drop 16 m ++ replicate 32 x00).

Definition fixed_nonce : bytes := replicate 16 x0c.

(** What [there] answers to [here]: its nonce, and its code for the nonce of the client. *)
Definition answers : endpoint :=
  mkEndpoint there.(na_id) (Some here)
    (mkConn (replicate 16 x0b ++ computeAuthHMAC id_code [] fixed_nonce there.(na_id) here ++ []) [] true) (Ok fixed_nonce).

Definition private_net (a : string) : option endpoint := if decide (a = "b") then Some answers else None.

Definition private_start {W} (w : W) : PConns := NewPrivateTransport [] here w private_net.

Lemma id_code_inj id id' : computeAuthHMAC id_code [] fixed_nonce id here = computeAuthHMAC id_code [] fixed_nonce id' here -> id = id'.
Proof.
  intros H. apply NodeID_eq. apply (f_equal (take 20)) in H. unfold computeAuthHMAC, id_code in H.
  rewrite !take_take, !drop_app_length' in H by done. change (20 `min` 32)%nat with 20%nat in H.
  rewrite <- !app_assoc, !take_app_length' in H by (symmetry; apply nid_length). done.
Qed.

Lemma answers_accepts id :
  (PerformClientAuth id_code [] here id (ep_random answers) (ep_conn answers)).2 = Ok tt <-> id = there.(na_id).
Proof.
  cbn [answers ep_random ep_conn]. rewrite client_accepts by (done || vm_compute; reflexivity).
  case_bool_decide as Heq; cbn [snd]; split; intros H; try done.
  - symmetry. by apply id_code_inj.
  - subst id. done.
Qed.

Lemma private_start_ready :
  private_ready (reaches_in here) id_code there here (private_start (ideal_cluster three_nodes)).
Proof.
  split_and!.
  - reflexivity.
  - intros id i Hi. unfold private_start, NewPrivateTransport in Hi. cbn [pc_pool] in Hi. by rewrite lookup_empty in Hi.
  - intros tcp ep id Hd Ha. unfold private_start, NewPrivateTransport, private_net in *. cbn [pc_dial pc_psk pc_self] in *.
    destruct (decide (tcp = "b")); [|done]. injection Hd as <-. apply answers_accepts in Ha as ->. done.
  - exists "b", answers. split_and!; [done..|]. by apply answers_accepts.
  - exact three_reach.
Qed.

Lemma private_routing_calls_witness :
  agrees_at pc_world (private_start (ideal_cluster three_nodes))
    (private_Notify (reaches_in here) id_code localTransport there (mkNodeAddr (test_id xc8) "c"))
    (m_err (notify_rejected (test_id xc8) here)).
Proof.
  destruct (private_routing_calls here there id_code (private_start (ideal_cluster three_nodes)) zeroID
    (mkNodeAddr (test_id xc8) "c") there there there) as (_ & _ & _ & _ & _ & _ & H).
  - exact private_start_ready.
  - cbn [private_start NewPrivateTransport pc_world]. unfold node_state.
    rewrite ideal_cluster_lookup by apply three_in. reflexivity.
  - exact H.
Defined.

Definition pinged : PConns := (private_call (fun _ _ => true) id_code there h_Ping tt (private_start tt)).1.

Lemma private_peers_are_verified_witness : IsVerified there.(na_id) pinged = true.
Proof.
  destruct (private_peers_are_verified (fun _ _ => true) id_code [] here tt private_net pinged) as [H _].
  - eapply star_step; [|apply star_refl]. eexists. apply (PCall (fun _ _ => true) id_code unit unit there h_Ping tt).
  - apply H. apply elem_of_dom. vm_compute. eexists. reflexivity.
Defined.

(** Three calls that fail leave three connections behind. *)
Definition full (h : rpcHandler) (args : unit) : M unit unit := m_err errStorageFull.

Definition quiet : Conns := NewRPCTransport tt (fun _ => Some there.(na_id)).

Lemma failing_calls_leak_witness :
  open_clients (repeat_call (fun _ _ => true) 3 "b" full tt quiet) = 3%nat /\
  (repeat_call (fun _ _ => true) 3 "b" full tt quiet).(cs_pool) !! "b" = None.
Proof.
  apply (failing_calls_leak (fun _ _ => true) 3 "b" there.(na_id) full tt quiet).
  - split; [by exists "b"|reflexivity].
  - reflexivity.
  - intros w. by eexists.
  - reflexivity.
Defined.

End PoolExample.
