(* ===== verification/Groups.v ===== *)
(** * Peers, groups and providers on the public ring (src/dht/public.go, src/dht/private.go)

    A node makes itself, its groups and what it provides known by records on the public ring,
    and finds others by theirs. [PublicDring] holds what a node keeps for that; a private ring
    adds the member list of its group, which its members rewrite concurrently, and a copy of it
    on disk. The operations run on the routed puts and gets of RecordNet.v; the updates of a group
    are programs in the sense of Interleave.v, whose actions are the lookups, the publications
    and the accesses to the disk. *)

From stdpp Require Import base gmap list strings.
From Stdlib Require Import ZArith Lia Strings.Byte.
From S2P Require Import Prelude Hoare Interleave Hex Chord Routing Lookup Cluster Sha1 Identity Records TestCodec RecordStore RecordNet.
From S2P Require Import StoreDeps NetworkStore BlockStore BlockNode BlockNet BlockPlacement Auth.

Set Default Goal Selector "!".
Local Open Scope Z_scope.

Definition wrapu64 (z : Z) : Z := z mod 2 ^ 64.

(** ** Lookups and publications *)

Section Public.
Context `{HD : StoreDeps} `{HW : WireCodec} `{HE : Ed25519} {W : Type} `{HN : NodeEnv W} `{HR : RecordEnv W}.

Definition LookupPeer (ctx : context W) (peerID : NodeID) : M W PeerIdentityRecord :=
  data ← m_wrap ("fetch peer record for " +:+ NodeID_String peerID +:+ ": ") (RecordGet ctx peerID);
  rec ← m_wrap "decode peer record: " (m_lift (DecodePeerIdentityRecord data));
  _ ← m_wrap "invalid peer record: " (m_lift (PeerIdentityRecord_Verify rec));
  m_ret rec.

Definition LookupGroup (ctx : context W) (groupID : NodeID) : M W GroupIdentityRecord :=
  data ← m_wrap ("fetch group record for " +:+ NodeID_String groupID +:+ ": ") (RecordGet ctx groupID);
  rec ← m_wrap "decode group record: " (m_lift (DecodeGroupIdentityRecord data));
  _ ← m_wrap "invalid group record: " (m_lift (GroupIdentityRecord_Verify rec));
  m_ret rec.

Definition PublishGroup (ctx : context W) (grp : GroupIdentity) (version : Z) (peers : list NodeID) : M W unit :=
  rec ← m_wrap "build group record: " (m_lift (NewGroupIdentityRecord grp version peers));
  data ← m_wrap "encode group record: " (m_lift (GroupIdentityRecord_Encode rec));
  RecordPut ctx grp.(g_GroupID) data.

(** The state of [PublicDring]: [pu_announced] are the announced blocks, by their printed
    identifier; [pu_groupAddrs] what the registered address providers return. *)
Record PublicDring := mkPublic {
  pu_identity : Identity;
  pu_version : Z;
  pu_announced : gmap string cid;
  pu_groupAddrs : gmap NodeID string
}.

Definition NewPublicDring (identity : Identity) : PublicDring := mkPublic identity 0 ∅ ∅.

Definition pu_set_version (v : Z) (p : PublicDring) : PublicDring :=
  mkPublic p.(pu_identity) v p.(pu_announced) p.(pu_groupAddrs).
Definition pu_set_announced (s : gmap string cid) (p : PublicDring) : PublicDring :=
  mkPublic p.(pu_identity) p.(pu_version) s p.(pu_groupAddrs).
Definition pu_set_groupAddrs (f : gmap NodeID string -> gmap NodeID string) (p : PublicDring) : PublicDring :=
  mkPublic p.(pu_identity) p.(pu_version) p.(pu_announced) (f p.(pu_groupAddrs)).

Definition RegisterGroupAddrProvider (groupID : NodeID) (addr : string) : PublicDring -> PublicDring :=
  pu_set_groupAddrs <[groupID := addr]>.

Definition UnregisterGroupAddrProvider (groupID : NodeID) : PublicDring -> PublicDring :=
  pu_set_groupAddrs (delete groupID).

Definition collectGroupAddrs (p : PublicDring) : gmap string string :=
  list_to_map (filterb (fun ia => negb (bool_decide (ia.2 = "")))
    ((fun ia : NodeID * string => (NodeID_String ia.1, ia.2)) <$> map_to_list p.(pu_groupAddrs))).

(** An operation on the ring by a node with its [PublicDring]. *)
Definition on_ring {A} (m : M W A) : M (PublicDring * W) A := fun s =>
  let '(w, r) := m s.2 in ((s.1, w), r).

Definition publishSelfVersion (ctx : context W) (v : Z) : M (PublicDring * W) unit := fun s =>
  on_ring (
    r ← getRouting;
    rec ← m_wrap "build peer record: "
      (m_lift (NewPeerIdentityRecord s.1.(pu_identity) v r.(r_addr) (collectGroupAddrs s.1)));
    data ← m_wrap "encode peer record: " (m_lift (PeerIdentityRecord_Encode rec));
    RecordPut ctx s.1.(pu_identity).(ID) data) s.

Definition fetchStoredPeerVersion (ctx : context W) : M (PublicDring * W) Z := fun s =>
  on_ring (rec ← LookupPeer ctx s.1.(pu_identity).(ID); m_ret rec.(pir_Data).(pd_Version)) s.

Definition set_version (v : Z) : M (PublicDring * W) unit := m_modify (fun s => (pu_set_version v s.1, s.2)).

Definition PublishSelf (ctx : context W) : M (PublicDring * W) unit :=
  s ← m_get;
  let v := wrapu64 (s.1.(pu_version) + 1) in
  _ ← set_version v;
  res ← m_try (publishSelfVersion ctx v);
  match res with
  | Ok _ => m_ret tt
  | Err e =>
      if negb (isVersionConflict e) then m_err e
      else
        stored ← m_try (fetchStoredPeerVersion ctx);
        match stored with
        | Err fetchErr =>
            m_err (errorf_w "version conflict and failed to fetch stored version: " fetchErr
                     (" (original: " +:+ err_text e +:+ ")"))
        | Ok storedVersion =>
            let newV := wrapu64 (storedVersion + 1) in
            _ ← set_version newV;
            publishSelfVersion ctx newV
        end
  end.

(** ** Providers *)

Definition publishProvider (ctx : context W) (c : cid) : M (PublicDring * W) unit := fun s =>
  let key := CIDToNodeID (Hash c) in
  (data ← m_wrap "encode provider record: " (m_lift (ProviderRecord_Encode (mkProviderRecord key s.1.(pu_identity).(ID))));
   _ ← on_ring (RecordPut ctx key data);
   m_modify (fun s => (pu_set_announced (<[cid_String c := c]> s.1.(pu_announced)) s.1, s.2))) s.

Definition no_providers (c : cid) : error := errorf ("no providers for " +:+ cid_String c).

Definition FindProviders (ctx : context W) (c : cid) : M W (list ProviderRecord) :=
  res ← m_try (RecordGet ctx (CIDToNodeID (Hash c)));
  match res with
  | Err _ => m_err (no_providers c)
  | Ok data =>
      rs ← m_wrap "decode providers: " (m_lift (DecodeProviderRecords data));
      match rs with [] => m_err (no_providers c) | _ => m_ret rs end
  end.

(** One round of the provider loop of [StartRepublishLoop]. *)
Definition republish_providers (ctx : context W) : M (PublicDring * W) unit :=
  s ← m_get;
  m_forM (map_to_list s.1.(pu_announced)).*2 (fun c => m_ignore (publishProvider ctx c)).

End Public.

(** ** The member list of a group *)

Definition maxGroupRecordRetries : nat := 5.

(** Files by path, and the paths that cannot be written. *)
Record Disk := mkDisk { dk_files : gmap string bytes; dk_unwritable : gset string }.

(** [PrivateDring], as far as the record of its group is concerned. *)
Record PrivateDring := mkPrivate { pv_grp : GroupIdentity; pv_peerID : NodeID; pv_groupRecordCachePath : string }.

Section Group.
Context `{HW : WireCodec} `{HE : Ed25519} {W : Type} `{HN : NodeEnv W} `{HR : RecordEnv W}.
Context (p : PrivateDring).

Definition cacheGroupRecord (rec : GroupIdentityRecord) : M Disk unit := fun d =>
  let path := p.(pv_groupRecordCachePath) in
  if decide (path = "") then (d, Ok tt)
  else
    match GroupIdentityRecord_Encode rec with
    | Err e => (d, Err (errorf_w "encode group record for cache: " e ""))
    | Ok data =>
        if decide (path ∈ d.(dk_unwritable))
        then (d, Err (errorf ("write group record cache " +:+ path +:+ ": permission denied")))
        else (mkDisk (<[path := data]> d.(dk_files)) d.(dk_unwritable), Ok tt)
    end.

Definition loadCachedGroupRecord (d : Disk) : result GroupIdentityRecord :=
  let path := p.(pv_groupRecordCachePath) in
  if decide (path = "") then Err (errorf "no cache path configured")
  else
    match d.(dk_files) !! path with
    | None => Err (errorf "read group record cache: no such file")
    | Some data =>
        match DecodeGroupIdentityRecord data with
        | Err e => Err (errorf_w "decode cached group record: " e "")
        | Ok rec => Ok rec
        end
    end.

Definition without_member (id : NodeID) (peers : list NodeID) : list NodeID := filterb (fun m => negb (Equal m id)) peers.

Definition with_member (id : NodeID) (peers : list NodeID) : list NodeID := without_member id peers ++ [id].

Definition on_net {A} (m : M W A) : M (W * Disk) A := fun s => let '(w, r) := m s.1 in ((w, s.2), r).
Definition on_disk {A} (m : M Disk A) : M (W * Disk) A := fun s => let '(d, r) := m s.2 in ((s.1, d), r).

(** The member list to start from: the one on the ring, else the one on disk, else none. *)
Definition current_group (ctx : context W) : prog (W * Disk) (Z * list NodeID) :=
  res ← atomic (m_try (on_net (LookupGroup ctx p.(pv_grp).(g_GroupID))));
  match res with
  | Ok rec => Done (Ok (rec.(gir_Data).(gd_Version), rec.(gir_Data).(gd_Peers)))
  | Err _ =>
      cached ← atomic (on_disk (fun d => (d, Ok (loadCachedGroupRecord d))));
      match cached with
      | Ok rec => Done (Ok (rec.(gir_Data).(gd_Version), rec.(gir_Data).(gd_Peers)))
      | Err _ => Done (Ok (0, []))
      end
  end.

(** Before a further attempt the node waits; [wait] says how the ring moves on meanwhile. *)
Context (wait : nat -> W -> W).

Definition pause (ctx : context W) (attempt : nat) : M W unit := fun w =>
  match attempt with
  | O => (w, Ok tt)
  | S _ => let w' := wait attempt w in match ctx w' with Some e => (w', Err e) | None => (w', Ok tt) end
  end.

Fixpoint update_attempts (ctx : context W) (left attempt : nat) : prog (W * Disk) unit :=
  match left with
  | O => Done (Err (errorf "update group record: too many concurrent updates, try again"))
  | S left' =>
      _ ← atomic (on_net (pause ctx attempt));
      cur ← current_group ctx;
      let out := with_member p.(pv_peerID) cur.2 in
      let newVersion := wrapu64 (cur.1 + 1) in
      res ← atomic (m_try (on_net (PublishGroup ctx p.(pv_grp) newVersion out)));
      match res with
      | Ok _ =>
          match NewGroupIdentityRecord p.(pv_grp) newVersion out with
          | Ok cacheRec => atomic (m_ignore (on_disk (cacheGroupRecord cacheRec)))
          | Err _ => Done (Ok tt)
          end
      | Err e => if negb (isVersionConflict e) then Done (Err e) else update_attempts ctx left' (S attempt)
      end
  end.

Definition UpdateGroupRecord (ctx : context W) : prog (W * Disk) unit := update_attempts ctx maxGroupRecordRetries 0.

Fixpoint remove_attempts (ctx : context W) (left attempt : nat) : prog (W * Disk) unit :=
  match left with
  | O => Done (Err (errorf "remove from group record: too many concurrent updates, try again"))
  | S left' =>
      _ ← atomic (on_net (pause ctx attempt));
      rec ← atomic (on_net (m_wrap "lookup group record: " (LookupGroup ctx p.(pv_grp).(g_GroupID))));
      let out := without_member p.(pv_peerID) rec.(gir_Data).(gd_Peers) in
      res ← atomic (m_try (on_net (PublishGroup ctx p.(pv_grp) (wrapu64 (rec.(gir_Data).(gd_Version) + 1)) out)));
      match res with
      | Ok _ => Done (Ok tt)
      | Err e => if negb (isVersionConflict e) then Done (Err e) else remove_attempts ctx left' (S attempt)
      end
  end.

Definition removeFromGroupRecord (ctx : context W) : prog (W * Disk) unit := remove_attempts ctx maxGroupRecordRetries 0.

End Group.

(** ** Joining a private ring *)

Section JoinGroup.
Context `{HD : StoreDeps} {S L : Type} `{!BlockStore S} `{!BlockStore L}.
Context `{HW : WireCodec} `{HE : Ed25519} {W : Type} `{HN : NodeEnv W} `{HR : RecordEnv W}.
Context {V : Type} `{HV : NodeEnv V} `{HB : !BlockEnv (S := S) (L := L) V}.
Context (p : PrivateDring).

(** [Node.Join] over a transport without records. *)
Definition private_Join (peer : NodeAddr) : M V unit :=
  res ← Join_routing peer;
  match res with
  | None => m_ret tt
  | Some (succ, pred) => Join_blocks succ pred
  end.

(** What the loop over the members has met: the last error, the peers with an address, and whether
    a join led back to the node itself. *)
Record joinState := mkJoinState { jo_lastErr : option error; jo_known : list NodeAddr; jo_stale : bool }.

Definition on_public {A} (m : M W A) : M (W * V) A := fun s => let '(w, r) := m s.1 in ((w, s.2), r).
Definition on_private {A} (m : M V A) : M (W * V) A := fun s => let '(v, r) := m s.2 in ((s.1, v), r).

(** [None] once the node has joined through a member. *)
Fixpoint try_members (ctx : context W) (ms : list NodeID) (j : joinState) : M (W * V) (option joinState) :=
  match ms with
  | [] => m_ret (Some j)
  | member :: ms' =>
      if Equal member p.(pv_peerID) then try_members ctx ms' j
      else
        res ← m_try (on_public (LookupPeer ctx member));
        match res with
        | Err e =>
            try_members ctx ms' (mkJoinState (Some (errorf_w ("lookup peer " +:+ NodeID_String member +:+ ": ") e "")) j.(jo_known) j.(jo_stale))
        | Ok peerRec =>
            let gid := p.(pv_grp).(g_GroupID) in
            match peerRec.(pir_Data).(pd_GroupAddrs) !! NodeID_String gid with
            | Some (String _ _ as addr) =>
                let bootstrap := mkNodeAddr member addr in
                let known := j.(jo_known) ++ [bootstrap] in
                joined ← m_try (on_private (private_Join bootstrap));
                match joined with
                | Err e => try_members ctx ms' (mkJoinState (Some e) known j.(jo_stale))
                | Ok _ =>
                    succ ← on_private (getSuccessor);
                    if Equal succ.(na_id) p.(pv_peerID) then
                      try_members ctx ms' (mkJoinState
                        (Some (errorf ("join via " +:+ NodeID_String member +:+ " returned stale self-reference"))) known true)
                    else m_ret None
                end
            | _ =>
                try_members ctx ms' (mkJoinState
                  (Some (errorf ("peer " +:+ NodeID_String member +:+ " has no private-dring address for group " +:+ NodeID_String gid)))
                  j.(jo_known) j.(jo_stale))
            end
        end
  end.

Definition JoinViaPublicDring (ctx : context W) : M (W * V) unit :=
  let gid := p.(pv_grp).(g_GroupID) in
  rec ← m_wrap "lookup group on public dring: " (on_public (LookupGroup ctx gid));
  match rec.(gir_Data).(gd_Peers) with
  | [] => m_err (errorf ("group " +:+ NodeID_String gid +:+ " has no peers in public record"))
  | ms =>
      out ← try_members ctx ms (mkJoinState None [] false);
      match out with
      | None => m_ret tt
      | Some j =>
          on_private (modifyRouting (fun r =>
            let r1 := Create r in
            match j.(jo_known) with
            | [] => r1
            | known => set_successorList (r1.(r_successorList) ++ known) r1
            end))
      end
  end.

(** *** Outcome *)

Context (get_set : forall r v, ne_routing (ne_set_routing r v : V) = r).

(** The peers that a part of the loop adds: members of the list, other than the node, with an address. *)
Definition known_from (ms : list NodeID) (known : list NodeAddr) : Prop :=
  na_id <$> known `sublist_of` ms /\ Forall (fun a => a.(na_id) <> p.(pv_peerID) /\ a.(na_addr) <> "") known.

Lemma known_skip m ms known : known_from ms known -> known_from (m :: ms) known.
Proof. intros [Hs Hf]. split; [by apply sublist_cons|done]. Qed.

Lemma known_add m ms addr known :
  m <> p.(pv_peerID) -> addr <> "" -> known_from ms known -> known_from (m :: ms) (mkNodeAddr m addr :: known).
Proof. intros Hm Ha [Hs Hf]. split; [by apply sublist_skip|by constructor]. Qed.

Definition tried (ms : list NodeID) (j : joinState) (out : option joinState) (v : V) : Prop :=
  match out with
  | None => (ne_routing v).(r_successor).(na_id) <> p.(pv_peerID)
  | Some j' => exists known, j'.(jo_known) = j.(jo_known) ++ known /\ known_from ms known
  end.

Lemma tried_skip m ms j j' out v : j'.(jo_known) = j.(jo_known) -> tried ms j' out v -> tried (m :: ms) j out v.
Proof.
  intros Hj. destruct out as [j2|]; [|done]. intros (known & Hk & Hf). exists known. rewrite <- Hj. split; [done|]. by apply known_skip.
Qed.

Lemma tried_add m ms addr j j' out v :
  m <> p.(pv_peerID) -> addr <> "" -> j'.(jo_known) = j.(jo_known) ++ [mkNodeAddr m addr] ->
  tried ms j' out v -> tried (m :: ms) j out v.
Proof.
  intros Hm Ha Hj. destruct out as [j2|]; [|done]. intros (known & Hk & Hf). exists (mkNodeAddr m addr :: known).
  rewrite Hk, Hj, <- app_assoc. split; [done|]. by apply known_add.
Qed.

Ltac next_member IH tac :=
  match goal with
  | |- context [try_members _ _ ?j1 ?s1] =>
      let out := fresh "out" in destruct (IH j1 s1) as (out & ? & ?); exists out; split; [done|tac]
  end.

Lemma try_members_spec ctx ms j s :
  exists out, (try_members ctx ms j s).2 = Ok out /\ tried ms j out (try_members ctx ms j s).1.2.
Proof.
  revert j s. induction ms as [|m ms IH]; intros j s; cbn [try_members].
  { exists (Some j). split; [done|]. exists []. by rewrite app_nil_r. }
  destruct (Equal m (pv_peerID p)) eqn:Hm; [next_member IH ltac:(by eapply tried_skip)|].
  apply Equal_false in Hm. unfold mbind, M_bind, m_bind, m_try, on_public.
  destruct (LookupPeer ctx m s.1) as [w1 [rec|e]]; [|next_member IH ltac:(by eapply tried_skip)].
  destruct (pd_GroupAddrs _ !! _) as [[|c addr]|]; [next_member IH ltac:(by eapply tried_skip)| |next_member IH ltac:(by eapply tried_skip)].
  unfold on_private. destruct (private_Join _ _) as [v1 [u|e]]; [|next_member IH ltac:(eapply (tried_add m ms (String c addr)); [exact Hm|discriminate| |eassumption]; reflexivity)].
  unfold getSuccessor, getRouting, mbind, M_bind, m_bind, m_ret. cbn [fst snd].
  destruct (Equal _ (pv_peerID p)) eqn:Hs; [next_member IH ltac:(eapply (tried_add m ms (String c addr)); [exact Hm|discriminate| |eassumption]; reflexivity)|].
  exists None. split; [done|]. by apply Equal_false.
Qed.

(** A node that finds members in the record of its group ends up in a ring: it has joined
    through one of them and its successor is another node, or it has created a ring of its own whose
    successor list goes on with every member for which the public ring has an address, in the order
    of the record, so that stabilization can find them later. It fails only if the record cannot be
    read or lists nobody. *)
Theorem join_ends_in_a_ring (ctx : context W) (w : W) (v : V) :
  let '((w', v'), res) := JoinViaPublicDring ctx (w, v) in
  match (LookupGroup ctx p.(pv_grp).(g_GroupID) w).2 with
  | Err _ => exists e, res = Err e /\ v' = v
  | Ok rec =>
      if decide (rec.(gir_Data).(gd_Peers) = []) then exists e, res = Err e /\ v' = v
      else
        res = Ok tt /\
        ((ne_routing v').(r_successor).(na_id) <> p.(pv_peerID) \/
         exists r known, ne_routing v' = set_successorList ((Create r).(r_successorList) ++ known) (Create r) /\
           known_from (gd_Peers (gir_Data rec)) known)
  end.
Proof.
  unfold JoinViaPublicDring, mbind, M_bind, m_bind, m_wrap, on_public. cbn [fst snd].
  destruct (LookupGroup ctx _ w) as [w1 [rec|e]]; cbn [snd]; [|by eexists].
  destruct (gd_Peers (gir_Data rec)) as [|m ms] eqn:Hms; [by eexists|].
  destruct (try_members_spec ctx (m :: ms) (mkJoinState None [] false) (w1, v)) as (out & Ho & Ht).
  destruct (try_members ctx (m :: ms) _ (w1, v)) as [[w2 v2] res]. cbn [fst snd] in Ho, Ht. subst res.
  destruct out as [j|]; [|unfold m_ret; rewrite decide_False by done; split; [done|by left]]. destruct Ht as (known & Hk & Hsub & Hf). cbn [jo_known app] in Hk.
  unfold on_private, modifyRouting. cbn [fst snd]. rewrite decide_False by done. split; [done|]. right. exists (ne_routing v2), known.
  rewrite get_set, Hk. split; [|by split]. by destruct known; [rewrite app_nil_r|].
Qed.

End JoinGroup.

(** ** What the ring shows *)

Section Visible.
Context `{HW : WireCodec} `{HE : Ed25519} `{HWL : !WireCodecLaws} `{HEL : !Ed25519Laws}.

(** A stabilized ring whose links work. *)
Definition calm (w : RecordWorld) : Prop :=
  stabilized_cluster w.(rw_cluster) /\ forall a b, (a, b) ∉ w.(rw_cluster).(cl_blocked).

Abbreviation members w := (dom (cl_nodes (rw_cluster w))).

Lemma lookup_peer_reads n id (w : RecordWorld) data rec :
  RecordGet (H1 := world_env n) (H2 := record_env n) Background id w = (w, Ok data) ->
  DecodePeerIdentityRecord data = Ok rec -> PeerIdentityRecord_Verify rec = Ok tt ->
  LookupPeer (HN := world_env n) (HR := record_env n) Background id w = (w, Ok rec).
Proof.
  intros Hget Hdec Hver. unfold LookupPeer, mbind, M_bind, m_bind, m_wrap, m_lift. by rewrite Hget, Hdec, Hver.
Qed.

Lemma lookup_group_reads n id (w : RecordWorld) data rec :
  RecordGet (H1 := world_env n) (H2 := record_env n) Background id w = (w, Ok data) ->
  DecodeGroupIdentityRecord data = Ok rec -> GroupIdentityRecord_Verify rec = Ok tt ->
  LookupGroup (HN := world_env n) (HR := record_env n) Background id w = (w, Ok rec).
Proof.
  intros Hget Hdec Hver. unfold LookupGroup, mbind, M_bind, m_bind, m_wrap, m_lift. by rewrite Hget, Hdec, Hver.
Qed.

(** C32: the ring does not tie a record to the key it is stored under. Any node can publish a
    record that it signed for itself under the identifier of another peer, if its version is newer
    than what is stored there and there are no provider entries; from then on every member that looks that peer up gets the record of
    the other node, with its address. *)
Theorem foreign_record_is_returned (w : RecordWorld) (attacker o victim : NodeID) (priv : bytes) (v : Z)
    (address : string) (r : PeerIdentityRecord) (data : bytes) :
  calm w -> attacker ∈ members w -> key_owner (members w) victim o ->
  length priv = PrivateKeySize -> NewPeerIdentityRecord (IdentityFromKey priv) v address ∅ = Ok r ->
  PeerIdentityRecord_Encode r = Ok data -> classifyRecord data = recPeer ->
  newer_stored w.(rw_clock).(clk_now) victim v (record_state o w) = None ->
  (record_state o w).(providerEntryTimes) !! victim = None ->
  exists w', RecordPut (H1 := world_env attacker) (H2 := record_env attacker) Background victim data w = (w', Ok tt) /\
    forall reader clk', reader ∈ members w ->
      time_sub clk'.(clk_now) w.(rw_clock).(clk_now) <= (record_state o w).(rs_peerTTL) ->
      LookupPeer (HN := world_env reader) (HR := record_env reader) Background victim (rw_set_clock clk' w') =
        (rw_set_clock clk' w', Ok r) /\
      r.(pir_Data).(pd_PeerID) = PubKeyToNodeID (ed_Public priv) /\ r.(pir_Data).(pd_Address) = address.
Proof.
  intros [Hst Hlinks] Hatt Ho Hlen Hnew Henc Hclass Hns Hnone.
  destruct (peer_record_verifies priv v address ∅ r data Hlen Hnew Henc) as (Hdec & Hver & Hdata).
  destruct (published_found w attacker o victim data v Hst Hlinks Hatt Ho) as (w' & Hput & Hget).
  - by rewrite Hclass.
  - rewrite Hclass. exact (authentic_peer _ _ _ Hdec Hver Hdata).
  - done.
  - done.
  - exists w'. split; [done|]. intros reader clk' Hreader Hage. rewrite Hdata. split; [|done].
    eapply lookup_peer_reads; [|done|done]. apply Hget; [done|]. by rewrite Hclass.
Qed.

(** *** Peers *)

(** A peer's records can be encoded and are recognised. *)
Definition publishable (ident : Identity) (address : string) (groups : gmap string string) : Prop :=
  forall v, exists r data, NewPeerIdentityRecord ident v address groups = Ok r /\
    PeerIdentityRecord_Encode r = Ok data /\ classifyRecord data = recPeer.

Lemma publishSelfVersion_runs `{HD : StoreDeps} n p v (w : RecordWorld) r data :
  let addr := r_addr (node_state n w.(rw_cluster)) in
  NewPeerIdentityRecord p.(pu_identity) v addr (collectGroupAddrs p) = Ok r -> PeerIdentityRecord_Encode r = Ok data ->
  publishSelfVersion (HN := world_env n) (HR := record_env n) Background v (p, w) =
    let '(w', res) := RecordPut (H1 := world_env n) (H2 := record_env n) Background p.(pu_identity).(ID) data w in
    ((p, w'), res).
Proof.
  intros addr Hnew Henc. subst addr. unfold publishSelfVersion, on_ring. cbn [fst snd].
  unfold mbind, M_bind, m_bind, m_wrap, m_lift, getRouting. cbn [world_env localTransport ne_routing].
  by rewrite Hnew, Henc.
Qed.

Lemma localRecordGet_plain clk key st raw :
  localRecordGet clk key st = Ok raw -> st.(providerEntryTimes) !! key = None ->
  st.(records) !! key = Some raw /\ isExpiredAt (meta_of st key) clk.(clk_now) = false.
Proof.
  unfold localRecordGet. intros Hget Hnone. rewrite Hnone in Hget. destruct (records st !! key); [|done].
  destruct (isExpiredAt _ _); [done|]. by injection Hget as <-.
Qed.

(** The path of [PublishSelf] through a version conflict. *)
Lemma PublishSelf_conflict `{HD : StoreDeps} n p (w w1 w2 : RecordWorld) e v :
  let p1 := pu_set_version (wrapu64 (p.(pu_version) + 1)) p in
  let p2 := pu_set_version (wrapu64 (v + 1)) p1 in
  publishSelfVersion (HN := world_env n) (HR := record_env n) Background p1.(pu_version) (p1, w) = ((p1, w1), Err e) ->
  isVersionConflict e = true ->
  fetchStoredPeerVersion (HN := world_env n) (HR := record_env n) Background (p1, w1) = ((p1, w1), Ok v) ->
  publishSelfVersion (HN := world_env n) (HR := record_env n) Background p2.(pu_version) (p2, w1) = ((p2, w2), Ok tt) ->
  PublishSelf (HN := world_env n) (HR := record_env n) Background (p, w) = ((p2, w2), Ok tt).
Proof.
  intros p1 p2 H1 He Hf H2. unfold PublishSelf, mbind, M_bind, m_bind, m_get, m_try, set_version, m_modify. cbn [fst snd].
  fold p1. change (wrapu64 (pu_version p + 1)) with p1.(pu_version). rewrite H1, He. cbn [negb]. rewrite Hf. cbn [fst snd].
  fold p2. change (wrapu64 (v + 1)) with p2.(pu_version). exact H2.
Qed.

(** A node that restarts has forgotten the version of its record. Its first publication then
    conflicts with the record on the ring; the node reads the version stored there and publishes
    the next one, which every member finds from then on. *)
Theorem republish_after_restart `{HD : StoreDeps} (w : RecordWorld) (self o : NodeID) (priv : bytes) (p : PublicDring)
    (raw : bytes) (old : PeerIdentityRecord) :
  let me := ID (IdentityFromKey priv) in
  let v := old.(pir_Data).(pd_Version) in
  calm w -> self ∈ members w -> key_owner (members w) me o -> length priv = PrivateKeySize ->
  p.(pu_identity) = IdentityFromKey priv -> p.(pu_version) = 0 ->
  publishable (IdentityFromKey priv) (r_addr (node_state self w.(rw_cluster))) (collectGroupAddrs p) ->
  localRecordGet w.(rw_clock) me (record_state o w) = Ok raw -> (record_state o w).(providerEntryTimes) !! me = None ->
  DecodePeerIdentityRecord raw = Ok old -> PeerIdentityRecord_Verify old = Ok tt -> 
  extractRecordVersion raw = v -> 1 <= v < 2 ^ 64 - 1 ->
  exists p' w' r, PublishSelf (HN := world_env self) (HR := record_env self) Background (p, w) = ((p', w'), Ok tt) /\
    p'.(pu_version) = v + 1 /\ r.(pir_Data).(pd_Version) = v + 1 /\ r.(pir_Data).(pd_PeerID) = me /\
    forall reader clk', reader ∈ members w ->
      time_sub clk'.(clk_now) w.(rw_clock).(clk_now) <= (record_state o w).(rs_peerTTL) ->
      LookupPeer (HN := world_env reader) (HR := record_env reader) Background me (rw_set_clock clk' w') =
        (rw_set_clock clk' w', Ok r).
Proof.
  intros me v Hcalm Hself Ho Hlen Hid Hver0 Hpub Hget Hnone Hdec Hver Hext Hv. pose proof Hcalm as [Hst Hlinks].
  destruct (localRecordGet_plain _ _ _ _ Hget Hnone) as [Hraw Hexp].
  destruct (Hpub 1) as (r1 & data1 & Hnew1 & Henc1 & Hcl1). destruct (Hpub (v + 1)) as (r2 & data2 & Hnew2 & Henc2 & Hcl2).
  destruct (peer_record_verifies _ _ _ _ _ _ Hlen Hnew1 Henc1) as (Hdec1 & Hver1 & Hdata1).
  destruct (peer_record_verifies _ _ _ _ _ _ Hlen Hnew2 Henc2) as (Hdec2 & Hver2 & Hdata2).
  destruct (put_conflicts w.(rw_clock) me data1 self (record_state o w) raw 1) as (e & Hstore & Hconf & _).
  { by rewrite Hcl1. } { rewrite Hcl1. apply checked_version_Ok. exact (authentic_peer _ _ _ Hdec1 Hver1 Hdata1). } { done. } { done. } { lia. }
  destruct (RecordPut_refused w self o me data1 e Hst Hlinks Hself Ho Hstore) as (w1 & Hput1 & Hc1 & Hs1 & Hk1).
  destruct (published_found w1 self o me data2 (v + 1)) as (w2 & Hput2 & Hfound);
    [by rewrite ?Hc1..|by rewrite Hcl2|rewrite Hcl2; exact (authentic_peer _ _ _ Hdec2 Hver2 Hdata2)| |by rewrite Hs1|].
  { rewrite Hs1, Hk1. unfold newer_stored. rewrite Hraw, Hexp, Hext. by rewrite (proj2 (Z.leb_gt _ _)) by lia. }
  destruct p as [ident ver ann ga]. cbn [pu_identity pu_version] in Hid, Hver0. subst ident ver.
  assert (wrapu64 (v + 1) = v + 1) as Hwrap by (apply Z.mod_small; lia).
  exists (mkPublic (IdentityFromKey priv) (wrapu64 (v + 1)) ann ga), w2, r2.
  split; [|split; [exact Hwrap|rewrite Hdata2; split; [done|split; [done|]]]].
  - eapply (PublishSelf_conflict self (mkPublic (IdentityFromKey priv) 0 ann ga) w w1 w2 e v); [|exact Hconf| |].
    + rewrite (publishSelfVersion_runs self _ _ w r1 data1); [|exact Hnew1|exact Henc1].
      cbn [pu_set_version pu_identity]. fold me. by rewrite Hput1.
    + unfold fetchStoredPeerVersion, on_ring. cbn [fst snd pu_set_version pu_identity]. fold me.
      unfold mbind, M_bind, m_bind. rewrite (lookup_peer_reads self me w1 raw old); [done| |done|done].
      rewrite (RecordGet_owner w1 self o) by (by rewrite ?Hc1). by rewrite Hs1, Hk1, Hget.
    + cbn [pu_set_version pu_version]. rewrite Hwrap.
      rewrite (publishSelfVersion_runs self _ _ w1 r2 data2); [|by rewrite Hc1|exact Henc2].
      cbn [pu_set_version pu_identity]. fold me. by rewrite Hput2.
  - intros reader clk' Hreader Hage. eapply lookup_peer_reads; [|done|done].
    apply Hfound; [by rewrite Hc1|]. rewrite Hs1, Hk1, Hcl2. exact Hage.
Qed.

(** *** Groups *)

(** The member list that an update at a node starts from, given what the owner of the group's
    record holds. *)
Definition group_on_ring (clk : clock) (gid : NodeID) (st : RecordState) : result GroupIdentityRecord :=
  raw ← localRecordGet clk gid st;
  rec ← DecodeGroupIdentityRecord raw;
  _ ← GroupIdentityRecord_Verify rec;
  Ok rec.

Definition group_seen (p : PrivateDring) (clk : clock) (st : RecordState) (d : Disk) : Z * list NodeID :=
  match group_on_ring clk p.(pv_grp).(g_GroupID) st with
  | Ok rec => (rec.(gir_Data).(gd_Version), rec.(gir_Data).(gd_Peers))
  | Err _ =>
      match loadCachedGroupRecord p d with
      | Ok cached => (cached.(gir_Data).(gd_Version), cached.(gir_Data).(gd_Peers))
      | Err _ => (0, [])
      end
  end.

Lemma current_group_seen p n o (w : RecordWorld) d :
  calm w -> n ∈ members w -> key_owner (members w) p.(pv_grp).(g_GroupID) o ->
  run (current_group (HN := world_env n) (HR := record_env n) p Background) (w, d) =
    ((w, d), Ok (group_seen p w.(rw_clock) (record_state o w) d)).
Proof.
  intros [Hst Hlinks] Hn Ho. unfold current_group, group_seen, group_on_ring, mbind, prog_bind, atomic, result_bind.
  cbn [p_bind run]. unfold m_try, on_net. cbn [fst snd]. unfold LookupGroup, mbind, M_bind, m_bind, m_wrap, m_lift.
  rewrite (RecordGet_owner w n o) by done. destruct (localRecordGet _ _ _) as [raw|e].
  - destruct (DecodeGroupIdentityRecord raw) as [rec|e].
    + destruct (GroupIdentityRecord_Verify rec) as [[]|e]; [done|]. cbn. by destruct (loadCachedGroupRecord p d).
    + cbn. by destruct (loadCachedGroupRecord p d).
  - cbn. by destruct (loadCachedGroupRecord p d).
Qed.

(** An update whose first publication succeeds. *)
Lemma update_run_ok p wait self o (w w' : RecordWorld) d r data :
  let seen := group_seen p w.(rw_clock) (record_state o w) d in
  calm w -> self ∈ members w -> key_owner (members w) p.(pv_grp).(g_GroupID) o ->
  NewGroupIdentityRecord p.(pv_grp) (wrapu64 (seen.1 + 1)) (with_member p.(pv_peerID) seen.2) = Ok r ->
  GroupIdentityRecord_Encode r = Ok data ->
  RecordPut (H1 := world_env self) (H2 := record_env self) Background p.(pv_grp).(g_GroupID) data w = (w', Ok tt) ->
  run (UpdateGroupRecord (HN := world_env self) (HR := record_env self) p wait Background) (w, d) =
    ((w', (cacheGroupRecord p r d).1), Ok tt).
Proof.
  intros seen Hcalm Hself Ho Hnew Henc Hput. unfold UpdateGroupRecord, maxGroupRecordRetries. cbn [update_attempts].
  unfold mbind, prog_bind. rewrite run_p_bind. unfold m_bind. rewrite run_atomic. unfold on_net at 1. cbn [pause fst snd].
  rewrite run_p_bind. unfold m_bind at 1. rewrite (current_group_seen p self o) by done. fold seen. cbn [fst snd].
  rewrite run_p_bind. unfold m_bind at 1. rewrite run_atomic. unfold m_try, on_net, PublishGroup, mbind, M_bind, m_bind, m_wrap, m_lift.
  cbn [fst snd]. rewrite Hnew, Henc, Hput. rewrite run_atomic. unfold m_ignore, on_disk. cbn [fst snd].
  by destruct (cacheGroupRecord p r d).
Qed.

(** C31: when a member updates the record of its group and nobody else does at that moment, the
    update succeeds at the first attempt; from then on every member of the ring finds the next
    version of the record, signed by the group, which lists everyone who was listed before and the
    member, once; and the member can recover the same record from its disk. The owner has no
    provider entries under the identifier of the group, and the file of the copy can be written. *)
Theorem group_update_is_visible (w : RecordWorld) (d : Disk) (self o : NodeID) (hmac : bytes -> bytes -> bytes) (priv : bytes)
    (path : string) (wait : nat -> RecordWorld -> RecordWorld) (r : GroupIdentityRecord) (data : bytes) :
  let p := mkPrivate (NewGroupIdentity hmac priv) self path in
  let gid := g_GroupID (NewGroupIdentity hmac priv) in
  let seen := group_seen p w.(rw_clock) (record_state o w) d in
  calm w -> self ∈ members w -> key_owner (members w) gid o -> length priv = PrivateKeySize ->
  NewGroupIdentityRecord (NewGroupIdentity hmac priv) (wrapu64 (seen.1 + 1)) (with_member self seen.2) = Ok r ->
  GroupIdentityRecord_Encode r = Ok data -> classifyRecord data = recGroup ->
  newer_stored w.(rw_clock).(clk_now) gid (wrapu64 (seen.1 + 1)) (record_state o w) = None ->
  (record_state o w).(providerEntryTimes) !! gid = None -> path <> "" -> path ∉ d.(dk_unwritable) ->
  exists w' d', run (UpdateGroupRecord (HN := world_env self) (HR := record_env self) p wait Background) (w, d) = ((w', d'), Ok tt) /\
    r.(gir_Data) = mkGroupData gid (wrapu64 (seen.1 + 1)) (with_member self seen.2) /\
    loadCachedGroupRecord p d' = Ok r /\
    forall reader clk', reader ∈ members w ->
      time_sub clk'.(clk_now) w.(rw_clock).(clk_now) <= (record_state o w).(rs_groupTTL) ->
      LookupGroup (HN := world_env reader) (HR := record_env reader) Background gid (rw_set_clock clk' w') =
        (rw_set_clock clk' w', Ok r).
Proof.
  intros p gid seen Hcalm Hself Ho Hlen Hnew Henc Hclass Hns Hnone Hpath Hwrite. pose proof Hcalm as [Hst Hlinks].
  destruct (group_record_verifies hmac priv _ _ r data Hlen Hnew Henc) as (Hdec & Hver & Hdata).
  destruct (published_found w self o gid data (wrapu64 (seen.1 + 1)) Hst Hlinks Hself Ho) as (w' & Hput & Hfound);
    [by rewrite Hclass|rewrite Hclass; exact (authentic_group _ _ _ Hdec Hver Hdata)|done|done|].
  exists w', (mkDisk (<[path := data]> d.(dk_files)) d.(dk_unwritable)). split_and!.
  - rewrite (update_run_ok p wait self o w w' d r data) by done. unfold cacheGroupRecord. cbn [p pv_groupRecordCachePath].
    by rewrite decide_False, Henc, decide_False.
  - done.
  - unfold loadCachedGroupRecord. cbn [p pv_groupRecordCachePath dk_files]. rewrite decide_False by done.
    by rewrite lookup_insert_eq, Hdec.
  - intros reader clk' Hreader Hage. eapply lookup_group_reads; [|done|done]. apply Hfound; [done|]. by rewrite Hclass.
Qed.

End Visible.

(** ** The properties apply *)

Module GroupExample.

(** A signed message is recognised by the data in it. *)
Lemma signed_class (m : pbSignedRecord) data :
  marshalSigned m = Ok data -> length m.(sr_Pubkey) = 32%nat -> length m.(sr_Signature) = 64%nat -> m.(sr_Data) <> [] ->
  classifyRecord data = match cborUnmarshalPeer m.(sr_Data) with
                        | Ok d => if Equal d.(pd_PeerID) zeroID then recGroup else recPeer
                        | Err _ => recGroup
                        end.
Proof.
  intros Hm Hpub Hsig Hdata. pose proof (signed_roundtrip m data Hm) as Hback.
  cbn [marshalSigned test_codec] in Hm. injection Hm as <-.
  unfold classifyRecord. change (is_provider (x01 :: put m)) with false. change (is_provider_list (x01 :: put m)) with false.
  rewrite Hback, Hpub, Hsig. by destruct (sr_Data m).
Qed.

Lemma sig_length priv msg : length priv = PrivateKeySize -> length (ed_Sign priv msg) = 64%nat.
Proof. intros Hlen. cbn [ed_Sign test_ed25519]. by rewrite !length_app, length_replicate, length_sha1_Sum, length_ed_Public. Qed.

Lemma group_class hmac v peers r data :
  NewGroupIdentityRecord (NewGroupIdentity hmac test_key) v peers = Ok r ->
  GroupIdentityRecord_Encode r = Ok data -> classifyRecord data = recGroup.
Proof.
  intros Hnew Henc. unfold NewGroupIdentityRecord, GroupIdentityRecord_sign in Hnew.
  destruct (cborSignPayload _ _) as [payload|e]; [|done]. injection Hnew as <-.
  unfold GroupIdentityRecord_Encode in Henc. cbn [gir_Data gir_PubKey gir_Signature cborMarshalGroup test_codec put_message] in Henc.
  rewrite (signed_class _ _ Henc); [done|done| |done]. exact (sig_length test_key payload eq_refl).
Qed.

Lemma peer_class priv v address groups r data :
  length priv = PrivateKeySize -> PubKeyToNodeID (ed_Public priv) <> zeroID ->
  NewPeerIdentityRecord (IdentityFromKey priv) v address groups = Ok r ->
  PeerIdentityRecord_Encode r = Ok data -> classifyRecord data = recPeer.
Proof.
  intros Hlen Hid Hnew Henc. unfold NewPeerIdentityRecord, PeerIdentityRecord_sign in Hnew.
  destruct (cborSignPayload _ _) as [payload|e]; [|done]. injection Hnew as <-.
  unfold PeerIdentityRecord_Encode in Henc. cbn [pir_Data pir_PubKey pir_Signature] in Henc.
  destruct (cborMarshalPeer _) as [inner|e] eqn:Hin; [|done]. pose proof (cbor_peer_roundtrip _ _ Hin) as Hback.
  rewrite (signed_class _ _ Henc); cbn [sr_Data sr_Pubkey sr_Signature].
  - rewrite Hback. cbn [pd_PeerID ID IdentityFromKey]. by rewrite (proj2 (Equal_false _ _)).
  - cbn [PubKey IdentityFromKey]. by rewrite length_ed_Public.
  - by apply sig_length.
  - cbn [cborMarshalPeer test_codec put_message] in Hin. by injection Hin as <-.
Qed.

Lemma test_world_calm records clk : calm (mkWorld (ideal_cluster test_members) records clk).
Proof. split; [apply ideal_cluster_stabilized|]. intros a b. apply not_elem_of_empty. Qed.

Lemma test_id_nonzero : PubKeyToNodeID (ed_Public test_key) <> zeroID.
Proof. intros H. apply (f_equal nid_bytes) in H. vm_compute in H. discriminate H. Qed.

Definition victim : NodeID := test_id x64.

Lemma foreign_record_is_returned_witness :
  exists w', RecordPut (H1 := world_env (test_id x0a)) (H2 := record_env (test_id x0a)) Background victim (test_peer_bytes 7)
      test_world = (w', Ok tt) /\
    LookupPeer (HN := world_env (test_id x64)) (HR := record_env (test_id x64)) Background victim (rw_set_clock (test_clock 5000) w') =
      (rw_set_clock (test_clock 5000) w', Ok (test_peer_record 7)).
Proof.
  pose proof (ideal_cluster_dom test_members) as Hdom. change (ideal_cluster test_members) with (rw_cluster test_world) in Hdom.
  destruct (test_world_owner victim) as (o & Ho & Hrs).
  destruct (foreign_record_is_returned test_world (test_id x0a) o victim test_key 7 "/ip4/127.0.0.1/tcp/4001"
    (test_peer_record 7) (test_peer_bytes 7)) as (w' & Hput & Hget).
  - apply test_world_calm.
  - rewrite Hdom. apply test_members_in.
  - rewrite Hdom. exact Ho.
  - reflexivity.
  - reflexivity.
  - reflexivity.
  - vm_compute. reflexivity.
  - refine (eq_ind_r (fun st => newer_stored 100 victim 7 st = None) _ Hrs). vm_compute. reflexivity.
  - refine (eq_ind_r (fun st => providerEntryTimes st !! victim = None) _ Hrs). vm_compute. reflexivity.
  - exists w'. split; [exact Hput|]. apply Hget.
    + rewrite Hdom. apply test_members_in.
    + refine (eq_ind_r (fun st => time_sub 5000 100 <= rs_peerTTL st) _ Hrs). vm_compute. discriminate.
Defined.

(** A ring in which every node holds version 7 of the record of the peer. *)
Definition world7 : RecordWorld :=
  mkWorld (ideal_cluster test_members) (set_to_map (fun n => (n, test_store7)) test_members) (test_clock 200).

Lemma world7_state o : o ∈ test_members -> record_state o world7 = test_store7.
Proof.
  intros Ho. unfold record_state. cbn [world7 rw_records].
  assert ((set_to_map (fun n => (n, test_store7)) test_members : gmap NodeID RecordState) !! o = Some test_store7) as ->; [|done].
  apply lookup_set_to_map; [done|]. by exists o.
Qed.

Lemma publishable_test address groups : publishable test_peer address groups.
Proof.
  intros v. eexists _, _. split; [reflexivity|]. split; [reflexivity|].
  eapply (peer_class test_key v address groups); [done|apply test_id_nonzero|reflexivity|reflexivity].
Qed.

Definition restarted : PublicDring (HD := MemStore.deps) := NewPublicDring test_peer.

Lemma republish_after_restart_witness :
  exists p' w' r, PublishSelf (HN := world_env (test_id x0a)) (HR := record_env (test_id x0a)) Background (restarted, world7) =
      ((p', w'), Ok tt) /\ p'.(pu_version) = 8 /\
    LookupPeer (HN := world_env (test_id x64)) (HR := record_env (test_id x64)) Background (ID test_peer)
      (rw_set_clock (test_clock 5000) w') = (rw_set_clock (test_clock 5000) w', Ok r).
Proof.
  pose proof (ideal_cluster_dom test_members) as Hdom.
  destruct (test_world_owner (ID test_peer)) as (o & Ho & _).
  pose proof (world7_state o (proj1 Ho)) as Hrs.
  destruct (republish_after_restart (HD := MemStore.deps) world7 (test_id x0a) o test_key restarted (test_peer_bytes 7)
    (test_peer_record 7)) as (p' & w' & r & Hpub & Hv & _ & _ & Hget).
  - apply test_world_calm.
  - exact (eq_ind_r (fun R => _ ∈ R) (proj1 test_members_in) Hdom).
  - exact (eq_ind_r (fun R => key_owner R _ o) Ho Hdom).
  - reflexivity.
  - reflexivity.
  - reflexivity.
  - apply publishable_test.
  - refine (eq_ind_r (fun st => localRecordGet (test_clock 200) (ID test_peer) st = Ok (test_peer_bytes 7)) _ Hrs).
    vm_compute. reflexivity.
  - refine (eq_ind_r (fun st => providerEntryTimes st !! ID test_peer = None) _ Hrs). vm_compute. reflexivity.
  - vm_compute. reflexivity.
  - vm_compute. reflexivity.
  - vm_compute. reflexivity.
  - vm_compute. split; [discriminate|reflexivity].
  - exists p', w', r. split; [exact Hpub|]. split; [exact Hv|]. apply Hget.
    + exact (eq_ind_r (fun R => _ ∈ R) (proj2 test_members_in) Hdom).
    + refine (eq_ind_r (fun st => time_sub 5000 200 <= rs_peerTTL st) _ Hrs). vm_compute. discriminate.
Defined.

Definition no_files : Disk := mkDisk ∅ ∅.
Definition joiner : PrivateDring := mkPrivate test_group (test_id x0a) "cache".

Lemma group_update_is_visible_witness :
  exists w' d', run (UpdateGroupRecord (HN := world_env (test_id x0a)) (HR := record_env (test_id x0a)) joiner (fun _ w => w) Background)
      (test_world, no_files) = ((w', d'), Ok tt) /\
    loadCachedGroupRecord joiner d' = Ok (test_group_record 1) /\
    LookupGroup (HN := world_env (test_id x64)) (HR := record_env (test_id x64)) Background (g_GroupID test_group)
      (rw_set_clock (test_clock 5000) w') = (rw_set_clock (test_clock 5000) w', Ok (test_group_record 1)).
Proof.
  pose proof (ideal_cluster_dom test_members) as Hdom.
  destruct (test_world_owner (g_GroupID test_group)) as (o & Ho & Hrs).
  assert (group_seen joiner (test_clock 100) (record_state o test_world) no_files = (0, [])) as Hseen.
  { refine (eq_ind_r (fun st => group_seen joiner (test_clock 100) st no_files = (0, [])) _ Hrs). vm_compute. reflexivity. }
  destruct (group_update_is_visible test_world no_files (test_id x0a) o test_hmac test_key "cache" (fun _ w => w)
    (test_group_record 1) (test_group_bytes 1)) as (w' & d' & Hup & _ & Hload & Hget).
  - apply test_world_calm.
  - exact (eq_ind_r (fun R => _ ∈ R) (proj1 test_members_in) Hdom).
  - exact (eq_ind_r (fun R => key_owner R _ o) Ho Hdom).
  - reflexivity.
  - refine (eq_ind_r (fun x => NewGroupIdentityRecord test_group (wrapu64 (x.1 + 1)) (with_member (test_id x0a) x.2) = _) _ Hseen).
    vm_compute. reflexivity.
  - reflexivity.
  - vm_compute. reflexivity.
  - refine (eq_ind_r (fun x => newer_stored 100 (g_GroupID test_group) (wrapu64 (x.1 + 1)) (record_state o test_world) = None) _ Hseen).
    refine (eq_ind_r (fun st => newer_stored 100 (g_GroupID test_group) _ st = None) _ Hrs). vm_compute. reflexivity.
  - refine (eq_ind_r (fun st => providerEntryTimes st !! g_GroupID test_group = None) _ Hrs). vm_compute. reflexivity.
  - discriminate.
  - apply not_elem_of_empty.
  - exists w', d'. split; [exact Hup|]. split; [exact Hload|]. apply Hget.
    + exact (eq_ind_r (fun R => _ ∈ R) (proj2 test_members_in) Hdom).
    + refine (eq_ind_r (fun st => time_sub 5000 100 <= rs_groupTTL st) _ Hrs). vm_compute. discriminate.
Defined.

Import PlacementExample.

(** Nobody has published the record of the group, so nothing is joined. *)
Lemma join_ends_in_a_ring_witness :
  let '((_, v'), res) := JoinViaPublicDring (HN := world_env (test_id x0a)) (HR := record_env (test_id x0a))
      (HV := routing_env (test_id x0a)) (HB := block_env (test_id x0a)) joiner Background (test_world, empty_ring test_members) in
  match (LookupGroup (HN := world_env (test_id x0a)) (HR := record_env (test_id x0a)) Background (g_GroupID test_group) test_world).2 with
  | Err _ => exists e, res = Err e /\ v' = empty_ring test_members
  | Ok _ => True
  end.
Proof.
  pose proof (join_ends_in_a_ring (HN := world_env (test_id x0a)) (HR := record_env (test_id x0a))
    (HV := routing_env (test_id x0a)) (HB := block_env (test_id x0a)) joiner
    (fun r v => f_equal (default _) (lookup_insert_eq (cl_nodes (bw_cluster v)) (test_id x0a) r))
    Background test_world (empty_ring test_members)) as H.
  destruct (JoinViaPublicDring joiner Background (test_world, empty_ring test_members)) as [[w' v'] res].
  destruct (LookupGroup Background (g_GroupID test_group) test_world) as [w1 [rec|e]] eqn:Hl; [exact I|].
  cbn [joiner pv_grp] in H. rewrite Hl in H. exact H.
Defined.

End GroupExample.
