(* ===== verification/GroupUpdates.v ===== *)
(** * Concurrent changes of a member list (src/dht/private.go)

    The members of a group add themselves to its record and remove themselves with
    [UpdateGroupRecord] and [removeFromGroupRecord]: each reads the list, publishes it with the next
    version, and tries again when another publication came first. Here any number of members run these
    programs in one pool, on one ring, with a disk each. A lookup or a publication is one action: the
    owner of the record reads it, or compares versions and stores, under one lock, and on a
    stabilized ring that works the way to the owner is always the same. *)

From stdpp Require Import base gmap list strings.
From Stdlib Require Import ZArith Lia Strings.Byte.
From S2P Require Import Prelude Hoare Interleave Hex Chord Routing Lookup Cluster Sha1 Identity Records TestCodec RecordStore RecordNet Auth Groups.

Set Default Goal Selector "!".
Local Open Scope Z_scope.

Section Concurrent.
Context `{HW : WireCodec} `{HE : Ed25519} `{HWL : !WireCodecLaws} `{HEL : !Ed25519Laws}.
Context (hmac : bytes -> bytes -> bytes) (priv : bytes) (t0 window : Z) (R : gset NodeID) (o : NodeID) (path : NodeID -> string).
Abbreviation grp := (NewGroupIdentity hmac priv).
Abbreviation gid := (g_GroupID (NewGroupIdentity hmac priv)).

(** ** The pool *)

(** What a member can run, and what it knows of its membership after an operation has returned. *)
Inductive group_op := GUpdate | GRemove.

Definition ring_of (i : NodeID) : PrivateDring := mkPrivate grp i (path i).

Definition group_start (i : NodeID) (op : group_op) : prog (RecordWorld * Disk) unit :=
  match op with
  | GUpdate => UpdateGroupRecord (HN := world_env i) (HR := record_env i) (ring_of i) (fun _ w => w) Background
  | GRemove => removeFromGroupRecord (HN := world_env i) (HR := record_env i) (ring_of i) (fun _ w => w) Background
  end.

Definition group_next (op : group_op) (listed : bool) (r : result unit) : bool :=
  match r with
  | Ok _ => match op with GUpdate => true | GRemove => false end
  | Err _ => listed
  end.

Definition in_window (clk : clock) : Prop := t0 <= clk.(clk_now) <= t0 + window.

(** Time passes between the actions, within the window. *)
Definition tick (w w' : RecordWorld) : Prop := exists clk, in_window clk /\ w' = rw_set_clock clk w.

Definition group_step := pool_step group_start group_next tick (fun i => i ∈ R).

(** ** What the owner holds *)

Context (Hlen : length priv = PrivateKeySize) (Hgid : gid <> zeroID) (Hwin : 0 <= window < 2 ^ 63).
Context (Hclass : forall v peers r data, NewGroupIdentityRecord grp v peers = Ok r ->
  GroupIdentityRecord_Encode r = Ok data -> classifyRecord data = recGroup).

(** The owner holds version [v] of the record with the members [ms], for the whole window. *)
Record holds_group (v : Z) (ms : list NodeID) (st : RecordState) : Prop := {
  hg_raw : exists raw rec m, st.(records) !! gid = Some raw /\ st.(recordsMeta) !! gid = Some m /\
    DecodeGroupIdentityRecord raw = Ok rec /\ GroupIdentityRecord_Verify rec = Ok tt /\
    rec.(gir_Data) = mkGroupData gid v ms /\ classifyRecord raw = recGroup /\ t0 <= m.(storedAt) /\ window <= m.(ttl);
  hg_version : 0 <= v < 2 ^ 64
}.

Record store_ready (st : RecordState) : Prop := {
  sy_times : st.(providerEntryTimes) !! gid = None;
  sy_ttl : window <= st.(rs_groupTTL)
}.

Lemma extract_group data rec :
  classifyRecord data = recGroup -> DecodeGroupIdentityRecord data = Ok rec -> rec.(gir_Data).(gd_GroupID) = gid ->
  extractRecordVersion data = rec.(gir_Data).(gd_Version).
Proof.
  intros Hc Hd Hg. unfold extractRecordVersion. rewrite Hd.
  assert (Equal (gd_GroupID (gir_Data rec)) zeroID = false) as -> by (rewrite Hg; by apply Equal_false).
  unfold classifyRecord in Hc. destruct (is_provider data); [done|]. destruct (is_provider_list data); [done|].
  unfold DecodePeerIdentityRecord. destruct (unmarshalSigned data) as [pb|e]; [|done].
  destruct (_ && _); [|done]. destruct (cborUnmarshalPeer (sr_Data pb)) as [pd|e]; [|done]. cbn [pir_Data].
  by destruct (Equal (pd_PeerID pd) zeroID).
Qed.

Lemma holds_group_read v ms st clk :
  holds_group v ms st -> store_ready st -> in_window clk ->
  exists rec, group_on_ring clk gid st = Ok rec /\ rec.(gir_Data) = mkGroupData gid v ms.
Proof.
  intros [(raw & rec & m & Hraw & Hm & Hdec & Hver & Hdata & _ & Hat & Httl) _] [Htimes _] Hclk.
  exists rec. split; [|done]. unfold group_on_ring, localRecordGet. rewrite Hraw, Htimes. unfold meta_of. rewrite Hm. cbn [default].
  rewrite (not_expired m _ t0 window) by (unfold in_window in Hclk; lia). unfold mbind, result_bind. by rewrite Hdec, Hver.
Qed.

Lemma put_group clk i n ms r data st st' res :
  in_window clk -> 0 <= n < 2 ^ 64 -> store_ready st ->
  NewGroupIdentityRecord grp n ms = Ok r -> GroupIdentityRecord_Encode r = Ok data ->
  storeRecord clk gid data i st = (st', res) ->
  match res with
  | Ok _ => newer_stored clk.(clk_now) gid n st = None /\ holds_group n ms st' /\ store_ready st'
  | Err _ => st' = st
  end.
Proof.
  intros Hclk Hn [Htimes Httl] Hnew Henc Hstore. pose proof (Hclass _ _ _ _ Hnew Henc) as Hc.
  destruct (group_record_verifies hmac priv _ _ r data Hlen Hnew Henc) as (Hdec & Hver & Hdata).
  rewrite storeRecord_signed in Hstore by by rewrite Hc. unfold storeSignedRecord in Hstore. rewrite Hc in Hstore.
  assert (checked_version data recGroup = Ok n) as Hv by (apply checked_version_Ok; exact (authentic_group _ _ _ Hdec Hver Hdata)).
  rewrite Hv in Hstore. destruct (newer_stored _ _ _ _); injection Hstore as <- <-; [done|]. split; [done|]. split.
  - split; [|done]. eexists data, r, _. cbn [put_record upd_records records recordsMeta]. rewrite !lookup_insert_eq.
    split_and!; [done..| |]; cbn [storedAt ttl ttlForType]; [unfold in_window in Hclk; lia|done].
  - done.
Qed.

Lemma newer_than_held clk v ms n st :
  holds_group v ms st -> in_window clk -> newer_stored clk.(clk_now) gid n st = None -> v < n.
Proof.
  intros [(raw & rec & m & Hraw & Hm & Hdec & Hver & Hdata & Hc & Hat & Httl) _] Hclk Hns.
  pose proof (newer_stored_None clk.(clk_now) gid n st) as Hnone. apply proj1 in Hnone. specialize (Hnone Hns raw Hraw).
  unfold meta_of in Hnone. rewrite Hm in Hnone. cbn [default] in Hnone.
  rewrite (not_expired m _ t0 window) in Hnone by (unfold in_window in Hclk; lia).
  rewrite (extract_group raw rec) in Hnone by (done || by rewrite Hdata). rewrite Hdata in Hnone. by apply Hnone.
Qed.

(** ** The ring as the members see it *)

Definition held (w : RecordWorld) : option (Z * list NodeID) :=
  match group_on_ring w.(rw_clock) gid (record_state o w) with
  | Ok rec => Some (rec.(gir_Data).(gd_Version), rec.(gir_Data).(gd_Peers))
  | Err _ => None
  end.

(** The ring is calm, and its owner of the record has none, or one that lives through the window. *)
Record group_world (w : RecordWorld) : Prop := {
  gw_calm : calm w;
  gw_members : dom w.(rw_cluster).(cl_nodes) = R;
  gw_clock : in_window w.(rw_clock);
  gw_ready : store_ready (record_state o w);
  gw_held : (record_state o w).(records) !! gid = None \/ exists v ms, holds_group v ms (record_state o w)
}.

Lemma held_absent w : (record_state o w).(records) !! gid = None -> held w = None.
Proof. intros Hn. unfold held, group_on_ring, localRecordGet. by rewrite Hn. Qed.

Lemma held_present w v ms :
  in_window w.(rw_clock) -> store_ready (record_state o w) -> holds_group v ms (record_state o w) -> held w = Some (v, ms).
Proof. intros Hc Hr Hh. unfold held. destruct (holds_group_read v ms _ w.(rw_clock) Hh Hr Hc) as (rec & -> & Hd). by rewrite Hd. Qed.

Lemma held_spec w : group_world w ->
  match held w with
  | Some (v, ms) => holds_group v ms (record_state o w)
  | None => (record_state o w).(records) !! gid = None
  end.
Proof.
  intros [_ _ Hc Hr [Hn|(v & ms & Hh)]]; [by rewrite held_absent|]. by rewrite (held_present w v ms).
Qed.

Definition listed (i : NodeID) (w : RecordWorld) : Prop := exists v ms, held w = Some (v, ms) /\ i ∈ ms.

(** Versions grow, and a version stands for one list. *)
Definition later (w w' : RecordWorld) : Prop :=
  match held w, held w' with
  | Some (v, ms), Some (v', ms') => v <= v' /\ (v = v' -> ms = ms')
  | Some _, None => False
  | None, Some (v', _) => 0 < v'
  | None, None => True
  end.

Lemma later_refl w : later w w.
Proof. unfold later. destruct (held w) as [[v ms]|]; [|done]. split; [lia|done]. Qed.

Lemma later_trans w1 w2 w3 : later w1 w2 -> later w2 w3 -> later w1 w3.
Proof.
  unfold later. destruct (held w1) as [[v1 ms1]|], (held w2) as [[v2 ms2]|], (held w3) as [[v3 ms3]|]; try done; [|lia].
  intros [H1 H2] [H3 H4]. split; [lia|]. intros ->. rewrite H2, H4 by lia. done.
Qed.

Lemma held_eq_later w w' : held w' = held w -> later w w' /\ forall j, listed j w <-> listed j w'.
Proof.
  intros He. split; [|intros j; unfold listed; by rewrite He]. pose proof (later_refl w). unfold later in *. by rewrite He.
Qed.

(** ** What the members expect and promise *)

Definition rely (i : NodeID) (s s' : RecordWorld * Disk) : Prop :=
  s'.2 = s.2 /\ (group_world s.1 -> group_world s'.1 /\ later s.1 s'.1 /\ (listed i s.1 <-> listed i s'.1)).

Definition guar (i : NodeID) (s s' : RecordWorld * Disk) : Prop :=
  group_world s.1 -> group_world s'.1 /\ later s.1 s'.1 /\ forall j, j <> i -> (listed j s.1 <-> listed j s'.1).

(** Between operations a member is listed as it knows, and has a copy on disk only if the ring has
    the record. *)
Definition settled (i : NodeID) (x : bool) (s : RecordWorld * Disk) : Prop :=
  group_world s.1 /\ (held s.1 = None -> exists e, loadCachedGroupRecord (ring_of i) s.2 = Err e) /\ (listed i s.1 <-> x = true).

Lemma rely_refl i s : rely i s s.
Proof. split; [done|]. intros Hw. split_and!; [done|apply later_refl|done..]. Qed.

Lemma rely_trans i s1 s2 s3 : rely i s1 s2 -> rely i s2 s3 -> rely i s1 s3.
Proof.
  intros [Hd1 H1] [Hd2 H2]. split; [congruence|]. intros Hw. destruct (H1 Hw) as (Hw2 & Hl1 & Hi1).
  destruct (H2 Hw2) as (Hw3 & Hl2 & Hi2). split_and!; [done|by eapply later_trans|tauto..].
Qed.

Lemma settled_rely i x s s' : settled i x s -> rely i s s' -> settled i x s'.
Proof.
  intros (Hw & Hd & Hx) [Hd' Hr]. destruct (Hr Hw) as (Hw' & Hl & Hi). split_and!; [done| |tauto].
  rewrite Hd'. intros Hn. apply Hd. unfold later in Hl. rewrite Hn in Hl. by destruct (held s.1) as [[??]|].
Qed.

Lemma guar_rely i j g l g' l' lj : guar i (g, l) (g', l') -> j <> i -> rely j (g, lj) (g', lj).
Proof. intros Hg Hne. split; [done|]. intros Hw. destruct (Hg Hw) as (Hw' & Hl & Hall). exact (conj Hw' (conj Hl (Hall j Hne))). Qed.

Lemma tick_rely j g g' (lj : Disk) : tick g g' -> rely j (g, lj) (g', lj).
Proof.
  intros (clk & Hclk & ->). split; [done|]. intros Hw. cbn [fst] in *.
  assert (group_world (rw_set_clock clk g)) as Hw' by (destruct Hw as [H1 H2 H3 H4 H5]; by split).
  assert (held (rw_set_clock clk g) = held g) as He.
  { destruct (gw_held g Hw) as [Hn|(v & ms & Hh)]; [by rewrite !held_absent|].
    rewrite (held_present g v ms), (held_present (rw_set_clock clk g) v ms); [done|..]; done || apply Hw || apply Hw'. }
  destruct (held_eq_later g (rw_set_clock clk g) He) as [Hl Hj]. exact (conj Hw' (conj Hl (Hj j))).
Qed.

Lemma guar_refl i s s' : s'.1 = s.1 -> guar i s s'.
Proof. intros He Hw. rewrite He. split_and!; [done|apply later_refl|done..]. Qed.

(** ** The actions *)

Context (Howner : key_owner R gid o).

(** A member that has read [c] may still find the ring as it was, or changed with a higher version. *)
Definition read_ok (c : Z * list NodeID) (w : RecordWorld) : Prop :=
  0 <= c.1 < 2 ^ 64 /\
  match held w with
  | Some (v, ms) => c.1 <= v /\ (c.1 = v -> c.2 = ms)
  | None => c = (0, [])
  end.

Definition peers_on_ring (w : RecordWorld) : list NodeID := match held w with Some (_, ms) => ms | None => [] end.

Lemma listed_peers j w : listed j w <-> j ∈ peers_on_ring w.
Proof. unfold listed, peers_on_ring. destruct (held w) as [[v ms]|]; set_solver. Qed.

Lemma read_ok_later c w w' : read_ok c w -> later w w' -> read_ok c w'.
Proof.
  unfold read_ok, later. intros [Hr Hc] Hl. split; [done|]. destruct (held w) as [[v ms]|], (held w') as [[v' ms']|]; try done.
  - destruct Hc as [Hc1 Hc2], Hl as [Hl1 Hl2]. split; [lia|]. intros He. rewrite Hc2, Hl2 by lia. done.
  - subst c. cbn. split; [lia|]. intros <-. lia.
Qed.

Lemma read_ok_now w c : group_world w -> held w = Some c -> read_ok c w.
Proof.
  intros Hw He. pose proof (held_spec w Hw) as Hh. unfold read_ok. rewrite He in *. destruct c as [v ms].
  split; [exact (hg_version _ _ _ Hh)|done].
Qed.

Lemma lookup_on_ring i w : i ∈ R -> group_world w ->
  exists r, LookupGroup (HN := world_env i) (HR := record_env i) Background gid w = (w, r) /\
    match r with
    | Ok rec => held w = Some (rec.(gir_Data).(gd_Version), rec.(gir_Data).(gd_Peers))
    | Err _ => held w = None
    end.
Proof.
  intros Hi [[Hst Hlinks] HR _ _ _]. unfold LookupGroup, held, group_on_ring, mbind, M_bind, m_bind, m_wrap, m_lift, result_bind.
  rewrite (RecordGet_owner w i o) by (done || by rewrite HR). destruct (localRecordGet _ _ _) as [raw|e]; [|by eexists].
  destruct (DecodeGroupIdentityRecord raw) as [rec|e]; [|by eexists].
  destruct (GroupIdentityRecord_Verify rec) as [[]|e]; by eexists.
Qed.

(** A ring whose owner's records have changed. *)
Lemma group_world_after w w' st :
  group_world w -> owner_holds w.(rw_cluster) o st w.(rw_clock) w' -> store_ready st ->
  (st.(records) !! gid = None \/ exists v ms, holds_group v ms st) -> group_world w'.
Proof.
  intros [Hcalm HR Hc _ _] (Hcl & Hst & Hclk) Hr Hh. split; [by unfold calm; rewrite Hcl|by rewrite Hcl|by rewrite Hclk|by rewrite Hst..].
Qed.

Lemma owner_same_held w w' : owner_holds w.(rw_cluster) o (record_state o w) w.(rw_clock) w' -> held w' = held w.
Proof. intros (_ & Hst & Hclk). unfold held. by rewrite Hst, Hclk. Qed.

(** What a publication of the version after the one read does, for a change [f] of the list. *)
Definition published (f : list NodeID -> list NodeID) (w w' : RecordWorld) (res : result unit) : Prop :=
  group_world w' /\ later w w' /\
  match res with
  | Ok _ => exists n, held w' = Some (n, f (peers_on_ring w))
  | Err _ => held w' = held w
  end.

Lemma next_version c w n :
  read_ok c w -> n = wrapu64 (c.1 + 1) -> (forall v ms, held w = Some (v, ms) -> v < n) ->
  c.2 = peers_on_ring w /\ 0 < n /\ forall v ms, held w = Some (v, ms) -> v < n.
Proof.
  intros [Hr Hc] Hn Hnew. assert (n <= c.1 + 1) as Hle by (subst n; apply Z.mod_le; lia).
  unfold peers_on_ring. destruct (held w) as [[v ms]|].
  - pose proof (Hnew v ms eq_refl). destruct Hc as [Hc1 Hc2]. split_and!; [by apply Hc2; lia|lia|done].
  - subst c. split_and!; [done| |done]. subst n. done.
Qed.

Lemma publish_spec f i c w w' res :
  i ∈ R -> group_world w -> read_ok c w ->
  PublishGroup (HN := world_env i) (HR := record_env i) Background grp (wrapu64 (c.1 + 1)) (f c.2) w = (w', res) ->
  published f w w' res.
Proof.
  intros Hi Hw Hread Hpub. pose proof Hw as [[Hst Hlinks] HR Hclk Hready Hheld]. set (n := wrapu64 (c.1 + 1)) in *.
  assert (0 <= n < 2 ^ 64) as Hrange by (apply Z.mod_pos_bound; lia).
  assert (published f w w (Err (errorf ""))) as Hsame.
  { split_and!; [done|apply later_refl|done]. }
  unfold PublishGroup, mbind, M_bind, m_bind, m_wrap, m_lift in Hpub.
  destruct (NewGroupIdentityRecord grp n (f c.2)) as [r|e] eqn:Hnew; [|by injection Hpub as <- <-].
  destruct (GroupIdentityRecord_Encode r) as [data|e] eqn:Henc; [|by injection Hpub as <- <-].
  destruct (storeRecord (rw_clock w) gid data i (record_state o w)) as [st' [[]|e]] eqn:Hstore;
    pose proof (put_group _ i _ _ r data _ _ _ Hclk Hrange Hready Hnew Henc Hstore) as Hput; cbn match in Hput.
  - destruct Hput as (Hns & Hh' & Hready').
    destruct (RecordPut_owner w i o gid data st' Hst Hlinks) as (w2 & Hput & Hown); [by rewrite HR|by rewrite HR|done|].
    rewrite Hput in Hpub. injection Hpub as <- <-.
    assert (group_world w2) as Hw2 by (eapply group_world_after; eauto).
    assert (held w2 = Some (n, f c.2)) as Hheld2.
    { destruct Hown as (_ & Hs2 & _). apply held_present; [apply Hw2|by rewrite Hs2..]. }
    destruct (next_version c w n Hread eq_refl) as (Hc & Hpos & Hlt).
    { intros v ms He. pose proof (held_spec w Hw) as Hh. rewrite He in Hh. by eapply newer_than_held. }
    split; [done|]. split; [|exists n; by rewrite <- Hc]. unfold later. rewrite Hheld2.
    destruct (held w) as [[v ms]|]; [|done]. pose proof (Hlt v ms eq_refl). split; [lia|intros ->; lia].
  - subst st'. destruct (RecordPut_refused w i o gid data e Hst Hlinks) as (w2 & Hput & Hown); [by rewrite HR|by rewrite HR|done|].
    rewrite Hput in Hpub. injection Hpub as <- <-. pose proof (owner_same_held w w2 Hown) as He.
    split_and!; [by eapply group_world_after|by apply held_eq_later|done].
Qed.

(** ** The programs *)

Abbreviation Update i := (update_attempts (HN := world_env i) (HR := record_env i) (ring_of i) (fun _ w => w) Background).
Abbreviation Remove i := (remove_attempts (HN := world_env i) (HR := record_env i) (ring_of i) (fun _ w => w) Background).

(** An action that changes nothing on the ring. *)
Lemma safe_look {A} i (m : M (RecordWorld * Disk) A) Q s :
  (forall s', rely i s s' -> (m s').1.1 = s'.1 /\ forall s'', rely i (m s').1 s'' -> Q (m s').2 s'') -> safe (rely i) (guar i) (atomic m) Q s.
Proof. intros Hm. apply safe_atomic. intros s' Hs'. destruct (Hm s' Hs') as [He HQ]. split; [by apply guar_refl|done]. Qed.

Lemma safe_pause {A} i attempt (k : unit -> prog (RecordWorld * Disk) A) Q x s :
  settled i x s -> (forall s', settled i x s' -> safe (rely i) (guar i) (k tt) Q s') ->
  safe (rely i) (guar i) (p_bind (atomic (on_net (pause (fun _ w => w) Background attempt))) k) Q s.
Proof.
  intros Hs Hk. apply (safe_bind (rely i) (guar i) (rely_refl i)). apply safe_look. intros [w d] Hs'.
  replace (on_net _ (w, d)) with ((w, d), Ok tt : result unit) by by destruct attempt.
  split; [done|]. intros s'' Hs''. apply Hk. eapply settled_rely; [|exact Hs'']. by eapply settled_rely.
Qed.

Lemma current_safe i x s : i ∈ R -> settled i x s ->
  safe (rely i) (guar i) (current_group (HN := world_env i) (HR := record_env i) (ring_of i) Background)
    (fun r s' => settled i x s' /\ exists c, r = Ok c /\ read_ok c s'.1) s.
Proof.
  intros Hi Hs. apply (safe_bind (rely i) (guar i) (rely_refl i)). apply safe_look. intros [w d] Hs'. pose proof (settled_rely _ _ _ _ Hs Hs') as Hset.
  destruct (lookup_on_ring i w Hi (proj1 Hset)) as (r & Hlook & Hheld).
  unfold m_try, on_net. cbn [fst snd ring_of pv_grp]. rewrite Hlook. split; [done|]. cbn [fst snd].
  intros s1 Hs1. pose proof (settled_rely _ _ _ _ Hset Hs1) as Hset1. destruct r as [rec|e].
  - intros s2 Hs2. split; [by eapply settled_rely|]. eexists. split; [done|].
    pose proof (rely_trans _ _ _ _ Hs1 Hs2) as [_ H12]. destruct (H12 (proj1 Hset)) as (_ & Hl & _).
    eapply read_ok_later; [|exact Hl]. by apply read_ok_now; [apply Hset|].
  - apply (safe_bind (rely i) (guar i) (rely_refl i)). apply safe_look. intros [w2 d2] Hs2. unfold on_disk. cbn [fst snd]. split; [done|].
    assert (d2 = d) as -> by (destruct Hs1 as [H1 _], Hs2 as [H2 _]; cbn in *; congruence).
    destruct (proj1 (proj2 Hset) Hheld) as [e' Hcached]. cbn [snd] in Hcached. rewrite Hcached. intros s3 Hs3 s4 Hs4.
    pose proof (rely_trans _ _ _ _ Hs1 (rely_trans _ _ _ _ Hs2 (rely_trans _ _ _ _ Hs3 Hs4))) as Hall.
    split; [exact (settled_rely _ _ _ _ Hset Hall)|]. exists (0, []). split; [done|].
    destruct (proj2 Hall (proj1 Hset)) as (_ & Hl & _). eapply read_ok_later; [|exact Hl]. unfold read_ok. cbn [fst]. rewrite Hheld. split; [cbn; lia|done].
Qed.

(** A change of the list that is about member [i] only. *)
Definition only_about (i : NodeID) (f : list NodeID -> list NodeID) : Prop := forall j ms, j <> i -> (j ∈ f ms <-> j ∈ ms).

Lemma published_step f i x w w' d res :
  only_about i f -> settled i x (w, d) -> published f w w' res ->
  guar i (w, d) (w', d) /\
  match res with
  | Ok _ => forall d' y, (i ∈ f (peers_on_ring w) <-> y = true) -> settled i y (w', d')
  | Err _ => settled i x (w', d)
  end.
Proof.
  intros Hf (Hw & Hd & Hx) (Hw' & Hl & Hres). cbn [fst snd] in *. destruct res as [u|e].
  - destruct Hres as [n Hn]. assert (peers_on_ring w' = f (peers_on_ring w)) as Hp by (unfold peers_on_ring at 1; by rewrite Hn). split.
    + intros _. split; [done|]. split; [done|]. intros j Hj. cbn [fst]. rewrite !listed_peers, Hp. symmetry. by apply Hf.
    + intros d' y Hy. split; [done|]. split; cbn [fst]; [by rewrite Hn|]. by rewrite listed_peers, Hp.
  - destruct (held_eq_later w w' Hres) as [_ Hj]. split.
    + intros _. split; [done|]. split; [done|]. intros j _. apply Hj.
    + split; [done|]. split; cbn [fst]; [by rewrite Hres|]. by rewrite <- Hj.
Qed.

Lemma in_without j i ms : j ∈ without_member i ms <-> j <> i /\ j ∈ ms.
Proof.
  unfold without_member, filterb. rewrite list_elem_of_filter, Is_true_true, negb_true_iff. by rewrite Equal_false.
Qed.

Lemma in_with j i ms : j ∈ with_member i ms <-> j = i \/ j ∈ ms.
Proof. unfold with_member. rewrite elem_of_app, in_without, list_elem_of_singleton. destruct (decide (j = i)); tauto. Qed.

Lemma with_about i : only_about i (with_member i).
Proof. intros j ms Hj. rewrite in_with. tauto. Qed.

Lemma without_about i : only_about i (without_member i).
Proof. intros j ms Hj. rewrite in_without. tauto. Qed.

(** Publishing, and what follows. *)
Lemma safe_publish {A} f i x c (k : result unit -> prog (RecordWorld * Disk) A) Q s :
  i ∈ R -> only_about i f -> settled i x s -> read_ok c s.1 ->
  (forall e s', settled i x s' -> safe (rely i) (guar i) (k (Err e)) Q s') ->
  (forall s', (forall d' y, (i ∈ f [] <-> y = true) -> (forall ms, i ∈ f ms <-> i ∈ f []) -> settled i y (s'.1, d')) ->
     safe (rely i) (guar i) (k (Ok tt)) Q s') ->
  safe (rely i) (guar i)
    (p_bind (atomic (m_try (on_net (PublishGroup (HN := world_env i) (HR := record_env i) Background grp (wrapu64 (c.1 + 1)) (f c.2))))) k) Q s.
Proof.
  intros Hi Hf Hs Hc Herr Hok. apply (safe_bind (rely i) (guar i) (rely_refl i)). apply safe_atomic. intros [w d] Hs'.
  pose proof (settled_rely _ _ _ _ Hs Hs') as Hset. destruct (proj2 Hs' (proj1 Hs)) as (Hw & Hl & _). cbn [fst snd] in *.
  unfold m_try, on_net. cbn [fst snd].
  destruct (PublishGroup Background grp (wrapu64 (c.1 + 1)) (f c.2) w) as [w' res] eqn:Hpub. cbn [fst snd].
  pose proof (publish_spec f i c w w' res Hi Hw (read_ok_later _ _ _ Hc Hl) Hpub) as Hp.
  destruct (published_step f i x w w' d res Hf Hset Hp) as [Hg Hres]. split; [done|]. intros s'' Hs''. destruct res as [[]|e].
  - apply Hok. intros d' y Hy Hall. eapply (settled_rely _ _ (w', d')); [apply Hres; by rewrite Hall|].
    split; [done|]. exact (proj2 Hs'').
  - apply Herr. by eapply settled_rely.
Qed.

Lemma update_safe i x left attempt s : i ∈ R -> settled i x s ->
  safe (rely i) (guar i) (Update i left attempt) (fun r => settled i (group_next GUpdate x r)) s.
Proof.
  intros Hi. revert attempt s. induction left as [|left IH]; intros attempt s Hs; cbn [update_attempts].
  { intros s' Hs'. by eapply settled_rely. }
  eapply safe_pause; [exact Hs|]. intros s1 Hs1. apply (safe_bind (rely i) (guar i) (rely_refl i)). eapply safe_mono; [|by apply current_safe].
  intros r s2 (Hs2 & c & -> & Hc). cbn [ring_of pv_grp pv_peerID].
  apply (safe_publish (with_member i) i x c); [done|apply with_about|done|done| |].
  - intros e s3 Hs3. destruct (negb _); [|by apply IH]. intros s4 Hs4. by eapply settled_rely.
  - intros s3 Hs3. assert (forall d', settled i true (s3.1, d')) as Hin.
    { intros d'. apply Hs3; [|intros ms]; rewrite !in_with; tauto. }
    destruct (NewGroupIdentityRecord _ _ _) as [rec|e].
    + apply safe_look. intros [w d] Hs4. unfold m_ignore, on_disk. cbn [fst snd].
      destruct (cacheGroupRecord _ _ _) as [d' rr]. cbn [fst snd]. split; [done|]. intros s5 Hs5.
      eapply settled_rely; [|exact Hs5]. eapply settled_rely; [apply (Hin d')|]. split; [done|]. exact (proj2 Hs4).
    + intros s4 Hs4. eapply settled_rely; [|exact Hs4]. destruct s3. apply Hin.
Qed.

Lemma remove_safe i x left attempt s : i ∈ R -> settled i x s ->
  safe (rely i) (guar i) (Remove i left attempt) (fun r => settled i (group_next GRemove x r)) s.
Proof.
  intros Hi. revert attempt s. induction left as [|left IH]; intros attempt s Hs; cbn [remove_attempts].
  { intros s' Hs'. by eapply settled_rely. }
  eapply safe_pause; [exact Hs|]. intros s1 Hs1. apply (safe_bind (rely i) (guar i) (rely_refl i)). apply safe_look. intros [w d] Hs2.
  pose proof (settled_rely _ _ _ _ Hs1 Hs2) as Hset. destruct (lookup_on_ring i w Hi (proj1 Hset)) as (r & Hlook & Hheld).
  unfold on_net at 1 2 3, m_wrap. cbn [fst snd ring_of pv_grp pv_peerID]. rewrite Hlook. split; [by destruct r|].
  intros s3 Hs3. destruct r as [rec|e]; cbn [fst snd] in *; [|intros s4 Hs4; do 2 (eapply settled_rely; [|done]); done].
  pose proof (settled_rely _ _ _ _ Hset Hs3) as Hset3. destruct (proj2 Hs3 (proj1 Hset)) as (_ & Hl & _).
  apply (safe_publish (without_member i) i x (gd_Version (gir_Data rec), gd_Peers (gir_Data rec))); [done|apply without_about|done|..].
  - eapply read_ok_later; [|exact Hl]. by apply read_ok_now; [apply Hset|].
  - intros e s4 Hs4. destruct (negb _); [|by apply IH]. intros s5 Hs5. by eapply settled_rely.
  - intros s4 Hs4 s5 Hs5. eapply settled_rely; [|exact Hs5]. destruct s4. apply Hs4; [|intros ms]; rewrite !in_without; naive_solver.
Qed.

Lemma group_starts_safe i op x s : i ∈ R -> settled i x s ->
  safe (rely i) (guar i) (group_start i op) (fun r => settled i (group_next op x r)) s.
Proof. destruct op; [apply update_safe|apply remove_safe]. Qed.

Lemma group_ok_runs P P' : pool_ok group_next rely guar settled P -> star group_step P P' -> pool_ok group_next rely guar settled P'.
Proof.
  intros Hok Hrun. eapply (pool_steps_ok group_start group_next tick (fun i => i ∈ R) rely guar settled); [..|exact Hok|exact Hrun].
  - exact rely_refl.
  - exact rely_trans.
  - exact settled_rely.
  - exact group_starts_safe.
  - exact guar_rely.
  - exact tick_rely.
Qed.

Lemma group_world_runs P P' :
  pool_ok group_next rely guar settled P -> group_world P.(pl_shared) -> star group_step P P' -> group_world P'.(pl_shared).
Proof.
  intros Hok Hw Hrun. revert Hok Hw Hrun.
  apply (pool_steps_inv group_start group_next tick (fun i => i ∈ R) rely guar settled); [..|].
  - exact rely_refl.
  - exact rely_trans.
  - exact settled_rely.
  - exact group_starts_safe.
  - exact guar_rely.
  - exact tick_rely.
  - intros g g' Ht Hg. destruct (tick_rely o g g' (mkDisk ∅ ∅) Ht) as [_ H]. by apply H.
  - intros i s s' Hg Hs. by apply Hg.
Qed.

(** C30: members add themselves to the record of a group and remove themselves, any number of times
    and in any interleaving of their lookups, publications and disk accesses, with time passing in
    between. At every moment, a lookup by any member shows everyone who is not in the middle of an
    operation as they expect: on the list if the last of their operations that succeeded was an
    update, off it if it was a removal, and as at the start if none succeeded. No change is lost to
    another that came in between. This is for a stabilized ring whose links work, within the
    lifetime of the record, whose owner has no provider entries under the identifier of the group;
    where the ring starts without the record, no member has a copy of it on disk to recover. *)
Theorem concurrent_updates_keep_members (P P' : pool) (reader : NodeID) :
  group_world P.(pl_shared) -> P.(pl_running) = ∅ ->
  (held P.(pl_shared) = None -> forall i, exists e, loadCachedGroupRecord (ring_of i) (P.(pl_local) i) = Err e) ->
  (forall i, P.(pl_known) i = true <-> i ∈ peers_on_ring P.(pl_shared)) ->
  star group_step P P' -> reader ∈ R ->
  exists r, LookupGroup (HN := world_env reader) (HR := record_env reader) Background gid P'.(pl_shared) = (P'.(pl_shared), r) /\
    forall i, P'.(pl_running) !! i = None ->
      (P'.(pl_known) i = true <-> exists rec, r = Ok rec /\ i ∈ rec.(gir_Data).(gd_Peers)).
Proof.
  intros Hw Hidle Hdisk Hknown Hrun Hreader.
  assert (pool_ok group_next rely guar settled P) as Hok0.
  { intros i. rewrite Hidle, lookup_empty. cbn [thread_ok]. split; [done|]. split; [by auto|]. cbn [fst].
    by rewrite listed_peers, Hknown. }
  pose proof (group_ok_runs P P' Hok0 Hrun) as Hok.
  assert (group_world P'.(pl_shared)) as Hw' by exact (group_world_runs P P' Hok0 Hw Hrun).
  destruct (lookup_on_ring reader _ Hreader Hw') as (r & Hlook & Hheld). exists r. split; [done|].
  intros i Hi. specialize (Hok i). rewrite Hi in Hok. destruct Hok as (_ & _ & Hl). cbn [fst] in Hl. rewrite <- Hl. unfold listed.
  destruct r as [rec|e]; rewrite Hheld; naive_solver.
Qed.

End Concurrent.

(** ** The property applies *)

Module UpdatesExample.
Import GroupExample.

(** A ring without the record; a member joins the group and another reads the list. *)
Definition start_pool := mkPool (I := NodeID) (A := unit) (Op := group_op) test_world (fun _ => no_files) ∅ (fun _ => false).

Abbreviation test_step := (group_step test_hmac test_key 100 10000 test_members (fun _ => "cache")).

Lemma start_world o : key_owner test_members (g_GroupID test_group) o -> record_state o test_world = test_store ->
  group_world test_hmac test_key 100 10000 test_members o test_world /\ held test_hmac test_key o test_world = None.
Proof.
  intros Ho Hrs. split.
  - split.
    + apply test_world_calm.
    + apply ideal_cluster_dom.
    + unfold in_window. cbn. lia.
    + rewrite Hrs. split; [reflexivity|]. vm_compute. discriminate.
    + left. rewrite Hrs. reflexivity.
  - apply held_absent. rewrite Hrs. reflexivity.
Qed.

Lemma joined : exists P', star test_step start_pool P' /\ P'.(pl_known) (test_id x0a) = true /\ P'.(pl_running) !! test_id x0a = None.
Proof.
  pose proof (ideal_cluster_dom test_members) as Hdom. destruct (test_world_owner (g_GroupID test_group)) as (o & Ho & Hrs).
  assert (group_seen joiner (test_clock 100) (record_state o test_world) no_files = (0, [])) as Hseen.
  { rewrite Hrs. vm_compute. reflexivity. }
  destruct (published_found test_world (test_id x0a) o (g_GroupID test_group) (test_group_bytes 1) 1) as (w' & Hput & _).
  - apply test_world_calm.
  - intros a b. apply not_elem_of_empty.
  - exact (eq_ind_r (fun R => _ ∈ R) (proj1 test_members_in) Hdom).
  - exact (eq_ind_r (fun R => key_owner R _ o) Ho Hdom).
  - vm_compute. reflexivity.
  - apply checked_version_Ok. vm_compute. reflexivity.
  - rewrite Hrs. vm_compute. reflexivity.
  - rewrite Hrs. reflexivity.
  - pose proof (update_run_ok joiner (fun _ w => w) (test_id x0a) o test_world w' no_files (test_group_record 1) (test_group_bytes 1)) as Hup.
    change (rw_clock test_world) with (test_clock 100) in Hup. rewrite Hseen in Hup.
    destruct (pool_runs_alone (group_start test_hmac test_key (fun _ => "cache")) group_next (tick 100 10000) (fun i => i ∈ test_members)
      (test_id x0a) GUpdate (group_start test_hmac test_key (fun _ => "cache") (test_id x0a) GUpdate) test_world (fun _ => no_files)
      {[test_id x0a := (GUpdate, group_start test_hmac test_key (fun _ => "cache") (test_id x0a) GUpdate)]} (fun _ => false)
      w' (cacheGroupRecord joiner (test_group_record 1) no_files).1 (Ok tt)) as (l' & ps' & Hsteps & _ & Hps & _).
    + apply lookup_singleton_eq.
    + apply Hup.
      * apply test_world_calm.
      * exact (eq_ind_r (fun R => _ ∈ R) (proj1 test_members_in) Hdom).
      * exact (eq_ind_r (fun R => key_owner R _ o) Ho Hdom).
      * reflexivity.
      * reflexivity.
      * exact Hput.
    + exists (mkPool w' l' ps' (set_at (test_id x0a) true (fun _ => false))). split; [|split; [|exact Hps]].
      * eapply star_step; [|exact Hsteps]. apply PStart; [apply test_members_in|apply lookup_empty].
      * cbn [pl_known]. unfold set_at. by rewrite decide_True.
Qed.

Lemma concurrent_updates_keep_members_witness :
  exists P' rec, star test_step start_pool P' /\
    LookupGroup (HN := world_env (test_id x64)) (HR := record_env (test_id x64)) Background (g_GroupID test_group) P'.(pl_shared) =
      (P'.(pl_shared), Ok rec) /\ test_id x0a ∈ rec.(gir_Data).(gd_Peers).
Proof.
  destruct (test_world_owner (g_GroupID test_group)) as (o & Ho & Hrs). destruct (start_world o Ho Hrs) as [Hw Hheld].
  destruct joined as (P' & Hrun & Hknown & Hidle).
  destruct (concurrent_updates_keep_members test_hmac test_key 100 10000 test_members o (fun _ => "cache") eq_refl test_id_nonzero
    ltac:(lia) (group_class test_hmac) Ho start_pool P' (test_id x64)) as (r & Hlook & Hlisted).
  - exact Hw.
  - reflexivity.
  - intros _ i. eexists. reflexivity.
  - intros i. unfold peers_on_ring. cbn [start_pool pl_shared pl_known]. rewrite Hheld. split; [discriminate|]. intros Hi.
    by apply not_elem_of_nil in Hi.
  - exact Hrun.
  - apply test_members_in.
  - destruct (proj1 (Hlisted _ Hidle) Hknown) as (rec & Hr & Hin). exists P', rec. split; [exact Hrun|]. split; [|exact Hin].
    rewrite Hr in Hlook. exact Hlook.
Defined.

End UpdatesExample.
