(* ===== verification/KeyFiles.v ===== *)
(** * Keys on disk: the vault and the groups file (src/dht/vault.go, src/dht/groupconfig.go)

    The vault keeps group keys under aliases; the groups file keeps the groups the daemon joined.
    Both are JSON files that are read whole, changed and written whole. The codec is a parameter
    with the law that what was marshalled unmarshals to the same value; the files are those of
    [Identity.FileSystem]. The vault refines a map from aliases to keys that survives a reload; the
    groups file refines a map from group identifiers to configurations. *)

From stdpp Require Import base gmap list strings.
From Stdlib Require Import ZArith Lia Ascii.
From S2P Require Import Prelude Hoare Chord Sha1 Hex Identity.

Set Default Goal Selector "!".
#[local] Open Scope Z_scope.

(** ** JSON *)

Class JsonDeps (A : Type) := {
  json_MarshalIndent : A -> result string;
  json_Unmarshal : string -> result A
}.

(** A value whose strings are ASCII comes back unchanged; strings that are not UTF-8 would be
    altered by the encoder. [strings] are the strings of a value. *)
Definition ascii_text (s : string) : Prop := Forall (fun c => (Ascii.N_of_ascii c < 128)%N) (String.list_ascii_of_string s).

Class JsonLaws (A : Type) `{JsonDeps A} (strings : A -> list string) : Prop :=
  json_roundtrip a : Forall ascii_text (strings a) -> exists s, json_MarshalIndent a = Ok s /\ json_Unmarshal s = Ok a.

(** ** Files *)

(** [os.ReadFile], where [None] is the error that [os.IsNotExist] recognises, and [os.WriteFile]. *)
Definition os_ReadFile (path : string) (fs : FileSystem) : result (option string) :=
  if decide (path ∈ fs.(fs_denied)) then Err (errorf ("open " +:+ path +:+ ": permission denied"))
  else Ok (fs.(fs_files) !! path).

Definition os_WriteFile (path : string) (data : string) : M FileSystem unit := fun fs =>
  if decide (path ∈ fs.(fs_unwritable)) then (fs, Err (errorf ("open " +:+ path +:+ ": permission denied")))
  else (mkFileSystem (<[path := data]> fs.(fs_files)) fs.(fs_denied) fs.(fs_unwritable), Ok tt).

(** ** The vault *)

Record VaultEntry := mkVaultEntry { ve_Alias : string; ve_Key : string }.

Record Vault := mkVault { v_Entries : list VaultEntry; v_path : string }.

Record VaultInfo := mkVaultInfo { vi_Alias : string; vi_GroupID : string }.

#[global] Instance VaultEntry_eq_dec : EqDecision VaultEntry.
Proof. solve_decision. Defined.

Section Vaults.
Context (hmac : bytes -> bytes -> bytes) `{HJ : JsonDeps (list VaultEntry)}.

Definition LoadVault (path : string) (fs : FileSystem) : result Vault :=
  match os_ReadFile path fs with
  | Err e => Err e
  | Ok None => Ok (mkVault [] path)
  | Ok (Some data) =>
      match json_Unmarshal data with
      | Err e => Err (errorf_w ("parse vault " +:+ path +:+ ": ") e "")
      | Ok entries => Ok (mkVault entries path)
      end
  end.

(** The operations change the vault in memory and then the file. *)
Definition save : M (Vault * FileSystem) unit := fun '(v, fs) =>
  match json_MarshalIndent v.(v_Entries) with
  | Err e => ((v, fs), Err e)
  | Ok data => let '(fs', r) := os_WriteFile v.(v_path) data fs in ((v, fs'), r)
  end.

Definition set_entries (l : list VaultEntry) : M (Vault * FileSystem) unit := fun '(v, fs) => ((mkVault l v.(v_path), fs), Ok tt).

(** The first entry with the alias gets the key. *)
Fixpoint replace_key (alias keyHex : string) (l : list VaultEntry) : option (list VaultEntry) :=
  match l with
  | [] => None
  | e :: l' =>
      if decide (e.(ve_Alias) = alias) then Some (mkVaultEntry e.(ve_Alias) keyHex :: l')
      else match replace_key alias keyHex l' with Some l'' => Some (e :: l'') | None => None end
  end.

Definition Vault_Add (alias keyHex : string) : M (Vault * FileSystem) unit :=
  if decide (alias = "") then m_err (errorf "alias must not be empty")
  else
    match GroupIdentityFromHex hmac keyHex with
    | Err e => m_err (errorf_w "invalid group key: " e "")
    | Ok _ =>
        w ← m_get;
        match replace_key alias keyHex w.1.(v_Entries) with
        | Some l => _ ← set_entries l; save
        | None => _ ← set_entries (w.1.(v_Entries) ++ [mkVaultEntry alias keyHex])%list; save
        end
    end.

Definition Vault_Remove (alias : string) : M (Vault * FileSystem) bool :=
  w ← m_get;
  let before := length w.1.(v_Entries) in
  let out := filterb (fun e => negb (bool_decide (e.(ve_Alias) = alias))) w.1.(v_Entries) in
  _ ← set_entries out;
  if Nat.eqb (length out) before then m_ret false
  else _ ← save; m_ret true.

Definition ambiguous (alias : string) : error := errorf ("alias " +:+ quoted alias +:+ " is ambiguous").
Definition no_alias (alias : string) : error := errorf ("alias " +:+ quoted alias +:+ " not found in vault (use 'drings key list' to see registered keys)").

(** The only entry with the prefix, looked for from the left. *)
Fixpoint prefix_match (alias : string) (l : list VaultEntry) (matched : option VaultEntry) : result string :=
  match l with
  | [] => match matched with Some e => Ok e.(ve_Key) | None => Err (no_alias alias) end
  | e :: l' =>
      if has_prefix alias e.(ve_Alias) then
        match matched with Some _ => Err (ambiguous alias) | None => prefix_match alias l' (Some e) end
      else prefix_match alias l' matched
  end.

Definition LookupKey (v : Vault) (alias : string) : result string :=
  match List.find (fun e => bool_decide (e.(ve_Alias) = alias)) v.(v_Entries) with
  | Some e => Ok e.(ve_Key)
  | None => prefix_match alias v.(v_Entries) None
  end.

Definition Vault_Lookup (v : Vault) (alias : string) : result GroupIdentity :=
  match LookupKey v alias with Err e => Err e | Ok keyHex => GroupIdentityFromHex hmac keyHex end.

Definition Vault_List (v : Vault) : list VaultInfo :=
  (fun e => match GroupIdentityFromHex hmac e.(ve_Key) with
            | Err _ => mkVaultInfo e.(ve_Alias) "(invalid key)"
            | Ok grp => mkVaultInfo e.(ve_Alias) (NodeID_String grp.(g_GroupID))
            end) <$> v.(v_Entries).

(** The key and, when it was looked up, the alias. *)
Definition ResolveGroupKey (v : Vault) (s : string) : result (string * string) :=
  match GroupIdentityFromHex hmac s with
  | Ok _ => Ok (s, "")
  | Err _ => match LookupKey v s with Err e => Err e | Ok keyHex => Ok (keyHex, s) end
  end.

End Vaults.

(** ** The groups file *)

Record GroupConfig := mkGroupConfig {
  gc_GroupPrivKeyHex : string;
  gc_ListenAddr : string;
  gc_Name : string;
  gc_StorageMaxBytes : Z
}.

Section GroupsFiles.
Context (hmac : bytes -> bytes -> bytes) `{HJ : JsonDeps (list GroupConfig)}.

Definition LoadGroupsFile (path : string) (fs : FileSystem) : result (list GroupConfig) :=
  match os_ReadFile path fs with
  | Err e => Err (errorf_w ("read groups file " +:+ path +:+ ": ") e "")
  | Ok None => Ok []
  | Ok (Some data) =>
      match json_Unmarshal data with
      | Err e => Err (errorf_w ("parse groups file " +:+ path +:+ ": ") e "")
      | Ok f => Ok f
      end
  end.

Definition SaveGroupsFile (path : string) (f : list GroupConfig) : M FileSystem unit := fun fs =>
  match json_MarshalIndent f with
  | Err e => (fs, Err (errorf_w "marshal groups file: " e ""))
  | Ok data => os_WriteFile path data fs
  end.

(** The identifier of the group of an entry; entries whose key is malformed have none. *)
Definition entry_group (g : GroupConfig) : option NodeID :=
  match GroupIdentityFromHex hmac g.(gc_GroupPrivKeyHex) with Ok grp => Some grp.(g_GroupID) | Err _ => None end.

Fixpoint replace_group (id : NodeID) (cfg : GroupConfig) (l : list GroupConfig) : list GroupConfig :=
  match l with
  | [] => [cfg]
  | g :: l' => if bool_decide (entry_group g = Some id) then cfg :: l' else g :: replace_group id cfg l'
  end.

Definition AddGroup (cfg : GroupConfig) (f : list GroupConfig) : list GroupConfig :=
  match GroupIdentityFromHex hmac cfg.(gc_GroupPrivKeyHex) with
  | Err _ => f ++ [cfg]
  | Ok newGrp => replace_group newGrp.(g_GroupID) cfg f
  end.

(** What is left, and whether anything was removed. *)
Definition RemoveGroup (groupIDHex : string) (f : list GroupConfig) : list GroupConfig * bool :=
  let out := filterb (fun g => match entry_group g with Some id => negb (bool_decide (NodeID_String id = groupIDHex)) | None => true end) f in
  (out, (length out <? length f)%nat).

End GroupsFiles.

(** ** The vault is a map *)

Lemma hexNibble_ascii c n : hexNibble c = Ok n -> (Ascii.N_of_ascii c < 128)%N.
Proof. destruct c as [[] [] [] [] [] [] [] []]; vm_compute; intros; congruence. Qed.

Lemma hex_DecodeString_ascii n s b : (String.length s <= n)%nat -> hex_DecodeString s = Ok b -> ascii_text s.
Proof.
  revert s b. induction n as [|n IH]; intros [|c1 [|c2 s]] b Hn; cbn [hex_DecodeString String.length] in *; try lia;
    try (intros _; apply Forall_nil_2).
  - destruct (hexNibble c1); discriminate.
  - unfold mbind, result_bind. destruct (hexNibble c1) eqn:H1; [|done]. destruct (hexNibble c2) eqn:H2; [|done].
    destruct (hex_DecodeString s) eqn:Hs; [|done]. intros _. constructor; [by eapply hexNibble_ascii|].
    constructor; [by eapply hexNibble_ascii|]. eapply IH; [lia|done].
Qed.

Section VaultMap.
Context (hmac : bytes -> bytes -> bytes) `{HJ : JsonDeps (list VaultEntry)}.

Definition key_valid (k : string) : Prop := is_Some (match GroupIdentityFromHex hmac k with Ok g => Some g | Err _ => None end).

Lemma key_ascii k : key_valid k -> ascii_text k.
Proof.
  unfold key_valid, GroupIdentityFromHex. destruct (hex_DecodeString k) as [b|e] eqn:Hk; [|by intros []].
  intros _. by eapply hex_DecodeString_ascii.
Qed.

#[global] Instance key_valid_dec k : Decision (key_valid k).
Proof. unfold key_valid. apply _. Defined.

Definition aliases (l : list VaultEntry) : list string := ve_Alias <$> l.
Definition vault_map (l : list VaultEntry) : gmap string string := list_to_map ((fun e => (ve_Alias e, ve_Key e)) <$> l).
Definition entry_strings (l : list VaultEntry) : list string := aliases l ++ (ve_Key <$> l).

(** Every alias once, none empty, every key a group key. *)
Record vault_ok (l : list VaultEntry) : Prop := {
  vo_once : NoDup (aliases l);
  vo_named : "" ∉ aliases l;
  vo_keys : Forall (fun e => key_valid e.(ve_Key)) l;
  vo_text : Forall ascii_text (aliases l)
}.

Lemma vault_ok_text l : vault_ok l -> Forall ascii_text (entry_strings l).
Proof.
  intros [_ _ Hk Ht]. apply Forall_app. split; [done|]. apply Forall_fmap.
  eapply Forall_impl; [exact Hk|]. intros e. apply key_ascii.
Qed.

Lemma vault_map_lookup l a k :
  NoDup (aliases l) -> vault_map l !! a = Some k <-> mkVaultEntry a k ∈ l.
Proof.
  intros Hnd. unfold vault_map. rewrite <- elem_of_list_to_map.
  - rewrite list_elem_of_fmap. split; [by intros ([a' k'] & [= -> ->] & Hin)|]. intros Hin. by exists (mkVaultEntry a k).
  - by rewrite <- list_fmap_compose.
Qed.

Lemma vault_map_none l a : vault_map l !! a = None <-> a ∉ aliases l.
Proof. unfold vault_map. rewrite <- not_elem_of_list_to_map. by rewrite <- list_fmap_compose. Qed.

Lemma replace_key_some a k l l' :
  replace_key a k l = Some l' -> aliases l' = aliases l /\ vault_map l' = <[a := k]> (vault_map l) /\
    (forall P : VaultEntry -> Prop, (forall e, P e -> P (mkVaultEntry e.(ve_Alias) k)) -> Forall P l -> Forall P l').
Proof.
  revert l'. induction l as [|e l IH]; intros l'; cbn [replace_key]; [done|].
  destruct (decide (ve_Alias e = a)) as [<-|Hne].
  - intros [= <-]. cbn. split_and!; [done|unfold vault_map; cbn; by rewrite insert_insert_eq|].
    intros P Hk HP. inversion HP; subst. constructor; auto.
  - destruct (replace_key a k l) as [l2|]; [|done]. intros [= <-]. destruct (IH l2 eq_refl) as (Ha & Hm & HP). cbn. split_and!.
    + by f_equal.
    + unfold vault_map in *. cbn. rewrite Hm. by rewrite insert_insert_ne.
    + intros P Hk Hf. inversion Hf; subst. constructor; auto.
Qed.

Lemma replace_key_none a k l : replace_key a k l = None -> a ∉ aliases l.
Proof.
  induction l as [|e l IH]; cbn [replace_key]; [intros _; apply not_elem_of_nil|].
  destruct (decide (ve_Alias e = a)) as [|Hne]; [done|]. destruct (replace_key a k l); [done|]. intros _.
  apply not_elem_of_cons. split; [congruence|]. by apply IH.
Qed.

Lemma vault_map_snoc l a k : a ∉ aliases l -> vault_map (l ++ [mkVaultEntry a k]) = <[a := k]> (vault_map l).
Proof.
  induction l as [|e l IH]; intros Ha; [done|]. apply not_elem_of_cons in Ha as [Hne Ha].
  unfold vault_map in *. cbn. rewrite IH by done. by rewrite insert_insert_ne.
Qed.

Lemma vault_map_remove l a :
  NoDup (aliases l) -> vault_map (filterb (fun e => negb (bool_decide (ve_Alias e = a))) l) = delete a (vault_map l).
Proof.
  induction l as [|e l IH]; intros Hnd; [symmetry; apply delete_empty|]. apply NoDup_cons in Hnd as [Hin Hnd].
  rewrite filterb_cons. destruct (decide (ve_Alias e = a)) as [Heq|Hne].
  - rewrite bool_decide_eq_true_2 by done. cbn [negb]. rewrite IH by done. unfold vault_map. cbn. rewrite Heq.
    by rewrite delete_insert_eq.
  - rewrite bool_decide_eq_false_2 by done. cbn [negb]. unfold vault_map in *. cbn. rewrite IH by done. by rewrite delete_insert_ne.
Qed.

End VaultMap.

(** *** Looking up *)

(** What a map of keys by alias answers: the alias itself, or the only alias it is a prefix of. *)
Definition the_only (alias : string) (l : list (string * string)) : result string :=
  match l with [] => Err (no_alias alias) | [ak] => Ok ak.2 | _ :: _ :: _ => Err (ambiguous alias) end.

Definition map_LookupKey (m : gmap string string) (alias : string) : result string :=
  match m !! alias with
  | Some k => Ok k
  | None => the_only alias (map_to_list (filter (fun ak => has_prefix alias ak.1 = true) m))
  end.

Lemma the_only_perm alias l l' : l ≡ₚ l' -> the_only alias l = the_only alias l'.
Proof.
  intros Hp. destruct l as [|x [|y l]].
  - by apply Permutation_nil_l in Hp as ->.
  - by apply Permutation_singleton_l in Hp as ->.
  - destruct l' as [|x' [|y' l']]; [by apply Permutation_nil_r in Hp|by apply Permutation_singleton_r in Hp|done].
Qed.

Lemma prefix_match_only alias l matched :
  prefix_match alias l matched =
    the_only alias ((fun e => (ve_Alias e, ve_Key e)) <$> (option_list matched ++ filterb (fun e => has_prefix alias (ve_Alias e)) l)).
Proof.
  revert matched. induction l as [|e l IH]; intros matched; cbn [prefix_match].
  - by destruct matched.
  - rewrite filterb_cons. destruct (has_prefix alias (ve_Alias e)); [|by rewrite IH]. destruct matched as [x|]; [done|by rewrite IH].
Qed.

Lemma filtered_entries alias l :
  NoDup (aliases l) ->
  map_to_list (filter (fun ak => has_prefix alias ak.1 = true) (vault_map l)) ≡ₚ
    (fun e => (ve_Alias e, ve_Key e)) <$> filterb (fun e => has_prefix alias (ve_Alias e)) l.
Proof.
  intros Hnd. apply NoDup_Permutation.
  - apply NoDup_map_to_list.
  - apply (NoDup_fmap_1 fst). rewrite <- list_fmap_compose. exact (NoDup_filterb_fmap ve_Alias _ l Hnd).
  - intros [a k]. rewrite elem_of_map_to_list, map_lookup_filter_Some, vault_map_lookup by done. cbn [fst].
    rewrite list_elem_of_fmap. split.
    + intros [Hin Hp]. exists (mkVaultEntry a k). split; [done|]. by apply elem_of_filterb.
    + intros ([a' k'] & [= -> ->] & [Hp Hin]%elem_of_filterb). done.
Qed.

Lemma LookupKey_map v alias : NoDup (aliases v.(v_Entries)) -> LookupKey v alias = map_LookupKey (vault_map v.(v_Entries)) alias.
Proof.
  intros Hnd. unfold LookupKey, map_LookupKey.
  destruct (List.find _ _) as [[a k]|] eqn:Hf.
  - apply List.find_some in Hf as [Hin Ha%bool_decide_eq_true]. cbn in Ha. subst a.
    apply list_elem_of_In in Hin. by rewrite (proj2 (vault_map_lookup _ alias k Hnd) Hin).
  - rewrite (proj2 (vault_map_none _ alias)).
    + rewrite prefix_match_only. symmetry. apply the_only_perm, filtered_entries, Hnd.
    + intros (e & -> & Hin)%list_elem_of_fmap. apply list_elem_of_In in Hin.
      apply (List.find_none _ _ Hf) in Hin. by rewrite bool_decide_eq_true_2 in Hin.
Qed.

(** *** Refinement *)

Inductive vault_op := VAdd (alias keyHex : string) | VRemove (alias : string).

Section VaultRuns.
Context (hmac : bytes -> bytes -> bytes) `{HJ : JsonDeps (list VaultEntry)} `{HJL : !JsonLaws (list VaultEntry) entry_strings}.

Definition run_vault_op (o : vault_op) : M (Vault * FileSystem) unit :=
  match o with
  | VAdd alias keyHex => Vault_Add hmac alias keyHex
  | VRemove alias => _ ← Vault_Remove alias; m_ret tt
  end.

Definition run_vault_ops (os : list vault_op) (w : Vault * FileSystem) : Vault * FileSystem :=
  foldl (fun w o => (run_vault_op o w).1) w os.

Definition map_vault_op (m : gmap string string) (o : vault_op) : gmap string string :=
  match o with
  | VAdd alias keyHex => if decide (alias <> "" /\ key_valid hmac keyHex) then <[alias := keyHex]> m else m
  | VRemove alias => delete alias m
  end.

Definition op_text (o : vault_op) : Prop := match o with VAdd alias _ => ascii_text alias | VRemove _ => True end.

(** The vault in memory is the one a reload would give. *)
Record vault_synced (path : string) (w : Vault * FileSystem) : Prop := {
  vs_load : LoadVault path w.2 = Ok w.1;
  vs_path : w.1.(v_path) = path;
  vs_readable : path ∉ w.2.(fs_denied);
  vs_writable : path ∉ w.2.(fs_unwritable);
  vs_ok : vault_ok hmac w.1.(v_Entries)
}.

Lemma save_synced path l (w : Vault * FileSystem) :
  vault_synced path w -> vault_ok hmac l ->
  exists w', (_ ← set_entries l; save) w = (w', Ok tt) /\ vault_synced path w' /\ w'.1.(v_Entries) = l.
Proof.
  destruct w as [v fs]. intros [Hl Hp Hr Hw _] Hok. cbn in *.
  destruct (json_roundtrip l (vault_ok_text hmac l Hok)) as (s & Henc & Hdec).
  unfold set_entries, save, os_WriteFile, mbind, M_bind, m_bind. cbn. rewrite Henc, Hp, decide_False by done.
  eexists. split; [done|]. split; [|done]. split; cbn; [|done..].
  unfold LoadVault, os_ReadFile. cbn. by rewrite decide_False, lookup_insert_eq, Hdec by done.
Qed.

Lemma Vault_Add_ok a k l :
  vault_ok hmac l -> a <> "" -> key_valid hmac k -> ascii_text a ->
  (forall l', replace_key a k l = Some l' -> vault_ok hmac l') /\
  (replace_key a k l = None -> vault_ok hmac (l ++ [mkVaultEntry a k])).
Proof.
  intros [Ho Hn Hk Ht] Ha Hv Hx. split.
  - intros l' Hl'. destruct (replace_key_some a k l l' Hl') as (Hal & _ & HP).
    split; [by rewrite Hal..| |by rewrite Hal]. apply HP; [done|exact Hk].
  - intros Hnone%replace_key_none. split; unfold aliases in *; rewrite ?fmap_app.
    + apply NoDup_app. split_and!; [done| |apply NoDup_singleton]. intros x Hin ->%list_elem_of_singleton. done.
    + rewrite elem_of_app. intros [?|Hin%list_elem_of_singleton]; [done|by cbn in Hin].
    + apply Forall_app. split; [done|by apply Forall_singleton].
    + apply Forall_app. split; [done|by apply Forall_singleton].
Qed.

Lemma filterb_all {A} (keep : A -> bool) l : length (filterb keep l) = length l -> filterb keep l = l.
Proof.
  induction l as [|x l IH]; [done|]. rewrite filterb_cons. destruct (keep x); cbn.
  - intros [= H]. by rewrite IH.
  - intros H. pose proof (length_filterb keep l). lia.
Qed.

Lemma Vault_Remove_run a (w : Vault * FileSystem) :
  let out := filterb (fun e => negb (bool_decide (ve_Alias e = a))) w.1.(v_Entries) in
  run_vault_op (VRemove a) w =
    if Nat.eqb (length out) (length w.1.(v_Entries)) then ((mkVault out w.1.(v_path), w.2), Ok tt)
    else (_ ← set_entries out; save) w.
Proof.
  destruct w as [v fs]. cbn [run_vault_op]. unfold Vault_Remove, mbind, M_bind, m_bind, m_get, m_ret, set_entries. cbn [fst snd].
  destruct (Nat.eqb _ _); [done|]. by destruct (save _) as [w' [[]|e]].
Qed.

Lemma Vault_Add_run a k g (w : Vault * FileSystem) :
  a <> "" -> GroupIdentityFromHex hmac k = Ok g ->
  Vault_Add hmac a k w = (_ ← set_entries (default (w.1.(v_Entries) ++ [mkVaultEntry a k]) (replace_key a k w.1.(v_Entries))); save) w.
Proof.
  intros Ha Hg. unfold Vault_Add. rewrite decide_False, Hg by done. unfold mbind at 1, M_bind at 1, m_bind at 1, m_get.
  by destruct (replace_key a k (v_Entries w.1)).
Qed.

Lemma vault_op_synced path o w :
  vault_synced path w -> op_text o ->
  vault_synced path (run_vault_op o w).1 /\
  vault_map (run_vault_op o w).1.1.(v_Entries) = map_vault_op (vault_map w.1.(v_Entries)) o.
Proof.
  intros Hs Ho. pose proof (vs_ok _ _ Hs) as Hok. destruct o as [a k|a]; cbn [map_vault_op].
  - destruct (decide (a = "")) as [->|Ha]; [rewrite decide_False by naive_solver; done|].
    destruct (GroupIdentityFromHex hmac k) as [g|e] eqn:Hk.
    2: { cbn [run_vault_op]. unfold Vault_Add. rewrite decide_False, Hk by done. rewrite decide_False; [done|]. intros [_ Hv]. unfold key_valid in Hv. rewrite Hk in Hv. by destruct Hv. }
    assert (key_valid hmac k) as Hv by (unfold key_valid; rewrite Hk; by eexists). rewrite decide_True by done.
    cbn [run_vault_op]. rewrite (Vault_Add_run a k g w Ha Hk). destruct (Vault_Add_ok a k _ Hok Ha Hv Ho) as [Hsome Hnone].
    destruct (replace_key a k (v_Entries w.1)) as [l|] eqn:Hrep; cbn [from_option]; unfold id.
    + destruct (save_synced path l w Hs (Hsome l eq_refl)) as (w' & -> & Hs' & Hl). split; [done|]. cbn [fst].
      rewrite Hl. by apply replace_key_some.
    + destruct (save_synced path _ w Hs (Hnone eq_refl)) as (w' & -> & Hs' & Hl). split; [done|]. cbn [fst].
      rewrite Hl. by apply vault_map_snoc, (replace_key_none a k).
  - assert (vault_ok hmac (filterb (fun e => negb (bool_decide (ve_Alias e = a))) w.1.(v_Entries))) as Hok'.
    { destruct Hok as [H1 H2 H3 H4]. split; [by apply NoDup_filterb_fmap|..].
      - intros (e & He & [_ Hin]%elem_of_filterb)%list_elem_of_fmap. apply H2. rewrite He. by apply list_elem_of_fmap_2.
      - apply Forall_forall. intros e [_ Hin]%elem_of_filterb. by eapply Forall_forall in H3.
      - apply Forall_fmap, Forall_forall. intros e [_ Hin]%elem_of_filterb. rewrite Forall_forall in H4. by apply H4, list_elem_of_fmap_2. }
    pose proof (vault_map_remove (w.1.(v_Entries)) a (vo_once _ _ Hok)) as Hmap.
    rewrite Vault_Remove_run. cbv zeta. set (out := filterb _ _) in *. destruct (Nat.eqb (length out) _) eqn:Hlen.
    + assert (out = w.1.(v_Entries)) as Hout by (apply filterb_all, Nat.eqb_eq, Hlen).
      cbn [fst]. rewrite Hout. destruct w as [[l p] fs]. cbn in *. split; [done|]. by rewrite <- Hmap, Hout.
    + destruct (save_synced path _ w Hs Hok') as (w' & -> & Hs' & Hl). split; [done|]. cbn [fst]. by rewrite Hl.
Qed.

(** C37: the vault is a map from aliases to group keys that survives a restart. After any sequence
    of [Add]s and [Remove]s, the vault that is read back from the file is well formed (aliases unique
    and not empty, keys valid) and answers every [LookupKey] as the map does after the same changes:
    the alias itself, else the only alias that starts with it, else an error. *)
Theorem vault_refines_map (path : string) (w : Vault * FileSystem) (os : list vault_op) :
  vault_synced path w -> Forall op_text os ->
  exists v, LoadVault path (run_vault_ops os w).2 = Ok v /\ vault_ok hmac v.(v_Entries) /\
    forall alias, LookupKey v alias = map_LookupKey (foldl map_vault_op (vault_map w.1.(v_Entries)) os) alias.
Proof.
  revert w. induction os as [|o os IH]; intros w Hs Ho; cbn [run_vault_ops foldl].
  - exists w.1. split; [apply vs_load, Hs|]. pose proof (vs_ok _ _ Hs) as Hok. split; [done|].
    intros alias. apply LookupKey_map, (vo_once _ _ Hok).
  - apply Forall_cons in Ho as [Ho Hos]. destruct (vault_op_synced path o w Hs Ho) as [Hs' <-]. by apply IH.
Qed.

End VaultRuns.

(** ** The groups file is a map *)

Section GroupsMap.
Context (hmac : bytes -> bytes -> bytes).
#[local] Abbreviation gid := (entry_group hmac).

(** The entries with a valid key, by group. *)
Definition grouped (f : list GroupConfig) : list (NodeID * GroupConfig) :=
  omap (fun g => (fun id => (id, g)) <$> gid g) f.
Definition groups_map (f : list GroupConfig) : gmap NodeID GroupConfig := list_to_map (grouped f).
Definition groups_ok (f : list GroupConfig) : Prop := NoDup (grouped f).*1.

Lemma grouped_cons g f :
  grouped (g :: f) = match gid g with Some id => (id, g) :: grouped f | None => grouped f end.
Proof. unfold grouped. cbn. by destruct (gid g). Qed.

Lemma replace_group_keys id cfg f :
  gid cfg = Some id ->
  (grouped (replace_group hmac id cfg f)).*1 = if decide (id ∈ (grouped f).*1) then (grouped f).*1 else (grouped f).*1 ++ [id].
Proof.
  intros Hc. induction f as [|g f IH]; cbn [replace_group].
  { rewrite grouped_cons, Hc. cbn. by rewrite decide_False by apply not_elem_of_nil. }
  destruct (decide (gid g = Some id)) as [Hg|Hg].
  - rewrite bool_decide_eq_true_2, !grouped_cons, Hc, Hg by done. cbn. rewrite decide_True by (by left). done.
  - rewrite bool_decide_eq_false_2, !grouped_cons by done. destruct (gid g) as [id'|]; [|done]. cbn.
    rewrite IH. assert (id' <> id) by congruence. repeat case_decide; try done; exfalso; set_solver.
Qed.

Lemma replace_group_map id cfg f :
  gid cfg = Some id -> groups_map (replace_group hmac id cfg f) = <[id := cfg]> (groups_map f).
Proof.
  intros Hc. induction f as [|g f IH]; cbn [replace_group]; unfold groups_map in *.
  { by rewrite grouped_cons, Hc. }
  destruct (decide (gid g = Some id)) as [Hg|Hg].
  - rewrite bool_decide_eq_true_2, !grouped_cons, Hc, Hg by done. cbn. by rewrite insert_insert_eq.
  - rewrite bool_decide_eq_false_2, !grouped_cons by done. destruct (gid g) as [id'|]; [|done]. cbn.
    rewrite IH. rewrite insert_insert_ne by congruence. done.
Qed.

Lemma AddGroup_map id cfg f :
  gid cfg = Some id -> groups_ok f ->
  groups_ok (AddGroup hmac cfg f) /\ groups_map (AddGroup hmac cfg f) = <[id := cfg]> (groups_map f).
Proof.
  intros Hc Hok. unfold AddGroup. pose proof Hc as Hc'. unfold entry_group in Hc'.
  destruct (GroupIdentityFromHex hmac (gc_GroupPrivKeyHex cfg)) as [grp|]; [|done]. injection Hc' as <-.
  split; [|by apply replace_group_map]. unfold groups_ok. rewrite replace_group_keys by done. case_decide; [done|].
  apply NoDup_app. split_and!; [done| |apply NoDup_singleton]. intros x Hx ->%list_elem_of_singleton. done.
Qed.

Lemma RemoveGroup_map id f :
  groups_ok f ->
  let out := (RemoveGroup hmac (NodeID_String id) f).1 in
  groups_ok out /\ groups_map out = delete id (groups_map f).
Proof.
  unfold RemoveGroup, groups_ok, groups_map. cbn [fst]. induction f as [|g f IH]; intros Hok; cbv zeta in *.
  { split; [done|]. symmetry. apply delete_empty. }
  rewrite filterb_cons, (grouped_cons g f) in *. destruct (gid g) as [id'|] eqn:Hg.
  2: { destruct (IH Hok) as [H1 H2]. rewrite grouped_cons, Hg. done. }
  cbn in Hok. apply NoDup_cons in Hok as [Hid Hok]. destruct (IH Hok) as [H1 H2].
  destruct (decide (id' = id)) as [->|Hne].
  - rewrite bool_decide_eq_true_2 by done. cbn [negb]. split; [done|]. rewrite H2. cbn [list_to_map foldr fst snd]. by rewrite delete_insert_eq.
  - rewrite bool_decide_eq_false_2 by (by intros ?%NodeID_String_inj). cbn [negb]. rewrite grouped_cons, Hg. cbn.
    split; [|by rewrite H2, delete_insert_ne]. constructor; [|done].
    intros Hin. apply Hid. apply list_elem_of_fmap in Hin as ([id2 g2] & -> & Hin). apply list_elem_of_fmap. exists (id2, g2). split; [done|].
    unfold grouped in *. rewrite list_elem_of_omap in *. destruct Hin as (x & Hx & Hf). exists x. split; [|done].
    by apply elem_of_filterb in Hx as [_ Hx].
Qed.

End GroupsMap.

(** ** The properties apply *)

Module KeyExample.

(** A codec for every countable type: the code of the value in binary. *)
Fixpoint bits (p : positive) : string :=
  match p with xH => "" | xO p' => String "0"%char (bits p') | xI p' => String "1"%char (bits p') end.

Fixpoint unbits (s : string) : positive :=
  match s with EmptyString => xH | String c s' => if decide (c = "1"%char) then xI (unbits s') else xO (unbits s') end.

Lemma unbits_bits p : unbits (bits p) = p.
Proof. induction p as [p IH|p IH|]; cbn; by rewrite ?IH. Qed.

#[export] Instance binary_codec `{Countable A} : JsonDeps A := {|
  json_MarshalIndent := fun a => Ok (bits (encode a));
  json_Unmarshal := fun s => match decode (unbits s) with Some a => Ok a | None => Err (errorf "invalid character") end
|}.

Lemma binary_codec_laws `{Countable A} strings : JsonLaws A strings.
Proof. intros a _. eexists. split; [done|]. cbn. by rewrite unbits_bits, decode_encode. Qed.

#[export] Instance VaultEntry_countable : Countable VaultEntry.
Proof.
  refine (inj_countable' (fun e => (ve_Alias e, ve_Key e)) (fun ak => mkVaultEntry ak.1 ak.2) _). by intros [].
Defined.

#[export] Instance vault_laws : JsonLaws (list VaultEntry) entry_strings := binary_codec_laws entry_strings.

Definition hmac0 : bytes -> bytes -> bytes := fun k m => sha1_Sum (k ++ m).
Definition key1 : string := hex_encode (replicate 64 Byte.x01).
Definition key2 : string := hex_encode (replicate 64 Byte.x02).

Definition empty_disk : FileSystem := mkFileSystem ∅ ∅ ∅.
Definition fresh_vault : Vault * FileSystem := (mkVault [] "vault.json", empty_disk).

Lemma fresh_synced : vault_synced hmac0 "vault.json" fresh_vault.
Proof. split; [done..|]. split; [constructor|apply not_elem_of_nil|constructor|constructor]. Qed.

Lemma vault_refines_map_witness :
  exists v, LoadVault "vault.json" (run_vault_ops hmac0 [VAdd "work" key1; VAdd "home" key2; VAdd "work" key2; VRemove "home"] fresh_vault).2 = Ok v /\
    LookupKey v "wo" = Ok key2 /\ LookupKey v "home" = Err (no_alias "home").
Proof.
  destruct (vault_refines_map hmac0 "vault.json" fresh_vault [VAdd "work" key1; VAdd "home" key2; VAdd "work" key2; VRemove "home"]) as (v & Hv & _ & Hl).
  - exact fresh_synced.
  - repeat constructor.
  - exists v. split; [exact Hv|]. rewrite !Hl. split; vm_compute; reflexivity.
Defined.

End KeyExample.
