(* ===== verification/Fetch.v ===== *)
(** * Fetching and sharing trees of blocks (src/dht/fetch.go)

    [FetchDAG] and [FetchDAGFromPeer] bring the tree under a root to the local store: workers take
    identifiers from a queue, fetch the block of each unless it is local, and put its links in the
    queue. [ShareDAG] walks a local tree with one goroutine per link and passes the blocks to
    workers that put them on the ring. Both stop at the first error. Their goroutines are step
    relations, so that the theorems hold for every schedule. *)

From stdpp Require Import base gmap list strings relations sets.
From Stdlib Require Import ZArith Lia Strings.Byte.
From S2P Require Import Prelude Hoare Config Chord Routing Cluster Stable Sha1 StoreDeps NetworkStore BlockStore BlockNode BlockNet BlockPlacement Auth.

Set Default Goal Selector "!".

Definition defaultDAGShareConcurrency : nat := 64.
Definition minDAGShareConcurrency : Z := 1.
Definition maxDAGShareConcurrency : Z := 1024.
Definition defaultDAGFetchConcurrency : nat := 16.

Definition SetDAGShareConcurrency (n : Z) : Z :=
  let n := if (n <? minDAGShareConcurrency)%Z then minDAGShareConcurrency else n in
  if (maxDAGShareConcurrency <? n)%Z then maxDAGShareConcurrency else n.

(** ** What the pipelines use *)

(** [n.localOrRingBlocks()], where a block is fetched from, and where it is put. *)
Class DagEnv `{StoreDeps} (W : Type) := {
  dg_Has : cid -> M W bool;
  dg_Get : cid -> M W bytes;
  dg_Put : cid -> bytes -> M W unit;
  dg_fetch : cid -> M W bytes;
  dg_from : string;
  dg_share : cid -> bytes -> M W unit
}.

(** At a node: the local blocks if there are any, the ring's otherwise; [fetch] is [n.Get] or the
    transport's [FetchBlock] from a peer. *)
Section AtNode.
Context `{HD : StoreDeps} `{!LinkDeps} {S L : Type} `{!BlockStore S} `{!BlockStore L}.
Context {W : Type} `{HN : !NodeEnv W} `{HB : !BlockEnv (S := S) (L := L) W}.

Definition localOrRingBlocks {A} (local : M L A) (ring : M nodeBlocks A) : M W A :=
  n ← getNode_;
  match n.(bn_localBlocks) with
  | Some _ =>
      res ← on_localBlocks None (a ← local; m_ret (Some a));
      match res with Some a => m_ret a | None => m_err not_set end
  | None => on_blocks ring
  end.

Definition dag_env (from : string) (fetch : cid -> M W bytes) (share : cid -> bytes -> M W unit) : DagEnv W := {|
  dg_Has := fun c => localOrRingBlocks (st_Has c) (st_Has c);
  dg_Get := fun c => localOrRingBlocks (st_Get c) (st_Get c);
  dg_Put := fun c d => localOrRingBlocks (st_Put c d) (st_Put c d);
  dg_fetch := fetch;
  dg_from := from;
  dg_share := share
|}.

Definition FetchDAG_env (ctx : context W) : DagEnv W := dag_env "" (node_Get (S := S) (L := L) ctx) (fun _ _ => m_ret tt).

Definition FetchDAGFromPeer_env (peer : NodeAddr) : DagEnv W := dag_env (" from " +:+ peer.(na_addr)) (HB.(bt_FetchBlock) peer) (fun _ _ => m_ret tt).

Definition ShareDAG_env (ctx : context W) (root : cid) (rootExpiry : Z) : DagEnv W :=
  dag_env "" (node_Get (S := S) (L := L) ctx) (fun c d => node_PutWithRoot (S := S) (L := L) ctx c d (Some root) rootExpiry).

End AtNode.

Section Pipelines.
Context `{HD : StoreDeps} `{HL : !LinkDeps} `{HC : !EqDecision cid} {W : Type} `{HG : !DagEnv W}.

(** The links of a block; one that cannot be decoded counts as having none. *)
Definition children_of (c : cid) (data : bytes) : list cid :=
  match LinksOf c data with Ok l => l | Err _ => [] end.

(** ** Fetching *)

(** [fetchOneDAGBlock]: the data of the block, and the links to enqueue. *)
Definition fetchOneDAGBlock (c : cid) : M W (bytes * list cid) :=
  has ← m_wrap ("check local " +:+ cid_String c +:+ ": ") (dg_Has c);
  data ← (if (has : bool) then m_wrap ("local get " +:+ cid_String c +:+ ": ") (dg_Get c)
          else
            data ← m_wrap ("fetch " +:+ cid_String c +:+ dg_from +:+ ": ") (dg_fetch c);
            _ ← m_wrap ("store " +:+ cid_String c +:+ ": ") (dg_Put c data);
            m_ret data);
  m_ret (data, children_of c data).

(** [fp_queue]: enqueued and not taken by a worker; [fp_running]: taken, being fetched;
    [fp_cancelled]: the context of the caller was cancelled. The context of the pipeline is done
    once that has happened or there is an error. *)
Record fetchPipeline := mkFetch {
  fp_world : W;
  fp_visited : list cid;
  fp_queue : list cid;
  fp_running : list cid;
  fp_err : option error;
  fp_bytes : Z;
  fp_blocks : Z;
  fp_cancelled : bool
}.

Definition enqueue (c : cid) (s : fetchPipeline) : fetchPipeline :=
  if decide (c ∈ s.(fp_visited)) then s
  else mkFetch s.(fp_world) (c :: s.(fp_visited)) (s.(fp_queue) ++ [c]) s.(fp_running) s.(fp_err) s.(fp_bytes) s.(fp_blocks) s.(fp_cancelled).

Definition fp_set_queue (q : list cid) (s : fetchPipeline) : fetchPipeline :=
  mkFetch s.(fp_world) s.(fp_visited) q s.(fp_running) s.(fp_err) s.(fp_bytes) s.(fp_blocks) s.(fp_cancelled).
Definition fp_set_running (r : list cid) (s : fetchPipeline) : fetchPipeline :=
  mkFetch s.(fp_world) s.(fp_visited) s.(fp_queue) r s.(fp_err) s.(fp_bytes) s.(fp_blocks) s.(fp_cancelled).

(** [setErr]: only the first error counts. *)
Definition setErr (e : error) (old : option error) : option error := match old with Some _ => old | None => Some e end.

(** A worker is done with [c]. Its look into the local store, the fetch and the put are one step here:
    two workers never have the same identifier, and the store operations are atomic by themselves. *)
Definition finish (c : cid) (s : fetchPipeline) : fetchPipeline :=
  match fetchOneDAGBlock c s.(fp_world) with
  | (w, Err e) => mkFetch w s.(fp_visited) s.(fp_queue) s.(fp_running) (setErr e s.(fp_err)) s.(fp_bytes) s.(fp_blocks) s.(fp_cancelled)
  | (w, Ok (data, children)) =>
      foldl (fun s c => enqueue c s)
        (mkFetch w s.(fp_visited) s.(fp_queue) s.(fp_running) s.(fp_err)
           (s.(fp_bytes) + Z.of_nat (length data))%Z (s.(fp_blocks) + 1)%Z s.(fp_cancelled)) children
  end.

Definition startFetch (w : W) (root : cid) : fetchPipeline := enqueue root (mkFetch w [] [] [] None 0 0 false).

Definition fp_live (s : fetchPipeline) : Prop := s.(fp_err) = None /\ s.(fp_cancelled) = false.

#[global] Instance fp_live_dec s : Decision (fp_live s).
Proof. unfold fp_live. apply _. Defined.

Definition fp_set_err (e : option error) (s : fetchPipeline) : fetchPipeline :=
  mkFetch s.(fp_world) s.(fp_visited) s.(fp_queue) s.(fp_running) e s.(fp_bytes) s.(fp_blocks) s.(fp_cancelled).
Definition fp_cancel (s : fetchPipeline) : fetchPipeline :=
  mkFetch s.(fp_world) s.(fp_visited) s.(fp_queue) s.(fp_running) s.(fp_err) s.(fp_bytes) s.(fp_blocks) true.

(** Once the context is done, what is queued is dropped, and a fetch under way may be cut short with
    an error. *)
Inductive fstep : fetchPipeline -> fetchPipeline -> Prop :=
  | FTake i c s : s.(fp_queue) !! i = Some c -> fp_live s ->
      (length s.(fp_running) < defaultDAGFetchConcurrency)%nat ->
      fstep s (fp_set_running (s.(fp_running) ++ [c]) (fp_set_queue (delete i s.(fp_queue)) s))
  | FFinish i c s : s.(fp_running) !! i = Some c ->
      fstep s (finish c (fp_set_running (delete i s.(fp_running)) s))
  | FDrop i c s : s.(fp_queue) !! i = Some c -> ~ fp_live s ->
      fstep s (fp_set_queue (delete i s.(fp_queue)) s)
  | FAbort i c e s : s.(fp_running) !! i = Some c -> ~ fp_live s ->
      fstep s (fp_set_err (setErr e s.(fp_err)) (fp_set_running (delete i s.(fp_running)) s))
  | FCancel s : s.(fp_cancelled) = false -> fstep s (fp_cancel s).

(** The queue is closed once nothing is in flight, and the workers end. *)
Definition fetched (s : fetchPipeline) : Prop := s.(fp_queue) = [] /\ s.(fp_running) = [].

(** What [fetchDAGPipeline] returns. *)
Definition fetch_result (s : fetchPipeline) : result unit := match s.(fp_err) with Some e => Err e | None => Ok tt end.

(** ** Sharing *)

(** [sp_walk]: the goroutines that walk; [sp_jobs]: the blocks on their way to the workers;
    [sp_shared]: the blocks that were put on the ring. *)
Record sharePipeline := mkShare {
  sp_world : W;
  sp_visited : list cid;
  sp_walk : list cid;
  sp_jobs : list (cid * bytes);
  sp_shared : list (cid * bytes);
  sp_err : option error;
  sp_cancelled : bool
}.

Definition startShare (w : W) (root : cid) : sharePipeline := mkShare w [] [root] [] [] None false.

Definition sp_live (s : sharePipeline) : Prop := s.(sp_err) = None /\ s.(sp_cancelled) = false.

#[global] Instance sp_live_dec s : Decision (sp_live s).
Proof. unfold sp_live. apply _. Defined.

(** A walker runs until it has passed on its block; it has room for it. *)
Definition walk (concurrency : nat) (c : cid) (s : sharePipeline) : option sharePipeline :=
  if decide (~ sp_live s) then Some s
  else if decide (c ∈ s.(sp_visited)) then Some s
  else if (concurrency <=? length s.(sp_jobs))%nat then None
  else
    match dg_Get c s.(sp_world) with
    | (w, Err e) =>
        Some (mkShare w (c :: s.(sp_visited)) s.(sp_walk) s.(sp_jobs) s.(sp_shared)
          (setErr (errorf_w ("get local block " +:+ cid_String c +:+ ": ") e "") s.(sp_err)) s.(sp_cancelled))
    | (w, Ok data) =>
        Some (mkShare w (c :: s.(sp_visited)) (s.(sp_walk) ++ children_of c data) (s.(sp_jobs) ++ [(c, data)]) s.(sp_shared)
          s.(sp_err) s.(sp_cancelled))
    end.

Definition put_job (c : cid) (data : bytes) (s : sharePipeline) : sharePipeline :=
  if decide (~ sp_live s) then s
  else
    match dg_share c data s.(sp_world) with
    | (w, Ok _) => mkShare w s.(sp_visited) s.(sp_walk) s.(sp_jobs) ((c, data) :: s.(sp_shared)) s.(sp_err) s.(sp_cancelled)
    | (w, Err e) =>
        mkShare w s.(sp_visited) s.(sp_walk) s.(sp_jobs) s.(sp_shared)
          (setErr (errorf_w ("put to ring " +:+ cid_String c +:+ ": ") e "") s.(sp_err)) s.(sp_cancelled)
    end.

Definition sp_set_walk (l : list cid) (s : sharePipeline) : sharePipeline :=
  mkShare s.(sp_world) s.(sp_visited) l s.(sp_jobs) s.(sp_shared) s.(sp_err) s.(sp_cancelled).
Definition sp_set_jobs (l : list (cid * bytes)) (s : sharePipeline) : sharePipeline :=
  mkShare s.(sp_world) s.(sp_visited) s.(sp_walk) l s.(sp_shared) s.(sp_err) s.(sp_cancelled).
Definition sp_mark (c : cid) (s : sharePipeline) : sharePipeline :=
  mkShare s.(sp_world) (c :: s.(sp_visited)) s.(sp_walk) s.(sp_jobs) s.(sp_shared) s.(sp_err) s.(sp_cancelled).
Definition sp_set_err (e : option error) (s : sharePipeline) : sharePipeline :=
  mkShare s.(sp_world) s.(sp_visited) s.(sp_walk) s.(sp_jobs) s.(sp_shared) e s.(sp_cancelled).
Definition sp_cancel (s : sharePipeline) : sharePipeline :=
  mkShare s.(sp_world) s.(sp_visited) s.(sp_walk) s.(sp_jobs) s.(sp_shared) s.(sp_err) true.

(** Once the context is done, a walker that waits stops after it marked its block, and a put under
    way may be cut short with an error. *)
Inductive sstep (concurrency : nat) : sharePipeline -> sharePipeline -> Prop :=
  | SWalk i c s s' : s.(sp_walk) !! i = Some c ->
      walk concurrency c (sp_set_walk (delete i s.(sp_walk)) s) = Some s' -> sstep concurrency s s'
  | SStop i c s : s.(sp_walk) !! i = Some c -> ~ sp_live s ->
      sstep concurrency s (sp_mark c (sp_set_walk (delete i s.(sp_walk)) s))
  | SPut c data jobs s : s.(sp_jobs) = (c, data) :: jobs ->
      sstep concurrency s (put_job c data (sp_set_jobs jobs s))
  | SAbort c data e jobs s : s.(sp_jobs) = (c, data) :: jobs -> ~ sp_live s ->
      sstep concurrency s (sp_set_err (setErr e s.(sp_err)) (sp_set_jobs jobs s))
  | SCancel s : s.(sp_cancelled) = false -> sstep concurrency s (sp_cancel s).

Definition shared (s : sharePipeline) : Prop := s.(sp_walk) = [] /\ s.(sp_jobs) = [].

(** What [ShareDAGWithTTL] returns. *)
Definition share_result (s : sharePipeline) : result unit := match s.(sp_err) with Some e => Err e | None => Ok tt end.

End Pipelines.

(** ** What the pipelines achieve *)

(** What the theorems need of the stores: [dg_blocks] are the local blocks by multihash. That fetching
    returns data with the multihash asked for is an assumption about the nodes asked: [FetchDAG] takes
    what [Node.Get] returns, which honest nodes read from stores that hold addressed data. *)
Class DagLaws `{StoreDeps} `{Addressing} (W : Type) `{!DagEnv W} := {
  dg_ok : W -> Prop;
  dg_blocks : W -> gmap bytes bytes;
  dg_addressed w h d : dg_ok w -> dg_blocks w !! h = Some d -> addressed h d;
  dg_Has_law c m :
    triple (fun w => dg_ok w /\ dg_blocks w = m) (dg_Has c)
      (fun b w => (dg_ok w /\ dg_blocks w = m) /\ b = bool_decide (is_Some (m !! Hash c))) (fun w => dg_ok w /\ dg_blocks w = m);
  dg_Get_law c m :
    triple (fun w => dg_ok w /\ dg_blocks w = m) (dg_Get c)
      (fun d w => (dg_ok w /\ dg_blocks w = m) /\ m !! Hash c = Some d) (fun w => dg_ok w /\ dg_blocks w = m);
  dg_Put_law c d m :
    addressed (Hash c) d ->
    triple (fun w => dg_ok w /\ dg_blocks w = m) (dg_Put c d)
      (fun _ w => dg_ok w /\ m ⊆ dg_blocks w /\ dg_blocks w !! Hash c = Some d) (fun w => dg_ok w /\ m ⊆ dg_blocks w);
  dg_fetch_law c m :
    triple (fun w => dg_ok w /\ dg_blocks w = m) (dg_fetch c)
      (fun d w => (dg_ok w /\ m ⊆ dg_blocks w) /\ addressed (Hash c) d) (fun w => dg_ok w /\ m ⊆ dg_blocks w);
  dg_share_law c d m :
    triple (fun w => dg_ok w /\ dg_blocks w = m) (dg_share c d)
      (fun _ w => dg_ok w /\ m ⊆ dg_blocks w) (fun w => dg_ok w /\ m ⊆ dg_blocks w)
}.

Section Achieve.
Context `{HD : StoreDeps} `{HA : Addressing} `{HL : !LinkDeps} `{HC : !EqDecision cid} {W : Type} `{HG : !DagEnv W} `{HGL : !DagLaws W}.

(** What is under [root], by the links of the blocks in [m]. *)
Inductive under (m : gmap bytes bytes) (root : cid) : cid -> Prop :=
  | under_root : under m root root
  | under_child c d child : under m root c -> m !! Hash c = Some d -> child ∈ children_of c d -> under m root child.

Definition at_least (m : gmap bytes bytes) (w : W) : Prop := dg_ok w /\ m ⊆ dg_blocks w.

(** One fetched block is local afterwards, with the links that are reported. *)
Lemma fetchOne_spec c m :
  triple (at_least m) (fetchOneDAGBlock c)
    (fun x w => at_least m w /\ exists d, dg_blocks w !! Hash c = Some d /\ x = (d, children_of c d)) (at_least m).
Proof.
  intros w [Hok Hm]. unfold fetchOneDAGBlock, mbind, M_bind, m_bind, m_wrap, m_ret.
  pose proof (dg_Has_law c (dg_blocks w) w (conj Hok eq_refl)) as Hhas.
  destruct (dg_Has c w) as [w1 [b|e]]; [|destruct Hhas as [Hok1 Hb1]; split; [done|by rewrite Hb1]].
  destruct Hhas as [[Hok1 Hb1] _]. destruct b.
  - pose proof (dg_Get_law c (dg_blocks w1) w1 (conj Hok1 eq_refl)) as Hget.
    destruct (dg_Get c w1) as [w2 [d|e]].
    + destruct Hget as [[Hok2 Hb2] Hd]. split; [split; [done|by rewrite Hb2, Hb1]|]. exists d. by rewrite Hb2.
    + destruct Hget as [Hok2 Hb2]. split; [done|by rewrite Hb2, Hb1].
  - pose proof (dg_fetch_law c (dg_blocks w1) w1 (conj Hok1 eq_refl)) as Hf.
    destruct (dg_fetch c w1) as [w2 [d|e]].
    2: { destruct Hf as [Hok2 Hb2]. split; [done|]. rewrite <- Hb1 in Hm. by trans (dg_blocks w1). }
    destruct Hf as [[Hok2 Hb2] Haddr]. assert (m ⊆ dg_blocks w2) as Hm2 by (rewrite <- Hb1 in Hm; by trans (dg_blocks w1)).
    pose proof (dg_Put_law c d (dg_blocks w2) Haddr w2 (conj Hok2 eq_refl)) as Hp.
    destruct (dg_Put c d w2) as [w3 [u|e]].
    + destruct Hp as (Hok3 & Hb3 & Hd). split; [split; [done|by trans (dg_blocks w2)]|]. by exists d.
    + destruct Hp as [Hok3 Hb3]. split; [done|by trans (dg_blocks w2)].
Qed.

(** *** Fetching *)

(** Whatever is enqueued is waiting, being fetched, or local with all its links enqueued; a pipeline
    that has failed only keeps its store in order. *)
Definition settled (m : gmap bytes bytes) (visited : list cid) (c : cid) : Prop :=
  exists d, m !! Hash c = Some d /\ forall child, child ∈ children_of c d -> child ∈ visited.

Definition fetch_ok (s : fetchPipeline (W := W)) : Prop :=
  dg_ok s.(fp_world) /\
  (fp_live s -> forall c, c ∈ s.(fp_visited) ->
    c ∈ s.(fp_queue) \/ c ∈ s.(fp_running) \/ settled (dg_blocks s.(fp_world)) s.(fp_visited) c).

Lemma settled_mono m m' v v' c : m ⊆ m' -> v ⊆ v' -> settled m v c -> settled m' v' c.
Proof.
  intros Hm Hv (d & Hd & Hch). exists d. split; [by eapply lookup_weaken|]. intros child Hc. by apply Hv, Hch.
Qed.

(** [s'] is [s] with more enqueued. *)
Record enqueued (s s' : fetchPipeline (W := W)) : Prop := {
  eq_world : s'.(fp_world) = s.(fp_world);
  eq_running : s'.(fp_running) = s.(fp_running);
  eq_err : s'.(fp_err) = s.(fp_err);
  eq_cancelled : s'.(fp_cancelled) = s.(fp_cancelled);
  eq_visited : s.(fp_visited) ⊆ s'.(fp_visited);
  eq_queue : s.(fp_queue) ⊆ s'.(fp_queue);
  eq_new c : c ∈ s'.(fp_visited) -> c ∈ s.(fp_visited) \/ c ∈ s'.(fp_queue)
}.

Lemma enqueued_refl (s : fetchPipeline (W := W)) : enqueued s s.
Proof. split; auto. Qed.

Lemma enqueued_trans (s1 s2 s3 : fetchPipeline (W := W)) : enqueued s1 s2 -> enqueued s2 s3 -> enqueued s1 s3.
Proof.
  intros [? ? ? ? ? ? H12] [? ? ? ? ? Hq H23]. split; try congruence; [set_solver..|].
  intros c Hc. destruct (H23 c Hc) as [H|H]; [|by right]. destruct (H12 c H) as [H'|H']; [by left|right; set_solver].
Qed.

Lemma enqueue_enqueued c (s : fetchPipeline (W := W)) : enqueued s (enqueue c s) /\ c ∈ (enqueue c s).(fp_visited).
Proof.
  unfold enqueue. destruct (decide _) as [Hin|Hout]; [split; [apply enqueued_refl|done]|].
  split; [|set_solver]. split; cbn; [done..|set_solver|set_solver|set_solver].
Qed.

Lemma enqueue_all children (s : fetchPipeline (W := W)) :
  let s' := foldl (fun s c => enqueue c s) s children in
  enqueued s s' /\ forall c, c ∈ children -> c ∈ s'.(fp_visited).
Proof.
  revert s. induction children as [|c children IH]; intros s; cbn [foldl]; [split; [apply enqueued_refl|set_solver]|].
  destruct (enqueue_enqueued c s) as [He Hc], (IH (enqueue c s)) as [He' Hcs]. cbv zeta in *.
  split; [by eapply enqueued_trans|]. intros x [->|Hx]%elem_of_cons; [|by apply Hcs]. by apply (eq_visited _ _ He').
Qed.

(** Enqueueing the links of a block that is local settles it. *)
Lemma finish_ok c (s : fetchPipeline (W := W)) :
  dg_ok s.(fp_world) ->
  (fp_live s -> forall x, x ∈ s.(fp_visited) -> x <> c ->
    x ∈ s.(fp_queue) \/ x ∈ s.(fp_running) \/ settled (dg_blocks s.(fp_world)) s.(fp_visited) x) ->
  fetch_ok (finish c s).
Proof.
  intros Hok Hv. unfold finish.
  pose proof (fetchOne_spec c (dg_blocks s.(fp_world)) s.(fp_world) (conj Hok (reflexivity _))) as Hone.
  destruct (fetchOneDAGBlock c (fp_world s)) as [w [[data children]|e]].
  2: { destruct Hone as [Hok' _]. split; [done|]. intros [He _]. cbn in He. unfold setErr in He. by destruct (fp_err s). }
  destruct Hone as ([Hok' Hm] & d & Hd & [= -> ->]). set (s1 := mkFetch w _ _ _ _ _ _ _).
  destruct (enqueue_all (children_of c d) s1) as [He Hch]. cbv zeta in *. set (s2 := foldl _ s1 _) in *.
  split; [by rewrite (eq_world _ _ He)|]. unfold fp_live. rewrite (eq_err _ _ He), (eq_cancelled _ _ He), (eq_world _ _ He), (eq_running _ _ He).
  intros Herr x Hx. destruct (decide (x = c)) as [->|Hne].
  - right; right. exists d. split; [done|]. intros child Hc. by apply Hch.
  - destruct (eq_new _ _ He x Hx) as [Hold|Hq]; [|by left].
    destruct (Hv Herr x Hold Hne) as [Hq|[Hr|Hs]]; [left; by apply (eq_queue _ _ He)|by right; left|right; right].
    eapply settled_mono; [exact Hm|exact (eq_visited _ _ He)|exact Hs].
Qed.

Lemma elem_of_delete_or {A} (l : list A) i c x : l !! i = Some c -> x ∈ l -> x = c \/ x ∈ delete i l.
Proof.
  intros Hi Hx. apply list_elem_of_lookup in Hx as [j Hj]. destruct (decide (j = i)) as [->|Hne]; [left; congruence|right].
  apply list_elem_of_lookup. destruct (decide (j < i)%nat).
  - exists j. by rewrite list_lookup_delete_lt.
  - exists (j - 1)%nat. rewrite list_lookup_delete_ge by lia. by replace (S (j - 1)) with j by lia.
Qed.

Lemma fstep_ok (s s' : fetchPipeline (W := W)) : fetch_ok s -> fstep s s' -> fetch_ok s'.
Proof.
  intros [Hok Hv] Hstep. destruct Hstep as [i c s Hi He Hroom|i c s Hi|i c s Hi He|i c e s Hi He|s He].
  - split; [done|]. cbn. intros _ x Hx. destruct (Hv He x Hx) as [Hq|[Hr|Hs]]; [|right; left; set_solver|by right; right].
    destruct (elem_of_delete_or _ _ _ _ Hi Hq) as [->|Hq']; [right; left; set_solver|by left].
  - apply finish_ok; [done|]. cbn. intros He x Hx Hne. destruct (Hv He x Hx) as [Hq|[Hr|Hs]]; [by left| |by right; right].
    destruct (elem_of_delete_or _ _ _ _ Hi Hr) as [->|Hr']; [done|by right; left].
  - split; [done|]. by intros Hlive.
  - split; [done|]. intros [Herr Hc]. cbn in *. destruct He. split; [|done]. by destruct (fp_err s).
  - split; [done|]. by intros [_ Hc].
Qed.

Lemma start_ok w root : dg_ok w -> fetch_ok (startFetch w root) /\ root ∈ (startFetch w root).(fp_visited).
Proof.
  intros Hok. destruct (enqueue_enqueued root (mkFetch w [] [] [] None 0 0 false)) as [He Hin]. split; [|done].
  split; [done|]. intros _ c Hc. left. destruct (eq_new _ _ He c Hc) as [H|H]; [set_solver|done].
Qed.

Lemma fstep_visited (s s' : fetchPipeline (W := W)) : fstep s s' -> s.(fp_visited) ⊆ s'.(fp_visited).
Proof.
  intros Hstep. destruct Hstep as [| i c s Hi| | |]; [done| |done|done|done].
  unfold finish. destruct (fetchOneDAGBlock c _) as [w [[data children]|e]]; [|done].
  match goal with |- _ ⊆ fp_visited (foldl _ ?s1 ?ch) => destruct (enqueue_all ch s1) as [He _] end. exact (eq_visited _ _ He).
Qed.

Lemma steps_ok (s s' : fetchPipeline (W := W)) : rtc fstep s s' -> fetch_ok s -> fetch_ok s' /\ s.(fp_visited) ⊆ s'.(fp_visited).
Proof.
  induction 1 as [s|s1 s2 s3 Hstep _ IH]; [done|]. intros Hok. pose proof (fstep_visited _ _ Hstep) as Hv.
  destruct IH as [Hok' Hv']; [by eapply fstep_ok|]. split; [done|set_solver].
Qed.

(** C33: a fetch that succeeds has brought the whole tree to the local store. Whatever the order
    in which the workers take and finish their blocks, if the pipeline ends without an error and the
    context was not cancelled, every block under the root, by the links of the blocks that are now
    local, is local. *)
Theorem fetched_tree_is_local (w : W) (root : cid) (s : fetchPipeline (W := W)) :
  dg_ok w -> rtc fstep (startFetch w root) s -> fetched s -> fetch_result s = Ok tt -> s.(fp_cancelled) = false ->
  forall c, under (dg_blocks s.(fp_world)) root c -> is_Some (dg_blocks s.(fp_world) !! Hash c).
Proof.
  intros Hw Hrun [Hq Hr] Hres Hlive. destruct (start_ok w root Hw) as [Hok Hroot].
  destruct (steps_ok _ _ Hrun Hok) as [[_ Hv] Hsub]. unfold fetch_result in Hres.
  destruct (fp_err s) as [e|] eqn:He; [done|]. specialize (Hv (conj He Hlive)). rewrite Hq, Hr in Hv.
  assert (forall c, c ∈ fp_visited s -> settled (dg_blocks (fp_world s)) (fp_visited s) c) as Hset.
  { intros c Hc. destruct (Hv c Hc) as [?|[?|?]]; [set_solver..|done]. }
  assert (forall c, under (dg_blocks (fp_world s)) root c -> c ∈ fp_visited s) as Hall.
  { intros c Hc. induction Hc as [|c d child _ IH Hd Hch]; [by apply Hsub|].
    destruct (Hset c IH) as (d' & Hd' & Hcl). apply Hcl. by simplify_eq. }
  intros c Hc. destruct (Hset c (Hall c Hc)) as (d & Hd & _). by exists d.
Qed.

(** C36: a fetch or a share whose context is cancelled reports success without having done anything.
    When the caller's context is cancelled before a worker takes the root, the workers drop what is
    queued and no error is recorded: the call returns [nil] with the stores as they were. *)
Theorem cancelled_pipelines_succeed (concurrency : nat) (w : W) (root : cid) :
  (exists s, rtc fstep (startFetch w root) s /\ fetched s /\ fetch_result s = Ok tt /\ s.(fp_world) = w) /\
  (exists s, rtc (sstep concurrency) (startShare w root) s /\ shared s /\ share_result s = Ok tt /\ s.(sp_world) = w /\ s.(sp_shared) = []).
Proof.
  split; eexists.
  - split; [eapply rtc_l; [apply FCancel; reflexivity|]; eapply rtc_l; [apply (FDrop 0 root); [reflexivity|by intros []]|apply rtc_refl]|done].
  - split; [eapply rtc_l; [apply SCancel; reflexivity|]; eapply rtc_l; [apply (SStop _ 0 root); [reflexivity|by intros []]|apply rtc_refl]|done].
Qed.

(** *** Termination *)

Section Terminates.
(** The tree: a finite set of identifiers with the root that the links of its blocks do not leave. *)
Context (U : list cid) (Hclosed : forall c d child, c ∈ U -> addressed (Hash c) d -> child ∈ children_of c d -> child ∈ U).

Record bounded (s : fetchPipeline (W := W)) : Prop := {
  bd_nodup : NoDup s.(fp_visited);
  bd_tree : s.(fp_visited) ⊆ U;
  bd_queue : s.(fp_queue) ⊆ s.(fp_visited);
  bd_running : s.(fp_running) ⊆ s.(fp_visited)
}.

(** Every enqueued block is taken once and finished once, and the context is cancelled at most once. *)
Definition work_left (s : fetchPipeline (W := W)) : nat :=
  2 * (length U - length s.(fp_visited)) + 2 * length s.(fp_queue) + length s.(fp_running) + (if s.(fp_cancelled) then 0 else 1).

Lemma visited_length s : bounded s -> (length s.(fp_visited) <= length U)%nat.
Proof. intros Hb. apply submseteq_length, NoDup_submseteq; [apply bd_nodup, Hb|]. intros x Hx. by apply (bd_tree _ Hb). Qed.

Lemma enqueue_bounded c s : c ∈ U -> bounded s -> bounded (enqueue c s) /\ work_left (enqueue c s) = work_left s.
Proof.
  intros Hc Hb. pose proof Hb as [Hn Ht Hq Hr]. unfold enqueue. destruct (decide _) as [Hin|Hout]; [done|].
  assert (bounded (mkFetch s.(fp_world) (c :: s.(fp_visited)) (s.(fp_queue) ++ [c]) s.(fp_running) s.(fp_err) s.(fp_bytes) s.(fp_blocks) s.(fp_cancelled)))
    as Hb'. { split; cbn; [by constructor|set_solver|set_solver|set_solver]. }
  split; [done|]. pose proof (visited_length _ Hb') as Hlen. unfold work_left. cbn in *. rewrite length_app. cbn. lia.
Qed.

Lemma enqueue_all_bounded children s :
  children ⊆ U -> bounded s ->
  bounded (foldl (fun s c => enqueue c s) s children) /\ work_left (foldl (fun s c => enqueue c s) s children) = work_left s.
Proof.
  revert s. induction children as [|c children IH]; intros s Hch Hb; cbn [foldl]; [done|].
  destruct (enqueue_bounded c s) as [Hb' Hw]; [set_solver|done|]. destruct (IH (enqueue c s)) as [Hb'' Hw']; [set_solver|done|].
  split; [done|]. congruence.
Qed.

Lemma finish_bounded c s :
  dg_ok s.(fp_world) -> c ∈ U -> bounded s -> bounded (finish c s) /\ work_left (finish c s) = work_left s.
Proof.
  intros Hok Hc Hb. unfold finish.
  pose proof (fetchOne_spec c (dg_blocks s.(fp_world)) s.(fp_world) (conj Hok (reflexivity _))) as Hone.
  destruct (fetchOneDAGBlock c (fp_world s)) as [w [[data children]|e]]; [|by split; [destruct Hb|]].
  destruct Hone as ([Hok' _] & d & Hd & [= -> ->]). set (s1 := mkFetch w _ _ _ _ _ _ _).
  change (work_left s) with (work_left s1). apply enqueue_all_bounded; [|by destruct Hb].
  intros child Hch. eapply Hclosed; [exact Hc| |exact Hch]. by eapply dg_addressed.
Qed.

Lemma delete_length_lookup {A} (l : list A) i c : l !! i = Some c -> length l = S (length (delete i l)).
Proof. intros Hi. rewrite length_delete by done. apply lookup_lt_Some in Hi. lia. Qed.

Lemma delete_subset {A} (l : list A) i : delete i l ⊆ l.
Proof. intros x Hx. eapply elem_of_submseteq; [exact Hx|]. apply sublist_submseteq, sublist_delete. Qed.

Lemma fstep_bounded s s' :
  fetch_ok s -> bounded s -> fstep s s' -> bounded s' /\ (work_left s' < work_left s)%nat.
Proof.
  intros [Hok _] Hb Hstep. pose proof Hb as [Hn Ht Hq Hr].
  destruct Hstep as [i c s Hi He Hroom|i c s Hi|i c s Hi He|i c e s Hi He|s He];
    [pose proof (delete_length_lookup _ _ _ Hi) as Hlen; apply list_elem_of_lookup_2 in Hi as Hin..|].
  - split; [split; cbn; [done|done|pose proof (delete_subset (fp_queue s) i); set_solver|set_solver]|].
    unfold work_left. cbn. rewrite length_app. cbn. lia.
  - set (s1 := fp_set_running (delete i (fp_running s)) s).
    assert (bounded s1) as Hb1 by (split; cbn; [done|done|done|pose proof (delete_subset (fp_running s) i); set_solver]).
    destruct (finish_bounded c s1) as [Hb' Hw]; [done|by apply Ht, Hr|done|]. split; [done|]. rewrite Hw. unfold work_left, s1. cbn. lia.
  - split; [split; cbn; [done|done|pose proof (delete_subset (fp_queue s) i); set_solver|done]|]. unfold work_left. cbn. lia.
  - split; [split; cbn; [done|done|done|pose proof (delete_subset (fp_running s) i); set_solver]|]. unfold work_left. cbn. lia.
  - split; [by split|]. unfold work_left. cbn. rewrite He. lia.
Qed.

Lemma nsteps_bounded n s s' :
  nsteps fstep n s s' -> fetch_ok s -> bounded s -> (n + work_left s' <= work_left s)%nat.
Proof.
  induction 1 as [s|n s1 s2 s3 Hstep _ IH]; intros Hok Hb; [lia|].
  destruct (fstep_bounded s1 s2 Hok Hb Hstep) as [Hb' Hlt]. specialize (IH (fstep_ok _ _ Hok Hstep) Hb'). lia.
Qed.

Lemma finish_cancelled c (s : fetchPipeline (W := W)) : (finish c s).(fp_cancelled) = s.(fp_cancelled).
Proof.
  unfold finish. destruct (fetchOneDAGBlock c _) as [w [[data children]|e]]; [|done].
  match goal with |- fp_cancelled (foldl _ ?s1 ?ch) = _ => destruct (enqueue_all ch s1) as [He _] end. exact (eq_cancelled _ _ He).
Qed.

(** C34: a fetch ends. On a tree with finitely many blocks no schedule of the workers takes more
    than two steps per block, one to take it and one to finish it, and one for a cancellation, whether
    blocks are found or not; and as long as something is queued or being fetched some worker can move. *)
Theorem fetch_terminates (w : W) (root : cid) :
  dg_ok w -> root ∈ U ->
  (forall n s, nsteps fstep n (startFetch w root) s -> (n <= 2 * length U + 1)%nat) /\
  (forall s, rtc fstep (startFetch w root) s -> fetched s \/ exists s', fstep s s' /\ s'.(fp_cancelled) = s.(fp_cancelled)).
Proof.
  intros Hw Hroot. destruct (start_ok w root Hw) as [Hok _].
  destruct (enqueue_bounded root (mkFetch w [] [] [] None 0 0 false) Hroot) as [Hb Hwork].
  { split; cbn; [constructor|set_solver|set_solver|set_solver]. }
  split.
  - intros n s Hrun. pose proof (nsteps_bounded n _ s Hrun Hok Hb) as Hle. unfold startFetch in Hle.
    rewrite Hwork in Hle. unfold work_left in Hle. cbn in Hle. lia.
  - intros s _. destruct (fp_running s) as [|c r] eqn:Hr.
    + destruct (fp_queue s) as [|c q] eqn:Hq; [by left|right]. destruct (decide (fp_live s)) as [Hlive|Hdone].
      * eexists. split; [eapply (FTake 0 c); [by rewrite Hq|done|]|done]. rewrite Hr. unfold defaultDAGFetchConcurrency. cbn. lia.
      * eexists. split; [eapply (FDrop 0 c); [by rewrite Hq|done]|done].
    + right. eexists. split; [eapply (FFinish 0 c); by rewrite Hr|]. by rewrite finish_cancelled.
Qed.

End Terminates.

(** *** Sharing *)

(** The blocks that were walked are on their way or put, each once and with its data, and their links
    are walked or about to be. *)
Record share_ok (root : cid) (s : sharePipeline (W := W)) : Prop := {
  sh_ok : dg_ok s.(sp_world);
  sh_once : NoDup (s.(sp_jobs) ++ s.(sp_shared)).*1 /\ (s.(sp_jobs) ++ s.(sp_shared)).*1 ⊆ s.(sp_visited);
  sh_root : sp_live s -> root ∈ s.(sp_visited) \/ root ∈ s.(sp_walk);
  sh_walked : sp_live s -> forall c, c ∈ s.(sp_visited) ->
    exists d, dg_blocks s.(sp_world) !! Hash c = Some d /\ (c, d) ∈ s.(sp_jobs) ++ s.(sp_shared) /\
      forall child, child ∈ children_of c d -> child ∈ s.(sp_visited) \/ child ∈ s.(sp_walk)
}.

Lemma walk_ok concurrency root i c (s s' : sharePipeline (W := W)) :
  share_ok root s -> s.(sp_walk) !! i = Some c ->
  walk concurrency c (sp_set_walk (delete i s.(sp_walk)) s) = Some s' -> share_ok root s'.
Proof.
  intros [Hok [Hnd Hsub] Hroot Hwalked] Hi. unfold walk. cbn [sp_set_walk sp_err sp_visited sp_jobs sp_world sp_walk sp_shared].
  assert (forall x, x ∈ sp_visited s \/ x ∈ sp_walk s -> x = c \/ x ∈ sp_visited s \/ x ∈ delete i (sp_walk s)) as Hdel.
  { intros x [Hx|Hx]; [by right; left|]. destruct (elem_of_delete_or _ _ _ _ Hi Hx); auto. }
  destruct (decide (~ sp_live (sp_set_walk (delete i (sp_walk s)) s))) as [Hdone|Hlive].
  { intros [= <-]. by split. }
  apply dec_stable in Hlive. assert (sp_live s) as He by exact Hlive.
  destruct (decide (c ∈ sp_visited s)) as [Hc|Hc].
  { intros [= <-]. split; cbn; [done|done| |].
    - intros _. destruct (Hdel root (Hroot He)) as [->|?]; auto.
    - intros _ x Hx. destruct (Hwalked He x Hx) as (d & Hd & Hj & Hch). exists d. split_and!; [done..|].
      intros child Hchild. destruct (Hdel child (Hch child Hchild)) as [->|?]; auto. }
  destruct (_ <=? _)%nat; [done|].
  pose proof (dg_Get_law c (dg_blocks (sp_world s)) (sp_world s) (conj Hok eq_refl)) as Hget.
  destruct (dg_Get c (sp_world s)) as [w [d|e]]; intros [= <-].
  2: { destruct Hget as [Hok' _]. rewrite (proj1 He). split; cbn; [done|split; [done|set_solver]|by intros []..]. }
  destruct Hget as [[Hok' Hb] Hd]. split; cbn.
  - done.
  - rewrite fmap_app, fmap_app in *. cbn. split; [|set_solver]. rewrite <- app_assoc. cbn.
    apply NoDup_app in Hnd as (Hnd1 & Hdisj & Hnd2). apply NoDup_app. split_and!; [done| |].
    + intros x Hx [->|Hx']%elem_of_cons; [|by eapply Hdisj]. apply Hc, Hsub. set_solver.
    + constructor; [|done]. intros Hx. apply Hc, Hsub. set_solver.
  - intros _. destruct (Hdel root (Hroot He)) as [->|[?|?]]; set_solver.
  - intros _ x [->|Hx]%elem_of_cons.
    + exists d. rewrite Hb. split_and!; [done|set_solver|]. intros child Hch. right. set_solver.
    + destruct (Hwalked He x Hx) as (d' & Hd' & Hj & Hch). exists d'. rewrite Hb. split_and!; [done|set_solver|].
      intros child Hchild. destruct (Hdel child (Hch child Hchild)) as [->|[?|?]]; set_solver.
Qed.

Lemma put_job_ok root c data jobs (s : sharePipeline (W := W)) :
  share_ok root s -> s.(sp_jobs) = (c, data) :: jobs -> share_ok root (put_job c data (sp_set_jobs jobs s)).
Proof.
  intros [Hok [Hnd Hsub] Hroot Hwalked] Hj. rewrite Hj in *. unfold put_job. cbn [sp_set_jobs sp_err sp_world sp_visited sp_walk sp_jobs sp_shared].
  assert (NoDup (jobs ++ sp_shared s).*1 /\ (jobs ++ sp_shared s).*1 ⊆ sp_visited s) as Hrest.
  { cbn in Hnd, Hsub. apply NoDup_cons in Hnd as [_ Hnd]. split; [done|]. intros x Hx. apply Hsub. by right. }
  destruct (decide (~ sp_live (sp_set_jobs jobs s))) as [Hdone|Hlive]; [by split|].
  apply dec_stable in Hlive. assert (sp_live s) as He by exact Hlive.
  pose proof (dg_share_law c data (dg_blocks (sp_world s)) (sp_world s) (conj Hok eq_refl)) as Hput.
  destruct (dg_share c data (sp_world s)) as [w [u|e]]; destruct Hput as [Hok' Hm].
  2: { rewrite (proj1 He). split; cbn; [done|done|by intros []..]. }
  assert (forall x, x ∈ (c, data) :: jobs ++ sp_shared s <-> x ∈ jobs ++ (c, data) :: sp_shared s) as Hperm.
  { intros x. by rewrite Permutation_middle. }
  split; cbn.
  - done.
  - rewrite <- Permutation_middle. done.
  - done.
  - intros _ x Hx. destruct (Hwalked He x Hx) as (d & Hd & Hin & Hch). exists d. split_and!; [by eapply lookup_weaken| |done].
    by apply Hperm.
Qed.

Lemma sstep_ok concurrency root s s' : share_ok root s -> sstep concurrency s s' -> share_ok root s'.
Proof.
  intros Hs Hstep. destruct Hstep as [i c s s2 Hi Hw|i c s Hi Hdone|c d jobs s Hj|c d e jobs s Hj Hdone|s Hc]; [by eapply walk_ok| |by eapply put_job_ok| |].
  - destruct Hs as [Hok [Hnd Hsub] _ _]. split; cbn; [done|split; [done|set_solver]|by intros Hlive..].
  - destruct Hs as [Hok [Hnd Hsub] _ _]. rewrite Hj in *. cbn in Hnd, Hsub. apply NoDup_cons in Hnd as [_ Hnd].
    split; cbn; [done|split; [done|]|..]; [intros x Hx; apply Hsub; by right|..];
      intros [Herr Hc]; destruct Hdone; (split; [cbn in Herr; by destruct (sp_err s)|done]).
  - destruct Hs as [Hok [Hnd Hsub] _ _]. split; cbn; [done|done|by intros []..].
Qed.

Lemma startShare_ok w root : dg_ok w -> share_ok root (startShare w root).
Proof. intros Hw. split; cbn; [done|split; [constructor|set_solver]| |set_solver]. intros _. right. by apply list_elem_of_singleton. Qed.

(** C35: a share that succeeds has put the whole tree on the ring. Whatever the order of the walkers
    and the workers, if the pipeline ends without an error and the context was not cancelled, every
    block under the root in the local store was put, with its data and as part of the tree, and each
    one once. *)
Theorem shared_tree_is_put (concurrency : nat) (w : W) (root : cid) (s : sharePipeline (W := W)) :
  dg_ok w -> rtc (sstep concurrency) (startShare w root) s -> shared s -> share_result s = Ok tt -> s.(sp_cancelled) = false ->
  NoDup s.(sp_shared).*1 /\
  forall c, under (dg_blocks s.(sp_world)) root c -> exists d, dg_blocks s.(sp_world) !! Hash c = Some d /\ (c, d) ∈ s.(sp_shared).
Proof.
  intros Hw Hrun [Hq Hj] Hres Hlive. assert (share_ok root s) as [Hok [Hnd _] Hroot Hwalked].
  { refine (rtc_ind_r (fun s => share_ok root s) _ (startShare_ok w root Hw) _ _ Hrun).
    intros s1 s2 _ Hstep Hs1. by eapply sstep_ok. }
  unfold share_result in Hres. assert (sp_live s) as Hl by (split; [by destruct (sp_err s)|done]).
  specialize (Hroot Hl). specialize (Hwalked Hl). rewrite Hj, Hq in *. split; [done|].
  assert (forall c, under (dg_blocks (sp_world s)) root c -> c ∈ sp_visited s) as Hall.
  { intros c Hc. induction Hc as [|c d child _ IH Hd Hch].
    - destruct Hroot as [?|Hin]; [done|set_solver].
    - destruct (Hwalked c IH) as (d' & Hd' & _ & Hcl). simplify_eq.
      destruct (Hcl child Hch) as [?|Hin]; [done|set_solver]. }
  intros c Hc. destruct (Hwalked c (Hall c Hc)) as (d & Hd & Hin & _). by exists d.
Qed.
End Achieve.

(** ** The properties apply *)

(** A node fetches a tree from a peer over the in-process transport, and shares it with a ring
    that is a map. *)
Module FetchExample.
Import MemStore PlacementExample.

(** Identifiers with [false] are dag-pb, and each byte of such a block is a link to the raw block of
    that byte. *)
#[export] Instance links : LinkDeps (H := deps) := {|
  cid_is_dagpb := fun c => negb c.1;
  DecodeProtobufBlock := fun data _ => Ok ((fun b => (true, [b])) <$> data)
|}.
#[export] Instance cid_dec : EqDecision (@cid deps) := _ : EqDecision (bool * bytes).

#[local] Abbreviation store := (@bstore deps).
#[local] Abbreviation world := (BlockWorld (S := store) (L := store)).

Definition self : NodeID := test_id x0a.
Definition peer : NodeAddr := mkNodeAddr (test_id x64) "".
#[export] Instance peer_env : DagEnv world := FetchDAGFromPeer_env (HB := block_env self) peer.

Definition root : @cid deps := (false, [x01; x02]).
Definition leaf (b : byte) : @cid deps := (true, [b]).
Definition leaves : list (@cid deps) := [leaf x01; leaf x02].

Definition peer_blocks : gmap bytes bytes := {[ [x01; x02] := [x01; x02]; [x01] := [x01]; [x02] := [x02] ]}.
Definition pair_cluster : Cluster :=
  mkCluster [] {[ self := NewRouting self "" (config_with_replication 1); na_id peer := NewRouting (na_id peer) "" (config_with_replication 1) ]} ∅ [].
Definition start : world :=
  mkBlockWorld pair_cluster {[ self := SetLocalBlocks (∅ : store) fresh; na_id peer := NewBlocks (peer_blocks : store) ]} fresh 0 (fun l => l).

Definition peer_ok (w : world) : Prop :=
  sound_world w /\ w.(bw_cluster) = pair_cluster /\ is_Some (block_node self w).(bn_localBlocks).
Definition local_blocks (w : world) : gmap bytes bytes := default ∅ (kept_locally w self).

Lemma sound_with_local (w : world) (l : gmap bytes bytes) :
  peer_ok w -> (forall mh d, l !! mh = Some d -> mh = d) ->
  peer_ok (bw_set_node self (bn_set_local (Some (l : store)) (block_node self w)) w).
Proof.
  intros ([H1 H2 H3 H4 H5] & Hc & _) Hl. split; [|by split; [|rewrite block_node_set, decide_True by done]].
  split; [| | | |done]; unfold stored, kept_locally in *; intros n; rewrite block_node_set; (destruct (decide (n = self)) as [->|Hn]; cbn).
  - apply (H1 self).
  - apply (H1 n).
  - done.
  - apply (H2 n).
  - apply (H3 self).
  - apply (H3 n).
  - intros m mh d [= <-]. apply Hl.
  - apply (H4 n).
Qed.

Lemma view_sound (w0 w : world) :
  sound_world w0 -> view w0.(bw_cluster) (stored w0) (kept_locally w0) (in_flight w0) w -> sound_world w.
Proof.
  intros [H1 H2 H3 H4 H5] Hv. split.
  - intros n. apply (v_blocks _ _ _ _ _ Hv n).
  - done.
  - intros n. rewrite (view_stored _ _ _ _ _ n Hv). apply H3.
  - intros n. rewrite (view_kept _ _ _ _ _ n Hv). apply H4.
  - apply (v_arrival _ _ _ _ _ Hv).
Qed.

Lemma peer_fetch c m :
  triple (fun w => peer_ok w /\ local_blocks w = m) (dg_fetch c)
    (fun d w => (peer_ok w /\ m ⊆ local_blocks w) /\ Hash c = d) (fun w => peer_ok w /\ m ⊆ local_blocks w).
Proof.
  intros w0 [(Hs & Hc & Hl) <-].
  assert (na_id peer ∈ dom (cl_nodes (bw_cluster w0))) as Hin by (rewrite Hc; by vm_compute).
  assert (connected (bw_cluster w0)) as Hconn by (rewrite Hc; intros a b; apply not_elem_of_empty).
  pose proof (FetchBlock_reads self peer c (Hash c) _ _ _ _ Hconn Hin (sound_agree w0 c (Hash c) Hs eq_refl) w0 (sound_view w0 Hs)) as Hread.
  change (dg_fetch c w0) with (local_FetchBlock self peer c w0).
  assert (forall w, view w0.(bw_cluster) (stored w0) (kept_locally w0) (in_flight w0) w -> peer_ok w /\ local_blocks w0 ⊆ local_blocks w) as Hview.
  { intros w Hv. pose proof (view_kept _ _ _ _ _ self Hv) as Hk. unfold local_blocks. rewrite Hk. split; [|done].
    split; [by eapply view_sound|]. split; [by rewrite (v_cluster _ _ _ _ _ Hv)|].
    unfold kept_locally in Hk. destruct Hl as [l Hl]. rewrite Hl in Hk.
    destruct (bn_localBlocks (block_node self w)); [by eexists|done]. }
  destruct (local_FetchBlock self peer c w0) as [w [d|e]]; destruct Hread as [Hv Hd]; [split; [by apply Hview|done]|by apply Hview].
Qed.

Lemma on_local {A} (x : M store A) y (w : world) l :
  (block_node self w).(bn_localBlocks) = Some l ->
  localOrRingBlocks (HB := block_env self) x y w = (bw_set_node self (bn_set_local (Some (x l).1) (block_node self w)) w, (x l).2).
Proof.
  intros Hl. unfold localOrRingBlocks, mbind, M_bind, m_bind, getNode_, on_localBlocks. cbn [be_node be_set_node block_env].
  rewrite !Hl. by destruct (x l) as [l0 [a|e]].
Qed.

Lemma local_blocks_set w (l : store) : local_blocks (bw_set_node self (bn_set_local (Some l) (block_node self w)) w) = l.
Proof. unfold local_blocks, kept_locally. by rewrite block_node_set, decide_True. Qed.

Lemma local_addressed (w : world) (l : gmap bytes bytes) :
  peer_ok w -> (block_node self w).(bn_localBlocks) = Some (l : store) -> local_blocks w = l /\ forall mh d, l !! mh = Some d -> mh = d.
Proof.
  intros (Hs & _ & _) Hl. unfold local_blocks, kept_locally. rewrite Hl. split; [done|]. intros mh d.
  apply (sw_local_addressed w Hs self). unfold kept_locally. by rewrite Hl.
Qed.

#[export] Program Instance peer_dag_laws : DagLaws world := {| dg_ok := peer_ok; dg_blocks := local_blocks |}.
Next Obligation.
  intros w h d (Hs & _ & [l Hl]). unfold local_blocks, kept_locally. rewrite Hl. intros Hd.
  eapply (sw_local_addressed w Hs self); [|exact Hd]. unfold kept_locally. by rewrite Hl.
Qed.
Next Obligation.
  intros c m w [Hok <-]. pose proof Hok as (_ & _ & [l Hl]). destruct (local_addressed w l Hok Hl) as [Hb Ha].
  cbn [dg_Has peer_env FetchDAGFromPeer_env dag_env]. rewrite (on_local _ _ w l Hl). cbn.
  rewrite local_blocks_set, Hb. split; [|done]. split; [by apply sound_with_local|done].
Qed.
Next Obligation.
  intros c m w [Hok <-]. pose proof Hok as (_ & _ & [l Hl]). destruct (local_addressed w l Hok Hl) as [Hb Ha].
  cbn [dg_Get peer_env FetchDAGFromPeer_env dag_env]. rewrite (on_local _ _ w l Hl), Hb.
  pose proof (st_Get_law (S := store) c l l (conj I eq_refl)) as Hg. cbn [contents plain_laws localBlockStore_laws] in Hg.
  destruct (st_Get c l) as [l' [d|e]]; cbn [fst snd] in *; destruct Hg as [[_ Hl'] Hd]; cbn in Hl'; subst l';
    rewrite local_blocks_set; [split; [|done]|]; (split; [by apply sound_with_local|done]).
Qed.
Next Obligation.
  intros c d m Hcd w [Hok <-]. pose proof Hok as (_ & _ & [l Hl]). destruct (local_addressed w l Hok Hl) as [Hb Ha].
  cbn [dg_Put peer_env FetchDAGFromPeer_env dag_env]. rewrite (on_local _ _ w l Hl), Hb. cbn in Hcd.
  unfold st_Put, plain_store, localBlockStore, local_Put. cbn [NewBlockWithCid deps bs_Put fst snd].
  rewrite local_blocks_set. set (m := l : gmap bytes bytes) in *. fold m. destruct (m !! c.2) as [d'|] eqn:Hd.
  - split; [by apply sound_with_local|]. split; [done|]. cbn. rewrite Hd. f_equal. rewrite <- (Ha _ _ Hd). by subst.
  - split; [|split; [by apply insert_subseteq|by rewrite lookup_insert_eq]]. apply sound_with_local; [done|].
    intros mh x. rewrite lookup_insert_Some. intros [[<- <-]|[_ Hx]]; [done|by apply Ha].
Qed.
Next Obligation. exact peer_fetch. Qed.
Next Obligation. intros c d m w [Hok <-]. done. Qed.

Lemma start_nodes n :
  block_node n start = SetLocalBlocks (∅ : store) fresh \/ block_node n start = NewBlocks (peer_blocks : store) \/ block_node n start = fresh.
Proof.
  unfold block_node, start. cbn [bw_nodes bw_fresh]. destruct (decide (n = self)) as [->|Hn]; [left; by rewrite lookup_insert_eq|right].
  rewrite lookup_insert_ne by done. destruct (decide (n = na_id peer)) as [->|Hn']; [left|right].
  - by rewrite lookup_singleton_eq.
  - by rewrite lookup_singleton_ne.
Qed.

Lemma peer_addressed mh d : peer_blocks !! mh = Some d -> mh = d.
Proof. unfold peer_blocks. rewrite !lookup_insert_Some, lookup_singleton_Some. naive_solver. Qed.

Lemma start_ok_example : dg_ok start.
Proof.
  split; [|split; [done|by eexists]].
  split; [..|done]; intros n; unfold stored, kept_locally; destruct (start_nodes n) as [Hn|[Hn|Hn]]; rewrite Hn; try done.
  - exact peer_addressed.
  - intros m mh d [= <-]. by rewrite lookup_empty.
Qed.

#[local] Ltac take_and_finish c :=
  eapply rtc_l; [apply (FTake 0 c); [vm_compute; reflexivity|split; vm_compute; reflexivity|vm_compute; lia]|];
  eapply rtc_l; [apply (FFinish 0 c); vm_compute; reflexivity|].

Lemma fetch_run :
  exists s, rtc fstep (startFetch start root) s /\ fetched s /\ fetch_result s = Ok tt /\ s.(fp_cancelled) = false /\
    dg_blocks s.(fp_world) !! Hash root = Some [x01; x02].
Proof.
  eexists. split.
  { take_and_finish root. take_and_finish (leaf x01). take_and_finish (leaf x02). apply rtc_refl. }
  split_and!; [split; vm_compute; reflexivity|vm_compute; reflexivity..].
Qed.

Lemma fetched_tree_is_local_witness :
  exists s, rtc fstep (startFetch start root) s /\ fetched s /\
    forall c, c ∈ root :: leaves -> is_Some (dg_blocks s.(fp_world) !! Hash c).
Proof.
  destruct fetch_run as (s & Hrun & Hdone & Hres & Hlive & Hroot). exists s. split; [exact Hrun|]. split; [exact Hdone|]. intros c Hc.
  apply (fetched_tree_is_local start root s start_ok_example Hrun Hdone Hres Hlive).
  apply elem_of_cons in Hc as [->|Hc]; [apply under_root|].
  eapply under_child; [apply under_root|exact Hroot|exact Hc].
Defined.

Lemma fetch_terminates_witness :
  exists n s, nsteps fstep n (startFetch start root) s /\ fetched s /\ (n <= 7)%nat.
Proof.
  destruct fetch_run as (s & Hrun & Hdone & _). destruct (rtc_nsteps_1 _ _ Hrun) as [n Hn]. exists n, s. split; [exact Hn|]. split; [exact Hdone|].
  revert n s Hrun Hdone Hn. refine (fun n s _ _ => proj1 (fetch_terminates (root :: leaves) _ start root start_ok_example _) n s); [|by left].
  intros c d child Hc Hd Hch. apply elem_of_cons in Hc as [->|Hc]; [right; cbn in Hd; by subst d|].
  apply list_elem_of_In in Hc. destruct Hc as [<-|[<-|[]]]; by apply elem_of_nil in Hch.
Defined.

(** The ring as a map: what is shared is put in it. *)
Definition ring_world : Type := gmap bytes bytes * gmap bytes bytes.
#[export] Instance map_env : DagEnv ring_world := {|
  dg_Has := fun c w => (w, Ok (bool_decide (is_Some (w.1 !! Hash c))));
  dg_Get := fun c w => (w, match w.1 !! Hash c with Some d => Ok d | None => Err not_found end);
  dg_Put := fun c d w => ((insert_new (Hash c) d w.1, w.2), Ok tt);
  dg_fetch := fun c w => (w, Err not_found);
  dg_from := "";
  dg_share := fun c d w => ((w.1, insert_new (Hash c) d w.2), Ok tt)
|}.

Lemma insert_new_grows (h d : bytes) (m : gmap bytes bytes) : m ⊆ insert_new h d m.
Proof. unfold insert_new. destruct (m !! h) eqn:Hm; [done|]. by apply insert_subseteq. Qed.

#[export] Program Instance map_laws : DagLaws ring_world := {|
  dg_ok := fun w => forall h d, w.1 !! h = Some d -> addressed h d;
  dg_blocks := fst
|}.
Next Obligation. auto. Qed.
Next Obligation. intros c m w [Hok <-]. done. Qed.
Next Obligation. intros c m w [Hok <-]. cbn. by destruct (w.1 !! c.2) as [d|]. Qed.
Next Obligation.
  intros c d m Hcd w [Hok <-]. cbn in *. split_and!; [|apply insert_new_grows|].
  - intros h x. unfold insert_new. destruct (w.1 !! c.2) eqn:Hc; [apply Hok|]. rewrite lookup_insert_Some.
    intros [[<- <-]|[_ Hx]]; [done|by apply Hok].
  - unfold insert_new. destruct (w.1 !! c.2) as [d'|] eqn:Hc; [|by rewrite lookup_insert_eq].
    rewrite Hc. f_equal. specialize (Hok _ _ Hc). cbn in Hok. congruence.
Qed.
Next Obligation. intros c m w [Hok <-]. done. Qed.
Next Obligation. intros c d m w [Hok <-]. done. Qed.

Definition sharing : ring_world := (peer_blocks, ∅).

Lemma walk_step c (s : sharePipeline (W := ring_world)) :
  let s1 := sp_set_walk (delete 0%nat s.(sp_walk)) s in
  s.(sp_walk) !! 0%nat = Some c -> bool_decide (is_Some (walk 64 c s1)) = true -> sstep 64 s (default s1 (walk 64 c s1)).
Proof. intros s1 Hc [s' Hs]%bool_decide_eq_true. apply (SWalk 64 0 c); [done|]. fold s1. by rewrite Hs. Qed.

#[local] Ltac walk_from c := eapply rtc_l; [apply (walk_step c); vm_compute; reflexivity|].
#[local] Ltac put_next c rest :=
  eapply rtc_l; [apply (SPut 64 c (Hash c)) with (jobs := (fun x : @cid deps => (x, Hash x)) <$> rest); vm_compute; reflexivity|].

Lemma share_run :
  exists s, rtc (sstep 64) (startShare sharing root) s /\ shared s /\ share_result s = Ok tt /\ s.(sp_cancelled) = false /\ dg_blocks s.(sp_world) = peer_blocks.
Proof.
  eexists. split.
  { walk_from root. walk_from (leaf x01). walk_from (leaf x02). put_next root [leaf x01; leaf x02]. put_next (leaf x01) [leaf x02]. put_next (leaf x02) (@nil (@cid deps)). apply rtc_refl. }
  split_and!; [split; vm_compute; reflexivity|vm_compute; reflexivity..].
Qed.

Lemma shared_tree_is_put_witness :
  exists s, rtc (sstep 64) (startShare sharing root) s /\ shared s /\ forall c, c ∈ root :: leaves -> (c, Hash c) ∈ s.(sp_shared).
Proof.
  destruct share_run as (s & Hrun & Hdone & Hres & Hlive & Hb). exists s. split; [exact Hrun|]. split; [exact Hdone|]. intros c Hc.
  assert (dg_ok sharing) as Hok by (intros h d; apply peer_addressed).
  destruct (shared_tree_is_put 64 sharing root s Hok Hrun Hdone Hres Hlive) as [_ Hall].
  destruct (Hall c) as (d & Hd & Hin); [|rewrite Hb in Hd; by rewrite (peer_addressed _ _ Hd)].
  rewrite Hb. apply elem_of_cons in Hc as [->|Hc]; [apply under_root|].
  eapply under_child; [apply under_root|vm_compute; reflexivity|exact Hc].
Defined.
End FetchExample.
