(* ===== verification/RingManager.v ===== *)
(** * The private rings of a daemon (src/cmd/drings-daemon/private_manager.go)

    The manager keeps the rings the daemon joined by group identifier, a list of what is shown of
    them, and the groups file from which a restart joins them again. A ring itself is behind an
    interface, [RingEnv]; its group record and its joining are in [Groups], its store in
    [NetworkStore]. Operations on the manager take its lock for a look-up or an update only, so
    joining a ring is three steps: look, build, record. The collector and the drain of all rings
    (src/cmd/drings-daemon/gc_prune.go and replication_drain.go) are here as well. *)

From stdpp Require Import base gmap list strings relations.
From Stdlib Require Import ZArith Lia Ascii.
From S2P Require Import Prelude Hoare Chord Sha1 Hex Identity StoreDeps NetworkStore LocalGC Auth Addr KeyFiles.

Set Default Goal Selector "!".
#[local] Open Scope Z_scope.

(** ** Rings behind an interface *)

(** [E] is everything but the manager and its groups file; [R] is a pointer to a ring.
    [NewPrivateDring] stands for the constructor and the two setters of the stores after it. *)
Class RingEnv `{StoreDeps} (E R : Type) := {
  re_nbs : E -> NBS;
  re_set_nbs : NBS -> E -> E;
  NewPrivateDring : GroupIdentity -> E -> E * R;
  ring_SetMetrics : R -> E -> E;
  ring_StartServer : R -> string -> string -> M E string;
  os_MkdirAll : string -> M E unit;
  ring_SetGroupRecordCachePath : R -> string -> E -> E;
  ring_SetPublicDring : R -> E -> E;
  public_PublishSelf : M E unit;
  ring_UpdateGroupRecord : R -> M E unit;
  ring_JoinViaPublicDring : R -> M E unit;
  ring_Create : R -> E -> E;
  ring_StartBackground : R -> E -> E;
  ring_PauseBackground : R -> E -> E;
  ring_ResumeBackground : R -> E -> E;
  ring_BackgroundPaused : R -> E -> bool;
  ring_StabilizeFull : R -> E -> E;
  ring_ShareDAG : R -> cid -> M E unit;
  ring_ShareDAGWithTTL : R -> cid -> Z -> M E unit;
  ring_FetchDAG : R -> cid -> M E unit;
  ring_DeleteCID : R -> cid -> M E unit;
  ring_PruneOutOfWindowBlocks : R -> M E Z;
  ring_WaitForReplicationDrain : R -> Z -> E -> E * bool;
  ring_LeaveGroup : R -> M E unit;
  ring_Stop : R -> E -> E;
  (** The order in which a [range] over the map of rings visits its entries. *)
  range_order : E -> list (string * R) -> list (string * R);
  cid_Decode : string -> result cid
}.

Record PrivateRingInfo := mkRingInfo { ri_GroupID : string; ri_Name : string; ri_ListenAddr : string }.

(** What the manager is started with. *)
Record managerConfig := mkManagerConfig {
  mc_groupsPath : string;
  mc_dataDir : string;
  mc_metrics : bool;
  mc_advertiseIP : string;
  mc_noBgStabilize : bool
}.

Section Manager.
Context (hmac : bytes -> bytes -> bytes) `{HJ : JsonDeps (list GroupConfig)} `{HM : MultiaddrDeps}.
Context `{HD : StoreDeps} {E R : Type} `{HE : !RingEnv E R} (cfg : managerConfig).

Record mworld := mkWorld {
  mw_rings : gmap string R;
  mw_infos : list PrivateRingInfo;
  mw_fs : FileSystem;
  mw_env : E
}.

(** Operations of the ring's store, functions without and with a value but without an error. *)
Definition on_networkBlocks {A} (m : M NBS A) : M E A := fun e => let '(s, r) := m (re_nbs e) in (re_set_nbs s e, r).
Definition pure_op {A} (f : E -> E * A) : M E A := fun e => let '(e', a) := f e in (e', Ok a).

Definition in_env {A} (m : M E A) : M mworld A := fun w =>
  let '(e, r) := m w.(mw_env) in (mkWorld w.(mw_rings) w.(mw_infos) w.(mw_fs) e, r).
Definition in_fs {A} (m : M FileSystem A) : M mworld A := fun w =>
  let '(fs, r) := m w.(mw_fs) in (mkWorld w.(mw_rings) w.(mw_infos) fs w.(mw_env), r).
Definition set_manager (rings : gmap string R) (infos : list PrivateRingInfo) : M mworld unit := fun w =>
  (mkWorld rings infos w.(mw_fs) w.(mw_env), Ok tt).

Definition GroupID_String (grp : GroupIdentity) : string := NodeID_String grp.(g_GroupID).

(** ** Joining *)

(** Under the read lock. *)
Definition startRing_look (keyHex : string) : M mworld GroupIdentity :=
  match GroupIdentityFromHex hmac keyHex with
  | Err e => m_err (errorf_w "invalid group key: " e "")
  | Ok grp =>
      w ← m_get;
      if decide (is_Some (w.(mw_rings) !! GroupID_String grp)) then m_err (errorf ("already joined ring " +:+ GroupID_String grp))
      else m_ret grp
  end.

Definition anyAddr : string := "/ip4/0.0.0.0/tcp/".

Definition ring_listenAddr (listenAddr : string) : string :=
  if decide (listenAddr = "") then anyAddr +:+ "0"
  else
    match MultiaddrToTCPAddr listenAddr with
    | Ok tcp =>
        match SplitHostPort (String.list_ascii_of_string tcp) with
        | Ok (_, port) => anyAddr +:+ String.string_of_list_ascii port
        | Err _ => listenAddr
        end
    | Err _ => listenAddr
    end.

(** With no lock held. *)
Definition startRing_build (grp : GroupIdentity) (listenAddr name : string) (storageMaxBytes : Z) : M E (R * PrivateRingInfo) :=
  let groupIDStr := GroupID_String grp in
  privDring ← pure_op (NewPrivateDring grp);
  _ ← on_networkBlocks (MarkRingKnown groupIDStr);
  _ ← (if 0 <? storageMaxBytes
       then m_wrap "apply per-ring storage quota: " (on_networkBlocks (SetQuota groupIDStr storageMaxBytes)) else m_ret tt);
  _ ← (if cfg.(mc_metrics) then m_modify (ring_SetMetrics privDring) else m_ret tt);
  boundAddr ← m_wrap "start private dring server: " (ring_StartServer privDring (ring_listenAddr listenAddr) cfg.(mc_advertiseIP));
  _ ← (if decide (cfg.(mc_dataDir) = "") then m_ret tt
       else
         let groupCacheDir := cfg.(mc_dataDir) +:+ "/groups" in
         mk ← m_try (os_MkdirAll groupCacheDir);
         match mk with
         | Ok _ => m_modify (ring_SetGroupRecordCachePath privDring (groupCacheDir +:+ "/" +:+ groupIDStr +:+ ".record"))
         | Err _ => m_ret tt
         end);
  _ ← m_modify (ring_SetPublicDring privDring);
  _ ← m_try public_PublishSelf;
  _ ← m_try (ring_UpdateGroupRecord privDring);
  joined ← m_try (ring_JoinViaPublicDring privDring);
  _ ← (match joined with Ok _ => m_ret tt | Err _ => m_modify (ring_Create privDring) end);
  _ ← m_modify (ring_StartBackground privDring);
  _ ← (if cfg.(mc_noBgStabilize) then m_modify (ring_PauseBackground privDring) else m_ret tt);
  m_ret (privDring, mkRingInfo groupIDStr name boundAddr).

(** Under the write lock. *)
Definition startRing_record (x : R * PrivateRingInfo) : M mworld PrivateRingInfo :=
  w ← m_get;
  _ ← set_manager (<[ri_GroupID x.2 := x.1]> w.(mw_rings)) (w.(mw_infos) ++ [x.2]);
  m_ret x.2.

Definition startRing (keyHex listenAddr name : string) (storageMaxBytes : Z) : M mworld PrivateRingInfo :=
  grp ← startRing_look keyHex;
  x ← in_env (startRing_build grp listenAddr name storageMaxBytes);
  startRing_record x.

(** A groups file that cannot be loaded counts as empty. *)
Definition loadOrEmpty : M mworld (list GroupConfig) := fun w =>
  (w, Ok (match LoadGroupsFile cfg.(mc_groupsPath) w.(mw_fs) with Ok f => f | Err _ => [] end)).

Definition JoinRing (keyHex listenAddr name : string) (storageMaxBytes : Z) : M mworld PrivateRingInfo :=
  info ← startRing keyHex listenAddr name storageMaxBytes;
  f ← loadOrEmpty;
  _ ← m_try (in_fs (SaveGroupsFile cfg.(mc_groupsPath) (AddGroup hmac (mkGroupConfig keyHex info.(ri_ListenAddr) name storageMaxBytes) f)));
  m_ret info.

(** ** Finding a ring *)

Definition ref_ambiguous (groupRef a b : string) : error :=
  errorf ("group ref " +:+ quoted groupRef +:+ " is ambiguous (matches " +:+ a +:+ " and " +:+ b +:+ ")").
Definition ref_not_found (groupRef : string) : error := errorf ("group " +:+ quoted groupRef +:+ " not found").

Fixpoint match_prefix (groupRef : string) (l : list (string * R)) (matched : option (string * R)) : result (R * string) :=
  match l with
  | [] => match matched with Some (id, r) => Ok (r, id) | None => Err (ref_not_found groupRef) end
  | (id, r) :: l' =>
      if has_prefix groupRef id then
        match matched with Some (id0, _) => Err (ref_ambiguous groupRef id0 id) | None => match_prefix groupRef l' (Some (id, r)) end
      else match_prefix groupRef l' matched
  end.

(** The ring of a name is whatever the map has, a nil pointer ([None]) included. *)
Definition resolve (groupRef : string) (w : mworld) : result (option R * string) :=
  match List.find (fun info => bool_decide (info.(ri_Name) = groupRef)) w.(mw_infos) with
  | Some info => Ok (w.(mw_rings) !! info.(ri_GroupID), info.(ri_GroupID))
  | None =>
      match w.(mw_rings) !! groupRef with
      | Some r => Ok (Some r, groupRef)
      | None =>
          match match_prefix groupRef (range_order w.(mw_env) (map_to_list w.(mw_rings))) None with
          | Ok (r, id) => Ok (Some r, id)
          | Err e => Err e
          end
      end
  end.

Definition nilPointer : error := errorf "runtime error: invalid memory address or nil pointer dereference".

(** The pointer is used. *)
Definition with_ring (ring : option R) : M mworld R := match ring with Some r => m_ret r | None => m_err nilPointer end.

Definition resolveRing (groupRef : string) : M mworld (option R) := fun w =>
  (w, match resolve groupRef w with Ok (r, _) => Ok r | Err e => Err e end).

Definition ListRings : M mworld (list PrivateRingInfo) := fun w => (w, Ok w.(mw_infos)).

(** The ring is found, then used. *)
Definition on_ring {A} (groupRef : string) (use : R -> M E A) : M mworld A :=
  ring ← resolveRing groupRef;
  r ← with_ring ring;
  in_env (use r).

Definition StabilizeRing (groupRef : string) : M mworld unit := on_ring groupRef (fun r => m_modify (ring_StabilizeFull r)).
Definition PauseRingBackground (groupRef : string) : M mworld unit := on_ring groupRef (fun r => m_modify (ring_PauseBackground r)).
Definition ResumeRingBackground (groupRef : string) : M mworld unit := on_ring groupRef (fun r => m_modify (ring_ResumeBackground r)).
Definition RingBackgroundPaused (groupRef : string) : M mworld bool := on_ring groupRef (fun r e => (e, Ok (ring_BackgroundPaused r e))).

(** [PushDAG], [FetchDAG] and [DeleteCID] decode the identifier once the ring is found. *)
Definition on_ring_cid (groupRef cidStr : string) (use : R -> cid -> M E unit) : M mworld unit :=
  ring ← resolveRing groupRef;
  match cid_Decode cidStr with
  | Err e => m_err (errorf_w ("invalid CID " +:+ quoted cidStr +:+ ": ") e "")
  | Ok c => r ← with_ring ring; in_env (use r c)
  end.

Definition mgr_PushDAG (groupRef cidStr : string) (ttl : Z) : M mworld unit :=
  on_ring_cid groupRef cidStr (fun r c => if 0 <? ttl then ring_ShareDAGWithTTL r c ttl else ring_ShareDAG r c).
Definition mgr_FetchDAG (groupRef cidStr : string) : M mworld unit := on_ring_cid groupRef cidStr ring_FetchDAG.
Definition mgr_DeleteCID (groupRef cidStr : string) : M mworld unit := on_ring_cid groupRef cidStr ring_DeleteCID.

(** ** All rings *)

Definition all_rings : M mworld (list R) := fun w => (w, Ok (range_order w.(mw_env) (map_to_list w.(mw_rings))).*2).

Fixpoint prune_each (l : list R) (total : Z) : M mworld Z :=
  match l with
  | [] => m_ret total
  | r :: l' =>
      n ← m_try (in_env (ring_PruneOutOfWindowBlocks r));
      prune_each l' (match n with Ok n => total + n | Err _ => total end)
  end.

Definition PruneAllRings : M mworld Z := rings ← all_rings; prune_each rings 0.

(** The waits run concurrently in the code; each only waits and reports, so they run in turn. *)
Fixpoint drain_rings (l : list R) (timeout : Z) (allOK : bool) : M mworld bool :=
  match l with
  | [] => m_ret allOK
  | r :: l' => ok ← in_env (pure_op (ring_WaitForReplicationDrain r timeout)); drain_rings l' timeout (if (ok : bool) then allOK else false)
  end.

Definition mgr_WaitForReplicationDrain (timeout : Z) : M mworld bool := rings ← all_rings; drain_rings rings timeout true.

(** [gcWithPrune.GC]: [public] is the public ring's [PruneOutOfWindowBlocks] and [gc] the store's [GC]. *)
Definition gcWithPrune_GC {G} (public : option (M E Z)) (gc : M E G) : M mworld G :=
  _ ← (match public with Some prune => _ ← m_try (in_env prune); m_ret tt | None => m_ret tt end);
  _ ← PruneAllRings;
  in_env gc.

(** [allRingsDrainer.WaitForReplicationDrain]. *)
Definition drain_all (public : option (Z -> E -> E * bool)) (timeout : Z) : M mworld bool :=
  pubOK ← (match public with Some wait => in_env (pure_op (wait timeout)) | None => m_ret true end);
  privOK ← mgr_WaitForReplicationDrain timeout;
  m_ret ((pubOK : bool) && (privOK : bool)).

(** ** Quotas *)

(** The entry of the group gets the limit, if there is one. *)
Fixpoint set_entry_quota (groupID : string) (max : Z) (f : list GroupConfig) : option (list GroupConfig) :=
  match f with
  | [] => None
  | g :: f' =>
      if bool_decide (NodeID_String <$> entry_group hmac g = Some groupID)
      then Some (mkGroupConfig g.(gc_GroupPrivKeyHex) g.(gc_ListenAddr) g.(gc_Name) max :: f')
      else match set_entry_quota groupID max f' with Some f'' => Some (g :: f'') | None => None end
  end.

Definition SetRingQuota (groupRef : string) (max : Z) : M mworld unit :=
  if max <? 0 then m_err (errorf "quota must be non-negative")
  else fun w =>
    match resolve groupRef w with
    | Err e => (w, Err e)
    | Ok (_, groupID) =>
        (_ ← in_env (on_networkBlocks (SetQuota groupID max));
         f ← loadOrEmpty;
         match set_entry_quota groupID max f with
         | Some f' => _ ← m_try (in_fs (SaveGroupsFile cfg.(mc_groupsPath) f')); m_ret tt
         | None => m_ret tt
         end) w
    end.

Definition RingQuota (groupRef : string) : M mworld (Z * Z) := fun w =>
  match resolve groupRef w with
  | Err e => (w, Err e)
  | Ok (_, groupID) =>
      (q ← in_env (on_networkBlocks (Quota groupID));
       u ← in_env (on_networkBlocks (UsedBytes groupID));
       m_ret (q, u)) w
  end.

(** ** Leaving *)

(** The first entry of the group goes. *)
Fixpoint drop_info (groupID : string) (l : list PrivateRingInfo) : list PrivateRingInfo :=
  match l with
  | [] => []
  | info :: l' => if decide (info.(ri_GroupID) = groupID) then l' else info :: drop_info groupID l'
  end.

Definition forget_group (groupID : string) : M mworld unit := fun w =>
  match LoadGroupsFile cfg.(mc_groupsPath) w.(mw_fs) with
  | Err _ => (w, Ok tt)
  | Ok f =>
      let '(out, removed) := RemoveGroup hmac groupID f in
      if (removed : bool) then (_ ← m_try (in_fs (SaveGroupsFile cfg.(mc_groupsPath) out)); m_ret tt) w else (w, Ok tt)
  end.

Definition LeaveRing (groupRef : string) : M mworld unit := fun w =>
  match resolve groupRef w with
  | Err e => (w, Err e)
  | Ok (ring, groupID) =>
      (_ ← set_manager (delete groupID w.(mw_rings)) (drop_info groupID w.(mw_infos));
       r ← with_ring ring;
       _ ← m_try (in_env (ring_LeaveGroup r));
       _ ← in_env (m_modify (ring_Stop r));
       forget_group groupID) w
  end.

Definition mgr_Stop : M mworld unit :=
  rings ← all_rings;
  _ ← set_manager ∅ [];
  m_forM rings (fun r => in_env (m_modify (ring_Stop r))).

(** ** Starting the daemon *)

Definition start_groups (f : list GroupConfig) : M mworld unit :=
  m_forM f (fun g =>
    _ ← m_try (startRing g.(gc_GroupPrivKeyHex) g.(gc_ListenAddr) g.(gc_Name) g.(gc_StorageMaxBytes)); m_ret tt).

Definition daemon_start : M mworld unit := groupsFile ← loadOrEmpty; start_groups groupsFile.

End Manager.

Arguments mworld : clear implicits.

(** ** What an interface must promise *)

Class RingLaws `{StoreDeps} (E R : Type) `{!RingEnv E R} : Prop := {
  range_order_perm e l : range_order e l ≡ₚ l;
  StartServer_text r listen ip : triple (fun _ => True) (ring_StartServer r listen ip) (fun a _ => ascii_text a) (fun _ => True)
}.

Definition config_strings (f : list GroupConfig) : list string :=
  f ≫= (fun g => [gc_GroupPrivKeyHex g; gc_ListenAddr g; gc_Name g]).

Section ManagerFacts.
Context (hmac : bytes -> bytes -> bytes) `{HJ : JsonDeps (list GroupConfig)} `{HM : MultiaddrDeps}.
Context `{HD : StoreDeps} {E R : Type} `{HE : !RingEnv E R} `{HEL : !RingLaws E R} (cfg : managerConfig).
#[local] Abbreviation world := (mworld E R).

Definition ids (l : list PrivateRingInfo) : list string := ri_GroupID <$> l.

(** The list shows every ring once, and nothing else. *)
Record mgr_ok (w : world) : Prop := {
  mo_once : NoDup (ids w.(mw_infos));
  mo_same id : id ∈ ids w.(mw_infos) <-> is_Some (w.(mw_rings) !! id)
}.

(** *** Finding a ring *)

Lemma match_prefix_spec ref l matched r id :
  match_prefix (R := R) ref l matched = Ok (r, id) -> Some (id, r) = matched \/ (id, r) ∈ l /\ has_prefix ref id = true.
Proof.
  revert matched. induction l as [|[id' r'] l IH]; intros matched; cbn [match_prefix].
  - destruct matched as [[id0 r0]|]; [|done]. intros [= -> ->]. by left.
  - destruct (has_prefix ref id') eqn:Hp.
    + destruct matched as [[id0 r0]|]; [done|]. intros [[= <- <-]|[Hin Hp']]%IH; right; (split; [|done]); [by left|by right].
    + intros [?|[Hin Hp']]%IH; [by left|]. right. split; [by right|done].
Qed.

(** A reference that is resolved stands for a ring that is there. *)
Lemma resolve_live ref (w : world) ring id :
  mgr_ok w -> resolve ref w = Ok (ring, id) -> exists r, ring = Some r /\ w.(mw_rings) !! id = Some r.
Proof.
  intros [_ Hsame]. unfold resolve. destruct (List.find _ _) as [info|] eqn:Hf.
  - intros [= <- <-]. apply List.find_some in Hf as [Hin _]. apply list_elem_of_In in Hin.
    destruct (proj1 (Hsame (ri_GroupID info))) as [r Hr]; [by apply list_elem_of_fmap_2|]. by exists r.
  - destruct (mw_rings w !! ref) as [r|] eqn:Hr; [intros [= <- <-]; by exists r|].
    destruct (match_prefix _ _ _) as [[r id']|e] eqn:Hm; [|done]. intros [= <- <-].
    apply match_prefix_spec in Hm as [Hm|[Hin _]]; [done|]. rewrite range_order_perm in Hin.
    apply elem_of_map_to_list in Hin. by exists r.
Qed.

Lemma match_prefix_sum ref l matched :
  match match_prefix (R := R) ref l matched, option_list matched ++ filterb (fun ir => has_prefix ref ir.1) l with
  | Ok (r, id), [ir] => ir = (id, r)
  | Err _, [] | Err _, _ :: _ :: _ => True
  | _, _ => False
  end.
Proof.
  revert matched. induction l as [|[id r] l IH]; intros matched; cbn [match_prefix].
  - by destruct matched as [[id0 r0]|].
  - rewrite filterb_cons. cbn [fst]. destruct (has_prefix ref id).
    + destruct matched as [[id0 r0]|]; [done|]. exact (IH (Some (id, r))).
    + exact (IH matched).
Qed.

(** *** Steps that leave the manager alone *)

Definition m_at (rings : gmap string R) (infos : list PrivateRingInfo) (fs : FileSystem) (w : world) : Prop :=
  w.(mw_rings) = rings /\ w.(mw_infos) = infos /\ w.(mw_fs) = fs.

Lemma keeps_in_env {A} rings infos fs (m : M E A) : keeps (m_at rings infos fs) (in_env m) (fun _ => True).
Proof. intros w (H1 & H2 & H3). unfold in_env. destruct (m (mw_env w)) as [e [a|err]]; done. Qed.

Lemma in_env_triple {A} rings infos fs (m : M E A) (Q : A -> Prop) :
  triple (fun _ => True) m (fun a _ => Q a) (fun _ => True) -> keeps (m_at rings infos fs) (in_env m) Q.
Proof.
  intros Hm w (H1 & H2 & H3). unfold in_env. specialize (Hm (mw_env w) I). by destruct (m (mw_env w)) as [e [a|err]].
Qed.

Lemma any_bind {A B} (P : Prop) (m : M E A) (k : A -> M E B) Q :
  (forall a, triple (fun _ => P) (k a) Q (fun _ => True)) -> triple (fun _ => P) (mbind k m) Q (fun _ => True).
Proof.
  intros Hk e He. unfold mbind, M_bind, m_bind. destruct (m e) as [e' [a|err]]; [|done]. by apply Hk.
Qed.

Lemma build_spec grp listen name max :
  triple (fun _ => True) (startRing_build (E := E) cfg grp listen name max)
    (fun x _ => x.2.(ri_GroupID) = GroupID_String grp /\ x.2.(ri_Name) = name /\ ascii_text x.2.(ri_ListenAddr)) (fun _ => True).
Proof.
  unfold startRing_build. do 4 (apply any_bind; intros ?).
  apply (triple_bind _ _ _ (fun addr _ => ascii_text addr)).
  { intros e _. unfold m_wrap. pose proof (StartServer_text a (ring_listenAddr listen) (mc_advertiseIP cfg) e I) as Hs.
    by destruct (ring_StartServer a _ _ e) as [e' [s|err]]. }
  intros addr. do 8 (apply any_bind; intros ?). apply triple_ret. done.
Qed.

(** *** Joining *)

Lemma startRing_spec rings infos fs keyHex listen name max :
  triple (m_at rings infos fs) (startRing (E := E) hmac cfg keyHex listen name max)
    (fun info w => exists grp r, GroupIdentityFromHex hmac keyHex = Ok grp /\ rings !! GroupID_String grp = None /\
      info.(ri_GroupID) = GroupID_String grp /\ info.(ri_Name) = name /\ ascii_text info.(ri_ListenAddr) /\
      m_at (<[GroupID_String grp := r]> rings) (infos ++ [info]) fs w)
    (m_at rings infos fs).
Proof.
  unfold startRing. apply (triple_bind _ _ _ (fun grp w => m_at rings infos fs w /\ GroupIdentityFromHex hmac keyHex = Ok grp /\
    rings !! GroupID_String grp = None)).
  { intros w Hw. unfold startRing_look. destruct (GroupIdentityFromHex hmac keyHex) as [grp|e]; [|done].
    unfold mbind, M_bind, m_bind, m_get. rewrite (proj1 Hw).
    destruct (decide (is_Some (rings !! GroupID_String grp))) as [|Hn]; [done|]. cbn. by rewrite <- eq_None_not_Some in Hn. }
  intros grp w (Hw & Hkey & Hnone).
  pose proof (in_env_triple rings infos fs _ _ (build_spec grp listen name max) w Hw) as Hb.
  unfold mbind at 1, M_bind at 1, m_bind at 1. destruct (in_env _ w) as [w1 [[r info]|e]]; [|done].
  destruct Hb as [(H1 & H2 & H3) (Hid & Hname & Haddr)]. cbn in *. exists grp, r. split_and!; [done..|]. unfold m_at. cbn. by rewrite H1, H2, Hid.
Qed.

Lemma mgr_ok_join w info r w' :
  mgr_ok w -> w.(mw_rings) !! info.(ri_GroupID) = None ->
  mw_rings w' = <[info.(ri_GroupID) := r]> w.(mw_rings) -> mw_infos w' = w.(mw_infos) ++ [info] -> mgr_ok w'.
Proof.
  intros [Ho Hs] Hn Hr Hi. split; rewrite Hi; unfold ids in *; rewrite fmap_app.
  - apply NoDup_app. split_and!; [done| |apply NoDup_singleton]. intros x Hx ->%list_elem_of_singleton.
    apply Hs in Hx. rewrite Hn in Hx. by destruct Hx.
  - intros id. rewrite Hr, elem_of_app, Hs. cbn. rewrite list_elem_of_singleton. destruct (decide (id = ri_GroupID info)) as [->|Hne].
    + rewrite lookup_insert_eq. split; [by eexists|auto].
    + rewrite lookup_insert_ne by done. split; [by intros [?|?]|auto].
Qed.

Lemma drop_info_ids id l : NoDup (ids l) -> NoDup (ids (drop_info id l)) /\ forall x, x ∈ ids (drop_info id l) <-> x <> id /\ x ∈ ids l.
Proof.
  unfold ids. induction l as [|info l IH]; cbn [drop_info].
  { intros _. split; [constructor|]. intros x. split; [by intros ?%elem_of_nil|by intros [_ ?]]. }
  rewrite fmap_cons, NoDup_cons. intros [Hn Hl]. destruct (IH Hl) as [H1 H2].
  destruct (decide (ri_GroupID info = id)) as [<-|Hne].
  - split; [done|]. intros x. rewrite elem_of_cons. split; [|naive_solver]. intros Hx. split; [by intros ->|by right].
  - rewrite fmap_cons. split.
    + constructor; [|done]. rewrite H2. naive_solver.
    + intros x. rewrite !elem_of_cons, H2. naive_solver.
Qed.

Lemma mgr_ok_leave (w w' : world) id :
  mgr_ok w -> mw_rings w' = delete id w.(mw_rings) -> mw_infos w' = drop_info id w.(mw_infos) -> mgr_ok w'.
Proof.
  intros [Ho Hs] Hr Hi. destruct (drop_info_ids id _ Ho) as [H1 H2]. split; rewrite Hi; [done|].
  intros x. rewrite H2, Hs, Hr, lookup_delete_is_Some. naive_solver.
Qed.

(** *** One operation after the other *)

Inductive mgr_op :=
  | OJoin (keyHex listenAddr name : string) (storageMaxBytes : Z)
  | OLeave (groupRef : string)
  | OQuota (groupRef : string) (max : Z)
  | OUse (groupRef : string) (use : R -> M E unit)
  | OPrune
  | OStop.

Definition run_mgr_op (o : mgr_op) : M world unit :=
  match o with
  | OJoin keyHex listen name max => _ ← JoinRing hmac cfg keyHex listen name max; m_ret tt
  | OLeave ref => LeaveRing hmac cfg ref
  | OQuota ref max => SetRingQuota hmac cfg ref max
  | OUse ref use => on_ring ref use
  | OPrune => _ ← PruneAllRings; m_ret tt
  | OStop => mgr_Stop
  end.

Definition run_mgr_ops (os : list mgr_op) (w : world) : world := foldl (fun w o => (run_mgr_op o w).1) w os.

(** Where an operation leaves the rings and the list. *)
Definition same_rings (w w' : world) : Prop := mw_rings w' = mw_rings w /\ mw_infos w' = mw_infos w.

Lemma keeps_same_env {A} w (m : M E A) : keeps (same_rings w) (in_env m) (fun _ => True).
Proof. intros w1 [H1 H2]. unfold in_env. by destruct (m (mw_env w1)) as [e [a|err]]. Qed.

Lemma keeps_same_fs {A} w (m : M FileSystem A) : keeps (same_rings w) (in_fs m) (fun _ => True).
Proof. intros w1 [H1 H2]. unfold in_fs. by destruct (m (mw_fs w1)) as [e [a|err]]. Qed.

Lemma keeps_same_load w : keeps (same_rings w) (loadOrEmpty (E := E) (R := R) cfg) (fun _ => True).
Proof. intros w1 Hw. done. Qed.

Lemma keeps_same_all w : keeps (same_rings w) (all_rings (E := E) (R := R)) (fun _ => True).
Proof. intros w1 Hw. done. Qed.

#[local] Hint Resolve keeps_same_env keeps_same_fs keeps_same_load keeps_same_all : keeps.

Lemma keeps_same_prune w l total : keeps (same_rings w) (prune_each (E := E) l total) (fun _ => True).
Proof. revert total. induction l as [|r l IH]; intros total; cbn [prune_each]; [by apply keeps_ret|]. keeps_auto. Qed.
#[local] Hint Resolve keeps_same_prune : keeps.

Lemma same_rings_ok w w' : mgr_ok w -> same_rings w w' -> mgr_ok w'.
Proof. intros [H1 H2] [Hr Hi]. split; rewrite Hi; [done|]. intros id. by rewrite Hr. Qed.

Lemma same_final {A} (m : M world A) Q w : keeps (same_rings w) m Q -> same_rings w (m w).1.
Proof. intros Hm. by apply (keeps_final _ m Q). Qed.

Definition loaded (fs : FileSystem) : list GroupConfig := match LoadGroupsFile cfg.(mc_groupsPath) fs with Ok f => f | Err _ => [] end.
Definition saved (f : list GroupConfig) (fs : FileSystem) : FileSystem := (SaveGroupsFile cfg.(mc_groupsPath) f fs).1.

Lemma JoinRing_spec rings infos fs keyHex listen name max :
  triple (m_at rings infos fs) (JoinRing (E := E) hmac cfg keyHex listen name max)
    (fun info w => exists grp r, GroupIdentityFromHex hmac keyHex = Ok grp /\ rings !! GroupID_String grp = None /\
      info.(ri_GroupID) = GroupID_String grp /\ info.(ri_Name) = name /\ ascii_text info.(ri_ListenAddr) /\
      m_at (<[GroupID_String grp := r]> rings) (infos ++ [info])
        (saved (AddGroup hmac (mkGroupConfig keyHex info.(ri_ListenAddr) name max) (loaded fs)) fs) w)
    (m_at rings infos fs).
Proof.
  unfold JoinRing. eapply triple_bind; [apply startRing_spec|]. intros info w (grp & r & Hkey & Hnone & Hid & Hname & Haddr & H1 & H2 & H3).
  unfold mbind, M_bind, m_bind, loadOrEmpty, m_try, in_fs. rewrite H3. unfold saved, loaded.
  destruct (SaveGroupsFile _ _ fs) as [fs1 res] eqn:Hs. cbn. exists grp, r. split_and!; [done..|]. unfold m_at. cbn. by rewrite Hs.
Qed.

Definition forgotten (id : string) (fs : FileSystem) : FileSystem :=
  match LoadGroupsFile cfg.(mc_groupsPath) fs with
  | Err _ => fs
  | Ok f => if (RemoveGroup hmac id f).2 then saved (RemoveGroup hmac id f).1 fs else fs
  end.

Lemma forget_group_run id (w : world) :
  forget_group hmac cfg id w = (mkWorld (mw_rings w) (mw_infos w) (forgotten id (mw_fs w)) (mw_env w), Ok tt).
Proof.
  destruct w as [rs infos fs e]. unfold forget_group, forgotten, saved. cbn [mw_fs]. destruct (LoadGroupsFile _ fs) as [f|err]; [|done].
  destruct (RemoveGroup hmac id f) as [out []]; [|done]. unfold mbind, M_bind, m_bind, m_try, in_fs. cbn.
  by destruct (SaveGroupsFile _ out fs) as [fs' []].
Qed.

Lemma LeaveRing_spec ref (w : world) r id :
  resolve ref w = Ok (Some r, id) ->
  m_at (delete id (mw_rings w)) (drop_info id (mw_infos w)) (forgotten id (mw_fs w)) (LeaveRing hmac cfg ref w).1.
Proof.
  intros Hres. unfold LeaveRing. rewrite Hres. unfold mbind, M_bind, m_bind, set_manager, with_ring, m_ret, m_try, in_env, m_modify. cbn.
  destruct (ring_LeaveGroup r (mw_env w)) as [e res]. by rewrite forget_group_run.
Qed.

(** *** Every operation keeps the list and the map together *)

Lemma mgr_op_ok o (w : world) : mgr_ok w -> mgr_ok (run_mgr_op o w).1.
Proof.
  intros Hok. destruct o as [k l n q|ref|ref q|ref use| |]; cbn [run_mgr_op].
  - pose proof (JoinRing_spec (mw_rings w) (mw_infos w) (mw_fs w) k l n q w (conj eq_refl (conj eq_refl eq_refl))) as Hj.
    unfold mbind, M_bind, m_bind. destruct (JoinRing hmac cfg k l n q w) as [w1 [info|e]].
    + destruct Hj as (grp & r & _ & Hnone & Hid & _ & _ & H1 & H2 & _). cbn. rewrite <- Hid in *. by eapply mgr_ok_join.
    + destruct Hj as (H1 & H2 & _). by apply (same_rings_ok w).
  - destruct (resolve ref w) as [[ring id]|e] eqn:Hres; [|by unfold LeaveRing; rewrite Hres].
    destruct (resolve_live ref w ring id Hok Hres) as (r & -> & _).
    destruct (LeaveRing_spec ref w r id Hres) as (H1 & H2 & _). by eapply mgr_ok_leave.
  - apply (same_rings_ok w); [done|]. apply (same_final _ (fun _ => True)). unfold SetRingQuota. destruct (q <? 0); [apply keeps_err|].
    intros w1 Hw1. destruct (resolve ref w1) as [[ring id]|e]; [|done].
    assert (keeps (same_rings w) (_ ← in_env (on_networkBlocks (SetQuota id q)); f ← loadOrEmpty cfg;
      match set_entry_quota hmac id q f with
      | Some f' => _ ← m_try (in_fs (SaveGroupsFile cfg.(mc_groupsPath) f')); m_ret tt
      | None => m_ret tt
      end) (fun _ => True)) as Hk by keeps_auto. exact (Hk w1 Hw1).
  - apply (same_rings_ok w); [done|]. apply (same_final _ (fun _ => True)). unfold on_ring.
    apply (keeps_bind _ _ _ (fun _ => True)). { intros w1 Hw1. unfold resolveRing. by destruct (resolve ref w1) as [[]|]. }
    intros ring _. apply (keeps_bind _ _ _ (fun _ => True)); [destruct ring; [by apply keeps_ret|apply keeps_err]|].
    intros r _. apply keeps_same_env.
  - apply (same_rings_ok w); [done|]. apply (same_final _ (fun _ => True)). unfold PruneAllRings. keeps_auto.
  - set (w0 := mkWorld ∅ [] (mw_fs w) (mw_env w) : world).
    assert (mgr_ok w0) as Hok0.
    { split; [constructor|]. intros id. cbn. rewrite lookup_empty. split; [by intros ?%elem_of_nil|by intros []]. }
    apply (same_rings_ok w0); [done|]. unfold mgr_Stop, mbind, M_bind, m_bind, all_rings, set_manager. fold w0.
    apply (same_final _ (fun _ => True) w0). eapply keeps_forM. intros r _. apply keeps_same_env.
Qed.

(** C39: a ring that can be named is there. After any sequence of joins, departures, quota changes,
    uses, collections and shutdowns, the list of rings names every ring of the map once and nothing
    else; so a name, an identifier or a prefix that is resolved stands for a ring, never for a nil
    pointer. *)
Theorem resolved_ring_is_live (w : world) (os : list mgr_op) (ref : string) (ring : option R) (id : string) :
  mgr_ok w -> resolve ref (run_mgr_ops os w) = Ok (ring, id) ->
  mgr_ok (run_mgr_ops os w) /\ exists r, ring = Some r /\ mw_rings (run_mgr_ops os w) !! id = Some r.
Proof.
  revert w. induction os as [|o os IH]; intros w Hok Hres; cbn [run_mgr_ops foldl] in *.
  - split; [done|]. by eapply resolve_live.
  - apply (IH (run_mgr_op o w).1); [by apply mgr_op_ok|exact Hres].
Qed.


(** *** The groups file and the rings *)

Definition ring_names (infos : list PrivateRingInfo) : list (string * string) := (fun i => (i.(ri_GroupID), i.(ri_Name))) <$> infos.
Definition file_names (f : list GroupConfig) : list (string * string) := (fun ig => (NodeID_String ig.1, ig.2.(gc_Name))) <$> grouped hmac f.

Lemma file_names_app f f' : file_names (f ++ f') = file_names f ++ file_names f'.
Proof. unfold file_names, grouped. by rewrite omap_app, fmap_app. Qed.

Lemma replace_group_new id c f :
  entry_group hmac c = Some id -> NodeID_String id ∉ (file_names f).*1 -> replace_group hmac id c f = f ++ [c].
Proof.
  intros Hc. induction f as [|g f IH]; intros Hn; cbn [replace_group]; [done|].
  unfold file_names in *. rewrite grouped_cons in Hn. destruct (entry_group hmac g) as [id'|] eqn:Hg.
  - cbn in Hn. apply not_elem_of_cons in Hn as [Hne Hn]. rewrite bool_decide_eq_false_2 by congruence. cbn. by rewrite IH.
  - rewrite bool_decide_eq_false_2 by done. cbn. by rewrite IH.
Qed.

Lemma drop_info_names id infos :
  NoDup (ids infos) -> ring_names (drop_info id infos) = filterb (fun x => negb (bool_decide (x.1 = id))) (ring_names infos).
Proof.
  unfold ids, ring_names. induction infos as [|i infos IH]; [done|]. cbn [drop_info]. rewrite !fmap_cons, NoDup_cons, filterb_cons.
  cbn [fst]. intros [Hn Hnd]. destruct (decide (ri_GroupID i = id)) as [<-|Hne].
  - rewrite bool_decide_eq_true_2 by done. cbn [negb]. symmetry. rewrite <- IH by done. clear IH Hnd.
    f_equal. induction infos as [|j infos IH]; [done|]. cbn [drop_info]. rewrite fmap_cons in Hn. apply not_elem_of_cons in Hn as [Hne Hn].
    rewrite decide_False by done. by rewrite IH.
  - rewrite bool_decide_eq_false_2 by done. cbn [negb]. rewrite fmap_cons. by rewrite IH.
Qed.

Lemma removed_names id f :
  file_names (RemoveGroup hmac id f).1 = filterb (fun x => negb (bool_decide (x.1 = id))) (file_names f).
Proof.
  unfold RemoveGroup, file_names. cbn [fst]. induction f as [|g f IH]; [done|].
  rewrite filterb_cons, grouped_cons. destruct (entry_group hmac g) as [id'|] eqn:Hg.
  - rewrite fmap_cons, filterb_cons. cbn [fst snd]. destruct (negb _); [|done]. rewrite grouped_cons, Hg. cbn. by rewrite IH.
  - rewrite grouped_cons, Hg. done.
Qed.

Lemma quota_names id max f f' :
  set_entry_quota hmac id max f = Some f' ->
  file_names f' = file_names f /\ config_strings f' = config_strings f.
Proof.
  revert f'. induction f as [|g f IH]; intros f'; cbn [set_entry_quota]; [done|].
  destruct (bool_decide _) eqn:Hb.
  - intros [= <-]. split; [|done]. unfold file_names. rewrite !grouped_cons. unfold entry_group. cbn.
    by destruct (GroupIdentityFromHex hmac (gc_GroupPrivKeyHex g)).
  - destruct (set_entry_quota hmac id max f) as [f2|]; [|done]. intros [= <-]. destruct (IH f2 eq_refl) as [H1 H2].
    unfold file_names, config_strings in *. rewrite !grouped_cons. cbn. rewrite H2. split; [|done].
    destruct (entry_group hmac g); [|done]. cbn. by rewrite H1.
Qed.

(** The groups file can be read and written, and names the rings that are joined. *)
Record tracked (w : world) : Prop := {
  tk_ok : mgr_ok w;
  tk_readable : cfg.(mc_groupsPath) ∉ w.(mw_fs).(fs_denied);
  tk_writable : cfg.(mc_groupsPath) ∉ w.(mw_fs).(fs_unwritable);
  tk_load : LoadGroupsFile cfg.(mc_groupsPath) w.(mw_fs) = Ok (loaded w.(mw_fs));
  tk_text : Forall ascii_text (config_strings (loaded w.(mw_fs)));
  tk_names : ring_names w.(mw_infos) ≡ₚ file_names (loaded w.(mw_fs))
}.

Context `{HJL : !JsonLaws (list GroupConfig) config_strings}.

Lemma tracked_saved (w w' : world) f :
  tracked w -> mgr_ok w' -> mw_fs w' = saved f w.(mw_fs) -> Forall ascii_text (config_strings f) ->
  ring_names w'.(mw_infos) ≡ₚ file_names f -> tracked w'.
Proof.
  intros [_ Hr Hw _ _ _] Hok Hfs Htext Hnames. destruct (json_roundtrip f Htext) as (data & Henc & Hdec).
  assert (mw_fs w' = mkFileSystem (<[mc_groupsPath cfg := data]> (fs_files (mw_fs w))) (fs_denied (mw_fs w)) (fs_unwritable (mw_fs w))) as Heq.
  { rewrite Hfs. unfold saved, SaveGroupsFile, os_WriteFile. by rewrite Henc, decide_False. }
  assert (LoadGroupsFile (mc_groupsPath cfg) (mw_fs w') = Ok f) as Hload.
  { rewrite Heq. unfold LoadGroupsFile, os_ReadFile. cbn. by rewrite decide_False, lookup_insert_eq, Hdec by done. }
  assert (loaded (mw_fs w') = f) as Hl by (unfold loaded; by rewrite Hload).
  split; rewrite ?Hl; [done|by rewrite Heq..|done|done|done].
Qed.

Lemma tracked_same (w w' : world) : tracked w -> same_rings w w' -> mw_fs w' = mw_fs w -> tracked w'.
Proof.
  intros [H1 H2 H3 H4 H5 H6] Hs Hfs. split; rewrite ?Hfs; [by eapply same_rings_ok|done..|]. by rewrite (proj2 Hs).
Qed.

Lemma config_strings_filterb keep f : Forall ascii_text (config_strings f) -> Forall ascii_text (config_strings (filterb keep f)).
Proof.
  unfold config_strings. induction f as [|g f IH]; [done|]. rewrite filterb_cons. cbn. rewrite !Forall_cons. intros (H1 & H2 & H3 & H4).
  destruct (keep g); [|by apply IH]. cbn. rewrite !Forall_cons. auto.
Qed.

Lemma tracked_join k l n q (w : world) : tracked w -> ascii_text n -> tracked (JoinRing hmac cfg k l n q w).1.
Proof.
  intros Ht Hn. pose proof (JoinRing_spec (mw_rings w) (mw_infos w) (mw_fs w) k l n q w (conj eq_refl (conj eq_refl eq_refl))) as Hj.
  destruct (JoinRing hmac cfg k l n q w) as [w1 [info|e]]; [|destruct Hj as (H1 & H2 & H3); by apply (tracked_same w)].
  destruct Hj as (grp & r & Hkey & Hnone & Hid & Hname & Haddr & H1 & H2 & H3). cbn [fst].
  set (c := mkGroupConfig k (ri_ListenAddr info) n q) in *.
  assert (entry_group hmac c = Some (g_GroupID grp)) as Hc by (unfold entry_group; cbn; by rewrite Hkey).
  assert (AddGroup hmac c (loaded (mw_fs w)) = loaded (mw_fs w) ++ [c]) as Hadd.
  { unfold AddGroup. cbn [c gc_GroupPrivKeyHex]. rewrite Hkey. apply replace_group_new; [done|].
    rewrite <- (tk_names _ Ht). unfold ring_names. rewrite <- list_fmap_compose. intros Hin.
    apply (mo_same _ (tk_ok _ Ht)) in Hin. fold (GroupID_String grp) in Hin. rewrite Hnone in Hin. by destruct Hin. }
  rewrite Hadd in H3. eapply (tracked_saved w); [done| |exact H3|..].
  - rewrite <- Hid in *. eapply mgr_ok_join; [apply tk_ok, Ht|exact Hnone|exact H1|exact H2].
  - unfold config_strings. rewrite bind_app. apply Forall_app. split; [apply tk_text, Ht|]. cbn. rewrite !Forall_cons.
    split_and!; [|done..]. apply (key_ascii hmac). unfold key_valid. rewrite Hkey. by eexists.
  - rewrite H2, file_names_app. unfold ring_names. rewrite fmap_app. apply Permutation_app; [apply tk_names, Ht|].
    unfold file_names. rewrite grouped_cons, Hc. cbn. by rewrite Hid, Hname.
Qed.

Lemma tracked_leave ref (w : world) : tracked w -> tracked (LeaveRing hmac cfg ref w).1.
Proof.
  intros Ht. pose proof (mgr_op_ok (OLeave ref) w (tk_ok _ Ht)) as Hok. cbn [run_mgr_op] in Hok.
  destruct (resolve ref w) as [[ring id]|e] eqn:Hres; [|unfold LeaveRing; by rewrite Hres].
  destruct (resolve_live ref w ring id (tk_ok _ Ht) Hres) as (r & -> & _).
  destruct (LeaveRing_spec ref w r id Hres) as (H1 & H2 & H3). unfold forgotten in H3. rewrite (tk_load _ Ht) in H3.
  set (w' := (LeaveRing hmac cfg ref w).1) in *.
  assert (ring_names (mw_infos w') ≡ₚ file_names (RemoveGroup hmac id (loaded (mw_fs w))).1) as Hnames.
  { rewrite H2, drop_info_names, removed_names by apply (mo_once _ (tk_ok _ Ht)). unfold filterb. by rewrite (tk_names _ Ht). }
  destruct (RemoveGroup hmac id (loaded (mw_fs w))).2 eqn:Hrem.
  - eapply (tracked_saved w); [done|done|exact H3| |done]. cbn. apply config_strings_filterb, tk_text, Ht.
  - assert ((RemoveGroup hmac id (loaded (mw_fs w))).1 = loaded (mw_fs w)) as Hall.
    { unfold RemoveGroup in *. cbn in *. apply filterb_all. apply Nat.ltb_ge in Hrem. pose proof (length_filterb
        (fun g => match entry_group hmac g with Some id0 => negb (bool_decide (NodeID_String id0 = id)) | None => true end) (loaded (mw_fs w))). lia. }
    rewrite Hall in Hnames. destruct Ht. split; rewrite ?H3; done.
Qed.

Lemma SetRingQuota_files ref max (w : world) :
  same_rings w (SetRingQuota hmac cfg ref max w).1 /\
  (mw_fs (SetRingQuota hmac cfg ref max w).1 = mw_fs w \/
   exists id f', set_entry_quota hmac id max (loaded (mw_fs w)) = Some f' /\ mw_fs (SetRingQuota hmac cfg ref max w).1 = saved f' (mw_fs w)).
Proof.
  unfold SetRingQuota, same_rings. destruct (max <? 0); [by split; [|left]|]. destruct (resolve ref w) as [[ring id]|e]; [|by split; [|left]].
  unfold mbind, M_bind, m_bind, in_env, loadOrEmpty, m_try, in_fs, saved, loaded. destruct (on_networkBlocks _ _) as [e' [[]|err]]; [|by split; [|left]].
  cbn [mw_fs mw_rings mw_infos]. destruct (set_entry_quota hmac id max _) as [f'|] eqn:Hf; [|by split; [|left]].
  cbn. destruct (SaveGroupsFile _ f' _) as [fs1 res] eqn:Hs. cbn. split; [done|]. right. exists id, f'. by rewrite Hs.
Qed.

(** The operations of a running daemon. *)
Definition running_op (o : mgr_op) : Prop := match o with OJoin _ _ name _ => ascii_text name | OStop => False | _ => True end.

Lemma keeps_at_prune rings infos fs l total : keeps (m_at rings infos fs) (prune_each (E := E) l total) (fun _ => True).
Proof.
  revert total. induction l as [|r l IH]; intros total; cbn [prune_each]; [by apply keeps_ret|].
  apply (keeps_bind _ _ _ (fun _ => True)); [|intros n _; apply IH].
  eapply keeps_weaken; [apply keeps_try, (keeps_in_env _ _ _ (ring_PruneOutOfWindowBlocks r))|done].
Qed.

Lemma tracked_op o (w : world) : tracked w -> running_op o -> tracked (run_mgr_op o w).1.
Proof.
  intros Ht Ho. assert (forall w', m_at (mw_rings w) (mw_infos w) (mw_fs w) w' -> tracked w') as Hsame.
  { intros w' (H1 & H2 & H3). by apply (tracked_same w). }
  assert (m_at (mw_rings w) (mw_infos w) (mw_fs w) w) as Hw by done.
  destruct o as [k l n q|ref|ref q|ref use| |]; cbn [run_mgr_op]; [|by apply tracked_leave| | | |done].
  - pose proof (tracked_join k l n q w Ht Ho) as Hj. unfold mbind, M_bind, m_bind. by destruct (JoinRing hmac cfg k l n q w) as [w1 [info|e]].
  - destruct (SetRingQuota_files ref q w) as [Hs [Hfs|(id & f' & Hf & Hfs)]]; [by apply (tracked_same w)|].
    destruct (quota_names id q _ f' Hf) as [Hn Hc]. eapply (tracked_saved w); [done|eapply same_rings_ok; [apply tk_ok, Ht|done]|exact Hfs|..].
    + rewrite Hc. apply tk_text, Ht.
    + rewrite Hn, (proj2 Hs). apply tk_names, Ht.
  - apply Hsame. unfold on_ring, mbind, M_bind, m_bind, resolveRing. destruct (resolve ref w) as [[[r|] id]|e]; [|done..].
    cbn. apply (keeps_final _ _ (fun _ => True) w (keeps_in_env _ _ _ (use r)) Hw).
  - apply Hsame. unfold PruneAllRings, mbind, M_bind, m_bind, all_rings.
    pose proof (keeps_at_prune _ _ _ (range_order (mw_env w) (map_to_list (mw_rings w))).*2 0 w Hw) as Hp.
    destruct (prune_each _ 0 w) as [w1 [n|e]]; [by destruct Hp|done].
Qed.

Lemma tracked_ops os (w : world) : tracked w -> Forall running_op os -> tracked (run_mgr_ops os w).
Proof.
  revert w. induction os as [|o os IH]; intros w Ht Ho; cbn [run_mgr_ops foldl]; [done|].
  apply Forall_cons in Ho as [Ho Hos]. apply IH; [by apply tracked_op|done].
Qed.

Lemma tracked_groups (w : world) : tracked w -> groups_ok hmac (loaded (mw_fs w)).
Proof.
  intros Ht. apply (NoDup_fmap_1 NodeID_String). assert (NodeID_String <$> (grouped hmac (loaded (mw_fs w))).*1 = (file_names (loaded (mw_fs w))).*1) as ->.
  { unfold file_names. by rewrite <- !list_fmap_compose. }
  rewrite <- (tk_names _ Ht). unfold ring_names. rewrite <- list_fmap_compose. apply (mo_once _ (tk_ok _ Ht)).
Qed.

(** *** Starting again *)

(** Every ring can be built in its turn: its server listens, and its limit is not below what it stores. *)
Fixpoint builds (f : list GroupConfig) (e : E) : bool :=
  match f with
  | [] => true
  | g :: f' =>
      match GroupIdentityFromHex hmac g.(gc_GroupPrivKeyHex) with
      | Err _ => builds f' e
      | Ok grp =>
          match startRing_build cfg grp g.(gc_ListenAddr) g.(gc_Name) g.(gc_StorageMaxBytes) e with
          | (e', Ok _) => builds f' e'
          | (_, Err _) => false
          end
      end
  end.

Lemma startRing_succeeds k l n q grp (w : world) e x :
  startRing_build cfg grp l n q (mw_env w) = (e, Ok x) -> GroupIdentityFromHex hmac k = Ok grp -> mw_rings w !! GroupID_String grp = None ->
  exists w' info r, startRing hmac cfg k l n q w = (w', Ok info) /\ info.(ri_GroupID) = GroupID_String grp /\ info.(ri_Name) = n /\
    mw_rings w' = <[GroupID_String grp := r]> (mw_rings w) /\ mw_infos w' = mw_infos w ++ [info] /\ mw_env w' = e.
Proof.
  intros Hb Hk Hn. pose proof (build_spec grp l n q (mw_env w) I) as Hspec. rewrite Hb in Hspec. destruct x as [r info], Hspec as (Hid & Hname & _).
  cbn in Hid, Hname. unfold startRing, startRing_look. rewrite Hk. unfold mbind, M_bind, m_bind, m_get. rewrite decide_False by (rewrite Hn; by intros []).
  cbn. unfold in_env. rewrite Hb. eexists _, info, r. split; [done|]. cbn. by rewrite Hid.
Qed.

Lemma start_groups_names f (w : world) :
  builds f (mw_env w) = true -> groups_ok hmac f -> (forall id, id ∈ (grouped hmac f).*1 -> mw_rings w !! NodeID_String id = None) ->
  ring_names (mw_infos (start_groups hmac cfg f w).1) = ring_names (mw_infos w) ++ file_names f.
Proof.
  unfold start_groups, file_names, groups_ok. revert w. induction f as [|g f IH]; intros w Hb Hnd Hfree.
  { cbn. by rewrite app_nil_r. }
  cbn [m_forM]. unfold m_bind at 1. unfold mbind at 1, M_bind at 1, m_bind at 1, m_try at 1. rewrite grouped_cons in *.
  unfold entry_group in *. cbn [builds] in Hb. destruct (GroupIdentityFromHex hmac (gc_GroupPrivKeyHex g)) as [grp|e] eqn:Hk.
  - cbn in Hnd. apply NoDup_cons in Hnd as [Hnew Hnd]. destruct (startRing_build _ _ _ _ _ _) as [e [x|err]] eqn:He; [|done].
    destruct (startRing_succeeds _ (gc_ListenAddr g) (gc_Name g) (gc_StorageMaxBytes g) grp w e x He Hk) as (w' & info & r & -> & Hid & Hname & Hr & Hi & Hw').
    { apply Hfree. by left. }
    cbn. rewrite IH; [|by rewrite Hw'|done|].
    + rewrite Hi. unfold ring_names. rewrite fmap_app, <- app_assoc. cbn. by rewrite Hid, Hname.
    + intros id Hin. rewrite Hr, lookup_insert_ne; [apply Hfree; by right|]. intros Heq%NodeID_String_inj. by subst.
  - unfold startRing, startRing_look. rewrite Hk. cbn. by apply IH.
Qed.

(** C38: a daemon that is started again joins the rings it was in. Whatever joins, departures, quota
    changes and uses a running daemon went through, and whether it was stopped or killed afterwards, a
    start that can build every ring ends in exactly the rings that were joined and not left, each under
    its name. *)
Theorem restart_rejoins (w : world) (os : list mgr_op) (env : E) :
  tracked w -> Forall running_op os -> builds (loaded (mw_fs (run_mgr_ops os w))) env = true ->
  ring_names (mw_infos (daemon_start hmac cfg (mkWorld ∅ [] (mw_fs (run_mgr_ops os w)) env)).1) ≡ₚ ring_names (mw_infos (run_mgr_ops os w)).
Proof.
  intros Ht Ho Hb. pose proof (tracked_ops os w Ht Ho) as Ht'. pose proof (tracked_groups _ Ht') as Hg.
  unfold daemon_start, mbind, M_bind, m_bind, loadOrEmpty. cbn [mw_fs]. fold (loaded (mw_fs (run_mgr_ops os w))).
  rewrite start_groups_names; [|done|done|intros id _; apply lookup_empty]. cbn. symmetry. apply tk_names, Ht'.
Qed.

(** *** The order of the map *)

(** What a reference stands for does not depend on the order in which the map of rings is
    visited: two visits of the same rings in any two orders find the same ring, or both refuse. *)
Theorem resolve_any_order (ref : string) (w w' : world) :
  same_rings w w' ->
  match resolve ref w, resolve ref w' with Ok x, Ok y => x = y | Err _, Err _ => True | _, _ => False end.
Proof.
  intros [Hr Hi]. unfold resolve. rewrite Hr, Hi. destruct (List.find _ _) as [info|]; [done|].
  destruct (mw_rings w !! ref) as [r|]; [done|]. pose proof (match_prefix_sum ref (range_order (mw_env w) (map_to_list (mw_rings w))) None) as H1.
  pose proof (match_prefix_sum ref (range_order (mw_env w') (map_to_list (mw_rings w))) None) as H2. cbn [option_list app] in *.
  assert (filterb (fun ir => has_prefix ref ir.1) (range_order (mw_env w) (map_to_list (mw_rings w))) ≡ₚ
    filterb (fun ir => has_prefix ref ir.1) (range_order (mw_env w') (map_to_list (mw_rings w)))) as Hp.
  { unfold filterb. by rewrite !range_order_perm. }
  destruct (filterb _ (range_order (mw_env w) _)) as [|x [|y l]].
  - apply Permutation_nil_l in Hp. rewrite <- Hp in H2. by destruct (match_prefix _ _ _) as [[]|], (match_prefix _ _ _) as [[]|].
  - apply Permutation_singleton_l in Hp. rewrite <- Hp in H2. destruct (match_prefix _ _ _) as [[]|], (match_prefix _ _ _) as [[]|]; try done. congruence.
  - destruct (filterb _ (range_order (mw_env w') _)) as [|x' [|y' l']]; [by apply Permutation_nil_r in Hp|by apply Permutation_singleton_r in Hp|].
    by destruct (match_prefix _ _ _) as [[]|], (match_prefix _ _ _) as [[]|].
Qed.

(** *** A groups file that cannot be loaded *)

(** Joining a ring discards a groups file that cannot be loaded. When the file cannot be read or
    parsed but can be written, a join that succeeds replaces it by one with the new group only: the
    keys of the groups that were in it are gone. *)
Theorem join_discards_unreadable_file (w w' : world) (keyHex listen name : string) (max : Z) (info : PrivateRingInfo) (e : error) :
  LoadGroupsFile cfg.(mc_groupsPath) w.(mw_fs) = Err e -> cfg.(mc_groupsPath) ∉ w.(mw_fs).(fs_unwritable) -> ascii_text name ->
  JoinRing hmac cfg keyHex listen name max w = (w', Ok info) ->
  exists data, w'.(mw_fs).(fs_files) !! cfg.(mc_groupsPath) = Some data /\
    json_Unmarshal data = Ok [mkGroupConfig keyHex info.(ri_ListenAddr) name max].
Proof.
  intros Hload Hw Hn Hj. pose proof (JoinRing_spec (mw_rings w) (mw_infos w) (mw_fs w) keyHex listen name max w (conj eq_refl (conj eq_refl eq_refl))) as Hspec.
  rewrite Hj in Hspec. destruct Hspec as (grp & r & Hkey & _ & _ & _ & Haddr & _ & _ & Hfs).
  unfold loaded in Hfs. rewrite Hload in Hfs. unfold AddGroup in Hfs. cbn [gc_GroupPrivKeyHex] in Hfs. rewrite Hkey in Hfs.
  cbn [replace_group] in Hfs. set (c := mkGroupConfig keyHex (ri_ListenAddr info) name max) in *.
  assert (Forall ascii_text (config_strings [c])) as Htext.
  { cbn. rewrite !Forall_cons. split_and!; [|done..]. apply (key_ascii hmac). unfold key_valid. rewrite Hkey. by eexists. }
  destruct (json_roundtrip [c] Htext) as (data & Henc & Hdec). exists data. split; [|done].
  rewrite Hfs. unfold saved, SaveGroupsFile, os_WriteFile. rewrite Henc, decide_False by done. cbn. by rewrite lookup_insert_eq.
Qed.

(** *** Two joins at once *)

(** Handlers that join, each before one of its three steps. *)
Inductive join_thread :=
  | TLook (keyHex listenAddr name : string) (storageMaxBytes : Z)
  | TBuild (grp : GroupIdentity) (listenAddr name : string) (storageMaxBytes : Z)
  | TRecord (x : R * PrivateRingInfo)
  | TEnd.

Definition thread_step (t : join_thread) : M world join_thread :=
  match t with
  | TLook k l n q => grp ← startRing_look hmac k; m_ret (TBuild grp l n q)
  | TBuild grp l n q => x ← in_env (startRing_build cfg grp l n q); m_ret (TRecord x)
  | TRecord x => _ ← startRing_record x; m_ret TEnd
  | TEnd => m_ret TEnd
  end.

(** Any of them moves; one that fails ends. *)
Inductive jstep : world * list join_thread -> world * list join_thread -> Prop :=
  | JStep i t w w' r ts : ts !! i = Some t -> t <> TEnd -> thread_step t w = (w', r) ->
      jstep (w, ts) (w', <[i := match r with Ok t' => t' | Err _ => TEnd end]> ts).

Lemma find_name_app n l i l' :
  n ∉ ri_Name <$> l -> i.(ri_Name) = n -> List.find (fun info => bool_decide (info.(ri_Name) = n)) (l ++ i :: l') = Some i.
Proof.
  intros Hn Hi. induction l as [|j l IH]; cbn; [by rewrite bool_decide_eq_true_2|].
  apply not_elem_of_cons in Hn as [Hne Hn]. rewrite bool_decide_eq_false_2 by done. by apply IH.
Qed.

Lemma drop_info_app id l i l' : id ∉ ids l -> i.(ri_GroupID) = id -> drop_info id (l ++ i :: l') = l ++ l'.
Proof.
  intros Hn Hi. unfold ids in Hn. induction l as [|j l IH]; cbn; [by rewrite decide_True|].
  apply not_elem_of_cons in Hn as [Hne Hn]. rewrite decide_False by done. by rewrite IH.
Qed.

Lemma look_ok k l n q grp (w : world) :
  GroupIdentityFromHex hmac k = Ok grp -> mw_rings w !! GroupID_String grp = None ->
  thread_step (TLook k l n q) w = (w, Ok (TBuild grp l n q)).
Proof.
  intros Hk Hn. cbn [thread_step]. unfold startRing_look. rewrite Hk. unfold mbind, M_bind, m_bind, m_get.
  rewrite decide_False by (rewrite Hn; by intros []). done.
Qed.

Lemma build_ok grp l n q (w : world) e x :
  startRing_build cfg grp l n q (mw_env w) = (e, Ok x) ->
  thread_step (TBuild grp l n q) w = (mkWorld (mw_rings w) (mw_infos w) (mw_fs w) e, Ok (TRecord x)) /\
    x.2.(ri_GroupID) = GroupID_String grp /\ x.2.(ri_Name) = n.
Proof.
  intros He. pose proof (build_spec grp l n q (mw_env w) I) as Hspec. rewrite He in Hspec. destruct Hspec as (Hid & Hname & _).
  cbn [thread_step]. unfold mbind, M_bind, m_bind, in_env. by rewrite He.
Qed.

(** C40: two joins of one group at once leave a name without a ring. The look-up and the recording of
    a join are two critical sections, so two handlers that join the same group can both find it absent
    and both record it: the ring is listed twice. Once it is left by its name, the name is still
    listed, resolves to a nil pointer, and every use of it panics. *)
Theorem concurrent_joins_dangle (w : world) (k l n : string) (q : Z) (grp : GroupIdentity) :
  mgr_ok w -> GroupIdentityFromHex hmac k = Ok grp -> mw_rings w !! GroupID_String grp = None ->
  builds [mkGroupConfig k l n q; mkGroupConfig k l n q] (mw_env w) = true -> n ∉ ri_Name <$> mw_infos w ->
  exists w1, rtc jstep (w, [TLook k l n q; TLook k l n q]) (w1, [TEnd; TEnd]) /\
    (LeaveRing hmac cfg n w1).2 = Ok tt /\
    resolve n (LeaveRing hmac cfg n w1).1 = Ok (None, GroupID_String grp) /\
    forall A (use : R -> M E A), (on_ring n use (LeaveRing hmac cfg n w1).1).2 = Err nilPointer.
Proof.
  intros Hok Hk Hn Hb Hname. cbn [builds gc_GroupPrivKeyHex gc_ListenAddr gc_Name gc_StorageMaxBytes] in Hb. rewrite Hk in Hb.
  destruct (startRing_build _ grp l n q (mw_env w)) as [e1 [[r1 i1]|]] eqn:He1; [|done].
  destruct (startRing_build _ grp l n q e1) as [e2 [[r2 i2]|]] eqn:He2; [|done]. clear Hb.
  destruct (build_ok grp l n q w e1 _ He1) as (Hb1 & Hid1 & Hn1). set (wa := mkWorld (mw_rings w) (mw_infos w) (mw_fs w) e1 : world) in *.
  destruct (build_ok grp l n q wa e2 _ He2) as (Hb2 & Hid2 & Hn2). cbn [fst snd mw_rings mw_infos mw_fs wa] in *.
  set (w1 := mkWorld (<[ri_GroupID i2 := r2]> (<[ri_GroupID i1 := r1]> (mw_rings w))) ((mw_infos w ++ [i1]) ++ [i2]) (mw_fs w) e2 : world).
  assert (resolve n w1 = Ok (Some r2, GroupID_String grp)) as Hres.
  { unfold resolve. cbn [w1 mw_infos mw_rings]. rewrite <- app_assoc. cbn [app]. rewrite find_name_app by done. by rewrite Hid1, Hid2, lookup_insert_eq. }
  assert (GroupID_String grp ∉ ids (mw_infos w)) as Hfree.
  { intros Hin%(mo_same _ Hok). rewrite Hn in Hin. by destruct Hin. }
  destruct (LeaveRing_spec n w1 r2 _ Hres) as (H1 & H2 & _). cbn [w1 mw_infos mw_rings] in H1, H2.
  rewrite <- app_assoc in H2. cbn [app] in H2. rewrite drop_info_app in H2 by done.
  assert (resolve n (LeaveRing hmac cfg n w1).1 = Ok (None, GroupID_String grp)) as Hnil.
  { unfold resolve. rewrite H1, H2, find_name_app by done. by rewrite Hid2, lookup_delete_eq. }
  exists w1. split_and!; [|..|done|].
  - eapply rtc_l; [eapply (JStep 0); [reflexivity|done|exact (look_ok k l n q grp w Hk Hn)]|].
    eapply rtc_l; [eapply (JStep 1); [reflexivity|done|exact (look_ok k l n q grp w Hk Hn)]|].
    eapply rtc_l; [eapply (JStep 0); [reflexivity|done|exact Hb1]|].
    eapply rtc_l; [eapply (JStep 1); [reflexivity|done|exact Hb2]|].
    eapply rtc_l; [eapply (JStep 0); [reflexivity|done|reflexivity]|].
    eapply rtc_l; [eapply (JStep 1); [reflexivity|done|reflexivity]|]. apply rtc_refl.
  - unfold LeaveRing. rewrite Hres. unfold mbind, M_bind, m_bind, set_manager, with_ring, m_ret, m_try, in_env, m_modify. cbn.
    destruct (ring_LeaveGroup r2 e2) as [e res]. by rewrite forget_group_run.
  - intros A use. unfold on_ring, mbind, M_bind, m_bind, resolveRing. by rewrite Hnil.
Qed.

End ManagerFacts.

(** ** The properties apply *)

(** Rings are numbers, handed out in order; every server listens on the same address. *)
Module ManagerExample.
Import MemStore KeyExample.

#[export] Instance no_multiaddr : MultiaddrDeps := {|
  multiaddr := string;
  NewMultiaddr := fun _ => Err (errorf "invalid multiaddr");
  ValueForProtocol := fun _ _ => Err (errorf "no such protocol")
|}.

#[export] Instance GroupConfig_eq_dec : EqDecision GroupConfig.
Proof. solve_decision. Defined.
#[export] Instance GroupConfig_countable : Countable GroupConfig.
Proof.
  refine (inj_countable' (fun g => (gc_GroupPrivKeyHex g, gc_ListenAddr g, gc_Name g, gc_StorageMaxBytes g))
    (fun x => mkGroupConfig x.1.1.1 x.1.1.2 x.1.2 x.2) _). by intros [].
Defined.
#[export] Instance groups_laws : JsonLaws (list GroupConfig) config_strings := binary_codec_laws config_strings.

Definition env : Type := (@NBS deps * nat)%type.

#[export] Instance numbered : RingEnv env nat := {|
  re_nbs := fst;
  re_set_nbs := fun s e => (s, e.2);
  NewPrivateDring := fun _ e => ((e.1, S e.2), e.2);
  ring_SetMetrics := fun _ e => e;
  ring_StartServer := fun _ _ _ e => (e, Ok "/ip4/10.0.0.1/tcp/7000");
  os_MkdirAll := fun _ e => (e, Ok tt);
  ring_SetGroupRecordCachePath := fun _ _ e => e;
  ring_SetPublicDring := fun _ e => e;
  public_PublishSelf := fun e => (e, Err (errorf "no public ring"));
  ring_UpdateGroupRecord := fun _ e => (e, Ok tt);
  ring_JoinViaPublicDring := fun _ e => (e, Err (errorf "no members"));
  ring_Create := fun _ e => e;
  ring_StartBackground := fun _ e => e;
  ring_PauseBackground := fun _ e => e;
  ring_ResumeBackground := fun _ e => e;
  ring_BackgroundPaused := fun _ _ => false;
  ring_StabilizeFull := fun _ e => e;
  ring_ShareDAG := fun _ _ e => (e, Ok tt);
  ring_ShareDAGWithTTL := fun _ _ _ e => (e, Ok tt);
  ring_FetchDAG := fun _ _ e => (e, Ok tt);
  ring_DeleteCID := fun _ _ e => (e, Ok tt);
  ring_PruneOutOfWindowBlocks := fun _ e => (e, Ok 0);
  ring_WaitForReplicationDrain := fun _ _ e => (e, true);
  ring_LeaveGroup := fun _ e => (e, Err (errorf "no public ring"));
  ring_Stop := fun _ e => e;
  range_order := fun e l => if Nat.even e.2 then l else rev l;
  cid_Decode := cid_Parse
|}.

#[export] Instance numbered_laws : RingLaws env nat.
Proof.
  split; [intros e l; cbn; destruct (Nat.even e.2); [done|symmetry; apply Permutation_rev]|].
  intros r listen ip e _. cbn. repeat constructor.
Qed.

Definition config : managerConfig := mkManagerConfig "groups.json" "" false "" false.
Definition store : NBS := mkNBS (∅ : gmap string bytes) (∅ : gmap bytes bytes) 0 0 0 ∅ ∅.
Definition start : mworld env nat := mkWorld ∅ [] empty_disk (store, 0%nat).

Lemma start_mgr_ok : mgr_ok start.
Proof. split; [constructor|]. intros id. cbn. rewrite lookup_empty. split; [by intros ?%elem_of_nil|by intros []]. Qed.

Definition ops : list (mgr_op (E := env) (R := nat)) :=
  [OJoin key1 "" "home" 0; OJoin key2 "" "work" 5; OQuota "work" 9; OLeave "home"].

Definition id_of (k : string) : string := match GroupIdentityFromHex hmac0 k with Ok grp => GroupID_String grp | Err _ => "" end.

Lemma resolved_ring_is_live_witness :
  resolve "work" (run_mgr_ops hmac0 config ops start) = Ok (Some 1%nat, id_of key2) /\
  mw_rings (run_mgr_ops hmac0 config ops start) !! id_of key2 = Some 1%nat.
Proof.
  assert (resolve "work" (run_mgr_ops hmac0 config ops start) = Ok (Some 1%nat, id_of key2)) as Hres by (vm_compute; reflexivity).
  split; [exact Hres|].
  destruct (resolved_ring_is_live hmac0 config start ops "work" _ _ start_mgr_ok Hres) as (_ & r & [= <-] & Hr). exact Hr.
Defined.

Lemma restart_rejoins_witness :
  ring_names (mw_infos (daemon_start hmac0 config (mkWorld ∅ [] (mw_fs (run_mgr_ops hmac0 config ops start)) (store, 7%nat))).1) ≡ₚ
    [(id_of key2, "work")].
Proof.
  assert (ring_names (mw_infos (run_mgr_ops hmac0 config ops start)) = [(id_of key2, "work")]) as Hnames by (vm_compute; reflexivity).
  rewrite <- Hnames. apply (restart_rejoins hmac0 config start ops (store, 7%nat)).
  - split; [exact start_mgr_ok|apply not_elem_of_empty|apply not_elem_of_empty|reflexivity|constructor|constructor].
  - repeat constructor.
  - vm_compute. reflexivity.
Defined.

Lemma resolve_any_order_witness :
  resolve (id_of key2) (mkWorld {[id_of key2 := 1%nat]} [] empty_disk (store, 0%nat)) =
    resolve (id_of key2) (mkWorld {[id_of key2 := 1%nat]} [] empty_disk (store, 1%nat)).
Proof.
  assert (same_rings (E := env) (mkWorld {[id_of key2 := 1%nat]} [] empty_disk (store, 0%nat)) (mkWorld {[id_of key2 := 1%nat]} [] empty_disk (store, 1%nat)))
    as Hsame by done.
  pose proof (resolve_any_order (id_of key2) _ _ Hsame) as Heq. revert Heq. vm_compute. done.
Defined.

(** A groups file that is not what the codec wrote. *)
Definition damaged : mworld env nat := mkWorld ∅ [] (mkFileSystem {["groups.json" := "1"]} ∅ ∅) (store, 0%nat).

Lemma join_discards_unreadable_file_witness :
  exists data, (JoinRing hmac0 config key1 "" "home" 0 damaged).1.(mw_fs).(fs_files) !! "groups.json" = Some data /\
    json_Unmarshal data = Ok [mkGroupConfig key1 "/ip4/10.0.0.1/tcp/7000" "home" 0].
Proof.
  destruct (JoinRing hmac0 config key1 "" "home" 0 damaged) as [w' res] eqn:Hj.
  assert (res = Ok (mkRingInfo (id_of key1) "home" "/ip4/10.0.0.1/tcp/7000")) as Hres.
  { change res with (w', res).2. rewrite <- Hj. vm_compute. reflexivity. }
  rewrite Hres in Hj. assert (exists e, LoadGroupsFile "groups.json" (mw_fs damaged) = Err e) as [e He] by (eexists; vm_compute; reflexivity).
  exact (join_discards_unreadable_file hmac0 config damaged w' key1 "" "home" 0 _ e He (not_elem_of_empty _)
    ltac:(repeat constructor) Hj).
Defined.

Lemma concurrent_joins_dangle_witness :
  exists w1, rtc (jstep hmac0 config) (start, [TLook key1 "" "home" 0; TLook key1 "" "home" 0]) (w1, [TEnd; TEnd]) /\
    resolve "home" (LeaveRing hmac0 config "home" w1).1 = Ok (None, id_of key1).
Proof.
  destruct (GroupIdentityFromHex hmac0 key1) as [grp|e] eqn:Hk; [|exfalso; revert Hk; vm_compute; discriminate].
  assert (GroupID_String grp = id_of key1) as Hid by (unfold id_of; by rewrite Hk).
  destruct (concurrent_joins_dangle hmac0 config start key1 "" "home" 0 grp start_mgr_ok Hk) as (w1 & Hrun & _ & Hnil & _).
  - reflexivity.
  - vm_compute. reflexivity.
  - apply not_elem_of_nil.
  - exists w1. rewrite <- Hid. by split.
Defined.

End ManagerExample.
